(* ===== verification/_CoqProject ===== *)
-Q . S2P
Prelude.v
Locks.v
Lab1.v
Lab2.v
Spin.v
Peterson.v
PetersonTso.v
Clh.v
ListHeap.v
ListClient.v
NodeLocks.v
CoarseList.v
FineList.v
OptimisticList.v
StubList.v
Rwlock.v
FetchAdd.v
Lfqueue.v
Graph.v
P1Context.v
P1Search.v
P1Bfs.v
P1Multi.v
P1MultiEnd.v
P1Pool.v
P1Main.v
P1Pooled.v
P1TestMaker.v
P2Node.v
P2Mutex.v
P2Mvcc.v
Lab4.v
Crc32.v
Adler32.v
BufPage.v
BufChunk.v
UtList.v
BufLru.v
BufPool.v
BufBuddy.v
BufTable.v
Timers.v
