(* ===== verification/Prelude.v ===== *)
(** * Concurrent programming exercises and projects, verified

    The repository is a course on multicore programming: small programs that share counters
    and locks (src/Lab1 to src/Lab7), concurrent lists (src/Lab11), a bounded queue (src/Lab12),
    a parallel shortest-path program (src/Project1, src/Lab4), a multi-version store with a
    garbage collector (src/Project2), and a change to the buffer pool of MariaDB
    (src/Project3/ryul).  The programs are separate; inside each one the threads interact through
    shared variables, so most of the development is about interleavings.

    ** How the code is modelled

    A thread is a program counter with its locals, a program is a record of the shared memory
    and the threads, and [next] runs one step of one thread: one access to shared memory, one
    operation of a mutex, or, where the header of the file says so, a section under a mutex.
    [next] is executable; [run] or [step] is the relation it defines, and [reachable] is its
    closure.  Invariants are shown by induction along runs.  Memory is sequentially consistent
    except in PetersonTso.
    What C++ leaves undefined (an index outside an array, a node that was freed, input that ends
    early) has no result, so a theorem that gives a result also says that it does not happen.
    Integers are [Z] with the wrap-around of their type ([i32], [u32], [u64]) where it matters.
    Loops over data use recursion on the data, or [fuel] equal to the length of the data, which
    is shown to be enough where the loop is specified; loops that wait are steps that stay.

    ** The files

    - Prelude: machine integers, sums, updates of thread lists, runs and invariants along them.
    - Locks: the interfaces [LockImpl] (the code of a lock) and [LockSpec] (mutual exclusion and
      progress), and the counting program that most exercises share, proved against them.
    - Lab1, Lab2, Spin, Peterson, Clh: prac_pthread.cpp without a lock, and the locks of
      prac_mutex.cpp, tas.cpp, ttas.cpp, lock.cpp and clh.cpp as instances.  The programs print
      the right counts and never deadlock; for CLH the nodes of the queue are never used after
      they were freed.  Without a lock increments are lost.
    - PetersonTso: the lock of lock.cpp with store buffers, where the fence that is commented out
      turns out to be needed.
    - FetchAdd, Rwlock, Lfqueue: fetch_and_add_test.cpp, rwlock.cc, lfqueue.cc with its tests.  A
      call of the queue returns, is still running, or writes outside its array.
    - Timers: the counting programs of Lab5; when Boost.Asio starts a handler is a parameter.
    - ListHeap, NodeLocks, ListClient: sorted linked lists in memory, mutexes in nodes, and the
      driver program of Lab11 against the interface [ListSpec], a forward simulation by a set
      whose steps are the calls, the effects and the returns of the operations.
    - CoarseList, FineList, OptimisticList, StubList: coarse_grained.cpp, fine_grained.cpp,
      optimistic.cpp, and the two unfinished lists.  The first three implement [ListSpec], so the
      whole program is linearizable: its history of calls and returns is that of a set on which
      every operation takes effect at one point between its call and its return.  Keys are
      below INT_MAX, the key of the tail sentinel.  What the mutexes of the
      sentinels, which the code does not initialize, hold at the start is an argument of the
      model; the theorems on the last two of these lists suppose that they are unlocked.
    - Graph: walks and distances, the reference for the searches.
    - P1Context, P1Search, P1Bfs, P1Multi, P1MultiEnd, P1Pool, P1Main, P1Pooled, P1TestMaker:
      Project1.
      The reader stores the graph of the input; both searches implement [SearchSpec], and each
      of their steps makes them smaller ([SearchMeasure]); the workers and [main] are proved
      against these interfaces, end, and print the smallest and the largest distance between
      houses.  P1Pooled puts the program under the control of its two pools of vectors (P1Pool),
      which can break: a thread can take the front of an empty list, and then the model stops.
      The generator of test inputs is on its own.
    - Lab4: project1_TA.cpp, the version with meeting searches, whose depths are kept in 16 bits.
    - P2Node, P2Mutex, P2Mvcc: Project2.  The pointer lists implement sequences; [MyMutex] is a
      lock.  The version counter wraps around; up to 2^31 - 1 rounds, and when the collector reads
      a list head once, updaters read consistent snapshots and the collector deletes nothing that
      is needed.  The code reads the head twice, and then it can.
    - Crc32, Adler32, BufPage, BufChunk, BufPool: the modified buf0buf.cc with what it calls in
      the storage engine.  The checksum routines equal their definitions; pages that are written
      pass the test when they are read under an algorithm that allows their format, torn and
      damaged pages are found; the frames of an instance lie where they should; the concurrent
      [buf_pool_init] is correct when the threads do not race on the shared parameter block and
      the result of the joins, which the code does not initialize, is 0; it can fail otherwise.
      BufPool takes [buf_LRU_old_ratio_update] from BufLru.
    - UtList, BufLru: ut0lst.h and the LRU list of buf0lru.cc with the callers in buf0buf.cc.  The
      pointer operations implement sequences; every operation keeps the list as the validation
      of the code wants it, and moves only the page it is about.
    - BufBuddy: the allocator of compressed pages, buf0buddy.cc.  Threads that allocate and free
      blocks and move pages never overlap or lose a block or a byte of a page, and they end.
    - BufTable: the page table of buf0buf.cc and the freeing of pages in buf0lru.cc.  The page table,
      the LRU list and the fix counts agree whatever the threads do, no page is freed that is
      used, and a purge thread that watches for a page learns that it has come.

    ** What the theorems show

    Correctness of whole programs (what is printed, for every interleaving), as refinement of a
    sequential specification where there is one: the lists, Project1, Project2, [buf_pool_init],
    the contents of compressed pages.
    Progress: no reachable state is stuck; for the lists, each thread has finished, waits for a
    mutex of a node that is there, or can move.  Every run of Project1 ends, whatever the number
    of threads, and on one core always with [main] having returned.
    Equivalence of the optimised checksum routines with their definitions.  Round trips of the
    reader with the printed input and of writing and testing a page.  Invariants that the code
    itself states, such as the validation of the LRU list, hold after every operation.
    Behaviour that the code does not mean to have is shown by runs that reach it: the lost
    update, the reader beside the writer, the queue that never accepts an element, the race in
    timer_fix_race.cpp, the second read of a list head in the collector, the empty vector pool,
    the sentinel whose mutex was never initialized, and the instance that [buf_pool_init] forgets.

    ** Bounds

    The number of threads and of operations is that of the programs, or arbitrary where the
    proof does not need it: locks and lists are proved for any number of threads.  Project1 is
    proved for at most 64 cores per house, as many as the code has bits for; the allocator for
    pages of up to 64 kilobytes, the largest there are.  The tables of the CRC are computed
    once.  Sample runs that witness the hypotheses are small.

    ** Not modelled

    Weak memory apart from PetersonTso, timing and sleeps, messages and time measurements.
    Boost.Asio, the C library and the operating system are parameters or absent.  Of the MariaDB
    server, which is vendored, only the functions named above; the rest of buf0buf.cc (latches of
    pages, the choice of pages to evict, I/O completion) and srv0start.cc are the server's own
    code and depend on all of it.
    malloc_test.cpp, timer_sync.cpp and timer_async.cpp have no result to speak about. *)
From stdpp Require Export prelude gmap.

Local Open Scope Z_scope.

(** * Machine integers *)

(** Two's-complement wrap-around of a 32-bit [int], of a 64-bit [long], and the
    unsigned 32- and 64-bit reductions. *)
Definition i32 (z : Z) : Z := (z + 2 ^ 31) mod 2 ^ 32 - 2 ^ 31.
Definition i64 (z : Z) : Z := (z + 2 ^ 63) mod 2 ^ 64 - 2 ^ 63.
Definition u32 (z : Z) : Z := z mod 2 ^ 32.
Definition u64 (z : Z) : Z := z mod 2 ^ 64.

Definition INT_MAX : Z := 2147483647.
Definition INT_MIN : Z := -2147483648.

Create HintDb machine.

Lemma i32_id z : -2 ^ 31 ≤ z < 2 ^ 31 → i32 z = z.
Proof. intros ?. unfold i32. rewrite Z.mod_small; lia. Qed.

Lemma i64_id z : -2 ^ 63 ≤ z < 2 ^ 63 → i64 z = z.
Proof. intros ?. unfold i64. rewrite Z.mod_small; lia. Qed.

Lemma i32_range z : -2 ^ 31 ≤ i32 z < 2 ^ 31.
Proof. unfold i32. pose proof (Z.mod_pos_bound (z + 2 ^ 31) (2 ^ 32)). lia. Qed.

Lemma u32_id z : 0 ≤ z < 2 ^ 32 → u32 z = z.
Proof. intros ?. unfold u32. rewrite Z.mod_small; lia. Qed.

Lemma u64_id z : 0 ≤ z < 2 ^ 64 → u64 z = z.
Proof. intros ?. unfold u64. rewrite Z.mod_small; lia. Qed.

Lemma u32_range z : 0 ≤ u32 z < 2 ^ 32.
Proof. apply Z.mod_pos_bound. lia. Qed.

Lemma u64_range z : 0 ≤ u64 z < 2 ^ 64.
Proof. apply Z.mod_pos_bound. lia. Qed.

#[export] Hint Resolve i32_range u32_range u64_range : machine.

(** * Sums over lists of threads *)

Fixpoint Zsum {A} (f : A → Z) (l : list A) : Z :=
  match l with
  | [] => 0
  | x :: l => f x + Zsum f l
  end.

Lemma Zsum_insert {A} (f : A → Z) (l : list A) i x y :
  l !! i = Some x → Zsum f (<[i:=y]> l) = Zsum f l - f x + f y.
Proof.
  revert i. induction l as [|z l IH]; intros [|i] Hi; simplify_eq/=; [lia|].
  rewrite (IH i Hi). lia.
Qed.

Lemma Zsum_ext {A} (f g : A → Z) (l : list A) :
  (∀ x, x ∈ l → f x = g x) → Zsum f l = Zsum g l.
Proof.
  induction l as [|x l IH]; intros H; [done|]. simpl.
  rewrite (H x), IH; [done| |]; set_solver.
Qed.

Lemma Zsum_const {A} (f : A → Z) (l : list A) c :
  (∀ x, x ∈ l → f x = c) → Zsum f l = Z.of_nat (length l) * c.
Proof.
  induction l as [|x l IH]; intros H; [done|]. cbn [Zsum length].
  rewrite (H x), IH; [lia| |]; set_solver.
Qed.

Lemma Zsum_le {A} (f : A → Z) (l : list A) c :
  (∀ x, x ∈ l → f x ≤ c) → Zsum f l ≤ Z.of_nat (length l) * c.
Proof.
  induction l as [|x l IH]; intros H; [done|]. cbn [Zsum length].
  pose proof (H x ltac:(set_solver)). specialize (IH ltac:(set_solver)). lia.
Qed.

Lemma Zsum_nonneg {A} (f : A → Z) (l : list A) :
  (∀ x, x ∈ l → 0 ≤ f x) → 0 ≤ Zsum f l.
Proof.
  induction l as [|x l IH]; intros H; [done|]. simpl.
  pose proof (H x ltac:(set_solver)). specialize (IH ltac:(set_solver)). lia.
Qed.

Lemma Zsum_fmap {A B} (f : B → Z) (g : A → B) (l : list A) :
  Zsum f (g <$> l) = Zsum (f ∘ g) l.
Proof. induction l as [|x l IH]; [done|]. cbn. by rewrite IH. Qed.

(** A member contributes at most the whole sum when the terms are non-negative. *)
Lemma Zsum_app {A} (f : A → Z) l k : Zsum f (l ++ k) = Zsum f l + Zsum f k.
Proof. induction l as [|x l IH]; cbn; [done|lia]. Qed.

Lemma Zsum_member {A} (f : A → Z) (l : list A) x :
  (∀ y, y ∈ l → 0 ≤ f y) → x ∈ l → f x ≤ Zsum f l.
Proof.
  induction l as [|y l IH]; intros H Hx; [by apply not_elem_of_nil in Hx|].
  cbn [Zsum]. apply elem_of_cons in Hx as [->|Hx].
  - pose proof (Zsum_nonneg f l ltac:(set_solver)). lia.
  - pose proof (H y ltac:(set_solver)). specialize (IH ltac:(set_solver) Hx). lia.
Qed.

(** * Lists of per-thread states *)

(** A property of every entry of a pool of threads is kept when one entry is
    replaced by a state that has it. *)
Lemma lookup_insert_inv {A} (l : list A) i j (x y : A) :
  <[i:=x]> l !! j = Some y → (i = j ∧ y = x) ∨ (i ≠ j ∧ l !! j = Some y).
Proof.
  intros H. destruct (decide (i = j)) as [->|Hne].
  - left. destruct (decide (j < length l)%nat) as [Hlt|Hge].
    + rewrite list_lookup_insert_eq in H by done. naive_solver.
    + apply lookup_lt_Some in H. rewrite length_insert in H. lia.
  - right. by rewrite list_lookup_insert_ne in H.
Qed.

Lemma pool_insert {A} (P : nat → A → Prop) (l : list A) i x :
  (∀ j y, l !! j = Some y → P j y) → P i x →
  ∀ j y, <[i:=x]> l !! j = Some y → P j y.
Proof. intros Hl Hx j y [[-> ->]|[_ ?]]%lookup_insert_inv; auto. Qed.

(** What the threads hold together, and what changes when one of them changes. *)
Lemma bind_at {A B} (f : A → list B) (l : list A) t x :
  l !! t = Some x → ∃ rest, (l ≫= f) ≡ₚ f x ++ rest ∧ ∀ y, (<[t:=y]> l ≫= f) ≡ₚ f y ++ rest.
Proof.
  revert t. induction l as [|z l IH]; intros [|t] Hx; simplify_eq/=; [by exists (l ≫= f)|].
  destruct (IH t Hx) as (rest & H1 & H2). exists (f z ++ rest). split; [rewrite H1; solve_Permutation|].
  intros y. rewrite H2. solve_Permutation.
Qed.

(** * Transition systems *)

(** States reachable from [init] along [step], and the induction principle
    every safety theorem of the development uses. *)
Definition reachable {S} (init : S) (step : relation S) (s : S) : Prop := rtc step init s.

Lemma rtc_invariant {S} (step : relation S) (I : S → Prop) s s' :
  (∀ a b, I a → step a b → I b) → I s → rtc step s s' → I s'.
Proof. intros Hp Hs. induction 1; eauto. Qed.

Lemma reachable_invariant {S} (init : S) (step : relation S) (I : S → Prop) s :
  I init → (∀ a b, I a → step a b → I b) → reachable init step s → I s.
Proof. intros Hi Hp. apply rtc_invariant; auto. Qed.

Lemma reachable_trans {S} (init : S) (step : relation S) s s' :
  reachable init step s → rtc step s s' → reachable init step s'.
Proof. unfold reachable. intros. by etrans. Qed.

(** A possibility argument by a decreasing measure: when every state satisfying
    the invariant is final or can run to a state of smaller measure that
    satisfies it again, a final state can be reached. *)
Lemma rtc_eventually {S} (step : relation S) (I F : S → Prop) (m : S → nat) :
  (∀ s, I s → F s ∨ ∃ s', rtc step s s' ∧ I s' ∧ (m s' < m s)%nat) →
  ∀ s, I s → ∃ s', rtc step s s' ∧ F s'.
Proof.
  intros Hp s. remember (m s) as k eqn:Hk. revert s Hk.
  induction k as [k IH] using lt_wf_ind. intros s -> Hs.
  destruct (Hp s Hs) as [HF|(s' & Hr & Hs' & Hm)]; [by exists s|].
  destruct (IH _ Hm s' eq_refl Hs') as (s'' & Hr' & HF).
  exists s''. split; [by etrans|done].
Qed.

(** Running a deterministic-given-the-schedule system along a list of choices;
    [None] when a choice is not enabled. *)
Fixpoint run_sched {S C} (next : C → S → option S) (cs : list C) (s : S) : option S :=
  match cs with
  | [] => Some s
  | c :: cs => next c s ≫= run_sched next cs
  end.

Lemma run_sched_rtc {S C} (next : C → S → option S) cs s s' :
  run_sched next cs s = Some s' → rtc (λ a b, ∃ c, next c a = Some b) s s'.
Proof.
  revert s. induction cs as [|c cs IH]; intros s H; simplify_eq/=; [done|].
  destruct (next c s) as [s1|] eqn:Hs; simplify_eq/=.
  eapply rtc_l; [by exists c|]. auto.
Qed.

(** * Tactics *)

(** Split a hypothesis [o ≫= f = Some r] into its successful parts, and case on
    the booleans and options a step function branches on. *)
Ltac step_inv H :=
  repeat first
    [ progress simplify_option_eq
    | match type of H with
      | context [match ?x with _ => _ end] => destruct x eqn:?; simplify_eq/=
      end ].

(** Case analysis on every boolean comparison that occurs in the context. *)
Ltac zify_bool :=
  repeat match goal with
    | H : (_ <? _) = true |- _ => apply Z.ltb_lt in H
    | H : (_ <? _) = false |- _ => apply Z.ltb_ge in H
    | H : (_ <=? _) = true |- _ => apply Z.leb_le in H
    | H : (_ <=? _) = false |- _ => apply Z.leb_gt in H
    | H : (_ =? _) = true |- _ => apply Z.eqb_eq in H
    | H : (_ =? _) = false |- _ => apply Z.eqb_neq in H
    | H : (_ =? _)%nat = true |- _ => apply Nat.eqb_eq in H
    | H : (_ =? _)%nat = false |- _ => apply Nat.eqb_neq in H
    | H : (_ <? _)%nat = true |- _ => apply Nat.ltb_lt in H
    | H : (_ <? _)%nat = false |- _ => apply Nat.ltb_ge in H
    end.
