(* ===== verification/Locks.v ===== *)
(** The interface between a lock and the program that uses it.

    [LockImpl] is the code of one lock: the memory the lock keeps, the program
    counter and locals of one thread inside [lock]/[unlock], and one shared-memory
    access of that code as an executable step.  [LockSpec] is what a lock promises
    to its callers: an inductive invariant that gives mutual exclusion, and the
    two progress laws (a holder can always release, and when nobody holds the
    lock a thread that wants it can be scheduled so that somebody gets it).

    The client is the loop all the lock exercises of the repository share:
    [n] threads increment one counter under the lock, [main] creates and joins
    them and prints the counter.  Its theorems are proved against [LockSpec]. *)

From S2P Require Import Prelude.

Local Open Scope Z_scope.

(** * The interface *)

(** Where a thread is with respect to the lock. *)
Inductive phase := Idle | Acquiring | Held | Releasing.

#[export] Instance phase_eq_dec : EqDecision phase.
Proof. solve_decision. Defined.

(** A step of the lock's code moves along this order. *)
Definition phase_next (p q : phase) : bool :=
  match p, q with
  | Idle, (Acquiring | Held) => true
  | Acquiring, (Acquiring | Held) => true
  | Held, (Releasing | Idle) => true
  | Releasing, (Releasing | Idle) => true
  | _, _ => false
  end.

(** The second argument of [lock_step] resolves what the code leaves to the
    allocator (the address [malloc] returns); locks that allocate nothing ignore
    it.  [None] means the step is not enabled. *)
Class LockImpl := {
  lsh : Type;
  lloc : Type;
  lsh_init : lsh;
  lloc_init : lloc;
  lphase : lloc → phase;
  lock_step : nat → nat → lsh → lloc → option (lsh * lloc);
}.

(** One step of some thread [i] for which [P i l] holds. *)
Definition lrun1 `{LockImpl} (P : nat → lloc → Prop) (a b : lsh * list lloc) : Prop :=
  ∃ i c l s' l', a.2 !! i = Some l ∧ P i l ∧ lock_step i c a.1 l = Some (s', l') ∧
    b = (s', <[i:=l']> a.2).

Class LockSpec (L : LockImpl) (n : nat) := {
  lock_inv : lsh → list lloc → Prop;
  lock_init_idle : lphase lloc_init = Idle;
  lock_inv_init : lock_inv lsh_init (replicate n lloc_init);
  lock_inv_step s ls i c l s' l' :
    lock_inv s ls → ls !! i = Some l → lock_step i c s l = Some (s', l') →
    lock_inv s' (<[i:=l']> ls);
  lock_phase_step i c s l s' l' :
    lock_step i c s l = Some (s', l') → phase_next (lphase l) (lphase l') = true;
  lock_mutex s ls i j li lj :
    lock_inv s ls → ls !! i = Some li → ls !! j = Some lj →
    lphase li = Held → lphase lj = Held → i = j;
  lock_release s ls i l :
    lock_inv s ls → ls !! i = Some l → lphase l = Held ∨ lphase l = Releasing →
    ∃ s' l', rtc (lrun1 (λ j l, j = i ∧ (lphase l = Held ∨ lphase l = Releasing)))
               (s, ls) (s', <[i:=l']> ls) ∧ lphase l' = Idle;
  lock_acquire s ls i :
    lock_inv s ls → (i < n)%nat → length ls = n →
    (∀ j l, ls !! j = Some l → lphase l = Idle ∨ lphase l = Acquiring) →
    ∃ s' ls' j l, rtc (lrun1 (λ j l, (j = i ∧ lphase l = Idle) ∨ lphase l = Acquiring))
                    (s, ls) (s', ls') ∧ ls' !! j = Some l ∧ lphase l = Held;
}.

(** * The counting program *)

(** Where a thread counts its own iterations: not at all, inside the critical
    section into an [int] ([pet_size++]), or after the unlock into a [long]
    ([cnt_local++]). *)
Inductive local_mode := NoLocal | LocalInCS | LocalAfter.

(** What is printed besides the counter: nothing, the thread's return value when
    [main] joins it, or the thread's own count when it ends. *)
Inductive report_mode := NoReport | ReportAtJoin | ReportAtExit.

Record workload := Workload {
  wk_num : nat;
  wk_local : local_mode;
  wk_report : report_mode;
}.

(** [g_counter++] is a load and a store. *)
Inductive cs_pc := CsLoad | CsStore (t : Z) | CsDone.

Record worker `{LockImpl} := Worker {
  w_loc : lloc;
  w_cs : cs_pc;
  w_i : nat;
  w_cnt : Z;
  w_exit : bool;
}.

(** [main]: creating thread [k], joining thread [k], finished. *)
Inductive main_pc := MCreate (k : nat) | MJoin (k : nat) | MExit.

Record cstate `{LockImpl} := CState {
  c_sh : lsh;
  c_counter : Z;
  c_ws : list worker;
  c_main : main_pc;
  c_out : list Z;
}.

Section client.
Context `{L : LockImpl}.
Variable wk : workload.

Definition worker_init : worker := Worker _ lloc_init CsLoad 0 0 false.

Definition cinit (n : nat) : cstate :=
  CState _ lsh_init 0 (replicate n worker_init) (MCreate 0) [].

(** Book-keeping when the lock's code moves a worker to [l']: leaving [unlock]
    ends an iteration of the loop. *)
Definition after_lock_step (w : worker) (l' : lloc) : worker :=
  match lphase (w_loc w), lphase l' with
  | (Held | Releasing), Idle =>
      Worker _ l' CsLoad (S (w_i w))
        (match wk_local wk with LocalAfter => i64 (w_cnt w + 1) | _ => w_cnt w end)
        (w_exit w)
  | _, _ => Worker _ l' (w_cs w) (w_i w) (w_cnt w) (w_exit w)
  end.

Definition worker_lock (i c : nat) (s : cstate) (w : worker) : option (lsh * Z * worker * list Z) :=
  '(sh', l') ← lock_step i c (c_sh s) (w_loc w);
  Some (sh', c_counter s, after_lock_step w l', c_out s).

(** One step of the thread function. *)
Definition worker_step (i c : nat) (s : cstate) (w : worker) : option (lsh * Z * worker * list Z) :=
  match lphase (w_loc w) with
  | Idle =>
      if w_exit w then None
      else if (w_i w <? wk_num wk)%nat then worker_lock i c s w
      else Some (c_sh s, c_counter s, Worker _ (w_loc w) (w_cs w) (w_i w) (w_cnt w) true,
                 match wk_report wk with ReportAtExit => c_out s ++ [w_cnt w] | _ => c_out s end)
  | Acquiring => worker_lock i c s w
  | Held =>
      match w_cs w with
      | CsLoad =>
          Some (c_sh s, c_counter s,
                Worker _ (w_loc w) (CsStore (c_counter s)) (w_i w)
                  (match wk_local wk with LocalInCS => i32 (w_cnt w + 1) | _ => w_cnt w end)
                  (w_exit w), c_out s)
      | CsStore t =>
          Some (c_sh s, i32 (t + 1), Worker _ (w_loc w) CsDone (w_i w) (w_cnt w) (w_exit w), c_out s)
      | CsDone => worker_lock i c s w
      end
  | Releasing => worker_lock i c s w
  end.

(** One step of [main]. *)
Definition main_step (s : cstate) : option cstate :=
  match c_main s with
  | MCreate k =>
      Some (CState _ (c_sh s) (c_counter s) (c_ws s)
              (if (k <? length (c_ws s))%nat then MCreate (S k) else MJoin 0) (c_out s))
  | MJoin k =>
      match c_ws s !! k with
      | Some w =>
          if w_exit w then
            Some (CState _ (c_sh s) (c_counter s) (c_ws s) (MJoin (S k))
                    (match wk_report wk with ReportAtJoin => c_out s ++ [w_cnt w] | _ => c_out s end))
          else None
      | None =>
          Some (CState _ (c_sh s) (c_counter s) (c_ws s) MExit (c_out s ++ [c_counter s]))
      end
  | MExit => None
  end.

(** A thread runs once it has been created. *)
Definition created (m : main_pc) (i : nat) : bool :=
  match m with MCreate k => (i <? k)%nat | _ => true end.

(** The scheduler's choices. *)
Inductive sched := SMain | SThread (i c : nat).

Definition cnext (d : sched) (s : cstate) : option cstate :=
  match d with
  | SMain => main_step s
  | SThread i c =>
      w ← c_ws s !! i;
      if created (c_main s) i then
        '(sh', g', w', out') ← worker_step i c s w;
        Some (CState _ sh' g' (<[i:=w']> (c_ws s)) (c_main s) out')
      else None
  end.

Definition cstep (s s' : cstate) : Prop := ∃ d, cnext d s = Some s'.

(** What the program should print. *)
Definition expected_output (n : nat) : list Z :=
  match wk_report wk with
  | NoReport => []
  | _ => replicate n (match wk_local wk with NoLocal => 0 | _ => Z.of_nat (wk_num wk) end)
  end ++ [Z.of_nat n * Z.of_nat (wk_num wk)].

End client.

(** * Correctness of the counting program against the interface *)

Section client_proofs.
Context `{L : LockImpl} (n : nat) `{!LockSpec L n}.
Variable wk : workload.

Local Abbreviation K := (Z.of_nat (wk_num wk)).

(** Increments of the counter a worker has published. *)
Definition contrib (w : worker) : Z :=
  Z.of_nat (w_i w) + match w_cs w with CsDone => 1 | _ => 0 end.

(** What the worker's own count must be. *)
Definition local_count (w : worker) : Z :=
  match wk_local wk with
  | NoLocal => 0
  | LocalAfter => Z.of_nat (w_i w)
  | LocalInCS => Z.of_nat (w_i w) + match w_cs w with CsLoad => 0 | _ => 1 end
  end.

Definition local_final : Z := match wk_local wk with NoLocal => 0 | _ => K end.

Definition worker_inv (g : Z) (w : worker) : Prop :=
  (w_i w ≤ wk_num wk)%nat ∧ w_cnt w = local_count w ∧
  match lphase (w_loc w) with
  | Idle => w_cs w = CsLoad ∧ (w_exit w = true → w_i w = wk_num wk)
  | Acquiring => w_cs w = CsLoad ∧ (w_i w < wk_num wk)%nat ∧ w_exit w = false
  | Held => (w_i w < wk_num wk)%nat ∧ w_exit w = false ∧ ∀ t, w_cs w = CsStore t → t = g
  | Releasing => w_cs w = CsDone ∧ (w_i w < wk_num wk)%nat ∧ w_exit w = false
  end.

Definition exited (w : worker) : Z := if w_exit w then 1 else 0.

Definition joined (m : main_pc) : nat :=
  match m with MCreate _ => 0 | MJoin k => k | MExit => n end.

(** What has been printed so far. *)
Definition printed (s : cstate) : list Z :=
  match wk_report wk with
  | NoReport => []
  | ReportAtJoin => replicate (joined (c_main s)) local_final
  | ReportAtExit => replicate (Z.to_nat (Zsum exited (c_ws s))) local_final
  end ++ match c_main s with MExit => [Z.of_nat n * K] | _ => [] end.

Record cinv (s : cstate) : Prop := {
  ci_len : length (c_ws s) = n;
  ci_lock : lock_inv (c_sh s) (w_loc <$> c_ws s);
  ci_counter : c_counter s = Zsum contrib (c_ws s);
  ci_worker : ∀ i w, c_ws s !! i = Some w → worker_inv (c_counter s) w;
  ci_joined : (joined (c_main s) ≤ n)%nat ∧
    ∀ i w, (i < joined (c_main s))%nat → c_ws s !! i = Some w → w_exit w = true;
  ci_create : ∀ k, c_main s = MCreate k → (k ≤ n)%nat;
  ci_out : c_out s = printed s;
}.

Hypothesis Hbound : Z.of_nat n * K < 2 ^ 31.

Lemma worker_inv_contrib g w : worker_inv g w → 0 ≤ contrib w ≤ K.
Proof.
  unfold worker_inv, contrib. intros (Hi & _ & Hp).
  destruct (lphase (w_loc w)), (w_cs w); destruct_and?; simplify_eq; lia.
Qed.

Lemma contrib_sum_bound g (ws : list worker) :
  length ws = n → (∀ i w, ws !! i = Some w → worker_inv g w) →
  0 ≤ Zsum contrib ws ≤ Z.of_nat n * K.
Proof.
  intros Hlen Hw. rewrite <- Hlen. split.
  - apply Zsum_nonneg. intros w [i Hi]%list_elem_of_lookup.
    by apply (worker_inv_contrib g), (Hw i).
  - apply Zsum_le. intros w [i Hi]%list_elem_of_lookup.
    by apply (worker_inv_contrib g), (Hw i).
Qed.

Lemma worker_inv_init : worker_inv 0 worker_init.
Proof.
  unfold worker_inv, local_count, worker_init; simpl.
  rewrite (lock_init_idle (n:=n)). destruct (wk_local wk); naive_solver lia.
Qed.

Lemma cinv_init : cinv (cinit n).
Proof.
  constructor; simpl.
  - by rewrite length_replicate.
  - rewrite fmap_replicate. apply lock_inv_init.
  - rewrite (Zsum_const _ _ 0); [lia|].
    intros w Hw%elem_of_replicate_inv. by subst.
  - intros i w [-> _]%lookup_replicate. apply worker_inv_init.
  - split; [lia|]. intros; lia.
  - naive_solver lia.
  - unfold printed; simpl. rewrite (Zsum_const exited _ 0).
    + rewrite Z.mul_0_r. by destruct (wk_report wk).
    + intros w Hw%elem_of_replicate_inv. by subst.
Qed.

(** Only one thread is between the two halves of the increment, so storing a new
    counter value does not disturb the others. *)
Lemma worker_inv_other s i j w w' g' :
  cinv s → c_ws s !! i = Some w → c_ws s !! j = Some w' → i ≠ j →
  lphase (w_loc w) = Held → worker_inv g' w'.
Proof.
  intros Hs Hi Hj Hne Hh. destruct (ci_worker _ Hs _ _ Hj) as (? & ? & Hp).
  split_and!; [done..|]. destruct (lphase (w_loc w')) eqn:Hph; try naive_solver.
  exfalso. apply Hne.
  eapply (lock_mutex _ (w_loc <$> c_ws s)); [apply ci_lock; done|..];
    rewrite ?list_lookup_fmap, ?Hi, ?Hj; simpl; done.
Qed.

Lemma printed_same_exit s s' :
  c_main s = c_main s' → Zsum exited (c_ws s) = Zsum exited (c_ws s') → printed s = printed s'.
Proof. unfold printed. by intros -> ->. Qed.

(** Replacing one worker keeps the invariant when the lock's invariant, the
    counter and the worker's own invariant follow. *)
Lemma cinv_update s i w sh' g' w' out' :
  cinv s → c_ws s !! i = Some w →
  lock_inv sh' (<[i:=w_loc w']> (w_loc <$> c_ws s)) →
  g' = c_counter s - contrib w + contrib w' →
  (g' = c_counter s ∨ lphase (w_loc w) = Held) →
  worker_inv g' w' →
  (w_exit w = true → w_exit w' = true) →
  out' = printed (CState _ sh' g' (<[i:=w']> (c_ws s)) (c_main s) out') →
  cinv (CState _ sh' g' (<[i:=w']> (c_ws s)) (c_main s) out').
Proof.
  intros Hs Hi Hl Hg Hoth Hw' Hex Hout. destruct (ci_joined _ Hs) as [Hj Hj'].
  constructor; simpl.
  - rewrite length_insert. apply ci_len, Hs.
  - by rewrite list_fmap_insert.
  - rewrite (Zsum_insert _ _ _ w) by done. rewrite <- (ci_counter _ Hs). done.
  - intros j wj [[-> ->]|[Hne Hjl]]%lookup_insert_inv; [done|].
    destruct Hoth as [->|Hh]; [by eapply ci_worker|].
    by apply (worker_inv_other s i j w wj).
  - split; [done|]. intros j wj Hlt [[-> ->]|[Hne Hjl]]%lookup_insert_inv; eauto.
  - intros k Hk. by eapply ci_create.
  - done.
Qed.

Lemma lock_of s i w :
  c_ws s !! i = Some w → (w_loc <$> c_ws s) !! i = Some (w_loc w).
Proof. intros H. by rewrite list_lookup_fmap, H. Qed.

Lemma out_same s i w sh' g' w' :
  cinv s → c_ws s !! i = Some w → exited w' = exited w →
  c_out s = printed (CState _ sh' g' (<[i:=w']> (c_ws s)) (c_main s) (c_out s)).
Proof.
  intros Hs Hi He. rewrite (ci_out _ Hs) at 1. apply printed_same_exit; [done|].
  simpl. rewrite (Zsum_insert _ _ _ w) by done. lia.
Qed.

Lemma worker_count_pos s i w : cinv s → c_ws s !! i = Some w → K ≤ Z.of_nat n * K.
Proof.
  intros Hs Hi%lookup_lt_Some. rewrite (ci_len _ Hs) in Hi. nia.
Qed.

(** The steps inside [lock] and [unlock]. *)
Lemma worker_lock_inv s i c w sh' g' w' out' :
  cinv s → c_ws s !! i = Some w →
  (lphase (w_loc w) = Held → w_cs w = CsDone) →
  (lphase (w_loc w) = Idle → w_exit w = false ∧ (w_i w < wk_num wk)%nat) →
  worker_lock wk i c s w = Some (sh', g', w', out') →
  cinv (CState _ sh' g' (<[i:=w']> (c_ws s)) (c_main s) out').
Proof.
  intros Hs Hi Hdone Hidle Hst. unfold worker_lock in Hst.
  destruct (lock_step i c (c_sh s) (w_loc w)) as [[sh1 l1]|] eqn:Hls; simplify_eq/=.
  pose proof (lock_phase_step _ _ _ _ _ _ Hls) as Hph.
  pose proof (worker_count_pos _ _ _ Hs Hi) as Hpos.
  assert (lock_inv sh' (<[i:=l1]> (w_loc <$> c_ws s))) as Hl'.
  { eapply lock_inv_step; [apply ci_lock, Hs|by apply lock_of|done]. }
  pose proof (ci_worker _ Hs _ _ Hi) as Hw.
  assert (w_loc (after_lock_step wk w l1) = l1) as Hloc.
  { unfold after_lock_step. by destruct (lphase (w_loc w)), (lphase l1). }
  assert (contrib (after_lock_step wk w l1) = contrib w
    ∧ worker_inv (c_counter s) (after_lock_step wk w l1)
    ∧ w_exit (after_lock_step wk w l1) = w_exit w) as (Hc & Hw' & Hex).
  { unfold worker_inv, contrib, after_lock_step, local_count in *.
    destruct Hw as (Hle & Hcnt & Hm).
    destruct (lphase (w_loc w)) eqn:Hp, (lphase l1) eqn:Hp'; simplify_eq/=;
      try specialize (Hidle eq_refl); try specialize (Hdone eq_refl);
      destruct_and?; simplify_eq; rewrite ?Hp'; destruct w; simplify_eq/=;
      destruct (wk_local wk); rewrite ?i64_id by lia;
      split_and!; auto; try lia; congruence. }
  apply (cinv_update s i w); rewrite ?Hloc, ?Hex; auto.
  - lia.
  - eapply out_same; eauto. unfold exited. by rewrite Hex.
Qed.

Lemma lock_inv_same s i w :
  cinv s → c_ws s !! i = Some w → lock_inv (c_sh s) (<[i:=w_loc w]> (w_loc <$> c_ws s)).
Proof.
  intros Hs Hi. rewrite list_insert_id by (by apply lock_of). apply ci_lock, Hs.
Qed.

(** Once [main] is past its joins every thread has ended. *)
Lemma running_not_exited s i w :
  cinv s → c_ws s !! i = Some w → w_exit w = false → c_main s ≠ MExit.
Proof.
  intros Hs Hi He Hm. apply lookup_lt_Some in Hi as Hlt. rewrite (ci_len _ Hs) in Hlt.
  pose proof (proj2 (ci_joined _ Hs) i w) as Hj. rewrite Hm in Hj.
  specialize (Hj Hlt Hi). congruence.
Qed.

(** The thread returns: it has done all its iterations and may print its count. *)
Lemma worker_exit_inv s i w w' out' :
  cinv s → c_ws s !! i = Some w → lphase (w_loc w) = Idle →
  w_exit w = false → (wk_num wk ≤ w_i w)%nat →
  w' = Worker _ (w_loc w) (w_cs w) (w_i w) (w_cnt w) true →
  out' = match wk_report wk with ReportAtExit => c_out s ++ [w_cnt w] | _ => c_out s end →
  cinv (CState _ (c_sh s) (c_counter s) (<[i:=w']> (c_ws s)) (c_main s) out').
Proof.
  intros Hs Hi Hp He Hlt -> ->.
  pose proof (running_not_exited _ _ _ Hs Hi He) as Hm.
  destruct (ci_worker _ Hs _ _ Hi) as (Hle & Hcnt & Hw). rewrite Hp in Hw. destruct Hw as [Hcs _].
  assert (w_cnt w = local_final) as Hfin.
  { rewrite Hcnt. unfold local_count, local_final. rewrite Hcs. destruct (wk_local wk); lia. }
  apply (cinv_update s i w); simpl; auto using lock_inv_same.
  - unfold contrib; simpl. lia.
  - unfold worker_inv, local_count in *; simpl. rewrite Hp, Hcs in *. naive_solver lia.
  - unfold printed; simpl. rewrite (Zsum_insert _ _ _ w) by done.
    rewrite (ci_out _ Hs), Hfin. unfold printed.
    assert (0 ≤ Zsum exited (c_ws s)) as Hnn.
    { apply Zsum_nonneg. intros x _. unfold exited. by destruct (w_exit x). }
    destruct (wk_report wk); [done..|].
    assert (exited w = 0) as -> by (unfold exited; by rewrite He). cbn [exited w_exit].
    replace (Z.to_nat (Zsum exited (c_ws s) - 0 + 1))
      with (S (Z.to_nat (Zsum exited (c_ws s)))) by lia.
    rewrite (replicate_S_end (Z.to_nat (Zsum exited (c_ws s)))).
    by destruct (c_main s); rewrite ?app_nil_r.
Qed.

(** The load of [g_counter++]. *)
Lemma worker_load_inv s i w w' :
  cinv s → c_ws s !! i = Some w → lphase (w_loc w) = Held → w_cs w = CsLoad →
  w' = Worker _ (w_loc w) (CsStore (c_counter s)) (w_i w)
         (match wk_local wk with LocalInCS => i32 (w_cnt w + 1) | _ => w_cnt w end) (w_exit w) →
  cinv (CState _ (c_sh s) (c_counter s) (<[i:=w']> (c_ws s)) (c_main s) (c_out s)).
Proof.
  intros Hs Hi Hp Hcs ->. pose proof (worker_count_pos _ _ _ Hs Hi) as Hpos.
  destruct (ci_worker _ Hs _ _ Hi) as (Hle & Hcnt & Hw). rewrite Hp in Hw.
  destruct Hw as (Hlt & Hex & _).
  apply (cinv_update s i w); simpl; auto using lock_inv_same.
  - unfold contrib; simpl. rewrite Hcs. lia.
  - unfold worker_inv, local_count in *; simpl. rewrite Hp, Hcs in *.
    split_and!; auto; [|naive_solver].
    destruct (wk_local wk); rewrite ?i32_id by lia; lia.
  - eapply out_same; eauto.
Qed.

(** The store of [g_counter++]: the addition does not overflow. *)
Lemma worker_store_inv s i w w' t :
  cinv s → c_ws s !! i = Some w → lphase (w_loc w) = Held → w_cs w = CsStore t →
  w' = Worker _ (w_loc w) CsDone (w_i w) (w_cnt w) (w_exit w) →
  cinv (CState _ (c_sh s) (i32 (t + 1)) (<[i:=w']> (c_ws s)) (c_main s) (c_out s)).
Proof.
  intros Hs Hi Hp Hcs Hw'.
  destruct (ci_worker _ Hs _ _ Hi) as (Hle & Hcnt & Hw). rewrite Hp in Hw.
  destruct Hw as (Hlt & Hex & Ht). specialize (Ht _ Hcs) as ->.
  assert (contrib w' = contrib w + 1) as Hc.
  { subst w'. unfold contrib; simpl. rewrite Hcs. lia. }
  assert (worker_inv (c_counter s + 1) w') as Hinv.
  { subst w'. unfold worker_inv, local_count in *; simpl. rewrite Hp, Hcs in *. naive_solver. }
  assert (i32 (c_counter s + 1) = c_counter s + 1) as ->.
  { apply i32_id.
    destruct (contrib_sum_bound (c_counter s + 1) (<[i:=w']> (c_ws s))) as [Hb1 Hb2].
    - rewrite length_insert. apply ci_len, Hs.
    - intros j wj [[-> ->]|[Hne Hjl]]%lookup_insert_inv; [done|].
      by apply (worker_inv_other s i j w).
    - rewrite (Zsum_insert _ _ _ w), <- (ci_counter _ Hs) in Hb1, Hb2 by done. lia. }
  apply (cinv_update s i w); auto.
  - subst w'. exact (lock_inv_same s i w Hs Hi).
  - lia.
  - by subst w'.
  - eapply out_same; eauto. by subst w'.
Qed.

Lemma worker_step_inv s i c w sh' g' w' out' :
  cinv s → c_ws s !! i = Some w →
  worker_step wk i c s w = Some (sh', g', w', out') →
  cinv (CState _ sh' g' (<[i:=w']> (c_ws s)) (c_main s) out').
Proof.
  intros Hs Hi Hst. unfold worker_step in Hst.
  destruct (lphase (w_loc w)) eqn:Hp.
  - destruct (w_exit w) eqn:He; [done|].
    destruct (w_i w <? wk_num wk)%nat eqn:Hlt; zify_bool.
    + eapply worker_lock_inv; eauto; congruence.
    + simplify_eq. eapply worker_exit_inv; eauto.
  - eapply worker_lock_inv; eauto; congruence.
  - destruct (w_cs w) eqn:Hcs; simplify_eq.
    + eapply worker_load_inv; eauto.
    + eapply worker_store_inv; eauto.
    + eapply worker_lock_inv; eauto; congruence.
  - eapply worker_lock_inv; eauto; congruence.
Qed.

Lemma main_step_inv s s' : cinv s → main_step wk s = Some s' → cinv s'.
Proof.
  intros Hs Hst. unfold main_step in Hst. pose proof (ci_joined _ Hs) as [Hj Hj'].
  pose proof (ci_out _ Hs) as Hout.
  destruct (c_main s) as [k|k|] eqn:Hm; simplify_eq/=.
  - destruct Hs as [Hlen ? ? ? _ Hcr _].
    destruct (k <? length (c_ws s))%nat eqn:Hk; zify_bool;
      constructor; simpl in *; auto; try (split; intros; lia); try (intros; simplify_eq; lia);
      rewrite Hout; unfold printed; rewrite Hm; done.
  - destruct (c_ws s !! k) as [w|] eqn:Hk.
    + destruct (w_exit w) eqn:He; simplify_eq.
      apply lookup_lt_Some in Hk as Hlt. rewrite (ci_len _ Hs) in Hlt.
      assert (w_cnt w = local_final) as Hfin.
      { destruct (ci_worker _ Hs _ _ Hk) as (Hle & -> & Hw).
        unfold local_count, local_final. destruct (lphase (w_loc w)), (wk_local wk);
          destruct_and?; try congruence; rewrite ?H; naive_solver lia. }
      constructor; simpl; try apply Hs; try done.
      * split; [lia|]. intros i wi Hi Hwi. destruct (decide (i = k)) as [->|]; [congruence|].
        apply (Hj' i); [simpl; lia|done].
      * rewrite Hout. unfold printed; rewrite Hm; simpl. rewrite Hfin, !app_nil_r.
        destruct (wk_report wk); [done| |done]. by rewrite replicate_cons_app.
    + simplify_eq. apply lookup_ge_None in Hk. rewrite (ci_len _ Hs) in Hk.
      assert (k = n) as -> by (simpl in Hj; lia).
      assert (∀ w, w ∈ c_ws s → contrib w = K) as Hall.
      { intros w [i Hi]%list_elem_of_lookup. pose proof (lookup_lt_Some _ _ _ Hi) as Hlt.
        rewrite (ci_len _ Hs) in Hlt. pose proof (Hj' i w Hlt Hi) as He.
        destruct (ci_worker _ Hs _ _ Hi) as (Hle & _ & Hw). unfold contrib.
        destruct (lphase (w_loc w)); destruct_and?; try congruence.
        rewrite H. naive_solver lia. }
      constructor; simpl; try apply Hs; try done.
      * rewrite Hout. unfold printed; rewrite Hm; simpl.
        rewrite app_nil_r. f_equal. rewrite (ci_counter _ Hs), (Zsum_const _ _ K Hall).
        by rewrite (ci_len _ Hs).
Qed.

Lemma cnext_inv d s s' : cinv s → cnext wk d s = Some s' → cinv s'.
Proof.
  destruct d as [|i c]; simpl; intros Hs Hst; [by eapply main_step_inv|].
  destruct (c_ws s !! i) as [w|] eqn:Hi; simplify_eq/=.
  destruct (created (c_main s) i); [|done].
  destruct (worker_step wk i c s w) as [[[[sh' g'] w'] out']|] eqn:Hw; simplify_eq/=.
  by eapply worker_step_inv.
Qed.

Lemma reachable_cinv s : reachable (cinit n) (cstep wk) s → cinv s.
Proof.
  apply reachable_invariant; [apply cinv_init|]. intros a b Ha [d Hd]. by eapply cnext_inv.
Qed.

Lemma rtc_cinv s s' : cinv s → rtc (cstep wk) s s' → cinv s'.
Proof. apply rtc_invariant. intros a b Ha [d Hd]. by eapply cnext_inv. Qed.

(** Safety of every terminating run. *)
Lemma exit_output s : cinv s → c_main s = MExit → c_out s = expected_output wk n.
Proof.
  intros Hs Hm. rewrite (ci_out _ Hs). unfold printed, expected_output. rewrite Hm.
  f_equal. assert (Zsum exited (c_ws s) = Z.of_nat n) as ->.
  { rewrite (Zsum_const _ _ 1); [rewrite (ci_len _ Hs); lia|].
    intros w [i Hi]%list_elem_of_lookup. pose proof (lookup_lt_Some _ _ _ Hi) as Hlt.
    rewrite (ci_len _ Hs) in Hlt. unfold exited.
    rewrite (proj2 (ci_joined _ Hs) i w); rewrite ?Hm; done. }
  rewrite Nat2Z.id. unfold local_final. by destruct (wk_report wk).
Qed.

Lemma held_unique s i j wi wj :
  cinv s → c_ws s !! i = Some wi → c_ws s !! j = Some wj →
  lphase (w_loc wi) = Held → lphase (w_loc wj) = Held → i = j.
Proof.
  intros Hs Hi Hj. eapply lock_mutex; [apply ci_lock, Hs|by apply lock_of..].
Qed.

(** ** Progress: from every reachable state the program can run to its end *)

Definition remaining (w : worker) : Z :=
  (K - Z.of_nat (w_i w)) + (if w_exit w then 0 else 1).

Definition main_remaining (m : main_pc) : nat :=
  match m with MCreate k => (n - k) + n + 2 | MJoin k => n - k + 1 | MExit => 0 end.

Definition cmeasure (s : cstate) : nat :=
  Z.to_nat (Zsum remaining (c_ws s)) + main_remaining (c_main s).

Lemma remaining_nonneg s i w : cinv s → c_ws s !! i = Some w → 0 ≤ remaining w ≤ Zsum remaining (c_ws s).
Proof.
  intros Hs Hi.
  assert (∀ y, y ∈ c_ws s → 0 ≤ remaining y) as Hnn.
  { intros y [j Hj]%list_elem_of_lookup. destruct (ci_worker _ Hs _ _ Hj) as [Hle _].
    unfold remaining. destruct (w_exit y); lia. }
  assert (w ∈ c_ws s) by (apply list_elem_of_lookup; eauto).
  split; [by apply Hnn|by apply Zsum_member].
Qed.

(** A worker whose remaining work decreased makes the measure decrease. *)
Lemma cmeasure_insert s i w w' sh' g' out' :
  cinv s → c_ws s !! i = Some w → remaining w' = remaining w - 1 → 0 ≤ remaining w' →
  (cmeasure (CState _ sh' g' (<[i:=w']> (c_ws s)) (c_main s) out') < cmeasure s)%nat.
Proof.
  intros Hs Hi Hr Hnn. unfold cmeasure; simpl. rewrite (Zsum_insert _ _ _ w) by done.
  pose proof (remaining_nonneg _ _ _ Hs Hi). lia.
Qed.

(** The lock's code run on behalf of worker [i] by the client. *)
Lemma client_lock_step s i c w sh' l' :
  c_ws s !! i = Some w → created (c_main s) i = true →
  lock_step i c (c_sh s) (w_loc w) = Some (sh', l') →
  match lphase (w_loc w) with
  | Idle => w_exit w = false ∧ (w_i w < wk_num wk)%nat
  | Held => w_cs w = CsDone
  | _ => True
  end →
  cstep wk s (CState _ sh' (c_counter s) (<[i:=after_lock_step wk w l']> (c_ws s)) (c_main s) (c_out s)).
Proof.
  intros Hi Hc Hl Hp. exists (SThread i c). simpl. rewrite Hi. simpl. rewrite Hc.
  unfold worker_step, worker_lock.
  destruct (lphase (w_loc w)); [|by rewrite Hl|by rewrite Hp, Hl|by rewrite Hl].
  destruct Hp as [-> Hp]. apply Nat.ltb_lt in Hp as ->. by rewrite Hl.
Qed.

Definition holding (l : lloc) : Prop := lphase l = Held ∨ lphase l = Releasing.

(** A worker that is done with its critical section can finish [unlock]. *)
Lemma release_lift i a b :
  rtc (lrun1 (λ j l, j = i ∧ holding l)) a b → ∀ s w l',
  a = (c_sh s, w_loc <$> c_ws s) → cinv s → created (c_main s) i = true →
  c_ws s !! i = Some w → holding (w_loc w) → w_cs w = CsDone →
  b.2 !! i = Some l' → lphase l' = Idle →
  ∃ s', rtc (cstep wk) s s' ∧ (cmeasure s' < cmeasure s)%nat.
Proof.
  intros Hr. induction Hr as [a|a a1 b Hstep _ IH]; intros s w l' -> Hs Hcr Hi Hh Hcs Hb Hid.
  { simpl in Hb. rewrite (lock_of _ _ _ Hi) in Hb. simplify_eq. destruct Hh; congruence. }
  destruct Hstep as (j & c & l & s1 & l1 & Hj & [-> Hhj] & Hl & ->). simpl in *.
  rewrite (lock_of _ _ _ Hi) in Hj. simplify_eq.
  pose proof (lock_phase_step _ _ _ _ _ _ Hl) as Hph.
  assert (cstep wk s (CState _ s1 (c_counter s) (<[i:=after_lock_step wk w l1]> (c_ws s))
    (c_main s) (c_out s))) as Hcs1.
  { apply (client_lock_step s i c w); auto. destruct Hh as [-> | ->]; done. }
  destruct (decide (lphase l1 = Idle)) as [Hl1|Hl1].
  - eexists. split; [by apply rtc_once|].
    assert (remaining (after_lock_step wk w l1) = remaining w - 1) as Hrem.
    { unfold after_lock_step, remaining. rewrite Hl1.
      destruct Hh as [-> | ->]; simpl; destruct (w_exit w); lia. }
    apply (cmeasure_insert s i w); auto. rewrite Hrem. unfold remaining.
    destruct (ci_worker _ Hs _ _ Hi) as (_ & _ & Hw). destruct Hh as [Hh|Hh]; rewrite Hh in Hw;
      destruct (w_exit w); lia.
  - pose proof (lookup_lt_Some _ _ _ Hi) as Hlt.
    edestruct (IH (CState _ s1 (c_counter s) (<[i:=after_lock_step wk w l1]> (c_ws s))
      (c_main s) (c_out s)) (after_lock_step wk w l1) l') as (s' & Hr' & Hm'); try done.
    + simpl. rewrite list_fmap_insert. f_equal. f_equal.
      unfold after_lock_step. by destruct (lphase (w_loc w)), (lphase l1).
    + destruct Hcs1 as [d Hd]. by eapply cnext_inv.
    + simpl. by rewrite list_lookup_insert_eq.
    + unfold after_lock_step. destruct Hh as [Hh|Hh], (lphase l1) eqn:Hl1'; rewrite Hh in *;
        simplify_eq/=; unfold holding; rewrite Hl1'; auto.
    + unfold after_lock_step. destruct Hh as [Hh|Hh], (lphase l1) eqn:Hl1'; rewrite Hh in *;
        simplify_eq/=; auto.
    + exists s'. split; [by eapply rtc_l|].
      enough (cmeasure (CState _ s1 (c_counter s) (<[i:=after_lock_step wk w l1]> (c_ws s))
        (c_main s) (c_out s)) = cmeasure s) by lia.
      unfold cmeasure; simpl. rewrite (Zsum_insert _ _ _ w) by done.
      enough (remaining (after_lock_step wk w l1) = remaining w) by lia.
      unfold after_lock_step. by destruct (lphase (w_loc w)), (lphase l1).
Qed.

(** State [b] is [a] run forward to the end of thread [i]'s critical section. *)
Definition at_cs_end (i : nat) (a b : cstate) : Prop :=
  cinv b ∧ c_main b = c_main a ∧ cmeasure b = cmeasure a ∧
  ∃ w, c_ws b !! i = Some w ∧ holding (w_loc w) ∧ w_cs w = CsDone.

Lemma cmeasure_insert_same s i w w' sh' g' out' :
  c_ws s !! i = Some w → remaining w' = remaining w →
  cmeasure (CState _ sh' g' (<[i:=w']> (c_ws s)) (c_main s) out') = cmeasure s.
Proof.
  intros Hi Hr. unfold cmeasure; simpl. rewrite (Zsum_insert _ _ _ w) by done. f_equal. lia.
Qed.

Lemma store_to_cs_end s i w t :
  cinv s → created (c_main s) i = true → c_ws s !! i = Some w →
  lphase (w_loc w) = Held → w_cs w = CsStore t →
  ∃ s', rtc (cstep wk) s s' ∧ at_cs_end i s s'.
Proof.
  intros Hs Hcr Hi Hp Ht. pose proof (lookup_lt_Some _ _ _ Hi) as Hlt.
  set (w' := Worker _ (w_loc w) CsDone (w_i w) (w_cnt w) (w_exit w)).
  exists (CState _ (c_sh s) (i32 (t + 1)) (<[i:=w']> (c_ws s)) (c_main s) (c_out s)).
  split; [|split_and!].
  - apply rtc_once. exists (SThread i 0). simpl. rewrite Hi, Hcr. simpl.
    unfold worker_step. by rewrite Hp, Ht.
  - by eapply worker_store_inv.
  - done.
  - by apply (cmeasure_insert_same s i w).
  - exists w'. simpl. rewrite list_lookup_insert_eq by done. split_and!; auto. by left.
Qed.

Lemma run_to_cs_end s i w :
  cinv s → created (c_main s) i = true → c_ws s !! i = Some w → holding (w_loc w) →
  ∃ s', rtc (cstep wk) s s' ∧ at_cs_end i s s'.
Proof.
  intros Hs Hcr Hi Hh. pose proof (lookup_lt_Some _ _ _ Hi) as Hlt.
  destruct (w_cs w) as [|t|] eqn:Hcs; [| |exists s; split; [done|split_and!; eauto]].
  - destruct Hh as [Hp|Hp]; cycle 1.
    { destruct (ci_worker _ Hs _ _ Hi) as (_ & _ & Hw). rewrite Hp in Hw.
      destruct Hw. congruence. }
    set (w2 := Worker _ (w_loc w) (CsStore (c_counter s)) (w_i w)
         (match wk_local wk with LocalInCS => i32 (w_cnt w + 1) | _ => w_cnt w end) (w_exit w)).
    set (s2 := CState _ (c_sh s) (c_counter s) (<[i:=w2]> (c_ws s)) (c_main s) (c_out s)).
    assert (cstep wk s s2) as Hst.
    { exists (SThread i 0). simpl. rewrite Hi, Hcr. simpl. unfold worker_step. by rewrite Hp, Hcs. }
    assert (cmeasure s2 = cmeasure s) as Hme by (by apply (cmeasure_insert_same s i w)).
    destruct (store_to_cs_end s2 i w2 (c_counter s)) as (s' & Hr & H1 & H2 & H3 & H4); auto.
    + by eapply worker_load_inv.
    + simpl. by rewrite list_lookup_insert_eq.
    + exists s'. split; [by eapply rtc_l|]. split_and!; auto. by rewrite H3.
  - destruct Hh as [Hp|Hp]; [by eapply store_to_cs_end|].
    destruct (ci_worker _ Hs _ _ Hi) as (_ & _ & Hw). rewrite Hp in Hw.
    destruct Hw. congruence.
Qed.

(** The thread that holds the lock can finish its iteration. *)
Lemma holder_progress s i w :
  cinv s → created (c_main s) i = true → c_ws s !! i = Some w → holding (w_loc w) →
  ∃ s', rtc (cstep wk) s s' ∧ (cmeasure s' < cmeasure s)%nat.
Proof.
  intros Hs Hcr Hi Hh.
  destruct (run_to_cs_end s i w Hs Hcr Hi Hh)
    as (s1 & Hr & Hs1 & Hm1 & Hme & w1 & Hi1 & Hh1 & Hcs1).
  destruct (lock_release _ _ i _ (ci_lock _ Hs1) (lock_of _ _ _ Hi1) Hh1) as (sh' & l' & Hr' & Hl').
  edestruct (release_lift i _ _ Hr' s1 w1 l') as (s' & Hr2 & Hm2); try done.
  - by rewrite Hm1.
  - simpl. apply list_lookup_insert_eq. rewrite length_fmap. by eapply lookup_lt_Some.
  - exists s'. split; [by etrans|lia].
Qed.

(** The threads that compete for the lock run on the client's side as they do in
    the lock's own transition system. *)
Lemma acquire_lift i a b :
  rtc (lrun1 (λ j l, (j = i ∧ lphase l = Idle) ∨ lphase l = Acquiring)) a b → ∀ s w,
  a = (c_sh s, w_loc <$> c_ws s) → cinv s → (∀ j, created (c_main s) j = true) →
  c_ws s !! i = Some w → w_exit w = false → (w_i w < wk_num wk)%nat →
  ∃ s', rtc (cstep wk) s s' ∧ b = (c_sh s', w_loc <$> c_ws s') ∧ cinv s' ∧
    c_main s' = c_main s ∧ cmeasure s' = cmeasure s.
Proof.
  intros Hr. induction Hr as [a|a a1 b Hstep _ IH]; intros s w -> Hs Hcr Hi Hex Hlt.
  { by exists s. }
  destruct Hstep as (j & c & l & s1 & l1 & Hj & HP & Hl & ->). simpl in *.
  rewrite list_lookup_fmap in Hj. destruct (c_ws s !! j) as [wj|] eqn:Hwj; simplify_eq/=.
  pose proof (lock_phase_step _ _ _ _ _ _ Hl) as Hph.
  assert (after_lock_step wk wj l1 = Worker _ l1 (w_cs wj) (w_i wj) (w_cnt wj) (w_exit wj)) as Hal.
  { unfold after_lock_step. destruct HP as [[_ ->]| ->]; done. }
  set (s2 := CState _ s1 (c_counter s) (<[j:=after_lock_step wk wj l1]> (c_ws s)) (c_main s) (c_out s)).
  assert (cstep wk s s2) as Hc2.
  { apply (client_lock_step s j c); auto. destruct HP as [[-> Hpi]|Hpi]; rewrite Hpi; [|done].
    by simplify_eq. }
  assert (cinv s2) as Hs2 by (destruct Hc2 as [d Hd]; by eapply cnext_inv).
  pose proof (lookup_lt_Some _ _ _ Hwj) as Hltj.
  assert (∃ w2, c_ws s2 !! i = Some w2 ∧ w_exit w2 = false ∧ (w_i w2 < wk_num wk)%nat)
    as (w2 & Hi2 & Hex2 & Hlt2).
  { simpl. rewrite Hal. destruct (decide (i = j)) as [->|Hne].
    - rewrite list_lookup_insert_eq by done. simplify_eq. eauto.
    - rewrite list_lookup_insert_ne by done. eauto. }
  destruct (IH s2 w2) as (s' & Hr' & Hb & Hs' & Hm' & Hme'); try done.
  { simpl. rewrite list_fmap_insert, Hal. done. }
  exists s'. split_and!; try done; [by eapply rtc_l|].
  rewrite Hme'. unfold cmeasure; simpl. rewrite (Zsum_insert _ _ _ wj), Hal by done.
  unfold remaining; simpl. f_equal. lia.
Qed.

(** When nobody holds the lock, a thread that has work left gets the program on. *)
Lemma contender_progress s k w :
  cinv s → (∀ j, created (c_main s) j = true) → c_ws s !! k = Some w → w_exit w = false →
  (∀ j wj, c_ws s !! j = Some wj → lphase (w_loc wj) = Idle ∨ lphase (w_loc wj) = Acquiring) →
  ∃ s', rtc (cstep wk) s s' ∧ (cmeasure s' < cmeasure s)%nat.
Proof.
  intros Hs Hcr Hk Hex Hall.
  pose proof (lookup_lt_Some _ _ _ Hk) as Hlt. rewrite (ci_len _ Hs) in Hlt.
  destruct (ci_worker _ Hs _ _ Hk) as (Hle & _ & Hw).
  destruct (decide (w_i w = wk_num wk)) as [Hnum|Hnum].
  { assert (lphase (w_loc w) = Idle) as Hid.
    { destruct (Hall _ _ Hk) as [?|Hp]; [done|]. rewrite Hp in Hw. lia. }
    eexists. split.
    - apply rtc_once. exists (SThread k 0). simpl. rewrite Hk, Hcr. simpl. unfold worker_step.
      by rewrite Hid, Hex, Hnum, Nat.ltb_irrefl.
    - simpl. apply (cmeasure_insert s k w); auto; unfold remaining; simpl; rewrite ?Hex; lia. }
  destruct (lock_acquire _ _ k (ci_lock _ Hs) Hlt) as (sh' & ls' & j & l & Hr & Hj' & Hh).
  { rewrite length_fmap. apply ci_len, Hs. }
  { intros j l Hjl. rewrite list_lookup_fmap in Hjl.
    destruct (c_ws s !! j) as [wj|] eqn:Hwj; simplify_eq/=. eauto. }
  destruct (acquire_lift k _ _ Hr s w) as (s2 & Hr2 & Hb & Hs2 & Hm2 & Hme2); try done; [lia|].
  simplify_eq. rewrite list_lookup_fmap in Hj'.
  destruct (c_ws s2 !! j) as [wj|] eqn:Hwj; simplify_eq/=.
  destruct (holder_progress s2 j wj) as (s3 & Hr3 & Hm3); try done.
  { rewrite Hm2. apply Hcr. }
  { by left. }
  exists s3. split; [by etrans|lia].
Qed.

Lemma main_progress s s' :
  main_step wk s = Some s' → (cmeasure s' < cmeasure s)%nat →
  ∃ s', rtc (cstep wk) s s' ∧ (cmeasure s' < cmeasure s)%nat.
Proof. intros Hst Hm. exists s'. split; [apply rtc_once; by exists SMain|done]. Qed.

(** A state that is not final can run to a smaller one. *)
Lemma client_progress s :
  cinv s → c_main s = MExit ∨
    ∃ s', rtc (cstep wk) s s' ∧ cinv s' ∧ (cmeasure s' < cmeasure s)%nat.
Proof.
  intros Hs.
  enough (c_main s = MExit ∨ ∃ s', rtc (cstep wk) s s' ∧ (cmeasure s' < cmeasure s)%nat)
    as [?|(s' & Hr & Hm)]; [by left|right; eauto using rtc_cinv|].
  pose proof (ci_create _ Hs) as Hcrt. pose proof (ci_joined _ Hs) as [Hj _].
  pose proof (ci_len _ Hs) as Hlen.
  destruct (c_main s) as [k|k|] eqn:Hm; [| |by left]; right.
  { eapply main_progress; [unfold main_step; by rewrite Hm|].
    specialize (Hcrt _ eq_refl). unfold cmeasure; simpl. rewrite Hm.
    destruct (k <? length (c_ws s))%nat eqn:Hk; zify_bool; simpl; lia. }
  simpl in Hj. destruct (c_ws s !! k) as [w|] eqn:Hk; cycle 1.
  { eapply main_progress; [unfold main_step; by rewrite Hm, Hk|].
    unfold cmeasure; simpl. rewrite Hm. simpl. lia. }
  pose proof (lookup_lt_Some _ _ _ Hk) as Hlt.
  destruct (w_exit w) eqn:Hex.
  { eapply main_progress; [unfold main_step; by rewrite Hm, Hk, Hex|].
    unfold cmeasure; simpl. rewrite Hm. simpl. lia. }
  assert (∀ j, created (c_main s) j = true) as Hcr by (rewrite Hm; done).
  destruct (decide (Exists (λ w, lphase (w_loc w) = Held ∨ lphase (w_loc w) = Releasing) (c_ws s)))
    as [(w1 & [i Hi]%list_elem_of_lookup & Hh)%Exists_exists|Hno].
  { eapply holder_progress; eauto. }
  eapply contender_progress; eauto.
  intros j wj Hj'. destruct (lphase (w_loc wj)) eqn:Hp; auto; exfalso; apply Hno;
    apply Exists_exists; exists wj; (split; [apply list_elem_of_lookup; eauto|auto]).
Qed.

(** Every terminating run prints the number of increments, no two threads are in
    the critical section together, and every run can be continued to termination. *)
Lemma counting_correct s :
  reachable (cinit n) (cstep wk) s →
  (c_main s = MExit → c_out s = expected_output wk n) ∧
  (∀ i j wi wj, c_ws s !! i = Some wi → c_ws s !! j = Some wj →
     lphase (w_loc wi) = Held → lphase (w_loc wj) = Held → i = j) ∧
  (∃ s', rtc (cstep wk) s s' ∧ c_main s' = MExit).
Proof.
  intros Hs%reachable_cinv. split_and!.
  - by apply exit_output.
  - intros i j wi wj. by apply held_unique.
  - eapply (rtc_eventually _ cinv); eauto using client_progress.
Qed.

End client_proofs.

(** The same with the number of iterations given as an integer. *)
Lemma counting_correct_num `{L : LockImpl} (n : nat) `{!LockSpec L n} (num : Z) lm rm s :
  0 ≤ num → Z.of_nat n * num < 2 ^ 31 →
  reachable (cinit n) (cstep (Workload (Z.to_nat num) lm rm)) s →
  (c_main s = MExit → c_out s =
     match rm with
     | NoReport => []
     | _ => replicate n (match lm with NoLocal => 0 | _ => num end)
     end ++ [Z.of_nat n * num]) ∧
  (∀ i j wi wj, c_ws s !! i = Some wi → c_ws s !! j = Some wj →
     lphase (w_loc wi) = Held → lphase (w_loc wj) = Held → i = j) ∧
  (∃ s', rtc (cstep (Workload (Z.to_nat num) lm rm)) s s' ∧ c_main s' = MExit).
Proof.
  intros Hn Hb Hs.
  destruct (counting_correct n (Workload (Z.to_nat num) lm rm)) with (s := s) as (Hout & Hmx & Hend);
    [simpl; by rewrite Z2Nat.id|done|].
  split_and!; [|done..]. intros Hm. rewrite (Hout Hm). unfold expected_output. simpl.
  by rewrite Z2Nat.id.
Qed.

(** * Ownership of a lock word *)

(** [owned isin o ls]: the threads for which [isin] holds are exactly the owner
    [o], if any.  Shared by the locks whose memory is a single word. *)
Section owned.
Context {A : Type} (isin : A → bool).

Definition owned (o : option nat) (ls : list A) : Prop :=
  (∀ i l, ls !! i = Some l → isin l = true ↔ o = Some i) ∧
  (∀ i, o = Some i → (i < length ls)%nat).

Lemma owned_init n l : isin l = false → owned None (replicate n l).
Proof.
  intros Hl. split; [|done]. intros i l' [-> _]%lookup_replicate. rewrite Hl. naive_solver.
Qed.

Lemma owned_take ls i l' :
  owned None ls → (i < length ls)%nat → isin l' = true → owned (Some i) (<[i:=l']> ls).
Proof.
  intros [Ho _] Hi Hl'. split; [|intros j; rewrite length_insert; naive_solver].
  intros j lj [[-> ->]|[Hne Hj]]%lookup_insert_inv; [naive_solver|].
  rewrite (Ho _ _ Hj). naive_solver.
Qed.

Lemma owned_drop ls i l' :
  owned (Some i) ls → isin l' = false → owned None (<[i:=l']> ls).
Proof.
  intros [Ho _] Hl'. split; [|done].
  intros j lj [[-> ->]|[Hne Hj]]%lookup_insert_inv; [rewrite Hl'; naive_solver|].
  rewrite (Ho _ _ Hj). naive_solver.
Qed.

Lemma owned_keep o ls i l l' :
  owned o ls → ls !! i = Some l → isin l' = isin l → owned o (<[i:=l']> ls).
Proof.
  intros [Ho Hlen] Hi Hl'. split; [|intros j; rewrite length_insert; apply Hlen].
  intros j lj [[-> ->]|[Hne Hj]]%lookup_insert_inv; [rewrite Hl'|]; eauto.
Qed.

Lemma owned_unique o ls i j li lj :
  owned o ls → ls !! i = Some li → ls !! j = Some lj → isin li = true → isin lj = true → i = j.
Proof.
  intros [Ho _] Hi Hj Hli%(Ho _ _ Hi) Hlj%(Ho _ _ Hj). congruence.
Qed.

Lemma owned_free o ls :
  owned o ls → (∀ i l, ls !! i = Some l → isin l = false) → o = None.
Proof.
  intros [Ho Hlen] Hall. destruct o as [i|]; [|done].
  destruct (lookup_lt_is_Some_2 ls i (Hlen _ eq_refl)) as [l Hl].
  pose proof (proj2 (Ho _ _ Hl) eq_refl). rewrite (Hall _ _ Hl) in *. done.
Qed.
End owned.

(** A one-step run of the lock's code. *)
Lemma lrun1_once `{LockImpl} (P : nat → lloc → Prop) i c s ls l s' l' :
  ls !! i = Some l → P i l → lock_step i c s l = Some (s', l') →
  lrun1 P (s, ls) (s', <[i:=l']> ls).
Proof. intros. exists i, c, l, s', l'. done. Qed.

(** Run one step of thread [i] of lock [L]: look the thread up, check that it may
    run, and compute the step. *)
Ltac lock_one L i :=
  eapply (lrun1_once (H:=L) _ i 0%nat);
  [ first [ eassumption | apply list_lookup_insert_eq; first [ done | by eapply lookup_lt_Some ] ]
  | simpl; auto
  | first [ done | simpl; eassumption ] ].
