(* ===== verification/Lab1.v ===== *)
(** [Lab1]: ten threads increment a global counter with no synchronization
    (src/Lab1/prac_pthread.cpp).

    The program is the counting client run with a lock that excludes nobody: the
    steps that would enter and leave the critical section do nothing.  Every run
    prints at most the number of increments, and there is a run that loses one. *)

From S2P Require Import Prelude Locks.

Local Open Scope Z_scope.

Module PracPthread.

(** Between two iterations or inside one. *)
Inductive nloc := NOut | NIn.

#[export] Instance no_lock : LockImpl := {|
  lsh := unit;
  lloc := nloc;
  lsh_init := tt;
  lloc_init := NOut;
  lphase := λ l, match l with NOut => Idle | NIn => Held end;
  lock_step := λ _ _ _ l, Some (tt, match l with NOut => NIn | NIn => NOut end);
|}.

Definition NUM_THREAD : nat := 10.
Definition NUM_INCREASE : nat := Z.to_nat 1000000.

(** [cnt_global++; cnt_local++] in a loop; the local count is returned. *)
Definition ThreadFunc : workload := Workload NUM_INCREASE LocalAfter ReportAtJoin.

(** [main] creates the threads, joins them printing the local counts, and prints
    the global count. *)
Definition main_init : cstate := cinit NUM_THREAD.
Definition main_next : sched → cstate → option cstate := cnext ThreadFunc.
Definition main_run : cstate → cstate → Prop := cstep ThreadFunc.

(** ** Upper bound *)

Section bound.
Variable wk : workload.
Local Abbreviation K := (Z.of_nat (wk_num wk)).

(** Every value a thread read is at most the number of published increments, so
    no store makes the counter exceed it. *)
Record uinv (n : nat) (s : cstate) : Prop := {
  ui_len : length (c_ws s) = n;
  ui_counter : 0 ≤ c_counter s ≤ Zsum contrib (c_ws s);
  ui_worker : ∀ i w, c_ws s !! i = Some w →
    (w_i w ≤ wk_num wk)%nat ∧
    match w_loc w with
    | NOut => w_cs w = CsLoad
    | NIn => (w_i w < wk_num wk)%nat ∧
        ∀ t, w_cs w = CsStore t → 0 ≤ t ≤ Zsum contrib (c_ws s)
    end;
  ui_out : c_main s = MExit → last (c_out s) = Some (c_counter s);
  ui_exit : c_main s = MExit → ∀ i w, c_ws s !! i = Some w → w_exit w = true;
  ui_join : ∀ k, c_main s = MJoin k → (k ≤ n)%nat ∧
    ∀ i w, (i < k)%nat → c_ws s !! i = Some w → w_exit w = true;
  ui_idle : ∀ i w, c_ws s !! i = Some w → w_exit w = true → w_loc w = NOut ∧ w_i w = wk_num wk;
}.

Lemma contrib_bound n s i w : uinv n s → c_ws s !! i = Some w → 0 ≤ contrib w ≤ K.
Proof.
  intros Hs Hi. destruct (ui_worker _ _ Hs _ _ Hi) as [Hle Hw]. unfold contrib.
  destruct (w_loc w), (w_cs w); destruct_and?; simplify_eq; lia.
Qed.

Lemma counter_bound n s : uinv n s → c_counter s ≤ Z.of_nat n * K.
Proof.
  intros Hs. etrans; [apply Hs|]. rewrite <- (ui_len _ _ Hs). apply Zsum_le.
  intros w [i Hi]%list_elem_of_lookup. by eapply contrib_bound.
Qed.

Lemma uinv_init n : uinv n (cinit n).
Proof.
  assert (∀ w, w ∈ replicate n worker_init → w = worker_init) as Hrep.
  { intros w Hw%elem_of_replicate_inv. done. }
  constructor; simpl; try done.
  - by rewrite length_replicate.
  - rewrite (Zsum_const _ _ 0); [lia|]. intros w Hw%Hrep. by subst.
  - intros i w Hw%list_elem_of_lookup_2%Hrep. subst. simpl. split; [lia|done].
  - intros i w Hw%list_elem_of_lookup_2%Hrep. by subst.
Qed.

(** Replacing one worker by a state of no smaller contribution. *)
Lemma uinv_update n s i w w' g' :
  uinv n s → c_ws s !! i = Some w → w_exit w = false → c_main s ≠ MExit →
  contrib w ≤ contrib w' → 0 ≤ g' ≤ Zsum contrib (c_ws s) - contrib w + contrib w' →
  (w_i w' ≤ wk_num wk)%nat →
  match w_loc w' with
  | NOut => w_cs w' = CsLoad
  | NIn => (w_i w' < wk_num wk)%nat ∧ ∀ t, w_cs w' = CsStore t → 0 ≤ t ≤ Zsum contrib (c_ws s)
  end →
  (w_exit w' = true → w_loc w' = NOut ∧ w_i w' = wk_num wk) →
  uinv n (CState _ tt g' (<[i:=w']> (c_ws s)) (c_main s) (c_out s)).
Proof.
  intros Hs Hi He Hm Hc Hg Hle Hw' Hid.
  assert (Zsum contrib (<[i:=w']> (c_ws s)) = Zsum contrib (c_ws s) - contrib w + contrib w') as Hsum
    by (by apply Zsum_insert).
  constructor; simpl; try done.
  - rewrite length_insert. apply Hs.
  - lia.
  - intros j wj [[-> ->]|[Hne Hj]]%lookup_insert_inv.
    + split; [done|]. destruct (w_loc w'); [done|]. destruct Hw' as [? Ht]. split; [done|].
      intros t Ht'. specialize (Ht t Ht'). lia.
    + destruct (ui_worker _ _ Hs _ _ Hj) as [? Hwj]. split; [done|].
      destruct (w_loc wj); [done|]. destruct Hwj as [? Ht]. split; [done|].
      intros t Ht'. specialize (Ht t Ht'). lia.
  - intros k Hk. destruct (ui_join _ _ Hs k Hk) as [Hkn Hj]. split; [done|].
    intros j wj Hlt [[-> ->]|[Hne Hj']]%lookup_insert_inv; [|by eapply Hj].
    rewrite (Hj _ _ Hlt Hi) in He. done.
  - intros j wj [[-> ->]|[Hne Hj']]%lookup_insert_inv; [done|]. by eapply Hs.
Qed.

Hypothesis Hreport : wk_report wk = ReportAtJoin.

Lemma uinv_worker n s i c w sh' g' w' out' :
  Z.of_nat n * K < 2 ^ 31 → uinv n s → c_ws s !! i = Some w →
  worker_step wk i c s w = Some (sh', g', w', out') →
  uinv n (CState _ sh' g' (<[i:=w']> (c_ws s)) (c_main s) out').
Proof.
  intros Hb Hs Hi Hst. destruct sh'.
  assert (w_exit w = false) as He.
  { destruct (w_exit w) eqn:He; [|done]. destruct (ui_idle _ _ Hs _ _ Hi He) as [Hl _].
    unfold worker_step in Hst. simpl in Hst. by rewrite Hl, He in Hst. }
  assert (c_main s ≠ MExit) as Hm.
  { intros Hm. pose proof (ui_exit _ _ Hs Hm _ _ Hi). congruence. }
  destruct (ui_worker _ _ Hs _ _ Hi) as [Hle Hw]. pose proof (ui_counter _ _ Hs) as Hc.
  unfold worker_step, worker_lock, after_lock_step in Hst. simpl in Hst.
  destruct (w_loc w) eqn:Hl; simpl in Hst; rewrite ?He, ?Hl, ?Hreport in Hst.
  - destruct (w_i w <? wk_num wk)%nat eqn:Hlt; zify_bool; simplify_eq/=.
    + apply (uinv_update n s i w); unfold contrib in *; simpl; rewrite ?Hw; auto with lia.
      split; [done|]. intros; simplify_eq.
    + apply (uinv_update n s i w); unfold contrib in *; simpl; rewrite ?Hl, ?Hw; auto with lia.
  - destruct Hw as [Hlt Ht]. destruct (w_cs w) eqn:Hcs; simplify_eq/=.
    + apply (uinv_update n s i w); unfold contrib in *; simpl; rewrite ?Hl, ?Hcs; auto with lia.
      split; [done|]. intros; simplify_eq. lia.
    + specialize (Ht _ eq_refl).
      set (w' := Worker no_lock NIn CsDone (w_i w) (w_cnt w) false).
      assert (contrib w' = contrib w + 1) as Hinc by (unfold contrib; simpl; rewrite Hcs; lia).
      assert (Zsum contrib (c_ws s) + 1 ≤ Z.of_nat n * K) as Hsum.
      { rewrite <- (ui_len _ _ Hs), <- (length_insert (c_ws s) i w').
        etrans; [|apply (Zsum_le contrib)].
        - rewrite (Zsum_insert _ _ _ w) by done. lia.
        - intros x [j [[-> ->]|[Hne Hj]]%lookup_insert_inv]%list_elem_of_lookup.
          + unfold contrib; simpl. lia.
          + by eapply contrib_bound. }
      rewrite i32_id by lia.
      apply (uinv_update n s i w); simpl; auto; try lia. split; [done|]. intros; simplify_eq.
    + apply (uinv_update n s i w); unfold contrib in *; simpl; rewrite ?Hl, ?Hcs; auto with lia.
Qed.

Lemma uinv_main n s s' : uinv n s → main_step wk s = Some s' → uinv n s'.
Proof.
  intros Hs Hst. unfold main_step in Hst. destruct (c_main s) as [k|k|] eqn:Hm; [| |done].
  - simplify_eq. constructor; simpl; try apply Hs; try by destruct (k <? _)%nat.
    intros j. destruct (k <? length (c_ws s))%nat; intros; simplify_eq. split; intros; lia.
  - destruct (ui_join _ _ Hs k Hm) as [Hk Hj].
    destruct (c_ws s !! k) as [w|] eqn:Hi.
    + destruct (w_exit w) eqn:He; simplify_eq. pose proof (lookup_lt_Some _ _ _ Hi) as Hlt.
      rewrite (ui_len _ _ Hs) in Hlt.
      constructor; simpl; try apply Hs; try done.
      intros j ?; simplify_eq. split; [lia|]. intros i wi Hlt' Hwi.
      destruct (decide (i = k)) as [->|]; [congruence|]. apply (Hj i); [lia|done].
    + simplify_eq. apply lookup_ge_None in Hi. rewrite (ui_len _ _ Hs) in Hi.
      constructor; simpl; try apply Hs; try done.
      * intros _. by rewrite last_snoc.
      * intros _ i w Hw. pose proof (lookup_lt_Some _ _ _ Hw) as Hlt.
        rewrite (ui_len _ _ Hs) in Hlt. apply (Hj i); [lia|done].
Qed.

Lemma uinv_reachable n s :
  Z.of_nat n * K < 2 ^ 31 → reachable (cinit n) (cstep wk) s → uinv n s.
Proof.
  intros Hb. apply reachable_invariant; [apply uinv_init|]. intros a b Ha [[|i c] Hd]; simpl in Hd.
  - by eapply uinv_main.
  - destruct (c_ws a !! i) as [w|] eqn:Hi; simplify_eq/=. destruct (created _ _); [|done].
    destruct (worker_step wk i c a w) as [[[[sh' g'] w'] out']|] eqn:Hw; simplify_eq/=.
    by eapply uinv_worker.
Qed.
End bound.

(** ** A run that loses an update *)

Section lost.
Variable num : nat.
Local Abbreviation wk := (Workload num LocalAfter ReportAtJoin).

(** A worker between two iterations, with [a] of them done. *)
Definition between (a : nat) : worker := Worker no_lock NOut CsLoad a (Z.of_nat a) false.
Definition ended : worker := Worker no_lock NOut CsLoad num (Z.of_nat num) true.

Definition st (g : Z) (ws : list worker) (m : main_pc) (out : list Z) : cstate :=
  CState no_lock tt g ws m out.

Lemma sched_step d s s' : cnext wk d s = Some s' → cstep wk s s'.
Proof. by exists d. Qed.

Lemma create_all n k :
  (k ≤ n)%nat →
  rtc (cstep wk) (st 0 (replicate n worker_init) (MCreate k) []) (st 0 (replicate n worker_init) (MJoin 0) []).
Proof.
  intros Hk. remember (n - k)%nat as d eqn:Hd. revert k Hk Hd. induction d as [|d IH]; intros k Hk Hd.
  - apply rtc_once, (sched_step SMain). simpl. unfold main_step; simpl. rewrite length_replicate.
    by replace (k <? n)%nat with false by (symmetry; apply Nat.ltb_ge; lia).
  - eapply rtc_l; [|apply (IH (S k)); lia]. apply (sched_step SMain). simpl. unfold main_step; simpl.
    rewrite length_replicate. by replace (k <? n)%nat with true by (symmetry; apply Nat.ltb_lt; lia).
Qed.

(** The four steps of an iteration of thread [i], each from the state the one
    before it left. *)
Lemma enter_step g ws k out i a :
  ws !! i = Some (between a) → (a < num)%nat →
  cstep wk (st g ws (MJoin k) out)
    (st g (<[i:=Worker no_lock NIn CsLoad a (Z.of_nat a) false]> ws) (MJoin k) out).
Proof.
  intros Hi Ha. apply (sched_step (SThread i 0)). simpl. rewrite Hi. simpl.
  unfold worker_step; simpl. apply Nat.ltb_lt in Ha as ->. done.
Qed.

Lemma load_step g ws k out i a :
  ws !! i = Some (Worker no_lock NIn CsLoad a (Z.of_nat a) false) →
  cstep wk (st g ws (MJoin k) out)
    (st g (<[i:=Worker no_lock NIn (CsStore g) a (Z.of_nat a) false]> ws) (MJoin k) out).
Proof. intros Hi. apply (sched_step (SThread i 0)). simpl. by rewrite Hi. Qed.

Lemma store_step g ws k out i a t :
  ws !! i = Some (Worker no_lock NIn (CsStore t) a (Z.of_nat a) false) →
  cstep wk (st g ws (MJoin k) out)
    (st (i32 (t + 1)) (<[i:=Worker no_lock NIn CsDone a (Z.of_nat a) false]> ws) (MJoin k) out).
Proof. intros Hi. apply (sched_step (SThread i 0)). simpl. by rewrite Hi. Qed.

Lemma leave_step g ws k out i a :
  ws !! i = Some (Worker no_lock NIn CsDone a (Z.of_nat a) false) → Z.of_nat a < 2 ^ 31 →
  cstep wk (st g ws (MJoin k) out) (st g (<[i:=between (S a)]> ws) (MJoin k) out).
Proof.
  intros Hi Ha. apply (sched_step (SThread i 0)). simpl. rewrite Hi. simpl.
  unfold worker_step, worker_lock, after_lock_step; simpl. unfold between.
  by rewrite i64_id, Z.add_1_r, <- Nat2Z.inj_succ by lia.
Qed.

(** A thread running alone counts correctly. *)
Lemma solo_run g ws k out i a :
  ws !! i = Some (between a) → (a ≤ num)%nat → 0 ≤ g → g + (Z.of_nat num - Z.of_nat a) < 2 ^ 31 →
  Z.of_nat num < 2 ^ 31 →
  rtc (cstep wk) (st g ws (MJoin k) out)
    (st (g + (Z.of_nat num - Z.of_nat a)) (<[i:=ended]> ws) (MJoin k) out).
Proof.
  intros Hi Ha Hg Hb Hn. pose proof (lookup_lt_Some _ _ _ Hi) as Hlt.
  remember (num - a)%nat as d eqn:Hd. revert g ws a Hi Ha Hg Hb Hd Hlt.
  induction d as [|d IH]; intros g ws a Hi Ha Hg Hb Hd Hlt.
  - assert (a = num) as -> by lia. rewrite Z.sub_diag, Z.add_0_r.
    apply rtc_once, (sched_step (SThread i 0)). simpl. rewrite Hi. simpl.
    unfold worker_step; simpl. by rewrite Nat.ltb_irrefl.
  - eapply rtc_l; [apply enter_step; [done|lia]|].
    eapply rtc_l; [apply load_step; by rewrite list_lookup_insert_eq|].
    rewrite list_insert_insert_eq.
    eapply rtc_l; [apply store_step; by rewrite list_lookup_insert_eq|].
    rewrite list_insert_insert_eq, i32_id by lia.
    eapply rtc_l; [apply leave_step; [by rewrite list_lookup_insert_eq|lia]|].
    rewrite list_insert_insert_eq.
    replace (g + (Z.of_nat num - Z.of_nat a)) with ((g + 1) + (Z.of_nat num - Z.of_nat (S a))) by lia.
    replace (<[i:=ended]> ws) with (<[i:=ended]> (<[i:=between (S a)]> ws))
      by (by rewrite list_insert_insert_eq).
    apply IH; rewrite ?length_insert; try lia. by rewrite list_lookup_insert_eq.
Qed.

(** Running the threads one after the other finishes all of them. *)
Lemma all_run pre (rest : list nat) g k out :
  Forall (λ a, a ≤ num)%nat rest → 0 ≤ g →
  g + Zsum (λ a, Z.of_nat num - Z.of_nat a) rest < 2 ^ 31 → Z.of_nat num < 2 ^ 31 →
  rtc (cstep wk) (st g (replicate pre ended ++ (between <$> rest)) (MJoin k) out)
    (st (g + Zsum (λ a, Z.of_nat num - Z.of_nat a) rest) (replicate (pre + length rest) ended) (MJoin k) out).
Proof.
  revert pre g. induction rest as [|a rest IH]; intros pre g Hf Hg Hb Hn; cbn [Zsum length fmap list_fmap].
  - by rewrite app_nil_r, Nat.add_0_r, Z.add_0_r.
  - apply Forall_cons in Hf as [Ha Hf]. cbn [Zsum] in Hb.
    assert (0 ≤ Zsum (λ a, Z.of_nat num - Z.of_nat a) rest) as Hnn.
    { apply Zsum_nonneg. intros x Hx. rewrite Forall_forall in Hf. specialize (Hf x Hx). lia. }
    etrans.
    + apply (solo_run g _ k out pre a); try lia.
      rewrite lookup_app_r by (rewrite length_replicate; lia).
      by rewrite length_replicate, Nat.sub_diag.
    + rewrite insert_app_r_alt by (rewrite length_replicate; lia).
      rewrite length_replicate, Nat.sub_diag. simpl.
      replace (replicate pre ended ++ ended :: (between <$> rest))
        with (replicate (S pre) ended ++ (between <$> rest))
        by (rewrite replicate_S_end, <- app_assoc; done).
      replace (pre + S (length rest))%nat with (S pre + length rest)%nat by lia.
      rewrite Z.add_assoc. apply IH; auto; lia.
Qed.

(** [main] joins the finished threads and prints. *)
Lemma join_run n k g out :
  (k ≤ n)%nat →
  rtc (cstep wk) (st g (replicate n ended) (MJoin k) out)
    (st g (replicate n ended) MExit (out ++ replicate (n - k) (Z.of_nat num) ++ [g])).
Proof.
  intros Hk. remember (n - k)%nat as d eqn:Hd. revert k out Hk Hd.
  induction d as [|d IH]; intros k out Hk Hd.
  - apply rtc_once, (sched_step SMain). simpl. unfold main_step; simpl.
    by rewrite (proj2 (lookup_ge_None _ _)) by (rewrite length_replicate; lia).
  - eapply rtc_l; [apply (sched_step SMain); simpl; unfold main_step; simpl;
      rewrite lookup_replicate_2 by lia; done|].
    simpl. replace (out ++ Z.of_nat num :: replicate d (Z.of_nat num) ++ [g])
      with ((out ++ [Z.of_nat num]) ++ replicate d (Z.of_nat num) ++ [g]) by (by rewrite <- app_assoc).
    apply IH; lia.
Qed.

(** Threads 0 and 1 both read the counter before either writes it back. *)
Lemma lost_update_run n :
  (1 ≤ num)%nat → Z.of_nat (S (S n)) * Z.of_nat num < 2 ^ 31 →
  reachable (cinit (S (S n))) (cstep wk)
    (st (Z.of_nat (S (S n)) * Z.of_nat num - 1) (replicate (S (S n)) ended) MExit
       (replicate (S (S n)) (Z.of_nat num) ++ [Z.of_nat (S (S n)) * Z.of_nat num - 1])).
Proof.
  intros Hnum Hb. unfold reachable.
  etrans; [apply (create_all (S (S n)) 0); lia|].
  change (replicate (S (S n)) worker_init) with (between 0 :: between 0 :: replicate n (between 0)).
  eapply rtc_l; [apply (enter_step _ _ _ _ 0 0); [done|lia]|].
  eapply rtc_l; [apply (load_step _ _ _ _ 0 0); done|].
  eapply rtc_l; [apply (enter_step _ _ _ _ 1 0); [done|lia]|].
  eapply rtc_l; [apply (load_step _ _ _ _ 1 0); done|].
  eapply rtc_l; [apply (store_step _ _ _ _ 1 0 0); done|].
  eapply rtc_l; [apply (leave_step _ _ _ _ 1 0); [done|lia]|].
  eapply rtc_l; [apply (store_step _ _ _ _ 0 0 0); done|].
  eapply rtc_l; [apply (leave_step _ _ _ _ 0 0); [done|lia]|].
  simpl.
  assert (Zsum (λ a, Z.of_nat num - Z.of_nat a) (1%nat :: 1%nat :: replicate n 0%nat)
    = Z.of_nat (S (S n)) * Z.of_nat num - 2) as Hsum.
  { cbn [Zsum]. rewrite (Zsum_const _ _ (Z.of_nat num)).
    - rewrite length_replicate. lia.
    - intros x Hx%elem_of_replicate_inv. subst. lia. }
  pose proof (all_run 0 (1%nat :: 1%nat :: replicate n 0%nat) 1 0 []) as Hall.
  rewrite Hsum in Hall. simpl in Hall. rewrite fmap_replicate, length_replicate in Hall.
  etrans; [apply Hall; try lia|].
  { repeat constructor; try lia. apply Forall_replicate. lia. }
  replace (Z.of_nat (S (S n)) * Z.of_nat num - 1) with (1 + (Z.of_nat (S (S n)) * Z.of_nat num - 2)) by lia.
  apply (join_run (S (S n)) 0). lia.
Qed.
End lost.

Lemma total_increments : Z.of_nat NUM_THREAD * Z.of_nat (wk_num ThreadFunc) = 10000000.
Proof. unfold ThreadFunc, NUM_INCREASE. cbn [wk_num]. by rewrite Z2Nat.id. Qed.

(** Whatever the interleaving, the global count the program prints last is
    between 0 and the number of increments, 10000000. *)
Theorem race_main_bounds s :
  reachable main_init main_run s → c_main s = MExit →
  ∃ g, last (c_out s) = Some g ∧ 0 ≤ g ≤ 10000000.
Proof.
  intros Hs Hm. assert (uinv ThreadFunc NUM_THREAD s) as Hu.
  { apply uinv_reachable; [reflexivity| |exact Hs]. by rewrite total_increments. }
  exists (c_counter s). split; [by apply (ui_out _ _ _ Hu)|].
  pose proof (ui_counter _ _ _ Hu). pose proof (counter_bound _ _ _ Hu) as Hb.
  rewrite total_increments in Hb. lia.
Qed.

(** The run that loses an update, at the sizes of the program. *)
Lemma race_final_state :
  reachable main_init main_run
    (st 9999999 (replicate 10 (ended NUM_INCREASE)) MExit (replicate 10 1000000 ++ [9999999])).
Proof.
  pose proof (lost_update_run NUM_INCREASE 8) as Hr.
  assert (Z.of_nat NUM_INCREASE = 1000000) as HK by (unfold NUM_INCREASE; by rewrite Z2Nat.id).
  rewrite HK in Hr. apply Hr; [lia|done].
Qed.

(** Without synchronization the program can print a global count smaller than
    the number of increments although every thread reports all of its own: two
    threads read the counter before either writes it back. *)
Theorem race_loses_update :
  ∃ s, reachable main_init main_run s ∧ c_main s = MExit ∧
    c_out s = replicate 10 1000000 ++ [9999999].
Proof. eexists. split; [apply race_final_state|done]. Qed.

Lemma race_main_bounds_witness : ∃ g, last (replicate 10 1000000 ++ [9999999]) = Some g ∧ 0 ≤ g ≤ 10000000.
Proof. exact (race_main_bounds _ race_final_state eq_refl). Defined.

End PracPthread.
