(* ===== verification/Lab2.v ===== *)
(** [Lab2]: ten threads increment a global counter under a [pthread] mutex
    (src/Lab2/prac_mutex.cpp).  The mutex is an instance of the lock interface, and the printed
    global count is the number of increments. *)

From S2P Require Import Prelude Locks.

Local Open Scope Z_scope.

(** * The POSIX mutex *)

Module PthreadMutex.

(** A thread is outside or inside the section between lock and unlock. *)
Inductive ploc := POut | PIn.

Definition ploc_phase (l : ploc) : phase := match l with POut => Idle | PIn => Held end.

(** [pthread_mutex_lock] waits until the mutex is free and takes it;
    [pthread_mutex_unlock] gives it back. *)
Definition mutex_step (i _ : nat) (m : option nat) (l : ploc) : option (option nat * ploc) :=
  match l, m with
  | POut, None => Some (Some i, PIn)
  | POut, Some _ => None
  | PIn, _ => Some (None, POut)
  end.

#[export] Instance pthread_mutex : LockImpl := {|
  lsh := option nat;
  lloc := ploc;
  lsh_init := None;
  lloc_init := POut;
  lphase := ploc_phase;
  lock_step := mutex_step;
|}.

Definition inside (l : ploc) : bool := match l with PIn => true | POut => false end.

#[export] Instance pthread_mutex_spec n : LockSpec pthread_mutex n.
Proof.
  refine {| lock_inv := λ (m : @lsh pthread_mutex) (ls : list (@lloc pthread_mutex)), owned inside m ls |}.
  - done.
  - by apply owned_init.
  - intros m ls i c [] m' l' Ho Hi Hst; simpl in *; destruct m; simplify_eq.
    + apply owned_take; [done|by eapply lookup_lt_Some|done].
    + assert (i = n0) as ->. { destruct Ho as [Ho _]. pose proof (proj1 (Ho _ _ Hi) eq_refl). congruence. }
      by eapply owned_drop.
    + destruct Ho as [Ho _]. pose proof (proj1 (Ho _ _ Hi) eq_refl). done.
  - intros i c m [] m' l' Hst; simpl in *; destruct m; by simplify_eq.
  - intros m ls i j [] [] Ho Hi Hj; simpl; intros ??; simplify_eq.
    by eapply (owned_unique inside).
  - intros m ls i [] Ho Hi; simpl; intros [?|?]; simplify_eq.
    exists None, POut. split; [|done]. apply rtc_once.
    eapply (lrun1_once (H:=pthread_mutex) _ i 0%nat); eauto.
  - intros m ls i Ho Hlt Hlen Hall.
    assert (m = None) as ->.
    { eapply (owned_free inside); [done|]. intros j l Hj. destruct (Hall _ _ Hj), l; done. }
    destruct (lookup_lt_is_Some_2 ls i) as [l Hl]; [lia|].
    destruct l; [|by destruct (Hall _ _ Hl)].
    exists (Some i), (<[i:=PIn]> ls), i, PIn. split_and!; [|apply list_lookup_insert_eq; lia|done].
    apply rtc_once. eapply (lrun1_once (H:=pthread_mutex) _ i 0%nat); eauto.
Qed.

End PthreadMutex.

(** * Lab2: the counter protected by the mutex *)

Module PracMutex.
Import PthreadMutex.

Definition NUM_THREAD : nat := 10.
Definition NUM_INCREASE : nat := Z.to_nat 1000000.

(** The thread function counts its iterations in [cnt_local] after each unlock
    and returns the count. *)
Definition ThreadFunc : workload := Workload NUM_INCREASE LocalAfter ReportAtJoin.

(** [main] creates the threads, joins them printing each local count, and prints
    the global count. *)
Definition main_init : cstate := cinit NUM_THREAD.
Definition main_next : sched → cstate → option cstate := cnext ThreadFunc.
Definition main_run : cstate → cstate → Prop := cstep ThreadFunc.

(** C31: with the mutex, whatever the interleaving, the program that ends has
    printed the local count 1000000 ten times and the global count 10000000; and
    from every reachable state the program can be run to its end (no deadlock). *)
Theorem mutex_main_correct s :
  reachable main_init main_run s →
  (c_main s = MExit → c_out s = replicate 10 1000000 ++ [10000000]) ∧
  (∃ s', rtc main_run s s' ∧ c_main s' = MExit).
Proof.
  intros Hs. destruct (counting_correct_num NUM_THREAD 1000000 _ _ s ltac:(done) ltac:(done) Hs) as (Hout & _ & Hend).
  split; [|done]. intros Hm. rewrite Hout by done. reflexivity.
Qed.

(** A state where thread 0 is inside the critical section and the others wait. *)
Definition sample_sched : list sched := replicate 11 SMain ++ [SThread 0 0; SThread 0 0].
Definition sample_state : cstate :=
  Eval vm_compute in default main_init (run_sched main_next sample_sched main_init).

Lemma sample_reachable : reachable main_init main_run sample_state.
Proof. apply (run_sched_rtc main_next sample_sched). vm_compute. reflexivity. Qed.

Lemma mutex_main_correct_witness :
  c_sh sample_state = Some 0%nat ∧ ∃ s', rtc main_run sample_state s' ∧ c_main s' = MExit.
Proof.
  split; [reflexivity|]. apply (mutex_main_correct sample_state). apply sample_reachable.
Defined.

End PracMutex.
