(* ===== verification/Spin.v ===== *)
(** [Lab6]: the test-and-set and the test-and-test-and-set spin locks
    (src/Lab6/tas.cpp, src/Lab6/ttas.cpp), as instances of the lock interface,
    and the counting programs that use them. *)

From S2P Require Import Prelude Locks.

Local Open Scope Z_scope.

(** The lock word agrees with the owner. *)
Definition word (o : option nat) : Z := match o with Some _ => 1 | None => 0 end.

(** * Test-and-set *)

Module Tas.

(** [TOut]; spinning on the exchange; holding; past the releasing store, at the
    fence. *)
Inductive tloc := TOut | TSpin | TIn | TFence.

Definition tloc_phase (l : tloc) : phase :=
  match l with TOut => Idle | TSpin => Acquiring | TIn => Held | TFence => Releasing end.

(** [while (__sync_lock_test_and_set(lock_object, 1) == 1) {}] *)
Definition lock (object_tas : Z) : Z * tloc :=
  (1, if object_tas =? 1 then TSpin else TIn).

(** [*lock_object = 0; __sync_synchronize();] *)
Definition unlock (_ : Z) : Z * tloc := (0, TFence).

Definition tas_step (i c : nat) (m : Z) (l : tloc) : option (Z * tloc) :=
  match l with
  | TOut | TSpin => Some (lock m)
  | TIn => Some (unlock m)
  | TFence => Some (m, TOut)
  end.

#[export] Instance tas : LockImpl := {|
  lsh := Z;
  lloc := tloc;
  lsh_init := 0;
  lloc_init := TOut;
  lphase := tloc_phase;
  lock_step := tas_step;
|}.

Definition inside (l : tloc) : bool := match l with TIn => true | _ => false end.

Definition tas_inv (m : Z) (ls : list tloc) : Prop := ∃ o, m = word o ∧ owned inside o ls.

Lemma tas_inv_step m ls i c l m' l' :
  tas_inv m ls → ls !! i = Some l → tas_step i c m l = Some (m', l') → tas_inv m' (<[i:=l']> ls).
Proof.
  intros (o & -> & Ho) Hi Hst. pose proof (lookup_lt_Some _ _ _ Hi) as Hlt.
  destruct l; simpl in Hst; unfold lock, unlock in Hst; simplify_eq.
  1,2: destruct o as [j|]; simpl;
    [exists (Some j); split; [done|]; by eapply owned_keep
    |exists (Some i); split; [done|]; by apply owned_take].
  - pose proof (proj1 (proj1 Ho _ _ Hi) eq_refl) as ->.
    exists None. split; [done|]. by eapply owned_drop.
  - exists o. split; [done|]. by eapply owned_keep.
Qed.

#[export] Instance tas_spec n : LockSpec tas n.
Proof.
  refine {| lock_inv := tas_inv : @lsh tas → list (@lloc tas) → Prop |}.
  - done.
  - exists None. split; [done|]. by apply owned_init.
  - exact tas_inv_step.
  - intros i c m l m' l' Hst. simpl in *. unfold tas_step, lock, unlock in Hst.
    destruct l; simplify_eq/=; by repeat case_match.
  - intros m ls i j [] [] (o & _ & Ho) Hi Hj; simpl; intros ??; simplify_eq.
    by eapply (owned_unique inside).
  - intros m ls i l Hinv Hi Hp.
    destruct l; try by destruct Hp.
    + exists 0, TOut. split; [|done]. eapply rtc_l; [lock_one tas i|].
      apply rtc_once. rewrite <- (list_insert_insert_eq ls i TOut TFence). lock_one tas i.
    + exists m, TOut. split; [|done]. apply rtc_once. lock_one tas i.
  - intros m ls i (o & -> & Ho) Hlt Hlen Hall.
    assert (o = None) as ->.
    { eapply (owned_free inside); [done|]. intros j l Hj. destruct (Hall _ _ Hj), l; done. }
    destruct (lookup_lt_is_Some_2 ls i) as [l Hl]; [lia|].
    exists 1, (<[i:=TIn]> ls), i, TIn. split_and!; [|apply list_lookup_insert_eq; lia|done].
    apply rtc_once. eapply (lrun1_once (H:=tas) _ i 0%nat); eauto; destruct (Hall _ _ Hl), l; auto; done.
Qed.

Definition NUM_THREAD : nat := 8.
Definition NUM_WORK : nat := Z.to_nat 1000000.

Definition Work : workload := Workload NUM_WORK NoLocal NoReport.

Definition main_init : cstate := cinit (L:=tas) NUM_THREAD.
Definition main_run : cstate → cstate → Prop := cstep (L:=tas) Work.

(** The program with the test-and-set lock prints 8000000 whenever it ends,
    never has two threads in the critical section, and can be run to its end from
    every reachable state. *)
Theorem tas_main_correct s :
  reachable main_init main_run s →
  (c_main s = MExit → c_out s = [8000000]) ∧
  (∀ i j wi wj, c_ws s !! i = Some wi → c_ws s !! j = Some wj →
     w_loc wi = TIn → w_loc wj = TIn → i = j) ∧
  (∃ s', rtc main_run s s' ∧ c_main s' = MExit).
Proof.
  intros Hs. destruct (counting_correct_num NUM_THREAD 1000000 _ _ s ltac:(done) ltac:(done) Hs) as (Hout & Hmx & Hend).
  split_and!; [| |done].
  - intros Hm. rewrite Hout by done. reflexivity.
  - intros i j wi wj Hi Hj Hwi Hwj. apply (Hmx i j wi wj); simpl; rewrite ?Hwi, ?Hwj; done.
Qed.

(** A state with one thread inside and another one waiting for the lock. *)
Definition sample_sched : list sched := replicate 9 SMain ++ [SThread 3 0; SThread 5 0].
Definition sample_state : cstate :=
  Eval vm_compute in default main_init (run_sched (cnext (L:=tas) Work) sample_sched main_init).

Lemma tas_sample : reachable main_init main_run sample_state.
Proof. apply (run_sched_rtc (cnext (L:=tas) Work) sample_sched). vm_compute. reflexivity. Qed.

Lemma tas_main_correct_witness :
  w_loc <$> c_ws sample_state = [TOut; TOut; TOut; TIn; TOut; TSpin; TOut; TOut] ∧
  ∃ s', rtc main_run sample_state s' ∧ c_main s' = MExit.
Proof.
  split; [reflexivity|]. apply (tas_main_correct sample_state). apply tas_sample.
Defined.

End Tas.

(** * Test-and-test-and-set *)

Module Ttas.

(** [SOut]; spinning on the plain read; about to exchange; holding; at the fence. *)
Inductive sloc := SOut | SRead | SXchg | SIn | SFence.

#[export] Instance sloc_eq_dec : EqDecision sloc.
Proof. solve_decision. Defined.

Definition sloc_phase (l : sloc) : phase :=
  match l with SOut => Idle | SRead | SXchg => Acquiring | SIn => Held | SFence => Releasing end.

(** The inner [while ( *lock_object == 1) {}]. *)
Definition lock_read (object_ttas : Z) : sloc := if object_ttas =? 1 then SRead else SXchg.

(** [if (__sync_lock_test_and_set(lock_object, 1) == 0) break;] *)
Definition lock_xchg (object_ttas : Z) : Z * sloc := (1, if object_ttas =? 0 then SIn else SRead).

Definition unlock (_ : Z) : Z * sloc := (0, SFence).

Definition ttas_step (i c : nat) (m : Z) (l : sloc) : option (Z * sloc) :=
  match l with
  | SOut | SRead => Some (m, lock_read m)
  | SXchg => Some (lock_xchg m)
  | SIn => Some (unlock m)
  | SFence => Some (m, SOut)
  end.

#[export] Instance ttas : LockImpl := {|
  lsh := Z;
  lloc := sloc;
  lsh_init := 0;
  lloc_init := SOut;
  lphase := sloc_phase;
  lock_step := ttas_step;
|}.

Definition inside (l : sloc) : bool := match l with SIn => true | _ => false end.

Definition ttas_inv (m : Z) (ls : list sloc) : Prop := ∃ o, m = word o ∧ owned inside o ls.

Lemma ttas_inv_step m ls i c l m' l' :
  ttas_inv m ls → ls !! i = Some l → ttas_step i c m l = Some (m', l') → ttas_inv m' (<[i:=l']> ls).
Proof.
  intros (o & -> & Ho) Hi Hst. pose proof (lookup_lt_Some _ _ _ Hi) as Hlt.
  destruct l; simpl in Hst; unfold lock_read, lock_xchg, unlock in Hst; simplify_eq.
  1,2: exists o; split; [done|]; eapply owned_keep; [done..|]; by destruct o.
  - destruct o as [j|]; simpl.
    + exists (Some j). split; [done|]. by eapply owned_keep.
    + exists (Some i). split; [done|]. by apply owned_take.
  - pose proof (proj1 (proj1 Ho _ _ Hi) eq_refl) as ->.
    exists None. split; [done|]. by eapply owned_drop.
  - exists o. split; [done|]. by eapply owned_keep.
Qed.

(** With the word clear, a thread at the exchange gets the lock, and so does a
    thread at the read one step later. *)
Lemma ttas_take (ls : list sloc) i l :
  ls !! i = Some l → sloc_phase l = Idle ∨ sloc_phase l = Acquiring →
  rtc (lrun1 (H:=ttas) (λ j l, (j = i ∧ sloc_phase l = Idle) ∨ sloc_phase l = Acquiring))
    (0, ls) (1, <[i:=SIn]> ls).
Proof.
  intros Hi Hp. pose proof (lookup_lt_Some _ _ _ Hi) as Hlt.
  assert (∀ ls : list sloc, ls !! i = Some SXchg → lrun1 (H:=ttas)
    (λ j l, (j = i ∧ sloc_phase l = Idle) ∨ sloc_phase l = Acquiring) (0, ls) (1, <[i:=SIn]> ls)) as Hx.
  { intros ls' Hi'. lock_one ttas i. }
  destruct (decide (l = SXchg)) as [->|Hne]; [by apply rtc_once, Hx|].
  eapply rtc_l; [apply (lrun1_once (H:=ttas) _ i 0%nat 0 ls l 0 SXchg); [done|..]|].
  - destruct Hp; auto.
  - destruct Hp, l; done.
  - apply rtc_once. rewrite <- (list_insert_insert_eq ls i SIn SXchg).
    apply Hx. by rewrite list_lookup_insert_eq.
Qed.

#[export] Instance ttas_spec n : LockSpec ttas n.
Proof.
  refine {| lock_inv := ttas_inv : @lsh ttas → list (@lloc ttas) → Prop |}.
  - done.
  - exists None. split; [done|]. by apply owned_init.
  - exact ttas_inv_step.
  - intros i c m l m' l' Hst. simpl in *. unfold ttas_step, lock_read, lock_xchg, unlock in Hst.
    destruct l; simplify_eq/=; by repeat case_match.
  - intros m ls i j [] [] (o & _ & Ho) Hi Hj; simpl; intros ??; simplify_eq.
    by eapply (owned_unique inside).
  - intros m ls i l Hinv Hi Hp.
    destruct l; try by destruct Hp.
    + exists 0, SOut. split; [|done]. eapply rtc_l; [lock_one ttas i|].
      apply rtc_once. rewrite <- (list_insert_insert_eq ls i SOut SFence). lock_one ttas i.
    + exists m, SOut. split; [|done]. apply rtc_once. lock_one ttas i.
  - intros m ls i (o & -> & Ho) Hlt Hlen Hall.
    assert (o = None) as ->.
    { eapply (owned_free inside); [done|]. intros j l Hj. destruct (Hall _ _ Hj), l; done. }
    destruct (lookup_lt_is_Some_2 ls i) as [l Hl]; [lia|].
    exists 1, (<[i:=SIn]> ls), i, SIn. split_and!; [|apply list_lookup_insert_eq; lia|done].
    apply (ttas_take ls i l Hl). eauto.
Qed.

Definition NUM_THREAD : nat := 8.
Definition NUM_WORK : nat := Z.to_nat 1000000.

Definition Work : workload := Workload NUM_WORK NoLocal NoReport.

Definition main_init : cstate := cinit (L:=ttas) NUM_THREAD.
Definition main_run : cstate → cstate → Prop := cstep (L:=ttas) Work.

(** The same for the test-and-test-and-set lock, whose waiting threads only
    read until the word looks free and may lose the race for the exchange. *)
Theorem ttas_main_correct s :
  reachable main_init main_run s →
  (c_main s = MExit → c_out s = [8000000]) ∧
  (∀ i j wi wj, c_ws s !! i = Some wi → c_ws s !! j = Some wj →
     w_loc wi = SIn → w_loc wj = SIn → i = j) ∧
  (∃ s', rtc main_run s s' ∧ c_main s' = MExit).
Proof.
  intros Hs. destruct (counting_correct_num NUM_THREAD 1000000 _ _ s ltac:(done) ltac:(done) Hs) as (Hout & Hmx & Hend).
  split_and!; [| |done].
  - intros Hm. rewrite Hout by done. reflexivity.
  - intros i j wi wj Hi Hj Hwi Hwj. apply (Hmx i j wi wj); simpl; rewrite ?Hwi, ?Hwj; done.
Qed.

(** A state with one thread inside and another one waiting for the lock. *)
Definition sample_sched : list sched := replicate 9 SMain ++ [SThread 3 0; SThread 5 0; SThread 5 0; SThread 3 0].
Definition sample_state : cstate :=
  Eval vm_compute in default main_init (run_sched (cnext (L:=ttas) Work) sample_sched main_init).

Lemma ttas_sample : reachable main_init main_run sample_state.
Proof. apply (run_sched_rtc (cnext (L:=ttas) Work) sample_sched). vm_compute. reflexivity. Qed.

Lemma ttas_main_correct_witness :
  w_loc <$> c_ws sample_state = [SOut; SOut; SOut; SRead; SOut; SIn; SOut; SOut] ∧
  ∃ s', rtc main_run sample_state s' ∧ c_main s' = MExit.
Proof.
  split; [reflexivity|]. apply (ttas_main_correct sample_state). apply ttas_sample.
Defined.

End Ttas.
