(* ===== verification/Peterson.v ===== *)
(** [Lab3]: Peterson's lock for two threads (src/Lab3/lock.cpp).

    Under sequential consistency the lock is an instance of the lock interface
    for two threads, so the two pets together eat [2 * NUM_SNACK] snacks. *)

From S2P Require Import Prelude Locks.

Local Open Scope Z_scope.

Module Peterson.

(** [g_flag[0]], [g_flag[1]], [g_victim]. *)
Record pmem := PMem { g_flag0 : bool; g_flag1 : bool; g_victim : nat }.

Definition get_flag (m : pmem) (i : nat) : option bool :=
  match i with 0%nat => Some (g_flag0 m) | 1%nat => Some (g_flag1 m) | _ => None end.

Definition set_flag (m : pmem) (i : nat) (b : bool) : option pmem :=
  match i with
  | 0%nat => Some (PMem b (g_flag1 m) (g_victim m))
  | 1%nat => Some (PMem (g_flag0 m) b (g_victim m))
  | _ => None
  end.

Definition InitLock : pmem := PMem false false 0.

(** Outside; past [g_flag[thread_id] = true], at the fence; before
    [g_victim = thread_id]; evaluating [g_flag[1-thread_id]]; evaluating
    [g_victim == thread_id]; holding. *)
Inductive ploc := POut | PFence | PVictim | PTestFlag | PTestVictim | PIn.

Definition ploc_phase (l : ploc) : phase :=
  match l with POut => Idle | PIn => Held | _ => Acquiring end.

(** One memory access of [Lock(thread_id)] or [Unlock(thread_id)]. *)
Definition peterson_step (thread_id c : nat) (m : pmem) (l : ploc) : option (pmem * ploc) :=
  match l with
  | POut => m' ← set_flag m thread_id true; Some (m', PFence)
  | PFence => Some (m, PVictim)
  | PVictim => Some (PMem (g_flag0 m) (g_flag1 m) thread_id, PTestFlag)
  | PTestFlag => b ← get_flag m (1 - thread_id); Some (m, if (b : bool) then PTestVictim else PIn)
  | PTestVictim => Some (m, if (g_victim m =? thread_id)%nat then PTestFlag else PIn)
  | PIn => m' ← set_flag m thread_id false; Some (m', POut)
  end.

#[export] Instance peterson : LockImpl := {|
  lsh := pmem;
  lloc := ploc;
  lsh_init := InitLock;
  lloc_init := POut;
  lphase := ploc_phase;
  lock_step := peterson_step;
|}.

(** A thread that has announced itself, and one that has also become victim. *)
Definition interested (l : ploc) : bool := match l with POut => false | _ => true end.
Definition waiting (l : ploc) : bool :=
  match l with PTestFlag | PTestVictim => true | _ => false end.
Definition inside (l : ploc) : bool := match l with PIn => true | _ => false end.

(** The flags record the interest, and a thread inside excludes the other one,
    which is either not past its [g_victim] store or is the victim. *)
Definition pinv2 (m : pmem) (l0 l1 : ploc) : bool :=
  bool_decide (g_flag0 m = interested l0) && bool_decide (g_flag1 m = interested l1) &&
  ((g_victim m =? 0)%nat || (g_victim m =? 1)%nat) &&
  negb (inside l0 && inside l1) &&
  implb (inside l0 && waiting l1) (g_victim m =? 1)%nat &&
  implb (inside l1 && waiting l0) (g_victim m =? 0)%nat.

Definition pinv (m : pmem) (ls : list ploc) : Prop :=
  ∃ l0 l1, ls = [l0; l1] ∧ pinv2 m l0 l1 = true.

(** The invariant bounds the victim, so a finite case analysis decides each step. *)
Lemma pinv2_victim m l0 l1 : pinv2 m l0 l1 = true → g_victim m = 0%nat ∨ g_victim m = 1%nat.
Proof.
  unfold pinv2. rewrite !andb_true_iff, orb_true_iff, !Nat.eqb_eq. tauto.
Qed.

Lemma pinv_step m ls i c l m' l' :
  pinv m ls → ls !! i = Some l → peterson_step i c m l = Some (m', l') → pinv m' (<[i:=l']> ls).
Proof.
  intros (l0 & l1 & -> & Hp) Hi Hst. pose proof (pinv2_victim _ _ _ Hp) as Hv.
  destruct m as [f0 f1 v]; simpl in Hv.
  destruct i as [|[|i]]; simpl in Hi; [injection Hi as <-|injection Hi as <-|done];
    eexists _, _; (split; [done|]).
  all: destruct Hv as [-> | ->], f0, f1, l0, l1; try done; simpl in Hst; simplify_eq; done.
Qed.

(** ** Progress *)

(** Thread [i] may start, and a thread that competes may continue. *)
Definition may_run (i j : nat) (l : ploc) : bool :=
  match ploc_phase l with Idle => (j =? i)%nat | Acquiring => true | _ => false end.

(** Run the threads of a schedule until one of them is inside. *)
Fixpoint run_until_inside (i : nat) (sched : list nat) (m : pmem) (ls : list ploc) :
    option (pmem * list ploc) :=
  if existsb inside ls then Some (m, ls)
  else match sched with
  | [] => None
  | j :: sched =>
      l ← ls !! j;
      if may_run i j l then
        '(m', l') ← peterson_step j 0 m l; run_until_inside i sched m' (<[j:=l']> ls)
      else None
  end.

(** Bring the competitor and then [i] past their [g_victim] stores, then alternate:
    the thread that is not the victim gets in. *)
Definition entry_schedule (i : nat) (other : ploc) : list nat :=
  match ploc_phase other with
  | Acquiring => [1 - i; 1 - i; i; i; i; 1 - i; i; 1 - i; i; 1 - i; i; 1 - i; i]%nat
  | _ => replicate 6 i
  end.

Lemma run_until_inside_sound i sched m ls m' ls' :
  run_until_inside i sched m ls = Some (m', ls') →
  rtc (lrun1 (H:=peterson) (λ j l, (j = i ∧ ploc_phase l = Idle) ∨ ploc_phase l = Acquiring))
    (m, ls) (m', ls') ∧ existsb inside ls' = true.
Proof.
  revert m ls. induction sched as [|j sched IH]; intros m ls Hr; simpl in Hr.
  - destruct (existsb inside ls) eqn:He; by simplify_eq.
  - destruct (existsb inside ls) eqn:He; [by simplify_eq|].
    destruct (ls !! j) as [l|] eqn:Hj; simplify_eq/=.
    destruct (may_run i j l) eqn:Hm; [|done].
    destruct (peterson_step j 0 m l) as [[m1 l1]|] eqn:Hst; simplify_eq/=.
    apply IH in Hr as [Hr He']. split; [|done]. eapply rtc_l; [|done].
    apply (lrun1_once (H:=peterson) _ j 0%nat m ls l m1 l1); [done| |done].
    unfold may_run in Hm. destruct (ploc_phase l); try done; [left|by right].
    by apply Nat.eqb_eq in Hm.
Qed.

Lemma entry_schedule_works m l0 l1 i :
  pinv2 m l0 l1 = true → (i < 2)%nat →
  ploc_phase l0 ≠ Held → ploc_phase l1 ≠ Held →
  is_Some (run_until_inside i (entry_schedule i (if (i =? 0)%nat then l1 else l0)) m [l0; l1]).
Proof.
  intros Hp Hi H0 H1. pose proof (pinv2_victim _ _ _ Hp) as Hv.
  destruct m as [f0 f1 v]; simpl in Hv.
  destruct i as [|[|i]]; [..|lia];
    destruct Hv as [-> | ->], f0, f1, l0, l1; try done; by eexists.
Qed.

#[export] Instance peterson_spec : LockSpec peterson 2.
Proof.
  refine {| lock_inv := pinv : @lsh peterson → list (@lloc peterson) → Prop |}.
  - done.
  - by exists POut, POut.
  - exact pinv_step.
  - intros i c m l m' l' Hst. simpl in *. unfold peterson_step in Hst.
    destruct l; simplify_option_eq; by repeat case_match.
  - intros m ls i j li lj (l0 & l1 & -> & Hp) Hi Hj Hli Hlj. simpl in *.
    destruct i as [|[|i]], j as [|[|j]]; simplify_eq/=; try done; exfalso;
      destruct li, lj; try done; unfold pinv2 in Hp; simpl in Hp;
      rewrite !andb_false_r in Hp; done.
  - intros m ls i l (l0 & l1 & -> & Hp) Hi [Hl|Hl]; destruct l; try done.
    assert (is_Some (set_flag m i false)) as [m' Hm'].
    { destruct i as [|[|i]]; try done; by eexists. }
    exists m', POut. split; [|done]. apply rtc_once.
    apply (lrun1_once (H:=peterson) _ i 0%nat m [l0; l1] PIn); simpl; auto. by rewrite Hm'.
  - intros m ls i (l0 & l1 & -> & Hp) Hlt _ Hall.
    destruct (entry_schedule_works m l0 l1 i Hp Hlt) as [[m' ls'] Hr].
    { destruct (Hall 0%nat l0 eq_refl) as [Hq|Hq]; simpl in Hq; rewrite Hq; done. }
    { destruct (Hall 1%nat l1 eq_refl) as [Hq|Hq]; simpl in Hq; rewrite Hq; done. }
    apply run_until_inside_sound in Hr as [Hr He].
    apply existsb_exists in He as (l & [j Hj]%list_elem_of_In%list_elem_of_lookup & Hl).
    exists m', ls', j, l. split_and!; [done..|]. by destruct l.
Qed.

(** ** The program *)

Definition NUM_SNACK : nat := Z.to_nat 1000000.

(** Each thread feeds its pet [NUM_SNACK] times, counting in [pet_size] inside
    the critical section, and prints the size at the end. *)
Definition FeedMyPet : workload := Workload NUM_SNACK LocalInCS ReportAtExit.

Definition main_init : cstate := cinit (L:=peterson) 2.
Definition main_run : cstate → cstate → Prop := cstep (L:=peterson) FeedMyPet.

(** C32: under sequential consistency Alice and Bob each report a pet of size
    1000000 and the sum 2000000 is printed whenever the program ends, they are
    never in the critical section together, and no reachable state is a deadlock. *)
Theorem peterson_main_correct s :
  reachable main_init main_run s →
  (c_main s = MExit → c_out s = [1000000; 1000000; 2000000]) ∧
  (∀ i j wi wj, c_ws s !! i = Some wi → c_ws s !! j = Some wj →
     w_loc wi = PIn → w_loc wj = PIn → i = j) ∧
  (∃ s', rtc main_run s s' ∧ c_main s' = MExit).
Proof.
  intros Hs. destruct (counting_correct_num 2 1000000 _ _ s ltac:(done) ltac:(done) Hs) as (Hout & Hmx & Hend).
  split_and!; [| |done].
  - intros Hm. rewrite Hout by done. reflexivity.
  - intros i j wi wj Hi Hj Hwi Hwj. apply (Hmx i j wi wj); simpl; rewrite ?Hwi, ?Hwj; done.
Qed.

(** A state with one thread inside and another one waiting for the lock. *)
Definition sample_sched : list sched := replicate 3 SMain ++ [SThread 0 0; SThread 0 0; SThread 1 0; SThread 1 0; SThread 1 0; SThread 0 0; SThread 1 0; SThread 1 0; SThread 0 0].
Definition sample_state : cstate :=
  Eval vm_compute in default main_init (run_sched (cnext (L:=peterson) FeedMyPet) sample_sched main_init).

Lemma peterson_sample : reachable main_init main_run sample_state.
Proof. apply (run_sched_rtc (cnext (L:=peterson) FeedMyPet) sample_sched). vm_compute. reflexivity. Qed.

Lemma peterson_main_correct_witness :
  w_loc <$> c_ws sample_state = [PTestVictim; PIn] ∧
  ∃ s', rtc main_run sample_state s' ∧ c_main s' = MExit.
Proof.
  split; [reflexivity|]. apply (peterson_main_correct sample_state). apply peterson_sample.
Defined.

End Peterson.
