(* ===== verification/PetersonTso.v ===== *)
(** Peterson's lock of src/Lab3/lock.cpp on a machine with store buffers (x86-TSO).

    A store goes into the buffer of its thread and reaches memory later, in order; a load takes
    the newest store of its own buffer or else the memory; [__sync_synchronize] waits until the
    buffer is empty.  [Lock] has a fence after the store to [g_flag], and the one after the store
    to [g_victim] is commented out (line 20): with it the lock excludes, without it both threads
    can be inside.  The states are finitely many and are enumerated. *)

From S2P Require Import Prelude.

Module PetersonTso.

Inductive loc := Flag (i : bool) | Victim.

#[export] Instance loc_eq_dec : EqDecision loc.
Proof. solve_decision. Defined.

(** The two threads are [false] and [true]; so are the values of [g_victim]. *)
Record memory := Memory { flag0 : bool; flag1 : bool; victim : bool }.

#[export] Instance memory_eq_dec : EqDecision memory.
Proof. solve_decision. Defined.

Definition read_mem (m : memory) (l : loc) : bool :=
  match l with Flag false => flag0 m | Flag true => flag1 m | Victim => victim m end.

Definition write_mem (m : memory) (l : loc) (v : bool) : memory :=
  match l with
  | Flag false => Memory v (flag1 m) (victim m)
  | Flag true => Memory (flag0 m) v (victim m)
  | Victim => Memory (flag0 m) (flag1 m) v
  end.

(** Where a thread of [FeedMyPet] is in [Lock] and [Unlock]. *)
Inductive pc := SetFlag | Fence | SetVictim | Fence2 | ReadFlag | ReadVictim | Critical | ClearFlag.

#[export] Instance pc_eq_dec : EqDecision pc.
Proof. solve_decision. Defined.

(** A thread with its store buffer, the oldest store first. *)
Record thread := Thread { t_pc : pc; t_buf : list (loc * bool) }.

#[export] Instance thread_eq_dec : EqDecision thread.
Proof. solve_decision. Defined.

Record state := State { mem : memory; th0 : thread; th1 : thread }.

#[export] Instance state_eq_dec : EqDecision state.
Proof. solve_decision. Defined.

Definition load (m : memory) (t : thread) (l : loc) : bool :=
  match last (filter (λ e, e.1 = l) (t_buf t)) with Some (_, v) => v | None => read_mem m l end.

Definition store (t : thread) (l : loc) (v : bool) (p : pc) : thread := Thread p (t_buf t ++ [(l, v)]).

Section lock.
(** Whether the fence of line 20 is there; in the source it is not. *)
Context (fenced : bool).

(** One step of thread [i] of [Lock], the critical section and [Unlock]. *)
Definition Lock (i : bool) (m : memory) (t : thread) : option thread :=
  match t_pc t with
  | SetFlag => Some (store t (Flag i) true Fence)
  | Fence => if decide (t_buf t = []) then Some (Thread SetVictim []) else None
  | SetVictim => Some (store t Victim i (if fenced then Fence2 else ReadFlag))
  | Fence2 => if decide (t_buf t = []) then Some (Thread ReadFlag []) else None
  | ReadFlag => Some (Thread (if load m t (Flag (negb i)) then ReadVictim else Critical) (t_buf t))
  | ReadVictim => Some (Thread (if eqb (load m t Victim) i then ReadFlag else Critical) (t_buf t))
  | Critical => Some (Thread ClearFlag (t_buf t))
  | ClearFlag => Some (store t (Flag i) false SetFlag)
  end.

Definition get (s : state) (i : bool) : thread := if i then th1 s else th0 s.
Definition put (s : state) (i : bool) (t : thread) : state := if i then State (mem s) (th0 s) t else State (mem s) t (th1 s).

(** The oldest store of a buffer reaches memory. *)
Definition drain (s : state) (i : bool) : option state :=
  match t_buf (get s i) with
  | [] => None
  | (l, v) :: buf => Some (put (State (write_mem (mem s) l v) (th0 s) (th1 s)) i (Thread (t_pc (get s i)) buf))
  end.

Inductive choice := Step (i : bool) | Drain (i : bool).

Definition next (c : choice) (s : state) : option state :=
  match c with
  | Step i => t ← Lock i (mem s) (get s i); Some (put s i t)
  | Drain i => drain s i
  end.

Definition run (s s' : state) : Prop := ∃ c, next c s = Some s'.

End lock.

(** [InitLock] *)
Definition init : state := State (Memory false false false) (Thread SetFlag []) (Thread SetFlag []).

(** * Enumerating the states *)

Definition choices : list choice := [Step false; Step true; Drain false; Drain true].

Definition successors (fenced : bool) (s : state) : list state := omap (λ c, next fenced c s) choices.

(** [fuel] bounds the number of rounds; a round adds the successors of the new states. *)
Fixpoint explore (fuel : nat) (fenced : bool) (seen new : list state) : list state :=
  match fuel with
  | O => seen
  | S fuel =>
      let add := foldl (λ acc s, if decide (s ∈ acc) then acc else if decide (s ∈ seen) then acc else s :: acc) [] (new ≫= successors fenced) in
      match add with [] => seen | _ => explore fuel fenced (add ++ seen) add end
  end.

Definition closed (fenced : bool) (l : list state) : bool := forallb (λ s, forallb (λ s', bool_decide (s' ∈ l)) (successors fenced s)) l.

Lemma closed_reachable fenced l s : init ∈ l → closed fenced l = true → reachable init (run fenced) s → s ∈ l.
Proof.
  intros Hi Hc. apply (reachable_invariant init (run fenced) (λ s, s ∈ l)); [done|]. intros s1 s2 H1 [c H].
  unfold closed in Hc. rewrite forallb_forall in Hc. specialize (Hc s1 (proj1 (list_elem_of_In _ _) H1)). rewrite forallb_forall in Hc.
  specialize (Hc s2). rewrite bool_decide_eq_true in Hc. apply Hc, list_elem_of_In, list_elem_of_omap. exists c. split; [|done].
  unfold choices. destruct c as [[]|[]]; set_solver.
Qed.

(** The first thread enters while its store to [g_victim] is still in its buffer; it reaches
    memory after the one of the second thread. *)
Definition race_sched : list choice :=
  [Step false; Drain false; Step false; Step false; Step false;
   Step true; Drain true; Step true; Step true; Drain true; Drain false; Step true; Step true].

Definition fenced_states : list state := Eval vm_compute in explore 60 true [init] [init].

(** C33: on a machine with store buffers the lock does not exclude as it is written: both threads
    can be in the critical section.  With the fence that is commented out after the store to
    [g_victim] they never are. *)
Theorem peterson_tso_needs_fence :
  (∃ s, reachable init (run false) s ∧ t_pc (th0 s) = Critical ∧ t_pc (th1 s) = Critical) ∧
  (∀ s, reachable init (run true) s → t_pc (th0 s) = Critical → t_pc (th1 s) = Critical → False).
Proof.
  split.
  - destruct (run_sched (next false) race_sched init) as [s|] eqn:E; [|by vm_compute in E].
    exists s. split; [by apply (run_sched_rtc (next false) race_sched)|]. vm_compute in E. by injection E as <-.
  - intros s Hs H0 H1. assert (s ∈ fenced_states) as Hin.
    { apply (closed_reachable true fenced_states s); [apply (bool_decide_unpack _); vm_compute; exact I|vm_compute; reflexivity|done]. }
    assert (forallb (λ s, negb (bool_decide (t_pc (th0 s) = Critical) && bool_decide (t_pc (th1 s) = Critical))) fenced_states = true) as Hall
      by (vm_compute; reflexivity).
    rewrite forallb_forall in Hall. specialize (Hall s (proj1 (list_elem_of_In _ _) Hin)).
    by rewrite !bool_decide_eq_true_2 in Hall by done.
Qed.

End PetersonTso.
