(* ===== verification/Clh.v ===== *)
(** [Lab6]: the CLH queue lock (src/Lab6/clh.cpp).

    Each [lock] allocates a node, swaps it into the global [tail], waits until the
    node it found there is released and frees that node.  The model keeps the heap
    of nodes, so the theorems cover memory safety (no access to a freed node, no
    double free, although addresses may be reused) besides mutual exclusion. *)

From S2P Require Import Prelude Locks.

Local Open Scope Z_scope.

Module Clh.

(** The heap of [int] nodes and the global [tail] ([None] is [NULL]). *)
Record cmem := CMem { heap : gmap nat Z; tail : option nat }.

(** Program counter with the locals [x] and [old_one]: outside; [*x = 0] next;
    the exchange next; spinning on [*old_one]; [free(old_one)] next; holding;
    at the fence of [unlock]. *)
Inductive cloc :=
  | COut
  | CInit (x : nat)
  | CXchg (x : nat)
  | CSpin (x old_one : nat)
  | CFree (x old_one : nat)
  | CIn (x : nat)
  | CFence.

Definition cloc_phase (l : cloc) : phase :=
  match l with
  | COut => Idle
  | CInit _ | CXchg _ | CSpin _ _ | CFree _ _ => Acquiring
  | CIn _ => Held
  | CFence => Releasing
  end.

(** Accesses to addresses that are not allocated are undefined: no step. *)
Definition load (m : cmem) (a : nat) : option Z := heap m !! a.
Definition store (m : cmem) (a : nat) (v : Z) : option cmem :=
  match heap m !! a with Some _ => Some (CMem (<[a:=v]> (heap m)) (tail m)) | None => None end.
Definition free (m : cmem) (a : nat) : option cmem :=
  match heap m !! a with Some _ => Some (CMem (delete a (heap m)) (tail m)) | None => None end.

(** [malloc] returns any address that is not allocated; its content is arbitrary
    (here the address itself). *)
Definition malloc (m : cmem) (c : nat) : option cmem :=
  match heap m !! c with
  | Some _ => None
  | None => Some (CMem (<[c:=Z.of_nat c]> (heap m)) (tail m))
  end.

(** One step of [CLHMutex::lock] or [CLHMutex::unlock].  The spin counter [cnt]
    only decides when to call [sched_yield], which is left to the scheduler. *)
Definition clh_step (i c : nat) (m : cmem) (l : cloc) : option (cmem * cloc) :=
  match l with
  | COut => m' ← malloc m c; Some (m', CInit c)
  | CInit x => m' ← store m x 0; Some (m', CXchg x)
  | CXchg x =>
      Some (CMem (heap m) (Some x), match tail m with None => CIn x | Some o => CSpin x o end)
  | CSpin x o => v ← load m o; Some (m, if v =? 0 then CSpin x o else CFree x o)
  | CFree x o => m' ← free m o; Some (m', CIn x)
  | CIn x => m' ← store m x 1; Some (m', CFence)
  | CFence => Some (m, COut)
  end.

#[export] Instance clh : LockImpl := {|
  lsh := cmem;
  lloc := cloc;
  lsh_init := CMem ∅ None;
  lloc_init := COut;
  lphase := cloc_phase;
  lock_step := clh_step;
|}.

(** ** Invariant *)

(** The node a thread owns. *)
Definition node (l : cloc) : option nat :=
  match l with
  | CInit x | CXchg x | CSpin x _ | CFree x _ | CIn x => Some x
  | COut | CFence => None
  end.

(** The node a queued thread waits for. *)
Definition pred (l : cloc) : option nat :=
  match l with CSpin _ o | CFree _ o => Some o | _ => None end.

(** The queue of waiting threads: each waits for the node of the one before it,
    and the last node is the tail. *)
Fixpoint chain (ls : list cloc) (p : nat) (q : list nat) (t : nat) : Prop :=
  match q with
  | [] => t = p
  | i :: q => ∃ l x, ls !! i = Some l ∧ node l = Some x ∧ pred l = Some p ∧ chain ls x q t
  end.

Record clh_inv (m : cmem) (ls : list cloc) : Prop := {
  (** Nodes are allocated and owned by one thread; an initialized one that is not
      released holds 0. *)
  cl_alloc : ∀ i l x, ls !! i = Some l → node l = Some x → is_Some (heap m !! x);
  cl_zero : ∀ i l x, ls !! i = Some l → node l = Some x → (∀ y, l ≠ CInit y) → heap m !! x = Some 0;
  cl_inj : ∀ i j li lj x, ls !! i = Some li → ls !! j = Some lj →
    node li = Some x → node lj = Some x → i = j;
  cl_queue :
    match tail m with
    | None => ∀ i l, ls !! i = Some l → pred l = None ∧ cloc_phase l ≠ Held
    | Some t => ∃ p q, chain ls p q t ∧ NoDup q ∧
        (** every waiting thread is queued *)
        (∀ i l, ls !! i = Some l → is_Some (pred l) → i ∈ q) ∧
        (** a thread that is about to free is the first and its predecessor has released *)
        (∀ i x o, ls !! i = Some (CFree x o) → heap m !! p = Some 1 ∧ o = p) ∧
        ((∃ i, ls !! i = Some (CIn p) ∧ ∀ j y, ls !! j = Some (CIn y) → j = i) ∨
         (heap m !! p = Some 1 ∧ (∀ i l, ls !! i = Some l → node l ≠ Some p) ∧
          ∀ j y, ls !! j ≠ Some (CIn y)))
    end;
}.

(** *** The chain of waiting threads *)

Lemma chain_insert_ne ls i l' p q t :
  i ∉ q → chain ls p q t → chain (<[i:=l']> ls) p q t.
Proof.
  revert p. induction q as [|j q IH]; intros p Hq; simpl; [done|].
  intros (l & x & Hj & Hx & Hp & Hc). exists l, x.
  rewrite list_lookup_insert_ne by set_solver. split_and!; try done. apply IH; set_solver.
Qed.

Lemma chain_insert_same ls i l l' p q t :
  ls !! i = Some l → node l' = node l → pred l' = pred l →
  chain ls p q t → chain (<[i:=l']> ls) p q t.
Proof.
  intros Hi Hn Hpr. pose proof (lookup_lt_Some _ _ _ Hi) as Hlt.
  revert p. induction q as [|j q IH]; intros p; simpl; [done|].
  intros (lj & x & Hj & Hx & Hp & Hc). destruct (decide (i = j)) as [->|Hne].
  - simplify_eq. exists l', x. rewrite list_lookup_insert_eq by done. split_and!; try congruence. by apply IH.
  - exists lj, x. rewrite list_lookup_insert_ne by done. split_and!; try done. by apply IH.
Qed.

Lemma chain_snoc ls p q t i l x :
  ls !! i = Some l → node l = Some x → pred l = Some t →
  chain ls p q t → chain ls p (q ++ [i]) x.
Proof.
  intros Hi Hx Hp. revert p. induction q as [|j q IH]; intros p; simpl.
  - intros ->. exists l, x. done.
  - intros (lj & y & Hj & Hy & Hpj & Hc). exists lj, y. split_and!; try done. by apply IH.
Qed.

Lemma chain_mem ls p q t i :
  chain ls p q t → i ∈ q → ∃ l, ls !! i = Some l ∧ is_Some (node l) ∧ is_Some (pred l).
Proof.
  revert p. induction q as [|j q IH]; intros p; simpl; [intros _ []%not_elem_of_nil|].
  intros (l & x & Hj & Hx & Hp & Hc) [->|Hi]%elem_of_cons; [|by eapply IH].
  exists l. rewrite Hx, Hp. eauto.
Qed.

Lemma chain_not_mem ls p q t i l :
  chain ls p q t → ls !! i = Some l → pred l = None → i ∉ q.
Proof.
  intros Hc Hi Hp Hq. destruct (chain_mem _ _ _ _ _ Hc Hq) as (l' & Hi' & _ & [o Ho]). congruence.
Qed.

(** A waiting thread waits for [p] and is then the first, or waits for the node of
    another waiting thread. *)
Lemma chain_pred ls p q t i l o :
  chain ls p q t → i ∈ q → ls !! i = Some l → pred l = Some o →
  (o = p ∧ ∃ q', q = i :: q') ∨
  ∃ j lj, j ∈ q ∧ ls !! j = Some lj ∧ node lj = Some o ∧ is_Some (pred lj).
Proof.
  revert p. induction q as [|j q IH]; intros p; simpl; [intros _ []%not_elem_of_nil|].
  intros (lj & x & Hj & Hx & Hp & Hc) Hq Hi Ho. destruct (decide (i = j)) as [->|Hne].
  - simplify_eq. left. eauto.
  - apply elem_of_cons in Hq as [?|Hq]; [done|].
    destruct (IH x Hc Hq Hi Ho) as [[-> _]|(k & lk & ? & ? & ? & ?)]; right.
    + exists j, lj. rewrite Hp. split_and!; eauto. by left.
    + exists k, lk. split_and!; eauto. by right.
Qed.

(** *** Preservation *)

Lemma clh_inv_init n : clh_inv (CMem ∅ None) (replicate n COut).
Proof.
  constructor; simpl.
  - intros i l x [-> _]%lookup_replicate. done.
  - intros i l x [-> _]%lookup_replicate. done.
  - intros i j li lj x [-> _]%lookup_replicate. done.
  - intros i l [-> _]%lookup_replicate. done.
Qed.

Section preserve.
Variables (m : cmem) (ls : list cloc) (i : nat).
Hypothesis Hinv : clh_inv m ls.

(** The predecessor of the first waiting thread is allocated. *)
Lemma head_alloc p t q :
  tail m = Some t → chain ls p q t →
  ((∃ i, ls !! i = Some (CIn p) ∧ ∀ j y, ls !! j = Some (CIn y) → j = i) ∨
         (heap m !! p = Some 1 ∧ (∀ i l, ls !! i = Some l → node l ≠ Some p) ∧
          ∀ j y, ls !! j ≠ Some (CIn y))) → is_Some (heap m !! p).
Proof.
  intros Ht Hc [(j & Hj & _)|(-> & _)]; [|by eauto].
  by eapply (cl_alloc _ _ Hinv j).
Qed.

Lemma clh_malloc c :
  ls !! i = Some COut → heap m !! c = None →
  clh_inv (CMem (<[c:=Z.of_nat c]> (heap m)) (tail m)) (<[i:=CInit c]> ls).
Proof.
  intros Hi Hc.
  assert (∀ j l x, ls !! j = Some l → node l = Some x → x ≠ c) as Hfresh.
  { intros j l x Hj Hx ->. destruct (cl_alloc _ _ Hinv _ _ _ Hj Hx). congruence. }
  constructor; simpl.
  - intros j l x [[-> ->]|[Hne Hj]]%lookup_insert_inv Hx; simplify_eq/=.
    + rewrite lookup_insert_eq. eauto.
    + rewrite lookup_insert_ne by (symmetry; eauto). by eapply cl_alloc.
  - intros j l x [[-> ->]|[Hne Hj]]%lookup_insert_inv Hx Hn; [by destruct (Hn c)|].
    rewrite lookup_insert_ne by (symmetry; eauto). by eapply cl_zero.
  - intros j k lj lk x [[-> ->]|[Hne Hj]]%lookup_insert_inv [[-> ->]|[Hne' Hk]]%lookup_insert_inv Hx Hy;
      simplify_eq/=; try done; [by edestruct Hfresh|by edestruct Hfresh|by eapply cl_inj].
  - pose proof (cl_queue _ _ Hinv) as Hq. destruct (tail m) as [t|] eqn:Ht.
    + destruct Hq as (p & q & Hch & Hnd & Hall & Hfree & Hhd). exists p, q.
      assert (i ∉ q) as Hiq by (by eapply chain_not_mem).
      assert (p ≠ c) as Hpc by (destruct (head_alloc p t q Ht Hch Hhd); congruence).
      split_and!; [by apply chain_insert_ne|done|..].
      * intros j l [[-> ->]|[Hne Hj]]%lookup_insert_inv Hp; [by destruct Hp|eauto].
      * intros j x o [[? ?]|[Hne Hj]]%lookup_insert_inv; [done|].
        rewrite lookup_insert_ne by done. eauto.
      * destruct Hhd as [(h & Hh & Hu)|(Hp1 & Hnode & Hno)].
        -- left. exists h. rewrite list_lookup_insert_ne by congruence. split; [done|].
           intros j y [[? ?]|[Hne Hj]]%lookup_insert_inv; [done|eauto].
        -- right. rewrite lookup_insert_ne by done. split_and!; [done|..].
           ++ intros j l [[-> ->]|[Hne Hj]]%lookup_insert_inv; [simpl; congruence|eauto].
           ++ intros j y [[? ?]|[Hne Hj]]%lookup_insert_inv; [done|by eapply Hno].
    + intros j l [[-> ->]|[Hne Hj]]%lookup_insert_inv; [done|eauto].
Qed.

Lemma clh_init x :
  ls !! i = Some (CInit x) →
  clh_inv (CMem (<[x:=0]> (heap m)) (tail m)) (<[i:=CXchg x]> ls).
Proof.
  intros Hi.
  assert (∀ j l y, i ≠ j → ls !! j = Some l → node l = Some y → y ≠ x) as Hother.
  { intros j l y Hne Hj Hy ->. apply Hne. by eapply (cl_inj _ _ Hinv i j). }
  constructor; simpl.
  - intros j l y [[-> ->]|[Hne Hj]]%lookup_insert_inv Hy; simplify_eq/=.
    + rewrite lookup_insert_eq. eauto.
    + rewrite lookup_insert_ne by (symmetry; eauto). by eapply cl_alloc.
  - intros j l y [[-> ->]|[Hne Hj]]%lookup_insert_inv Hy Hn; simplify_eq/=.
    + by rewrite lookup_insert_eq.
    + rewrite lookup_insert_ne by (symmetry; eauto). by eapply cl_zero.
  - intros j k lj lk y [[-> ->]|[Hne Hj]]%lookup_insert_inv [[-> ->]|[Hne' Hk]]%lookup_insert_inv Hx Hy;
      simplify_eq/=; try done; [by edestruct Hother|by edestruct Hother|by eapply cl_inj].
  - pose proof (cl_queue _ _ Hinv) as Hq. destruct (tail m) as [t|] eqn:Ht.
    + destruct Hq as (p & q & Hch & Hnd & Hall & Hfree & Hhd). exists p, q.
      assert (i ∉ q) as Hiq by (by eapply chain_not_mem).
      split_and!; [by apply chain_insert_ne|done|..].
      * intros j l [[-> ->]|[Hne Hj]]%lookup_insert_inv Hp; [by destruct Hp|eauto].
      * intros j y o [[? ?]|[Hne Hj]]%lookup_insert_inv; [done|].
        destruct (Hfree _ _ _ Hj) as [Hp1 ->]. split; [|done].
        destruct Hhd as [(h & Hh & _)|(_ & Hnode & _)].
        -- by rewrite (cl_zero _ _ Hinv _ _ p Hh eq_refl) in Hp1.
        -- rewrite lookup_insert_ne; [done|]. intros ->. by eapply (Hnode i).
      * destruct Hhd as [(h & Hh & Hu)|(Hp1 & Hnode & Hno)].
        -- left. exists h. rewrite list_lookup_insert_ne by congruence. split; [done|].
           intros j y [[? ?]|[Hne Hj]]%lookup_insert_inv; [done|eauto].
        -- right. rewrite lookup_insert_ne by (intros ->; by eapply (Hnode i)).
           split_and!; [done|..].
           ++ intros j l [[<- ->]|[Hne Hj]]%lookup_insert_inv; [by apply (Hnode i (CInit x))|eauto].
           ++ intros j y [[? ?]|[Hne Hj]]%lookup_insert_inv; [done|by eapply Hno].
    + intros j l [[-> ->]|[Hne Hj]]%lookup_insert_inv; [done|eauto].
Qed.

(** Steps that change neither the heap nor the thread's node keep the facts about
    nodes; only the queue has to be re-established. *)
Lemma nodes_same l l' :
  ls !! i = Some l → node l' = node l → (∀ y, l ≠ CInit y) →
  (∀ j lj x, <[i:=l']> ls !! j = Some lj → node lj = Some x → is_Some (heap m !! x)) ∧
  (∀ j lj x, <[i:=l']> ls !! j = Some lj → node lj = Some x → (∀ y, lj ≠ CInit y) → heap m !! x = Some 0) ∧
  (∀ j k lj lk x, <[i:=l']> ls !! j = Some lj → <[i:=l']> ls !! k = Some lk →
     node lj = Some x → node lk = Some x → j = k).
Proof.
  intros Hi Hn Hl.
  assert (∀ j lj, <[i:=l']> ls !! j = Some lj →
    ∃ lj', ls !! j = Some lj' ∧ node lj' = node lj ∧ ((∀ y, lj ≠ CInit y) → ∀ y, lj' ≠ CInit y)) as Hback.
  { intros j lj [[<- ->]|[Hne Hj]]%lookup_insert_inv; eauto. }
  split_and!.
  - intros j lj x (lj' & Hj & Hn' & _)%Hback Hx. eapply cl_alloc; [done..|congruence].
  - intros j lj x (lj' & Hj & Hn' & Hl')%Hback Hx Hy. eapply cl_zero; [done..|congruence|auto].
  - intros j k lj lk x (lj' & Hj & Hnj & _)%Hback (lk' & Hk & Hnk & _)%Hback Hx Hy.
    eapply (cl_inj _ _ Hinv j k lj' lk' x); congruence.
Qed.

Lemma clh_xchg x :
  ls !! i = Some (CXchg x) →
  clh_inv (CMem (heap m) (Some x))
    (<[i:=match tail m with None => CIn x | Some o => CSpin x o end]> ls).
Proof.
  intros Hi. pose proof (lookup_lt_Some _ _ _ Hi) as Hlt.
  destruct (nodes_same (CXchg x) (match tail m with None => CIn x | Some o => CSpin x o end))
    as (H1 & H2 & H3); [done|by destruct (tail m)|done|].
  constructor; simpl; [exact H1|exact H2|exact H3|].
  pose proof (cl_queue _ _ Hinv) as Hq. destruct (tail m) as [t|] eqn:Ht.
  - destruct Hq as (p & q & Hch & Hnd & Hall & Hfree & Hhd). exists p, (q ++ [i]).
    assert (i ∉ q) as Hiq by (by eapply chain_not_mem).
    split_and!.
    + apply (chain_snoc _ p q t i (CSpin x t) x); [by apply list_lookup_insert_eq|done..|].
      by apply chain_insert_ne.
    + apply NoDup_app. split_and!; [done|set_solver|apply NoDup_singleton].
    + intros j l [[<- ->]|[Hne Hj]]%lookup_insert_inv Hp; [set_solver|].
      apply elem_of_app. left. eauto.
    + intros j y o [[? ?]|[Hne Hj]]%lookup_insert_inv; [done|eauto].
    + destruct Hhd as [(h & Hh & Hu)|(Hp1 & Hnode & Hno)].
      * left. exists h. rewrite list_lookup_insert_ne by congruence. split; [done|].
        intros j y [[? ?]|[Hne Hj]]%lookup_insert_inv; [done|eauto].
      * right. split_and!; [done|..].
        -- intros j l [[<- ->]|[Hne Hj]]%lookup_insert_inv; [by apply (Hnode i (CXchg x))|eauto].
        -- intros j y [[? ?]|[Hne Hj]]%lookup_insert_inv; [done|by eapply Hno].
  - exists x, []. split_and!; [done|constructor|..].
    + intros j l [[<- ->]|[Hne Hj]]%lookup_insert_inv Hp; [by destruct Hp|].
      destruct (Hq _ _ Hj) as [Hq' _]. rewrite Hq' in Hp. by destruct Hp.
    + intros j y o [[? ?]|[Hne Hj]]%lookup_insert_inv; [done|]. by destruct (Hq _ _ Hj).
    + left. exists i. rewrite list_lookup_insert_eq by done. split; [done|].
      intros j y [[<- _]|[Hne Hj]]%lookup_insert_inv; [done|]. by destruct (Hq _ _ Hj).
Qed.

(** A read of 1 comes from the released predecessor of the first waiting thread. *)
Lemma clh_spin_done x o v :
  ls !! i = Some (CSpin x o) → heap m !! o = Some v → v ≠ 0 →
  clh_inv m (<[i:=CFree x o]> ls).
Proof.
  intros Hi Ho Hv.
  destruct (nodes_same (CSpin x o) (CFree x o)) as (H1 & H2 & H3); [done..|].
  constructor; [exact H1|exact H2|exact H3|].
  pose proof (cl_queue _ _ Hinv) as Hq. destruct (tail m) as [t|] eqn:Ht.
  - destruct Hq as (p & q & Hch & Hnd & Hall & Hfree & Hhd).
    assert (i ∈ q) as Hiq by (eapply Hall; eauto).
    assert (o = p ∧ heap m !! p = Some 1) as [-> Hp1].
    { destruct (chain_pred _ _ _ _ _ _ o Hch Hiq Hi eq_refl) as [[-> _]|(j & lj & _ & Hj & Hjo & Hjp)].
      - split; [done|]. destruct Hhd as [(h & Hh & _)|(Hp1 & _)]; [|done].
        rewrite (cl_zero _ _ Hinv _ _ p Hh eq_refl) in Ho; [|done]. congruence.
      - rewrite (cl_zero _ _ Hinv _ _ o Hj Hjo) in Ho; [congruence|].
        intros y ->. by destruct Hjp. }
    exists p, q. split_and!; [by eapply chain_insert_same|done|..].
    + intros j l [[<- ->]|[Hne Hj]]%lookup_insert_inv Hp; eauto.
    + intros j y o' [[<- ?]|[Hne Hj]]%lookup_insert_inv; [by simplify_eq|eauto].
    + destruct Hhd as [(h & Hh & Hu)|(_ & Hnode & Hno)].
      * left. exists h. rewrite list_lookup_insert_ne by congruence. split; [done|].
        intros j y [[? ?]|[Hne Hj]]%lookup_insert_inv; [done|eauto].
      * right. split_and!; [done|..].
        -- intros j l [[<- ->]|[Hne Hj]]%lookup_insert_inv; [by apply (Hnode i (CSpin x p))|eauto].
        -- intros j y [[? ?]|[Hne Hj]]%lookup_insert_inv; [done|by eapply Hno].
  - by destruct (Hq _ _ Hi).
Qed.

(** The freed node belongs to nobody any more. *)
Lemma clh_free x o :
  ls !! i = Some (CFree x o) → clh_inv (CMem (delete o (heap m)) (tail m)) (<[i:=CIn x]> ls).
Proof.
  intros Hi. pose proof (lookup_lt_Some _ _ _ Hi) as Hlt.
  destruct (nodes_same (CFree x o) (CIn x)) as (H1 & H2 & H3); [done..|].
  pose proof (cl_queue _ _ Hinv) as Hq. destruct (tail m) as [t|] eqn:Ht; [|by destruct (Hq _ _ Hi)].
  destruct Hq as (p & q & Hch & Hnd & Hall & Hfree & Hhd).
  destruct (Hfree _ _ _ Hi) as [Hp1 ->].
  destruct Hhd as [(h & Hh & _)|(_ & Hnode & Hno)];
    [by rewrite (cl_zero _ _ Hinv _ _ p Hh eq_refl) in Hp1|].
  assert (∀ j l y, <[i:=CIn x]> ls !! j = Some l → node l = Some y → y ≠ p) as Hnp.
  { intros j l y [[<- ->]|[Hne Hj]]%lookup_insert_inv Hy ->; simplify_eq/=; [by eapply (Hnode i)|].
    by eapply Hnode. }
  assert (∃ q', q = i :: q') as [q' ->].
  { destruct (chain_pred _ _ _ _ i _ p Hch (Hall _ _ Hi ltac:(by eexists)) Hi eq_refl)
      as [[_ ?]|(j & lj & _ & Hj & Hjo & _)]; [done|]. by destruct (Hnode _ _ Hj). }
  destruct Hch as (l & y & Hl & Hy & _ & Hch). simplify_eq/=. apply NoDup_cons in Hnd as [Hiq Hnd].
  constructor; simpl.
  - intros j l y' Hj Hy. rewrite lookup_delete_ne by (symmetry; eauto). eauto.
  - intros j l y' Hj Hy Hl. rewrite lookup_delete_ne by (symmetry; eauto). eauto.
  - exact H3.
  - exists y, q'. split_and!; [by apply chain_insert_ne|done|..].
    + intros j l [[<- ->]|[Hne Hj]]%lookup_insert_inv Hp; [by destruct Hp|].
      destruct (proj1 (elem_of_cons _ _ _) (Hall _ _ Hj Hp)) as [->|?]; done.
    + intros j z o [[? ?]|[Hne Hj]]%lookup_insert_inv; [done|].
      destruct (Hfree _ _ _ Hj) as [_ ->]. exfalso.
      destruct (chain_pred ls p (i :: q') t j (CFree z p) p) as [[_ [? ?]]|(k & lk & _ & Hk & Hko & _)];
        [by exists (CFree y p), y|by eapply Hall; eauto|done|done|congruence|].
      by destruct (Hnode _ _ Hk).
    + left. exists i. rewrite list_lookup_insert_eq by done. split; [done|].
      intros j z [[<- _]|[Hne Hj]]%lookup_insert_inv; [done|]. by destruct (Hno _ _ Hj).
Qed.

Lemma clh_release x :
  ls !! i = Some (CIn x) → clh_inv (CMem (<[x:=1]> (heap m)) (tail m)) (<[i:=CFence]> ls).
Proof.
  intros Hi.
  assert (∀ j l y, <[i:=CFence]> ls !! j = Some l → node l = Some y → ls !! j = Some l ∧ y ≠ x) as Hother.
  { intros j l y [[<- ->]|[Hne Hj]]%lookup_insert_inv Hy; [done|]. split; [done|]. intros ->.
    apply Hne. by eapply (cl_inj _ _ Hinv i j). }
  constructor; simpl.
  - intros j l y Hj Hy. destruct (Hother _ _ _ Hj Hy) as [Hj' Hne].
    rewrite lookup_insert_ne by done. by eapply cl_alloc.
  - intros j l y Hj Hy Hl. destruct (Hother _ _ _ Hj Hy) as [Hj' Hne].
    rewrite lookup_insert_ne by done. by eapply cl_zero.
  - intros j k lj lk y Hj Hk Hyj Hyk. eapply (cl_inj _ _ Hinv j k); [by eapply Hother..|done|done].
  - pose proof (cl_queue _ _ Hinv) as Hq. destruct (tail m) as [t|] eqn:Ht; [|by destruct (Hq _ _ Hi)].
    destruct Hq as (p & q & Hch & Hnd & Hall & Hfree & Hhd).
    destruct Hhd as [(h & Hh & Hu)|(_ & _ & Hno)]; [|by destruct (Hno _ _ Hi)].
    pose proof (Hu _ _ Hi) as <-. simplify_eq.
    assert (i ∉ q) as Hiq by (by eapply chain_not_mem).
    exists x, q. split_and!; [by apply chain_insert_ne|done|..].
    + intros j l [[<- ->]|[Hne Hj]]%lookup_insert_inv Hp; [by destruct Hp|eauto].
    + intros j z o [[? ?]|[Hne Hj]]%lookup_insert_inv; [done|].
      destruct (Hfree _ _ _ Hj) as [Hp1 _]. by rewrite (cl_zero _ _ Hinv _ _ x Hi eq_refl) in Hp1.
    + right. rewrite lookup_insert_eq. split_and!; [done|..].
      * intros j l Hj Hn. by destruct (Hother _ _ _ Hj Hn).
      * intros j y Hj. destruct (Hother _ _ y Hj eq_refl) as [Hj' _].
        rewrite (Hu _ _ Hj') in Hj.
        by rewrite list_lookup_insert_eq in Hj by (by eapply lookup_lt_Some).
Qed.

Lemma clh_fence : ls !! i = Some CFence → clh_inv m (<[i:=COut]> ls).
Proof.
  intros Hi. destruct (nodes_same CFence COut) as (H1 & H2 & H3); [done..|].
  constructor; [exact H1|exact H2|exact H3|].
  pose proof (cl_queue _ _ Hinv) as Hq. destruct (tail m) as [t|] eqn:Ht.
  - destruct Hq as (p & q & Hch & Hnd & Hall & Hfree & Hhd). exists p, q.
    assert (i ∉ q) as Hiq by (by eapply chain_not_mem).
    split_and!; [by apply chain_insert_ne|done|..].
    + intros j l [[<- ->]|[Hne Hj]]%lookup_insert_inv Hp; [by destruct Hp|eauto].
    + intros j x o [[? ?]|[Hne Hj]]%lookup_insert_inv; [done|eauto].
    + destruct Hhd as [(h & Hh & Hu)|(Hp1 & Hnode & Hno)].
      * left. exists h. rewrite list_lookup_insert_ne by congruence. split; [done|].
        intros j y [[? ?]|[Hne Hj]]%lookup_insert_inv; [done|eauto].
      * right. split_and!; [done|..].
        -- intros j l [[<- ->]|[Hne Hj]]%lookup_insert_inv; [done|eauto].
        -- intros j y [[? ?]|[Hne Hj]]%lookup_insert_inv; [done|by eapply Hno].
  - intros j l [[<- ->]|[Hne Hj]]%lookup_insert_inv; [done|eauto].
Qed.

Lemma clh_inv_step c l m' l' :
  ls !! i = Some l → clh_step i c m l = Some (m', l') → clh_inv m' (<[i:=l']> ls).
Proof.
  intros Hi Hst. destruct l as [|x|x|x o|x o|x|]; simpl in Hst;
    unfold malloc, store, free, load in Hst.
  - destruct (heap m !! c) eqn:Hc; simplify_eq/=. by apply clh_malloc.
  - destruct (heap m !! x) eqn:Hx; simplify_eq/=. by apply clh_init.
  - injection Hst as <- <-. by apply clh_xchg.
  - destruct (heap m !! o) as [v|] eqn:Ho; simpl in Hst; [|done]. injection Hst as <- <-.
    destruct (v =? 0) eqn:Hv; zify_bool.
    + by rewrite list_insert_id.
    + by eapply clh_spin_done.
  - destruct (heap m !! o) eqn:Ho; simplify_eq/=. by apply clh_free.
  - destruct (heap m !! x) eqn:Hx; simplify_eq/=. by apply clh_release.
  - injection Hst as <- <-. by apply clh_fence.
Qed.

(** The address a thread is about to use is allocated, and what it frees is not
    its own node. *)
Definition access (l : cloc) : option nat :=
  match l with CInit x | CIn x => Some x | CSpin _ o | CFree _ o => Some o | _ => None end.

Lemma clh_access_ok l a : ls !! i = Some l → access l = Some a → is_Some (heap m !! a).
Proof.
  intros Hi Ha. destruct l as [|x|x|x o|x o|x|]; simplify_eq/=;
    try (by eapply cl_alloc); pose proof (cl_queue _ _ Hinv) as Hq;
    (destruct (tail m) as [t|] eqn:Ht; [|by destruct (Hq _ _ Hi)]);
    destruct Hq as (p & q & Hch & Hnd & Hall & Hfree & Hhd);
    destruct (chain_pred _ _ _ _ i _ a Hch (Hall _ _ Hi ltac:(by eexists)) Hi eq_refl)
      as [[-> _]|(j & lj & _ & Hj & Hjo & _)]; eauto using head_alloc, cl_alloc.
Qed.
End preserve.

(** ** Progress *)

Definition competes (i j : nat) (l : cloc) : Prop :=
  (j = i ∧ cloc_phase l = Idle) ∨ cloc_phase l = Acquiring.

Definition gets_in (i : nat) (m : cmem) (ls : list cloc) : Prop :=
  ∃ m' ls' j l, rtc (lrun1 (H:=clh) (competes i)) (m, ls) (m', ls') ∧
    ls' !! j = Some l ∧ cloc_phase l = Held.

Lemma gets_in_step i j c m ls l m' l' :
  ls !! j = Some l → competes i j l → clh_step j c m l = Some (m', l') →
  gets_in i m' (<[j:=l']> ls) → gets_in i m ls.
Proof.
  intros Hj Hc Hst (m2 & ls2 & k & lk & Hr & Hk & Hh). exists m2, ls2, k, lk.
  split_and!; [|done..]. eapply rtc_l; [|done]. by eapply (lrun1_once (H:=clh) _ j c).
Qed.

Lemma gets_in_now i m ls j x : ls !! j = Some (CIn x) → gets_in i m ls.
Proof. intros Hj. exists m, ls, j, (CIn x). done. Qed.

(** A thread whose predecessor has released gets the lock. *)
Lemma waiter_gets_in i j m ls l x o :
  ls !! j = Some l → (l = CSpin x o ∨ l = CFree x o) → heap m !! o = Some 1 → gets_in i m ls.
Proof.
  intros Hj Hl Ho. pose proof (lookup_lt_Some _ _ _ Hj) as Hlt.
  assert (∀ ls, ls !! j = Some (CFree x o) → (j < length ls)%nat → gets_in i m ls) as Hfree.
  { intros ls' Hj' Hlt'. eapply (gets_in_step i j 0); [done|by right|simpl; unfold free; by rewrite Ho|].
    apply (gets_in_now _ _ _ j x). by rewrite list_lookup_insert_eq. }
  destruct Hl as [-> | ->]; [|by apply Hfree].
  eapply (gets_in_step i j 0); [done|by right|simpl; unfold load; by rewrite Ho|]. simpl.
  apply Hfree; rewrite ?length_insert; [|done]. by rewrite list_lookup_insert_eq.
Qed.

(** With nobody inside or waiting, a thread at the exchange gets the lock. *)
Lemma xchg_gets_in i m ls x :
  clh_inv m ls → ls !! i = Some (CXchg x) →
  (∀ j l, ls !! j = Some l → pred l = None ∧ cloc_phase l ≠ Held) → gets_in i m ls.
Proof.
  intros Hinv Hi Hnone. pose proof (lookup_lt_Some _ _ _ Hi) as Hlt.
  eapply (gets_in_step i i 0); [done|by right|done|].
  pose proof (cl_queue _ _ Hinv) as Hq. destruct (tail m) as [t|] eqn:Ht; simpl.
  - destruct Hq as (p & q & Hch & _ & _ & _ & Hhd).
    assert (q = []) as ->.
    { destruct q as [|j q]; [done|]. destruct Hch as (l & y & Hj & _ & Hp & _).
      destruct (Hnone _ _ Hj) as [Hn _]. congruence. }
    simpl in Hch. subst t.
    destruct Hhd as [(h & Hh & _)|(Hp1 & _)]; [by destruct (Hnone _ _ Hh)|].
    eapply (waiter_gets_in i i _ _ (CSpin x p) x p); [by rewrite list_lookup_insert_eq|by left|done].
  - apply (gets_in_now _ _ _ i x). by rewrite list_lookup_insert_eq.
Qed.

Lemma init_gets_in i m ls x :
  clh_inv m ls → ls !! i = Some (CInit x) →
  (∀ j l, ls !! j = Some l → pred l = None ∧ cloc_phase l ≠ Held) → gets_in i m ls.
Proof.
  intros Hinv Hi Hnone. pose proof (lookup_lt_Some _ _ _ Hi) as Hlt.
  destruct (cl_alloc _ _ Hinv _ _ x Hi eq_refl) as [v Hv].
  eapply (gets_in_step i i 0); [done|by right|simpl; unfold store; by rewrite Hv|].
  eapply (xchg_gets_in i _ _ x); [|by rewrite list_lookup_insert_eq|].
  - by eapply clh_init.
  - intros j l [[<- ->]|[Hne Hj]]%lookup_insert_inv; [done|eauto].
Qed.

Lemma somebody_gets_in n i m ls :
  clh_inv m ls → (i < n)%nat → length ls = n →
  (∀ j l, ls !! j = Some l → cloc_phase l = Idle ∨ cloc_phase l = Acquiring) → gets_in i m ls.
Proof.
  intros Hinv Hlt Hlen Hall.
  destruct (lookup_lt_is_Some_2 ls i) as [l Hl]; [lia|].
  destruct (decide (Exists (λ l, is_Some (pred l)) ls)) as [Hw|Hnw].
  - apply Exists_exists in Hw as (lw & [w Hw]%list_elem_of_lookup & Hpw).
    pose proof (cl_queue _ _ Hinv) as Hq. destruct (tail m) as [t|] eqn:Ht.
    + destruct Hq as (p & q & Hch & _ & Hq & _ & Hhd).
      destruct q as [|j q]; [by destruct (not_elem_of_nil w); eauto|].
      destruct Hch as (lj & x & Hj & Hx & Hp & _).
      destruct Hhd as [(h & Hh & _)|(Hp1 & _)]; [by destruct (Hall _ _ Hh)|].
      destruct lj; simplify_eq/=; eapply (waiter_gets_in i j); eauto.
    + destruct (Hq _ _ Hw) as [Hn _]. rewrite Hn in Hpw. by destruct Hpw.
  - assert (∀ j l, ls !! j = Some l → pred l = None ∧ cloc_phase l ≠ Held) as Hnone.
    { intros j lj Hj. split; [|by destruct (Hall _ _ Hj); congruence].
      destruct (pred lj) eqn:Hp; [|done]. exfalso. apply Hnw, Exists_exists. exists lj.
      rewrite Hp. split; [apply list_elem_of_lookup|]; eauto. }
    destruct (Hnone _ _ Hl) as [Hp Hh]. destruct l as [|x|x|x o|x o|x|]; try done.
    + assert (heap m !! fresh (dom (heap m)) = None) as Hf.
      { apply not_elem_of_dom, is_fresh. }
      eapply (gets_in_step i i (fresh (dom (heap m)))); [done|by left|simpl; unfold malloc; by rewrite Hf|].
      eapply (init_gets_in i _ _ (fresh (dom (heap m)))).
      * by eapply clh_malloc.
      * by rewrite list_lookup_insert_eq by lia.
      * intros j lj [[<- ->]|[Hne Hj]]%lookup_insert_inv; [done|eauto].
    + by eapply init_gets_in.
    + by eapply xchg_gets_in.
    + by destruct (Hall _ _ Hl).
Qed.

#[export] Instance clh_spec n : LockSpec clh n.
Proof.
  refine {| lock_inv := clh_inv : @lsh clh → list (@lloc clh) → Prop |}.
  - done.
  - apply clh_inv_init.
  - intros m ls i c l m' l' Hinv. by eapply clh_inv_step.
  - intros i c m l m' l' Hst. simpl in *. unfold clh_step, malloc, store, free, load in Hst.
    destruct l; simplify_option_eq; by repeat case_match.
  - intros m ls i j li lj Hinv Hi Hj Hli Hlj. simpl in *.
    destruct li as [| | | | |x|], lj as [| | | | |y|]; try done.
    pose proof (cl_queue _ _ Hinv) as Hq. destruct (tail m); [|by destruct (Hq _ _ Hi)].
    destruct Hq as (p & q & _ & _ & _ & _ & [(h & Hh & Hu)|(_ & _ & Hno)]); [|by destruct (Hno _ _ Hi)].
    by rewrite (Hu _ _ Hi), (Hu _ _ Hj).
  - intros m ls i l Hinv Hi Hp. destruct l as [| | | | |x|]; try by destruct Hp.
    + destruct (cl_alloc _ _ Hinv _ _ x Hi eq_refl) as [v Hv].
      exists (CMem (<[x:=1]> (heap m)) (tail m)), COut. split; [|done].
      eapply rtc_l.
      * apply (lrun1_once (H:=clh) _ i 0%nat m ls (CIn x) (CMem (<[x:=1]> (heap m)) (tail m)) CFence);
          simpl; auto. unfold store. by rewrite Hv.
      * apply rtc_once. rewrite <- (list_insert_insert_eq ls i COut CFence). lock_one clh i.
    + exists m, COut. split; [|done]. apply rtc_once. lock_one clh i.
  - intros m ls i Hinv Hlt Hlen Hall. by eapply somebody_gets_in.
Defined.

(** ** The program *)

Definition NUM_THREAD : nat := 8.
Definition NUM_WORK : nat := Z.to_nat 1000000.

Definition Work : workload := Workload NUM_WORK NoLocal NoReport.

Definition main_init : cstate := cinit (L:=clh) NUM_THREAD.
Definition main_run : cstate → cstate → Prop := cstep (L:=clh) Work.

(** C18: the program with the CLH lock prints 8000000 whenever it ends, never has
    two threads in the critical section, and can be run to its end from every
    reachable state. *)
Theorem clh_main_correct s :
  reachable main_init main_run s →
  (c_main s = MExit → c_out s = [8000000]) ∧
  (∀ i j wi wj x y, c_ws s !! i = Some wi → c_ws s !! j = Some wj →
     w_loc wi = CIn x → w_loc wj = CIn y → i = j) ∧
  (∃ s', rtc main_run s s' ∧ c_main s' = MExit).
Proof.
  intros Hs. destruct (counting_correct_num NUM_THREAD 1000000 _ _ s ltac:(done) ltac:(done) Hs) as (Hout & Hmx & Hend).
  split_and!; [| |done].
  - intros Hm. rewrite Hout by done. reflexivity.
  - intros i j wi wj x y Hi Hj Hwi Hwj. apply (Hmx i j wi wj); simpl; rewrite ?Hwi, ?Hwj; done.
Qed.

Lemma work_bound : Z.of_nat NUM_THREAD * Z.of_nat (wk_num Work) < 2 ^ 31.
Proof. unfold Work, NUM_WORK. cbn [wk_num]. by rewrite Z2Nat.id. Qed.

(** C22: no thread of the program ever loads, stores or frees a node that is not
    allocated, even though freed addresses are handed out again. *)
Theorem clh_memory_safe s i w a :
  reachable main_init main_run s → c_ws s !! i = Some w → access (w_loc w) = Some a →
  is_Some (heap (c_sh s) !! a).
Proof.
  intros Hs Hi Ha.
  assert (clh_inv (c_sh s) (w_loc <$> c_ws s)) as Hinv
    by exact (ci_lock _ _ _ (reachable_cinv NUM_THREAD Work work_bound s Hs)).
  eapply (clh_access_ok _ _ i Hinv); [|done]. by rewrite list_lookup_fmap, Hi.
Qed.

(** A state with one thread inside and another one waiting for the lock. *)
Definition sample_sched : list sched := replicate 9 SMain ++ [SThread 0 7; SThread 0 0; SThread 0 0; SThread 1 8; SThread 1 0; SThread 1 0; SThread 0 0; SThread 0 0; SThread 0 0; SThread 1 0].
Definition sample_state : cstate :=
  Eval vm_compute in default main_init (run_sched (cnext (L:=clh) Work) sample_sched main_init).

Lemma clh_sample : reachable main_init main_run sample_state.
Proof. apply (run_sched_rtc (cnext (L:=clh) Work) sample_sched). vm_compute. reflexivity. Qed.

Lemma clh_main_correct_witness :
  w_loc <$> c_ws sample_state = [CFence; CFree 8 7; COut; COut; COut; COut; COut; COut] ∧
  ∃ s', rtc main_run sample_state s' ∧ c_main s' = MExit.
Proof.
  split; [reflexivity|]. apply (clh_main_correct sample_state). apply clh_sample.
Defined.

Lemma clh_memory_safe_witness : is_Some (heap (c_sh sample_state) !! 7%nat).
Proof.
  eapply (clh_memory_safe sample_state 1); [apply clh_sample|reflexivity|reflexivity].
Defined.

End Clh.
