(* ===== verification/ListHeap.v ===== *)
(** The heap representation of the sorted linked lists of [Lab11]
    (src/Lab11/*.cpp): nodes with a key and a next pointer between a head sentinel
    with key [INT_MIN] and a tail sentinel with key [INT_MAX].

    [path] says that a sequence of nodes is linked in the heap; the lemmas say how
    it changes when a node is linked in or unlinked, and relate a position found by
    the search loop to membership of the key. *)

From stdpp Require Export sorting.
From S2P Require Import Prelude.

Local Open Scope Z_scope.

(** [struct Node { int key; Node* next; }]; [None] is [NULL]. *)
Record node := Node { key : Z; next : option nat }.

#[export] Instance node_eq_dec : EqDecision node.
Proof. solve_decision. Defined.

(** [list_init]: both sentinels are allocated ([h] and [t] are the addresses
    [malloc] returned) and linked. *)
Definition list_init (h t : nat) : gmap nat node :=
  <[h:=Node INT_MIN (Some t)]> {[t:=Node INT_MAX None]}.

(** Keys the lists support: [INT_MAX] is the key of the tail sentinel. *)
Definition key_ok (k : Z) : Prop := INT_MIN ≤ k < INT_MAX.

(** A linked sequence of (address, key) pairs ending in [NULL]. *)
Fixpoint path (H : gmap nat node) (ps : list (nat * Z)) : Prop :=
  match ps with
  | [] => True
  | (a, k) :: ps' =>
      H !! a = Some (Node k (match ps' with [] => None | (b, _) :: _ => Some b end)) ∧ path H ps'
  end.

(** The list between the sentinels holds the entries [xs]. *)
Definition entries (head tail : nat) (xs : list (nat * Z)) : list (nat * Z) :=
  (head, INT_MIN) :: xs ++ [(tail, INT_MAX)].

Record is_list (H : gmap nat node) (head tail : nat) (xs : list (nat * Z)) : Prop := {
  il_path : path H (entries head tail xs);
  il_nodup : NoDup (entries head tail xs).*1;
  il_sorted : StronglySorted Z.lt (xs.*2 ++ [INT_MAX]);
  il_low : Forall (λ k, INT_MIN ≤ k) xs.*2;
}.

(** The set the list represents. *)
Definition contents (xs : list (nat * Z)) : gset Z := list_to_set xs.*2.

(** * Paths *)

Lemma path_app H ps qs a k :
  path H (ps ++ (a, k) :: qs) → path H ((a, k) :: qs).
Proof.
  induction ps as [|[b kb] ps IH]; [done|]. intros [_ Hp]. auto.
Qed.

Lemma path_lookup H ps a k :
  path H ps → (a, k) ∈ ps → ∃ nx, H !! a = Some (Node k nx).
Proof.
  induction ps as [|[b kb] ps IH]; [intros _ []%not_elem_of_nil|].
  intros [Hb Hp] [?|Hin]%elem_of_cons; simplify_eq; eauto.
Qed.

(** Only the cells of the path matter. *)
Lemma path_frame H H' ps :
  (∀ a, a ∈ ps.*1 → H' !! a = H !! a) → path H ps → path H' ps.
Proof.
  induction ps as [|[b kb] ps IH]; [done|]. intros Hag [Hb Hp]. split.
  - rewrite Hag; [done|]. simpl. set_solver.
  - apply IH; [|done]. intros a Ha. apply Hag. simpl. set_solver.
Qed.

Lemma path_frame_insert H ps a n :
  a ∉ ps.*1 → path H ps → path (<[a:=n]> H) ps.
Proof.
  intros Ha. apply path_frame. intros b Hb. apply lookup_insert_ne. set_solver.
Qed.

Lemma path_frame_delete H ps a :
  a ∉ ps.*1 → path H ps → path (delete a H) ps.
Proof.
  intros Ha. apply path_frame. intros b Hb. apply lookup_delete_ne. set_solver.
Qed.

(** A live node and its successor occur next to each other. *)
Lemma path_adjacent H ps a k c :
  path H ps → a ∈ ps.*1 → H !! a = Some (Node k (Some c)) →
  ∃ l1 l2 kc, ps = l1 ++ (a, k) :: (c, kc) :: l2.
Proof.
  induction ps as [|[b kb] ps IH]; simpl; [intros _ []%not_elem_of_nil|].
  intros [Hb Hp] Hin Ha. destruct (decide (a = b)) as [->|Hne].
  - rewrite Ha in Hb. destruct ps as [|[b' kb'] ps]; simplify_eq. by exists [], ps, kb'.
  - apply elem_of_cons in Hin as [?|Hin]; [done|].
    destruct (IH Hp Hin Ha) as (l1 & l2 & kc & ->). by exists ((b, kb) :: l1), l2, kc.
Qed.

Lemma path_next_of H l1 a k c kc l2 :
  path H (l1 ++ (a, k) :: (c, kc) :: l2) → H !! a = Some (Node k (Some c)).
Proof. intros Hp%path_app. by destruct Hp. Qed.

(** Linking a new node between two neighbours. *)
Lemma path_link H l1 p kp c kc l2 n k :
  NoDup (l1 ++ (p, kp) :: (c, kc) :: l2).*1 → n ∉ (l1 ++ (p, kp) :: (c, kc) :: l2).*1 →
  path H (l1 ++ (p, kp) :: (c, kc) :: l2) →
  path (<[n:=Node k (Some c)]> (<[p:=Node kp (Some n)]> H)) (l1 ++ (p, kp) :: (n, k) :: (c, kc) :: l2).
Proof.
  induction l1 as [|[a ka] l1 IH]; simpl; intros Hnd Hn [Ha Hp].
  - apply NoDup_cons in Hnd as [Hpc Hnd]. split; [|split].
    + rewrite lookup_insert_ne by set_solver. by rewrite lookup_insert_eq.
    + by rewrite lookup_insert_eq.
    + change (path (<[n:=Node k (Some c)]> (<[p:=Node kp (Some n)]> H)) ((c, kc) :: l2)).
      do 2 (apply path_frame_insert; [simpl; set_solver|]). done.
  - apply NoDup_cons in Hnd as [Hal Hnd]. split.
    + rewrite !lookup_insert_ne; [|rewrite fmap_app in Hal; simpl in *; set_solver..].
      rewrite Ha. f_equal. f_equal. by destruct l1 as [|[]].
    + apply IH; [done| |done]. intros ?. apply Hn. by right.
Qed.

(** Unlinking the second of two neighbours. *)
Lemma path_unlink H l1 p kp c kc l2 :
  NoDup (l1 ++ (p, kp) :: (c, kc) :: l2).*1 →
  path H (l1 ++ (p, kp) :: (c, kc) :: l2) →
  path (<[p:=Node kp (match l2 with [] => None | (b, _) :: _ => Some b end)]> H) (l1 ++ (p, kp) :: l2).
Proof.
  induction l1 as [|[a ka] l1 IH]; simpl; intros Hnd [Ha Hp].
  - apply NoDup_cons in Hnd as [Hpc Hnd]. split; [by rewrite lookup_insert_eq|].
    apply path_frame_insert; [set_solver|]. by destruct Hp.
  - apply NoDup_cons in Hnd as [Hal Hnd]. split; [|by apply IH].
    rewrite lookup_insert_ne; [|rewrite fmap_app in Hal; simpl in *; set_solver].
    rewrite Ha. f_equal. f_equal. by destruct l1 as [|[]].
Qed.

(** * Positions in a sorted list *)

(** Splitting the entries at two neighbours splits the inner list and the tail. *)
Lemma entries_split head tail xs l1 p kp c kc l2 :
  entries head tail xs = l1 ++ (p, kp) :: (c, kc) :: l2 →
  ∃ pre, xs ++ [(tail, INT_MAX)] = pre ++ (c, kc) :: l2 ∧
    (head, INT_MIN) :: pre = l1 ++ [(p, kp)].
Proof.
  unfold entries. destruct l1 as [|e l1]; intros He; simplify_eq/=.
  - by exists [].
  - exists (l1 ++ [(p, kp)]). split; [|done]. by rewrite <- app_assoc.
Qed.

(** The second neighbour is the tail or an inner node. *)
Lemma inner_split (xs pre l2 : list (nat * Z)) tail c kc :
  xs ++ [(tail, INT_MAX)] = pre ++ (c, kc) :: l2 →
  (l2 = [] ∧ xs = pre ∧ c = tail ∧ kc = INT_MAX) ∨
  (∃ l2', l2 = l2' ++ [(tail, INT_MAX)] ∧ xs = pre ++ (c, kc) :: l2').
Proof.
  intros He. destruct l2 as [|e l2 _] using rev_ind.
  - left. apply app_inj_tail in He as [-> He]. by simplify_eq.
  - right. rewrite app_comm_cons, app_assoc in He. apply app_inj_tail in He as [-> <-]. eauto.
Qed.

Section locate.
Context (H : gmap nat node) (head tail : nat) (xs : list (nat * Z)).
Hypothesis Hl : is_list H head tail xs.
Context (l1 : list (nat * Z)) (p : nat) (kp : Z) (c : nat) (kc : Z) (l2 : list (nat * Z)).
Hypothesis He : entries head tail xs = l1 ++ (p, kp) :: (c, kc) :: l2.
Context (k : Z).
Hypothesis Hp : p = head ∨ kp < k.
Hypothesis Hk : k ≤ kc.

Lemma before_smaller pre :
  xs ++ [(tail, INT_MAX)] = pre ++ (c, kc) :: l2 → (head, INT_MIN) :: pre = l1 ++ [(p, kp)] →
  Forall (λ k', k' < k) pre.*2.
Proof.
  intros Hx Hpre. destruct pre as [|e pre _] using rev_ind; [done|].
  rewrite app_comm_cons in Hpre. apply app_inj_tail in Hpre as [Hl1 ->].
  assert (kp < k) as Hlt.
  { destruct Hp as [->|?]; [exfalso|done].
    pose proof (il_nodup _ _ _ _ Hl) as Hnd. rewrite He, <- Hl1 in Hnd. simpl in Hnd.
    apply NoDup_cons in Hnd as [Hnd _]. apply Hnd. rewrite fmap_app. simpl. set_solver. }
  pose proof (il_sorted _ _ _ _ Hl) as Hs.
  assert (xs.*2 ++ [INT_MAX] = (pre ++ [(p, kp)]).*2 ++ kc :: l2.*2) as Hxs.
  { change [INT_MAX] with ([(tail, INT_MAX)].*2). rewrite <- fmap_app, Hx. by rewrite fmap_app. }
  rewrite Hxs in Hs. apply StronglySorted_app_1_l in Hs. rewrite fmap_app in *. simpl in *.
  apply Forall_app. split; [|by repeat constructor].
  apply Forall_forall. intros k' Hk'.
  pose proof (StronglySorted_app_1_elem_of _ _ _ k' kp Hs Hk' ltac:(set_solver)). lia.
Qed.

(** The search loop stops at the key or at the place where it would be. *)
Lemma locate_mem : k < INT_MAX → k ∈ contents xs ↔ kc = k.
Proof.
  intros Hmax. destruct (entries_split _ _ _ _ _ _ _ _ _ He) as (pre & Hx & Hpre).
  pose proof (before_smaller pre Hx Hpre) as Hlt. rewrite Forall_forall in Hlt.
  pose proof (il_sorted _ _ _ _ Hl) as Hs.
  unfold contents. rewrite elem_of_list_to_set.
  destruct (inner_split _ _ _ _ _ _ Hx) as [(-> & -> & -> & ->)|(l2' & -> & ->)].
  - split; [|lia]. intros Hin. specialize (Hlt _ Hin). lia.
  - rewrite fmap_app. simpl. split; [|set_solver].
    intros [Hin|[->|Hin]%elem_of_cons]%elem_of_app; [|done|].
    + specialize (Hlt _ Hin). lia.
    + rewrite fmap_app, <- app_assoc in Hs. simpl in Hs. apply StronglySorted_app_1_r in Hs.
      apply StronglySorted_cons in Hs as [Hf _]. rewrite Forall_forall in Hf.
      specialize (Hf k ltac:(set_solver)). lia.
Qed.

(** Linking a node with a key that is not there. *)
Lemma link_is_list n :
  n ∉ (entries head tail xs).*1 → k < kc → INT_MIN ≤ k →
  ∃ xs', is_list (<[n:=Node k (Some c)]> (<[p:=Node kp (Some n)]> H)) head tail xs' ∧
    contents xs' = {[k]} ∪ contents xs ∧
    ∀ a, a ∈ (entries head tail xs').*1 ↔ a = n ∨ a ∈ (entries head tail xs).*1.
Proof.
  intros Hn Hlt Hmin. destruct (entries_split _ _ _ _ _ _ _ _ _ He) as (pre & Hx & Hpre).
  pose proof (before_smaller pre Hx Hpre) as Hb.
  assert (∃ xs', xs' ++ [(tail, INT_MAX)] = pre ++ (n, k) :: (c, kc) :: l2) as [xs' Hx'].
  { destruct (inner_split _ _ _ _ _ _ Hx) as [(-> & -> & -> & ->)|(l2' & -> & ->)].
    - exists (pre ++ [(n, k)]). by rewrite <- app_assoc.
    - exists (pre ++ (n, k) :: (c, kc) :: l2'). by rewrite <- app_assoc. }
  exists xs'.
  assert (entries head tail xs' = l1 ++ (p, kp) :: (n, k) :: (c, kc) :: l2) as He'.
  { unfold entries. rewrite Hx', app_comm_cons, Hpre, <- app_assoc. done. }
  assert (xs'.*2 ++ [INT_MAX] = pre.*2 ++ k :: kc :: l2.*2) as Hk2'.
  { change [INT_MAX] with ([(tail, INT_MAX)].*2). rewrite <- fmap_app, Hx'. by rewrite fmap_app. }
  assert (xs.*2 ++ [INT_MAX] = pre.*2 ++ kc :: l2.*2) as Hk2.
  { change [INT_MAX] with ([(tail, INT_MAX)].*2). rewrite <- fmap_app, Hx. by rewrite fmap_app. }
  pose proof (il_nodup _ _ _ _ Hl) as Hnd.
  assert (∀ k', k' ∈ xs'.*2 ↔ k' = k ∨ k' ∈ xs.*2) as Hmem.
  { intros k'. destruct (inner_split _ _ _ _ _ _ Hx) as [(-> & -> & -> & ->)|(l2' & -> & ->)].
    - change [(n, k); (tail, INT_MAX)] with ([(n, k)] ++ [(tail, INT_MAX)]) in Hx'.
      rewrite app_assoc in Hx'.
      apply app_inj_tail in Hx' as [-> _]. rewrite fmap_app. simpl. set_solver.
    - rewrite !app_comm_cons, app_assoc in Hx'. apply app_inj_tail in Hx' as [-> _].
      rewrite !fmap_app. simpl. set_solver. }
  split_and!.
  - constructor.
    + rewrite He'. apply path_link; rewrite <- He; [done..|apply Hl].
    + rewrite He'. rewrite He in Hnd, Hn. rewrite fmap_app in *. simpl in *.
      rewrite NoDup_app, !NoDup_cons in *. set_solver.
    + pose proof (il_sorted _ _ _ _ Hl) as Hs. rewrite Hk2', Hk2 in *.
      clear -Hs Hlt Hb. induction pre as [|[a ka] pre IH]; simpl in *.
      * constructor; [done|]. apply StronglySorted_cons in Hs as [Hf _].
        constructor; [done|]. eapply Forall_impl; [exact Hf|]. simpl. intros; lia.
      * apply StronglySorted_cons in Hs as [Hf Hs]. apply Forall_cons in Hb as [? Hb].
        constructor; [by apply IH|]. rewrite Forall_app, !Forall_cons in *. naive_solver.
    + apply Forall_forall. intros k' [->|Hin]%Hmem; [done|].
      pose proof (il_low _ _ _ _ Hl) as Hlow. rewrite Forall_forall in Hlow. auto.
  - apply set_eq. intros k'. unfold contents. rewrite elem_of_union, elem_of_singleton, !elem_of_list_to_set.
    apply Hmem.
  - intros a. rewrite He', He, !fmap_app. simpl. set_solver.
Qed.

(** Unlinking an inner node. *)
Lemma unlink_is_list nx :
  H !! c = Some (Node kc nx) → kc < INT_MAX →
  ∃ xs', is_list (<[p:=Node kp nx]> H) head tail xs' ∧
    contents xs' = contents xs ∖ {[kc]} ∧
    ∀ a, a ∈ (entries head tail xs').*1 ↔ a ≠ c ∧ a ∈ (entries head tail xs).*1.
Proof.
  intros Hc Hlt. destruct (entries_split _ _ _ _ _ _ _ _ _ He) as (pre & Hx & Hpre).
  destruct (inner_split _ _ _ _ _ _ Hx) as [(-> & -> & -> & ->)|(l2' & -> & ->)]; [lia|].
  exists (pre ++ l2').
  pose proof (il_nodup _ _ _ _ Hl) as Hnd. pose proof (il_sorted _ _ _ _ Hl) as Hs.
  pose proof (il_path _ _ _ _ Hl) as Hpa. pose proof (il_low _ _ _ _ Hl) as Hlow.
  assert (entries head tail (pre ++ l2') = l1 ++ (p, kp) :: l2' ++ [(tail, INT_MAX)]) as He'.
  { unfold entries. rewrite <- app_assoc, app_comm_cons, Hpre, <- app_assoc. done. }
  assert (nx = match l2' ++ [(tail, INT_MAX)] with [] => None | (b, _) :: _ => Some b end) as ->.
  { rewrite He in Hpa. apply path_app in Hpa as [_ [Hc' _]]. rewrite Hc in Hc'. by simplify_eq. }
  split_and!.
  - constructor.
    + rewrite He'. eapply path_unlink; rewrite <- He; done.
    + rewrite He'. rewrite He in Hnd. rewrite fmap_app in Hnd |- *. csimpl in *.
      rewrite NoDup_app, !NoDup_cons in Hnd. rewrite NoDup_app, NoDup_cons.
      destruct Hnd as (? & Hd & Hp' & Hc' & ?).
      rewrite !not_elem_of_cons in Hp'.
      split_and!; [done| |tauto|done].
      intros x Hx'. specialize (Hd x Hx'). rewrite !not_elem_of_cons in *. tauto.
    + rewrite fmap_app in Hs. simpl in Hs. rewrite fmap_app, <- app_assoc in *. simpl in Hs.
      clear -Hs. induction pre as [|[a ka] pre IH]; csimpl in *.
      * by apply StronglySorted_cons in Hs as [_ ?].
      * apply StronglySorted_cons in Hs as [Hf Hs]. constructor; [by apply IH|].
        rewrite Forall_app, Forall_cons in *. naive_solver.
    + rewrite fmap_app in *. csimpl in *. rewrite Forall_app, Forall_cons in *. naive_solver.
  - apply set_eq. intros k'. unfold contents.
    rewrite elem_of_difference, elem_of_singleton, !elem_of_list_to_set, !fmap_app. simpl.
    rewrite !elem_of_app, elem_of_cons. split; [|naive_solver].
    intros Hin. split; [naive_solver|]. intros ->.
    rewrite fmap_app, <- app_assoc in Hs. simpl in Hs. destruct Hin as [Hin|Hin].
    + pose proof (StronglySorted_app_1_elem_of _ _ _ kc kc Hs Hin ltac:(set_solver)). lia.
    + apply StronglySorted_app_1_r, StronglySorted_cons in Hs as [Hf _].
      rewrite Forall_forall in Hf. specialize (Hf kc ltac:(set_solver)). lia.
  - intros a. rewrite He', He. rewrite He in Hnd. rewrite !fmap_app in *. csimpl in *.
    rewrite fmap_app in *. csimpl in *. rewrite NoDup_app, !NoDup_cons in Hnd. set_solver.
Qed.
End locate.

(** The initial list is empty. *)
Lemma list_init_is_list h t : h ≠ t → is_list (list_init h t) h t [].
Proof.
  intros Hne. unfold list_init. constructor; simpl.
  - rewrite lookup_insert_eq, lookup_insert_ne, lookup_singleton_eq by done. done.
  - apply NoDup_cons. split; [set_solver|apply NoDup_singleton].
  - repeat constructor.
  - constructor.
Qed.

(** * Positions of a search *)

(** [p] is a live node whose successor is [c], and the keys up to [p] are below [k]. *)
Definition adj (H : gmap nat node) (head tail : nat) (xs : list (nat * Z)) (k : Z) (p c : nat) : Prop :=
  p ∈ (entries head tail xs).*1 ∧ ∃ kp, H !! p = Some (Node kp (Some c)) ∧ (p = head ∨ kp < k).

(** The node at [c] has a key satisfying [P]. *)
Definition keyat (H : gmap nat node) (c : nat) (P : Z → Prop) : Prop :=
  ∃ kc nx, H !! c = Some (Node kc nx) ∧ P kc.

(** [p->next = v]. *)
Definition set_next (H : gmap nat node) (p : nat) (v : option nat) : option (gmap nat node) :=
  nd ← H !! p; Some (<[p:=Node (key nd) v]> H).

Section positions.
Context (H : gmap nat node) (head tail : nat) (xs : list (nat * Z)).
Hypothesis Hl : is_list H head tail xs.
Notation live a := (a ∈ (entries head tail xs).*1).

Lemma live_key a k nx : live a → H !! a = Some (Node k nx) → (a, k) ∈ entries head tail xs.
Proof.
  intros Ha Hk. apply list_elem_of_fmap in Ha as ([a' k'] & -> & Hin).
  destruct (path_lookup _ _ _ _ (il_path _ _ _ _ Hl) Hin) as [nx' Hk']. by simplify_eq/=.
Qed.

Lemma live_lookup a : live a → ∃ k nx, H !! a = Some (Node k nx).
Proof.
  intros Ha. apply list_elem_of_fmap in Ha as ([a' k'] & -> & Hin).
  destruct (path_lookup _ _ _ _ (il_path _ _ _ _ Hl) Hin) as [nx' Hk']. eauto.
Qed.

Lemma head_live : live head.
Proof. set_solver. Qed.

Lemma tail_node : H !! tail = Some (Node INT_MAX None).
Proof.
  pose proof (il_path _ _ _ _ Hl) as Hp. unfold entries in Hp.
  rewrite app_comm_cons in Hp. by apply path_app in Hp as [? _].
Qed.

(** A live node is the tail or has a live successor. *)
Lemma live_next a k nx :
  live a → H !! a = Some (Node k nx) → (a = tail ∧ k = INT_MAX) ∨ ∃ c, nx = Some c ∧ live c.
Proof.
  intros Ha Hk. destruct nx as [c|].
  - right. exists c. split; [done|].
    destruct (path_adjacent _ _ _ _ _ (il_path _ _ _ _ Hl) Ha Hk) as (l1 & l2 & kc & ->).
    rewrite fmap_app. set_solver.
  - left. apply list_elem_of_fmap in Ha as ([a' k'] & -> & Hin). simpl in *.
    apply list_elem_of_split in Hin as (l1 & l2 & He).
    pose proof (il_path _ _ _ _ Hl) as Hp. rewrite He in Hp. apply path_app in Hp as [Ha' _].
    destruct l2 as [|[b kb] l2]; simplify_eq/=.
    unfold entries in He. rewrite app_comm_cons in He. apply app_inj_tail in He as [_ ?]. by simplify_eq.
Qed.

Lemma adj_head k : ∃ c, H !! head = Some (Node INT_MIN (Some c)) ∧ adj H head tail xs k head c ∧ live c.
Proof.
  pose proof (il_path _ _ _ _ Hl) as [Hh _].
  destruct (live_next _ _ _ head_live Hh) as [[_ ?]|(c & Hn & Hc)]; [done|].
  rewrite Hn in Hh. exists c. split; [done|]. split; [|done]. split; [apply head_live|]. eauto.
Qed.

Lemma adj_live k p c : adj H head tail xs k p c → live p ∧ live c.
Proof.
  intros (Hp & kp & Hk & _). split; [done|].
  destruct (path_adjacent _ _ _ _ _ (il_path _ _ _ _ Hl) Hp Hk) as (l1 & l2 & kc & ->).
  rewrite fmap_app. set_solver.
Qed.

Lemma adj_next k p c :
  k < INT_MAX → adj H head tail xs k p c → keyat H c (λ kc, kc < k) →
  ∃ kc c', H !! c = Some (Node kc (Some c')) ∧ adj H head tail xs k c c'.
Proof.
  intros Hk Ha (kc & nx & Hc & Hlt). destruct (adj_live _ _ _ Ha) as [_ Hlc].
  destruct (live_next _ _ _ Hlc Hc) as [[_ ->]|(c' & -> & _)]; [lia|].
  exists kc, c'. split; [done|]. split; [done|]. eauto.
Qed.

Lemma adj_split k p c :
  adj H head tail xs k p c →
  ∃ l1 kp kc nx l2, entries head tail xs = l1 ++ (p, kp) :: (c, kc) :: l2 ∧
    H !! p = Some (Node kp (Some c)) ∧ H !! c = Some (Node kc nx) ∧ (p = head ∨ kp < k) ∧ p ≠ c.
Proof.
  intros (Hp & kp & Hk & Hlt).
  destruct (path_adjacent _ _ _ _ _ (il_path _ _ _ _ Hl) Hp Hk) as (l1 & l2 & kc & He).
  pose proof (il_path _ _ _ _ Hl) as Hpa. rewrite He in Hpa.
  apply path_app in Hpa as [_ [Hc _]]. exists l1, kp, kc. eexists. exists l2.
  split_and!; try done. intros ->.
  pose proof (il_nodup _ _ _ _ Hl) as Hnd. rewrite He, fmap_app in Hnd. csimpl in Hnd.
  apply NoDup_app in Hnd as (_ & _ & [Hnd _]%NoDup_cons). set_solver.
Qed.

Lemma adj_succ_not_head k p c : adj H head tail xs k p c → c ≠ head.
Proof.
  intros Ha ->. destruct (adj_split _ _ _ Ha) as (l1 & kp & kc & nx & l2 & He & _ & _ & _ & Hne).
  pose proof (il_nodup _ _ _ _ Hl) as Hnd. rewrite He in Hnd.
  unfold entries in He. destruct l1 as [|e l1]; simplify_eq/=.
  rewrite fmap_app in Hnd. apply NoDup_cons in Hnd as [Hnd _]. apply Hnd. set_solver.
Qed.

(** Keys increase along the list, from the first inner node on. *)
Lemma adj_key_lt k p c kp kc nx :
  adj H head tail xs k p c → p ≠ head → H !! p = Some (Node kp (Some c)) →
  H !! c = Some (Node kc nx) → kp < kc.
Proof.
  intros Ha Hph Hp Hc. destruct (adj_split _ _ _ Ha) as (l1 & kp' & kc' & nx' & l2 & He & ? & ? & _).
  simplify_eq. pose proof (il_sorted _ _ _ _ Hl) as Hs.
  unfold entries in He. destruct l1 as [|e l1]; [by injection He as -> _|]. injection He as _ He.
  change [INT_MAX] with ([(tail, INT_MAX)].*2) in Hs. rewrite <- fmap_app, He, fmap_app in Hs.
  apply StronglySorted_app_1_r in Hs. csimpl in Hs. apply StronglySorted_cons in Hs as [Hf _].
  by apply Forall_cons in Hf as [? _].
Qed.

(** The answer of a finished search. *)
Lemma adj_mem k p c kc nx :
  k < INT_MAX → adj H head tail xs k p c → H !! c = Some (Node kc nx) → k ≤ kc →
  k ∈ contents xs ↔ kc = k.
Proof.
  intros Hk Ha Hc Hle. destruct (adj_split _ _ _ Ha) as (l1 & kp & kc' & nx' & l2 & He & ? & ? & ? & ?).
  simplify_eq. by eapply locate_mem.
Qed.

(** Linking [n] between [p] and [c]. *)
Lemma adj_link k p c kc nx n kp :
  key_ok k → adj H head tail xs k p c → H !! c = Some (Node kc nx) → k < kc → ¬ live n →
  H !! p = Some (Node kp (Some c)) →
  ∃ xs', is_list (<[n:=Node k (Some c)]> (<[p:=Node kp (Some n)]> H)) head tail xs' ∧
    contents xs' = {[k]} ∪ contents xs ∧
    ∀ a, a ∈ (entries head tail xs').*1 ↔ a = n ∨ live a.
Proof.
  intros Hk Ha Hc Hlt Hn Hkp.
  destruct (adj_split _ _ _ Ha) as (l1 & kp' & kc' & nx' & l2 & He & ? & ? & ? & ?).
  simplify_eq. eapply link_is_list; [done..| |done|done|apply Hk]. unfold key_ok in Hk. lia.
Qed.

(** Unlinking [c]. *)
Lemma adj_unlink k p c nx kp :
  key_ok k → adj H head tail xs k p c → H !! c = Some (Node k nx) → H !! p = Some (Node kp (Some c)) →
  ∃ xs', is_list (<[p:=Node kp nx]> H) head tail xs' ∧
    contents xs' = contents xs ∖ {[k]} ∧
    ∀ a, a ∈ (entries head tail xs').*1 ↔ a ≠ c ∧ live a.
Proof.
  intros Hk Ha Hc Hkp.
  destruct (adj_split _ _ _ Ha) as (l1 & kp' & kc' & nx' & l2 & He & ? & ? & ? & ?).
  simplify_eq. eapply unlink_is_list; [done..|]. apply Hk.
Qed.
End positions.

(** A list is not disturbed by writes outside it. *)
Lemma is_list_frame H H' head tail xs :
  (∀ a, a ∈ (entries head tail xs).*1 → H' !! a = H !! a) → is_list H head tail xs → is_list H' head tail xs.
Proof. intros Hf Hl. constructor; try apply Hl. eapply path_frame; [exact Hf|apply Hl]. Qed.

Lemma adj_frame H H' head tail xs xs' k p c :
  H' !! p = H !! p → p ∈ (entries head tail xs').*1 → adj H head tail xs k p c → adj H' head tail xs' k p c.
Proof. intros Hp Hin (_ & kp & ? & ?). split; [done|]. exists kp. by rewrite Hp. Qed.

Lemma keyat_impl H c (P Q : Z → Prop) : keyat H c P → (∀ k, P k → Q k) → keyat H c Q.
Proof. intros (kc & nx & ? & ?) ?. exists kc, nx. auto. Qed.
