(* ===== verification/ListClient.v ===== *)
(** The program that drives the concurrent lists of [Lab11]: the workload threads,
    [main] and its final validation (shared by src/Lab11/coarse_grained.cpp,
    fine_grained.cpp and optimistic.cpp), proved against an interface.

    [ListImpl] is the code of one list implementation, one memory access at a time;
    [ListSpec] is its promise, a forward simulation by a set: every operation takes
    effect at one step between call and return and returns what the set operation
    returns there.  The client theorem is linearizability of whole runs: the history of
    calls and returns of every run of the program, in the order in which they happen, is
    a history of the atomic set, whose operations take effect at one instant between
    their call and their return.  So an operation that returned before another was
    called also takes effect before it. *)

From Stdlib Require Export Ascii.
From S2P Require Import Prelude ListHeap.

Local Open Scope Z_scope.

(** * Workloads *)

(** [struct Work { char type; int value; }] *)
Record work := Work { w_type : ascii; w_value : Z }.

Inductive opk := OAdd | ORemove | OContains.

(** The [switch] of [ThreadFunc]. *)
Definition decode (t : ascii) : option opk :=
  match t with
  | "A"%char => Some OAdd
  | "R"%char => Some ORemove
  | "C"%char => Some OContains
  | _ => None
  end.

(** * The abstract specification: operations on a set *)

Definition apply_op (o : opk) (k : Z) (S : gset Z) : gset Z * bool :=
  match o with
  | OAdd => if bool_decide (k ∈ S) then (S, false) else ({[k]} ∪ S, true)
  | ORemove => if bool_decide (k ∈ S) then (S ∖ {[k]}, true) else (S, false)
  | OContains => (S, bool_decide (k ∈ S))
  end.

(** The history of a run: the calls of operations and their returns, by thread. *)
Inductive event := Call (i : nat) (o : opk) (k : Z) | Return (i : nat) (b : bool).

(** A thread of the specification: what is left to do, the operation in progress (with
    its result once it has taken effect), and what was returned. *)
Record athread := AThread {
  a_todo : list work;
  a_cur : option (opk * Z * option bool);
  a_rets : list bool;
}.

Record aspec := ASpec { a_set : gset Z; a_ts : list athread }.

(** The atomic set: a thread calls its next operation, the operation takes effect in one
    step, which leaves no trace in the history, and returns its result. *)
Definition spec_next (i : nat) (a : aspec) : option (list event * aspec) :=
  t ← a_ts a !! i;
  let upd S t' := ASpec S (<[i:=t']> (a_ts a)) in
  match a_cur t with
  | None =>
      match a_todo t with
      | [] => None
      | w :: todo =>
          Some (match decode (w_type w) with
          | Some o => ([Call i o (w_value w)],
                       upd (a_set a) (AThread todo (Some (o, w_value w, None)) (a_rets t)))
          | None => ([], upd (a_set a) (AThread todo None (a_rets t)))
          end)
      end
  | Some (o, k, None) =>
      let '(S', b) := apply_op o k (a_set a) in
      Some ([], upd S' (AThread (a_todo t) (Some (o, k, Some b)) (a_rets t)))
  | Some (_, _, Some b) =>
      Some ([Return i b], upd (a_set a) (AThread (a_todo t) None (a_rets t ++ [b])))
  end.

Definition spec_step (a : aspec) (es : list event) (a' : aspec) : Prop :=
  ∃ i, spec_next i a = Some (es, a').

Definition spec_init (works : list (list work)) : aspec := ASpec ∅ ((λ ws, AThread ws None []) <$> works).

(** Runs of a transition system that record the history. *)
Inductive run {A : Type} (step : A → list event → A → Prop) (s : A) : list event → A → Prop :=
  | run_nil : run step s [] s
  | run_snoc hist es s1 s2 : run step s hist s1 → step s1 es s2 → run step s (hist ++ es) s2.
#[global] Arguments run_nil {A step s}.
#[global] Arguments run_snoc {A step s}.

Lemma run_silent {A} (step : A → list event → A → Prop) s hist s1 s2 :
  run step s hist s1 → step s1 [] s2 → run step s hist s2.
Proof. intros Hr Hs. rewrite <- (app_nil_r hist). by eapply run_snoc. Qed.

(** * The interface of a list implementation *)

(** The shared memory: the heap of nodes, the two global pointers, and the locks
    of the implementation. *)
Record shared (LK : Type) := Shared {
  sh_heap : gmap nat node;
  sh_head : nat;
  sh_tail : nat;
  sh_lk : LK;
}.
Arguments Shared {LK}.
Arguments sh_heap {LK}.
Arguments sh_head {LK}.
Arguments sh_tail {LK}.
Arguments sh_lk {LK}.

(** [lk_mem] is what the memory of the locks that [list_init] leaves uninitialized
    happens to hold, and [lk_init] the locks after [list_init] on that memory.

    [op_step tid choice sh op key pc] is the next memory access of an operation: it
    continues at a program counter or returns; an access to a node that is not allocated
    has no step. [op_waits] tells that the access is a lock operation on a held lock
    (of an allocated node), the only legitimate reason not to have a step. [lin] tells,
    for a program counter past the linearization point, what will be returned. *)
Class ListImpl := {
  lk : Type;
  lk_mem : Type;
  lk_init : nat → nat → lk_mem → lk;
  opc : Type;
  op_start : opk → opc;
  op_step : nat → nat → shared lk → opk → Z → opc → option (shared lk * (opc + bool));
  op_waits : shared lk → opc → bool;
  lin : opc → option bool;
}.

(** The operation a thread is executing, if any. *)
Definition opstate `{ListImpl} : Type := option (opk * Z * opc).

Class ListSpec (L : ListImpl) := {
  list_inv : shared lk → list opstate → gset Z → Prop;
  mem_ok : lk_mem → Prop;
  list_inv_init h t mem n : h ≠ t → mem_ok mem →
    list_inv (Shared (list_init h t) h t (lk_init h t mem)) (replicate n None) ∅;
  list_inv_call sh cs S i o k :
    list_inv sh cs S → cs !! i = Some None → key_ok k →
    list_inv sh (<[i:=Some (o, k, op_start o)]> cs) S;
  list_lin_start o : lin (op_start o) = None;
  list_inv_step sh cs S i c o k pc sh' pc' :
    list_inv sh cs S → cs !! i = Some (Some (o, k, pc)) →
    op_step i c sh o k pc = Some (sh', inl pc') →
    ∃ S', list_inv sh' (<[i:=Some (o, k, pc')]> cs) S' ∧
      match lin pc, lin pc' with
      | None, None => S' = S
      | None, Some b => apply_op o k S = (S', b)
      | Some b, Some b' => b' = b ∧ S' = S
      | Some _, None => False
      end;
  list_inv_ret sh cs S i c o k pc sh' b :
    list_inv sh cs S → cs !! i = Some (Some (o, k, pc)) →
    op_step i c sh o k pc = Some (sh', inr b) →
    ∃ S', list_inv sh' (<[i:=None]> cs) S' ∧
      match lin pc with
      | None => apply_op o k S = (S', b)
      | Some b' => b' = b ∧ S' = S
      end;
  list_inv_contents sh cs S :
    list_inv sh cs S → Forall (λ c, c = None) cs →
    ∃ xs, is_list (sh_heap sh) (sh_head sh) (sh_tail sh) xs ∧ contents xs = S;
  list_inv_progress sh cs S i x :
    list_inv sh cs S → cs !! i = Some (Some x) →
    ∃ j c o k pc r, cs !! j = Some (Some (o, k, pc)) ∧ op_step j c sh o k pc = Some r;
  list_inv_safe sh cs S i o k pc :
    list_inv sh cs S → cs !! i = Some (Some (o, k, pc)) →
    op_waits sh pc = true ∨ ∃ c r, op_step i c sh o k pc = Some r;
}.

(** What a client of an implementation relies on at one step of an operation, for an
    invariant [I] relating the memory and the threads to a set. *)
Definition step_ok `{ListImpl} (I : shared lk → list opstate → gset Z → Prop)
    (cs : list opstate) (S : gset Z) (i : nat) (o : opk) (k : Z) (q : opc)
    (sh' : shared lk) (r : opc + bool) : Prop :=
  match r with
  | inl q' => ∃ S', I sh' (<[i:=Some (o, k, q')]> cs) S' ∧
      match lin q, lin q' with
      | None, None => S' = S
      | None, Some b => apply_op o k S = (S', b)
      | Some b, Some b' => b' = b ∧ S' = S
      | Some _, None => False
      end
  | inr b => ∃ S', I sh' (<[i:=None]> cs) S' ∧
      match lin q with
      | None => apply_op o k S = (S', b)
      | Some b' => b' = b ∧ S' = S
      end
  end.
Arguments step_ok : simpl never.

(** * The program *)

Record thread `{ListImpl} := Thread {
  t_todo : list work;
  t_cur : opstate;
  t_rets : list bool;
}.

(** [main]: creating thread [k], joining thread [k], done with the validation. *)
Inductive lmain := LCreate (k : nat) | LJoin (k : nat) | LDone (is_valid : bool).

Record lstate `{ListImpl} := LState {
  l_sh : shared lk;
  l_ts : list thread;
  l_main : lmain;
}.

(** The final walk of [main] over the list, comparing with the values of the result
    file: whether it is still valid, and where it stopped. *)
Fixpoint validate_loop (H : gmap nat node) (tail it : nat) (vals : list Z) : option (bool * nat) :=
  match vals with
  | [] => Some (true, it)
  | v :: vals =>
      if (it =? tail)%nat then Some (false, it)
      else
        n ← H !! it;
        if key n =? v then nx ← next n; validate_loop H tail nx vals
        else Some (false, it)
  end.

Definition validate (H : gmap nat node) (head tail : nat) (vals : list Z) : option bool :=
  n ← H !! head; it ← next n;
  '(is_valid, it) ← validate_loop H tail it vals;
  Some (if (it =? tail)%nat then is_valid else false).

Section program.
Context `{L : ListImpl}.

(** One step of [ThreadFunc]: the next access of the current operation, or the next
    iteration of the loop over the work items. *)
Definition thread_step (i c : nat) (sh : shared lk) (t : thread) : option (shared lk * thread) :=
  match t_cur t with
  | Some (o, k, pc) =>
      '(sh', r) ← op_step i c sh o k pc;
      Some (sh', match r with
                 | inl pc' => Thread _ (t_todo t) (Some (o, k, pc')) (t_rets t)
                 | inr b => Thread _ (t_todo t) None (t_rets t ++ [b])
                 end)
  | None =>
      match t_todo t with
      | [] => None
      | w :: todo =>
          Some (sh, match decode (w_type w) with
                    | Some o => Thread _ todo (Some (o, w_value w, op_start o)) (t_rets t)
                    | None => Thread _ todo None (t_rets t)
                    end)
      end
  end.

Definition thread_done (t : thread) : bool :=
  match t_cur t, t_todo t with None, [] => true | _, _ => false end.

(** One step of [main] after the input has been read; [expected] is the content of
    the result file. *)
Definition lmain_step (expected : list Z) (s : lstate) : option lstate :=
  match l_main s with
  | LCreate k =>
      Some (LState _ (l_sh s) (l_ts s) (if (k <? length (l_ts s))%nat then LCreate (S k) else LJoin 0))
  | LJoin k =>
      match l_ts s !! k with
      | Some t => if thread_done t then Some (LState _ (l_sh s) (l_ts s) (LJoin (S k))) else None
      | None =>
          v ← validate (sh_heap (l_sh s)) (sh_head (l_sh s)) (sh_tail (l_sh s)) expected;
          Some (LState _ (l_sh s) (l_ts s) (LDone v))
      end
  | LDone _ => None
  end.

Definition lcreated (m : lmain) (i : nat) : bool :=
  match m with LCreate k => (i <? k)%nat | _ => true end.

Inductive lsched := LMain | LThread (i c : nat).

Definition lnext (expected : list Z) (d : lsched) (s : lstate) : option lstate :=
  match d with
  | LMain => lmain_step expected s
  | LThread i c =>
      t ← l_ts s !! i;
      if lcreated (l_main s) i then
        '(sh', t') ← thread_step i c (l_sh s) t;
        Some (LState _ sh' (<[i:=t']> (l_ts s)) (l_main s))
      else None
  end.

Definition lstep (expected : list Z) (s s' : lstate) : Prop := ∃ d, lnext expected d s = Some s'.

(** What a step adds to the history: the call when the loop of [ThreadFunc] starts an
    operation, the return when the last access of an operation has been made. *)
Definition levents (d : lsched) (s : lstate) : list event :=
  match d with
  | LMain => []
  | LThread i c =>
      match l_ts s !! i with
      | Some th =>
          match t_cur th with
          | Some (o, k, pc) =>
              match op_step i c (l_sh s) o k pc with Some (_, inr b) => [Return i b] | _ => [] end
          | None =>
              match t_todo th with
              | w :: _ => match decode (w_type w) with Some o => [Call i o (w_value w)] | None => [] end
              | [] => []
              end
          end
      | None => []
      end
  end.

Definition lhstep (expected : list Z) (s : lstate) (es : list event) (s' : lstate) : Prop :=
  ∃ d, lnext expected d s = Some s' ∧ es = levents d s.

(** Running a schedule, with its history. *)
Fixpoint run_hist (expected : list Z) (ds : list lsched) (s : lstate) : option (list event * lstate) :=
  match ds with
  | [] => Some ([], s)
  | d :: ds =>
      s' ← lnext expected d s; '(hist, s'') ← run_hist expected ds s'; Some (levents d s ++ hist, s'')
  end.

(** Whether a thread is waiting for a held lock. *)
Definition waiting (s : lstate) (i : nat) : bool :=
  match l_ts s !! i with
  | Some th => match t_cur th with Some (_, _, pc) => op_waits (l_sh s) pc | None => false end
  | None => false
  end.

(** The state after [main] has read the workload and called [list_init]. *)
Definition linit (h t : nat) (mem : lk_mem) (works : list (list work)) : lstate :=
  LState _ (Shared (list_init h t) h t (lk_init h t mem)) ((λ ws, Thread _ ws None []) <$> works) (LCreate 0).

End program.

(** * Reading the workload *)

Definition MAX_NUM_THREAD : nat := 16.
Definition MAX_NUM_WORK : nat := 100000.

(** What [fscanf] delivers: ["%d"] an integer, ["%c"] a character. *)
Inductive token := TInt (z : Z) | TChar (c : ascii).

(** The inner loop: [n] pairs ["%c %d "]. *)
Fixpoint read_works (n : nat) (ts : list token) : option (list work * list token) :=
  match n, ts with
  | O, _ => Some ([], ts)
  | S n, TChar c :: TInt v :: ts => '(ws, ts) ← read_works n ts; Some (Work c v :: ws, ts)
  | _, _ => None
  end.

(** The outer loop: a thread number, which is ignored, and the work of a thread. *)
Fixpoint read_threads (m n : nat) (ts : list token) : option (list (list work)) :=
  match m, ts with
  | O, _ => Some []
  | S m, TInt _ :: ts => '(ws, ts) ← read_works n ts; wss ← read_threads m n ts; Some (ws :: wss)
  | _, _ => None
  end.

(** Nothing compares the two counts with the sizes of the array they index; a count
    beyond them, like input that ends early, is outside the model ([None]). *)
Definition read_workload (ts : list token) : option (list (list work)) :=
  match ts with
  | TInt m :: TInt n :: ts =>
      if ((m <=? Z.of_nat MAX_NUM_THREAD) && (n <=? Z.of_nat MAX_NUM_WORK))%Z
      then read_threads (Z.to_nat m) (Z.to_nat n) ts else None
  | _ => None
  end.

(** The format of workload.txt, as a printer. *)
Definition print_works (ws : list work) : list token :=
  ws ≫= λ w, [TChar (w_type w); TInt (w_value w)].

Definition print_workload (n : nat) (wss : list (list work)) : list token :=
  TInt (Z.of_nat (length wss)) :: TInt (Z.of_nat n) :: concat (imap (λ i ws, TInt (Z.of_nat i) :: print_works ws) wss).

Lemma read_print_works ws ts : read_works (length ws) (print_works ws ++ ts) = Some (ws, ts).
Proof.
  induction ws as [|[c v] ws IH]; [done|].
  change (print_works (Work c v :: ws)) with (TChar c :: TInt v :: print_works ws).
  cbn [length read_works app]. by rewrite IH.
Qed.

Lemma read_print_threads (f : nat → Z) n wss :
  Forall (λ ws, length ws = n) wss →
  read_threads (length wss) n (concat (imap (λ i ws, TInt (f i) :: print_works ws) wss)) = Some wss.
Proof.
  revert f. induction wss as [|ws wss IH]; intros f Hf; [done|].
  apply Forall_cons in Hf as [<- Hf]. rewrite imap_cons.
  cbn [length read_threads app concat]. rewrite read_print_works. cbn.
  pose proof (IH (f ∘ S) Hf) as IH'. unfold compose in *. by rewrite IH'.
Qed.

(** Reading a workload file gives back the workload: for every table of operations
    with at most 16 threads and 100000 operations per thread, what [main] reads from the
    file that lists it is that table. *)
Theorem read_print_workload n wss :
  (length wss ≤ MAX_NUM_THREAD)%nat → (n ≤ MAX_NUM_WORK)%nat → Forall (λ ws, length ws = n) wss →
  read_workload (print_workload n wss) = Some wss.
Proof.
  intros Hm Hn Hf. unfold print_workload, read_workload.
  rewrite (proj2 (Z.leb_le _ _)), (proj2 (Z.leb_le _ _)) by lia. cbn [andb].
  rewrite !Nat2Z.id. by apply (read_print_threads Z.of_nat).
Qed.

Lemma read_print_workload_witness :
  read_workload [TInt 2; TInt 2; TInt 0; TChar "A"; TInt 7; TChar "R"; TInt 7;
    TInt 1; TChar "C"; TInt 3; TChar "A"; TInt (-5)] =
  Some [[Work "A" 7; Work "R" 7]; [Work "C" 3; Work "A" (-5)]].
Proof.
  apply (read_print_workload 2 [[Work "A" 7; Work "R" 7]; [Work "C" 3; Work "A" (-5)]]);
    [apply Nat.leb_le; reflexivity..|repeat constructor].
Defined.

(** * The final validation *)

Lemma validate_loop_correct H tail xs vals :
  path H (xs ++ [(tail, INT_MAX)]) → NoDup (xs ++ [(tail, INT_MAX)]).*1 →
  ∀ it, fst <$> head (xs ++ [(tail, INT_MAX)]) = Some it →
  ∃ b it', validate_loop H tail it vals = Some (b, it') ∧
    (b && (it' =? tail)%nat = true ↔ vals = xs.*2).
Proof.
  revert vals. induction xs as [|[a k] xs IH]; intros vals Hp Hnd it Hit; simplify_eq/=.
  - destruct vals as [|v vals]; cbn; rewrite ?Nat.eqb_refl; do 2 eexists; (split; [done|]).
    + by rewrite Nat.eqb_refl.
    + done.
  - destruct Hp as [Ha Hp]. apply NoDup_cons in Hnd as [Hna Hnd].
    assert (it ≠ tail) as Hne by (intros ->; apply Hna; rewrite fmap_app; set_solver).
    apply Nat.eqb_neq in Hne. destruct vals as [|v vals]; cbn; rewrite ?Hne, ?Ha; cbn.
    { do 2 eexists. split; [done|]. by rewrite Hne. }
    destruct (Z.eqb_spec k v) as [->|Hkv].
    + assert (∃ nx, fst <$> head (xs ++ [(tail, INT_MAX)]) = Some nx ∧
        match xs ++ [(tail, INT_MAX)] with [] => None | (b, _) :: _ => Some b end = Some nx)
        as (nx & Hnx & ->) by (destruct xs as [|[]]; cbn; eauto).
      cbn. destruct (IH vals Hp Hnd nx Hnx) as (b & it' & -> & Hb).
      do 2 eexists. split; [done|]. rewrite Hb. split; congruence.
    + do 2 eexists. split; [done|]. split; [done|congruence].
Qed.

(** The validation compares the list with the result file exactly. *)
Lemma validate_correct H hd tl xs vals :
  is_list H hd tl xs → validate H hd tl vals = Some (bool_decide (vals = xs.*2)).
Proof.
  intros Hl. pose proof (il_path _ _ _ _ Hl) as [Hh Hp]. pose proof (il_nodup _ _ _ _ Hl) as Hnd.
  apply NoDup_cons in Hnd as [_ Hnd].
  assert (∃ nx, fst <$> head (xs ++ [(tl, INT_MAX)]) = Some nx ∧
    match xs ++ [(tl, INT_MAX)] with [] => None | (b, _) :: _ => Some b end = Some nx)
    as (nx & Hnx & Hm) by (destruct xs as [|[]]; cbn; eauto).
  unfold validate. rewrite Hh. cbn. rewrite Hm. cbn.
  destruct (validate_loop_correct H tl xs vals Hp Hnd nx Hnx) as (b & it' & -> & Hb). cbn.
  f_equal. apply eq_true_iff_eq. rewrite bool_decide_eq_true, <- Hb.
  destruct b, (it' =? tl)%nat; done.
Qed.

(** A strictly increasing sequence is determined by its elements. *)
Lemma strictly_sorted_unique (l1 l2 : list Z) :
  StronglySorted Z.lt l1 → StronglySorted Z.lt l2 →
  (list_to_set l1 : gset Z) = list_to_set l2 → l1 = l2.
Proof.
  assert (∀ l : list Z, StronglySorted Z.lt l → NoDup l) as Hnd.
  { induction 1 as [|x l Hs IH Hf]; constructor; [|done].
    intros Hx. rewrite Forall_forall in Hf. specialize (Hf x Hx). lia. }
  intros H1 H2 Heq. apply (StronglySorted_unique_strong Z.lt); [|done..|].
  - intros x1 x2 _ _ ??. lia.
  - apply NoDup_Permutation; auto. intros x.
    pose proof (set_eq (list_to_set l1 : gset Z) (list_to_set l2)) as [He _].
    specialize (He Heq x). by rewrite !elem_of_list_to_set in He.
Qed.

(** * Linearizability *)

Lemma run_app_l {A} (step : A → list event → A → Prop) s es s1 hist s2 :
  step s es s1 → run step s1 hist s2 → run step s (es ++ hist) s2.
Proof.
  intros Hs. induction 1 as [|hist es' s2 s3 _ IH Hst].
  - rewrite app_nil_r, <- (app_nil_l es). eapply run_snoc; [apply run_nil|done].
  - rewrite (assoc_L (++)). by eapply run_snoc.
Qed.

Lemma run_hist_run `{L : ListImpl} expected ds s hist s' :
  run_hist expected ds s = Some (hist, s') → run (lhstep expected) s hist s'.
Proof.
  revert s hist. induction ds as [|d ds IH]; intros s hist Hr; cbn in Hr; simplify_eq; [apply run_nil|].
  destruct (lnext expected d s) as [s1|] eqn:Hn; [|done]. cbn in Hr.
  destruct (run_hist expected ds s1) as [[h2 s2]|] eqn:Hr'; [|done]. cbn in Hr. simplify_eq.
  eapply run_app_l; [by exists d|]. by apply IH.
Qed.

(** Histories do not restrict the runs. *)
Lemma run_has_history `{L : ListImpl} expected s s' :
  reachable s (lstep expected) s' ↔ ∃ hist, run (lhstep expected) s hist s'.
Proof.
  split.
  - revert s'. refine (rtc_ind_r _ _ _ _); [exists []; apply run_nil|]. intros s1 s2 _ [d Hd] (hist & IH).
    exists (hist ++ levents d s1). eapply run_snoc; [done|]. by exists d.
  - intros (hist & Hr). induction Hr as [|hist es s1 s2 _ IH (d & Hd & _)]; [apply rtc_refl|].
    eapply rtc_r; [done|]. by exists d.
Qed.

Section linearizable.
Context `{LS : ListSpec}.
Context (expected : list Z) (h t : nat) (mem : lk_mem) (works : list (list work)).
Hypothesis Hht : h ≠ t.
Hypothesis Hmem : mem_ok mem.
Hypothesis Hkeys : Forall (Forall (λ w, key_ok (w_value w))) works.

(** A thread and the thread of the specification it refines: an operation in progress
    has taken effect, with the result it will return, exactly when it is past its
    linearization point. *)
Definition tabs (th : thread) : athread :=
  AThread (t_todo th) ((λ '(o, k, pc), (o, k, lin pc)) <$> t_cur th) (t_rets th).

(** The simulation between states. *)
Definition lsim (s : lstate) (a : aspec) : Prop :=
  list_inv (l_sh s) (t_cur <$> l_ts s) (a_set a) ∧ a_ts a = tabs <$> l_ts s ∧
  Forall (λ th, Forall (λ w, key_ok (w_value w)) (t_todo th)) (l_ts s).

(** [main] validates only when every thread has finished. *)
Definition main_ok (s : lstate) : Prop :=
  match l_main s with
  | LCreate _ => True
  | LJoin k => ∀ i th, (i < k)%nat → l_ts s !! i = Some th → thread_done th = true
  | LDone v =>
      (∀ i th, l_ts s !! i = Some th → thread_done th = true) ∧
      validate (sh_heap (l_sh s)) (sh_head (l_sh s)) (sh_tail (l_sh s)) expected = Some v
  end.

Definition linv (hist : list event) (s : lstate) : Prop :=
  main_ok s ∧ ∃ a, run spec_step (spec_init works) hist a ∧ lsim s a.

Lemma linv_init : linv [] (linit h t mem works).
Proof.
  split; [done|]. exists (spec_init works). split; [apply run_nil|]. split_and!.
  - cbn [linit l_ts l_sh a_set spec_init]. rewrite <- list_fmap_compose.
    replace (t_cur ∘ (λ ws, Thread L ws None []) <$> works) with (replicate (length works) (None : opstate));
      [by apply list_inv_init|].
    clear. induction works as [|w ws IH]; [done|]. cbn. by rewrite IH.
  - cbn. by rewrite <- list_fmap_compose.
  - cbn. by apply Forall_fmap.
Qed.

(** The three kinds of steps of the specification, at thread [i]. *)
Lemma spec_call a i w o todo rets :
  a_ts a !! i = Some (AThread (w :: todo) None rets) → decode (w_type w) = Some o →
  spec_step a [Call i o (w_value w)]
    (ASpec (a_set a) (<[i:=AThread todo (Some (o, w_value w, None)) rets]> (a_ts a))).
Proof. intros Hi Hd. exists i. unfold spec_next. rewrite Hi. cbn. by rewrite Hd. Qed.

Lemma spec_effect a i o k todo rets S' b :
  a_ts a !! i = Some (AThread todo (Some (o, k, None)) rets) → apply_op o k (a_set a) = (S', b) →
  spec_step a [] (ASpec S' (<[i:=AThread todo (Some (o, k, Some b)) rets]> (a_ts a))).
Proof. intros Hi Ha. exists i. unfold spec_next. rewrite Hi. cbn. by rewrite Ha. Qed.

Lemma spec_return a i o k todo rets b :
  a_ts a !! i = Some (AThread todo (Some (o, k, Some b)) rets) →
  spec_step a [Return i b] (ASpec (a_set a) (<[i:=AThread todo None (rets ++ [b])]> (a_ts a))).
Proof. intros Hi. exists i. unfold spec_next. by rewrite Hi. Qed.

(** One access of an operation: the specification moves at most at the linearization
    point, and returns together with the operation. *)
Lemma op_sim a0 hist s a i c th o k pc sh' r :
  run spec_step a0 hist a → lsim s a → l_ts s !! i = Some th → t_cur th = Some (o, k, pc) →
  op_step i c (l_sh s) o k pc = Some (sh', r) →
  ∃ S', list_inv sh' (<[i:=match r with inl pc' => Some (o, k, pc') | inr _ => None end]> (t_cur <$> l_ts s)) S' ∧
    run spec_step a0 (hist ++ match r with inl _ => [] | inr b => [Return i b] end)
      (ASpec S' (<[i:=match r with
                      | inl pc' => AThread (t_todo th) (Some (o, k, lin pc')) (t_rets th)
                      | inr b => AThread (t_todo th) None (t_rets th ++ [b])
                      end]> (a_ts a))).
Proof.
  intros Hr (HI & HF & _) Hi Hcur Hop.
  assert ((t_cur <$> l_ts s) !! i = Some (Some (o, k, pc))) as Hci by by rewrite list_lookup_fmap, Hi, <- Hcur.
  assert (a_ts a !! i = Some (AThread (t_todo th) (Some (o, k, lin pc)) (t_rets th))) as Hai.
  { rewrite HF, list_lookup_fmap, Hi. unfold tabs. cbn. by rewrite Hcur. }
  assert (i < length (a_ts a))%nat as Hlt by by eapply lookup_lt_Some.
  destruct r as [pc'|b].
  - destruct (list_inv_step _ _ _ _ _ _ _ _ _ _ HI Hci Hop) as (S' & HI' & Hl).
    exists S'. split; [done|]. rewrite app_nil_r.
    destruct (lin pc) as [b|] eqn:Hl1, (lin pc') as [b'|] eqn:Hl2; [|done|..].
    + destruct Hl as [-> ->]. rewrite list_insert_id by done. by destruct a.
    + eapply run_silent; [done|]. by eapply spec_effect.
    + subst S'. rewrite list_insert_id by done. by destruct a.
  - destruct (list_inv_ret _ _ _ _ _ _ _ _ _ _ HI Hci Hop) as (S' & HI' & Hl).
    exists S'. split; [done|]. destruct (lin pc) as [b'|] eqn:Hl1.
    + destruct Hl as [-> ->]. eapply run_snoc; [done|]. by eapply spec_return.
    + eapply run_snoc; [eapply run_silent; [done|by eapply spec_effect]|].
      rewrite <- (list_insert_insert_eq (a_ts a) i (AThread (t_todo th) None (t_rets th ++ [b]))
        (AThread (t_todo th) (Some (o, k, Some b)) (t_rets th))).
      by eapply (spec_return (ASpec S' _)), list_lookup_insert_eq.
Qed.

(** One thread moves; the specification goes on with the same history. *)
Lemma thread_sim hist s a i c th sh' th' :
  run spec_step (spec_init works) hist a → lsim s a →
  l_ts s !! i = Some th → thread_step i c (l_sh s) th = Some (sh', th') →
  ∃ a', run spec_step (spec_init works) (hist ++ levents (LThread i c) s) a' ∧
    lsim (LState _ sh' (<[i:=th']> (l_ts s)) (l_main s)) a'.
Proof.
  intros Hr Hsim Hi Hst. pose proof Hsim as (HI & HF & HK).
  assert (Forall (λ w, key_ok (w_value w)) (t_todo th)) as Hk by (rewrite Forall_lookup in HK; eauto).
  unfold thread_step in Hst. unfold lsim, levents; cbn [l_sh l_ts]. rewrite Hi, !list_fmap_insert.
  destruct (t_cur th) as [[[o k] pc]|] eqn:Hcur.
  - destruct (op_step i c (l_sh s) o k pc) as [[sh1 r]|] eqn:Hop; simplify_eq/=.
    destruct (op_sim _ _ _ _ _ _ _ _ _ _ _ _ Hr Hsim Hi Hcur Hop) as (S' & HI' & Hr').
    destruct th as [todo cur rets]. cbn in *. subst cur.
    exists (ASpec S' (<[i:=tabs (match r with
      | inl pc' => Thread _ todo (Some (o, k, pc')) rets
      | inr b => Thread _ todo None (rets ++ [b])
      end)]> (a_ts a))).
    split; [by destruct r|]. split_and!; cbn.
    + by destruct r.
    + rewrite HF. by destruct r.
    + apply Forall_insert; [done|]. by destruct r.
  - destruct th as [todo cur rets]. cbn in *. subst cur. destruct todo as [|w todo]; [done|].
    simplify_eq/=. apply Forall_cons in Hk as [Hw Hk].
    assert (a_ts a !! i = Some (AThread (w :: todo) None rets)) as Hai by by rewrite HF, list_lookup_fmap, Hi.
    assert ((t_cur <$> l_ts s) !! i = Some None) as Hci by by rewrite list_lookup_fmap, Hi.
    destruct (decode (w_type w)) as [o|] eqn:Hd; eexists; (split; [eapply run_snoc; [exact Hr|]|split_and!]); cbn.
    + by eapply spec_call.
    + by apply list_inv_call.
    + rewrite HF. f_equal. unfold tabs. cbn. by rewrite list_lin_start.
    + by apply Forall_insert.
    + exists i. unfold spec_next. rewrite Hai. cbn. by rewrite Hd.
    + cbn. by rewrite list_insert_id.
    + cbn. by rewrite HF.
    + by apply Forall_insert.
Qed.

Lemma thread_step_not_done i c sh th x : thread_step i c sh th = Some x → thread_done th = false.
Proof. unfold thread_step, thread_done. by destruct (t_cur th), (t_todo th). Qed.

Lemma main_ok_thread s i c th x sh' :
  main_ok s → l_ts s !! i = Some th → thread_step i c (l_sh s) th = Some (sh', x) →
  main_ok (LState _ sh' (<[i:=x]> (l_ts s)) (l_main s)).
Proof.
  unfold main_ok. cbn. intros Hm Hi Hst%thread_step_not_done.
  destruct (l_main s) as [|k|v]; [done|..].
  - intros j th' Hj [[<- ->]|[_ ?]]%lookup_insert_inv; [|by eapply Hm].
    rewrite (Hm _ _ Hj Hi) in Hst. done.
  - destruct Hm as [Hm _]. rewrite (Hm _ _ Hi) in Hst. done.
Qed.

Lemma linv_step hist s es s' : linv hist s → lhstep expected s es s' → linv (hist ++ es) s'.
Proof.
  intros (Hm & a & Ha & Hs) [[|i c] [Hn ->]]; cbn [lnext] in Hn.
  - cbn [levents]. rewrite app_nil_r. unfold lmain_step in Hn.
    split; [|exists a; split; [done|]; by step_inv Hn].
    unfold main_ok in *. destruct (l_main s) as [k|k|v]; [..|done].
    + destruct (k <? length (l_ts s))%nat; simplify_eq/=; [done|]. intros; lia.
    + destruct (l_ts s !! k) as [th|] eqn:Hk.
      * destruct (thread_done th) eqn:Hd; simplify_eq/=. intros i th' Hi Hth'.
        destruct (decide (i = k)) as [->|]; [congruence|]. apply (Hm i); [lia|done].
      * destruct (validate _ _ _ _) as [v|] eqn:Hv; simplify_eq/=. split; [|done].
        intros i th Hi. apply (Hm i); [|done]. apply lookup_lt_Some in Hi.
        apply lookup_ge_None in Hk. lia.
  - destruct (l_ts s !! i) as [th|] eqn:Hi; simplify_eq/=.
    destruct (lcreated _ _); [|done].
    destruct (thread_step i c (l_sh s) th) as [[sh' th']|] eqn:Hst; simplify_eq/=.
    destruct (thread_sim _ _ _ _ _ _ _ _ Ha Hs Hi Hst) as (a' & Ha' & Hs').
    split; [by eapply main_ok_thread|]. by exists a'.
Qed.

(** Every run of the program, at every state it passes, has a history of the atomic
    set. *)
Lemma list_linearizable hist s : run (lhstep expected) (linit h t mem works) hist s → linv hist s.
Proof. induction 1; [exact linv_init|by eapply linv_step]. Qed.

Lemma done_threads (ths : list thread) :
  (∀ i th, ths !! i = Some th → thread_done th = true) →
  tabs <$> ths = (λ th, AThread [] None (t_rets th)) <$> ths ∧ Forall (λ c, c = None) (t_cur <$> ths).
Proof.
  induction ths as [|th ths IH]; intros Hd; [done|].
  destruct IH as [IH1 IH2]; [intros i th' Hi; exact (Hd (S i) th' Hi)|].
  specialize (Hd 0%nat th eq_refl). unfold thread_done in Hd.
  destruct th as [todo cur rets]. cbn in *. rewrite IH1.
  destruct cur, todo; try done. split; [done|]. by constructor.
Qed.

(** The history of a complete run is a complete history of the atomic set, and the
    program prints "correct!" exactly when the result file is the set at its end. *)
Lemma list_main_output hist s v :
  run (lhstep expected) (linit h t mem works) hist s → l_main s = LDone v →
  ∃ S, run spec_step (spec_init works) hist (ASpec S ((λ th, AThread [] None (t_rets th)) <$> l_ts s)) ∧
    (v = true ↔ StronglySorted Z.lt expected ∧ list_to_set expected = S).
Proof.
  intros Hr Hd. destruct (list_linearizable hist s Hr) as (Hm & [S ats] & Ha & HI & HF & _).
  unfold main_ok in Hm. rewrite Hd in Hm. destruct Hm as [Hdone Hv].
  cbn in *. subst ats. destruct (done_threads _ Hdone) as [He Hn]. rewrite He in Ha. exists S. split; [done|].
  destruct (list_inv_contents _ _ _ HI Hn) as (xs & Hl & <-).
  rewrite (validate_correct _ _ _ _ expected Hl) in Hv. simplify_eq.
  rewrite bool_decide_eq_true.
  assert (StronglySorted Z.lt xs.*2) as Hs.
  { pose proof (il_sorted _ _ _ _ Hl) as Hs. by apply StronglySorted_app_1_l in Hs. }
  split; [intros ->; done|]. intros [Hse Hset]. by apply strictly_sorted_unique.
Qed.

Lemma unfinished_thread (ths : list thread) :
  (∃ i x, (t_cur <$> ths) !! i = Some (Some x)) ∨
  (∃ i w todo rets, ths !! i = Some (Thread _ (w :: todo) None rets)) ∨
  Forall (λ th, thread_done th = true) ths.
Proof.
  induction ths as [|[todo [x|] rets] ths IH]; [by right; right; constructor|left; by exists 0%nat, x|].
  destruct IH as [(i & x & Hi)|[(i & w & td & r & Hi)|Hf]].
  - left. by exists (S i), x.
  - right; left. by exists (S i), w, td, r.
  - destruct todo as [|w todo]; [right; right; by constructor|].
    right; left. by exists 0%nat, w, todo, rets.
Qed.

(** Some step is possible until [main] has ended: there is no deadlock. *)
Lemma list_no_deadlock hist s : linv hist s → (∃ v, l_main s = LDone v) ∨ ∃ s', lstep expected s s'.
Proof.
  intros (Hm & a & Ha & HI & HF & _).
  destruct (l_main s) as [k|k|v] eqn:Hmain; [right..|by left; exists v].
  { eexists. exists LMain. cbn. unfold lmain_step. rewrite Hmain. done. }
  destruct (unfinished_thread (l_ts s)) as [(i & x & Hi)|[(i & w & todo & rets & Hi)|Hf]].
  - destruct (list_inv_progress _ _ _ _ _ HI Hi) as (j & c & o & kk & pc & [sh' r] & Hj & Hop).
    rewrite list_lookup_fmap in Hj. destruct (l_ts s !! j) as [th|] eqn:Hth; simplify_eq/=.
    eexists. exists (LThread j c). cbn. rewrite Hth, Hmain. cbn. unfold thread_step.
    rewrite Hj, Hop. done.
  - eexists. exists (LThread i 0). cbn. rewrite Hi, Hmain. done.
  - destruct (l_ts s !! k) as [th|] eqn:Hk.
    + eexists. exists LMain. cbn. unfold lmain_step. rewrite Hmain, Hk.
      rewrite Forall_lookup in Hf. rewrite (Hf k th Hk). done.
    + assert (∀ i th, l_ts s !! i = Some th → thread_done th = true) as Hd
        by (intros; rewrite Forall_lookup in Hf; eauto).
      destruct (done_threads _ Hd) as [_ Hn].
      destruct (list_inv_contents _ _ _ HI Hn) as (xs & Hl & _).
      eexists. exists LMain. cbn. unfold lmain_step. rewrite Hmain, Hk.
      rewrite (validate_correct _ _ _ _ _ Hl). done.
Qed.

(** No thread is ever stuck at an access to memory: every created thread has finished,
    waits for a lock another thread holds, or can make its next step. *)
Lemma list_thread_safe hist s i th :
  linv hist s → l_ts s !! i = Some th → lcreated (l_main s) i = true →
  thread_done th = true ∨ waiting s i = true ∨ ∃ c s', lnext expected (LThread i c) s = Some s'.
Proof.
  intros (_ & a & _ & HI & _) Hi Hc. unfold waiting, thread_done. cbn [lnext]. rewrite Hi. cbn. rewrite Hc.
  destruct th as [todo [[[o k] pc]|] rets]; cbn; [|destruct todo; [by left|]].
  - right. destruct (list_inv_safe _ _ _ i o k pc HI) as [?|(c & [sh' r] & Hop)]; [by rewrite list_lookup_fmap, Hi|by left|].
    right. exists c. unfold thread_step. cbn. rewrite Hop. cbn. eauto.
  - right; right. exists 0%nat. cbn. eauto.
Qed.

(** Together, at every reachable state. *)
Lemma list_main_progress s :
  reachable (linit h t mem works) (lstep expected) s →
  ((∃ v, l_main s = LDone v) ∨ ∃ s', lstep expected s s') ∧
  ∀ i th, l_ts s !! i = Some th → lcreated (l_main s) i = true →
    thread_done th = true ∨ waiting s i = true ∨ ∃ c s', lnext expected (LThread i c) s = Some s'.
Proof.
  intros (hist & Hr)%run_has_history. apply list_linearizable in Hr.
  split; [by eapply list_no_deadlock|]. intros i th. by eapply list_thread_safe.
Qed.

End linearizable.
