(* ===== verification/NodeLocks.v ===== *)
(** Mutexes inside the list nodes, for the lists of src/Lab11/fine_grained.cpp and
    src/Lab11/optimistic.cpp: locking and unlocking [a->mutex], and the table that
    relates the locked nodes to the program counters of the threads. *)

From S2P Require Import Prelude ListHeap ListClient.

Local Open Scope Z_scope.

(** The shared state: the lock word of a node is the thread that holds it, if any. *)
Definition nshared : Type := shared (gmap nat nat).

Definition heap_upd (sh : nshared) (H : gmap nat node) : nshared :=
  Shared H (sh_head sh) (sh_tail sh) (sh_lk sh).
Definition lk_upd (sh : nshared) (L : gmap nat nat) : nshared :=
  Shared (sh_heap sh) (sh_head sh) (sh_tail sh) L.

(** [pthread_mutex_lock(&a->mutex)]: blocks when the mutex is held. *)
Definition lock (i : nat) (sh : nshared) (a : nat) : option nshared :=
  _ ← sh_heap sh !! a;
  match sh_lk sh !! a with None => Some (lk_upd sh (<[a:=i]> (sh_lk sh))) | Some _ => None end.

(** [pthread_mutex_unlock(&a->mutex)] *)
Definition unlock (sh : nshared) (a : nat) : option nshared :=
  _ ← sh_heap sh !! a; Some (lk_upd sh (delete a (sh_lk sh))).

(** [list_init] allocates the two sentinels with [malloc] and never initializes their
    mutexes: what the memory of the mutex of the head and of the tail happens to hold,
    read as a mutex, the holder if it reads as a locked one. *)
Definition node_mem : Type := option nat * option nat.

(** The lock words after [list_init]: those of the sentinels are what the memory held. *)
Definition node_lk_init (h t : nat) (mem : node_mem) : gmap nat nat :=
  partial_alter (λ _, mem.1) h (partial_alter (λ _, mem.2) t ∅).

(** The memory reads as two unlocked mutexes, as zeroed memory does. *)
Definition sentinels_unlocked (mem : node_mem) : Prop := mem = (None, None).

Lemma node_lk_init_unlocked h t mem : sentinels_unlocked mem → node_lk_init h t mem = ∅.
Proof.
  intros ->. unfold node_lk_init. apply map_eq. intros a. rewrite lookup_empty, !lookup_partial_alter.
  by repeat case_decide.
Qed.

(** A lock operation on [a] has to wait: [a] is allocated and its mutex is held. *)
Definition mutex_held (sh : nshared) (a : nat) : bool :=
  match sh_heap sh !! a, sh_lk sh !! a with Some _, Some _ => true | _, _ => false end.

(** * The lock table *)

Section table.
Context {T : Type} (ls : T → list nat).

(** The locked nodes are those the threads hold at their program counters. *)
Definition table_ok (L : gmap nat nat) (cs : list (option T)) : Prop :=
  ∀ a i, L !! a = Some i ↔ ∃ x, cs !! i = Some (Some x) ∧ a ∈ ls x.

Context (L : gmap nat nat) (cs : list (option T)).
Hypothesis HL : table_ok L cs.

Lemma table_inj i j x y a :
  cs !! i = Some (Some x) → cs !! j = Some (Some y) → a ∈ ls x → a ∈ ls y → i = j.
Proof.
  intros Hi Hj Hx Hy. assert (L !! a = Some i) as H1 by (apply HL; eauto).
  assert (L !! a = Some j) as H2 by (apply HL; eauto). congruence.
Qed.

Lemma table_call i y : cs !! i = Some None → ls y = [] → table_ok L (<[i:=Some y]> cs).
Proof.
  intros Hi Hy a j. rewrite (HL a j). destruct (decide (j = i)) as [->|Hne].
  - rewrite list_lookup_insert_eq by by eapply lookup_lt_Some. split.
    + intros (x & Hx & _). congruence.
    + intros (x & [= <-] & Ha). rewrite Hy in Ha. by apply not_elem_of_nil in Ha.
  - by rewrite list_lookup_insert_ne.
Qed.

Context (i : nat) (x : T).
Hypothesis Hi : cs !! i = Some (Some x).

Lemma table_mine a : L !! a = Some i ↔ a ∈ ls x.
Proof. rewrite (HL a i). split; [|by eauto]. intros (y & Hy & Ha). congruence. Qed.

Lemma table_update L' e :
  (∀ a j, j ≠ i → L' !! a = Some j ↔ L !! a = Some j) →
  (∀ a, L' !! a = Some i ↔ ∃ y, e = Some y ∧ a ∈ ls y) → table_ok L' (<[i:=e]> cs).
Proof.
  intros Hlk Hlki a j. destruct (decide (j = i)) as [->|Hne].
  - rewrite Hlki, list_lookup_insert_eq by by eapply lookup_lt_Some. naive_solver.
  - rewrite Hlk, list_lookup_insert_ne by done. apply HL.
Qed.

Lemma table_same y : (∀ a, a ∈ ls y ↔ a ∈ ls x) → table_ok L (<[i:=Some y]> cs).
Proof. intros Hy. apply table_update; [done|]. intros a. rewrite table_mine, <- Hy. naive_solver. Qed.

Lemma table_add b y :
  L !! b = None → (∀ a, a ∈ ls y ↔ a = b ∨ a ∈ ls x) → table_ok (<[b:=i]> L) (<[i:=Some y]> cs).
Proof.
  intros Hb Hy. apply table_update.
  - intros a j Hne. destruct (decide (a = b)) as [->|]; [|by rewrite lookup_insert_ne].
    rewrite lookup_insert_eq, Hb. split; congruence.
  - intros a. transitivity (a ∈ ls y); [|naive_solver]. rewrite Hy, <- table_mine.
    destruct (decide (a = b)) as [->|]; [rewrite lookup_insert_eq|rewrite lookup_insert_ne by done]; tauto.
Qed.

Lemma table_del b e :
  b ∈ ls x → (∀ a, a ∈ match e with Some y => ls y | None => [] end ↔ a ≠ b ∧ a ∈ ls x) →
  table_ok (delete b L) (<[i:=e]> cs).
Proof.
  intros Hb%table_mine Hy. apply table_update.
  - intros a j Hne. destruct (decide (a = b)) as [->|]; [|by rewrite lookup_delete_ne].
    rewrite lookup_delete_eq, Hb. split; congruence.
  - intros a. transitivity (a ∈ match e with Some y => ls y | None => [] end).
    + rewrite Hy, <- table_mine. destruct (decide (a = b)) as [->|].
      * rewrite lookup_delete_eq. split; [done|tauto].
      * rewrite lookup_delete_ne by done. tauto.
    + destruct e as [y|]; [naive_solver|]. split; [intros []%not_elem_of_nil|naive_solver].
Qed.
End table.
