(* ===== verification/CoarseList.v ===== *)
(** The coarse-grained list (src/Lab11/coarse_grained.cpp): every operation runs under
    one global mutex.  [malloc] comes before the lock and [free] after the unlock, so
    these two are what interleaves with the critical sections of other threads. *)

From S2P Require Import Prelude ListHeap ListClient.

Local Open Scope Z_scope.

Module Coarse.

(** Program counters, with the local variables: [n] is [node] (of [list_add]), [p] is
    [prev], [c] is [curr]. *)
Inductive pc :=
  | Alloc
  | Lock (n : option nat)
  | Head (n : option nat)
  | Loop (n : option nat) (p c : nat)
  | Next (n : option nat) (p c : nat)
  | Test (n : option nat) (p c : nat)
  | Link (n p c : nat)
  | Link2 (n p c : nat)
  | UnlinkR (p c : nat)
  | UnlinkW (p c : nat) (nx : option nat)
  | Unlock (b : bool) (f : option nat)
  | Free (c : nat).

(** [g_mutex] is the thread that holds it. *)
Notation shared := (shared (option nat)).

Definition heap_upd (sh : shared) (H : gmap nat node) : shared :=
  Shared H (sh_head sh) (sh_tail sh) (sh_lk sh).
Definition lk_upd (sh : shared) (l : option nat) : shared :=
  Shared (sh_heap sh) (sh_head sh) (sh_tail sh) l.

(** What the three operations share: taking the mutex, the search loop, and
    releasing the mutex (before [free] in [list_remove]). *)
Definition search (i : nat) (sh : shared) (k : Z) (p : pc) : option (shared * (pc + bool)) :=
  match p with
  | Lock n => match sh_lk sh with None => Some (lk_upd sh (Some i), inl (Head n)) | Some _ => None end
  | Head n => nd ← sh_heap sh !! sh_head sh; c ← next nd; Some (sh, inl (Loop n (sh_head sh) c))
  | Loop n p c => nd ← sh_heap sh !! c; Some (sh, inl (if key nd <? k then Next n p c else Test n p c))
  | Next n p c => nd ← sh_heap sh !! c; c' ← next nd; Some (sh, inl (Loop n c c'))
  | Unlock b f => Some (lk_upd sh None, match f with Some c => inl (Free c) | None => inr b end)
  | _ => None
  end.

(** [list_add]; [m] is the address [malloc] returns, and the new node's [next] is not
    yet set. *)
Definition list_add (i m : nat) (sh : shared) (k : Z) (p : pc) : option (shared * (pc + bool)) :=
  match p with
  | Alloc =>
      match sh_heap sh !! m with
      | None => Some (heap_upd sh (<[m:=Node k None]> (sh_heap sh)), inl (Lock (Some m)))
      | Some _ => None
      end
  | Test (Some n) p c =>
      nd ← sh_heap sh !! c;
      Some (sh, inl (if key nd =? k then Unlock false None else Link n p c))
  | Link n p c => H ← set_next (sh_heap sh) p (Some n); Some (heap_upd sh H, inl (Link2 n p c))
  | Link2 n p c => H ← set_next (sh_heap sh) n (Some c); Some (heap_upd sh H, inl (Unlock true None))
  | _ => search i sh k p
  end.

Definition list_remove (i : nat) (sh : shared) (k : Z) (p : pc) : option (shared * (pc + bool)) :=
  match p with
  | Test n p c =>
      nd ← sh_heap sh !! c;
      Some (sh, inl (if negb (key nd =? k) then Unlock false None else UnlinkR p c))
  | UnlinkR p c => nd ← sh_heap sh !! c; Some (sh, inl (UnlinkW p c (next nd)))
  | UnlinkW p c nx => H ← set_next (sh_heap sh) p nx; Some (heap_upd sh H, inl (Unlock true (Some c)))
  | Free c => nd ← sh_heap sh !! c; Some (heap_upd sh (delete c (sh_heap sh)), inr true)
  | _ => search i sh k p
  end.

Definition list_contains (i : nat) (sh : shared) (k : Z) (p : pc) : option (shared * (pc + bool)) :=
  match p with
  | Test n p c => nd ← sh_heap sh !! c; Some (sh, inl (Unlock (key nd =? k) None))
  | _ => search i sh k p
  end.

(** [g_mutex] has a static initializer: nothing depends on uninitialized memory. *)
#[export] Instance coarse : ListImpl := {
  lk := option nat;
  lk_mem := unit;
  lk_init _ _ _ := None;
  opc := pc;
  op_start o := match o with OAdd => Alloc | _ => Lock None end;
  op_step i m sh o k p :=
    match o with
    | OAdd => list_add i m sh k p
    | ORemove => list_remove i sh k p
    | OContains => list_contains i sh k p
    end;
  op_waits sh p := match p, sh_lk sh with Lock _, Some _ => true | _, _ => false end;
  lin p := match p with Unlock b _ => Some b | Free _ => Some true | _ => None end;
}.

(** The other functions of the file: [list_init], [ThreadFunc], and [main], first up to
    [list_init] with the tokens of workload.txt, then its steps. *)
Definition init (h t : nat) : ListClient.shared (@lk coarse) := Shared (list_init h t) h t (@lk_init coarse h t tt).
Definition ThreadFunc := thread_step (L:=coarse).
Definition main_start (h t : nat) (toks : list token) : option (lstate (H:=coarse)) :=
  works ← read_workload toks; Some (linit (L:=coarse) h t tt works).
Definition main_step := lmain_step (L:=coarse).

(** * The invariant *)

Definition holds (p : pc) : bool :=
  match p with Alloc | Lock _ | Free _ => false | _ => true end.

(** The node a thread owns privately: allocated and not linked, or unlinked and not
    freed. *)
Definition owned (p : pc) : option nat :=
  match p with
  | Lock n | Head n | Loop n _ _ | Next n _ _ | Test n _ _ => n
  | Link n _ _ | Link2 n _ _ => Some n
  | Unlock _ f => f
  | Free c => Some c
  | _ => None
  end.

Section invariant.
Context (D H : gmap nat node) (head tail : nat) (xs : list (nat * Z)).

Notation live a := (a ∈ (entries head tail xs).*1).
Notation adj := (adj (D ∪ H) head tail xs).
Notation keyat := (keyat (D ∪ H)).

(** The fresh node of [list_add]. *)
Definition fresh_ok (o : opk) (k : Z) (n : option nat) : Prop :=
  match o with OAdd => ∃ a, n = Some a ∧ H !! a = Some (Node k None) | _ => n = None end.

(** What holds of one thread; the list is read in the heap [D ∪ H], in which the
    half-finished link of [list_add] is not yet visible. *)
Definition pc_ok (o : opk) (k : Z) (q : pc) : Prop :=
  match q with
  | Alloc => o = OAdd
  | Lock n | Head n => fresh_ok o k n
  | Loop n p c => fresh_ok o k n ∧ adj k p c
  | Next n p c => fresh_ok o k n ∧ adj k p c ∧ keyat c (λ kc, kc < k)
  | Test n p c => fresh_ok o k n ∧ adj k p c ∧ keyat c (λ kc, k ≤ kc)
  | Link n p c => o = OAdd ∧ fresh_ok o k (Some n) ∧ adj k p c ∧ keyat c (λ kc, k < kc)
  | Link2 n p c => o = OAdd ∧ fresh_ok o k (Some n) ∧ adj k p c ∧ keyat c (λ kc, k < kc) ∧
      ∃ kp, D !! p = Some (Node kp (Some c)) ∧ H !! p = Some (Node kp (Some n))
  | UnlinkR p c => o = ORemove ∧ adj k p c ∧ keyat c (λ kc, kc = k)
  | UnlinkW p c nx => o = ORemove ∧ adj k p c ∧ (D ∪ H) !! c = Some (Node k nx)
  | Unlock b f => match f with Some c => o = ORemove ∧ b = true ∧ is_Some (H !! c) | None => True end
  | Free c => o = ORemove ∧ is_Some (H !! c)
  end.
End invariant.

Record inv (sh : shared) (cs : list opstate) (S : gset Z) (D : gmap nat node) (xs : list (nat * Z)) : Prop := {
  i_list : is_list (D ∪ sh_heap sh) (sh_head sh) (sh_tail sh) xs;
  i_set : contents xs = S;
  i_pc i o k q : cs !! i = Some (Some (o, k, q)) →
    key_ok k ∧ pc_ok D (sh_heap sh) (sh_head sh) (sh_tail sh) xs o k q ∧
    (holds q = true ↔ sh_lk sh = Some i);
  i_lock i : sh_lk sh = Some i → ∃ o k q, cs !! i = Some (Some (o, k, q)) ∧ holds q = true;
  i_own i j o k q o' k' q' a :
    cs !! i = Some (Some (o, k, q)) → cs !! j = Some (Some (o', k', q')) →
    owned q = Some a → owned q' = Some a → i = j;
  i_dead i o k q a : cs !! i = Some (Some (o, k, q)) → owned q = Some a →
    a ∉ (entries (sh_head sh) (sh_tail sh) xs).*1;
  i_pend a : is_Some (D !! a) →
    is_Some (sh_heap sh !! a) ∧ a ∈ (entries (sh_head sh) (sh_tail sh) xs).*1 ∧
    ∃ i o k n c, cs !! i = Some (Some (o, k, Link2 n a c));
}.

(** * Stability of the invariant of a thread *)

Lemma coarse_fresh_ok_frame (H H' : gmap nat node) o k n :
  (∀ a, n = Some a → H' !! a = H !! a) → fresh_ok H o k n → fresh_ok H' o k n.
Proof. destruct o; cbn; [|done..]. intros Hf (a & -> & Ha). exists a. by rewrite Hf. Qed.

Lemma union_frame (D H H' : gmap nat node) a : H' !! a = H !! a → (D ∪ H') !! a = (D ∪ H) !! a.
Proof. rewrite !lookup_union. by intros ->. Qed.

Lemma keyat_frame (H H' : gmap nat node) c P : H' !! c = H !! c → keyat H c P → keyat H' c P.
Proof. intros Hc (kc & nx & ? & ?). exists kc, nx. by rewrite Hc. Qed.

(** Writes outside the list and the node of the thread. *)
Lemma coarse_pc_ok_frame D H H' hd tl xs o k q :
  is_list (D ∪ H) hd tl xs →
  (∀ a, a ∈ (entries hd tl xs).*1 ∨ owned q = Some a → H' !! a = H !! a) →
  pc_ok D H hd tl xs o k q → pc_ok D H' hd tl xs o k q.
Proof.
  intros Hl Hf.
  assert (∀ p c, adj (D ∪ H) hd tl xs k p c → adj (D ∪ H') hd tl xs k p c) as Hadj.
  { intros p c Ha. destruct (adj_live _ _ _ _ Hl _ _ _ Ha) as [Hp _].
    eapply adj_frame; [|done..]. apply union_frame. auto. }
  assert (∀ p c P, adj (D ∪ H) hd tl xs k p c → keyat (D ∪ H) c P → keyat (D ∪ H') c P) as Hkey.
  { intros p c P Ha. destruct (adj_live _ _ _ _ Hl _ _ _ Ha) as [_ Hc].
    apply keyat_frame, union_frame. auto. }
  assert (∀ n, (∀ a, n = Some a → owned q = Some a) → fresh_ok H o k n → fresh_ok H' o k n) as Hfr.
  { intros n Hn. apply coarse_fresh_ok_frame. intros a ->. auto. }
  destruct q as [| | |n p c|n p c|n p c|n p c|n p c|p c|p c nx|b [f|]|f]; cbn in *; intros Hq;
    [done|by eauto|by eauto|..]; [| | | | | | | |done|].
  - destruct Hq as (? & ?). split_and!; eauto.
  - destruct Hq as (? & ? & ?). split_and!; eauto.
  - destruct Hq as (? & ? & ?). split_and!; eauto.
  - destruct Hq as (? & ? & ? & ?). split_and!; eauto.
  - destruct Hq as (? & ? & Ha & ? & kp & HD & Hp). split_and!; eauto.
    exists kp. split; [done|].
    destruct (adj_live _ _ _ _ Hl _ _ _ Ha) as [Hlp _]. rewrite Hf; auto.
  - destruct Hq as (? & ? & ?). split_and!; eauto.
  - destruct Hq as (? & Ha & Hc). split_and!; eauto. rewrite <- Hc. apply union_frame, Hf. left.
    by destruct (adj_live _ _ _ _ Hl _ _ _ Ha).
  - destruct Hq as (? & ? & ?). rewrite Hf; auto.
  - destruct Hq as (? & ?). rewrite Hf; auto.
Qed.

(** A thread outside the critical section depends on its own node only. *)
Lemma pc_ok_outside D D' H H' hd tl xs xs' o k q :
  holds q = false → (∀ a, owned q = Some a → H' !! a = H !! a) →
  pc_ok D H hd tl xs o k q → pc_ok D' H' hd tl xs' o k q.
Proof.
  intros Hh Hf. destruct q; try discriminate; cbn in *; [done| |].
  - apply coarse_fresh_ok_frame. auto.
  - rewrite Hf; auto.
Qed.

Lemma coarse_owned_alloc D H hd tl xs o k q a :
  pc_ok D H hd tl xs o k q → owned q = Some a → is_Some (H !! a).
Proof.
  intros Hq Ho. assert (∀ n, fresh_ok H o k n → n = Some a → is_Some (H !! a)) as Hfr.
  { intros n Hn ->. destruct o; cbn in Hn; [|done..]. destruct Hn as (? & ? & ?). simplify_eq. eauto. }
  destruct q as [| | | | | | | | | |b [f|]|]; cbn in *; destruct_and?; simplify_eq; eauto.
Qed.

(** * One thread moves *)

Section move.
Context (sh : shared) (cs : list opstate) (S : gset Z) (D : gmap nat node) (xs : list (nat * Z)).
Hypothesis HI : inv sh cs S D xs.
Context (i : nat) (o : opk) (k : Z) (q : pc).
Hypothesis Hi : cs !! i = Some (Some (o, k, q)).

(** The conditions under which the invariant is re-established, for a new shared
    state, a new ghost state and a new state [e] of thread [i]. *)
Lemma coarse_inv_move H' l' (D' : gmap nat node) xs' (e : option pc) :
  let sh' := Shared H' (sh_head sh) (sh_tail sh) l' in
  is_list (D' ∪ H') (sh_head sh) (sh_tail sh) xs' →
  match e with
  | Some q' =>
      pc_ok D' H' (sh_head sh) (sh_tail sh) xs' o k q' ∧ (holds q' = true ↔ l' = Some i) ∧
      ∀ a, owned q' = Some a → a ∉ (entries (sh_head sh) (sh_tail sh) xs').*1 ∧
        (owned q = Some a ∨ a ∈ (entries (sh_head sh) (sh_tail sh) xs).*1 ∨ sh_heap sh !! a = None)
  | None => l' ≠ Some i
  end →
  (∀ j, j ≠ i → l' = Some j ↔ sh_lk sh = Some j) →
  (∀ a, a ∈ (entries (sh_head sh) (sh_tail sh) xs').*1 →
    a ∈ (entries (sh_head sh) (sh_tail sh) xs).*1 ∨ owned q = Some a) →
  (∀ j o' k' q', j ≠ i → cs !! j = Some (Some (o', k', q')) →
    pc_ok D' H' (sh_head sh) (sh_tail sh) xs' o' k' q') →
  (∀ a, is_Some (D' !! a) → is_Some (H' !! a) ∧ a ∈ (entries (sh_head sh) (sh_tail sh) xs').*1 ∧
    ((∃ n c, e = Some (Link2 n a c)) ∨ (∃ j o k n c, j ≠ i ∧ cs !! j = Some (Some (o, k, Link2 n a c))))) →
  inv sh' (<[i:=(λ q', (o, k, q')) <$> e]> cs) (contents xs') D' xs'.
Proof.
  intros sh' Hlist He Hlk Hlive Hoth Hpend.
  destruct (i_pc _ _ _ _ _ HI _ _ _ _ Hi) as (Hkey & Hpc & Hh).
  assert (i < length cs)%nat as Hlt by by eapply lookup_lt_Some.
  constructor; cbn; [done|done|..].
  - intros j o' k' q' [[<- Hj]|[Hne Hj]]%lookup_insert_inv.
    + destruct e as [e|]; simplify_eq/=. naive_solver.
    + destruct (i_pc _ _ _ _ _ HI _ _ _ _ Hj) as (? & ? & ?). rewrite Hlk by done. eauto.
  - intros j Hj. destruct (decide (j = i)) as [->|Hne].
    + destruct e as [e|]; [|done]. do 3 eexists. rewrite list_lookup_insert_eq by done.
      split; [done|]. naive_solver.
    + rewrite list_lookup_insert_ne by done. apply (i_lock _ _ _ _ _ HI). by apply Hlk.
  - assert (∀ j o' k' q' q1 a, e = Some q1 → j ≠ i → cs !! j = Some (Some (o', k', q')) →
      owned q1 = Some a → owned q' = Some a → False) as Hdis.
    { intros j o' k' q' q1 a -> Hne Hj Ho Ho'. destruct He as (_ & _ & He).
      destruct (He a Ho) as [_ [Ho1|[Ha|Ha]]].
      - by eapply Hne, (i_own _ _ _ _ _ HI).
      - by eapply (i_dead _ _ _ _ _ HI).
      - destruct (i_pc _ _ _ _ _ HI _ _ _ _ Hj) as (_ & Hp & _).
        destruct (coarse_owned_alloc _ _ _ _ _ _ _ _ _ Hp Ho'). congruence. }
    intros j1 j2 o1 k1 q1 o2 k2 q2 a [[<- H1]|[Hn1 H1]]%lookup_insert_inv
      [[<- H2]|[Hn2 H2]]%lookup_insert_inv Ho1 Ho2; [done|..|by eapply (i_own _ _ _ _ _ HI)].
    + destruct e as [e|]; simplify_eq/=. exfalso. by eapply (Hdis j2).
    + destruct e as [e|]; simplify_eq/=. exfalso. by eapply (Hdis j1).
  - intros j o' k' q' a [[<- Hj]|[Hne Hj]]%lookup_insert_inv Ho.
    + destruct e as [e|]; simplify_eq/=. naive_solver.
    + intros [Ha|Ha]%Hlive; [by eapply (i_dead _ _ _ _ _ HI)|].
      by eapply Hne, eq_sym, (i_own _ _ _ _ _ HI).
  - intros a (Ha & Hl & [(n & c & ->)|(j & o' & k' & n & c & Hne & Hj)])%Hpend; split_and!; [done..| |done|done|].
    + exists i, o, k, n, c. by rewrite list_lookup_insert_eq.
    + exists j, o', k', n, c. by rewrite list_lookup_insert_ne.
Qed.

Lemma others_outside j o' k' q' :
  holds q = true → j ≠ i → cs !! j = Some (Some (o', k', q')) → holds q' = false.
Proof.
  intros Hh Hne Hj. destruct (i_pc _ _ _ _ _ HI _ _ _ _ Hi) as (_ & _ & Hl).
  destruct (i_pc _ _ _ _ _ HI _ _ _ _ Hj) as (_ & _ & Hl'). apply not_true_iff_false. naive_solver.
Qed.

(** The ghost heap is the half-finished link of the holder of the mutex. *)
Lemma holder_pend a : holds q = true → is_Some (D !! a) → ∃ n c, q = Link2 n a c.
Proof.
  intros Hh (_ & _ & j & o' & k' & n & c & Hj)%(i_pend _ _ _ _ _ HI).
  destruct (decide (j = i)) as [->|Hne]; [simplify_eq; eauto|].
  by specialize (others_outside _ _ _ _ Hh Hne Hj).
Qed.

Definition is_link2 (q : pc) : bool := match q with Link2 _ _ _ => true | _ => false end.

Lemma coarse_pend_other a : is_link2 q = false → is_Some (D !! a) →
  is_Some (sh_heap sh !! a) ∧ a ∈ (entries (sh_head sh) (sh_tail sh) xs).*1 ∧
  ∃ j o k n c, j ≠ i ∧ cs !! j = Some (Some (o, k, Link2 n a c)).
Proof.
  intros Hq (? & ? & j & o' & k' & n & c & Hj)%(i_pend _ _ _ _ _ HI). split_and!; [done..|].
  exists j, o', k', n, c. split; [|done]. intros ->. by simplify_eq.
Qed.

Lemma holder_no_pend : holds q = true → is_link2 q = false → D = ∅.
Proof.
  intros Hh Hq. apply map_eq. intros a. rewrite lookup_empty.
  destruct (D !! a) as [nd|] eqn:Ha; [|done].
  destruct (holder_pend a Hh) as (n & c & Hqe); [by rewrite Ha|by rewrite Hqe in Hq].
Qed.

(** A step that only moves the program counter of [i], and possibly the mutex. *)
Lemma coarse_inv_local l' (e : option pc) :
  is_link2 q = false → (∀ j, j ≠ i → l' = Some j ↔ sh_lk sh = Some j) →
  match e with
  | Some q' =>
      pc_ok D (sh_heap sh) (sh_head sh) (sh_tail sh) xs o k q' ∧ (holds q' = true ↔ l' = Some i) ∧
      ∀ a, owned q' = Some a → owned q = Some a
  | None => l' ≠ Some i
  end →
  inv (lk_upd sh l') (<[i:=(λ q', (o, k, q')) <$> e]> cs) S D xs.
Proof.
  intros Hq Hlk He. rewrite <- (i_set _ _ _ _ _ HI). apply coarse_inv_move; auto.
  - apply (i_list _ _ _ _ _ HI).
  - destruct e as [q'|]; [|done]. destruct He as (? & ? & Ho). split_and!; [done..|].
    intros a Ha. split; [|by auto]. by eapply (i_dead _ _ _ _ _ HI); [done|apply Ho].
  - intros j o' k' q' _ Hj. by destruct (i_pc _ _ _ _ _ HI _ _ _ _ Hj) as (_ & ? & _).
  - intros a Ha. destruct (coarse_pend_other a Hq Ha) as (? & ? & ?). auto.
Qed.

Lemma inv_pc q' :
  is_link2 q = false → holds q' = holds q → (∀ a, owned q' = Some a → owned q = Some a) →
  pc_ok D (sh_heap sh) (sh_head sh) (sh_tail sh) xs o k q' →
  inv sh (<[i:=Some (o, k, q')]> cs) S D xs.
Proof.
  intros Hq Hh Ho Hp. replace sh with (lk_upd sh (sh_lk sh)) by by destruct sh.
  apply (coarse_inv_local (sh_lk sh) (Some q')); [done..|]. rewrite Hh.
  by destruct (i_pc _ _ _ _ _ HI _ _ _ _ Hi) as (_ & _ & ?).
Qed.

(** Heap changes outside the list and the nodes of the other threads. *)
Lemma coarse_inv_private H' (e : option pc) :
  holds q = false → (∀ a, H' !! a ≠ sh_heap sh !! a → owned q = Some a ∨ sh_heap sh !! a = None) →
  match e with
  | Some q' =>
      pc_ok D H' (sh_head sh) (sh_tail sh) xs o k q' ∧ holds q' = false ∧
      ∀ a, owned q' = Some a → sh_heap sh !! a = None
  | None => True
  end →
  inv (heap_upd sh H') (<[i:=(λ q', (o, k, q')) <$> e]> cs) S D xs.
Proof.
  intros Hh Hch He.
  destruct (i_pc _ _ _ _ _ HI _ _ _ _ Hi) as (Hkey & Hpc & Hl).
  pose proof (i_list _ _ _ _ _ HI) as Hlist.
  assert (∀ a, a ∈ (entries (sh_head sh) (sh_tail sh) xs).*1 → is_Some (sh_heap sh !! a)) as Hal.
  { intros a Ha. destruct (live_lookup _ _ _ _ Hlist a Ha) as (ka & nx & Hu).
    destruct (D !! a) eqn:HD; [by eapply (i_pend _ _ _ _ _ HI); rewrite HD|].
    rewrite lookup_union_r in Hu by done. eauto. }
  assert (∀ a, a ∈ (entries (sh_head sh) (sh_tail sh) xs).*1 → H' !! a = sh_heap sh !! a) as Hag.
  { intros a Ha. destruct (decide (H' !! a = sh_heap sh !! a)) as [|Hne]; [done|].
    destruct (Hch a Hne) as [Ho|Hn]; [|by destruct (Hal a Ha); congruence].
    exfalso. by eapply (i_dead _ _ _ _ _ HI). }
  assert (sh_lk sh ≠ Some i) as Hli by (rewrite <- Hl, Hh; done).
  rewrite <- (i_set _ _ _ _ _ HI). apply coarse_inv_move; [..|done|by auto| |].
  - eapply is_list_frame; [|done]. intros a Ha. apply union_frame. auto.
  - destruct e as [q'|]; [|done]. destruct He as (? & Hh' & Ho). split_and!; [done|by rewrite Hh'|].
    intros a Ha. specialize (Ho a Ha). split; [|by auto]. intros ?. destruct (Hal a); [done|congruence].
  - intros j o' k' q' Hne Hj. destruct (i_pc _ _ _ _ _ HI _ _ _ _ Hj) as (_ & Hp & _).
    eapply coarse_pc_ok_frame; [done| |done]. intros a [Ha|Ha]; [by auto|].
    destruct (decide (H' !! a = sh_heap sh !! a)) as [|Hd]; [done|].
    destruct (Hch a Hd) as [Ho|Hn]; [exfalso; by eapply Hne, eq_sym, (i_own _ _ _ _ _ HI)|].
    destruct (coarse_owned_alloc _ _ _ _ _ _ _ _ _ Hp Ha). congruence.
  - intros a Ha. assert (is_link2 q = false) as Hq by by destruct q.
    destruct (coarse_pend_other a Hq Ha) as (? & ? & ?). rewrite Hag by done. auto.
Qed.

(** A step of the holder of the mutex that writes the list. *)
Lemma coarse_inv_write H' (D' : gmap nat node) xs' q' :
  holds q = true → holds q' = true →
  is_list (D' ∪ H') (sh_head sh) (sh_tail sh) xs' →
  pc_ok D' H' (sh_head sh) (sh_tail sh) xs' o k q' →
  (∀ a, owned q' = Some a → a ∉ (entries (sh_head sh) (sh_tail sh) xs').*1 ∧
        (owned q = Some a ∨ a ∈ (entries (sh_head sh) (sh_tail sh) xs).*1)) →
  (∀ a, a ∈ (entries (sh_head sh) (sh_tail sh) xs').*1 →
    a ∈ (entries (sh_head sh) (sh_tail sh) xs).*1 ∨ owned q = Some a) →
  (∀ a, H' !! a ≠ sh_heap sh !! a → a ∈ (entries (sh_head sh) (sh_tail sh) xs).*1 ∨ owned q = Some a) →
  (∀ a, is_Some (D' !! a) → is_Some (H' !! a) ∧ a ∈ (entries (sh_head sh) (sh_tail sh) xs').*1 ∧
     ∃ n c, q' = Link2 n a c) →
  inv (heap_upd sh H') (<[i:=Some (o, k, q')]> cs) (contents xs') D' xs'.
Proof.
  intros Hh Hh' Hlist Hp Ho Hlive Hch Hpend.
  destruct (i_pc _ _ _ _ _ HI _ _ _ _ Hi) as (Hkey & Hpc & Hl). rewrite Hh in Hl.
  apply (coarse_inv_move H' (sh_lk sh) D' xs' (Some q')); [done|..|done|done| |].
  - split_and!; [done|by rewrite Hh'|]. intros a Ha. destruct (Ho a Ha); tauto.
  - intros j o' k' q2 Hne Hj. destruct (i_pc _ _ _ _ _ HI _ _ _ _ Hj) as (_ & Hp' & _).
    eapply pc_ok_outside; [by eapply others_outside| |done]. intros a Ha.
    destruct (decide (H' !! a = sh_heap sh !! a)) as [|Hd]; [done|]. exfalso.
    destruct (Hch a Hd) as [?|?]; [by eapply (i_dead _ _ _ _ _ HI)|].
    by eapply Hne, eq_sym, (i_own _ _ _ _ _ HI).
  - intros a Ha. destruct (Hpend a Ha) as (? & ? & n & c & ->). eauto 10.
Qed.

End move.

(** * The steps of the operations *)

(** What the interface asks of a step. *)
Notation step_ok := (step_ok (H:=coarse) (λ sh cs S, ∃ D xs, inv sh cs S D xs)).

Section steps.
Context (sh : shared) (cs : list opstate) (S : gset Z) (D : gmap nat node) (xs : list (nat * Z)).
Hypothesis HI : inv sh cs S D xs.
Context (i : nat) (o : opk) (k : Z) (q : pc).
Hypothesis Hi : cs !! i = Some (Some (o, k, q)).

Lemma coarse_pc_step_ok q' :
  is_link2 q = false → holds q' = holds q → (∀ a, owned q' = Some a → owned q = Some a) →
  pc_ok D (sh_heap sh) (sh_head sh) (sh_tail sh) xs o k q' → lin q = None →
  match lin q' with None => True | Some b => apply_op o k S = (S, b) end →
  step_ok cs S i o k q sh (inl q').
Proof.
  intros ???? Hl Hl'. exists S. split; [exists D, xs; by apply (inv_pc _ _ _ _ _ HI _ _ _ _ Hi)|].
  rewrite Hl. by destruct (lin (ListImpl:=coarse) q').
Qed.

Lemma coarse_thread_key : key_ok k.
Proof. by destruct (i_pc _ _ _ _ _ HI _ _ _ _ Hi). Qed.

Lemma coarse_thread_pc : pc_ok D (sh_heap sh) (sh_head sh) (sh_tail sh) xs o k q.
Proof. by destruct (i_pc _ _ _ _ _ HI _ _ _ _ Hi) as (_ & ? & _). Qed.

Lemma list_of_holder :
  holds q = true → is_link2 q = false →
  D = ∅ ∧ is_list (sh_heap sh) (sh_head sh) (sh_tail sh) xs.
Proof.
  intros Hh Hq. pose proof (holder_no_pend _ _ _ _ _ HI _ _ _ _ Hi Hh Hq) as HD. split; [done|].
  pose proof (i_list _ _ _ _ _ HI) as Hl. rewrite HD in Hl. by rewrite (left_id_L ∅ (∪)) in Hl.
Qed.

Lemma coarse_search_ok sh' r : search i sh k q = Some (sh', r) → step_ok cs S i o k q sh' r.
Proof.
  pose proof coarse_thread_key as Hkey. pose proof coarse_thread_pc as Hpc. pose proof coarse_pc_step_ok as Hstep.
  destruct (holds q) eqn:Hh; [destruct (is_link2 q) eqn:Hq2; [by destruct q|]|].
  - destruct (list_of_holder Hh Hq2) as [HD Hl]. rewrite HD in Hpc, Hstep.
    destruct q as [|n|n|n p c|n p c|n p c| | | | |b f|]; cbn in *; try discriminate;
      rewrite ?(left_id_L ∅ (∪)) in *; intros Hs.
    + destruct (adj_head _ _ _ _ Hl k) as (c & Hc & Ha & _). rewrite Hc in Hs. simplify_eq/=.
      apply Hstep; try done. cbn. by rewrite (left_id_L ∅ (∪)).
    + destruct Hpc as [Hfr Ha]. destruct (adj_live _ _ _ _ Hl _ _ _ Ha) as [_ Hc].
      destruct (live_lookup _ _ _ _ Hl c Hc) as (kc & nx & Hkc). rewrite Hkc in Hs. simplify_eq/=.
      destruct (Z.ltb_spec kc k); apply Hstep; try done; cbn; rewrite (left_id_L ∅ (∪));
        split_and!; try done; by exists kc, nx.
    + destruct Hpc as (Hfr & Ha & Hka).
      destruct (adj_next _ _ _ _ Hl _ _ _ (proj2 Hkey) Ha Hka) as (kc & c' & Hc & Ha').
      rewrite Hc in Hs. simplify_eq/=. apply Hstep; try done. cbn. by rewrite (left_id_L ∅ (∪)).
    + assert (∀ j, j ≠ i → None = Some j ↔ sh_lk sh = Some j) as Hlk.
      { destruct (i_pc _ _ _ _ _ HI _ _ _ _ Hi) as (_ & _ & Hl'). cbn in Hl'.
        intros j Hne. rewrite (proj1 Hl' eq_refl). naive_solver. }
      clear Hstep HD. destruct f as [c|]; simplify_eq/=; exists S; (split; [exists D, xs|]).
      * apply (coarse_inv_local _ _ _ _ _ HI _ _ _ _ Hi None (Some (Free c))); [done..|]. destruct Hpc as (? & ? & ?).
        cbn. naive_solver.
      * destruct Hpc as (_ & -> & _). by split.
      * apply (coarse_inv_local _ _ _ _ _ HI _ _ _ _ Hi None None); done.
      * done.
  - destruct q as [|n|n|n p c|n p c|n p c| | | | |b f|]; cbn in *; try discriminate.
    destruct (sh_lk sh) as [l|] eqn:Hlk; [done|]. intros ?; simplify_eq/=.
    exists S. split; [|done]. exists D, xs. apply (coarse_inv_local _ _ _ _ _ HI _ _ _ _ Hi (Some i) (Some (Head n))); [done|..|done].
    intros j Hne. rewrite Hlk. naive_solver.
Qed.

(** The [if] after the loop: what was found decides membership. *)
Lemma coarse_test_ok n p c :
  q = Test n p c →
  ∃ kc nx, sh_heap sh !! c = Some (Node kc nx) ∧ fresh_ok (sh_heap sh) o k n ∧ D = ∅ ∧
    is_list (sh_heap sh) (sh_head sh) (sh_tail sh) xs ∧
    adj (sh_heap sh) (sh_head sh) (sh_tail sh) xs k p c ∧ k ≤ kc ∧ (k ∈ S ↔ kc = k).
Proof.
  intros Hq. pose proof coarse_thread_key as Hkey. pose proof coarse_thread_pc as Hpc.
  destruct list_of_holder as [HD Hl]; [by rewrite Hq..|].
  rewrite Hq, HD in Hpc. cbn in Hpc. rewrite !(left_id_L ∅ (∪)) in Hpc.
  destruct Hpc as (Hfr & Ha & kc & nx & Hkc & Hle). exists kc, nx.
  rewrite <- (i_set _ _ _ _ _ HI).
  pose proof (adj_mem _ _ _ _ Hl _ _ _ _ _ (proj2 Hkey) Ha Hkc Hle). tauto.
Qed.

Lemma coarse_link_ok n p c H' :
  q = Link n p c → set_next (sh_heap sh) p (Some n) = Some H' →
  step_ok cs S i o k q (heap_upd sh H') (inl (Link2 n p c)).
Proof.
  pose proof coarse_thread_pc as Hpc. pose proof list_of_holder as Hlh. intros -> Hs.
  destruct Hlh as [HD Hl]; [done..|]. rewrite HD in Hpc. cbn in Hpc.
  rewrite !(left_id_L ∅ (∪)) in Hpc. destruct Hpc as (-> & Hfr & Ha & Hk).
  destruct (adj_split _ _ _ _ Hl _ _ _ Ha) as (l1 & kp & kc & nx & l2 & _ & Hp & Hc & _ & Hpc).
  destruct (adj_live _ _ _ _ Hl _ _ _ Ha) as [Hlp _].
  assert (n ∉ (entries (sh_head sh) (sh_tail sh) xs).*1) as Hn by by eapply (i_dead _ _ _ _ _ HI).
  unfold set_next in Hs. rewrite Hp in Hs. simplify_eq/=. exists (contents xs).
  split; [|by rewrite (i_set _ _ _ _ _ HI)].
  set (D' := {[p:=Node kp (Some c)]} : gmap nat node). exists D', xs.
  assert (D' ∪ <[p:=Node kp (Some n)]> (sh_heap sh) = sh_heap sh) as Hu.
  { subst D'. rewrite insert_union_singleton_l, (assoc_L (∪)), <- insert_union_singleton_l.
    rewrite insert_singleton_eq, <- insert_union_singleton_l. by apply insert_id. }
  apply (coarse_inv_write _ _ _ _ _ HI _ _ _ _ Hi); try done.
  - by rewrite Hu.
  - cbn. rewrite Hu. destruct Hfr as (a & [= <-] & Hfr). split_and!; [done|..].
    + exists n. split; [done|]. rewrite lookup_insert_ne; [done|]. intros ->. done.
    + done.
    + done.
    + exists kp. subst D'. by rewrite lookup_singleton_eq, lookup_insert_eq.
  - cbn. intros a [= <-]. auto.
  - auto.
  - intros a Hne. left. destruct (decide (a = p)) as [->|]; [done|]. by rewrite lookup_insert_ne in Hne.
  - subst D'. intros a [nd [<- _]%lookup_singleton_Some]. rewrite lookup_insert_eq. eauto.
Qed.

Lemma coarse_link2_ok n p c H' :
  q = Link2 n p c → set_next (sh_heap sh) n (Some c) = Some H' →
  step_ok cs S i o k q (heap_upd sh H') (inl (Unlock true None)).
Proof.
  pose proof coarse_thread_pc as Hpc. pose proof coarse_thread_key as Hkey. intros -> Hs. cbn in Hpc.
  destruct Hpc as (-> & (a & [= <-] & Hn) & Ha & (kc & nx & Hc & Hlt) & kp & HD & HH).
  pose proof (i_list _ _ _ _ _ HI) as Hl.
  assert (n ∉ (entries (sh_head sh) (sh_tail sh) xs).*1) as Hnl by by eapply (i_dead _ _ _ _ _ HI).
  destruct (adj_live _ _ _ _ Hl _ _ _ Ha) as [Hlp _].
  assert (n ≠ p) as Hnp by by intros ->.
  assert (D = {[p:=Node kp (Some c)]}) as HD'.
  { apply map_eq. intros a. destruct (decide (a = p)) as [->|Hne]; [by rewrite lookup_singleton_eq|].
    rewrite lookup_singleton_ne by done. destruct (D !! a) eqn:Hda; [|done].
    destruct (holder_pend _ _ _ _ _ HI _ _ _ _ Hi a) as (? & ? & ?); [done|by rewrite Hda|]. congruence. }
  destruct (adj_link _ _ _ _ Hl k p c kc nx n kp) as (xs' & Hl' & Hx' & Hlv); try done.
  { by rewrite (lookup_union_Some_l _ _ _ _ HD). }
  assert (k ∉ contents xs) as Hnk.
  { rewrite (adj_mem _ _ _ _ Hl _ _ _ _ _ (proj2 Hkey) Ha Hc); lia. }
  unfold set_next in Hs. rewrite Hn in Hs. injection Hs as <-. exists (contents xs'). split.
  - exists ∅, xs'. apply (coarse_inv_write _ _ _ _ _ HI _ _ _ _ Hi); try done.
    + rewrite (left_id_L ∅ (∪)). rewrite HD' in Hl'.
      rewrite insert_union_l, insert_singleton_eq, <- insert_union_singleton_l in Hl'.
      by rewrite (insert_id (sh_heap sh) p) in Hl'.
    + intros a [->|?]%Hlv; auto.
    + intros a Hne. right. cbn. destruct (decide (a = n)) as [->|]; [done|]. by rewrite lookup_insert_ne in Hne.
    + intros a [? ?]. by rewrite lookup_empty in *.
  - cbn. rewrite Hx', (i_set _ _ _ _ _ HI) in *. rewrite bool_decide_eq_false_2; done.
Qed.

Lemma coarse_list_add_ok m sh' r : o = OAdd → list_add i m sh k q = Some (sh', r) → step_ok cs S i o k q sh' r.
Proof.
  intros Ho Hs. pose proof coarse_test_ok as Htest. pose proof coarse_link_ok as Hlink. pose proof coarse_link2_ok as Hlink2.
  pose proof coarse_search_ok as Hsearch. pose proof coarse_pc_step_ok as Hstep. pose proof coarse_thread_pc as Hpc.
  destruct q as [|n|n|n p c|n p c|[n|] p c|n p c|n p c| | |b f|] eqn:Hq; try by apply Hsearch.
  - cbn in Hs. destruct (sh_heap sh !! m) eqn:Hm; [done|]. simplify_eq/=.
    exists S. split; [|done]. exists D, xs.
    apply (coarse_inv_private _ _ _ _ _ HI _ _ _ _ Hi _ (Some (Lock (Some m)))); [done|..].
    + intros a Hne. right. destruct (decide (a = m)) as [->|]; [done|]. by rewrite lookup_insert_ne in Hne.
    + split_and!; [|done|by intros ? [= <-]]. exists m. by rewrite lookup_insert_eq.
  - destruct (Htest _ _ _ eq_refl) as (kc & nx & Hkc & Hfr & HD & Hl & Ha & Hle & Hmem).
    cbn in Hs. rewrite Hkc in Hs. cbn in Hs. destruct (Z.eqb_spec kc k) as [->|Hne]; simplify_eq.
    + apply Hstep; try done. cbn. rewrite bool_decide_eq_true_2; tauto.
    + apply Hstep; try done. cbn. rewrite !(left_id_L ∅ (∪)). split_and!; try done.
      exists kc, nx. split; [done|lia].
  - cbn in Hs. destruct (set_next _ _ _) eqn:Hsn; simplify_eq/=. by apply Hlink.
  - cbn in Hs. destruct (set_next _ _ _) eqn:Hsn; simplify_eq/=. by apply (Hlink2 n p c).
Qed.

Lemma coarse_unlink_ok p c nx H' :
  q = UnlinkW p c nx → set_next (sh_heap sh) p nx = Some H' →
  step_ok cs S i o k q (heap_upd sh H') (inl (Unlock true (Some c))).
Proof.
  pose proof coarse_thread_pc as Hpc. pose proof coarse_thread_key as Hkey. pose proof list_of_holder as Hlh.
  intros -> Hs. destruct Hlh as [HD Hl]; [done..|]. rewrite HD in Hpc. cbn in Hpc.
  rewrite !(left_id_L ∅ (∪)) in Hpc. destruct Hpc as (-> & Ha & Hc).
  destruct (adj_split _ _ _ _ Hl _ _ _ Ha) as (l1 & kp & kc & nx' & l2 & _ & Hp & _ & _ & Hpc).
  destruct (adj_live _ _ _ _ Hl _ _ _ Ha) as [Hlp Hlc].
  destruct (adj_unlink _ _ _ _ Hl k p c nx kp) as (xs' & Hl' & Hx' & Hlv); try done.
  assert (k ∈ contents xs) as Hk by by apply (adj_mem _ _ _ _ Hl _ _ _ _ _ (proj2 Hkey) Ha Hc).
  unfold set_next in Hs. rewrite Hp in Hs. injection Hs as <-. exists (contents xs'). split.
  - exists ∅, xs'. apply (coarse_inv_write _ _ _ _ _ HI _ _ _ _ Hi); try done.
    + by rewrite (left_id_L ∅ (∪)).
    + cbn. split_and!; try done. rewrite lookup_insert_ne by done. eauto.
    + intros a [= <-]. rewrite Hlv. split; [tauto|by right].
    + intros a [_ ?]%Hlv. auto.
    + intros a Hne. left. destruct (decide (a = p)) as [->|]; [done|]. by rewrite lookup_insert_ne in Hne.
    + intros a [? ?]. by rewrite lookup_empty in *.
  - cbn. rewrite Hx', (i_set _ _ _ _ _ HI) in *. by rewrite bool_decide_eq_true_2.
Qed.

Lemma coarse_list_remove_ok sh' r : o = ORemove → list_remove i sh k q = Some (sh', r) → step_ok cs S i o k q sh' r.
Proof.
  intros Ho Hs. pose proof coarse_test_ok as Htest. pose proof coarse_unlink_ok as Hunlink.
  pose proof coarse_search_ok as Hsearch. pose proof coarse_pc_step_ok as Hstep. pose proof coarse_thread_pc as Hpc.
  pose proof list_of_holder as Hlh.
  destruct q as [|n|n|n p c|n p c|n p c|n p c|n p c|p c|p c nx|b f|c] eqn:Hq; try by apply Hsearch.
  - destruct (Htest _ _ _ eq_refl) as (kc & nx & Hkc & Hfr & HD & Hl & Ha & Hle & Hmem).
    cbn in Hs. rewrite Hkc in Hs. cbn in Hs. destruct (Z.eqb_spec kc k) as [->|Hne]; simplify_eq/=.
    + apply Hstep; try done. cbn. rewrite !(left_id_L ∅ (∪)). split_and!; try done. by exists k, nx.
    + apply Hstep; try done. cbn. rewrite bool_decide_eq_false_2; tauto.
  - destruct Hlh as [HD Hl]; [done..|]. rewrite HD in Hpc, Hstep. cbn in Hpc, Hstep.
    rewrite !(left_id_L ∅ (∪)) in Hpc. destruct Hpc as (_ & Ha & kc & nx & Hkc & ->).
    cbn in Hs. rewrite Hkc in Hs. simplify_eq/=. apply Hstep; try done. cbn. by rewrite (left_id_L ∅ (∪)).
  - cbn in Hs. destruct (set_next _ _ _) eqn:Hsn; simplify_eq/=. by apply (Hunlink p c nx).
  - cbn in Hs. destruct (sh_heap sh !! c) eqn:Hc; simplify_eq/=.
    exists S. split; [|done]. exists D, xs.
    apply (coarse_inv_private _ _ _ _ _ HI _ _ _ _ Hi _ None); [done| |done].
    intros a Hne. left. destruct (decide (a = c)) as [->|]; [done|]. by rewrite lookup_delete_ne in Hne.
Qed.

Lemma coarse_list_contains_ok sh' r :
  o = OContains → list_contains i sh k q = Some (sh', r) → step_ok cs S i o k q sh' r.
Proof.
  intros Ho Hs. pose proof coarse_test_ok as Htest. pose proof coarse_search_ok as Hsearch. pose proof coarse_pc_step_ok as Hstep.
  destruct q as [|n|n|n p c|n p c|n p c|n p c|n p c|p c|p c nx|b f|c] eqn:Hq; try by apply Hsearch.
  destruct (Htest _ _ _ eq_refl) as (kc & nx & Hkc & Hfr & HD & Hl & Ha & Hle & Hmem).
  cbn in Hs. rewrite Hkc in Hs. simplify_eq/=. apply Hstep; try done. cbn. f_equal.
  apply eq_true_iff_eq. rewrite bool_decide_eq_true, Z.eqb_eq. done.
Qed.

(** A thread is never stuck but for the mutex held by another thread. *)
Lemma coarse_op_enabled : op_waits sh q = false → ∃ m r, op_step i m sh o k q = Some r.
Proof.
  intros He. pose proof coarse_thread_pc as Hpc. pose proof coarse_thread_key as Hkey. pose proof coarse_test_ok as Htest.
  pose proof list_of_holder as Hlh. pose proof (i_list _ _ _ _ _ HI) as Hl.
  destruct q as [|n|n|n p c|n p c|n p c|n p c|n p c|p c|p c nx|b f|c]; cbn in Hpc;
    try (destruct Hlh as [HD Hl']; [done..|]; rewrite ?HD, ?(left_id_L ∅ (∪)) in Hpc).
  - exists (fresh (dom (sh_heap sh))). subst o. cbn.
    rewrite (proj1 (not_elem_of_dom _ _)) by apply is_fresh. eauto.
  - exists 0%nat. cbn in He. destruct (sh_lk sh) eqn:Hlk; [done|]. destruct o; cbn; rewrite Hlk; eauto.
  - exists 0%nat. destruct (adj_head _ _ _ _ Hl' k) as (c & Hc & _). destruct o; cbn; rewrite Hc; cbn; eauto.
  - exists 0%nat. destruct Hpc as [_ Ha]. destruct (adj_live _ _ _ _ Hl' _ _ _ Ha) as [_ Hc].
    destruct (live_lookup _ _ _ _ Hl' c Hc) as (kc & nx & Hkc). destruct o; cbn; rewrite Hkc; cbn; eauto.
  - exists 0%nat. destruct Hpc as (_ & Ha & Hka).
    destruct (adj_next _ _ _ _ Hl' _ _ _ (proj2 Hkey) Ha Hka) as (kc & c' & Hc & _).
    destruct o; cbn; rewrite Hc; cbn; eauto.
  - exists 0%nat. destruct Hpc as (Hfr & Ha & kc & nx & Hkc & _).
    destruct o; cbn in *; [destruct Hfr as (a & -> & _)|..]; cbn; rewrite Hkc; cbn; eauto.
  - exists 0%nat. destruct Hpc as (-> & _ & (_ & kp & Hp & _) & _). cbn. unfold set_next. rewrite Hp. cbn. eauto.
  - exists 0%nat. destruct Hpc as (-> & (a & [= <-] & Hn) & _). cbn. unfold set_next. rewrite Hn. cbn. eauto.
  - exists 0%nat. destruct Hpc as (-> & _ & kc & nx & Hkc & _). cbn. rewrite Hkc. cbn. eauto.
  - exists 0%nat. destruct Hpc as (-> & (_ & kp & Hp & _) & _). cbn. unfold set_next. rewrite Hp. cbn. eauto.
  - exists 0%nat. destruct o; cbn; eauto.
  - exists 0%nat. destruct Hpc as (-> & nd & Hc). cbn. rewrite Hc. cbn. eauto.
Qed.

End steps.

(** * The interface *)

Lemma coarse_inv_init h t n : h ≠ t → inv (Shared (list_init h t) h t None) (replicate n None) ∅ ∅ [].
Proof.
  intros Hne. assert (∀ i x, replicate n (None : opstate) !! i = Some (Some x) → False) as Hn.
  { intros i x. rewrite lookup_replicate. naive_solver. }
  constructor; cbn.
  - rewrite (left_id_L ∅ (∪)). by apply list_init_is_list.
  - done.
  - by intros ???? []%Hn.
  - done.
  - by intros ????????? []%Hn.
  - by intros ????? []%Hn.
  - intros a [? ?]. by rewrite lookup_empty in *.
Qed.

Lemma coarse_inv_call sh cs S D xs i o k :
  inv sh cs S D xs → cs !! i = Some None → key_ok k →
  inv sh (<[i:=Some (o, k, op_start o)]> cs) S D xs.
Proof.
  intros HI Hi Hk. assert (sh_lk sh ≠ Some i) as Hli.
  { intros (? & ? & ? & Hc & ?)%(i_lock _ _ _ _ _ HI). pose proof (eq_trans (eq_sym Hi) Hc). discriminate. }
  constructor; [apply HI|apply HI|..].
  - intros j o' k' q' [[<- Hj]|[Hne Hj]]%lookup_insert_inv; [|by apply (i_pc _ _ _ _ _ HI)].
    injection Hj as -> -> ->. split_and!; [done|by destruct o|]. by destruct o.
  - intros j Hj. rewrite list_lookup_insert_ne by congruence. by apply (i_lock _ _ _ _ _ HI).
  - assert (∀ a, owned (op_start o) = Some a → False) as Hno by by destruct o.
    intros j1 j2 o1 k1 q1 o2 k2 q2 a [[<- H1]|[Hn1 H1]]%lookup_insert_inv
      [[<- H2]|[Hn2 H2]]%lookup_insert_inv Ho1 Ho2; [done|..|by eapply (i_own _ _ _ _ _ HI)];
      simplify_eq; exfalso; by eapply Hno.
  - intros j o' k' q' a [[<- Hj]|[Hne Hj]]%lookup_insert_inv; [|by eapply (i_dead _ _ _ _ _ HI)].
    simplify_eq. by destruct o.
  - intros a (? & ? & j & o' & k' & n & c & Hj)%(i_pend _ _ _ _ _ HI). split_and!; [done..|].
    exists j, o', k', n, c. rewrite list_lookup_insert_ne; [done|]. intros ->. pose proof (eq_trans (eq_sym Hi) Hj). discriminate.
Qed.

Lemma coarse_op_step_ok sh cs S D xs i m o k q sh' r :
  inv sh cs S D xs → cs !! i = Some (Some (o, k, q)) → op_step i m sh o k q = Some (sh', r) →
  step_ok cs S i o k q sh' r.
Proof.
  intros HI Hi Hs. destruct o; cbn in Hs; [by eapply coarse_list_add_ok|by eapply coarse_list_remove_ok|by eapply coarse_list_contains_ok].
Qed.

#[export] Instance coarse_spec : ListSpec coarse.
Proof.
  refine {| list_inv sh cs S := ∃ D xs, inv sh cs S D xs; mem_ok _ := True |}.
  - intros h t mem n Hne _. exists ∅, []. by apply coarse_inv_init.
  - intros sh cs S i o k (D & xs & HI) Hi Hk. exists D, xs. by apply coarse_inv_call.
  - by intros [].
  - intros sh cs S i m o k q sh' q' (D & xs & HI) Hi Hs. exact (coarse_op_step_ok _ _ _ _ _ _ _ _ _ _ _ _ HI Hi Hs).
  - intros sh cs S i m o k q sh' b (D & xs & HI) Hi Hs. exact (coarse_op_step_ok _ _ _ _ _ _ _ _ _ _ _ _ HI Hi Hs).
  - intros sh cs S (D & xs & HI) Hn. exists xs. split; [|apply HI].
    pose proof (i_list _ _ _ _ _ HI) as Hl. replace (sh_heap sh) with (D ∪ sh_heap sh); [done|].
    replace D with (∅ : gmap nat node); [by rewrite (left_id_L ∅ (∪))|]. apply map_eq. intros a.
    rewrite lookup_empty. destruct (D !! a) eqn:Ha; [exfalso|done].
    destruct (i_pend _ _ _ _ _ HI a) as (_ & _ & j & o & k & x & c & Hj); [by rewrite Ha|].
    rewrite Forall_lookup in Hn. by specialize (Hn _ _ Hj).
  - intros sh cs S i [[o k] q] (D & xs & HI) Hi. destruct (op_waits sh q) eqn:Hw.
    + assert (∃ j, sh_lk sh = Some j) as [j Hlk] by (destruct q; cbn in Hw; try done; case_match; by eauto).
      destruct (i_lock _ _ _ _ _ HI j Hlk) as (o' & k' & q' & Hj & Hh).
      destruct (coarse_op_enabled _ _ _ _ _ HI _ _ _ _ Hj) as (m & r & Hr); [by destruct q'|].
      by exists j, m, o', k', q', r.
    + destruct (coarse_op_enabled _ _ _ _ _ HI _ _ _ _ Hi) as (m & r & Hr); [done|].
      by exists i, m, o, k, q, r.
  - intros sh cs S i o k q (D & xs & HI) Hi. destruct (op_waits sh q) eqn:Hw; [by left|right].
    by apply (coarse_op_enabled _ _ _ _ _ HI _ _ _ _ Hi).
Defined.

(** * The program *)

(** C14: the coarse-grained list program is linearizable, for workloads with keys from [INT_MIN] up to
    below [INT_MAX]: when [main] ends, the history of calls and returns
    of the run is a complete history of the atomic set, in which every operation takes
    effect at one instant between its call and its return (so the order of operations
    that do not overlap is kept) and returns what its thread got, and the final
    validation prints "correct!" exactly when the result file lists the set at the end
    of that history in increasing order. *)
Theorem coarse_main_correct expected h t works hist s v :
  h ≠ t → Forall (Forall (λ w, key_ok (w_value w))) works →
  run (lhstep expected) (linit (L:=coarse) h t tt works) hist s → l_main s = LDone v →
  ∃ S, run spec_step (spec_init works) hist (ASpec S ((λ th, AThread [] None (t_rets th)) <$> l_ts s)) ∧
    (v = true ↔ StronglySorted Z.lt expected ∧ list_to_set expected = S).
Proof. intros Hne Hk. by apply (list_main_output (LS:=coarse_spec) expected h t tt works Hne I Hk). Qed.

(** The coarse-grained list program never deadlocks (some step is possible until [main]
    has ended), and no thread is ever stuck at a freed or unallocated node: every created
    thread has finished, waits for the mutex held by another, or can make its next
    access; for keys from [INT_MIN] up to below [INT_MAX]. *)
Theorem coarse_main_progress expected h t works s :
  h ≠ t → Forall (Forall (λ w, key_ok (w_value w))) works →
  reachable (linit (L:=coarse) h t tt works) (lstep expected) s →
  ((∃ v, l_main s = LDone v) ∨ ∃ s', lstep expected s s') ∧
  ∀ i th, l_ts s !! i = Some th → lcreated (l_main s) i = true →
    thread_done th = true ∨ waiting s i = true ∨ ∃ c s', lnext expected (LThread i c) s = Some s'.
Proof. intros Hne Hk. by apply (list_main_progress (LS:=coarse_spec) expected h t tt works Hne I Hk). Qed.

(** A run with two threads: thread 0 adds 7 and 3, thread 1 removes 7 and asks for 3. *)
Definition sample_works : list (list work) :=
  [[Work "A" 7; Work "A" 3]; [Work "R" 7; Work "C" 3]].

Definition sample_sched : list lsched :=
  [LMain; LMain; LMain] ++ replicate 7 (LThread 0 5) ++ [LThread 1 0] ++ replicate 2 (LThread 0 5) ++
  replicate 8 (LThread 1 0) ++ replicate 9 (LThread 0 6) ++ replicate 6 (LThread 1 0) ++ replicate 3 LMain.

Definition sample_state : lstate :=
  Eval vm_compute in default (linit 0 1 tt sample_works) (run_sched (lnext [3]) sample_sched (linit 0 1 tt sample_works)).

Definition sample_hist : list event :=
  Eval vm_compute in
    match run_hist [3] sample_sched (linit 0 1 tt sample_works) with Some (hist, _) => hist | None => [] end.

Lemma coarse_sample : run (lhstep [3]) (linit 0 1 tt sample_works) sample_hist sample_state.
Proof.
  apply (run_hist_run [3] sample_sched). vm_cast_no_check (eq_refl (Some (sample_hist, sample_state))).
Qed.

Lemma sample_keys : Forall (Forall (λ w, key_ok (w_value w))) sample_works.
Proof. repeat (apply Forall_cons; split) || apply Forall_nil; repeat constructor; done. Qed.

Lemma coarse_main_correct_witness :
  l_main sample_state = LDone true ∧ t_rets <$> l_ts sample_state = [[true; true]; [true; true]] ∧
  sample_hist =
    [Call 0 OAdd 7; Call 1 ORemove 7; Return 0 true; Return 1 true;
    Call 0 OAdd 3; Return 0 true; Call 1 OContains 3; Return 1 true] ∧
  ∃ S, run spec_step (spec_init sample_works) sample_hist
    (ASpec S ((λ th, AThread [] None (t_rets th)) <$> l_ts sample_state)) ∧
    (true = true ↔ StronglySorted Z.lt [3] ∧ list_to_set [3] = S).
Proof.
  split; [reflexivity|]. split; [reflexivity|]. split; [reflexivity|].
  apply (coarse_main_correct [3] 0 1 sample_works sample_hist);
    [done|apply sample_keys|apply coarse_sample|reflexivity].
Defined.

(** The same run stopped while thread 1 waits for the mutex that thread 0 holds. *)
Definition wait_state : lstate :=
  Eval vm_compute in default (linit 0 1 tt sample_works)
    (run_sched (lnext [3]) (take 11 sample_sched) (linit 0 1 tt sample_works)).

Lemma coarse_wait : reachable (linit 0 1 tt sample_works) (lstep [3]) wait_state.
Proof. apply (run_sched_rtc (lnext [3]) (take 11 sample_sched)). vm_cast_no_check (eq_refl (Some wait_state)). Qed.

Lemma coarse_main_progress_witness :
  lnext [3] (LThread 1 0) wait_state = None ∧ waiting wait_state 1 = true ∧
  ((∃ v, l_main wait_state = LDone v) ∨ ∃ s', lstep [3] wait_state s') ∧
  ∀ i th, l_ts wait_state !! i = Some th → lcreated (l_main wait_state) i = true →
    thread_done th = true ∨ waiting wait_state i = true ∨ ∃ c s', lnext [3] (LThread i c) wait_state = Some s'.
Proof.
  split; [reflexivity|]. split; [reflexivity|].
  apply (coarse_main_progress [3] 0 1 sample_works);
    [done|apply sample_keys|apply coarse_wait].
Defined.

(** Keys are not checked: removing [INT_MAX] unlinks and frees the tail sentinel, and
    the next operation reads through the null [next] of the head: the state below is
    not final and nothing can run. *)
Definition bad_works : list (list work) := [[Work "R" INT_MAX; Work "C" 3]].
Definition bad_sched : list lsched := [LMain; LMain] ++ replicate 11 (LThread 0 0).

Definition bad_state : lstate :=
  Eval vm_compute in default (linit 0 1 tt bad_works) (run_sched (lnext []) bad_sched (linit 0 1 tt bad_works)).

Lemma coarse_remove_tail :
  reachable (linit 0 1 tt bad_works) (lstep []) bad_state ∧ l_main bad_state = LJoin 0 ∧
  sh_heap (l_sh bad_state) !! sh_tail (l_sh bad_state) = None ∧ ∀ d, lnext [] d bad_state = None.
Proof.
  split; [apply (run_sched_rtc (lnext []) bad_sched); vm_cast_no_check (eq_refl (Some bad_state))|].
  split; [reflexivity|]. split; [reflexivity|]. intros [|[|i] c]; reflexivity.
Qed.

End Coarse.
