(* ===== verification/FineList.v ===== *)
(** The fine-grained list (src/Lab11/fine_grained.cpp): every node has a mutex, and the
    search holds the mutexes of [prev] and [curr] hand over hand.  A node is freed
    after both mutexes have been released; the invariant shows that no other thread
    can then still reach it. *)

From S2P Require Import Prelude ListHeap ListClient NodeLocks.

Local Open Scope Z_scope.

Module Fine.

(** Program counters, with the local variables: [n] is [node] (of [list_add]), [p] is
    [prev], [c] is [curr]. *)
Inductive pc :=
  | Alloc
  | LockP (n : option nat)
  | Head (n : option nat)
  | LockC (n : option nat) (p c : nat)
  | Loop (n : option nat) (p c : nat)
  | UnlockP (n : option nat) (p c : nat)
  | Next (n : option nat) (c : nat)
  | Test (n : option nat) (p c : nat)
  | Link (n p c : nat)
  | Link2 (n p c : nat)
  | UnlinkR (p c : nat)
  | UnlinkW (p c : nat) (nx : option nat)
  | RelP (b : bool) (p c : nat) (f : option nat)
  | RelC (b : bool) (c : nat) (f : option nat)
  | Free (c : nat).

(** The mutexes of the nodes: the locked ones, with the thread that holds them. *)
Notation shared := nshared.

(** What the three operations share: locking the head and its successor, the search
    loop, and the two unlocks before the return (or before [free]). *)
Definition search (i : nat) (sh : shared) (k : Z) (q : pc) : option (shared * (pc + bool)) :=
  match q with
  | LockP n => sh' ← lock i sh (sh_head sh); Some (sh', inl (Head n))
  | Head n => nd ← sh_heap sh !! sh_head sh; c ← next nd; Some (sh, inl (LockC n (sh_head sh) c))
  | LockC n p c => sh' ← lock i sh c; Some (sh', inl (Loop n p c))
  | Loop n p c => nd ← sh_heap sh !! c; Some (sh, inl (if key nd <? k then UnlockP n p c else Test n p c))
  | UnlockP n p c => sh' ← unlock sh p; Some (sh', inl (Next n c))
  | Next n c => nd ← sh_heap sh !! c; c' ← next nd; Some (sh, inl (LockC n c c'))
  | RelP b p c f => sh' ← unlock sh p; Some (sh', inl (RelC b c f))
  | RelC b c f => sh' ← unlock sh c; Some (sh', match f with Some c => inl (Free c) | None => inr b end)
  | _ => None
  end.

(** [list_add]; [m] is the address [malloc] returns: its mutex is initialized, its
    [next] is not. *)
Definition list_add (i m : nat) (sh : shared) (k : Z) (q : pc) : option (shared * (pc + bool)) :=
  match q with
  | Alloc =>
      match sh_heap sh !! m with
      | None => Some (Shared (<[m:=Node k None]> (sh_heap sh)) (sh_head sh) (sh_tail sh) (delete m (sh_lk sh)),
                      inl (LockP (Some m)))
      | Some _ => None
      end
  | Test (Some n) p c =>
      nd ← sh_heap sh !! c;
      Some (sh, inl (if key nd =? k then RelP false p c None else Link n p c))
  | Link n p c => H ← set_next (sh_heap sh) p (Some n); Some (heap_upd sh H, inl (Link2 n p c))
  | Link2 n p c => H ← set_next (sh_heap sh) n (Some c); Some (heap_upd sh H, inl (RelP true p c None))
  | _ => search i sh k q
  end.

Definition list_remove (i : nat) (sh : shared) (k : Z) (q : pc) : option (shared * (pc + bool)) :=
  match q with
  | Test n p c =>
      nd ← sh_heap sh !! c;
      Some (sh, inl (if negb (key nd =? k) then RelP false p c None else UnlinkR p c))
  | UnlinkR p c => nd ← sh_heap sh !! c; Some (sh, inl (UnlinkW p c (next nd)))
  | UnlinkW p c nx => H ← set_next (sh_heap sh) p nx; Some (heap_upd sh H, inl (RelP true p c (Some c)))
  | Free c => nd ← sh_heap sh !! c; Some (heap_upd sh (delete c (sh_heap sh)), inr true)
  | _ => search i sh k q
  end.

Definition list_contains (i : nat) (sh : shared) (k : Z) (q : pc) : option (shared * (pc + bool)) :=
  match q with
  | Test n p c => nd ← sh_heap sh !! c; Some (sh, inl (RelP (key nd =? k) p c None))
  | _ => search i sh k q
  end.

(** [list_init] does not initialize the mutexes of the sentinels: they hold what the
    memory held. *)
#[export] Instance fine : ListImpl := {
  lk := gmap nat nat;
  lk_mem := node_mem;
  lk_init := node_lk_init;
  opc := pc;
  op_start o := match o with OAdd => Alloc | _ => LockP None end;
  op_step i m sh o k q :=
    match o with
    | OAdd => list_add i m sh k q
    | ORemove => list_remove i sh k q
    | OContains => list_contains i sh k q
    end;
  op_waits sh q :=
    match q with LockP _ => mutex_held sh (sh_head sh) | LockC _ _ c => mutex_held sh c | _ => false end;
  lin q := match q with RelP b _ _ _ | RelC b _ _ => Some b | Free _ => Some true | _ => None end;
}.

(** The other functions of the file: [list_init], [ThreadFunc], and [main], first up to
    [list_init] with the tokens of workload.txt, then its steps. *)
Definition init (h t : nat) (mem : node_mem) : ListClient.shared (@lk fine) :=
  Shared (list_init h t) h t (@lk_init fine h t mem).
Definition ThreadFunc := thread_step (L:=fine).
Definition main_start (h t : nat) (mem : node_mem) (toks : list token) : option (lstate (H:=fine)) :=
  works ← read_workload toks; Some (linit (L:=fine) h t mem works).
Definition main_step := lmain_step (L:=fine).

(** * The invariant *)

(** The mutexes a thread holds. *)
Definition lockset (head : nat) (q : pc) : list nat :=
  match q with
  | Alloc | LockP _ | Free _ => []
  | Head _ => [head]
  | LockC _ p _ => [p]
  | Next _ c | RelC _ c _ => [c]
  | Loop _ p c | UnlockP _ p c | Test _ p c | Link _ p c | Link2 _ p c
  | UnlinkR p c | UnlinkW p c _ | RelP _ p c _ => [p; c]
  end.

(** The node a thread owns privately: allocated and not linked, or unlinked and not
    freed. *)
Definition owned (q : pc) : option nat :=
  match q with
  | LockP n | Head n | LockC n _ _ | Loop n _ _ | UnlockP n _ _ | Next n _ | Test n _ _ => n
  | Link n _ _ | Link2 n _ _ => Some n
  | RelP _ _ _ f | RelC _ _ f => f
  | Free c => Some c
  | _ => None
  end.

Section invariant.
Context (D H : gmap nat node) (head tail : nat) (xs : list (nat * Z)).

Notation live a := (a ∈ (entries head tail xs).*1).
Notation adj := (adj (D ∪ H) head tail xs).
Notation keyat := (keyat (D ∪ H)).

Definition fresh_ok (o : opk) (k : Z) (n : option nat) : Prop :=
  match o with OAdd => ∃ a, n = Some a ∧ H !! a = Some (Node k None) | _ => n = None end.

(** [curr] at the end: still in the list, or unlinked and about to be freed. *)
Definition end_ok (o : opk) (b : bool) (c : nat) (f : option nat) : Prop :=
  match f with
  | None => live c
  | Some c' => c' = c ∧ o = ORemove ∧ b = true ∧ is_Some (H !! c)
  end.

(** What holds of one thread; the list is read in the heap [D ∪ H], in which the
    half-finished links of [list_add] are not yet visible. *)
Definition pc_ok (o : opk) (k : Z) (q : pc) : Prop :=
  match q with
  | Alloc => o = OAdd
  | LockP n | Head n => fresh_ok o k n
  | LockC n p c | Loop n p c => fresh_ok o k n ∧ adj k p c
  | UnlockP n p c => fresh_ok o k n ∧ adj k p c ∧ keyat c (λ kc, kc < k)
  | Next n c => fresh_ok o k n ∧ live c ∧ keyat c (λ kc, kc < k)
  | Test n p c => fresh_ok o k n ∧ adj k p c ∧ keyat c (λ kc, k ≤ kc)
  | Link n p c => o = OAdd ∧ fresh_ok o k (Some n) ∧ adj k p c ∧ keyat c (λ kc, k < kc)
  | Link2 n p c => o = OAdd ∧ fresh_ok o k (Some n) ∧ adj k p c ∧ keyat c (λ kc, k < kc) ∧
      ∃ kp, D !! p = Some (Node kp (Some c)) ∧ H !! p = Some (Node kp (Some n))
  | UnlinkR p c => o = ORemove ∧ adj k p c ∧ keyat c (λ kc, kc = k)
  | UnlinkW p c nx => o = ORemove ∧ adj k p c ∧ (D ∪ H) !! c = Some (Node k nx)
  | RelP b p c f => live p ∧ p ≠ c ∧ end_ok o b c f
  | RelC b c f => end_ok o b c f
  | Free c => o = ORemove ∧ is_Some (H !! c)
  end.
End invariant.

Record inv (sh : shared) (cs : list opstate) (S : gset Z) (D : gmap nat node) (xs : list (nat * Z)) : Prop := {
  i_list : is_list (D ∪ sh_heap sh) (sh_head sh) (sh_tail sh) xs;
  i_set : contents xs = S;
  i_pc i o k q : cs !! i = Some (Some (o, k, q)) →
    key_ok k ∧ pc_ok D (sh_heap sh) (sh_head sh) (sh_tail sh) xs o k q;
  i_lock a i : sh_lk sh !! a = Some i ↔
    ∃ o k q, cs !! i = Some (Some (o, k, q)) ∧ a ∈ lockset (sh_head sh) q;
  i_own i j o k q o' k' q' a :
    cs !! i = Some (Some (o, k, q)) → cs !! j = Some (Some (o', k', q')) →
    owned q = Some a → owned q' = Some a → i = j;
  i_dead i o k q a : cs !! i = Some (Some (o, k, q)) → owned q = Some a →
    a ∉ (entries (sh_head sh) (sh_tail sh) xs).*1;
  i_pend a : is_Some (D !! a) → is_Some (sh_heap sh !! a) ∧
    ∃ i o k n c, cs !! i = Some (Some (o, k, Link2 n a c));
}.

(** * Stability of the invariant of a thread *)

Lemma fine_fresh_ok_frame (H H' : gmap nat node) o k n :
  (∀ a, n = Some a → H' !! a = H !! a) → fresh_ok H o k n → fresh_ok H' o k n.
Proof. destruct o; cbn; [|done..]. intros Hf (a & -> & Ha). exists a. by rewrite Hf. Qed.

(** A thread depends on the nodes it has locked and on the node it owns. *)
Lemma fine_pc_ok_frame D D' H H' hd tl xs xs' o k q :
  (∀ a, a ∈ lockset hd q ∨ owned q = Some a → H' !! a = H !! a ∧ D' !! a = D !! a) →
  (∀ a, a ∈ lockset hd q → a ∈ (entries hd tl xs).*1 → a ∈ (entries hd tl xs').*1) →
  pc_ok D H hd tl xs o k q → pc_ok D' H' hd tl xs' o k q.
Proof.
  intros Hf Hlv.
  assert (∀ a, a ∈ lockset hd q → (D' ∪ H') !! a = (D ∪ H) !! a) as Hu.
  { intros a Ha. destruct (Hf a) as [H1 H2]; [by auto|]. by rewrite !lookup_union, H1, H2. }
  assert (∀ p c, p ∈ lockset hd q → adj (D ∪ H) hd tl xs k p c → adj (D' ∪ H') hd tl xs' k p c) as Hadj.
  { intros p c Hp Ha. eapply adj_frame; [by apply Hu| |done]. apply Hlv; [done|]. by destruct Ha. }
  assert (∀ c P, c ∈ lockset hd q → keyat (D ∪ H) c P → keyat (D' ∪ H') c P) as Hkey.
  { intros c P Hc (kc & nx & ? & ?). exists kc, nx. by rewrite Hu. }
  assert (∀ n, (∀ a, n = Some a → owned q = Some a) → fresh_ok H o k n → fresh_ok H' o k n) as Hfr.
  { intros n Hn. apply fine_fresh_ok_frame. intros a ->. apply Hf. auto. }
  assert (∀ a, a ∈ lockset hd q ∨ owned q = Some a → is_Some (H !! a) → is_Some (H' !! a)) as Hsome.
  { intros a Ha. by destruct (Hf a Ha) as [-> _]. }
  assert (∀ b c f, c ∈ lockset hd q → end_ok H hd tl xs o b c f → end_ok H' hd tl xs' o b c f) as Hend.
  { intros b c [f|] Hc; cbn; [|by auto]. intros (-> & ? & ? & ?). split_and!; auto. }
  destruct q as [|n|n|n p c|n p c|n p c|n c|n p c|n p c|n p c|p c|p c nx|b p c f|b c f|c]; cbn [pc_ok lockset owned] in *; intros Hq;
    [done|by auto|by auto|..]; destruct_and?; split_and?; try done;
    try solve [apply Hadj; [set_solver|done] | eapply Hkey; [set_solver|done] | apply Hlv; [set_solver|done]
      | apply Hend; [set_solver|done] | apply Hfr; [by auto|done] | apply Hsome; [by auto|done]].
  - match goal with Hx : ∃ _, _ |- _ => destruct Hx as (kp & HD & HH) end. exists kp.
    destruct (Hf p) as [Hp1 Hp2]; [set_solver|]. by rewrite Hp1, Hp2.
  - rewrite Hu by set_solver. done.
Qed.

(** A locked node is in the list, or unlinked and owned. *)
Lemma lockset_live D H hd tl xs o k q a :
  is_list (D ∪ H) hd tl xs → pc_ok D H hd tl xs o k q → a ∈ lockset hd q →
  a ∈ (entries hd tl xs).*1 ∨ owned q = Some a.
Proof.
  intros Hl Hq. pose proof (adj_live _ _ _ _ Hl) as Hadj. pose proof (head_live _ _ _ _ Hl) as Hh.
  assert (∀ p c, adj (D ∪ H) hd tl xs k p c → a ∈ [p; c] → a ∈ (entries hd tl xs).*1) as Hpc.
  { intros p c [? ?]%Hadj [->|[->|[]%not_elem_of_nil]%elem_of_cons]%elem_of_cons; done. }
  assert (∀ b c f, end_ok H hd tl xs o b c f → a = c → a ∈ (entries hd tl xs).*1 ∨ f = Some a) as Hend.
  { intros b c [f|]; cbn; [intros (-> & _) ->; by right|intros ? ->; by left]. }
  destruct q as [|n|n|n p c|n p c|n p c|n c|n p c|n p c|n p c|p c|p c nx|b p c f|b c f|c];
    cbn [pc_ok lockset owned] in *; destruct_and?; intros Ha;
    try (by apply not_elem_of_nil in Ha); try (left; by eapply Hpc).
  - left. set_solver.
  - left. eapply Hpc; [done|]. set_solver.
  - left. set_solver.
  - apply elem_of_cons in Ha as [->|Ha]; [by left|]. eapply Hend; [done|]. set_solver.
  - eapply Hend; [done|]. set_solver.
Qed.

Lemma fine_owned_alloc D H hd tl xs o k q a :
  pc_ok D H hd tl xs o k q → owned q = Some a → is_Some (H !! a).
Proof.
  intros Hq Ho. assert (∀ n, fresh_ok H o k n → n = Some a → is_Some (H !! a)) as Hfr.
  { intros n Hn ->. destruct o; cbn in Hn; [|done..]. destruct Hn as (? & ? & ?). simplify_eq. eauto. }
  assert (∀ b c f, end_ok H hd tl xs o b c f → f = Some a → is_Some (H !! a)) as Hend.
  { intros b c f Hend ->. destruct Hend as (-> & _ & _ & ?). done. }
  destruct q; cbn in *; destruct_and?; simplify_eq; eauto.
Qed.

Lemma list_alloc D H sh cs S xs a :
  inv sh cs S D xs → sh_heap sh = H → a ∈ (entries (sh_head sh) (sh_tail sh) xs).*1 → is_Some (H !! a).
Proof.
  intros HI <- Ha. destruct (live_lookup _ _ _ _ (i_list _ _ _ _ _ HI) a Ha) as (ka & nx & Hu).
  destruct (D !! a) eqn:HD; [by eapply (i_pend _ _ _ _ _ HI); rewrite HD|].
  rewrite lookup_union_r in Hu by done. eauto.
Qed.

(** * One thread moves *)

Section move.
Context (sh : shared) (cs : list opstate) (S : gset Z) (D : gmap nat node) (xs : list (nat * Z)).
Hypothesis HI : inv sh cs S D xs.
Context (i : nat) (o : opk) (k : Z) (q : pc).
Hypothesis Hi : cs !! i = Some (Some (o, k, q)).

Notation live a := (a ∈ (entries (sh_head sh) (sh_tail sh) xs).*1).

(** What another thread has locked or owns is neither locked nor owned by [i], nor
    free memory. *)
Lemma fine_others_disjoint j o' k' q' a :
  j ≠ i → cs !! j = Some (Some (o', k', q')) → a ∈ lockset (sh_head sh) q' ∨ owned q' = Some a →
  a ∈ lockset (sh_head sh) q ∨ owned q = Some a ∨ sh_heap sh !! a = None → False.
Proof.
  intros Hne Hj Ha' Ha. destruct (i_pc _ _ _ _ _ HI _ _ _ _ Hj) as (_ & Hp').
  destruct (i_pc _ _ _ _ _ HI _ _ _ _ Hi) as (_ & Hp). pose proof (i_list _ _ _ _ _ HI) as Hl.
  assert (∀ j1 j2 o1 k1 q1 o2 k2 q2, j1 ≠ j2 → cs !! j1 = Some (Some (o1, k1, q1)) →
    cs !! j2 = Some (Some (o2, k2, q2)) → a ∈ lockset (sh_head sh) q1 → owned q2 = Some a → False) as Hlo.
  { intros j1 j2 o1 k1 q1 o2 k2 q2 Hj12 H1 H2 Hl1 Ho2.
    destruct (i_pc _ _ _ _ _ HI _ _ _ _ H1) as (_ & Hp1).
    destruct (lockset_live _ _ _ _ _ _ _ _ _ Hl Hp1 Hl1); [by eapply (i_dead _ _ _ _ _ HI)|].
    by eapply Hj12, (i_own _ _ _ _ _ HI). }
  destruct Ha' as [Ha'|Ha'], Ha as [Ha|[Ha|Ha]]; try (by eapply Hlo).
  - assert (sh_lk sh !! a = Some i) as H1 by (apply (i_lock _ _ _ _ _ HI); eauto).
    assert (sh_lk sh !! a = Some j) as H2 by (apply (i_lock _ _ _ _ _ HI); eauto). congruence.
  - destruct (lockset_live _ _ _ _ _ _ _ _ _ Hl Hp' Ha') as [Hv|Hv].
    + destruct (list_alloc _ _ _ _ _ _ _ HI eq_refl Hv). congruence.
    + destruct (fine_owned_alloc _ _ _ _ _ _ _ _ _ Hp' Hv). congruence.
  - eapply (Hlo i j); eauto.
  - by eapply Hne, (i_own _ _ _ _ _ HI).
  - destruct (fine_owned_alloc _ _ _ _ _ _ _ _ _ Hp' Ha'). congruence.
Qed.

(** The conditions under which the invariant is re-established, for a new shared
    state, a new ghost state and a new state [e] of thread [i]: what changes is
    locked or owned by [i], or was free memory. *)
Lemma fine_inv_move H' L' (D' : gmap nat node) xs' (e : option pc) :
  is_list (D' ∪ H') (sh_head sh) (sh_tail sh) xs' →
  (∀ a, H' !! a ≠ sh_heap sh !! a ∨ D' !! a ≠ D !! a ∨
        live a ∧ a ∉ (entries (sh_head sh) (sh_tail sh) xs').*1 →
     a ∈ lockset (sh_head sh) q ∨ owned q = Some a ∨ sh_heap sh !! a = None) →
  (∀ a, a ∈ (entries (sh_head sh) (sh_tail sh) xs').*1 → live a ∨ owned q = Some a) →
  (∀ a j, j ≠ i → L' !! a = Some j ↔ sh_lk sh !! a = Some j) →
  (∀ a, L' !! a = Some i ↔ ∃ q', e = Some q' ∧ a ∈ lockset (sh_head sh) q') →
  match e with
  | Some q' =>
      pc_ok D' H' (sh_head sh) (sh_tail sh) xs' o k q' ∧
      ∀ a, owned q' = Some a → a ∉ (entries (sh_head sh) (sh_tail sh) xs').*1 ∧
        (owned q = Some a ∨ live a ∨ sh_heap sh !! a = None)
  | None => True
  end →
  (∀ a, is_Some (D' !! a) → is_Some (H' !! a) ∧
    ((∃ n c, e = Some (Link2 n a c)) ∨ (∃ j o k n c, j ≠ i ∧ cs !! j = Some (Some (o, k, Link2 n a c))))) →
  inv (Shared H' (sh_head sh) (sh_tail sh) L') (<[i:=(λ q', (o, k, q')) <$> e]> cs) (contents xs') D' xs'.
Proof.
  intros Hlist Hch Hlive Hlk Hlki He Hpend.
  destruct (i_pc _ _ _ _ _ HI _ _ _ _ Hi) as (Hkey & Hpc).
  assert (i < length cs)%nat as Hlt by by eapply lookup_lt_Some.
  constructor; cbn [sh_heap sh_head sh_tail sh_lk]; [done|done|..].
  - intros j o' k' q' [[<- Hj]|[Hne Hj]]%lookup_insert_inv.
    + destruct e as [e|]; simplify_eq/=. by destruct He.
    + destruct (i_pc _ _ _ _ _ HI _ _ _ _ Hj) as (? & Hp'). split; [done|].
      pose proof (λ a, fine_others_disjoint j o' k' q' a (not_eq_sym Hne) Hj) as Hdis.
      eapply fine_pc_ok_frame; [..|done].
      * intros a Ha. specialize (Hdis a Ha). specialize (Hch a).
        destruct (decide (H' !! a = sh_heap sh !! a)), (decide (D' !! a = D !! a)); tauto.
      * intros a Ha Hv. destruct (decide (a ∈ (entries (sh_head sh) (sh_tail sh) xs').*1)) as [|Hn]; [done|].
        exfalso. apply (Hdis a); auto.
  - intros a j. destruct (decide (j = i)) as [->|Hne].
    + rewrite Hlki. rewrite list_lookup_insert_eq by done. destruct e as [q'|]; cbn; naive_solver.
    + rewrite list_lookup_insert_ne by done. rewrite Hlk by done. apply (i_lock _ _ _ _ _ HI).
  - assert (∀ j o' k' q' q1 a, e = Some q1 → j ≠ i → cs !! j = Some (Some (o', k', q')) →
      owned q1 = Some a → owned q' = Some a → False) as Hdis.
    { intros j o' k' q' q1 a -> Hne Hj Ho Ho'. destruct He as (_ & He).
      destruct (He a Ho) as [_ [Ho1|[Ha|Ha]]]; [|by eapply (i_dead _ _ _ _ _ HI)|];
        eapply (fine_others_disjoint j); eauto. }
    intros j1 j2 o1 k1 q1 o2 k2 q2 a [[<- H1]|[Hn1 H1]]%lookup_insert_inv
      [[<- H2]|[Hn2 H2]]%lookup_insert_inv Ho1 Ho2; [done|..|by eapply (i_own _ _ _ _ _ HI)].
    + destruct e as [e|]; simplify_eq/=. exfalso. by eapply (Hdis j2).
    + destruct e as [e|]; simplify_eq/=. exfalso. by eapply (Hdis j1).
  - intros j o' k' q' a [[<- Hj]|[Hne Hj]]%lookup_insert_inv Ho.
    + destruct e as [e|]; simplify_eq/=. destruct He as [_ He]. by destruct (He a Ho).
    + intros [Ha|Ha]%Hlive; [by eapply (i_dead _ _ _ _ _ HI)|].
      by eapply Hne, eq_sym, (i_own _ _ _ _ _ HI).
  - intros a (Ha & [(n & c & ->)|(j & o' & k' & n & c & Hne & Hj)])%Hpend; (split; [done|]).
    + exists i, o, k, n, c. by rewrite list_lookup_insert_eq.
    + exists j, o', k', n, c. by rewrite list_lookup_insert_ne.
Qed.

Definition is_link2 (q : pc) : bool := match q with Link2 _ _ _ => true | _ => false end.

(** The ghost entry of a node locked by [i] belongs to [i]. *)
Lemma pend_locked a : a ∈ lockset (sh_head sh) q → is_Some (D !! a) → ∃ n c, q = Link2 n a c.
Proof.
  intros Ha (_ & j & o' & k' & n & c & Hj)%(i_pend _ _ _ _ _ HI).
  assert (sh_lk sh !! a = Some i) as H1 by (apply (i_lock _ _ _ _ _ HI); eauto).
  assert (sh_lk sh !! a = Some j) as H2.
  { apply (i_lock _ _ _ _ _ HI). do 3 eexists. split; [exact Hj|]. cbn. set_solver. }
  simplify_eq. eauto.
Qed.

(** What a thread reads in a node it has locked is the list. *)
Lemma read_locked a :
  a ∈ lockset (sh_head sh) q → is_link2 q = false → (D ∪ sh_heap sh) !! a = sh_heap sh !! a.
Proof.
  intros Ha Hq. apply lookup_union_r. destruct (D !! a) as [nd|] eqn:HD; [exfalso|done].
  destruct (pend_locked a Ha) as (n & c & Hq'); [by rewrite HD|]. by rewrite Hq' in Hq.
Qed.

Lemma fine_pend_other a : is_link2 q = false → is_Some (D !! a) → is_Some (sh_heap sh !! a) ∧
  ((∃ n c : nat, None = Some (Link2 n a c)) ∨
   ∃ j o k n c, j ≠ i ∧ cs !! j = Some (Some (o, k, Link2 n a c))).
Proof.
  intros Hq (? & j & o' & k' & n & c & Hj)%(i_pend _ _ _ _ _ HI). split; [done|]. right.
  exists j, o', k', n, c. split; [|done]. intros ->. by simplify_eq.
Qed.

(** The effect of locking and unlocking on the lock table. *)
Definition locks_ok (L' : gmap nat nat) (ls : list nat) : Prop :=
  (∀ a j, j ≠ i → L' !! a = Some j ↔ sh_lk sh !! a = Some j) ∧ (∀ a, L' !! a = Some i ↔ a ∈ ls).

Lemma locks_mine a : sh_lk sh !! a = Some i ↔ a ∈ lockset (sh_head sh) q.
Proof.
  rewrite (i_lock _ _ _ _ _ HI). split; [|by eauto].
  intros (o' & k' & q' & Hj & Ha). by simplify_eq.
Qed.

Lemma locks_same ls : (∀ a, a ∈ ls ↔ a ∈ lockset (sh_head sh) q) → locks_ok (sh_lk sh) ls.
Proof. intros Hls. split; [done|]. intros a. by rewrite Hls, locks_mine. Qed.

Lemma locks_add b ls :
  sh_lk sh !! b = None → (∀ a, a ∈ ls ↔ a = b ∨ a ∈ lockset (sh_head sh) q) →
  locks_ok (<[b:=i]> (sh_lk sh)) ls.
Proof.
  intros Hb Hls. split.
  - intros a j Hne. destruct (decide (a = b)) as [->|]; [|by rewrite lookup_insert_ne].
    rewrite lookup_insert_eq, Hb. split; congruence.
  - intros a. rewrite Hls, <- locks_mine. destruct (decide (a = b)) as [->|].
    + rewrite lookup_insert_eq. tauto.
    + rewrite lookup_insert_ne by done. tauto.
Qed.

Lemma locks_del b ls :
  b ∈ lockset (sh_head sh) q → (∀ a, a ∈ ls ↔ a ≠ b ∧ a ∈ lockset (sh_head sh) q) →
  locks_ok (delete b (sh_lk sh)) ls.
Proof.
  intros Hb%locks_mine Hls. split.
  - intros a j Hne. destruct (decide (a = b)) as [->|]; [|by rewrite lookup_delete_ne].
    rewrite lookup_delete_eq, Hb. split; congruence.
  - intros a. rewrite Hls, <- locks_mine. destruct (decide (a = b)) as [->|].
    + rewrite lookup_delete_eq. split; [done|tauto].
    + rewrite lookup_delete_ne by done. tauto.
Qed.

(** A step that moves the program counter and changes the locks. *)
Lemma fine_inv_local L' (e : option pc) :
  is_link2 q = false → locks_ok L' (match e with Some q' => lockset (sh_head sh) q' | None => [] end) →
  match e with
  | Some q' => pc_ok D (sh_heap sh) (sh_head sh) (sh_tail sh) xs o k q' ∧
      ∀ a, owned q' = Some a → owned q = Some a
  | None => True
  end →
  inv (lk_upd sh L') (<[i:=(λ q', (o, k, q')) <$> e]> cs) S D xs.
Proof.
  intros Hq [Hlk Hlki] He. rewrite <- (i_set _ _ _ _ _ HI). apply fine_inv_move; auto.
  - apply (i_list _ _ _ _ _ HI).
  - intros a [?|[?|[? ?]]]; done.
  - intros a. rewrite Hlki. destruct e as [q'|]; [naive_solver|].
    split; [intros []%not_elem_of_nil|naive_solver].
  - destruct e as [q'|]; [|done]. destruct He as (? & Ho). split; [done|].
    intros a Ha%Ho. split; [|by auto]. by eapply (i_dead _ _ _ _ _ HI).
  - intros a Ha. destruct (fine_pend_other a Hq Ha) as [? [(? & ? & [=])|?]]; auto.
Qed.

(** Allocating and freeing. *)
Lemma fine_inv_private H' (e : option pc) :
  lockset (sh_head sh) q = [] →
  (∀ a, H' !! a ≠ sh_heap sh !! a → owned q = Some a ∨ sh_heap sh !! a = None) →
  match e with
  | Some q' => pc_ok D H' (sh_head sh) (sh_tail sh) xs o k q' ∧ lockset (sh_head sh) q' = [] ∧
      ∀ a, owned q' = Some a → sh_heap sh !! a = None
  | None => True
  end →
  inv (heap_upd sh H') (<[i:=(λ q', (o, k, q')) <$> e]> cs) S D xs.
Proof.
  intros Hh Hch He. pose proof (λ a, list_alloc _ _ _ _ _ _ a HI eq_refl) as Hal.
  assert (∀ a, live a → H' !! a = sh_heap sh !! a) as Hag.
  { intros a Ha. destruct (decide (H' !! a = sh_heap sh !! a)) as [|Hne]; [done|]. exfalso.
    destruct (Hch a Hne) as [Ho|Hn]; [by eapply (i_dead _ _ _ _ _ HI)|]. destruct (Hal a Ha). congruence. }
  destruct (locks_same [] ltac:(by rewrite Hh)) as [_ Hmine].
  rewrite <- (i_set _ _ _ _ _ HI). apply fine_inv_move; auto.
  - eapply is_list_frame; [|apply (i_list _ _ _ _ _ HI)]. intros a Ha. rewrite !lookup_union, Hag; done.
  - intros a [?|[?|[? ?]]]; [|done..]. destruct (Hch a); auto.
  - intros a. rewrite Hmine. destruct e as [q'|]; [|split; [intros []%not_elem_of_nil|naive_solver]].
    destruct He as (_ & Hls & _). split; [intros []%not_elem_of_nil|].
    intros (q2 & [= <-] & Ha). by rewrite Hls in Ha.
  - destruct e as [q'|]; [|done]. destruct He as (? & Hh' & Ho). split; [done|].
    intros a Ha%Ho. split; [|by auto]. intros Hv%Hal. destruct Hv. congruence.
  - intros a Ha. assert (is_link2 q = false) as Hq by by destruct q.
    destruct (i_pend _ _ _ _ _ HI a Ha) as (_ & j & o' & k' & n & c & Hj).
    destruct (i_pc _ _ _ _ _ HI _ _ _ _ Hj) as (_ & _ & _ & (Hv & _) & _). rewrite Hag by done.
    destruct (fine_pend_other a Hq Ha) as [? [(? & ? & [=])|?]]; auto.
Qed.

End move.

(** * The steps of the operations *)

(** What the interface asks of a step. *)
Notation step_ok := (step_ok (H:=fine) (λ sh cs S, ∃ D xs, inv sh cs S D xs)).

Section steps.
Context (sh : shared) (cs : list opstate) (S : gset Z) (D : gmap nat node) (xs : list (nat * Z)).
Hypothesis HI : inv sh cs S D xs.
Context (i : nat) (o : opk) (k : Z) (q : pc).
Hypothesis Hi : cs !! i = Some (Some (o, k, q)).

Notation live a := (a ∈ (entries (sh_head sh) (sh_tail sh) xs).*1).

Lemma fine_thread_key : key_ok k.
Proof. by destruct (i_pc _ _ _ _ _ HI _ _ _ _ Hi). Qed.

Lemma fine_thread_pc : pc_ok D (sh_heap sh) (sh_head sh) (sh_tail sh) xs o k q.
Proof. by destruct (i_pc _ _ _ _ _ HI _ _ _ _ Hi) as (_ & ?). Qed.

(** The three kinds of steps that leave the heap alone. *)
Lemma fine_pc_step_ok q' :
  is_link2 q = false → lockset (sh_head sh) q' = lockset (sh_head sh) q →
  (∀ a, owned q' = Some a → owned q = Some a) →
  pc_ok D (sh_heap sh) (sh_head sh) (sh_tail sh) xs o k q' → lin q = None →
  match lin q' with None => True | Some b => apply_op o k S = (S, b) end →
  step_ok cs S i o k q sh (inl q').
Proof.
  intros ? Hls ?? Hl Hl'. exists S. split.
  - exists D, xs. replace sh with (lk_upd sh (sh_lk sh)) by by destruct sh.
    apply (fine_inv_local _ _ _ _ _ HI _ _ _ _ Hi _ (Some q')); [done| |done].
    apply (locks_same _ _ _ _ _ HI _ _ _ _ Hi). by rewrite Hls.
  - rewrite Hl. by destruct (lin (ListImpl:=fine) q').
Qed.

Lemma fine_lock_step_ok a sh' q' :
  is_link2 q = false → lock i sh a = Some sh' →
  (∀ b, b ∈ lockset (sh_head sh) q' ↔ b = a ∨ b ∈ lockset (sh_head sh) q) →
  (∀ a, owned q' = Some a → owned q = Some a) →
  pc_ok D (sh_heap sh) (sh_head sh) (sh_tail sh) xs o k q' → lin q = None → lin q' = None →
  step_ok cs S i o k q sh' (inl q').
Proof.
  intros ? Hlk Hls ?? Hl Hl'. exists S. split; [|by rewrite Hl, Hl']. exists D, xs.
  unfold lock in Hlk. destruct (sh_heap sh !! a), (sh_lk sh !! a) eqn:Ha; simplify_eq/=.
  apply (fine_inv_local _ _ _ _ _ HI _ _ _ _ Hi _ (Some q')); [done| |done].
  by apply (locks_add _ _ _ _ _ HI _ _ _ _ Hi).
Qed.

Lemma fine_unlock_step_ok a sh' (r : pc + bool) :
  is_link2 q = false → unlock sh a = Some sh' → a ∈ lockset (sh_head sh) q →
  (∀ b, b ∈ match r with inl q' => lockset (sh_head sh) q' | inr _ => [] end ↔
     b ≠ a ∧ b ∈ lockset (sh_head sh) q) →
  match r with
  | inl q' => (∀ a, owned q' = Some a → owned q = Some a) ∧ lin q' = lin q ∧
      pc_ok D (sh_heap sh) (sh_head sh) (sh_tail sh) xs o k q'
  | inr b => lin q = Some b
  end →
  step_ok cs S i o k q sh' r.
Proof.
  intros ? Hlk Ha Hls Hr. unfold unlock in Hlk. destruct (sh_heap sh !! a); [|done].
  injection Hlk as <-. pose proof (fine_inv_local _ _ _ _ _ HI _ _ _ _ Hi (delete a (sh_lk sh))) as Hloc.
  destruct r as [q'|b]; exists S; (split; [exists D, xs|]).
  - destruct Hr as (? & ? & ?). apply (Hloc (Some q')); [done| |done].
    by apply (locks_del _ _ _ _ _ HI _ _ _ _ Hi).
  - destruct Hr as (_ & -> & _). by destruct (lin (ListImpl:=fine) q).
  - apply (Hloc None); [done| |done]. by apply (locks_del _ _ _ _ _ HI _ _ _ _ Hi).
  - by rewrite Hr.
Qed.

Lemma fine_search_ok sh' r : search i sh k q = Some (sh', r) → step_ok cs S i o k q sh' r.
Proof.
  pose proof fine_thread_key as Hkey. pose proof fine_thread_pc as Hpc. pose proof fine_pc_step_ok as Hstep.
  pose proof fine_lock_step_ok as Hlock. pose proof fine_unlock_step_ok as Hunl.
  pose proof (i_list _ _ _ _ _ HI) as Hl. pose proof (read_locked _ _ _ _ _ HI _ _ _ _ Hi) as Hrd.
  destruct q as [|n|n|n p c|n p c|n p c|n c|n p c|n p c|n p c|p c|p c nx|b p c f|b c f|c];
    cbn in *; try discriminate; intros Hs.
  - destruct (lock _ _ _) eqn:Hlk; simplify_eq/=. eapply Hlock; [done..| |done|done|done|done]. cbn. set_solver.
  - destruct (adj_head _ _ _ _ Hl k) as (c & Hc & Ha & _). rewrite Hrd in Hc by set_solver.
    rewrite Hc in Hs. simplify_eq/=. by apply Hstep.
  - destruct (lock _ _ _) eqn:Hlk; simplify_eq/=. eapply Hlock; [done..| |done|done|done|done]. cbn. set_solver.
  - destruct Hpc as [Hfr Ha]. destruct (adj_live _ _ _ _ Hl _ _ _ Ha) as [_ Hc].
    destruct (live_lookup _ _ _ _ Hl c Hc) as (kc & nx & Hkc).
    pose proof Hkc as Hkc'. rewrite Hrd in Hkc' by set_solver. rewrite Hkc' in Hs. simplify_eq/=.
    destruct (Z.ltb_spec kc k); apply Hstep; try done; cbn; split_and!; try done; by exists kc, nx.
  - destruct (unlock _ _) eqn:Hlk; simplify_eq/=. destruct Hpc as (? & Ha & ?).
    destruct (adj_live _ _ _ _ Hl _ _ _ Ha) as [_ Hc].
    destruct (adj_split _ _ _ _ Hl _ _ _ Ha) as (_ & _ & _ & _ & _ & _ & _ & _ & _ & Hne).
    eapply Hunl; [done..|set_solver|cbn; set_solver|done].
  - destruct Hpc as (Hfr & Hv & kc & nx & Hc & Hlt).
    destruct (live_next _ _ _ _ Hl _ _ _ Hv Hc) as [[_ ->]|(c' & -> & _)].
    { destruct Hkey. lia. }
    pose proof Hc as Hc2. rewrite Hrd in Hc2 by set_solver. rewrite Hc2 in Hs. simplify_eq/=.
    apply Hstep; try done. cbn. split; [done|]. split; [done|]. eauto.
  - destruct (unlock _ _) eqn:Hlk; simplify_eq/=. destruct Hpc as (? & Hne & ?).
    eapply Hunl; [done..|set_solver|cbn; set_solver|done].
  - destruct (unlock _ _) eqn:Hlk; simplify_eq/=. eapply Hunl; [done..|set_solver| |].
    + destruct f; cbn; set_solver.
    + destruct f as [f|]; cbn; [|done]. destruct Hpc as (-> & -> & -> & ?). done.
Qed.

(** The [if] after the loop: what was found decides membership. *)
Lemma fine_test_ok n p c :
  q = Test n p c →
  ∃ kc nx, sh_heap sh !! c = Some (Node kc nx) ∧ (D ∪ sh_heap sh) !! c = Some (Node kc nx) ∧
    fresh_ok (sh_heap sh) o k n ∧
    adj (D ∪ sh_heap sh) (sh_head sh) (sh_tail sh) xs k p c ∧ live p ∧ live c ∧ p ≠ c ∧
    k ≤ kc ∧ (k ∈ S ↔ kc = k).
Proof.
  intros Hq. pose proof fine_thread_key as Hkey. pose proof fine_thread_pc as Hpc.
  pose proof (i_list _ _ _ _ _ HI) as Hl. pose proof (read_locked _ _ _ _ _ HI _ _ _ _ Hi c) as Hrd.
  rewrite Hq in Hpc, Hrd. destruct Hpc as (Hfr & Ha & kc & nx & Hkc & Hle).
  destruct (adj_live _ _ _ _ Hl _ _ _ Ha) as [Hp Hc].
  destruct (adj_split _ _ _ _ Hl _ _ _ Ha) as (_ & _ & _ & _ & _ & _ & _ & _ & _ & Hne).
  exists kc, nx. rewrite <- (i_set _ _ _ _ _ HI). rewrite <- Hrd by (done || cbn; set_solver).
  pose proof (adj_mem _ _ _ _ Hl _ _ _ _ _ (proj2 Hkey) Ha Hkc Hle). tauto.
Qed.

(** A step that writes the list, holding the mutexes of [p] and [c]. *)
Lemma fine_inv_write H' (D' : gmap nat node) xs' q' :
  lockset (sh_head sh) q' = lockset (sh_head sh) q →
  is_list (D' ∪ H') (sh_head sh) (sh_tail sh) xs' →
  pc_ok D' H' (sh_head sh) (sh_tail sh) xs' o k q' →
  (∀ a, H' !! a ≠ sh_heap sh !! a ∨ D' !! a ≠ D !! a ∨
        live a ∧ a ∉ (entries (sh_head sh) (sh_tail sh) xs').*1 →
     a ∈ lockset (sh_head sh) q ∨ owned q = Some a) →
  (∀ a, a ∈ (entries (sh_head sh) (sh_tail sh) xs').*1 → live a ∨ owned q = Some a) →
  (∀ a, owned q' = Some a → a ∉ (entries (sh_head sh) (sh_tail sh) xs').*1 ∧ (owned q = Some a ∨ live a)) →
  (∀ a, is_Some (sh_heap sh !! a) → is_Some (H' !! a)) →
  (∀ a, is_Some (D' !! a) → (∃ n c, q' = Link2 n a c ∧ is_Some (H' !! a)) ∨
     is_Some (D !! a) ∧ ∀ n c, q ≠ Link2 n a c) →
  inv (heap_upd sh H') (<[i:=Some (o, k, q')]> cs) (contents xs') D' xs'.
Proof.
  intros Hls Hlist Hp Hch Hlive Ho Hsome Hpend.
  destruct (locks_same _ _ _ _ _ HI _ _ _ _ Hi (lockset (sh_head sh) q)) as [Hlk Hlki]; [done|].
  apply (fine_inv_move _ _ _ _ _ HI _ _ _ _ Hi H' (sh_lk sh) D' xs' (Some q')); [done|..|done|done| | |].
  - intros a Ha. destruct (Hch a Ha); auto.
  - intros a. rewrite Hlki, <- Hls. naive_solver.
  - split; [done|]. intros a Ha. destruct (Ho a Ha). tauto.
  - intros a [(n & c & -> & ?)|[HD Hq]]%Hpend; [by eauto|].
    destruct (i_pend _ _ _ _ _ HI a HD) as (? & j & o' & k' & n & c & Hj). split; [by auto|].
    right. exists j, o', k', n, c. split; [|done]. intros ->. rewrite Hi in Hj. naive_solver.
Qed.

Lemma fine_link_ok n p c H' :
  q = Link n p c → set_next (sh_heap sh) p (Some n) = Some H' →
  step_ok cs S i o k q (heap_upd sh H') (inl (Link2 n p c)).
Proof.
  pose proof fine_thread_pc as Hpc. pose proof (read_locked _ _ _ _ _ HI _ _ _ _ Hi p) as Hrd.
  pose proof (fine_inv_write) as Hw. intros -> Hs. pose proof (i_list _ _ _ _ _ HI) as Hl.
  destruct Hpc as (-> & (a & [= <-] & Hfr) & Ha & Hk).
  destruct (adj_split _ _ _ _ Hl _ _ _ Ha) as (l1 & kp & kc & nx & l2 & _ & Hp & Hc & _ & Hpc).
  destruct (adj_live _ _ _ _ Hl _ _ _ Ha) as [Hlp _].
  assert (n ∉ (entries (sh_head sh) (sh_tail sh) xs).*1) as Hn by by eapply (i_dead _ _ _ _ _ HI).
  assert (n ≠ p) as Hnp by by intros ->. pose proof Hp as Hp'. rewrite Hrd in Hp' by (done || cbn; set_solver).
  unfold set_next in Hs. rewrite Hp' in Hs. injection Hs as <-. exists (contents xs).
  split; [|by rewrite (i_set _ _ _ _ _ HI)]. exists (<[p:=Node kp (Some c)]> D), xs.
  assert (<[p:=Node kp (Some c)]> D ∪ <[p:=Node kp (Some n)]> (sh_heap sh) = D ∪ sh_heap sh) as Hu.
  { apply map_eq. intros a. rewrite lookup_union. destruct (decide (a = p)) as [->|].
    - by rewrite !lookup_insert_eq, Hp.
    - by rewrite !lookup_insert_ne, lookup_union. }
  apply Hw; try done.
  - by rewrite Hu.
  - cbn. rewrite Hu. split_and!; try done.
    + exists n. by rewrite lookup_insert_ne.
    + exists kp. by rewrite !lookup_insert_eq.
  - intros a Hne. left. cbn. destruct (decide (a = p)) as [->|]; [set_solver|].
    rewrite !lookup_insert_ne in Hne by done. tauto.
  - auto.
  - intros a [= <-]. auto.
  - intros a ?. destruct (decide (a = p)) as [->|]; [by rewrite lookup_insert_eq|by rewrite lookup_insert_ne].
  - intros a HD. destruct (decide (a = p)) as [->|].
    + left. exists n, c. by rewrite lookup_insert_eq.
    + right. by rewrite lookup_insert_ne in HD.
Qed.

Lemma fine_link2_ok n p c H' :
  q = Link2 n p c → set_next (sh_heap sh) n (Some c) = Some H' →
  step_ok cs S i o k q (heap_upd sh H') (inl (RelP true p c None)).
Proof.
  pose proof fine_thread_pc as Hpc. pose proof fine_thread_key as Hkey. pose proof fine_inv_write as Hw.
  intros -> Hs. pose proof (i_list _ _ _ _ _ HI) as Hl.
  destruct Hpc as (-> & (a & [= <-] & Hn) & Ha & (kc & nx & Hc & Hlt) & kp & HD & HH).
  assert (n ∉ (entries (sh_head sh) (sh_tail sh) xs).*1) as Hnl by by eapply (i_dead _ _ _ _ _ HI).
  destruct (adj_live _ _ _ _ Hl _ _ _ Ha) as [Hlp Hlc].
  destruct (adj_split _ _ _ _ Hl _ _ _ Ha) as (_ & _ & _ & _ & _ & _ & _ & _ & _ & Hpc).
  assert (n ≠ p) as Hnp by by intros ->.
  assert (D !! n = None) as HDn.
  { destruct (D !! n) eqn:Hdn; [exfalso|done].
    destruct (i_pend _ _ _ _ _ HI n) as (_ & j & o' & k' & n' & c' & Hj); [by rewrite Hdn|].
    destruct (i_pc _ _ _ _ _ HI _ _ _ _ Hj) as (_ & _ & _ & [? _] & _). done. }
  destruct (adj_link _ _ _ _ Hl k p c kc nx n kp) as (xs' & Hl' & Hx' & Hlv); try done.
  { by rewrite (lookup_union_Some_l _ _ _ _ HD). }
  assert (k ∉ contents xs) as Hnk.
  { rewrite (adj_mem _ _ _ _ Hl _ _ _ _ _ (proj2 Hkey) Ha Hc); lia. }
  unfold set_next in Hs. rewrite Hn in Hs. injection Hs as <-. exists (contents xs'). split.
  - exists (delete p D), xs'. apply Hw; try done.
    + eapply is_list_frame; [|exact Hl']. intros a _. rewrite lookup_union.
      destruct (decide (a = n)) as [->|]; [|destruct (decide (a = p)) as [->|]].
      * by rewrite lookup_delete_ne, !lookup_insert_eq, HDn.
      * rewrite lookup_delete_eq, !(lookup_insert_ne _ n) by done. by rewrite lookup_insert_eq, HH.
      * by rewrite lookup_delete_ne, !lookup_insert_ne, lookup_union.
    + cbn [pc_ok end_ok]. rewrite !Hlv. auto.
    + intros a Hne. cbn. destruct (decide (a = n)) as [->|]; [by right|]. left.
      destruct (decide (a = p)) as [->|]; [set_solver|]. rewrite lookup_insert_ne, lookup_delete_ne, Hlv in Hne by done.
      tauto.
    + intros a [->|?]%Hlv; auto.
    + intros a ?. destruct (decide (a = n)) as [->|]; [by rewrite lookup_insert_eq|by rewrite lookup_insert_ne].
    + intros a Hda. right. destruct (decide (a = p)) as [->|].
      * rewrite lookup_delete_eq in Hda. by destruct Hda.
      * rewrite lookup_delete_ne in Hda by done. split; [done|]. congruence.
  - cbn. rewrite Hx', (i_set _ _ _ _ _ HI) in *. rewrite bool_decide_eq_false_2; done.
Qed.

Lemma fine_unlink_ok p c nx H' :
  q = UnlinkW p c nx → set_next (sh_heap sh) p nx = Some H' →
  step_ok cs S i o k q (heap_upd sh H') (inl (RelP true p c (Some c))).
Proof.
  pose proof fine_thread_pc as Hpc. pose proof fine_thread_key as Hkey. pose proof fine_inv_write as Hw.
  pose proof (read_locked _ _ _ _ _ HI _ _ _ _ Hi) as Hrd.
  pose proof (pend_locked _ _ _ _ _ HI _ _ _ _ Hi) as Hpl. pose proof (i_list _ _ _ _ _ HI) as Hl.
  intros -> Hs. destruct Hpc as (-> & Ha & Hc).
  destruct (adj_split _ _ _ _ Hl _ _ _ Ha) as (l1 & kp & kc & nx' & l2 & _ & Hp & _ & _ & Hpc).
  destruct (adj_live _ _ _ _ Hl _ _ _ Ha) as [Hlp Hlc].
  destruct (adj_unlink _ _ _ _ Hl k p c nx kp) as (xs' & Hl' & Hx' & Hlv); try done.
  assert (k ∈ contents xs) as Hk by by apply (adj_mem _ _ _ _ Hl _ _ _ _ _ (proj2 Hkey) Ha Hc).
  assert (D !! p = None) as HDp.
  { destruct (D !! p) eqn:HD; [|done]. destruct (Hpl p) as (? & ? & ?); [cbn; set_solver|by rewrite HD|done]. }
  rewrite Hrd in Hp by (done || cbn; set_solver). rewrite Hrd in Hc by (done || cbn; set_solver).
  unfold set_next in Hs. rewrite Hp in Hs. injection Hs as <-. exists (contents xs'). split.
  - exists D, xs'. apply Hw; try done.
    + by rewrite <- insert_union_r.
    + cbn [pc_ok end_ok]. rewrite Hlv. split_and!; try done. rewrite lookup_insert_ne by done. eauto.
    + intros a Hne. left. cbn. destruct (decide (a = p)) as [->|]; [set_solver|].
      rewrite lookup_insert_ne, Hlv in Hne by done. destruct (decide (a = c)) as [->|]; [set_solver|tauto].
    + intros a [_ ?]%Hlv. auto.
    + intros a [= <-]. rewrite Hlv. split; [tauto|by right].
    + intros a ?. destruct (decide (a = p)) as [->|]; [by rewrite lookup_insert_eq|by rewrite lookup_insert_ne].
    + auto.
  - cbn. rewrite Hx', (i_set _ _ _ _ _ HI) in *. by rewrite bool_decide_eq_true_2.
Qed.

Lemma fine_list_add_ok m sh' r : o = OAdd → list_add i m sh k q = Some (sh', r) → step_ok cs S i o k q sh' r.
Proof.
  intros Ho Hs. pose proof fine_test_ok as Htest. pose proof fine_link_ok as Hlink. pose proof fine_link2_ok as Hlink2.
  pose proof fine_search_ok as Hsearch. pose proof fine_pc_step_ok as Hstep. pose proof fine_thread_pc as Hpc.
  destruct q as [|n|n|n p c|n p c|n p c|n c|[n|] p c|n p c|n p c|p c|p c nx|b p c f|b c f|c] eqn:Hq;
    try by apply Hsearch.
  - cbn in Hs. destruct (sh_heap sh !! m) eqn:Hm; [done|]. simplify_eq/=.
    exists S. split; [|done]. exists D, xs.
    replace (delete m (sh_lk sh)) with (sh_lk sh).
    + apply (fine_inv_private _ _ _ _ _ HI _ _ _ _ Hi _ (Some (LockP (Some m)))); [done|..].
      * intros a Hne. right. destruct (decide (a = m)) as [->|]; [done|]. by rewrite lookup_insert_ne in Hne.
      * split_and!; [|done|by intros ? [= <-]]. exists m. by rewrite lookup_insert_eq.
    + symmetry. apply delete_id. destruct (sh_lk sh !! m) eqn:Hlm; [exfalso|done].
      apply (i_lock _ _ _ _ _ HI) in Hlm as (o' & k' & q' & Hj & Ha).
      destruct (i_pc _ _ _ _ _ HI _ _ _ _ Hj) as (_ & Hp).
      destruct (lockset_live _ _ _ _ _ _ _ _ _ (i_list _ _ _ _ _ HI) Hp Ha) as [Hv|Hv].
      * destruct (list_alloc _ _ _ _ _ _ _ HI eq_refl Hv). congruence.
      * destruct (fine_owned_alloc _ _ _ _ _ _ _ _ _ Hp Hv). congruence.
  - destruct (Htest _ _ _ eq_refl) as (kc & nx & Hkc & Hkc' & Hfr & Ha & Hlp & Hlc & Hne & Hle & Hmem).
    cbn in Hs. rewrite Hkc in Hs. cbn in Hs. destruct (Z.eqb_spec kc k) as [->|Hnk]; simplify_eq.
    + apply Hstep; try done. cbn. rewrite bool_decide_eq_true_2; tauto.
    + apply Hstep; try done. cbn. split_and!; try done. exists kc, nx. split; [done|lia].
  - cbn in Hs. destruct (set_next _ _ _) eqn:Hsn; simplify_eq/=. by apply Hlink.
  - cbn in Hs. destruct (set_next _ _ _) eqn:Hsn; simplify_eq/=. by apply (Hlink2 n p c).
Qed.

Lemma fine_list_remove_ok sh' r : o = ORemove → list_remove i sh k q = Some (sh', r) → step_ok cs S i o k q sh' r.
Proof.
  intros Ho Hs. pose proof fine_test_ok as Htest. pose proof fine_unlink_ok as Hunlink.
  pose proof fine_search_ok as Hsearch. pose proof fine_pc_step_ok as Hstep. pose proof fine_thread_pc as Hpc.
  pose proof (read_locked _ _ _ _ _ HI _ _ _ _ Hi) as Hrd.
  destruct q as [|n|n|n p c|n p c|n p c|n c|n p c|n p c|n p c|p c|p c nx|b p c f|b c f|c] eqn:Hq;
    try by apply Hsearch.
  - destruct (Htest _ _ _ eq_refl) as (kc & nx & Hkc & Hkc' & Hfr & Ha & Hlp & Hlc & Hne & Hle & Hmem).
    cbn in Hs. rewrite Hkc in Hs. cbn in Hs. destruct (Z.eqb_spec kc k) as [->|Hnk]; simplify_eq/=.
    + apply Hstep; try done. cbn. split_and!; try done. by exists k, nx.
    + apply Hstep; try done. cbn. rewrite bool_decide_eq_false_2; tauto.
  - destruct Hpc as (_ & Ha & kc & nx & Hkc & ->). pose proof Hkc as Hkc'.
    rewrite Hrd in Hkc' by (done || cbn; set_solver).
    cbn in Hs. rewrite Hkc' in Hs. simplify_eq/=. by apply Hstep.
  - cbn in Hs. destruct (set_next _ _ _) eqn:Hsn; simplify_eq/=. by apply (Hunlink p c nx).
  - cbn in Hs. destruct (sh_heap sh !! c) eqn:Hc; simplify_eq/=.
    exists S. split; [|done]. exists D, xs.
    apply (fine_inv_private _ _ _ _ _ HI _ _ _ _ Hi _ None); [done| |done].
    intros a Hne. left. destruct (decide (a = c)) as [->|]; [done|]. by rewrite lookup_delete_ne in Hne.
Qed.

Lemma fine_list_contains_ok sh' r :
  o = OContains → list_contains i sh k q = Some (sh', r) → step_ok cs S i o k q sh' r.
Proof.
  intros Ho Hs. pose proof fine_test_ok as Htest. pose proof fine_search_ok as Hsearch. pose proof fine_pc_step_ok as Hstep.
  destruct q as [|n|n|n p c|n p c|n p c|n c|n p c|n p c|n p c|p c|p c nx|b p c f|b c f|c] eqn:Hq;
    try by apply Hsearch.
  destruct (Htest _ _ _ eq_refl) as (kc & nx & Hkc & Hkc' & Hfr & Ha & Hlp & Hlc & Hne & Hle & Hmem).
  cbn in Hs. rewrite Hkc in Hs. simplify_eq/=. apply Hstep; try done. cbn. f_equal.
  apply eq_true_iff_eq. rewrite bool_decide_eq_true, Z.eqb_eq. done.
Qed.

(** * Progress *)

(** The mutex a thread is about to take. *)
Definition waits (q : pc) : option nat :=
  match q with LockP _ => Some (sh_head sh) | LockC _ _ c => Some c | _ => None end.

(** The mutexes a thread is about to lock are those of allocated nodes. *)
Lemma fine_waits_alloc a : waits q = Some a → is_Some (sh_heap sh !! a).
Proof.
  pose proof fine_thread_pc as Hpc. pose proof (i_list _ _ _ _ _ HI) as Hl.
  pose proof (λ a, list_alloc _ _ _ _ _ _ a HI eq_refl) as Hal.
  destruct q; cbn in *; intros [= <-]; apply Hal; [set_solver|].
  destruct Hpc as [_ Ha]. by destruct (adj_live _ _ _ _ Hl _ _ _ Ha).
Qed.

(** A thread is never stuck but for a mutex held by another thread. *)
Lemma fine_op_enabled : (∀ a, waits q = Some a → sh_lk sh !! a = None) → ∃ m r, op_step i m sh o k q = Some r.
Proof.
  intros He. pose proof fine_thread_pc as Hpc. pose proof fine_thread_key as Hkey.
  pose proof (i_list _ _ _ _ _ HI) as Hl. pose proof (λ a, list_alloc _ _ _ _ _ _ a HI eq_refl) as Hal.
  pose proof (read_locked _ _ _ _ _ HI _ _ _ _ Hi) as Hrd.
  assert (∀ p c, adj (D ∪ sh_heap sh) (sh_head sh) (sh_tail sh) xs k p c →
    is_Some (sh_heap sh !! p) ∧ is_Some (sh_heap sh !! c)) as Hadj.
  { intros p c [? ?]%(adj_live _ _ _ _ Hl). auto. }
  assert (∀ b c f, end_ok (sh_heap sh) (sh_head sh) (sh_tail sh) xs o b c f → is_Some (sh_heap sh !! c)) as Hend.
  { intros b c [f|]; cbn; [|by auto]. by intros (_ & _ & _ & ?). }
  destruct q as [|n|n|n p c|n p c|n p c|n c|n p c|n p c|n p c|p c|p c nx|b p c f|b c f|c];
    cbn [lockset is_link2 pc_ok waits] in *.
  - exists (fresh (dom (sh_heap sh))). subst o. cbn.
    rewrite (proj1 (not_elem_of_dom _ _)) by apply is_fresh. eauto.
  - exists 0%nat. destruct (Hal (sh_head sh)) as [nd Hnd]; [set_solver|].
    destruct o; cbn; unfold lock; rewrite Hnd, (He _ eq_refl); cbn; eauto.
  - exists 0%nat. destruct (adj_head _ _ _ _ Hl k) as (c & Hc & _). rewrite Hrd in Hc by set_solver.
    destruct o; cbn; rewrite Hc; cbn; eauto.
  - exists 0%nat. destruct Hpc as [_ Ha]. destruct (Hadj p c Ha) as [_ [nd Hnd]].
    destruct o; cbn; unfold lock; rewrite Hnd, (He _ eq_refl); cbn; eauto.
  - exists 0%nat. destruct Hpc as [_ Ha]. destruct (Hadj p c Ha) as [_ [nd Hnd]].
    destruct o; cbn; rewrite Hnd; cbn; eauto.
  - exists 0%nat. destruct Hpc as (_ & Ha & _). destruct (Hadj p c Ha) as [[nd Hnd] _].
    destruct o; cbn; unfold unlock; rewrite Hnd; cbn; eauto.
  - exists 0%nat. destruct Hpc as (_ & Hv & kc & nx & Hc & Hlt).
    destruct (live_next _ _ _ _ Hl _ _ _ Hv Hc) as [[_ ->]|(c' & -> & _)]; [destruct Hkey; lia|].
    rewrite Hrd in Hc by set_solver. destruct o; cbn; rewrite Hc; cbn; eauto.
  - exists 0%nat. destruct Hpc as (Hfr & Ha & _). destruct (Hadj p c Ha) as [_ [nd Hnd]].
    destruct o; cbn in *; [destruct Hfr as (a & -> & _)|..]; cbn; rewrite Hnd; cbn; eauto.
  - exists 0%nat. destruct Hpc as (-> & _ & Ha & _). destruct (Hadj p c Ha) as [[nd Hnd] _].
    cbn. unfold set_next. rewrite Hnd. cbn. eauto.
  - exists 0%nat. destruct Hpc as (-> & (a & [= <-] & Hn) & _). cbn. unfold set_next. rewrite Hn. cbn. eauto.
  - exists 0%nat. destruct Hpc as (-> & Ha & _). destruct (Hadj p c Ha) as [_ [nd Hnd]].
    cbn. rewrite Hnd. cbn. eauto.
  - exists 0%nat. destruct Hpc as (-> & Ha & _). destruct (Hadj p c Ha) as [[nd Hnd] _].
    cbn. unfold set_next. rewrite Hnd. cbn. eauto.
  - exists 0%nat. destruct Hpc as (Hv & _). destruct (Hal p Hv) as [nd Hnd].
    destruct o; cbn; unfold unlock; rewrite Hnd; cbn; eauto.
  - exists 0%nat. destruct (Hend _ _ _ Hpc) as [nd Hnd]. destruct o; cbn; unfold unlock; rewrite Hnd; cbn; eauto.
  - exists 0%nat. destruct Hpc as (-> & nd & Hc). cbn. rewrite Hc. cbn. eauto.
Qed.

End steps.

Arguments waits sh q : simpl never.

(** A thread waiting for [c] while holding [p]: the holder of [c] runs, or waits for a
    node with a larger key. *)
Lemma fine_waiting_chain sh cs S D xs :
  inv sh cs S D xs → ∀ (N : nat) i o k n p c kc nx,
  cs !! i = Some (Some (o, k, LockC n p c)) →
  (D ∪ sh_heap sh) !! c = Some (Node kc nx) → INT_MAX - kc < Z.of_nat N →
  ∃ j m o k q r, cs !! j = Some (Some (o, k, q)) ∧ op_step j m sh o k q = Some r.
Proof.
  intros HI. pose proof (i_list _ _ _ _ _ HI) as Hl.
  induction N as [|N IH]; intros i o k n p c kc nx Hi Hc Hlt;
    destruct (i_pc _ _ _ _ _ HI _ _ _ _ Hi) as (_ & _ & Ha); destruct (adj_live _ _ _ _ Hl _ _ _ Ha) as [Hp Hv].
  { pose proof (live_key _ _ _ _ Hl c kc nx Hv Hc) as Hin. exfalso.
    pose proof (il_sorted _ _ _ _ Hl) as Hs. unfold entries in Hin.
    apply elem_of_cons in Hin as [[= -> ->]|[Hin|[= -> ->]%list_elem_of_singleton]%elem_of_app];
      [unfold INT_MAX, INT_MIN in *; lia| |unfold INT_MAX in *; lia].
    pose proof (StronglySorted_app_1_elem_of _ _ _ kc INT_MAX Hs) as Hle.
    assert (kc ∈ xs.*2) by (apply list_elem_of_fmap; by exists (c, kc)).
    specialize (Hle ltac:(done) ltac:(set_solver)). lia. }
  destruct (sh_lk sh !! c) as [j|] eqn:Hlk.
  2:{ destruct (fine_op_enabled _ _ _ _ _ HI _ _ _ _ Hi) as (m & r & Hr); [by intros a [= <-]|].
      by exists i, m, o, k, (LockC n p c), r. }
  apply (i_lock _ _ _ _ _ HI) in Hlk as (o' & k' & q' & Hj & Hin).
  destruct (waits sh q') as [a|] eqn:Hw.
  2:{ destruct (fine_op_enabled _ _ _ _ _ HI _ _ _ _ Hj) as (m & r & Hr); [by rewrite Hw|].
      by exists j, m, o', k', q', r. }
  destruct q' as [|n'| |n' p' c'| | | | | | | | | | |]; try done; cbn in Hin;
    [by apply not_elem_of_nil in Hin|]. apply list_elem_of_singleton in Hin as <-.
  destruct (i_pc _ _ _ _ _ HI _ _ _ _ Hj) as (_ & _ & Ha').
  pose proof (adj_succ_not_head _ _ _ _ Hl _ _ _ Ha) as Hnh.
  destruct (adj_split _ _ _ _ Hl _ _ _ Ha') as (_ & kp' & kc' & nx' & _ & _ & Hp' & Hc' & _ & _).
  pose proof (adj_key_lt _ _ _ _ Hl _ _ _ _ _ _ Ha' Hnh Hp' Hc'). simplify_eq.
  eapply (IH j); [done|done|lia].
Qed.

Lemma fine_progress sh cs S D xs i x :
  inv sh cs S D xs → cs !! i = Some (Some x) →
  ∃ j m o k q r, cs !! j = Some (Some (o, k, q)) ∧ op_step j m sh o k q = Some r.
Proof.
  intros HI Hi. destruct x as [[o k] q]. pose proof (i_list _ _ _ _ _ HI) as Hl.
  assert (∀ j o k n p c, cs !! j = Some (Some (o, k, LockC n p c)) →
    ∃ j m o k q r, cs !! j = Some (Some (o, k, q)) ∧ op_step j m sh o k q = Some r) as Hch.
  { intros j o' k' n p c Hj. destruct (i_pc _ _ _ _ _ HI _ _ _ _ Hj) as (_ & _ & Ha).
    destruct (adj_live _ _ _ _ Hl _ _ _ Ha) as [_ Hv].
    destruct (live_lookup _ _ _ _ Hl c Hv) as (kc & nx & Hc).
    eapply (fine_waiting_chain _ _ _ _ _ HI (Z.to_nat (INT_MAX - kc + 1))); [done|done|lia]. }
  assert (∀ j o k q, cs !! j = Some (Some (o, k, q)) → (∀ n, q ≠ LockP n) →
    ∃ j m o k q r, cs !! j = Some (Some (o, k, q)) ∧ op_step j m sh o k q = Some r) as Hrun.
  { intros j o' k' q' Hj Hq. destruct (waits sh q') as [a|] eqn:Hw.
    - destruct q'; try done; [by destruct (Hq n)|by eapply Hch].
    - destruct (fine_op_enabled _ _ _ _ _ HI _ _ _ _ Hj) as (m & r & Hr); [by rewrite Hw|].
      by exists j, m, o', k', q', r. }
  destruct (waits sh q) as [a|] eqn:Hw; [|eapply Hrun; [done|]; by destruct q].
  destruct q; try done; [|by eapply Hch]. injection Hw as <-.
  destruct (sh_lk sh !! sh_head sh) as [j|] eqn:Hlk.
  - apply (i_lock _ _ _ _ _ HI) in Hlk as (o' & k' & q' & Hj & Hin).
    eapply Hrun; [done|]. intros n' ->. by apply not_elem_of_nil in Hin.
  - destruct (fine_op_enabled _ _ _ _ _ HI _ _ _ _ Hi) as (m & r & Hr); [by intros a [= <-]|].
    by exists i, m, o, k, (LockP n), r.
Qed.

(** A thread waits for a held mutex of an allocated node or can make its next access. *)
Lemma fine_op_safe sh cs S D xs i o k q :
  inv sh cs S D xs → cs !! i = Some (Some (o, k, q)) →
  op_waits sh q = true ∨ ∃ m r, op_step i m sh o k q = Some r.
Proof.
  intros HI Hi. pose proof (fine_waits_alloc _ _ _ _ _ HI _ _ _ _ Hi) as Hal.
  assert (op_waits sh q = match waits sh q with Some a => mutex_held sh a | None => false end) as ->
    by by destruct q.
  destruct (waits sh q) as [a|] eqn:Hw.
  - destruct (Hal a eq_refl) as [nd Hnd]. unfold mutex_held. rewrite Hnd.
    destruct (sh_lk sh !! a) as [j|] eqn:Hlk; [by left|right].
    eapply (fine_op_enabled _ _ _ _ _ HI); [done|]. intros a'. rewrite Hw. by intros [= <-].
  - right. eapply (fine_op_enabled _ _ _ _ _ HI); [done|]. by rewrite Hw.
Qed.

(** * The interface *)

Lemma fine_inv_init h t n : h ≠ t → inv (Shared (list_init h t) h t ∅) (replicate n None) ∅ ∅ [].
Proof.
  intros Hne. assert (∀ i x, replicate n (None : opstate) !! i = Some (Some x) → False) as Hn.
  { intros i x. rewrite lookup_replicate. naive_solver. }
  constructor; cbn.
  - rewrite (left_id_L ∅ (∪)). by apply list_init_is_list.
  - done.
  - by intros ???? []%Hn.
  - intros a i. rewrite lookup_empty. split; [done|]. by intros (? & ? & ? & []%Hn & _).
  - by intros ????????? []%Hn.
  - by intros ????? []%Hn.
  - intros a [? ?]. by rewrite lookup_empty in *.
Qed.

Lemma fine_inv_call sh (cs : list opstate) S D xs i o k :
  inv sh cs S D xs → cs !! i = Some None → key_ok k →
  inv sh (<[i:=Some (o, k, op_start o)]> cs) S D xs.
Proof.
  intros HI Hi Hk. assert (i < length cs)%nat as Hlt by by eapply lookup_lt_Some.
  assert (∀ x, cs !! i = Some (Some x) → False) as Hnone.
  { intros x Hx. pose proof (eq_trans (eq_sym Hi) Hx). discriminate. }
  constructor; [apply HI|apply HI|..].
  - intros j o' k' q' [[<- Hj]|[Hne Hj]]%lookup_insert_inv; [|by eapply (i_pc _ _ _ _ _ HI)].
    injection Hj as -> -> ->. split; [done|]. by destruct o.
  - intros a j. rewrite (i_lock _ _ _ _ _ HI). destruct (decide (i = j)) as [<-|Hne].
    + rewrite list_lookup_insert_eq by done. split; [by intros (? & ? & ? & []%Hnone & _)|].
      intros (? & ? & ? & [= <- <- <-] & Ha). destruct o; by apply not_elem_of_nil in Ha.
    + by rewrite list_lookup_insert_ne.
  - assert (∀ a, owned (op_start o) = Some a → False) as Hno by by destruct o.
    intros j1 j2 o1 k1 q1 o2 k2 q2 a [[<- H1]|[Hn1 H1]]%lookup_insert_inv
      [[<- H2]|[Hn2 H2]]%lookup_insert_inv Ho1 Ho2; [done|..|by eapply (i_own _ _ _ _ _ HI)];
      simplify_eq; exfalso; by eapply Hno.
  - intros j o' k' q' a [[<- Hj]|[Hne Hj]]%lookup_insert_inv; [|by eapply (i_dead _ _ _ _ _ HI)].
    simplify_eq. by destruct o.
  - intros a (? & j & o' & k' & n & c & Hj)%(i_pend _ _ _ _ _ HI). split; [done|].
    exists j, o', k', n, c. rewrite list_lookup_insert_ne; [done|]. intros ->. by apply Hnone in Hj.
Qed.

Lemma fine_op_step_ok sh cs S D xs i m o k q sh' r :
  inv sh cs S D xs → cs !! i = Some (Some (o, k, q)) → op_step i m sh o k q = Some (sh', r) →
  step_ok cs S i o k q sh' r.
Proof.
  intros HI Hi Hs.
  destruct o; cbn in Hs; [by eapply fine_list_add_ok|by eapply fine_list_remove_ok|by eapply fine_list_contains_ok].
Qed.

#[export] Instance fine_spec : ListSpec fine.
Proof.
  refine {| list_inv sh cs S := ∃ D xs, inv sh cs S D xs; mem_ok := sentinels_unlocked |}.
  - intros h t mem n Hne Hmem. exists ∅, []. cbn. rewrite node_lk_init_unlocked by done. by apply fine_inv_init.
  - intros sh cs S i o k (D & xs & HI) Hi Hk. exists D, xs. by apply fine_inv_call.
  - by intros [].
  - intros sh cs S i m o k q sh' q' (D & xs & HI) Hi Hs. exact (fine_op_step_ok _ _ _ _ _ _ _ _ _ _ _ _ HI Hi Hs).
  - intros sh cs S i m o k q sh' b (D & xs & HI) Hi Hs. exact (fine_op_step_ok _ _ _ _ _ _ _ _ _ _ _ _ HI Hi Hs).
  - intros sh cs S (D & xs & HI) Hn. exists xs. split; [|apply HI].
    pose proof (i_list _ _ _ _ _ HI) as Hl. replace (sh_heap sh) with (D ∪ sh_heap sh); [done|].
    replace D with (∅ : gmap nat node); [by rewrite (left_id_L ∅ (∪))|]. apply map_eq. intros a.
    rewrite lookup_empty. destruct (D !! a) eqn:Ha; [exfalso|done].
    destruct (i_pend _ _ _ _ _ HI a) as (_ & j & o & k & x & c & Hj); [by rewrite Ha|].
    rewrite Forall_lookup in Hn. by specialize (Hn _ _ Hj).
  - intros sh cs S i x (D & xs & HI) Hi. by eapply fine_progress.
  - intros sh cs S i o k q (D & xs & HI) Hi. by eapply fine_op_safe.
Defined.

(** * The program *)

(** C4: the fine-grained list program is linearizable, for workloads with keys from [INT_MIN] up to
    below [INT_MAX] and provided that the memory of the two sentinels'
    mutexes, which [list_init] never initializes, reads as unlocked mutexes: when [main]
    ends, the history of calls and returns of the run is a complete history of the
    atomic set, in which every operation takes effect at one instant between its call
    and its return (so the order of operations that do not overlap is kept) and returns
    what its thread got, and the final validation prints "correct!" exactly when the
    result file lists the set at the end of that history in increasing order. *)
Theorem fine_main_correct expected h t mem works hist s v :
  h ≠ t → sentinels_unlocked mem → Forall (Forall (λ w, key_ok (w_value w))) works →
  run (lhstep expected) (linit (L:=fine) h t mem works) hist s → l_main s = LDone v →
  ∃ S, run spec_step (spec_init works) hist (ASpec S ((λ th, AThread [] None (t_rets th)) <$> l_ts s)) ∧
    (v = true ↔ StronglySorted Z.lt expected ∧ list_to_set expected = S).
Proof. intros Hne Hm Hk. by apply (list_main_output (LS:=fine_spec) expected h t mem works Hne Hm Hk). Qed.

(** C6: hand-over-hand locking never deadlocks, and freeing a node after its unlock is
    safe, for keys from [INT_MIN] up to below [INT_MAX] and sentinel mutexes that
    read as unlocked: in every reachable state [main] has ended or some step is
    possible, and every created thread has finished, waits for the held mutex of an
    allocated node, or can make its next access, so no thread is ever at an access
    through a null pointer or to a freed node. *)
Theorem fine_main_progress expected h t mem works s :
  h ≠ t → sentinels_unlocked mem → Forall (Forall (λ w, key_ok (w_value w))) works →
  reachable (linit (L:=fine) h t mem works) (lstep expected) s →
  ((∃ v, l_main s = LDone v) ∨ ∃ s', lstep expected s s') ∧
  ∀ i th, l_ts s !! i = Some th → lcreated (l_main s) i = true →
    thread_done th = true ∨ waiting s i = true ∨ ∃ c s', lnext expected (LThread i c) s = Some s'.
Proof. intros Hne Hm Hk. by apply (list_main_progress (LS:=fine_spec) expected h t mem works Hne Hm Hk). Qed.

Definition sample_works : list (list work) :=
  [[Work "A" 7; Work "A" 3]; [Work "R" 7; Work "C" 3]].

(** Thread 1 starts while thread 0 is linking 7, and has to wait for the head. *)
Definition sample_sched : list lsched :=
  [LMain; LMain; LMain] ++ replicate 8 (LThread 0 5) ++ [LThread 1 0] ++ replicate 3 (LThread 0 5) ++
  replicate 10 (LThread 1 0) ++ replicate 11 (LThread 0 6) ++ replicate 8 (LThread 1 0) ++ replicate 3 LMain.

Definition sample_state : lstate :=
  Eval vm_compute in default (linit 0 1 (None, None) sample_works) (run_sched (lnext [3]) sample_sched (linit 0 1 (None, None) sample_works)).

Definition sample_hist : list event :=
  Eval vm_compute in
    match run_hist [3] sample_sched (linit 0 1 (None, None) sample_works) with Some (hist, _) => hist | None => [] end.

Lemma fine_sample : run (lhstep [3]) (linit 0 1 (None, None) sample_works) sample_hist sample_state.
Proof.
  apply (run_hist_run [3] sample_sched). vm_cast_no_check (eq_refl (Some (sample_hist, sample_state))).
Qed.

Lemma fine_sample_keys : Forall (Forall (λ w, key_ok (w_value w))) sample_works.
Proof. repeat (apply Forall_cons; split) || apply Forall_nil; repeat constructor; done. Qed.

Lemma fine_main_correct_witness :
  l_main sample_state = LDone true ∧ t_rets <$> l_ts sample_state = [[true; true]; [true; true]] ∧
  sample_hist =
    [Call 0 OAdd 7; Call 1 ORemove 7; Return 0 true; Return 1 true;
    Call 0 OAdd 3; Return 0 true; Call 1 OContains 3; Return 1 true] ∧
  ∃ S, run spec_step (spec_init sample_works) sample_hist
    (ASpec S ((λ th, AThread [] None (t_rets th)) <$> l_ts sample_state)) ∧
    (true = true ↔ StronglySorted Z.lt [3] ∧ list_to_set [3] = S).
Proof.
  split; [reflexivity|]. split; [reflexivity|]. split; [reflexivity|].
  apply (fine_main_correct [3] 0 1 (None, None) sample_works sample_hist);
    [done|done|apply fine_sample_keys|apply fine_sample|reflexivity].
Defined.

Definition wait_state : lstate :=
  Eval vm_compute in default (linit 0 1 (None, None) sample_works)
    (run_sched (lnext [3]) (take 12 sample_sched) (linit 0 1 (None, None) sample_works)).

Lemma fine_wait : reachable (linit 0 1 (None, None) sample_works) (lstep [3]) wait_state.
Proof. apply (run_sched_rtc (lnext [3]) (take 12 sample_sched)). vm_cast_no_check (eq_refl (Some wait_state)). Qed.

Lemma fine_main_progress_witness :
  lnext [3] (LThread 1 0) wait_state = None ∧ waiting wait_state 1 = true ∧
  ((∃ v, l_main wait_state = LDone v) ∨ ∃ s', lstep [3] wait_state s') ∧
  ∀ i th, l_ts wait_state !! i = Some th → lcreated (l_main wait_state) i = true →
    thread_done th = true ∨ waiting wait_state i = true ∨ ∃ c s', lnext [3] (LThread i c) wait_state = Some s'.
Proof.
  split; [reflexivity|]. split; [reflexivity|].
  apply (fine_main_progress [3] 0 1 (None, None) sample_works);
    [done|done|apply fine_sample_keys|apply fine_wait].
Defined.

(** The mutex of the head is whatever the memory held: when it reads as a locked mutex,
    the first operation waits for ever. *)
Definition stuck_works : list (list work) := [[Work "C" 3]].
Definition stuck_sched : list lsched := [LMain; LMain; LThread 0 0].

Definition stuck_state : lstate :=
  Eval vm_compute in default (linit 0 1 (Some 9%nat, None) stuck_works)
    (run_sched (lnext []) stuck_sched (linit 0 1 (Some 9%nat, None) stuck_works)).

Lemma fine_uninitialized_mutex :
  reachable (linit 0 1 (Some 9%nat, None) stuck_works) (lstep []) stuck_state ∧
  l_main stuck_state = LJoin 0 ∧ waiting stuck_state 0 = true ∧ ∀ d, lnext [] d stuck_state = None.
Proof.
  split; [apply (run_sched_rtc (lnext []) stuck_sched); vm_cast_no_check (eq_refl (Some stuck_state))|].
  split; [reflexivity|]. split; [reflexivity|]. intros [|[|i] c]; reflexivity.
Qed.

End Fine.
