(* ===== verification/OptimisticList.v ===== *)
(** The optimistic list (src/Lab11/optimistic.cpp): the search runs without locks,
    then [prev] and [curr] are locked and [list_validate] walks the list again to see
    whether [prev] is still reachable and points to [curr].  Removed nodes are never
    freed.

    The walks may run over removed nodes.  The invariant keeps the removed nodes in
    the order of their removal: the successor of a removed node is in the list or was
    removed later.  So a walk that starts after the removal of [prev] cannot find it,
    and a successful validation means that [prev] is in the list. *)

From S2P Require Import Prelude ListHeap ListClient NodeLocks.

Local Open Scope Z_scope.

Module Optimistic.

(** Program counters, with the local variables: [n] is [node] (of [list_add]), [p] is
    [prev], [c] is [curr], [it] is the variable of [list_validate]. *)
Inductive pc :=
  | Alloc
  | Head (n : option nat)
  | Loop (n : option nat) (p c : nat)
  | Next (n : option nat) (c : nat)
  | LockP (n : option nat) (p c : nat)
  | LockC (n : option nat) (p c : nat)
  | VLoop (n : option nat) (p c it : nat)
  | VNext (n : option nat) (p c it : nat)
  | VCmp (n : option nat) (p c : nat)
  | RetP (n : option nat) (p c : nat)
  | RetC (n : option nat) (c : nat)
  | Test (n : option nat) (p c : nat)
  | Link1 (n p c : nat)
  | Link2 (n p c : nat)
  | UnlinkR (p c : nat)
  | UnlinkW (p c : nat) (nx : option nat)
  | RelP (b : bool) (p c : nat)
  | RelC (b : bool) (c : nat).

(** [list_validate]: the loop test, the comparison of [it->next] with [curr], and the
    advance.  A result of [false] goes on to the unlocks of the retry, a result of
    [true] to the code after the validation. *)
Definition list_validate (sh : nshared) (q : pc) : option pc :=
  match q with
  | VLoop n p c it =>
      ni ← sh_heap sh !! it; np ← sh_heap sh !! p;
      Some (if key ni <=? key np then
              (if (it =? p)%nat then VCmp n p c else VNext n p c it)
            else RetP n p c)
  | VCmp n p c =>
      np ← sh_heap sh !! p;
      Some (if decide (next np = Some c) then Test n p c else RetP n p c)
  | VNext n p c it => ni ← sh_heap sh !! it; it' ← next ni; Some (VLoop n p c it')
  | _ => None
  end.

(** What the three operations share: the search, the two locks, the validation with
    the retry, and the two unlocks before the return. *)
Definition search (i : nat) (sh : nshared) (k : Z) (q : pc) : option (nshared * (pc + bool)) :=
  match q with
  | Head n => nd ← sh_heap sh !! sh_head sh; c ← next nd; Some (sh, inl (Loop n (sh_head sh) c))
  | Loop n p c => nd ← sh_heap sh !! c; Some (sh, inl (if key nd <? k then Next n c else LockP n p c))
  | Next n c => nd ← sh_heap sh !! c; c' ← next nd; Some (sh, inl (Loop n c c'))
  | LockP n p c => sh' ← lock i sh p; Some (sh', inl (LockC n p c))
  | LockC n p c => sh' ← lock i sh c; Some (sh', inl (VLoop n p c (sh_head sh)))
  | VLoop _ _ _ _ | VNext _ _ _ _ | VCmp _ _ _ => q' ← list_validate sh q; Some (sh, inl q')
  | RetP n p c => sh' ← unlock sh p; Some (sh', inl (RetC n c))
  | RetC n c => sh' ← unlock sh c; Some (sh', inl (Head n))
  | RelP b p c => sh' ← unlock sh p; Some (sh', inl (RelC b c))
  | RelC b c => sh' ← unlock sh c; Some (sh', inr b)
  | _ => None
  end.

(** [list_add]; [m] is the address [malloc] returns: its mutex is initialized, its
    [next] is not. *)
Definition list_add (i m : nat) (sh : nshared) (k : Z) (q : pc) : option (nshared * (pc + bool)) :=
  match q with
  | Alloc =>
      match sh_heap sh !! m with
      | None => Some (Shared (<[m:=Node k None]> (sh_heap sh)) (sh_head sh) (sh_tail sh) (delete m (sh_lk sh)),
                      inl (Head (Some m)))
      | Some _ => None
      end
  | Test (Some n) p c =>
      nd ← sh_heap sh !! c;
      Some (sh, inl (if key nd =? k then RelP false p c else Link1 n p c))
  | Link1 n p c => H ← set_next (sh_heap sh) n (Some c); Some (heap_upd sh H, inl (Link2 n p c))
  | Link2 n p c => H ← set_next (sh_heap sh) p (Some n); Some (heap_upd sh H, inl (RelP true p c))
  | _ => search i sh k q
  end.

Definition list_remove (i : nat) (sh : nshared) (k : Z) (q : pc) : option (nshared * (pc + bool)) :=
  match q with
  | Test n p c =>
      nd ← sh_heap sh !! c;
      Some (sh, inl (if negb (key nd =? k) then RelP false p c else UnlinkR p c))
  | UnlinkR p c => nd ← sh_heap sh !! c; Some (sh, inl (UnlinkW p c (next nd)))
  | UnlinkW p c nx => H ← set_next (sh_heap sh) p nx; Some (heap_upd sh H, inl (RelP true p c))
  | _ => search i sh k q
  end.

Definition list_contains (i : nat) (sh : nshared) (k : Z) (q : pc) : option (nshared * (pc + bool)) :=
  match q with
  | Test n p c => nd ← sh_heap sh !! c; Some (sh, inl (RelP (key nd =? k) p c))
  | _ => search i sh k q
  end.

(** As in the fine-grained list, the mutexes of the sentinels are never initialized: they
    hold what the memory held. *)
#[export] Instance optimistic : ListImpl := {
  lk := gmap nat nat;
  lk_mem := node_mem;
  lk_init := node_lk_init;
  opc := pc;
  op_start o := match o with OAdd => Alloc | _ => Head None end;
  op_step i m sh o k q :=
    match o with
    | OAdd => list_add i m sh k q
    | ORemove => list_remove i sh k q
    | OContains => list_contains i sh k q
    end;
  op_waits sh q :=
    match q with LockP _ p _ => mutex_held sh p | LockC _ _ c => mutex_held sh c | _ => false end;
  lin q := match q with RelP b _ _ | RelC b _ => Some b | _ => None end;
}.

(** The other functions of the file: [list_init], [ThreadFunc], and [main], first up to
    [list_init] with the tokens of workload.txt, then its steps. *)
Definition init (h t : nat) (mem : node_mem) : shared (@lk optimistic) :=
  Shared (list_init h t) h t (@lk_init optimistic h t mem).
Definition ThreadFunc := thread_step (L:=optimistic).
Definition main_start (h t : nat) (mem : node_mem) (toks : list token) : option (lstate (H:=optimistic)) :=
  works ← read_workload toks; Some (linit (L:=optimistic) h t mem works).
Definition main_step := lmain_step (L:=optimistic).

(** * The invariant *)

(** The mutexes a thread holds. *)
Definition lockset (q : pc) : list nat :=
  match q with
  | Alloc | Head _ | Loop _ _ _ | Next _ _ | LockP _ _ _ => []
  | LockC _ p _ => [p]
  | RetC _ c | RelC _ c => [c]
  | VLoop _ p c _ | VNext _ p c _ | VCmp _ p c | RetP _ p c | Test _ p c | Link1 _ p c | Link2 _ p c
  | UnlinkR p c | UnlinkW p c _ | RelP _ p c => [p; c]
  end.

Notation held := (λ x : opk * Z * pc, lockset x.2).

(** The node allocated by [list_add] and not linked yet. *)
Definition owned (q : pc) : option nat :=
  match q with
  | Head n | Loop n _ _ | Next n _ | LockP n _ _ | LockC n _ _ | VLoop n _ _ _ | VNext n _ _ _
  | VCmp n _ _ | RetP n _ _ | RetC n _ | Test n _ _ => n
  | Link1 n _ _ | Link2 n _ _ => Some n
  | _ => None
  end.

Section invariant.
Context (H : gmap nat node) (head tail : nat) (xs : list (nat * Z)) (R : list nat).

Notation live a := (a ∈ (entries head tail xs).*1).

(** Nodes that are or were in the list. *)
Definition known (a : nat) : Prop := live a ∨ a ∈ R.

(** [a] was removed after [p]. *)
Definition after (p a : nat) : Prop := ∃ R1 R2, R = R1 ++ p :: R2 ∧ a ∈ R2.

(** A removed node still points into the list or to a node removed later, with a
    larger key. *)
Record removed_ok : Prop := {
  r_nodup : NoDup R;
  r_dead r : r ∈ R → ¬ live r;
  r_next R1 r R2 : R = R1 ++ r :: R2 →
    ∃ kr c kc nx, H !! r = Some (Node kr (Some c)) ∧ H !! c = Some (Node kc nx) ∧
      kr < kc ∧ kr < INT_MAX ∧ c ≠ head ∧ (live c ∨ c ∈ R2);
}.

Definition fresh_ok (o : opk) (k : Z) (n : option nat) : Prop :=
  match o with OAdd => ∃ a, n = Some a ∧ H !! a = Some (Node k None) | _ => n = None end.

(** A position of the search without locks. *)
Definition spos (k : Z) (p c : nat) : Prop :=
  known p ∧ known c ∧ c ≠ head ∧ (p = head ∨ keyat H p (λ kp, kp < k)).

Definition locking (k : Z) (p c : nat) : Prop := spos k p c ∧ keyat H c (λ kc, k ≤ kc).

(** The validation: if [p] was removed, the walk is past its removal. *)
Definition vsafe (p it : nat) : Prop := known it ∧ (p ∈ R → live it ∨ after p it).

Definition pc_ok (o : opk) (k : Z) (q : pc) : Prop :=
  match q with
  | Alloc => o = OAdd
  | Head n => fresh_ok o k n
  | Loop n p c => fresh_ok o k n ∧ spos k p c
  | Next n c => fresh_ok o k n ∧ known c ∧ c ≠ head ∧ keyat H c (λ kc, kc < k)
  | LockP n p c | LockC n p c => fresh_ok o k n ∧ locking k p c
  | VLoop n p c it => fresh_ok o k n ∧ locking k p c ∧ vsafe p it
  | VNext n p c it => fresh_ok o k n ∧ locking k p c ∧ vsafe p it ∧ keyat H it (λ ki, ki < INT_MAX)
  | VCmp n p c => fresh_ok o k n ∧ locking k p c ∧ live p
  | RetP n p c => fresh_ok o k n ∧ known p ∧ known c ∧ p ≠ c
  | RetC n c => fresh_ok o k n ∧ known c
  | Test n p c => fresh_ok o k n ∧ adj H head tail xs k p c ∧ keyat H c (λ kc, k ≤ kc)
  | Link1 n p c => o = OAdd ∧ fresh_ok o k (Some n) ∧ adj H head tail xs k p c ∧ keyat H c (λ kc, k < kc)
  | Link2 n p c => o = OAdd ∧ H !! n = Some (Node k (Some c)) ∧ adj H head tail xs k p c ∧ keyat H c (λ kc, k < kc)
  | UnlinkR p c => o = ORemove ∧ adj H head tail xs k p c ∧ keyat H c (λ kc, kc = k)
  | UnlinkW p c nx => o = ORemove ∧ adj H head tail xs k p c ∧ H !! c = Some (Node k nx)
  | RelP b p c => known p ∧ known c ∧ p ≠ c
  | RelC b c => known c
  end.
End invariant.

Record inv (sh : nshared) (cs : list opstate) (S : gset Z) (xs : list (nat * Z)) (R : list nat) : Prop := {
  i_list : is_list (sh_heap sh) (sh_head sh) (sh_tail sh) xs;
  i_set : contents xs = S;
  i_removed : removed_ok (sh_heap sh) (sh_head sh) (sh_tail sh) xs R;
  i_pc i o k q : cs !! i = Some (Some (o, k, q)) →
    key_ok k ∧ pc_ok (sh_heap sh) (sh_head sh) (sh_tail sh) xs R o k q;
  i_lock : table_ok held (sh_lk sh) cs;
  i_own i j o k q o' k' q' a :
    cs !! i = Some (Some (o, k, q)) → cs !! j = Some (Some (o', k', q')) →
    owned q = Some a → owned q' = Some a → i = j;
  i_new i o k q a : cs !! i = Some (Some (o, k, q)) → owned q = Some a →
    ¬ known (sh_head sh) (sh_tail sh) xs R a;
}.

(** * Nodes that are or were in the list *)

Section known.
Context (H : gmap nat node) (head tail : nat) (xs : list (nat * Z)) (R : list nat).
Hypothesis Hl : is_list H head tail xs.
Hypothesis HR : removed_ok H head tail xs R.
Notation known := (known head tail xs R).

Lemma removed_lookup r : r ∈ R → ∃ kr nx, H !! r = Some (Node kr nx) ∧ kr < INT_MAX.
Proof.
  intros (R1 & R2 & He)%list_elem_of_split. destruct (r_next _ _ _ _ _ HR _ _ _ He) as (kr & c & kc & nx & ? & ? & ? & ? & _).
  eauto.
Qed.

Lemma known_lookup a : known a → ∃ k nx, H !! a = Some (Node k nx) ∧ k ≤ INT_MAX.
Proof.
  intros [Ha|(kr & nx & ? & ?)%removed_lookup]; [|do 2 eexists; split; [done|lia]].
  destruct (live_lookup _ _ _ _ Hl a Ha) as (k & nx & Hk). exists k, nx. split; [done|].
  pose proof (live_key _ _ _ _ Hl a k nx Ha Hk) as Hin. pose proof (il_sorted _ _ _ _ Hl) as Hs.
  unfold entries in Hin.
  apply elem_of_cons in Hin as [[= -> ->]|[Hin|[= -> ->]%list_elem_of_singleton]%elem_of_app]; [done| |done].
  assert (k ∈ xs.*2) by (apply list_elem_of_fmap; by exists (a, k)).
  pose proof (StronglySorted_app_1_elem_of _ _ _ k INT_MAX Hs ltac:(done) ltac:(set_solver)). lia.
Qed.

(** The successor of a node other than the tail. *)
Lemma known_next a k nx :
  known a → H !! a = Some (Node k nx) → k < INT_MAX → ∃ c, nx = Some c ∧ known c ∧ c ≠ head.
Proof.
  intros [Ha|Ha] Hk Hlt.
  - destruct (live_next _ _ _ _ Hl a k nx Ha Hk) as [[_ ->]|(c & -> & Hc)]; [lia|].
    exists c. split; [done|]. split; [by left|].
    eapply (adj_succ_not_head _ _ _ _ Hl (k + 1) a). split; [done|]. exists k. split; [done|]. right. lia.
  - apply list_elem_of_split in Ha as (R1 & R2 & He).
    destruct (r_next _ _ _ _ _ HR _ _ _ He) as (kr & c & kc & nx' & Hr & _ & _ & _ & Hne & Hc).
    rewrite Hr in Hk. simplify_eq. exists c. split; [done|]. split; [|done].
    destruct Hc; [by left|right; set_solver].
Qed.

Lemma after_ne p : ¬ after R p p.
Proof.
  intros (R1 & R2 & He & Hin). pose proof (r_nodup _ _ _ _ _ HR) as Hnd. rewrite He in Hnd.
  apply NoDup_app in Hnd as (_ & _ & [? _]%NoDup_cons). done.
Qed.

(** The walk of the validation stays past the removal of [p]. *)
Lemma vsafe_next p it k c :
  vsafe head tail xs R p it → H !! it = Some (Node k (Some c)) → k < INT_MAX → vsafe head tail xs R p c.
Proof.
  intros [Hit Hs] Hk Hlt. destruct (known_next _ _ _ Hit Hk Hlt) as (c' & [= <-] & Hc & _).
  split; [done|]. intros Hp. destruct (Hs Hp) as [Hv|(R1 & R2 & He & Hin)].
  - left. by destruct (live_next _ _ _ _ Hl it k (Some c) Hv Hk) as [[_ ->]|(? & [= <-] & ?)]; [lia|].
  - apply list_elem_of_split in Hin as (A & B & ->).
    rewrite app_comm_cons, app_assoc in He. destruct (r_next _ _ _ _ _ HR _ _ _ He) as (kr & c' & kc & nx & Hr & _ & _ & _ & _ & Hc').
    rewrite Hr in Hk. injection Hk as <- <-. destruct Hc' as [|Hb]; [by left|right].
    exists R1, (A ++ it :: B). split; [by rewrite He, <- app_assoc|set_solver].
Qed.

(** When the walk arrives at [p], it is in the list. *)
Lemma vsafe_found p : vsafe head tail xs R p p → p ∈ (entries head tail xs).*1.
Proof. intros [[?|Hp] Hs]; [done|]. destruct (Hs Hp) as [?|?%after_ne]; done. Qed.

Lemma locking_ne k p c : locking H head tail xs R k p c → p ≠ c.
Proof.
  intros [(_ & _ & Hc & [->|(kp & nx & Hp & ?)]) (kc & nx' & Hkc & ?)]; [done|].
  intros ->. simplify_eq. lia.
Qed.

Lemma adj_known k p c : adj H head tail xs k p c → known p ∧ known c ∧ p ≠ c.
Proof.
  intros Ha. destruct (adj_live _ _ _ _ Hl _ _ _ Ha).
  destruct (adj_split _ _ _ _ Hl _ _ _ Ha) as (_ & _ & _ & _ & _ & _ & _ & _ & _ & Hne).
  split; [by left|]. split; [by left|done].
Qed.
End known.

(** * Stability of the invariant of a thread *)

Section frame.
Context (H H' : gmap nat node) (head tail : nat) (xs xs' : list (nat * Z)) (R l : list nat).
Notation live a := (a ∈ (entries head tail xs).*1).
Notation live' a := (a ∈ (entries head tail xs').*1).
Hypothesis Hl : is_list H head tail xs.
(** Keys of nodes do not change; nodes leave the list only by being removed. *)
Hypothesis Hkeys : ∀ a k nx, known head tail xs R a → H !! a = Some (Node k nx) → ∃ nx', H' !! a = Some (Node k nx').
Hypothesis Hrem : ∀ a, live a → live' a ∨ a ∈ l.

Lemma known_frame a : known head tail xs R a → known head tail xs' (R ++ l) a.
Proof. intros [[?|?]%Hrem|?]; [by left|right; set_solver..]. Qed.

Lemma keyat_known a P : known head tail xs R a → keyat H a P → keyat H' a P.
Proof. intros Ha (k & nx & Hk & ?). destruct (Hkeys a k nx Ha Hk) as [nx' ?]. by exists k, nx'. Qed.

Lemma spos_frame k p c : spos H head tail xs R k p c → spos H' head tail xs' (R ++ l) k p c.
Proof.
  intros (Hp & Hc & ? & Hk). split_and!; [by apply known_frame..|done|].
  destruct Hk; [by left|right]. by apply keyat_known.
Qed.

Lemma locking_frame k p c : locking H head tail xs R k p c → locking H' head tail xs' (R ++ l) k p c.
Proof.
  intros [Hs Hk]. split; [by apply spos_frame|]. destruct Hs as (_ & ? & _). by apply keyat_known.
Qed.

Lemma vsafe_frame p it :
  (p ∈ R ++ l → p ∈ R) → vsafe head tail xs R p it → vsafe head tail xs' (R ++ l) p it.
Proof.
  intros Hp [Hit Hs]. split; [by apply known_frame|]. intros Hp'%Hp.
  assert (it ∈ l → after (R ++ l) p it) as Hnew.
  { apply list_elem_of_split in Hp' as (R1 & R2 & ->). intros. exists R1, (R2 ++ l).
    split; [by rewrite <- app_assoc|set_solver]. }
  destruct (Hs Hp') as [[?|?]%Hrem|(R1 & R2 & -> & ?)]; auto.
  right. exists R1, (R2 ++ l). split; [by rewrite <- app_assoc|set_solver].
Qed.

Lemma opt_pc_ok_frame o k q :
  (∀ a, a ∈ lockset q ∨ owned q = Some a → H' !! a = H !! a) →
  (∀ a, a ∈ lockset q → (live a → live' a) ∧ (a ∈ R ++ l → a ∈ R)) →
  pc_ok H head tail xs R o k q → pc_ok H' head tail xs' (R ++ l) o k q.
Proof.
  intros Hf Hlk. pose proof known_frame as Hkn. pose proof locking_frame as Hlo. pose proof spos_frame as Hsp.
  assert (∀ n, (∀ a, n = Some a → owned q = Some a) → fresh_ok H o k n → fresh_ok H' o k n) as Hfr.
  { intros n Hn. destruct o; cbn; [|done..]. intros (a & -> & Ha). exists a. rewrite Hf; auto. }
  assert (∀ p c, p ∈ lockset q → adj H head tail xs k p c → adj H' head tail xs' k p c) as Hadj.
  { intros p c Hp Ha. eapply adj_frame; [by apply Hf; auto| |done]. apply Hlk; [done|]. by destruct Ha. }
  assert (∀ p c P, adj H head tail xs k p c → keyat H c P → keyat H' c P) as Hka.
  { intros p c P Ha. apply keyat_known. left. by apply (adj_live _ _ _ _ Hl _ _ _ Ha). }
  assert (∀ p it, p ∈ lockset q → vsafe head tail xs R p it → vsafe head tail xs' (R ++ l) p it) as Hvs.
  { intros p it Hp. apply vsafe_frame. by apply Hlk. }
  destruct q as [|n|n p c|n c|n p c|n p c|n p c it|n p c it|n p c|n p c|n c|n p c|n p c|n p c|p c|p c nx|b p c|b c];
    cbn [pc_ok lockset owned] in *; intros Hq; destruct_and?; split_and?;
    try solve [done | apply Hfr; [by auto|done] | by apply Hkn | by apply Hlo | by apply Hsp
      | apply Hvs; [set_solver|done] | apply Hadj; [set_solver|done] | by eapply Hka
      | eapply keyat_known; [|done]; done | apply Hlk; [set_solver|done] | rewrite Hf; [done|set_solver]].
  match goal with Hv : vsafe _ _ _ _ _ _ |- _ => destruct Hv end. by apply keyat_known.
Qed.
End frame.

Lemma lockset_known H hd tl xs R o k q a :
  is_list H hd tl xs → pc_ok H hd tl xs R o k q → a ∈ lockset q → known hd tl xs R a.
Proof.
  intros Hl Hq. pose proof (adj_known _ _ _ _ R Hl k) as Hadj.
  assert (∀ p c, a ∈ [p; c] → known hd tl xs R p → known hd tl xs R c → known hd tl xs R a) as Htwo.
  { by intros p c [->|[->|[]%not_elem_of_nil]%elem_of_cons]%elem_of_cons. }
  assert (∀ p, a ∈ [p] → known hd tl xs R p → known hd tl xs R a) as Hone.
  { by intros p ->%list_elem_of_singleton. }
  assert (∀ p c, a ∈ [p; c] → adj H hd tl xs k p c → known hd tl xs R a) as Ha2.
  { intros p c Ha (? & ? & _)%Hadj. by apply (Htwo p c Ha). }
  assert (∀ p c, locking H hd tl xs R k p c → known hd tl xs R p ∧ known hd tl xs R c) as Hlo.
  { by intros p c [(? & ? & _) _]. }
  destruct q as [|n|n p c|n c|n p c|n p c|n p c it|n p c it|n p c|n p c|n c|n p c|n p c|n p c|p c|p c nx|b p c|b c];
    cbn [pc_ok lockset] in *; destruct_and?; intros Ha; try (by apply not_elem_of_nil in Ha);
    try (by apply (Ha2 _ _ Ha)); try (by apply (Htwo _ _ Ha)); try (by apply (Hone _ Ha));
    match goal with Hx : locking _ _ _ _ _ _ _ _ |- _ => destruct (Hlo _ _ Hx) end;
    solve [by apply (Hone _ Ha)|by apply (Htwo _ _ Ha)].
Qed.

Lemma opt_owned_alloc H hd tl xs R o k q a :
  pc_ok H hd tl xs R o k q → owned q = Some a → is_Some (H !! a).
Proof.
  intros Hq Ho. assert (∀ n, fresh_ok H o k n → n = Some a → is_Some (H !! a)) as Hfr.
  { intros n Hn ->. destruct o; cbn in Hn; [|done..]. destruct Hn as (? & ? & ?). simplify_eq. eauto. }
  destruct q; cbn in *; destruct_and?; simplify_eq; eauto.
Qed.

(** * One thread moves *)

Section move.
Context (sh : nshared) (cs : list opstate) (S : gset Z) (xs : list (nat * Z)) (R : list nat).
Hypothesis HI : inv sh cs S xs R.
Context (i : nat) (o : opk) (k : Z) (q : pc).
Hypothesis Hi : cs !! i = Some (Some (o, k, q)).

Notation hd := (sh_head sh).
Notation tl := (sh_tail sh).
Notation live a := (a ∈ (entries hd tl xs).*1).

Lemma opt_thread_key : key_ok k.
Proof. by destruct (i_pc _ _ _ _ _ HI _ _ _ _ Hi). Qed.

Lemma opt_thread_pc : pc_ok (sh_heap sh) hd tl xs R o k q.
Proof. by destruct (i_pc _ _ _ _ _ HI _ _ _ _ Hi) as (_ & ?). Qed.

(** What another thread has locked or owns is neither locked nor owned by [i], nor
    free memory. *)
Lemma opt_others_disjoint j o' k' q' a :
  j ≠ i → cs !! j = Some (Some (o', k', q')) → a ∈ lockset q' ∨ owned q' = Some a →
  a ∈ lockset q ∨ owned q = Some a ∨ sh_heap sh !! a = None → False.
Proof.
  intros Hne Hj Ha' Ha. destruct (i_pc _ _ _ _ _ HI _ _ _ _ Hj) as (_ & Hp'). pose proof opt_thread_pc as Hp.
  pose proof (i_list _ _ _ _ _ HI) as Hl. pose proof (i_removed _ _ _ _ _ HI) as HR.
  destruct Ha' as [Ha'|Ha'], Ha as [Ha|[Ha|Ha]].
  - by eapply Hne, (table_inj _ _ _ (i_lock _ _ _ _ _ HI) j i _ _ a Hj Hi).
  - apply (i_new _ _ _ _ _ HI i _ _ _ _ Hi Ha). exact (lockset_known _ _ _ _ _ _ _ _ _ Hl Hp' Ha').
  - destruct (known_lookup _ _ _ _ R Hl HR a) as (? & ? & ? & _);
      [exact (lockset_known _ _ _ _ _ _ _ _ _ Hl Hp' Ha')|]. congruence.
  - apply (i_new _ _ _ _ _ HI j _ _ _ _ Hj Ha'). exact (lockset_known _ _ _ _ _ _ _ _ _ Hl Hp Ha).
  - by eapply Hne, (i_own _ _ _ _ _ HI).
  - destruct (opt_owned_alloc _ _ _ _ _ _ _ _ _ Hp' Ha'). congruence.
Qed.

(** The conditions under which the invariant is re-established: what changes is locked
    or owned by [i], or was free memory; [l] are the nodes the step removes. *)
Lemma opt_inv_move H' L' xs' l (e : option pc) :
  is_list H' hd tl xs' → removed_ok H' hd tl xs' (R ++ l) →
  (∀ a, H' !! a ≠ sh_heap sh !! a ∨ (live a ∧ a ∉ (entries hd tl xs').*1) ∨ a ∈ l →
     a ∈ lockset q ∨ owned q = Some a ∨ sh_heap sh !! a = None) →
  (∀ a k nx, known hd tl xs R a → sh_heap sh !! a = Some (Node k nx) → ∃ nx', H' !! a = Some (Node k nx')) →
  (∀ a, live a → a ∈ (entries hd tl xs').*1 ∨ a ∈ l) →
  (∀ a, a ∈ (entries hd tl xs').*1 ∨ a ∈ l → known hd tl xs R a ∨ owned q = Some a) →
  table_ok held L' (<[i:=(λ q', (o, k, q')) <$> e]> cs) →
  match e with
  | Some q' => pc_ok H' hd tl xs' (R ++ l) o k q' ∧
      ∀ a, owned q' = Some a → ¬ known hd tl xs' (R ++ l) a ∧ (owned q = Some a ∨ sh_heap sh !! a = None)
  | None => True
  end →
  inv (Shared H' hd tl L') (<[i:=(λ q', (o, k, q')) <$> e]> cs) (contents xs') xs' (R ++ l).
Proof.
  intros Hlist HR Hch Hkeys Hrem Hnew Htab He.
  constructor; cbn [sh_heap sh_head sh_tail sh_lk]; [done|done|done|..|done| |].
  - intros j o' k' q' [[<- Hj]|[Hne Hj]]%lookup_insert_inv.
    + destruct e as [e|]; simplify_eq/=. split; [apply opt_thread_key|]. by destruct He.
    + destruct (i_pc _ _ _ _ _ HI _ _ _ _ Hj) as (? & Hp'). split; [done|].
      pose proof (λ a, opt_others_disjoint j o' k' q' a (not_eq_sym Hne) Hj) as Hdis.
      eapply opt_pc_ok_frame; [apply HI|exact Hkeys|exact Hrem|..|done].
      * intros a Ha. destruct (decide (H' !! a = sh_heap sh !! a)) as [|Hd]; [done|].
        exfalso. apply (Hdis a); auto.
      * intros a Ha. split.
        -- intros Hv. destruct (decide (a ∈ (entries hd tl xs').*1)) as [|Hd]; [done|].
           exfalso. apply (Hdis a); auto.
        -- intros [?|Hin]%elem_of_app; [done|]. exfalso. apply (Hdis a); auto.
  - assert (∀ j o' k' q' q1 a, e = Some q1 → j ≠ i → cs !! j = Some (Some (o', k', q')) →
      owned q1 = Some a → owned q' = Some a → False) as Hdis.
    { intros j o' k' q' q1 a -> Hne Hj Ho Ho'. destruct He as (_ & He).
      destruct (He a Ho) as [_ [Ho1|Ha]]; eapply (opt_others_disjoint j); eauto. }
    intros j1 j2 o1 k1 q1 o2 k2 q2 a [[<- H1]|[Hn1 H1]]%lookup_insert_inv
      [[<- H2]|[Hn2 H2]]%lookup_insert_inv Ho1 Ho2; [done|..|by eapply (i_own _ _ _ _ _ HI)].
    + destruct e as [e|]; simplify_eq/=. exfalso. by eapply (Hdis j2).
    + destruct e as [e|]; simplify_eq/=. exfalso. by eapply (Hdis j1).
  - intros j o' k' q' a [[<- Hj]|[Hne Hj]]%lookup_insert_inv Ho.
    + destruct e as [e|]; simplify_eq/=. destruct He as [_ He]. by destruct (He a Ho).
    + intros Hk. assert (known hd tl xs R a ∨ owned q = Some a) as [?|?].
      { destruct Hk as [?|[?|?]%elem_of_app]; [by auto|left; by right|by auto]. }
      * by eapply (i_new _ _ _ _ _ HI j).
      * by eapply Hne, eq_sym, (i_own _ _ _ _ _ HI).
Qed.

(** A step that leaves the heap alone. *)
Lemma opt_inv_local L' (e : option pc) :
  table_ok held L' (<[i:=(λ q', (o, k, q')) <$> e]> cs) →
  match e with
  | Some q' => pc_ok (sh_heap sh) hd tl xs R o k q' ∧ ∀ a, owned q' = Some a → owned q = Some a
  | None => True
  end →
  inv (lk_upd sh L') (<[i:=(λ q', (o, k, q')) <$> e]> cs) S xs R.
Proof.
  intros Htab He. rewrite <- (i_set _ _ _ _ _ HI), <- (app_nil_r R).
  apply opt_inv_move; rewrite ?app_nil_r; [apply HI|apply HI|..|done|].
  - intros a [?|[[? ?]|[]%not_elem_of_nil]]; done.
  - eauto.
  - auto.
  - intros a [?|[]%not_elem_of_nil]. left. by left.
  - destruct e as [q'|]; [|done]. destruct He as (? & Ho). split; [done|].
    intros a Ha%Ho. split; [|by auto]. by eapply (i_new _ _ _ _ _ HI).
Qed.

End move.

(** Removing [c] from between [p] and [c2] adds it at the end of the removal order. *)
Lemma removed_grow H hd tl xs xs' R p kp c c2 k kc2 nx2 :
  removed_ok H hd tl xs R →
  p ∈ (entries hd tl xs).*1 → c ∈ (entries hd tl xs).*1 → c2 ∈ (entries hd tl xs).*1 →
  (∀ a, a ∈ (entries hd tl xs').*1 ↔ a ≠ c ∧ a ∈ (entries hd tl xs).*1) →
  H !! p = Some (Node kp (Some c)) → H !! c = Some (Node k (Some c2)) → H !! c2 = Some (Node kc2 nx2) →
  p ≠ c → c ≠ c2 → c2 ≠ hd → k < kc2 → key_ok k →
  removed_ok (<[p:=Node kp (Some c2)]> H) hd tl xs' (R ++ [c]).
Proof.
  intros HR Hlp Hlc Hlc2 Hlv Hp Hc Hc2 Hpc Hcc2 Hch2 Hlt [_ Hkey].
  assert (∀ a ka nx, H !! a = Some (Node ka nx) →
    ∃ nx', <[p:=Node kp (Some c2)]> H !! a = Some (Node ka nx')) as Hkeys.
  { intros a ka nxa Hka. destruct (decide (a = p)) as [->|].
    - rewrite lookup_insert_eq. simplify_eq/=. eauto.
    - rewrite lookup_insert_ne by done. eauto. }
  constructor.
  - apply NoDup_app. split_and!; [apply HR| |apply NoDup_singleton].
    intros r Hr ->%list_elem_of_singleton. by eapply (r_dead _ _ _ _ _ HR).
  - intros r [Hr| ->%list_elem_of_singleton]%elem_of_app; rewrite Hlv; [|tauto].
    intros [_ ?]. by eapply (r_dead _ _ _ _ _ HR).
  - intros R1 r R2 He. destruct R2 as [|r2 R2 _] using rev_ind.
    + apply app_inj_tail in He as [-> <-]. destruct (Hkeys c2 kc2 nx2 Hc2) as [nx' ?].
      exists k, c2, kc2, nx'. rewrite lookup_insert_ne by done. split_and!; try done. left. by apply Hlv.
    + rewrite app_comm_cons, app_assoc in He. apply app_inj_tail in He as [He <-].
      destruct (r_next _ _ _ _ _ HR _ _ _ He) as (kr & cr & kcr & nxr & H1 & H2 & ? & ? & ? & H3).
      destruct (Hkeys cr kcr nxr H2) as [nx' ?]. exists kr, cr, kcr, nx'. split_and!; try done.
      * rewrite lookup_insert_ne; [done|]. intros ->.
        eapply (r_dead _ _ _ _ _ HR r); [rewrite He; set_solver|done].
      * rewrite Hlv. destruct (decide (cr = c)) as [->|]; [right; set_solver|].
        destruct H3; [left; done|right; set_solver].
Qed.

(** * The steps of the operations *)

Notation step_ok := (step_ok (H:=optimistic) (λ sh cs S, ∃ xs R, inv sh cs S xs R)).

Section steps.
Context (sh : nshared) (cs : list opstate) (S : gset Z) (xs : list (nat * Z)) (R : list nat).
Hypothesis HI : inv sh cs S xs R.
Context (i : nat) (o : opk) (k : Z) (q : pc).
Hypothesis Hi : cs !! i = Some (Some (o, k, q)).

Notation hd := (sh_head sh).
Notation tl := (sh_tail sh).
Notation live a := (a ∈ (entries hd tl xs).*1).

(** The three kinds of steps that leave the heap alone. *)
Lemma opt_pc_step_ok q' :
  lockset q' = lockset q → (∀ a, owned q' = Some a → owned q = Some a) →
  pc_ok (sh_heap sh) hd tl xs R o k q' → lin q = None →
  match lin q' with None => True | Some b => apply_op o k S = (S, b) end →
  step_ok cs S i o k q sh (inl q').
Proof.
  intros Hls ?? Hl Hl'. exists S. split.
  - exists xs, R. replace sh with (lk_upd sh (sh_lk sh)) by by destruct sh.
    apply (opt_inv_local _ _ _ _ _ HI _ _ _ _ Hi _ (Some q')); [|done].
    apply (table_same held _ _ (i_lock _ _ _ _ _ HI) _ _ Hi). cbn. by rewrite Hls.
  - rewrite Hl. by destruct (lin (ListImpl:=optimistic) q').
Qed.

Lemma opt_lock_step_ok a sh' q' :
  lock i sh a = Some sh' → (∀ b, b ∈ lockset q' ↔ b = a ∨ b ∈ lockset q) →
  (∀ a, owned q' = Some a → owned q = Some a) →
  pc_ok (sh_heap sh) hd tl xs R o k q' → lin q = None → lin q' = None →
  step_ok cs S i o k q sh' (inl q').
Proof.
  intros Hlk Hls ?? Hl Hl'. exists S. split; [|by rewrite Hl, Hl']. exists xs, R.
  unfold lock in Hlk. destruct (sh_heap sh !! a), (sh_lk sh !! a) eqn:Ha; simplify_eq/=.
  apply (opt_inv_local _ _ _ _ _ HI _ _ _ _ Hi _ (Some q')); [|done].
  by apply (table_add held _ _ (i_lock _ _ _ _ _ HI) _ _ Hi).
Qed.

Lemma opt_unlock_step_ok a sh' (r : pc + bool) :
  unlock sh a = Some sh' → a ∈ lockset q →
  (∀ b, b ∈ match r with inl q' => lockset q' | inr _ => [] end ↔ b ≠ a ∧ b ∈ lockset q) →
  match r with
  | inl q' => (∀ a, owned q' = Some a → owned q = Some a) ∧ lin q' = lin q ∧
      pc_ok (sh_heap sh) hd tl xs R o k q'
  | inr b => lin q = Some b
  end →
  step_ok cs S i o k q sh' r.
Proof.
  intros Hlk Ha Hls Hr. unfold unlock in Hlk. destruct (sh_heap sh !! a); [|done].
  injection Hlk as <-. pose proof (opt_inv_local _ _ _ _ _ HI _ _ _ _ Hi (delete a (sh_lk sh))) as Hloc.
  pose proof (table_del held _ _ (i_lock _ _ _ _ _ HI) _ _ Hi a) as Hdel.
  destruct r as [q'|b]; exists S; (split; [exists xs, R|]).
  - destruct Hr as (? & ? & ?). apply (Hloc (Some q')); [|done]. by apply Hdel.
  - destruct Hr as (_ & -> & _). by destruct (lin (ListImpl:=optimistic) q).
  - apply (Hloc None); [|done]. by apply Hdel.
  - by rewrite Hr.
Qed.

(** The step of [list_validate] at each of its program counters. *)
Lemma validate_ok q' : list_validate sh q = Some q' → step_ok cs S i o k q sh (inl q').
Proof.
  pose proof (opt_thread_key _ _ _ _ _ HI _ _ _ _ Hi) as Hkey. pose proof (opt_thread_pc _ _ _ _ _ HI _ _ _ _ Hi) as Hpc.
  pose proof opt_pc_step_ok as Hstep. pose proof (i_list _ _ _ _ _ HI) as Hl.
  pose proof (i_removed _ _ _ _ _ HI) as HR.
  destruct q as [|n|n p c|n c|n p c|n p c|n p c it|n p c it|n p c|n p c|n c|n p c|n p c|n p c|p c|p c nx|b p c|b c];
    cbn [list_validate pc_ok] in *; try discriminate; intros Hs.
  - destruct Hpc as (Hfr & Hlo & Hv). pose proof (locking_ne _ _ _ _ _ _ _ _ Hlo) as Hne.
    pose proof (proj1 Hlo) as (Hp & Hc & Hch & Hkp). destruct Hv as [Hit Hvs] eqn:Hve.
    destruct (sh_heap sh !! it) as [[ki nxi]|] eqn:Hi1; [|done].
    destruct (sh_heap sh !! p) as [[kp nxp]|] eqn:Hp1; [|done]. cbn in Hs.
    assert (kp < INT_MAX) as Hkm.
    { destruct Hkp as [->|(kp' & nx' & Hp' & ?)]; [|destruct Hkey; simplify_eq; lia].
      pose proof (il_path _ _ _ _ Hl) as [Hh _]. rewrite Hh in Hp1. by simplify_eq. }
    destruct (Z.leb_spec ki kp) as [Hle|Hgt]; [destruct (Nat.eqb_spec it p) as [->|Hnp]|]; injection Hs as <-;
      apply Hstep; try done; cbn [pc_ok]; split_and!; try done.
    + by apply (vsafe_found _ _ _ _ _ HR).
    + by exists ki, nxi; split; [|lia].
  - destruct Hpc as (Hfr & Hlo & Hv & ki & nx & Hki & Hlt).
    destruct (known_next _ _ _ _ _ Hl HR _ _ _ (proj1 Hv) Hki Hlt) as (it' & -> & _).
    rewrite Hki in Hs. injection Hs as <-. apply Hstep; try done. cbn [pc_ok]. split_and!; try done.
    by eapply (vsafe_next _ _ _ _ _ Hl HR).
  - destruct Hpc as (Hfr & Hlo & Hv). pose proof (locking_ne _ _ _ _ _ _ _ _ Hlo) as Hne.
    pose proof Hlo as [(Hp & Hc & Hch & Hkp) Hkc].
    destruct (sh_heap sh !! p) as [[kp nxp]|] eqn:Hp1; [|done]. cbn in Hs.
    destruct (decide (nxp = Some c)) as [->|]; injection Hs as <-; apply Hstep; try done; cbn [pc_ok]; split_and!; try done.
    split; [done|]. exists kp. split; [done|]. destruct Hkp as [|(kp' & nx' & Hp' & ?)]; [by left|right; by simplify_eq].
Qed.

Lemma opt_search_ok sh' r : search i sh k q = Some (sh', r) → step_ok cs S i o k q sh' r.
Proof.
  pose proof (opt_thread_key _ _ _ _ _ HI _ _ _ _ Hi) as Hkey. pose proof (opt_thread_pc _ _ _ _ _ HI _ _ _ _ Hi) as Hpc.
  pose proof opt_pc_step_ok as Hstep. pose proof opt_lock_step_ok as Hlock. pose proof opt_unlock_step_ok as Hunl.
  pose proof validate_ok as Hval. pose proof (i_list _ _ _ _ _ HI) as Hl. pose proof (i_removed _ _ _ _ _ HI) as HR.
  destruct q as [|n|n p c|n c|n p c|n p c|n p c it|n p c it|n p c|n p c|n c|n p c|n p c|n p c|p c|p c nx|b p c|b c] eqn:Hq;
    cbn [search] in *; try discriminate; intros Hs;
    try (destruct (list_validate _ _) eqn:Hv in Hs; simplify_eq/=; by apply Hval);
    cbn [pc_ok lockset owned] in *.
  - destruct (adj_head _ _ _ _ Hl k) as (c & Hc & Ha & Hlc). rewrite Hc in Hs. simplify_eq/=.
    apply Hstep; try done. cbn. split; [done|]. split_and!; [left; apply (head_live _ _ _ _ Hl)|by left| |by left].
    by eapply (adj_succ_not_head _ _ _ _ Hl).
  - destruct Hpc as [Hfr Hsp]. pose proof Hsp as (_ & Hc & Hch & _).
    destruct (known_lookup _ _ _ _ _ Hl HR c Hc) as (kc & nx & Hkc & _). rewrite Hkc in Hs. simplify_eq/=.
    destruct (Z.ltb_spec kc k); apply Hstep; try done; cbn [pc_ok]; split_and!; try done.
    + by exists kc, nx.
    + split; [done|]. by exists kc, nx.
  - destruct Hpc as (Hfr & Hc & Hch & kc & nx & Hkc & Hlt).
    destruct (known_next _ _ _ _ _ Hl HR _ _ _ Hc Hkc) as (c' & -> & Hc' & Hne); [destruct Hkey; lia|].
    rewrite Hkc in Hs. simplify_eq/=. apply Hstep; try done. cbn [pc_ok]. split; [done|]. split_and!; try done.
    right. by exists kc, (Some c').
  - destruct (lock _ _ _) eqn:Hlk; simplify_eq/=. eapply Hlock; [done| |done|done|done|done]. cbn. set_solver.
  - destruct (lock _ _ _) eqn:Hlk; simplify_eq/=. eapply Hlock; [done| |done| |done|done]; cbn [lockset pc_ok]; [set_solver|].
    destruct Hpc as (? & ?). split_and!; [done..|]. split; [|intros _]; left; apply (head_live _ _ _ _ Hl).
  - destruct (unlock _ _) eqn:Hlk; simplify_eq/=. destruct Hpc as (? & ? & ? & ?).
    eapply Hunl; [done|set_solver|cbn; set_solver|done].
  - destruct (unlock _ _) eqn:Hlk; simplify_eq/=. destruct Hpc as (? & ?).
    eapply Hunl; [done|set_solver|cbn; set_solver|done].
  - destruct (unlock _ _) eqn:Hlk; simplify_eq/=. destruct Hpc as (? & ? & ?).
    eapply Hunl; [done|set_solver|cbn; set_solver|done].
  - destruct (unlock _ _) eqn:Hlk; simplify_eq/=. eapply Hunl; [done|set_solver|cbn; set_solver|done].
Qed.

(** After a successful validation the answer is decided by [curr]. *)
Lemma opt_test_ok n p c :
  q = Test n p c →
  ∃ kc nx, sh_heap sh !! c = Some (Node kc nx) ∧ fresh_ok (sh_heap sh) o k n ∧
    adj (sh_heap sh) hd tl xs k p c ∧ k ≤ kc ∧ (k ∈ S ↔ kc = k) ∧
    known hd tl xs R p ∧ known hd tl xs R c ∧ p ≠ c.
Proof.
  intros Hq. pose proof (opt_thread_key _ _ _ _ _ HI _ _ _ _ Hi) as Hkey.
  pose proof (opt_thread_pc _ _ _ _ _ HI _ _ _ _ Hi) as Hpc. pose proof (i_list _ _ _ _ _ HI) as Hl.
  rewrite Hq in Hpc. destruct Hpc as (Hfr & Ha & kc & nx & Hkc & Hle).
  pose proof (adj_known _ _ _ _ R Hl _ _ _ Ha). exists kc, nx. rewrite <- (i_set _ _ _ _ _ HI).
  pose proof (adj_mem _ _ _ _ Hl _ _ _ _ _ (proj2 Hkey) Ha Hkc Hle). tauto.
Qed.

(** [node->next = curr]: the node is still private. *)
Lemma link1_ok n p c H' :
  q = Link1 n p c → set_next (sh_heap sh) n (Some c) = Some H' →
  step_ok cs S i o k q (heap_upd sh H') (inl (Link2 n p c)).
Proof.
  pose proof (opt_thread_pc _ _ _ _ _ HI _ _ _ _ Hi) as Hpc. pose proof (i_list _ _ _ _ _ HI) as Hl.
  pose proof (i_removed _ _ _ _ _ HI) as HR.
  intros -> Hs. destruct Hpc as (-> & (a & [= <-] & Hn) & Ha & Hk).
  assert (¬ known hd tl xs R n) as Hnk by by eapply (i_new _ _ _ _ _ HI i).
  destruct (adj_known _ _ _ _ R Hl _ _ _ Ha) as (Hkp & Hkc & Hne).
  assert (∀ a, known hd tl xs R a → <[n:=Node k (Some c)]> (sh_heap sh) !! a = sh_heap sh !! a) as Hag.
  { intros a Hka. apply lookup_insert_ne. by intros ->. }
  unfold set_next in Hs. rewrite Hn in Hs. injection Hs as <-. exists S. split; [|done].
  exists xs, (R ++ []). rewrite <- (i_set _ _ _ _ _ HI).
  apply (opt_inv_move _ _ _ _ _ HI _ _ _ _ Hi _ _ xs [] (Some (Link2 n p c))); rewrite ?app_nil_r.
  - eapply is_list_frame; [|done]. intros a Hv. apply Hag. by left.
  - constructor; [apply HR|apply HR|]. intros R1 r R2 He.
    destruct (r_next _ _ _ _ _ HR _ _ _ He) as (kr & cr & kcr & nx & H1 & H2 & ? & ? & ? & H3).
    exists kr, cr, kcr, nx. rewrite !Hag; [done|..|right; rewrite He; set_solver].
    destruct H3; [by left|right; rewrite He; set_solver].
  - intros a [Hd|[[? ?]|[]%not_elem_of_nil]]; [|done]. right; left.
    destruct (decide (a = n)) as [->|]; [done|]. by rewrite lookup_insert_ne in Hd.
  - intros a ka nx Hka. rewrite Hag by done. eauto.
  - auto.
  - intros a [?|[]%not_elem_of_nil]. left. by left.
  - by apply (table_same held _ _ (i_lock _ _ _ _ _ HI) _ _ Hi).
  - split; [|intros a [= <-]; by auto]. cbn [pc_ok]. rewrite lookup_insert_eq. split_and!; [done..| |].
    + eapply adj_frame; [by apply Hag| |done]. by destruct Ha.
    + destruct Hk as (kc & nx & ? & ?). exists kc, nx. by rewrite Hag.
Qed.

(** [prev->next = node] *)
Lemma opt_link2_ok n p c H' :
  q = Link2 n p c → set_next (sh_heap sh) p (Some n) = Some H' →
  step_ok cs S i o k q (heap_upd sh H') (inl (RelP true p c)).
Proof.
  pose proof (opt_thread_pc _ _ _ _ _ HI _ _ _ _ Hi) as Hpc. pose proof (i_list _ _ _ _ _ HI) as Hl.
  pose proof (i_removed _ _ _ _ _ HI) as HR. pose proof (opt_thread_key _ _ _ _ _ HI _ _ _ _ Hi) as Hkey.
  intros -> Hs. destruct Hpc as (-> & Hn & Ha & (kc & nx & Hc & Hlt)).
  assert (¬ known hd tl xs R n) as Hnk by by eapply (i_new _ _ _ _ _ HI i).
  destruct (adj_live _ _ _ _ Hl _ _ _ Ha) as [Hlp Hlc].
  destruct (adj_split _ _ _ _ Hl _ _ _ Ha) as (_ & kp & _ & _ & _ & _ & Hp & _ & _ & Hpc).
  assert (n ≠ p) as Hnp by (intros ->; apply Hnk; by left).
  destruct (adj_link _ _ _ _ Hl k p c kc nx n kp) as (xs' & Hl' & Hx' & Hlv); try done.
  { intros ?. apply Hnk. by left. }
  assert (k ∉ contents xs) as Hnc by (rewrite (adj_mem _ _ _ _ Hl _ _ _ _ _ (proj2 Hkey) Ha Hc); lia).
  unfold set_next in Hs. rewrite Hp in Hs. injection Hs as <-. exists (contents xs').
  split; [|cbn; rewrite Hx', (i_set _ _ _ _ _ HI) in *; by rewrite bool_decide_eq_false_2].
  rewrite insert_insert_ne, (insert_id (sh_heap sh) n) in Hl' by done.
  assert (∀ a ka nx, sh_heap sh !! a = Some (Node ka nx) →
    ∃ nx', <[p:=Node kp (Some n)]> (sh_heap sh) !! a = Some (Node ka nx')) as Hkeys.
  { intros a ka nxa Hka. destruct (decide (a = p)) as [->|].
    - rewrite lookup_insert_eq. simplify_eq/=. eauto.
    - rewrite lookup_insert_ne by done. eauto. }
  exists xs', (R ++ []).
  apply (opt_inv_move _ _ _ _ _ HI _ _ _ _ Hi _ _ xs' [] (Some (RelP true p c))); rewrite ?app_nil_r; [done|..].
  - constructor; [apply HR|intros r Hr [->|?]%Hlv; [apply Hnk; by right|by eapply (r_dead _ _ _ _ _ HR)]|].
    intros R1 r R2 He. destruct (r_next _ _ _ _ _ HR _ _ _ He) as (kr & cr & kcr & nxr & H1 & H2 & ? & ? & ? & H3).
    destruct (Hkeys cr kcr nxr H2) as [nx' Hcr']. exists kr, cr, kcr, nx'. split_and!; try done.
    + rewrite lookup_insert_ne; [done|]. intros ->. eapply (r_dead _ _ _ _ _ HR r); [rewrite He; set_solver|done].
    + rewrite Hlv. tauto.
  - intros a [Hd|[[? Hd]|[]%not_elem_of_nil]]; [|by rewrite Hlv in Hd; tauto]. left. cbn.
    destruct (decide (a = p)) as [->|]; [set_solver|]. by rewrite lookup_insert_ne in Hd.
  - intros a ka nxa _. apply Hkeys.
  - intros a ?. left. apply Hlv. by right.
  - intros a [[->|?]%Hlv|[]%not_elem_of_nil]; [by right|left; by left].
  - by apply (table_same held _ _ (i_lock _ _ _ _ _ HI) _ _ Hi).
  - split; [|done]. cbn. split_and!; [left; rewrite Hlv; by right..|done].
Qed.

(** [prev->next = curr->next] *)
Lemma opt_unlink_ok p c nx H' :
  q = UnlinkW p c nx → set_next (sh_heap sh) p nx = Some H' →
  step_ok cs S i o k q (heap_upd sh H') (inl (RelP true p c)).
Proof.
  pose proof (opt_thread_pc _ _ _ _ _ HI _ _ _ _ Hi) as Hpc. pose proof (i_list _ _ _ _ _ HI) as Hl.
  pose proof (i_removed _ _ _ _ _ HI) as HR. pose proof (opt_thread_key _ _ _ _ _ HI _ _ _ _ Hi) as Hkey.
  intros -> Hs. destruct Hpc as (-> & Ha & Hc).
  destruct (adj_live _ _ _ _ Hl _ _ _ Ha) as [Hlp Hlc].
  destruct (adj_split _ _ _ _ Hl _ _ _ Ha) as (_ & kp & _ & _ & _ & _ & Hp & _ & _ & Hpc).
  destruct (adj_unlink _ _ _ _ Hl k p c nx kp) as (xs' & Hl' & Hx' & Hlv); try done.
  assert (k ∈ contents xs) as Hk by by apply (adj_mem _ _ _ _ Hl _ _ _ _ _ (proj2 Hkey) Ha Hc).
  pose proof (adj_succ_not_head _ _ _ _ Hl _ _ _ Ha) as Hch.
  destruct (live_next _ _ _ _ Hl c k nx Hlc Hc) as [[_ ->]|(c2 & -> & Hlc2)]; [destruct Hkey; lia|].
  assert (adj (sh_heap sh) hd tl xs (k + 1) c c2) as Ha2 by (split; [done|]; exists k; split; [done|right; lia]).
  destruct (live_lookup _ _ _ _ Hl c2 Hlc2) as (kc2 & nx2 & Hc2).
  pose proof (adj_key_lt _ _ _ _ Hl _ _ _ _ _ _ Ha2 Hch Hc Hc2) as Hlt.
  pose proof (adj_succ_not_head _ _ _ _ Hl _ _ _ Ha2) as Hch2.
  destruct (adj_split _ _ _ _ Hl _ _ _ Ha2) as (_ & _ & _ & _ & _ & _ & _ & _ & _ & Hcc2).
  unfold set_next in Hs. rewrite Hp in Hs. injection Hs as <-. exists (contents xs').
  split; [|cbn; rewrite Hx', (i_set _ _ _ _ _ HI) in *; by rewrite bool_decide_eq_true_2].
  assert (∀ a ka nx, sh_heap sh !! a = Some (Node ka nx) →
    ∃ nx', <[p:=Node kp (Some c2)]> (sh_heap sh) !! a = Some (Node ka nx')) as Hkeys.
  { intros a ka nxa Hka. destruct (decide (a = p)) as [->|].
    - rewrite lookup_insert_eq. simplify_eq/=. eauto.
    - rewrite lookup_insert_ne by done. eauto. }
  exists xs', (R ++ [c]).
  apply (opt_inv_move _ _ _ _ _ HI _ _ _ _ Hi _ _ xs' [c] (Some (RelP true p c))); [done|..].
  - by apply removed_grow with (p := p) (kp := kp) (c2 := c2) (k := k) (kc2 := kc2) (nx2 := nx2) (xs := xs).
  - intros a Hd. left. cbn. destruct (decide (a = p)) as [->|]; [set_solver|].
    destruct (decide (a = c)) as [->|]; [set_solver|]. exfalso.
    rewrite lookup_insert_ne, Hlv in Hd by done. destruct Hd as [?|[[? ?]|?%list_elem_of_singleton]]; tauto.
  - intros a ka nxa _. apply Hkeys.
  - intros a ?. rewrite Hlv. destruct (decide (a = c)) as [->|]; [right; set_solver|by left].
  - intros a [[_ ?]%Hlv| ->%list_elem_of_singleton]; left; by left.
  - by apply (table_same held _ _ (i_lock _ _ _ _ _ HI) _ _ Hi).
  - split; [|done]. cbn [pc_ok]. split_and!; [left; by rewrite Hlv|right; set_solver|done].
Qed.

Lemma alloc_ok m :
  q = Alloc → sh_heap sh !! m = None →
  step_ok cs S i o k q
    (Shared (<[m:=Node k None]> (sh_heap sh)) hd tl (delete m (sh_lk sh))) (inl (Head (Some m))).
Proof.
  pose proof (opt_thread_pc _ _ _ _ _ HI _ _ _ _ Hi) as Hpc. pose proof (i_list _ _ _ _ _ HI) as Hl.
  pose proof (i_removed _ _ _ _ _ HI) as HR. intros -> Hm. cbn in Hpc. subst o.
  assert (∀ a, known hd tl xs R a → a ≠ m) as Hkm.
  { intros a Ha ->. destruct (known_lookup _ _ _ _ _ Hl HR m Ha) as (? & ? & ? & _). congruence. }
  assert (∀ a, known hd tl xs R a → <[m:=Node k None]> (sh_heap sh) !! a = sh_heap sh !! a) as Hag.
  { intros a Ha%Hkm. by apply lookup_insert_ne. }
  replace (delete m (sh_lk sh)) with (sh_lk sh).
  2:{ symmetry. apply delete_id. destruct (sh_lk sh !! m) eqn:Hlm; [exfalso|done].
      apply (i_lock _ _ _ _ _ HI) in Hlm as ([[o' k'] q'] & Hj & Ha).
      destruct (i_pc _ _ _ _ _ HI _ _ _ _ Hj) as (_ & Hp). eapply Hkm; [|done]. by eapply lockset_known. }
  exists S. split; [|done]. exists xs, (R ++ []). rewrite <- (i_set _ _ _ _ _ HI).
  apply (opt_inv_move _ _ _ _ _ HI _ _ _ _ Hi _ _ xs [] (Some (Head (Some m)))); rewrite ?app_nil_r.
  - eapply is_list_frame; [|done]. intros a Hv. apply Hag. by left.
  - constructor; [apply HR|apply HR|]. intros R1 r R2 He.
    destruct (r_next _ _ _ _ _ HR _ _ _ He) as (kr & cr & kcr & nx & H1 & H2 & ? & ? & ? & H3).
    exists kr, cr, kcr, nx. rewrite !Hag; [done|..|right; rewrite He; set_solver].
    destruct H3; [by left|right; rewrite He; set_solver].
  - intros a [Hd|[[? ?]|[]%not_elem_of_nil]]; [|done]. right; right.
    destruct (decide (a = m)) as [->|]; [done|]. by rewrite lookup_insert_ne in Hd.
  - intros a ka nx Hka. rewrite Hag by done. eauto.
  - auto.
  - intros a [?|[]%not_elem_of_nil]. left. by left.
  - by apply (table_same held _ _ (i_lock _ _ _ _ _ HI) _ _ Hi).
  - split; [|intros a [= <-]; split; [by intros ?%Hkm|by right]].
    exists m. by rewrite lookup_insert_eq.
Qed.

Lemma opt_list_add_ok m sh' r : o = OAdd → list_add i m sh k q = Some (sh', r) → step_ok cs S i o k q sh' r.
Proof.
  intros Ho Hs. pose proof opt_test_ok as Htest. pose proof link1_ok as Hlink1. pose proof opt_link2_ok as Hlink2.
  pose proof opt_search_ok as Hsearch. pose proof opt_pc_step_ok as Hstep. pose proof alloc_ok as Halloc.
  destruct q as [|n|n p c|n c|n p c|n p c|n p c it|n p c it|n p c|n p c|n c|[n|] p c|n p c|n p c|p c|p c nx|b p c|b c] eqn:Hq;
    try by apply Hsearch.
  - cbn in Hs. destruct (sh_heap sh !! m) eqn:Hm; [done|]. injection Hs as <- <-. by apply Halloc.
  - destruct (Htest _ _ _ eq_refl) as (kc & nx & Hkc & Hfr & Ha & Hle & Hmem & ? & ? & ?).
    cbn in Hs. rewrite Hkc in Hs. cbn in Hs. destruct (Z.eqb_spec kc k) as [->|Hnk]; simplify_eq.
    + apply Hstep; try done. cbn. rewrite bool_decide_eq_true_2; tauto.
    + apply Hstep; try done. cbn. split_and!; try done. exists kc, nx. split; [done|lia].
  - cbn in Hs. destruct (set_next _ _ _) eqn:Hsn; simplify_eq/=. by apply Hlink1.
  - cbn in Hs. destruct (set_next _ _ _) eqn:Hsn; simplify_eq/=. by apply (Hlink2 n p c).
Qed.

Lemma opt_list_remove_ok sh' r : o = ORemove → list_remove i sh k q = Some (sh', r) → step_ok cs S i o k q sh' r.
Proof.
  intros Ho Hs. pose proof opt_test_ok as Htest. pose proof opt_unlink_ok as Hunlink.
  pose proof opt_search_ok as Hsearch. pose proof opt_pc_step_ok as Hstep.
  pose proof (opt_thread_pc _ _ _ _ _ HI _ _ _ _ Hi) as Hpc.
  destruct q as [|n|n p c|n c|n p c|n p c|n p c it|n p c it|n p c|n p c|n c|n p c|n p c|n p c|p c|p c nx|b p c|b c] eqn:Hq; try by apply Hsearch.
  - destruct (Htest _ _ _ eq_refl) as (kc & nx & Hkc & Hfr & Ha & Hle & Hmem & ? & ? & ?).
    cbn in Hs. rewrite Hkc in Hs. cbn in Hs. destruct (Z.eqb_spec kc k) as [->|Hnk]; simplify_eq/=.
    + apply Hstep; try done. cbn. split_and!; try done. by exists k, nx.
    + apply Hstep; try done. cbn. rewrite bool_decide_eq_false_2; tauto.
  - destruct Hpc as (_ & Ha & kc & nx & Hkc & ->). cbn in Hs. rewrite Hkc in Hs. simplify_eq/=. by apply Hstep.
  - cbn in Hs. destruct (set_next _ _ _) eqn:Hsn; simplify_eq/=. by apply (Hunlink p c nx).
Qed.

Lemma opt_list_contains_ok sh' r :
  o = OContains → list_contains i sh k q = Some (sh', r) → step_ok cs S i o k q sh' r.
Proof.
  intros Ho Hs. pose proof opt_test_ok as Htest. pose proof opt_search_ok as Hsearch. pose proof opt_pc_step_ok as Hstep.
  destruct q as [|n|n p c|n c|n p c|n p c|n p c it|n p c it|n p c|n p c|n c|n p c|n p c|n p c|p c|p c nx|b p c|b c] eqn:Hq; try by apply Hsearch.
  destruct (Htest _ _ _ eq_refl) as (kc & nx & Hkc & Hfr & Ha & Hle & Hmem & ? & ? & ?).
  cbn in Hs. rewrite Hkc in Hs. simplify_eq/=. apply Hstep; try done. cbn. f_equal.
  apply eq_true_iff_eq. rewrite bool_decide_eq_true, Z.eqb_eq. done.
Qed.

(** * Progress *)

(** The mutex a thread is about to take. *)
Definition waits (q : pc) : option nat :=
  match q with LockP _ p _ => Some p | LockC _ _ c => Some c | _ => None end.

(** The mutexes a thread is about to lock are those of allocated nodes. *)
Lemma opt_waits_alloc a : waits q = Some a → is_Some (sh_heap sh !! a).
Proof.
  pose proof (opt_thread_pc _ _ _ _ _ HI _ _ _ _ Hi) as Hpc. pose proof (i_list _ _ _ _ _ HI) as Hl.
  pose proof (i_removed _ _ _ _ _ HI) as HR.
  assert (∀ a, known hd tl xs R a → is_Some (sh_heap sh !! a)) as Hkn.
  { intros b Hb. destruct (known_lookup _ _ _ _ _ Hl HR b Hb) as (kb & nx & -> & _). eauto. }
  destruct q; cbn in *; intros [= <-]; apply Hkn; destruct Hpc as (_ & (Hp & Hc & _) & _); done.
Qed.

(** A thread is never stuck but for a mutex held by another thread. *)
Lemma opt_op_enabled : (∀ a, waits q = Some a → sh_lk sh !! a = None) → ∃ m r, op_step i m sh o k q = Some r.
Proof.
  intros He. pose proof (opt_thread_key _ _ _ _ _ HI _ _ _ _ Hi) as Hkey.
  pose proof (opt_thread_pc _ _ _ _ _ HI _ _ _ _ Hi) as Hpc. pose proof (i_list _ _ _ _ _ HI) as Hl.
  pose proof (i_removed _ _ _ _ _ HI) as HR.
  assert (∀ a, known hd tl xs R a → ∃ k nx, sh_heap sh !! a = Some (Node k nx)) as Hkn.
  { intros a Ha. destruct (known_lookup _ _ _ _ _ Hl HR a Ha) as (ka & nx & ? & _). eauto. }
  assert (∀ p c, adj (sh_heap sh) hd tl xs k p c → (∃ k nx, sh_heap sh !! p = Some (Node k nx)) ∧
    (∃ k nx, sh_heap sh !! c = Some (Node k nx))) as Hadj.
  { intros p c (? & ? & _)%(adj_known _ _ _ _ R Hl). auto. }
  assert (∀ p c, locking (sh_heap sh) hd tl xs R k p c → (∃ k nx, sh_heap sh !! p = Some (Node k nx)) ∧
    (∃ k nx, sh_heap sh !! c = Some (Node k nx))) as Hlo.
  { intros p c [(? & ? & _) _]. auto. }
  destruct q as [|n|n p c|n c|n p c|n p c|n p c it|n p c it|n p c|n p c|n c|n p c|n p c|n p c|p c|p c nx|b p c|b c]; cbn [pc_ok waits] in *.
  - exists (fresh (dom (sh_heap sh))). subst o. cbn.
    rewrite (proj1 (not_elem_of_dom _ _)) by apply is_fresh. eauto.
  - exists 0%nat. destruct (adj_head _ _ _ _ Hl k) as (c & Hc & _). destruct o; cbn; rewrite Hc; cbn; eauto.
  - exists 0%nat. destruct Hpc as (_ & _ & Hc & _). destruct (Hkn c Hc) as (? & ? & Hnd).
    destruct o; cbn; rewrite Hnd; cbn; eauto.
  - exists 0%nat. destruct Hpc as (_ & Hc & _ & kc & nx & Hkc & Hlt).
    destruct (known_next _ _ _ _ _ Hl HR _ _ _ Hc Hkc) as (c' & -> & _); [destruct Hkey; lia|].
    destruct o; cbn; rewrite Hkc; cbn; eauto.
  - exists 0%nat. destruct Hpc as (_ & Hp). destruct (Hlo p c Hp) as [(? & ? & Hnd) _].
    destruct o; cbn; unfold lock; rewrite Hnd, (He _ eq_refl); cbn; eauto.
  - exists 0%nat. destruct Hpc as (_ & Hp). destruct (Hlo p c Hp) as [_ (? & ? & Hnd)].
    destruct o; cbn; unfold lock; rewrite Hnd, (He _ eq_refl); cbn; eauto.
  - exists 0%nat. destruct Hpc as (_ & Hp & [Hit _]). destruct (Hlo p c Hp) as [(? & ? & Hnd) _].
    destruct (Hkn it Hit) as (? & ? & Hni). destruct o; cbn; rewrite Hni; cbn; rewrite Hnd; cbn; eauto.
  - exists 0%nat. destruct Hpc as (_ & _ & [Hit _] & ki & nx & Hki & Hlt).
    destruct (known_next _ _ _ _ _ Hl HR _ _ _ Hit Hki Hlt) as (c' & -> & _).
    destruct o; cbn; rewrite Hki; cbn; eauto.
  - exists 0%nat. destruct Hpc as (_ & Hp & _). destruct (Hlo p c Hp) as [(? & ? & Hnd) _].
    destruct o; cbn; rewrite Hnd; cbn; eauto.
  - exists 0%nat. destruct Hpc as (_ & Hp & _). destruct (Hkn p Hp) as (? & ? & Hnd).
    destruct o; cbn; unfold unlock; rewrite Hnd; cbn; eauto.
  - exists 0%nat. destruct Hpc as (_ & Hc). destruct (Hkn c Hc) as (? & ? & Hnd).
    destruct o; cbn; unfold unlock; rewrite Hnd; cbn; eauto.
  - exists 0%nat. destruct Hpc as (Hfr & Ha & _). destruct (Hadj p c Ha) as [_ (? & ? & Hnd)].
    destruct o; cbn in *; [destruct Hfr as (a & -> & _)|..]; cbn; rewrite Hnd; cbn; eauto.
  - exists 0%nat. destruct Hpc as (-> & (a & [= <-] & Hn) & _). cbn. unfold set_next. rewrite Hn. cbn. eauto.
  - exists 0%nat. destruct Hpc as (-> & _ & Ha & _). destruct (Hadj p c Ha) as [(? & ? & Hnd) _].
    cbn. unfold set_next. rewrite Hnd. cbn. eauto.
  - exists 0%nat. destruct Hpc as (-> & Ha & _). destruct (Hadj p c Ha) as [_ (? & ? & Hnd)].
    cbn. rewrite Hnd. cbn. eauto.
  - exists 0%nat. destruct Hpc as (-> & Ha & _). destruct (Hadj p c Ha) as [(? & ? & Hnd) _].
    cbn. unfold set_next. rewrite Hnd. cbn. eauto.
  - exists 0%nat. destruct Hpc as (Hp & _). destruct (Hkn p Hp) as (? & ? & Hnd).
    destruct o; cbn; unfold unlock; rewrite Hnd; cbn; eauto.
  - exists 0%nat. destruct (Hkn c Hpc) as (? & ? & Hnd). destruct o; cbn; unfold unlock; rewrite Hnd; cbn; eauto.
Qed.

End steps.

Arguments waits q : simpl never.

(** A thread waiting for [c] while holding [p]: the holder of [c] runs, or waits for a
    node with a larger key. *)
Lemma opt_waiting_chain sh cs S xs R :
  inv sh cs S xs R → ∀ (N : nat) i o k n p c kc nx,
  cs !! i = Some (Some (o, k, LockC n p c)) →
  sh_heap sh !! c = Some (Node kc nx) → INT_MAX - kc < Z.of_nat N →
  ∃ j m o k q r, cs !! j = Some (Some (o, k, q)) ∧ op_step j m sh o k q = Some r.
Proof.
  intros HI. pose proof (i_list _ _ _ _ _ HI) as Hl. pose proof (i_removed _ _ _ _ _ HI) as HR.
  induction N as [|N IH]; intros i o k n p c kc nx Hi Hc Hlt;
    destruct (i_pc _ _ _ _ _ HI _ _ _ _ Hi) as (_ & _ & [(Hp & Hv & Hch & _) _]).
  { destruct (known_lookup _ _ _ _ _ Hl HR c Hv) as (kc' & nx' & ? & ?). simplify_eq. lia. }
  destruct (sh_lk sh !! c) as [j|] eqn:Hlk.
  2:{ destruct (opt_op_enabled _ _ _ _ _ HI _ _ _ _ Hi) as (m & r & Hr); [by intros a [= <-]|].
      by exists i, m, o, k, (LockC n p c), r. }
  apply (i_lock _ _ _ _ _ HI) in Hlk as ([[o' k'] q'] & Hj & Hin).
  destruct (waits q') as [a|] eqn:Hw.
  2:{ destruct (opt_op_enabled _ _ _ _ _ HI _ _ _ _ Hj) as (m & r & Hr); [by rewrite Hw|].
      by exists j, m, o', k', q', r. }
  destruct q'; try done; cbn in Hin; [by apply not_elem_of_nil in Hin|].
  apply list_elem_of_singleton in Hin as <-.
  destruct (i_pc _ _ _ _ _ HI _ _ _ _ Hj) as (_ & _ & [(_ & _ & _ & Hk') (kc' & nx' & Hc' & ?)]).
  destruct Hk' as [->|(kp' & nxp & Hp' & ?)]; [done|]. simplify_eq. eapply (IH j); [done|done|lia].
Qed.

Lemma optimistic_progress sh cs S xs R i x :
  inv sh cs S xs R → cs !! i = Some (Some x) →
  ∃ j m o k q r, cs !! j = Some (Some (o, k, q)) ∧ op_step j m sh o k q = Some r.
Proof.
  intros HI Hi. destruct x as [[o k] q]. pose proof (i_list _ _ _ _ _ HI) as Hl.
  pose proof (i_removed _ _ _ _ _ HI) as HR.
  assert (∀ j o k n p c, cs !! j = Some (Some (o, k, LockC n p c)) →
    ∃ j m o k q r, cs !! j = Some (Some (o, k, q)) ∧ op_step j m sh o k q = Some r) as Hch.
  { intros j o' k' n p c Hj. destruct (i_pc _ _ _ _ _ HI _ _ _ _ Hj) as (_ & _ & [(_ & Hv & _) _]).
    destruct (known_lookup _ _ _ _ _ Hl HR c Hv) as (kc & nx & Hc & _).
    eapply (opt_waiting_chain _ _ _ _ _ HI (Z.to_nat (INT_MAX - kc + 1))); [done|done|lia]. }
  assert (∀ j o k q, cs !! j = Some (Some (o, k, q)) → (∀ n p c, q ≠ LockP n p c) →
    ∃ j m o k q r, cs !! j = Some (Some (o, k, q)) ∧ op_step j m sh o k q = Some r) as Hrun.
  { intros j o' k' q' Hj Hq. destruct (waits q') as [a|] eqn:Hw.
    - destruct q'; try done; [by destruct (Hq n p c)|by eapply Hch].
    - destruct (opt_op_enabled _ _ _ _ _ HI _ _ _ _ Hj) as (m & r & Hr); [by rewrite Hw|].
      by exists j, m, o', k', q', r. }
  destruct (waits q) as [a|] eqn:Hw; [|eapply Hrun; [done|]; by destruct q].
  destruct q; try done; [|by eapply Hch]. injection Hw as <-.
  destruct (sh_lk sh !! p) as [j|] eqn:Hlk.
  - apply (i_lock _ _ _ _ _ HI) in Hlk as ([[o' k'] q'] & Hj & Hin).
    eapply Hrun; [done|]. intros n' p' c' ->. by apply not_elem_of_nil in Hin.
  - destruct (opt_op_enabled _ _ _ _ _ HI _ _ _ _ Hi) as (m & r & Hr); [by intros a [= <-]|].
    by exists i, m, o, k, (LockP n p c), r.
Qed.

(** A thread waits for a held mutex of an allocated node or can make its next access. *)
Lemma opt_op_safe sh cs S xs R i o k q :
  inv sh cs S xs R → cs !! i = Some (Some (o, k, q)) →
  op_waits sh q = true ∨ ∃ m r, op_step i m sh o k q = Some r.
Proof.
  intros HI Hi. pose proof (opt_waits_alloc _ _ _ _ _ HI _ _ _ _ Hi) as Hal.
  assert (op_waits sh q = match waits q with Some a => mutex_held sh a | None => false end) as ->
    by by destruct q.
  destruct (waits q) as [a|] eqn:Hw.
  - destruct (Hal a eq_refl) as [nd Hnd]. unfold mutex_held. rewrite Hnd.
    destruct (sh_lk sh !! a) as [j|] eqn:Hlk; [by left|right].
    eapply (opt_op_enabled _ _ _ _ _ HI); [done|]. intros a'. rewrite Hw. by intros [= <-].
  - right. eapply (opt_op_enabled _ _ _ _ _ HI); [done|]. by rewrite Hw.
Qed.

(** * The interface *)

Lemma opt_inv_init h t n : h ≠ t → inv (Shared (list_init h t) h t ∅) (replicate n None) ∅ [] [].
Proof.
  intros Hne. assert (∀ i x, replicate n (None : opstate) !! i = Some (Some x) → False) as Hn.
  { intros i x. rewrite lookup_replicate. naive_solver. }
  constructor; cbn.
  - by apply list_init_is_list.
  - done.
  - constructor; [by apply NoDup_nil|intros r []%not_elem_of_nil|by intros []].
  - by intros ???? []%Hn.
  - intros a i. rewrite lookup_empty. split; [done|]. by intros (? & []%Hn & _).
  - by intros ????????? []%Hn.
  - by intros ????? []%Hn.
Qed.

Lemma opt_inv_call sh (cs : list opstate) S xs R i o k :
  inv sh cs S xs R → cs !! i = Some None → key_ok k →
  inv sh (<[i:=Some (o, k, op_start o)]> cs) S xs R.
Proof.
  intros HI Hi Hk. constructor; [apply HI|apply HI|apply HI|..].
  - intros j o' k' q' [[<- Hj]|[Hne Hj]]%lookup_insert_inv; [|by eapply (i_pc _ _ _ _ _ HI)].
    injection Hj as -> -> ->. split; [done|]. by destruct o.
  - apply (table_call held _ _ (i_lock _ _ _ _ _ HI)); [exact Hi|]. by destruct o.
  - assert (∀ a, owned (op_start o) = Some a → False) as Hno by by destruct o.
    intros j1 j2 o1 k1 q1 o2 k2 q2 a [[<- H1]|[Hn1 H1]]%lookup_insert_inv
      [[<- H2]|[Hn2 H2]]%lookup_insert_inv Ho1 Ho2; [done|..|by eapply (i_own _ _ _ _ _ HI)];
      simplify_eq; exfalso; by eapply Hno.
  - intros j o' k' q' a [[<- Hj]|[Hne Hj]]%lookup_insert_inv; [|by eapply (i_new _ _ _ _ _ HI)].
    simplify_eq. by destruct o.
Qed.

Lemma opt_op_step_ok sh cs S xs R i m o k q sh' r :
  inv sh cs S xs R → cs !! i = Some (Some (o, k, q)) → op_step i m sh o k q = Some (sh', r) →
  step_ok cs S i o k q sh' r.
Proof.
  intros HI Hi Hs.
  destruct o; cbn in Hs; [by eapply opt_list_add_ok|by eapply opt_list_remove_ok|by eapply opt_list_contains_ok].
Qed.

#[export] Instance optimistic_spec : ListSpec optimistic.
Proof.
  refine {| list_inv sh cs S := ∃ xs R, inv sh cs S xs R; mem_ok := sentinels_unlocked |}.
  - intros h t mem n Hne Hmem. exists [], []. cbn. rewrite node_lk_init_unlocked by done. by apply opt_inv_init.
  - intros sh cs S i o k (xs & R & HI) Hi Hk. exists xs, R. by apply opt_inv_call.
  - by intros [].
  - intros sh cs S i m o k q sh' q' (xs & R & HI) Hi Hs. exact (opt_op_step_ok _ _ _ _ _ _ _ _ _ _ _ _ HI Hi Hs).
  - intros sh cs S i m o k q sh' b (xs & R & HI) Hi Hs. exact (opt_op_step_ok _ _ _ _ _ _ _ _ _ _ _ _ HI Hi Hs).
  - intros sh cs S (xs & R & HI) Hn. exists xs. split; apply HI.
  - intros sh cs S i x (xs & R & HI) Hi. by eapply optimistic_progress.
  - intros sh cs S i o k q (xs & R & HI) Hi. by eapply opt_op_safe.
Defined.

(** * The program *)

(** C1: the optimistic list program is linearizable, although the searches and the
    validation walk over nodes that other threads are changing and removing, for
    workloads with keys from [INT_MIN] up to below [INT_MAX] and provided that the
    memory of the two sentinels' mutexes, which [list_init] never initializes, reads as
    unlocked mutexes: when [main] ends, the history of calls and returns of the run is a
    complete history of the atomic set, in which every operation takes effect at one
    instant between its call and its return (so the order of operations that do not
    overlap is kept) and returns what its thread got, and the final validation prints
    "correct!" exactly when the result file lists the set at the end of that history in
    increasing order. *)
Theorem optimistic_main_correct expected h t mem works hist s v :
  h ≠ t → sentinels_unlocked mem → Forall (Forall (λ w, key_ok (w_value w))) works →
  run (lhstep expected) (linit (L:=optimistic) h t mem works) hist s → l_main s = LDone v →
  ∃ S, run spec_step (spec_init works) hist (ASpec S ((λ th, AThread [] None (t_rets th)) <$> l_ts s)) ∧
    (v = true ↔ StronglySorted Z.lt expected ∧ list_to_set expected = S).
Proof. intros Hne Hm Hk. by apply (list_main_output (LS:=optimistic_spec) expected h t mem works Hne Hm Hk). Qed.

(** C3: the optimistic list never deadlocks and never follows a null pointer, for keys
    from [INT_MIN] up to below [INT_MAX] and sentinel mutexes that read as unlocked:
    in every reachable state [main] has ended or some step is possible, and every
    created thread has finished, waits for the held mutex of an allocated node, or can
    make its next access. *)
Theorem optimistic_main_progress expected h t mem works s :
  h ≠ t → sentinels_unlocked mem → Forall (Forall (λ w, key_ok (w_value w))) works →
  reachable (linit (L:=optimistic) h t mem works) (lstep expected) s →
  ((∃ v, l_main s = LDone v) ∨ ∃ s', lstep expected s s') ∧
  ∀ i th, l_ts s !! i = Some th → lcreated (l_main s) i = true →
    thread_done th = true ∨ waiting s i = true ∨ ∃ c s', lnext expected (LThread i c) s = Some s'.
Proof. intros Hne Hm Hk. by apply (list_main_progress (LS:=optimistic_spec) expected h t mem works Hne Hm Hk). Qed.

(** A run in which the first validation of thread 1 fails: thread 0 has linked 7
    between the search of thread 1 and its locks. *)
Definition sample_works : list (list work) := [[Work "A" 7]; [Work "A" 3]].

Definition sample_sched : list lsched :=
  [LMain; LMain; LMain] ++ replicate 4 (LThread 1 6) ++ replicate 13 (LThread 0 5) ++
  replicate 17 (LThread 1 0) ++ replicate 3 LMain.

Definition sample_state : lstate :=
  Eval vm_compute in default (linit 0 1 (None, None) sample_works) (run_sched (lnext [3; 7]) sample_sched (linit 0 1 (None, None) sample_works)).

Definition sample_hist : list event :=
  Eval vm_compute in
    match run_hist [3; 7] sample_sched (linit 0 1 (None, None) sample_works) with Some (hist, _) => hist | None => [] end.

Lemma optimistic_sample : run (lhstep [3; 7]) (linit 0 1 (None, None) sample_works) sample_hist sample_state.
Proof.
  apply (run_hist_run [3; 7] sample_sched). vm_cast_no_check (eq_refl (Some (sample_hist, sample_state))).
Qed.

Lemma optimistic_sample_keys : Forall (Forall (λ w, key_ok (w_value w))) sample_works.
Proof. repeat (apply Forall_cons; split) || apply Forall_nil; repeat constructor; done. Qed.

Lemma optimistic_main_correct_witness :
  l_main sample_state = LDone true ∧ t_rets <$> l_ts sample_state = [[true]; [true]] ∧
  sample_hist =
    [Call 1 OAdd 3; Call 0 OAdd 7; Return 0 true; Return 1 true] ∧
  ∃ S, run spec_step (spec_init sample_works) sample_hist
    (ASpec S ((λ th, AThread [] None (t_rets th)) <$> l_ts sample_state)) ∧
    (true = true ↔ StronglySorted Z.lt [3; 7] ∧ list_to_set [3; 7] = S).
Proof.
  split; [reflexivity|]. split; [reflexivity|]. split; [reflexivity|].
  apply (optimistic_main_correct [3; 7] 0 1 (None, None) sample_works sample_hist);
    [done|done|apply optimistic_sample_keys|apply optimistic_sample|reflexivity].
Defined.

(** The same run at the failed validation. *)
Definition retry_state : lstate :=
  Eval vm_compute in default (linit 0 1 (None, None) sample_works)
    (run_sched (lnext [3; 7]) (take 24 sample_sched) (linit 0 1 (None, None) sample_works)).

Lemma optimistic_retry : reachable (linit 0 1 (None, None) sample_works) (lstep [3; 7]) retry_state.
Proof. apply (run_sched_rtc (lnext [3; 7]) (take 24 sample_sched)). vm_cast_no_check (eq_refl (Some retry_state)). Qed.

Lemma optimistic_main_progress_witness :
  t_cur <$> l_ts retry_state !! 1%nat = Some (Some (OAdd, 3, RetP (Some 6%nat) 0 1)) ∧
  ((∃ v, l_main retry_state = LDone v) ∨ ∃ s', lstep [3; 7] retry_state s') ∧
  ∀ i th, l_ts retry_state !! i = Some th → lcreated (l_main retry_state) i = true →
    thread_done th = true ∨ waiting retry_state i = true ∨ ∃ c s', lnext [3; 7] (LThread i c) retry_state = Some s'.
Proof.
  split; [reflexivity|].
  apply (optimistic_main_progress [3; 7] 0 1 (None, None) sample_works);
    [done|done|apply optimistic_sample_keys|apply optimistic_retry].
Defined.

End Optimistic.
