(* ===== verification/StubList.v ===== *)
(** The two unfinished lists: src/Lab11/list_template.cpp, whose operations only return
    [true], and src/Lab11/lock_free.cpp, whose [list_add] also allocates a node, with
    the macros for the marked pointers of the planned lock-free list.

    Driven by the same program, both leave the list empty: [main] prints "correct!"
    for an empty result file only. *)

From S2P Require Import Prelude ListHeap ListClient.

Local Open Scope Z_scope.

(** An operation that is about to run, or (in [list_add]) has allocated its node. *)
Inductive stub_pc := SStart | SReturn.

(** * list_template.cpp *)

Module Template.

Definition list_add (sh : shared unit) (k : Z) (q : stub_pc) : option (shared unit * (stub_pc + bool)) :=
  Some (sh, inr true).
Definition list_remove (sh : shared unit) (k : Z) (q : stub_pc) : option (shared unit * (stub_pc + bool)) :=
  Some (sh, inr true).
Definition list_contains (sh : shared unit) (k : Z) (q : stub_pc) : option (shared unit * (stub_pc + bool)) :=
  Some (sh, inr true).

Definition impl : ListImpl := {|
  lk := unit;
  lk_mem := unit;
  lk_init _ _ _ := tt;
  opc := stub_pc;
  op_start _ := SStart;
  op_step i m sh o k q :=
    match o with
    | OAdd => list_add sh k q
    | ORemove => list_remove sh k q
    | OContains => list_contains sh k q
    end;
  op_waits _ _ := false;
  lin _ := None;
|}.

(** The other functions of the file: [list_init], [ThreadFunc], and [main], first up to
    [list_init] with the tokens of workload.txt, then its steps. *)
Definition init (h t : nat) : shared (@lk impl) := Shared (list_init h t) h t (@lk_init impl h t tt).
Definition ThreadFunc := thread_step (L:=impl).
Definition main_start (h t : nat) (toks : list token) : option (lstate (H:=impl)) :=
  works ← read_workload toks; Some (linit (L:=impl) h t tt works).
Definition main_step := lmain_step (L:=impl).

End Template.

(** * lock_free.cpp *)

Module LockFree.

(** The macros on 64-bit pointers: the top bit is the mark. *)
Definition MARK_BIT : Z := 0x8000000000000000.
Definition IS_MARKED (p : Z) : bool := negb (Z.land p MARK_BIT =? 0).
Definition MARK (p : Z) : Z := Z.lor p MARK_BIT.
Definition UNMARK (p : Z) : Z := Z.land p 0x7FFFFFFFFFFFFFFF.
Definition ADDRESS (p : Z) : Z := UNMARK p.

(** [node->next] stays uninitialized. *)
Definition list_add (m : nat) (sh : shared unit) (k : Z) (q : stub_pc) : option (shared unit * (stub_pc + bool)) :=
  match q with
  | SStart =>
      match sh_heap sh !! m with
      | None => Some (Shared (<[m:=Node k None]> (sh_heap sh)) (sh_head sh) (sh_tail sh) tt, inl SReturn)
      | Some _ => None
      end
  | SReturn => Some (sh, inr true)
  end.
Definition list_remove (sh : shared unit) (k : Z) (q : stub_pc) : option (shared unit * (stub_pc + bool)) :=
  Some (sh, inr true).
Definition list_contains (sh : shared unit) (k : Z) (q : stub_pc) : option (shared unit * (stub_pc + bool)) :=
  Some (sh, inr true).

Definition impl : ListImpl := {|
  lk := unit;
  lk_mem := unit;
  lk_init _ _ _ := tt;
  opc := stub_pc;
  op_start _ := SStart;
  op_step i m sh o k q :=
    match o with
    | OAdd => list_add m sh k q
    | ORemove => list_remove sh k q
    | OContains => list_contains sh k q
    end;
  op_waits _ _ := false;
  lin _ := None;
|}.

(** The other functions of the file: [list_init], [ThreadFunc], and [main], first up to
    [list_init] with the tokens of workload.txt, then its steps. *)
Definition init (h t : nat) : shared (@lk impl) := Shared (list_init h t) h t (@lk_init impl h t tt).
Definition ThreadFunc := thread_step (L:=impl).
Definition main_start (h t : nat) (toks : list token) : option (lstate (H:=impl)) :=
  works ← read_workload toks; Some (linit (L:=impl) h t tt works).
Definition main_step := lmain_step (L:=impl).

(** Marking is invisible to [ADDRESS] and seen by [IS_MARKED]. *)
Lemma mark_address p : 0 ≤ p < MARK_BIT → IS_MARKED p = false ∧ IS_MARKED (MARK p) = true ∧ ADDRESS (MARK p) = p.
Proof.
  intros Hp. assert (∀ n, 63 ≤ n → Z.testbit p n = false) as Hhi.
  { intros n Hn. destruct (decide (p = 0)) as [->|]; [apply Z.testbit_0_l|].
    apply Z.bits_above_log2; [lia|]. apply Z.log2_lt_pow2; [lia|].
    apply (Z.lt_le_trans _ (2 ^ 63)); [apply Hp|]. apply Z.pow_le_mono_r; lia. }
  assert (∀ n, 0 ≤ n → Z.testbit MARK_BIT n = (n =? 63)) as Hm.
  { intros n Hn. change MARK_BIT with (2 ^ 63). by rewrite Z.pow2_bits_eqb, Z.eqb_sym. }
  assert (∀ n, 0 ≤ n → Z.testbit 0x7FFFFFFFFFFFFFFF n = (n <? 63)) as Ho.
  { intros n Hn. change 0x7FFFFFFFFFFFFFFF with (Z.ones 63). apply Z.testbit_ones_nonneg; lia. }
  assert (Z.land p MARK_BIT = 0) as H0.
  { apply Z.bits_inj'. intros n Hn. rewrite Z.land_spec, Hm, Z.bits_0 by done.
    destruct (Z.eqb_spec n 63); [rewrite Hhi by lia|]; by rewrite ?andb_false_r. }
  unfold IS_MARKED, MARK, ADDRESS, UNMARK. split_and!.
  - by rewrite H0.
  - rewrite Z.land_lor_distr_l, H0. done.
  - apply Z.bits_inj'. intros n Hn. rewrite Z.land_spec, Z.lor_spec, Hm, Ho by done.
    destruct (Z.ltb_spec n 63); [|rewrite Hhi by lia; by rewrite andb_false_r].
    replace (n =? 63) with false by (symmetry; apply Z.eqb_neq; lia). by rewrite orb_false_r, andb_true_r.
Qed.

End LockFree.

(** * The program on a stub *)

Section stub.
Context (L : ListImpl).
(** A stub operation leaves allocated nodes and the two pointers alone and returns
    [true]. *)
Hypothesis Hstub : ∀ i m sh o k q sh' r, op_step i m sh o k q = Some (sh', r) →
  sh_head sh' = sh_head sh ∧ sh_tail sh' = sh_tail sh ∧ sh_heap sh ⊆ sh_heap sh' ∧
  match r with inr b => b = true | inl _ => True end.
Context (expected : list Z) (h t : nat) (mem : lk_mem) (works : list (list work)).
Hypothesis Hht : h ≠ t.

Definition stub_inv (s : lstate) : Prop :=
  sh_head (l_sh s) = h ∧ sh_tail (l_sh s) = t ∧ list_init h t ⊆ sh_heap (l_sh s) ∧
  Forall (λ th, Forall (λ b, b = true) (t_rets th)) (l_ts s) ∧
  match l_main s with LDone v => v = bool_decide (expected = []) | _ => True end.

Lemma stub_validate H : list_init h t ⊆ H → validate H h t expected = Some (bool_decide (expected = [])).
Proof.
  intros Hsub. rewrite (validate_correct H h t []); [f_equal; by apply bool_decide_ext|].
  eapply is_list_frame; [|by apply list_init_is_list]. intros a Ha. cbn in Ha.
  assert (is_Some (list_init h t !! a)) as [nd Hnd].
  { unfold list_init. destruct (decide (a = h)) as [->|]; [by rewrite lookup_insert_eq|].
    destruct (decide (a = t)) as [->|]; [by rewrite lookup_insert_ne, lookup_singleton_eq|set_solver]. }
  rewrite Hnd. by eapply lookup_weaken.
Qed.

Lemma stub_step s s' : stub_inv s → lstep expected s s' → stub_inv s'.
Proof.
  intros (Hh & Ht & Hsub & Hr & Hm) [[|i c] Hn]; cbn in Hn.
  - unfold lmain_step in Hn. destruct (l_main s) as [k|k|v]; [|destruct (l_ts s !! k) as [th|]|done].
    + simplify_eq. split_and!; [done..|]. cbn [l_main]. by destruct (k <? length (l_ts s))%nat.
    + destruct (thread_done th); simplify_eq. by split_and!.
    + rewrite Hh, Ht, stub_validate in Hn by done. simplify_eq/=. by split_and!.
  - destruct (l_ts s !! i) as [th|] eqn:Hth; simplify_eq/=. destruct (lcreated _ _); [|done].
    assert (Forall (λ b, b = true) (t_rets th)) as Hrth by (rewrite Forall_lookup in Hr; eauto).
    unfold thread_step in Hn. destruct (t_cur th) as [[[o k] q]|].
    + destruct (op_step i c (l_sh s) o k q) as [[sh' r]|] eqn:Hop; simplify_eq/=.
      destruct (Hstub _ _ _ _ _ _ _ _ Hop) as (Hh' & Ht' & Hs' & Hb).
      split_and!; cbn; [by rewrite Hh'|by rewrite Ht'|by etrans| |done].
      apply Forall_insert; [done|]. destruct r as [q'|b]; cbn; [done|].
      subst b. apply Forall_app. by split; [|constructor].
    + destruct (t_todo th) as [|w todo]; simplify_eq/=. split_and!; cbn; [done..| |done].
      apply Forall_insert; [done|]. by destruct (decode (w_type w)).
Qed.

Lemma stub_main s v :
  reachable (linit h t mem works) (lstep expected) s → l_main s = LDone v →
  v = bool_decide (expected = []) ∧ Forall (λ th, Forall (λ b, b = true) (t_rets th)) (l_ts s).
Proof.
  intros Hr Hv. assert (stub_inv s) as (_ & _ & _ & Hf & Hm).
  { eapply reachable_invariant; [|exact stub_step|exact Hr]. split_and!; try done.
    apply Forall_fmap, Forall_true. intros ws. constructor. }
  by rewrite Hv in Hm.
Qed.
End stub.

(** The unfinished lock-free list never changes the list: whatever the workload, all
    operations report success and [main] prints "correct!" exactly for an empty result
    file. *)
Theorem lock_free_main expected h t works s v :
  h ≠ t → reachable (linit (L:=LockFree.impl) h t tt works) (lstep expected) s → l_main s = LDone v →
  v = bool_decide (expected = []) ∧ Forall (λ th, Forall (λ b, b = true) (t_rets th)) (l_ts s).
Proof.
  intros Hht. apply (stub_main LockFree.impl); [|done].
  intros i m sh o k q sh' r. destruct o; cbn; [|by intros [= <- <-]..].
  unfold LockFree.list_add. destruct q; [|by intros [= <- <-]].
  intros Hs. case_match; [done|]. injection Hs as <- <-. split_and!; try done. cbn.
  by apply insert_subseteq.
Qed.

Lemma template_main expected h t works s v :
  h ≠ t → reachable (linit (L:=Template.impl) h t tt works) (lstep expected) s → l_main s = LDone v →
  v = bool_decide (expected = []) ∧ Forall (λ th, Forall (λ b, b = true) (t_rets th)) (l_ts s).
Proof.
  intros Hht. apply (stub_main Template.impl); [|done].
  intros i m sh o k q sh' r. by destruct o; cbn; intros [= <- <-].
Qed.

Definition stub_works : list (list work) := [[Work "A" 7; Work "C" 8]].
Definition stub_sched : list lsched := [LMain; LMain] ++ replicate 5 (LThread 0 5) ++ replicate 2 LMain.

Definition stub_state : lstate (H:=LockFree.impl) :=
  Eval vm_compute in default (linit (L:=LockFree.impl) 0 1 tt stub_works)
    (run_sched (lnext [7]) stub_sched (linit (L:=LockFree.impl) 0 1 tt stub_works)).

Lemma stub_sample : reachable (linit (L:=LockFree.impl) 0 1 tt stub_works) (lstep [7]) stub_state.
Proof. apply (run_sched_rtc (lnext [7]) stub_sched). vm_cast_no_check (eq_refl (Some stub_state)). Qed.

Lemma lock_free_main_witness :
  l_main stub_state = LDone false ∧
  false = bool_decide ([7] = []) ∧ Forall (λ th, Forall (λ b, b = true) (t_rets th)) (l_ts stub_state).
Proof.
  split; [reflexivity|]. apply (lock_free_main [7] 0 1 stub_works); [done|apply stub_sample|reflexivity].
Defined.
