(* ===== verification/Rwlock.v ===== *)
(** The readers-writer lock of src/Lab7/rwlock.cc and its test program: one writer and
    ten readers, one memory access per step.

    Readers count their acquires and releases; the writer raises a flag and waits until
    the two counters agree.  The counters do tell how many readers are inside, also when
    they wrap around, but the test of the flag and the increment of a reader are two
    steps, so a reader can enter after the writer has looked. *)

From S2P Require Import Prelude.

Local Open Scope Z_scope.

Module Rwlock.

(** Where a thread is; [v] and [a] are values it has loaded. *)
Inductive pc :=
  (* writer *)
  | WLoop
  | WFlag
  | WRead
  | WCmp (a : Z)
  | WLoadC
  | WStoreC (v : Z)
  | WLoadW
  | WStoreW (v : Z)
  | WUnlock
  (* reader *)
  | RLoop
  | RSpin
  | RAcquire
  | REnter
  | RLoadR
  | RStoreR (v : Z)
  | RLoadC
  | RStoreC (v : Z)
  | RRelease
  (* both *)
  | Exit.

(** A thread: its argument [i], its local [counter], its program counter. *)
Record thread := Thread { t_i : nat; t_counter : Z; t_pc : pc }.

(** The globals of the program. *)
Record globals := Globals {
  timeout : bool;
  writing : bool;
  readAcquires : Z;
  readReleases : Z;
  g_counter : list Z;
  g_readCounter : list Z;
  g_writeCounter : list Z;
}.

Definition set_writing (g : globals) (b : bool) : globals :=
  Globals (timeout g) b (readAcquires g) (readReleases g) (g_counter g) (g_readCounter g) (g_writeCounter g).
Definition set_timeout (g : globals) : globals :=
  Globals true (writing g) (readAcquires g) (readReleases g) (g_counter g) (g_readCounter g) (g_writeCounter g).
Definition set_counter (g : globals) (i : nat) (v : Z) : globals :=
  Globals (timeout g) (writing g) (readAcquires g) (readReleases g)
    (<[i:=v]> (g_counter g)) (g_readCounter g) (g_writeCounter g).
Definition set_readCounter (g : globals) (i : nat) (v : Z) : globals :=
  Globals (timeout g) (writing g) (readAcquires g) (readReleases g)
    (g_counter g) (<[i:=v]> (g_readCounter g)) (g_writeCounter g).
Definition set_writeCounter (g : globals) (i : nat) (v : Z) : globals :=
  Globals (timeout g) (writing g) (readAcquires g) (readReleases g)
    (g_counter g) (g_readCounter g) (<[i:=v]> (g_writeCounter g)).

(** [++] on a signed [int]: past [INT_MAX] the program has no meaning. *)
Definition incr (v : Z) : option Z := if v <? INT_MAX then Some (v + 1) else None.

Definition at_pc (t : thread) (q : pc) : thread := Thread (t_i t) (t_counter t) q.

(** [writelock]: raise the flag, then compare the two counters, loaded one after the
    other, until they agree. *)
Definition writelock (g : globals) (q : pc) : option (globals * pc) :=
  match q with
  | WFlag => Some (set_writing g true, WRead)
  | WRead => Some (g, WCmp (readAcquires g))
  | WCmp a => Some (g, if a =? readReleases g then WLoadC else WRead)
  | _ => None
  end.

Definition writeunlock (g : globals) (q : pc) : option (globals * pc) :=
  match q with WUnlock => Some (set_writing g false, WLoop) | _ => None end.

(** [readlock]: wait for the flag to be down, then count in atomically. *)
Definition readlock (g : globals) (q : pc) : option (globals * pc) :=
  match q with
  | RSpin => Some (g, if writing g then RSpin else RAcquire)
  | RAcquire =>
      Some (Globals (timeout g) (writing g) (i32 (readAcquires g + 1)) (readReleases g)
              (g_counter g) (g_readCounter g) (g_writeCounter g), REnter)
  | _ => None
  end.

Definition readunlock (g : globals) (q : pc) : option (globals * pc) :=
  match q with
  | RRelease =>
      Some (Globals (timeout g) (writing g) (readAcquires g) (i32 (readReleases g + 1))
              (g_counter g) (g_readCounter g) (g_writeCounter g), RLoop)
  | _ => None
  end.

(** One step of [writer]. *)
Definition writer (g : globals) (t : thread) : option (globals * thread) :=
  let i := t_i t in
  match t_pc t with
  | WLoop => Some (g, at_pc t (if timeout g then Exit else WFlag))
  | WLoadC =>
      c ← incr (t_counter t); v ← g_counter g !! i; Some (g, Thread i c (WStoreC v))
  | WStoreC v => v' ← incr v; Some (set_counter g i v', at_pc t WLoadW)
  | WLoadW => v ← g_writeCounter g !! i; Some (g, at_pc t (WStoreW v))
  | WStoreW v => v' ← incr v; Some (set_writeCounter g i v', at_pc t WUnlock)
  | WUnlock => '(g', q) ← writeunlock g WUnlock; Some (g', at_pc t q)
  | q => '(g', q') ← writelock g q; Some (g', at_pc t q')
  end.

(** One step of [reader]; only the first two readers count. *)
Definition reader (g : globals) (t : thread) : option (globals * thread) :=
  let i := t_i t in
  match t_pc t with
  | RLoop => Some (g, at_pc t (if timeout g then Exit else RSpin))
  | REnter =>
      if (i <=? 2)%nat then Some (g, at_pc t RLoadR)
      else c ← incr (t_counter t); Some (g, Thread i c RRelease)
  | RLoadR => v ← g_readCounter g !! i; Some (g, at_pc t (RStoreR v))
  | RStoreR v => v' ← incr v; Some (set_readCounter g i v', at_pc t RLoadC)
  | RLoadC => v ← g_counter g !! i; Some (g, at_pc t (RStoreC v))
  | RStoreC v =>
      v' ← incr v; c ← incr (t_counter t); Some (set_counter g i v', Thread i c RRelease)
  | RRelease => '(g', q) ← readunlock g RRelease; Some (g', at_pc t q)
  | q => '(g', q') ← readlock g q; Some (g', at_pc t q')
  end.

Definition is_writer (q : pc) : bool :=
  match q with
  | WLoop | WFlag | WRead | WCmp _ | WLoadC | WStoreC _ | WLoadW | WStoreW _ | WUnlock => true
  | _ => false
  end.

Definition thread_step (g : globals) (t : thread) : option (globals * thread) :=
  match t_pc t with
  | Exit => None
  | q => if is_writer q then writer g t else reader g t
  end.

(** * main *)

Definition num_writer : nat := 1.
Definition num_reader : nat := 10.

(** Creating thread [k] (the writer first), sleeping, joining thread [k], done. *)
Inductive rmain := MCreate (k : nat) | MSleep | MJoin (k : nat) | MDone.

Record state := State { s_g : globals; s_ts : list thread; s_main : rmain }.

Definition main_init : state :=
  State (Globals false false 0 0 [0; 0; 0] [0; 0; 0] [0; 0; 0])
    (((λ i, Thread (i + 1) 0 WLoop) <$> seq 0 num_writer) ++ ((λ i, Thread (i + 1) 0 RLoop) <$> seq 0 num_reader))
    (MCreate 0).

Definition main_step (s : state) : option state :=
  match s_main s with
  | MCreate k =>
      Some (State (s_g s) (s_ts s) (if (k <? length (s_ts s))%nat then MCreate (S k) else MSleep))
  | MSleep => Some (State (set_timeout (s_g s)) (s_ts s) (MJoin 0))
  | MJoin k =>
      match s_ts s !! k with
      | Some t => match t_pc t with Exit => Some (State (s_g s) (s_ts s) (MJoin (S k))) | _ => None end
      | None => Some (State (s_g s) (s_ts s) MDone)
      end
  | MDone => None
  end.

Definition created (m : rmain) (i : nat) : bool := match m with MCreate k => (i <? k)%nat | _ => true end.

(** [None] schedules [main], [Some i] thread [i]. *)
Definition next (d : option nat) (s : state) : option state :=
  match d with
  | None => main_step s
  | Some i =>
      t ← s_ts s !! i;
      if created (s_main s) i then
        '(g, t') ← thread_step (s_g s) t; Some (State g (<[i:=t']> (s_ts s)) (s_main s))
      else None
  end.

Definition step (s s' : state) : Prop := ∃ d, next d s = Some s'.

(** The two numbers [main] prints for counter 1. *)
Definition output (s : state) : option (Z * Z) :=
  match s_main s with
  | MDone => c ← g_counter (s_g s) !! 1%nat; r ← g_readCounter (s_g s) !! 1%nat;
             w ← g_writeCounter (s_g s) !! 1%nat; Some (c, r + w)
  | _ => None
  end.

(** * Counting the readers *)

(** A reader between its acquire and its release. *)
Definition reading (t : thread) : Z :=
  match t_pc t with
  | REnter | RLoadR | RStoreR _ | RLoadC | RStoreC _ | RRelease => 1
  | _ => 0
  end.

Definition rcount (s : state) : Prop :=
  i32 (readAcquires (s_g s) - readReleases (s_g s)) = i32 (Zsum reading (s_ts s)).

(** [i32] depends on its argument modulo [2 ^ 32] only. *)
Lemma i32_eq a b : i32 a = i32 b ↔ (a - b) mod 2 ^ 32 = 0.
Proof.
  unfold i32. split.
  - intros He. assert ((a + 2 ^ 31) mod 2 ^ 32 = (b + 2 ^ 31) mod 2 ^ 32) as Hm by lia.
    replace (a - b) with ((a + 2 ^ 31) - (b + 2 ^ 31)) by lia.
    rewrite Zminus_mod, Hm, Z.sub_diag. done.
  - intros Hm. f_equal. replace (a + 2 ^ 31) with ((b + 2 ^ 31) + (a - b)) by lia.
    rewrite Zplus_mod, Hm, Z.add_0_r, Z.mod_mod; lia.
Qed.

Lemma i32_i32 a : ∃ q, i32 a = a + q * 2 ^ 32.
Proof.
  exists (- ((a + 2 ^ 31) / 2 ^ 32)). unfold i32.
  pose proof (Z.div_mod (a + 2 ^ 31) (2 ^ 32) ltac:(lia)). lia.
Qed.

Lemma thread_step_count g t g' t' :
  thread_step g t = Some (g', t') →
  i32 (readAcquires g' - readReleases g' - (readAcquires g - readReleases g)) = i32 (reading t' - reading t).
Proof.
  intros Hs. unfold thread_step in Hs. apply i32_eq.
  assert (∀ a, (i32 (a + 1) - a - 1) mod 2 ^ 32 = 0) as Hi.
  { intros a. destruct (i32_i32 (a + 1)) as [q ->]. replace (a + 1 + q * 2 ^ 32 - a - 1) with (q * 2 ^ 32) by lia.
    apply Z.mod_mul. lia. }
  destruct t as [i c q]; destruct q; cbn in Hs; try discriminate; unfold reading; cbn [t_pc];
    step_inv Hs; cbn [at_pc t_pc readAcquires readReleases set_writing set_counter set_readCounter set_writeCounter];
    repeat case_match; simplify_eq/=;
    match goal with
    | |- ?x mod _ = 0 => try (replace x with 0 by lia; done)
    end.
  - etrans; [|exact (Hi (readAcquires g))]. f_equal. lia.
  - pose proof (Hi (readReleases g)) as Hr. apply Z.mod_divide in Hr as [m Hm]; [|lia].
    apply Z.mod_divide; [lia|]. exists (- m). lia.
Qed.

Lemma rcount_step s s' : rcount s → step s s' → rcount s'.
Proof.
  unfold rcount. intros HI [[i|] Hn]; cbn in Hn.
  - destruct (s_ts s !! i) as [t|] eqn:Ht; simplify_eq/=. destruct (created _ _); [|done].
    destruct (thread_step (s_g s) t) as [[g t']|] eqn:Hs; simplify_eq/=.
    apply thread_step_count in Hs. rewrite (Zsum_insert _ _ _ _ _ Ht). apply i32_eq in Hs, HI. apply i32_eq.
    apply Z.mod_divide in Hs as [m1 H1], HI as [m2 H2]; [|lia..]. apply Z.mod_divide; [lia|]. exists (m1 + m2). lia.
  - unfold main_step in Hn. step_inv Hn; done.
Qed.

Lemma threads_step s s' : step s s' → length (s_ts s') = length (s_ts s).
Proof.
  intros [[i|] Hn]; cbn in Hn.
  - step_inv Hn. by rewrite length_insert.
  - unfold main_step in Hn. by step_inv Hn.
Qed.

(** The counters stay in the range of an [int]. *)
Definition in_range (s : state) : Prop :=
  -2 ^ 31 ≤ readAcquires (s_g s) < 2 ^ 31 ∧ -2 ^ 31 ≤ readReleases (s_g s) < 2 ^ 31.

Lemma in_range_step s s' : in_range s → step s s' → in_range s'.
Proof.
  unfold in_range. intros [Ha Hr] [[i|] Hn]; cbn in Hn.
  - destruct (s_ts s !! i) as [t|]; simplify_eq/=. destruct (created _ _); [|done].
    destruct (thread_step (s_g s) t) as [[g t']|] eqn:Hs; simplify_eq/=.
    unfold thread_step in Hs. destruct t as [j c q]; destruct q; cbn in Hs; try discriminate;
      step_inv Hs; cbn; auto using i32_range.
  - unfold main_step in Hn. by step_inv Hn.
Qed.

Lemma main_reachable s :
  reachable main_init step s → rcount s ∧ in_range s ∧ length (s_ts s) = 11%nat.
Proof.
  intros Hr. apply (reachable_invariant main_init step (λ s, rcount s ∧ in_range s ∧ length (s_ts s) = 11%nat));
    [| |done].
  - split; [done|]. split; [split; cbn; lia|done].
  - intros a b (Ha & Hg & Hl) Hs. split_and!; [by eapply rcount_step|by eapply in_range_step|].
    by rewrite (threads_step _ _ Hs).
Qed.

(** C35: in every reachable state the two counters differ by the number of readers inside,
    also after they have wrapped around; so they agree exactly when no reader is inside. *)
Theorem rwlock_counts_readers s :
  reachable main_init step s →
  i32 (readAcquires (s_g s) - readReleases (s_g s)) = Zsum reading (s_ts s) ∧
  (readAcquires (s_g s) = readReleases (s_g s) ↔ Forall (λ t, reading t = 0) (s_ts s)).
Proof.
  intros (HI & [Ha Hr] & Hl)%main_reachable. unfold rcount in HI.
  assert (∀ t, 0 ≤ reading t ≤ 1) as Hb by (intros t; unfold reading; by destruct (t_pc t)).
  pose proof (Zsum_le reading (s_ts s) 1 ltac:(intros t _; apply Hb)) as H1.
  pose proof (Zsum_nonneg reading (s_ts s) ltac:(intros t _; apply Hb)) as H0. rewrite Hl in H1.
  rewrite (i32_id (Zsum _ _)) in HI by lia. split; [done|]. split.
  - intros He. rewrite He, Z.sub_diag in HI. apply Forall_forall. intros t Ht.
    pose proof (Zsum_member reading (s_ts s) t ltac:(intros y _; apply Hb) Ht) as Hm.
    rewrite <- HI in Hm. specialize (Hb t). change (i32 0) with 0 in Hm. lia.
  - intros Hf. rewrite (Zsum_const reading (s_ts s) 0), Z.mul_0_r in HI;
      [|intros t Ht; rewrite Forall_forall in Hf; auto].
    change 0 with (i32 0) in HI. apply i32_eq in HI. rewrite Z.sub_0_r in HI.
    apply Z.mod_divide in HI as [m Hm]; [|lia]. assert (m = 0) as -> by nia. lia.
Qed.

(** * No exclusion *)

(** Reader 1 has seen the flag down before the writer raises it, and counts itself in
    after the writer has compared the counters; both then increment [g_counter[1]]. *)
Definition race_sched : list (option nat) :=
  replicate 12 None ++ [Some 1; Some 1]%nat ++ replicate 4 (Some 0%nat) ++ [Some 1; Some 1; Some 1; Some 1]%nat ++
  [Some 0; Some 1; Some 1; Some 0]%nat ++ [None] ++ [Some 1; Some 1]%nat ++ replicate 4 (Some 0%nat) ++
  (Some <$> seq 2 9) ++ replicate 12 None.

Definition race_state : state :=
  Eval vm_compute in default main_init (run_sched next race_sched main_init).

Definition overlap_state : state :=
  Eval vm_compute in default main_init (run_sched next (take 22 race_sched) main_init).

Lemma run_reachable sched s : run_sched next sched main_init = Some s → reachable main_init step s.
Proof. apply run_sched_rtc. Qed.

Lemma rwlock_counts_readers_witness :
  Zsum reading (s_ts overlap_state) = 1 ∧
  i32 (readAcquires (s_g overlap_state) - readReleases (s_g overlap_state)) = Zsum reading (s_ts overlap_state) ∧
  (readAcquires (s_g overlap_state) = readReleases (s_g overlap_state) ↔
    Forall (λ t, reading t = 0) (s_ts overlap_state)).
Proof.
  split; [reflexivity|]. apply rwlock_counts_readers. apply (run_reachable (take 22 race_sched)).
  vm_compute. reflexivity.
Defined.

(** The lock does not exclude: the writer and a reader can be inside together, and
    the program can then end with a lost increment, printing 1 for [g_counter[1]] after
    two increments. *)
Theorem rwlock_race :
  (∃ s, reachable main_init step s ∧ t_pc <$> s_ts s !! 0%nat = Some WLoadC ∧ Zsum reading (s_ts s) = 1) ∧
  (∃ s, reachable main_init step s ∧ output s = Some (1, 2)).
Proof.
  split.
  - exists overlap_state. split; [|done]. apply (run_reachable (take 22 race_sched)). vm_compute. reflexivity.
  - exists race_state. split; [|done]. apply (run_reachable race_sched). vm_compute. reflexivity.
Qed.

End Rwlock.
