(* ===== verification/FetchAdd.v ===== *)
(** src/Lab6/fetch_and_add_test.cpp: ten threads draw tickets with an atomic
    fetch-and-add and set the flag of each ticket; [main] checks that all flags are on.

    The proof is for any number of threads and tickets that fit an [int]; the program
    is the instance with 10 threads and 1000000 tickets each. *)

From S2P Require Import Prelude.

Local Open Scope Z_scope.

Module FetchAdd.

Definition NUM_THREAD : Z := 10.
Definition NUM_INCREMENT : Z := 1000000.

(** A thread in its loop with [i] iterations done, or holding a ticket. *)
Inductive pc := Fetch (i : Z) | Flag (i ticket : Z).

Inductive fmain := MCreate (k : nat) | MJoin (k : nat) | MExit (all_on : bool).

(** [flag] is the set of indices that are on. *)
Record state := State { g_cnt_global : Z; flag : gset Z; s_ts : list pc; s_main : fmain }.

Section program.
Context (NT NI : Z).

(** One step of [ThreadFunc]: [__sync_fetch_and_add] wraps around; writing a flag
    outside the array has no meaning. *)
Definition ThreadFunc (cnt : Z) (fl : gset Z) (q : pc) : option (Z * gset Z * pc) :=
  match q with
  | Fetch i => if i <? NI then Some (i32 (cnt + 1), fl, Flag i cnt) else None
  | Flag i ticket =>
      if (0 <=? ticket) && (ticket <? NT * NI) then Some (cnt, {[ticket]} ∪ fl, Fetch (i + 1)) else None
  end.

Definition finished (q : pc) : bool := match q with Fetch i => negb (i <? NI) | Flag _ _ => false end.

(** The final loop of [main]: the number of leading flags that are on, at most [n]. *)
Fixpoint check_flags (fl : gset Z) (n : nat) (i : Z) : Z :=
  match n with
  | O => i
  | S n => if bool_decide (i ∈ fl) then check_flags fl n (i + 1) else i
  end.

Definition main_step (s : state) : option state :=
  match s_main s with
  | MCreate k =>
      Some (State (g_cnt_global s) (flag s) (s_ts s)
        (if (k <? length (s_ts s))%nat then MCreate (S k) else MJoin 0))
  | MJoin k =>
      match s_ts s !! k with
      | Some q => if finished q then Some (State (g_cnt_global s) (flag s) (s_ts s) (MJoin (S k))) else None
      | None => Some (State (g_cnt_global s) (flag s) (s_ts s)
                  (MExit (check_flags (flag s) (Z.to_nat (NT * NI)) 0 =? NT * NI)))
      end
  | MExit _ => None
  end.

Definition created (m : fmain) (i : nat) : bool := match m with MCreate k => (i <? k)%nat | _ => true end.

Definition next (d : option nat) (s : state) : option state :=
  match d with
  | None => main_step s
  | Some i =>
      q ← s_ts s !! i;
      if created (s_main s) i then
        '(cnt, fl, q') ← ThreadFunc (g_cnt_global s) (flag s) q;
        Some (State cnt fl (<[i:=q']> (s_ts s)) (s_main s))
      else None
  end.

Definition step (s s' : state) : Prop := ∃ d, next d s = Some s'.

Definition init : state := State 0 ∅ (replicate (Z.to_nat NT) (Fetch 0)) (MCreate 0).

(** * The invariant *)

Hypothesis HNT : 0 ≤ NT.
Hypothesis HNI : 0 ≤ NI.
Hypothesis Hfit : NT * NI < 2 ^ 31.

(** Tickets drawn by a thread. *)
Definition drawn (q : pc) : Z := match q with Fetch i => i | Flag i _ => i + 1 end.

Definition holds (q : pc) (z : Z) : Prop := ∃ i, q = Flag i z.

Record inv (s : state) : Prop := {
  i_len : Z.of_nat (length (s_ts s)) = NT;
  i_pc j q : s_ts s !! j = Some q → 0 ≤ drawn q ≤ NI ∧ 0 ≤ match q with Fetch i | Flag i _ => i end;
  i_cnt : g_cnt_global s = Zsum drawn (s_ts s);
  (** every ticket drawn is flagged or held by a thread *)
  i_all z : 0 ≤ z < g_cnt_global s → z ∈ flag s ∨ ∃ j q, s_ts s !! j = Some q ∧ holds q z;
  (** tickets held are distinct and their flags are off *)
  i_held j q z : s_ts s !! j = Some q → holds q z → 0 ≤ z < g_cnt_global s ∧ z ∉ flag s;
  i_distinct j j' q q' z : s_ts s !! j = Some q → s_ts s !! j' = Some q' → holds q z → holds q' z → j = j';
  i_flag z : z ∈ flag s → z < g_cnt_global s;
  i_join k : s_main s = MJoin k → ∀ j q, (j < k)%nat → s_ts s !! j = Some q → finished q = true;
  i_exit b : s_main s = MExit b → (∀ j q, s_ts s !! j = Some q → finished q = true) ∧
    b = (check_flags (flag s) (Z.to_nat (NT * NI)) 0 =? NT * NI);
}.

Lemma cnt_bound s : inv s → 0 ≤ g_cnt_global s ≤ NT * NI.
Proof.
  intros HI. rewrite (i_cnt _ HI), <- (i_len _ HI). split.
  - apply Zsum_nonneg. intros q [j Hj]%list_elem_of_lookup. apply (i_pc _ HI _ _ Hj).
  - apply Zsum_le. intros q [j Hj]%list_elem_of_lookup. apply (i_pc _ HI _ _ Hj).
Qed.

(** A thread that can still draw keeps the count below the total. *)
Lemma cnt_room s j i : inv s → s_ts s !! j = Some (Fetch i) → i < NI → g_cnt_global s < NT * NI.
Proof.
  intros HI Hj Hi. rewrite (i_cnt _ HI), <- (i_len _ HI).
  pose proof (Zsum_insert drawn (s_ts s) j _ (Fetch NI) Hj) as Hins. cbn [drawn] in Hins.
  pose proof (Zsum_le drawn (<[j:=Fetch NI]> (s_ts s)) NI) as Hle. rewrite length_insert in Hle.
  assert (∀ q, q ∈ <[j:=Fetch NI]> (s_ts s) → drawn q ≤ NI) as Hq; [|specialize (Hle Hq); lia].
  intros q [j' [[_ ->]|[_ Hj']]%lookup_insert_inv]%list_elem_of_lookup; [done|].
  apply (i_pc _ HI _ _ Hj').
Qed.

Lemma inv_init : inv init.
Proof.
  assert (∀ j q, replicate (Z.to_nat NT) (Fetch 0) !! j = Some q → q = Fetch 0) as Hr.
  { intros j q [-> _]%lookup_replicate. done. }
  constructor; cbn.
  - rewrite length_replicate. lia.
  - by intros j q ->%Hr.
  - rewrite (Zsum_const _ _ 0); [lia|]. by intros q [j ->%Hr]%list_elem_of_lookup.
  - intros; lia.
  - by intros j q z ->%Hr [? ?].
  - by intros j j' q q' z ->%Hr _ [? ?].
  - set_solver.
  - done.
  - done.
Qed.

Lemma inv_fetch s j i :
  inv s → s_ts s !! j = Some (Fetch i) → i < NI →
  inv (State (i32 (g_cnt_global s + 1)) (flag s) (<[j:=Flag i (g_cnt_global s)]> (s_ts s)) (s_main s)).
Proof.
  intros HI Hj Hi. pose proof (cnt_bound s HI) as Hb. pose proof (cnt_room s j i HI Hj Hi) as Hr.
  destruct (i_pc _ HI _ _ Hj) as [_ Hi0]. rewrite i32_id by lia.
  assert (j < length (s_ts s))%nat as Hlt by by eapply lookup_lt_Some.
  constructor; cbn [g_cnt_global flag s_ts s_main].
  - rewrite length_insert. apply HI.
  - intros j' q [[<- ->]|[_ Hq]]%lookup_insert_inv; [cbn; lia|by apply (i_pc _ HI _ _ Hq)].
  - rewrite (Zsum_insert _ _ _ _ _ Hj), <- (i_cnt _ HI). cbn. lia.
  - intros z Hz. destruct (decide (z = g_cnt_global s)) as [->|].
    + right. exists j, (Flag i (g_cnt_global s)). rewrite list_lookup_insert_eq by done. split; [done|]. by exists i.
    + destruct (i_all _ HI z) as [?|(j' & q & Hq & Hh)]; [lia|by left|right]. exists j', q.
      rewrite list_lookup_insert_ne; [done|]. intros ->. destruct Hh as [? ->]. congruence.
  - intros j' q z [[<- ->]|[_ Hq]]%lookup_insert_inv.
    + intros [? [= <- <-]]. split; [lia|]. intros ?%(i_flag _ HI). lia.
    + intros Hh. destruct (i_held _ HI _ _ _ Hq Hh). split; [lia|done].
  - intros j1 j2 q1 q2 z [[<- ->]|[_ H1]]%lookup_insert_inv [[<- ->]|[_ H2]]%lookup_insert_inv;
      [done|..|by eapply (i_distinct _ HI)].
    + intros [? [= <- <-]] Hh. destruct (i_held _ HI _ _ _ H2 Hh). lia.
    + intros Hh [? [= <- <-]]. destruct (i_held _ HI _ _ _ H1 Hh). lia.
  - intros z Hz%(i_flag _ HI). lia.
  - intros k Hk j' q Hlt' [[<- ->]|[_ Hq]]%lookup_insert_inv; [|by eapply (i_join _ HI)].
    pose proof (i_join _ HI k Hk j _ Hlt' Hj) as Hf. cbn in Hf. rewrite (proj2 (Z.ltb_lt _ _) Hi) in Hf. done.
  - intros b Hb'. destruct (i_exit _ HI b Hb') as [Hf _]. specialize (Hf _ _ Hj). cbn in Hf.
    rewrite (proj2 (Z.ltb_lt _ _) Hi) in Hf. done.
Qed.

Lemma inv_flag s j i t :
  inv s → s_ts s !! j = Some (Flag i t) →
  inv (State (g_cnt_global s) ({[t]} ∪ flag s) (<[j:=Fetch (i + 1)]> (s_ts s)) (s_main s)).
Proof.
  intros HI Hj. destruct (i_pc _ HI _ _ Hj) as [Hd Hi0].
  assert (holds (Flag i t) t) as Hh by by exists i. destruct (i_held _ HI _ _ _ Hj Hh) as [Ht Hnf].
  constructor; cbn [g_cnt_global flag s_ts s_main].
  - rewrite length_insert. apply HI.
  - intros j' q [[<- ->]|[_ Hq]]%lookup_insert_inv; [cbn in *; lia|by apply (i_pc _ HI _ _ Hq)].
  - rewrite (Zsum_insert _ _ _ _ _ Hj), <- (i_cnt _ HI). cbn. lia.
  - intros z Hz. destruct (i_all _ HI z Hz) as [?|(j' & q & Hq & Hhq)]; [left; set_solver|].
    destruct (decide (j' = j)) as [->|Hne].
    + rewrite Hj in Hq. simplify_eq. destruct Hhq as [? [= -> ->]]. left. set_solver.
    + right. exists j', q. by rewrite list_lookup_insert_ne.
  - intros j' q z [[<- ->]|[Hne Hq]]%lookup_insert_inv Hhq; [by destruct Hhq|].
    destruct (i_held _ HI _ _ _ Hq Hhq) as [? Hnz]. split; [done|].
    intros [->%elem_of_singleton|?]%elem_of_union; [|done]. by eapply Hne, (i_distinct _ HI).
  - intros j1 j2 q1 q2 z [[<- ->]|[_ H1]]%lookup_insert_inv [[<- ->]|[_ H2]]%lookup_insert_inv H1h H2h;
      [done|by destruct H1h|by destruct H2h|by eapply (i_distinct _ HI)].
  - intros z [->%elem_of_singleton|?]%elem_of_union; [lia|]. by apply (i_flag _ HI).
  - intros k Hk j' q Hlt' [[<- ->]|[_ Hq]]%lookup_insert_inv; [|by eapply (i_join _ HI)].
    by pose proof (i_join _ HI k Hk j _ Hlt' Hj).
  - intros b Hb'. destruct (i_exit _ HI b Hb') as [Hf _]. by specialize (Hf _ _ Hj).
Qed.

Lemma inv_step s s' : inv s → step s s' → inv s'.
Proof.
  intros HI [[j|] Hn]; cbn in Hn.
  - destruct (s_ts s !! j) as [[i|i t]|] eqn:Hj; simplify_eq/=; destruct (created _ _); try done.
    + destruct (Z.ltb_spec i NI); simplify_eq/=. by apply inv_fetch.
    + destruct ((0 <=? t) && (t <? NT * NI)) eqn:Ht; simplify_eq/=. by eapply inv_flag.
  - unfold main_step in Hn. destruct (s_main s) as [k|k|b] eqn:Hm; [|destruct (s_ts s !! k) as [q|] eqn:Hk|done].
    + simplify_eq. constructor; try apply HI; cbn [s_main s_ts flag].
      * intros k'. destruct (k <? length (s_ts s))%nat; [done|]. intros [= <-]. lia.
      * by destruct (k <? length (s_ts s))%nat.
    + destruct (finished q) eqn:Hf; simplify_eq. constructor; try apply HI; cbn [s_main s_ts flag]; [|done].
      intros k' [= <-] j q' Hlt Hj. destruct (decide (j = k)) as [->|]; [congruence|].
      apply (i_join _ HI k Hm j); [lia|done].
    + simplify_eq. constructor; try apply HI; cbn [s_main s_ts flag]; [done|].
      intros b [= <-]. split; [|done]. intros j q Hj. apply (i_join _ HI k Hm j); [|done].
      apply lookup_lt_Some in Hj. apply lookup_ge_None in Hk. lia.
Qed.

Lemma check_flags_all fl n i : (∀ z, i ≤ z < i + Z.of_nat n → z ∈ fl) → check_flags fl n i = i + Z.of_nat n.
Proof.
  revert i. induction n as [|n IH]; intros i Hall; cbn [check_flags]; [lia|].
  rewrite bool_decide_eq_true_2 by (apply Hall; lia). rewrite IH; [lia|]. intros z Hz. apply Hall. lia.
Qed.

Lemma all_flags_on s b :
  reachable init step s → s_main s = MExit b → b = true ∧ g_cnt_global s = NT * NI.
Proof.
  intros Hr Hb. assert (inv s) as HI.
  { eapply reachable_invariant; [exact inv_init|exact inv_step|done]. }
  destruct (i_exit _ HI b Hb) as [Hf ->].
  assert (g_cnt_global s = NT * NI) as Hc.
  { rewrite (i_cnt _ HI), (Zsum_const _ _ NI), (i_len _ HI); [done|].
    intros q [j Hj]%list_elem_of_lookup. specialize (Hf _ _ Hj). destruct (i_pc _ HI _ _ Hj).
    destruct q as [i|]; [|done]. cbn in *. destruct (Z.ltb_spec i NI); [done|lia]. }
  split; [|done]. apply Z.eqb_eq. rewrite check_flags_all; [rewrite Z2Nat.id; nia|].
  intros z Hz. rewrite Z2Nat.id in Hz by nia.
  destruct (i_all _ HI z) as [?|(j & q & Hj & i & ->)]; [lia|done|].
  specialize (Hf _ _ Hj). done.
Qed.

Lemma tickets_distinct s j j' i i' t :
  reachable init step s → s_ts s !! j = Some (Flag i t) → s_ts s !! j' = Some (Flag i' t) →
  j = j' ∧ 0 ≤ t < NT * NI.
Proof.
  intros Hr Hj Hj'. assert (inv s) as HI.
  { eapply reachable_invariant; [exact inv_init|exact inv_step|done]. }
  assert (holds (Flag i t) t) as Hh by by exists i. assert (holds (Flag i' t) t) as Hh' by by exists i'.
  split; [by eapply (i_distinct _ HI)|]. pose proof (cnt_bound s HI).
  destruct (i_held _ HI _ _ _ Hj Hh). lia.
Qed.
(** * Termination *)

(** The accesses a thread has left, and the steps [main] has left. *)
Definition work_left (q : pc) : Z :=
  match q with Fetch i => 2 * (NI - i) | Flag i _ => 2 * (NI - i) - 1 end.

Definition main_left (n : Z) (m : fmain) : Z :=
  match m with MCreate k => 2 * n + 3 - Z.of_nat k | MJoin k => n + 1 - Z.of_nat k | MExit _ => 0 end.

Definition left (s : state) : Z := Zsum work_left (s_ts s) + main_left NT (s_main s).

Definition main_in (s : state) : Prop :=
  match s_main s with MCreate k => Z.of_nat k ≤ NT | MJoin k => Z.of_nat k ≤ NT | MExit _ => True end.

Lemma main_in_step s s' : inv s → main_in s → step s s' → main_in s'.
Proof.
  intros HI Hm [[j|] Hn]; cbn in Hn.
  - step_inv Hn; done.
  - unfold main_step, main_in in *. pose proof (i_len _ HI).
    destruct (s_main s) as [k|k|b]; [|destruct (s_ts s !! k) as [q|] eqn:Hk|done].
    + simplify_eq. cbn [s_main]. destruct (Nat.ltb_spec k (length (s_ts s))); lia.
    + destruct (finished q); simplify_eq. cbn. apply lookup_lt_Some in Hk. lia.
    + simplify_eq. done.
Qed.

Lemma left_nonneg s : inv s → main_in s → 0 ≤ left s.
Proof.
  intros HI Hm. unfold left. assert (0 ≤ Zsum work_left (s_ts s)).
  { apply Zsum_nonneg. intros q [j Hj]%list_elem_of_lookup. destruct (i_pc _ HI _ _ Hj).
    destruct q; cbn in *; lia. }
  unfold main_in in Hm. destruct (s_main s); cbn; lia.
Qed.

Lemma left_step s s' : inv s → main_in s → step s s' → left s' < left s.
Proof.
  intros HI Hm [[j|] Hn]; unfold left, main_in in *; cbn in Hn.
  - destruct (s_ts s !! j) as [q|] eqn:Hj; simplify_eq/=. destruct (created _ _); [|done].
    destruct (ThreadFunc _ _ q) as [[[cnt fl] q']|] eqn:Hq; simplify_eq/=.
    rewrite (Zsum_insert _ _ _ _ _ Hj).
    destruct q as [i|i t]; cbn in Hq; step_inv Hq; cbn; lia.
  - unfold main_step in Hn. pose proof (i_len _ HI).
    destruct (s_main s) as [k|k|b]; [|destruct (s_ts s !! k) as [q|] eqn:Hk|done].
    + simplify_eq. cbn [s_ts s_main]. destruct (Nat.ltb_spec k (length (s_ts s))); cbn; lia.
    + destruct (finished q); simplify_eq. cbn. lia.
    + simplify_eq. cbn. lia.
Qed.

Lemma can_step s : inv s → (∃ b, s_main s = MExit b) ∨ ∃ s', step s s'.
Proof.
  intros HI. destruct (s_main s) as [k|k|b] eqn:Hm; [right..|by left; exists b].
  { eexists. exists None. cbn. unfold main_step. by rewrite Hm. }
  destruct (s_ts s !! k) as [q|] eqn:Hk.
  2:{ eexists. exists None. cbn. unfold main_step. by rewrite Hm, Hk. }
  destruct q as [i|i t].
  - destruct (Z.ltb_spec i NI) as [Hi|Hi].
    + eexists. exists (Some k). cbn. rewrite Hk, Hm. cbn. by rewrite (proj2 (Z.ltb_lt _ _) Hi).
    + eexists. exists None. cbn. unfold main_step. rewrite Hm, Hk. cbn. by rewrite (proj2 (Z.ltb_ge _ _) Hi).
  - assert (holds (Flag i t) t) as Hh by by exists i. destruct (i_held _ HI _ _ _ Hk Hh) as [Ht _].
    pose proof (cnt_bound s HI). eexists. exists (Some k). cbn. rewrite Hk, Hm. cbn.
    by rewrite (proj2 (Z.leb_le _ _)), (proj2 (Z.ltb_lt _ _)) by lia.
Qed.

Lemma reachable_inv s : reachable init step s → inv s ∧ main_in s.
Proof.
  intros Hr. apply (reachable_invariant init step (λ s, inv s ∧ main_in s)); [|..|done].
  - split; [apply inv_init|done].
  - intros a b [Ha Hm] Hs. split; [by eapply inv_step|by eapply main_in_step].
Qed.

Lemma every_run_ends s :
  reachable init step s →
  ((∃ b, s_main s = MExit b) ∨ ∃ s', step s s') ∧ (∀ s', step s s' → 0 ≤ left s' < left s).
Proof.
  intros Hr. destruct (reachable_inv s Hr) as [HI Hm]. split; [by apply can_step|].
  intros s' Hs. split; [|by apply left_step].
  apply left_nonneg; [by eapply inv_step|by eapply main_in_step].
Qed.

End program.

(** * The program *)

Definition main_init : state := init NUM_THREAD.
Definition main_run : relation state := step NUM_THREAD NUM_INCREMENT.

(** C36: when the program ends it has printed "ALL FLAGS ON!" and 10000000; until then no
    two threads ever hold the same ticket, and every flag written is inside the array. *)
Theorem fetch_add_correct s :
  reachable main_init main_run s →
  (∀ b, s_main s = MExit b → b = true ∧ g_cnt_global s = 10000000) ∧
  (∀ j j' i i' t, s_ts s !! j = Some (Flag i t) → s_ts s !! j' = Some (Flag i' t) →
    j = j' ∧ 0 ≤ t < 10000000).
Proof.
  intros Hr. split.
  - intros b Hb. by apply (all_flags_on NUM_THREAD NUM_INCREMENT).
  - intros j j' i i' t Hj Hj'. by eapply (tickets_distinct NUM_THREAD NUM_INCREMENT).
Qed.

(** The program always ends: a reachable state that is not the exit has a next step,
    and every step uses up some of a finite amount of work. *)
Theorem fetch_add_terminates s :
  reachable main_init main_run s →
  ((∃ b, s_main s = MExit b) ∨ ∃ s', main_run s s') ∧
  (∀ s', main_run s s' → 0 ≤ left NUM_THREAD NUM_INCREMENT s' < left NUM_THREAD NUM_INCREMENT s).
Proof. by apply (every_run_ends NUM_THREAD NUM_INCREMENT). Qed.

(** Two threads holding tickets. *)
Definition sample_sched : list (option nat) := replicate 11 None ++ [Some 3; Some 5]%nat.
Definition sample_state : state :=
  Eval vm_compute in default main_init (run_sched (next NUM_THREAD NUM_INCREMENT) sample_sched main_init).

Lemma fetch_add_correct_witness :
  s_ts sample_state !! 3%nat = Some (Flag 0 0) ∧ s_ts sample_state !! 5%nat = Some (Flag 0 1) ∧
  (∀ b, s_main sample_state = MExit b → b = true ∧ g_cnt_global sample_state = 10000000) ∧
  (∀ j j' i i' t, s_ts sample_state !! j = Some (Flag i t) → s_ts sample_state !! j' = Some (Flag i' t) →
    j = j' ∧ 0 ≤ t < 10000000).
Proof.
  split; [reflexivity|]. split; [reflexivity|]. apply fetch_add_correct.
  apply (run_sched_rtc (next NUM_THREAD NUM_INCREMENT) sample_sched). vm_compute. reflexivity.
Defined.

Lemma fetch_add_terminates_witness :
  left NUM_THREAD NUM_INCREMENT sample_state = 20000009 ∧
  ((∃ b, s_main sample_state = MExit b) ∨ ∃ s', main_run sample_state s') ∧
  (∀ s', main_run sample_state s' →
    0 ≤ left NUM_THREAD NUM_INCREMENT s' < left NUM_THREAD NUM_INCREMENT sample_state).
Proof.
  split; [reflexivity|]. apply fetch_add_terminates.
  apply (run_sched_rtc (next NUM_THREAD NUM_INCREMENT) sample_sched). vm_compute. reflexivity.
Defined.

End FetchAdd.
