(* ===== verification/Lfqueue.v ===== *)
(** The bounded queue of src/Lab12/lfqueue.cc and its test program
    src/Lab12/test_lfqueue.cc.

    An operation is a sequence of accesses to the two counters and the array, one per
    step; a thread that spins stays at its loop.  [std::atomic] has no [%=], so
    [counter %= capacity] is read as a load, a remainder and a store.  The threads of
    the concurrency test are [producer] and [consumer] over the two queues, [timeout] and the
    thread that creates and joins them.  The theorems show that the first [enqueue] of a fresh
    queue spins for ever, that [dequeue] does not wait on an empty queue, that
    the test deletes its queues only after every thread has returned, and that with
    concurrent callers [enqueue] writes outside the array. *)

From S2P Require Import Prelude.

Local Open Scope Z_scope.

Module Lfqueue.

(** [class lfqueue<int>]; an element that was never written is [None]. *)
Record lfqueue := LfQueue { capacity : Z; arr : list (option Z); cnsu_counter : Z; prod_counter : Z }.

(** The constructor. *)
Definition new_lfqueue (cap : Z) : lfqueue :=
  LfQueue cap (replicate (Z.to_nat cap) None) (u32 (cap - 1)) (u32 (cap - 1)).

Definition set_cnsu (q : lfqueue) (c : Z) : lfqueue := LfQueue (capacity q) (arr q) c (prod_counter q).
Definition set_prod (q : lfqueue) (p : Z) : lfqueue := LfQueue (capacity q) (arr q) (cnsu_counter q) p.

(** [arr[i]], [None] outside the array. *)
Definition arr_get (q : lfqueue) (i : Z) : option (option Z) := arr q !! Z.to_nat i.
Definition arr_set (q : lfqueue) (i : Z) (v : option Z) : option lfqueue :=
  if (Z.to_nat i <? length (arr q))%nat
  then Some (LfQueue (capacity q) (<[Z.to_nat i:=v]> (arr q)) (cnsu_counter q) (prod_counter q))
  else None.

(** Program counters; [c] and [p] are loaded values. *)
Inductive epc := EInc | EModLoad | EModStore (c : Z) | ELoop | ECmp (c : Z) | EIndex | EWrite (p : Z).
Inductive dpc := DInc | DModLoad | DModStore (c : Z) | DLoop | DCmp (p : Z) | DIndex | DRead (c : Z).

(** One step of [enqueue]: it continues or returns. *)
Definition enqueue (q : lfqueue) (v : option Z) (pc : epc) : option (lfqueue * option epc) :=
  match pc with
  | EInc => Some (set_prod q (u32 (prod_counter q + 1)), Some EModLoad)
  | EModLoad => Some (q, Some (EModStore (cnsu_counter q)))
  | EModStore c => Some (set_cnsu q (c mod capacity q), Some ELoop)
  | ELoop => Some (q, Some (ECmp (cnsu_counter q)))
  | ECmp c => Some (q, Some (if prod_counter q <? c then EIndex else ELoop))
  | EIndex => Some (q, Some (EWrite (prod_counter q)))
  | EWrite p => q' ← arr_set q p v; Some (q', None)
  end.

(** One step of [dequeue]: it continues or returns an element. *)
Definition dequeue (q : lfqueue) (pc : dpc) : option (lfqueue * (dpc + option Z)) :=
  match pc with
  | DInc => Some (set_cnsu q (u32 (cnsu_counter q + 1)), inl DModLoad)
  | DModLoad => Some (q, inl (DModStore (cnsu_counter q)))
  | DModStore c => Some (set_cnsu q (c mod capacity q), inl DLoop)
  | DLoop => Some (q, inl (DCmp (prod_counter q)))
  | DCmp p => Some (q, inl (if cnsu_counter q <=? p then DIndex else DLoop))
  | DIndex => Some (q, inl (DRead (cnsu_counter q)))
  | DRead c => x ← arr_get q c; Some (q, inr x)
  end.

(** * One caller *)

(** What running some code for a number of steps gives: it has returned, it is still
    running (inside an operation of the queue, or in the concurrency test), or it has
    accessed an element outside the array. *)
Inductive outcome (P A : Type) := Returned (x : A) | Running (p : P) | OutOfRange.
#[global] Arguments Returned {P A}.
#[global] Arguments Running {P A}.
#[global] Arguments OutOfRange {P A}.

Definition andthen {P A B} (o : outcome P A) (f : A → outcome P B) : outcome P B :=
  match o with Returned x => f x | Running p => Running p | OutOfRange => OutOfRange end.

(** The operation a single caller is in. *)
Inductive point := InEnqueue (q : lfqueue) (v : option Z) (pc : epc) | InDequeue (q : lfqueue) (pc : dpc).

(** Running an operation for at most [fuel] steps. *)
Fixpoint run_enqueue (fuel : nat) (q : lfqueue) (v : option Z) (pc : epc) : outcome point lfqueue :=
  match fuel with
  | O => Running (InEnqueue q v pc)
  | S fuel =>
      match enqueue q v pc with
      | Some (q', Some pc') => run_enqueue fuel q' v pc'
      | Some (q', None) => Returned q'
      | None => OutOfRange
      end
  end.

Fixpoint run_dequeue (fuel : nat) (q : lfqueue) (pc : dpc) : outcome point (lfqueue * option Z) :=
  match fuel with
  | O => Running (InDequeue q pc)
  | S fuel =>
      match dequeue q pc with
      | Some (q', inl pc') => run_dequeue fuel q' pc'
      | Some (q', inr x) => Returned (q', x)
      | None => OutOfRange
      end
  end.

(** [test_queue1]: whether it prints "passed". *)
Definition test_queue1 (fuel : nat) : outcome point bool :=
  let q := new_lfqueue 10 in
  andthen (run_enqueue fuel q (Some 1) EInc) (λ q,
  andthen (run_dequeue fuel q DInc) (λ '(_, val),
  Returned (bool_decide (val = Some 1)))).

(** The two loops of [test_queue10]. *)
Fixpoint enqueue_all (fuel : nat) (q : lfqueue) (vs : list Z) : outcome point lfqueue :=
  match vs with
  | [] => Returned q
  | v :: vs => andthen (run_enqueue fuel q (Some v) EInc) (λ q, enqueue_all fuel q vs)
  end.

Fixpoint dequeue_all (fuel : nat) (q : lfqueue) (vs : list Z) : outcome point bool :=
  match vs with
  | [] => Returned true
  | v :: vs => andthen (run_dequeue fuel q DInc) (λ '(q, x),
      if bool_decide (x = Some v) then dequeue_all fuel q vs else Returned false)
  end.

Definition test_queue10 (fuel : nat) : outcome point bool :=
  andthen (enqueue_all fuel (new_lfqueue 10) (seqZ 0 10)) (λ q, dequeue_all fuel q (seqZ 0 10)).

(** * The concurrency test *)

Definition queuesize : Z := 10000.
Definition nthread : nat := 10.

(** A thread of [producer] or [consumer]: at the test of [timeout], inside [dequeue] of
    its source queue, inside [enqueue] of its destination with the value it took, or
    returned.  [w_counter] is its [counter]. *)
Inductive wpc := WTest | WDequeue (pc : dpc) | WEnqueue (value : option Z) (pc : epc) | WReturned.
Record worker := Worker { w_index : Z; w_counter : Z; w_pc : wpc }.
Inductive thread := Producer (w : worker) | Consumer (w : worker).

(** [test_concurrency], statement by statement. *)
Inductive tpc :=
| TFill (i : Z) (pc : epc) | TReset | TCreateP (i : nat) | TCreateC (i : nat) | TSleep | TTimeout
| TJoinP (i : nat) | TJoinC (i : nat) | TDelete1 | TDelete2 | TPassed.

(** The globals, with [None] for a deleted queue, the threads created so far in the order
    of their creation, and the calling thread. *)
Record test := Test { queue1 : option lfqueue; queue2 : option lfqueue; timeout : Z;
                      threads : list thread; caller : tpc }.

(** One step of the loop of a worker that moves values from queue [from] to queue [to];
    [None] for an access to a deleted queue or outside an array, and for an overflow of
    [counter]. *)
Definition worker_step (tmo : Z) (from to : option lfqueue) (w : worker)
    : option (option lfqueue * option lfqueue * worker) :=
  match w_pc w with
  | WTest => Some (from, to, Worker (w_index w) (w_counter w) (if tmo =? 0 then WDequeue DInc else WReturned))
  | WDequeue pc =>
      q ← from; '(q', r) ← dequeue q pc;
      Some (Some q', to, Worker (w_index w) (w_counter w)
                           (match r with inl pc' => WDequeue pc' | inr value => WEnqueue value EInc end))
  | WEnqueue value pc =>
      q ← to; '(q', r) ← enqueue q value pc;
      match r with
      | Some pc' => Some (from, Some q', Worker (w_index w) (w_counter w) (WEnqueue value pc'))
      | None => if w_counter w <? INT_MAX
                then Some (from, Some q', Worker (w_index w) (w_counter w + 1) WTest) else None
      end
  | WReturned => None
  end.

(** [producer] takes from [queue2] and puts into [queue1], [consumer] the other way. *)
Definition producer (s : test) (w : worker) : option (test * thread) :=
  '(q2, q1, w') ← worker_step (timeout s) (queue2 s) (queue1 s) w;
  Some (Test q1 q2 (timeout s) (threads s) (caller s), Producer w').
Definition consumer (s : test) (w : worker) : option (test * thread) :=
  '(q1, q2, w') ← worker_step (timeout s) (queue1 s) (queue2 s) w;
  Some (Test q1 q2 (timeout s) (threads s) (caller s), Consumer w').

Definition thread_step (s : test) (t : thread) : option (test * thread) :=
  match t with Producer w => producer s w | Consumer w => consumer s w end.

Definition returned (t : thread) : bool :=
  match t with Producer w | Consumer w => match w_pc w with WReturned => true | _ => false end end.

Definition at_pc (s : test) (pc : tpc) : test := Test (queue1 s) (queue2 s) (timeout s) (threads s) pc.
Definition spawn (s : test) (t : thread) (pc : tpc) : test :=
  Test (queue1 s) (queue2 s) (timeout s) (threads s ++ [t]) pc.

(** [pthread_join] of the thread created as number [k]. *)
Definition join (s : test) (k : nat) (pc : tpc) : option test :=
  t ← threads s !! k; if returned t then Some (at_pc s pc) else None.

Section test.
Context (size : Z) (nth : nat).

(** A step of the calling thread; [i] counts as in the loops, and [indices[i]] is [i+1]. *)
Definition caller_step (s : test) : option test :=
  match caller s with
  | TFill i pc =>
      if i <=? size then
        q ← queue1 s; '(q', r) ← enqueue q (Some i) pc;
        Some (Test (Some q') (queue2 s) (timeout s) (threads s)
                (match r with Some pc' => TFill i pc' | None => TFill (i + 1) EInc end))
      else Some (at_pc s TReset)
  | TReset => Some (Test (queue1 s) (queue2 s) 0 (threads s) (TCreateP 0))
  | TCreateP i =>
      Some (if (i <? nth)%nat then spawn s (Producer (Worker (Z.of_nat i + 1) 0 WTest)) (TCreateC i)
            else at_pc s TSleep)
  | TCreateC i => Some (spawn s (Consumer (Worker (Z.of_nat i + 1) 0 WTest)) (TCreateP (S i)))
  | TSleep => Some (at_pc s TTimeout)
  | TTimeout => Some (Test (queue1 s) (queue2 s) 1 (threads s) (TJoinP 0))
  | TJoinP i => if (i <? nth)%nat then join s (2 * i) (TJoinC i) else Some (at_pc s TDelete1)
  | TJoinC i => join s (2 * i + 1) (TJoinP (S i))
  | TDelete1 => Some (Test None (queue2 s) (timeout s) (threads s) TDelete2)
  | TDelete2 => Some (Test (queue1 s) None (timeout s) (threads s) TPassed)
  | TPassed => None
  end.

(** A step of the caller ([None]) or of a thread. *)
Definition tnext (d : option nat) (s : test) : option test :=
  match d with
  | None => caller_step s
  | Some i =>
      t ← threads s !! i; '(s', t') ← thread_step s t;
      Some (Test (queue1 s') (queue2 s') (timeout s') (<[i:=t']> (threads s')) (caller s'))
  end.

Definition tstep (s s' : test) : Prop := ∃ d, tnext d s = Some s'.

(** [timeout] is a global, 0 from the start. *)
Definition test_init : test := Test (Some (new_lfqueue size)) (Some (new_lfqueue size)) 0 [] (TFill 1 EInc).

End test.

(** [test_concurrency] under a schedule, in which a thread that cannot move stays where it
    is: the state it ends in. *)
Fixpoint run_test (sched : list (option nat)) (s : test) : test :=
  match sched with
  | [] => s
  | d :: sched => run_test sched (default s (tnext queuesize nthread d s))
  end.
Definition test_concurrency (sched : list (option nat)) : test := run_test sched (test_init queuesize).

(** [main] up to the concurrency test: a failed test exits ([false]). *)
Definition main (fuel : nat) (sched : list (option nat)) : outcome point (bool * option test) :=
  andthen (test_queue1 fuel) (λ b1 : bool, if b1 then
    andthen (test_queue10 fuel) (λ b10 : bool, if b10 then
      Returned (true, Some (test_concurrency sched)) else Returned (false, None))
  else Returned (false, None)).

(** * Spinning *)

(** The states in which an [enqueue] that has incremented [prod_counter] spins. *)
Definition stuck (q : lfqueue) (pc : epc) : Prop :=
  cnsu_counter q ≤ prod_counter q ∧ match pc with ELoop => True | ECmp c => c ≤ prod_counter q | _ => False end.

Lemma stuck_step q v pc :
  stuck q pc → ∃ pc', enqueue q v pc = Some (q, Some pc') ∧ stuck q pc'.
Proof.
  intros [Hc Hpc]. destruct pc as [| | | |c| |]; try done; cbn.
  - eexists. by repeat split.
  - rewrite (proj2 (Z.ltb_ge _ _) Hpc). eexists. by repeat split.
Qed.

(** Where the first [enqueue] of a new queue is for ever: the producers' counter is one
    ahead of the consumers' counter, nothing has been written, and the call is at one of
    the two accesses of its loop. *)
Definition spinning (cap : Z) (v : option Z) (p : point) : Prop :=
  ∃ pc, p = InEnqueue (LfQueue cap (replicate (Z.to_nat cap) None) (cap - 1) cap) v pc ∧
    (pc = ELoop ∨ pc = ECmp (cap - 1)).

Lemma spinning_run fuel cap v pc :
  pc = ELoop ∨ pc = ECmp (cap - 1) →
  ∃ p, run_enqueue fuel (LfQueue cap (replicate (Z.to_nat cap) None) (cap - 1) cap) v pc = Running p ∧
    spinning cap v p.
Proof.
  revert pc. induction fuel as [|fuel IH]; intros pc Hpc.
  - eexists. split; [done|]. by exists pc.
  - destruct Hpc as [->| ->]; cbn; [by apply IH; right|].
    rewrite (proj2 (Z.ltb_ge _ _)) by lia. by apply IH; left.
Qed.

Lemma enqueue_fresh_spins fuel cap v :
  0 < cap < 2 ^ 32 - 1 →
  ∃ p, run_enqueue fuel (new_lfqueue cap) v EInc = Running p ∧ ((3 ≤ fuel)%nat → spinning cap v p).
Proof.
  intros Hcap. destruct fuel as [|[|[|fuel]]]; [eexists; split; [done|lia]..|].
  destruct (spinning_run fuel cap v ELoop) as (p & Hp & Hs); [by left|]. exists p. split; [|done].
  rewrite <- Hp. cbn. f_equal. unfold u32, set_cnsu, set_prod. cbn.
  rewrite (Z.mod_small (cap - 1)), (Z.mod_small (cap - 1 + 1)), (Z.mod_small (cap - 1)) by lia.
  f_equal. lia.
Qed.

(** C39: the first [enqueue] on a new queue spins for ever, whatever the capacity: after any
    number of steps it has neither returned nor written an element but is still running,
    and from its third step on it is at the loop, with the producers' counter one ahead
    of the consumers' counter, which nothing changes.  So [test_queue1], and with it
    [main], does not get past its first statement. *)
Theorem enqueue_fresh_never_returns cap v fuel sched :
  0 < cap < 2 ^ 32 - 1 →
  (∃ p, run_enqueue fuel (new_lfqueue cap) v EInc = Running p ∧ ((3 ≤ fuel)%nat → spinning cap v p)) ∧
  (∃ p, main fuel sched = Running p ∧ ((3 ≤ fuel)%nat → spinning 10 (Some 1) p)).
Proof.
  intros Hcap. split; [by apply enqueue_fresh_spins|].
  destruct (enqueue_fresh_spins fuel 10 (Some 1)) as (p & Hp & Hs); [lia|].
  exists p. split; [|done]. unfold main, test_queue1. by rewrite Hp.
Qed.

Lemma enqueue_fresh_never_returns_witness :
  (∃ p, run_enqueue 1000 (new_lfqueue 7) (Some 5) EInc = Running p ∧
    ((3 ≤ 1000)%nat → spinning 7 (Some 5) p)) ∧
  (∃ p, main 1000 [] = Running p ∧ ((3 ≤ 1000)%nat → spinning 10 (Some 1) p)).
Proof. apply (enqueue_fresh_never_returns 7 (Some 5) 1000 []). lia. Defined.

(** [dequeue] on a new queue does not wait: it returns the first element of the
    array, which nobody has written. *)
Theorem dequeue_fresh_does_not_wait cap :
  0 < cap < 2 ^ 32 - 1 →
  run_dequeue 7 (new_lfqueue cap) DInc =
    Returned (LfQueue cap (replicate (Z.to_nat cap) None) 0 (cap - 1), None).
Proof.
  intros Hcap. cbn. unfold u32. rewrite (Z.mod_small (cap - 1)), (Z.mod_small (cap - 1 + 1)) by lia.
  replace (cap - 1 + 1) with cap by lia. rewrite Z.mod_same by lia.
  rewrite (proj2 (Z.leb_le _ _)) by lia. cbn. unfold arr_get. cbn.
  rewrite lookup_replicate_2 by lia. unfold set_cnsu. cbn. by rewrite u32_id by lia.
Qed.

Lemma dequeue_fresh_does_not_wait_witness :
  run_dequeue 7 (new_lfqueue 10) DInc = Returned (LfQueue 10 (replicate 10 None) 0 9, None).
Proof. apply (dequeue_fresh_does_not_wait 10). lia. Defined.

(** * The threads of the concurrency test *)

(** The caller of [test_concurrency] is still in its first [enqueue]: before the loop,
    or spinning in it. *)
Definition filling (size : Z) (s : test) : Prop :=
  threads s = [] ∧ ∃ q pc, queue1 s = Some q ∧ caller s = TFill 1 pc ∧ capacity q = size ∧
  (pc = EInc ∧ q = new_lfqueue size ∨
   cnsu_counter q = size - 1 ∧ prod_counter q = size ∧
     (pc = EModLoad ∨ pc = EModStore (size - 1) ∨ stuck q pc)).

Lemma filling_step size nth s s' :
  0 < size < 2 ^ 32 - 1 → filling size s → tstep size nth s s' → filling size s'.
Proof.
  intros Hs (Ht & q & pc & Hq & Hc & Hcap & Hpc) [[i|] Hn]; cbn in Hn; [by rewrite Ht in Hn|].
  unfold caller_step in Hn. rewrite Hc, Hq, (proj2 (Z.leb_le _ _)) in Hn by lia. cbn [mbind option_bind] in Hn.
  destruct Hpc as [[-> ->]|(Hcn & Hp & [->|[->|Hst]])].
  - cbn in Hn. simplify_eq. split; [done|]. eexists _, _. split_and!; [done..|]. right. cbn.
    unfold u32. rewrite (Z.mod_small (_ - 1)), Z.mod_small by lia. split_and!; [lia..|]. by left.
  - cbn in Hn. simplify_eq. split; [done|]. eexists _, _. split_and!; [done..|]. right.
    split_and!; [done..|]. right. left. by rewrite Hcn.
  - cbn in Hn. simplify_eq. split; [done|]. eexists _, _. split_and!; [done..|]. right. cbn.
    rewrite Z.mod_small by lia. split_and!; [done..|]. right. right. split; cbn; [lia|done].
  - destruct (stuck_step q (Some 1) pc Hst) as (pc' & He & Hst'). rewrite He in Hn. cbn in Hn.
    simplify_eq. split; [done|]. eexists _, _. split_and!; [done..|]. right. by split_and!; [..|right; right].
Qed.

(** The concurrency test alone does not get past its first statement either: with queues
    of any size, no thread is ever created and the caller stays in its first [enqueue]. *)
Theorem concurrency_never_starts size nth s :
  0 < size < 2 ^ 32 - 1 → reachable (test_init size) (tstep size nth) s →
  threads s = [] ∧ ∃ pc, caller s = TFill 1 pc.
Proof.
  intros Hs Hr. assert (filling size s) as (? & q & pc & ? & ? & _); [|by eauto].
  eapply reachable_invariant; [..|exact Hr]; [|intros a b ? Hab; by eapply filling_step].
  split; [done|]. eexists _, _. split_and!; [done..|]. by left.
Qed.

Lemma concurrency_never_starts_witness :
  threads (test_init queuesize) = [] ∧ ∃ pc, caller (test_init queuesize) = TFill 1 pc.
Proof. apply (concurrency_never_starts queuesize nthread); [unfold queuesize; lia|apply rtc_refl]. Defined.

(** ** Joining before deleting *)

(** How many threads exist at a point of the caller, and how many it has joined. *)
Definition created (nth : nat) (pc : tpc) : nat :=
  match pc with
  | TFill _ _ | TReset => 0 | TCreateP i => 2 * i | TCreateC i => 2 * i + 1 | _ => 2 * nth
  end.
Definition joined (nth : nat) (pc : tpc) : nat :=
  match pc with TJoinP i => 2 * i | TJoinC i => 2 * i + 1 | TDelete1 | TDelete2 | TPassed => 2 * nth | _ => 0 end.

Record joins (nth : nat) (s : test) : Prop := {
  j_len : length (threads s) = created nth (caller s);
  j_bound : match caller s with TCreateP i | TJoinP i => (i ≤ nth)%nat
            | TCreateC i | TJoinC i => (i < nth)%nat | _ => True end;
  j_joined k t : (k < joined nth (caller s))%nat → threads s !! k = Some t → returned t = true;
  j_q1 : queue1 s = None → caller s = TDelete2 ∨ caller s = TPassed;
  j_q2 : queue2 s = None → caller s = TPassed;
}.

Lemma moves_keeps tmo from to w from' to' w' :
  worker_step tmo from to w = Some (from', to', w') →
  (is_Some from ↔ is_Some from') ∧ (is_Some to ↔ is_Some to') ∧ w_pc w ≠ WReturned ∧ w_index w' = w_index w.
Proof.
  unfold worker_step. destruct (w_pc w) as [|pc|v pc|] eqn:Hw; intros H; [by simplify_eq|..|done].
  - destruct from as [q|]; [|done]. cbn in H. destruct (dequeue q pc) as [[q' r]|]; [|done]. cbn in H.
    simplify_eq. split_and!; [split; eauto|done..].
  - destruct to as [q|]; [|done]. cbn in H. destruct (enqueue q v pc) as [[q' [pc'|]]|]; [..|done]; cbn in H;
      [|case_match; [|done]]; simplify_eq; (split_and!; [done|split; eauto|done..]).
Qed.

Lemma thread_step_keeps s t s' t' :
  thread_step s t = Some (s', t') →
  (is_Some (queue1 s) ↔ is_Some (queue1 s')) ∧ (is_Some (queue2 s) ↔ is_Some (queue2 s')) ∧
  threads s' = threads s ∧ caller s' = caller s ∧ timeout s' = timeout s ∧ returned t = false.
Proof.
  destruct t as [w|w]; cbn; unfold producer, consumer; intros H;
    (destruct (worker_step _ _ _ w) as [[[a b] w']|] eqn:Hw; [|done]);
    apply moves_keeps in Hw as (? & ? & ? & ?); cbn in H; simplify_eq; cbn;
    (split_and!; [done..|]); by destruct (w_pc w).
Qed.

Lemma joins_thread nth s i t s' t' :
  joins nth s → threads s !! i = Some t → thread_step s t = Some (s', t') →
  joins nth (Test (queue1 s') (queue2 s') (timeout s') (<[i:=t']> (threads s')) (caller s')).
Proof.
  intros [Hl Hb Hj H1 H2] Hi (Hq1 & Hq2 & Ht & Hc & _ & Hr)%thread_step_keeps.
  split; cbn; rewrite ?Hc, ?Ht.
  - by rewrite length_insert.
  - done.
  - intros k u Hk. destruct (decide (i = k)) as [->|Hne]; [|rewrite list_lookup_insert_ne by done; by apply Hj].
    by rewrite (Hj _ _ Hk Hi) in Hr.
  - intros Hn. apply H1, eq_None_not_Some. by rewrite Hq1, <- eq_None_not_Some.
  - intros Hn. apply H2, eq_None_not_Some. by rewrite Hq2, <- eq_None_not_Some.
Qed.

(** Joining one more thread. *)
Lemma joins_join nth s k pc s' :
  joins nth s → join s k pc = Some s' → joined nth (caller s) = k → joined nth pc = S k →
  created nth (caller s) = created nth pc → caller s ≠ TDelete2 → caller s ≠ TPassed →
  match pc with TCreateP i | TJoinP i => (i ≤ nth)%nat | TCreateC i | TJoinC i => (i < nth)%nat | _ => True end →
  joins nth s'.
Proof.
  intros [Hl Hb Hj H1 H2] Hjoin Hk Hk' Hcr Hn2 Hnp Hpc. unfold join in Hjoin.
  destruct (threads s !! k) as [t|] eqn:Ht; [|done]. cbn in Hjoin.
  destruct (returned t) eqn:Hr; [|done]. simplify_eq. split; cbn.
  - congruence.
  - done.
  - intros j u Hlt Hu. rewrite Hk' in Hlt. destruct (decide (j = joined nth (caller s))) as [->|]; [congruence|].
    apply (Hj j); [lia|done].
  - intros Hn. by destruct (H1 Hn).
  - intros Hn. by destruct (H2 Hn).
Qed.

Lemma joins_step size nth s s' : joins nth s → tstep size nth s s' → joins nth s'.
Proof.
  intros HJ [[i|] Hn]; cbn in Hn.
  { destruct (threads s !! i) as [t|] eqn:Hi; [|done]. cbn in Hn.
    destruct (thread_step s t) as [[s1 t1]|] eqn:Ht; [|done]. cbn in Hn. simplify_eq. by eapply joins_thread. }
  unfold caller_step in Hn. pose proof HJ as [Hl Hb Hj H1 H2].
  destruct (caller s) as [i pc| |i|i| | |i|i| | |] eqn:Hc; cbn [created joined] in *; try done.
  all: try (destruct (i <? nth)%nat eqn:Hi; [apply Nat.ltb_lt in Hi|apply Nat.ltb_ge in Hi]).
  all: try (eapply joins_join; [exact HJ|exact Hn|rewrite ?Hc; cbn; lia..|by rewrite Hc|by rewrite Hc|cbn; lia]).
  { destruct (i <=? size); [|simplify_eq; split; cbn; naive_solver lia].
    destruct (queue1 s) as [q|]; [|done]. cbn in Hn.
    destruct (enqueue q (Some i) pc) as [[q' [pc'|]]|]; [..|done]; cbn in Hn; simplify_eq; split; cbn; naive_solver lia. }
  all: simplify_eq; unfold spawn, at_pc; split; cbn; rewrite ?length_app; cbn; first [done|lia|naive_solver lia|intros k t ?; apply (Hj k); lia].
Qed.

(** The test deletes a queue only after every thread has returned: whatever the queues hold
    when the threads are created, no producer or consumer can touch a deleted queue, and
    all [2 * nth] threads are joined before the first deletion. *)
Theorem delete_after_join size nth q1 q2 s :
  reachable (Test (Some q1) (Some q2) 0 [] TReset) (tstep size nth) s →
  queue1 s = None ∨ queue2 s = None →
  length (threads s) = (2 * nth)%nat ∧ Forall (λ t, returned t = true) (threads s) ∧
  ∀ i, tnext size nth (Some i) s = None.
Proof.
  intros Hr Hd. assert (joins nth s) as [Hl _ Hj H1 H2].
  { eapply reachable_invariant; [..|exact Hr]; [|intros a b ? Hab; by eapply joins_step].
    split; cbn; by intros. }
  assert (caller s = TDelete2 ∨ caller s = TPassed) as Hc by (destruct Hd; auto).
  assert (Forall (λ t, returned t = true) (threads s)) as Hall.
  { apply Forall_lookup. intros k t Hk. apply (Hj k); [|done]. apply lookup_lt_Some in Hk.
    rewrite Hl in Hk. by destruct Hc as [Hc|Hc]; rewrite Hc in Hk |- *. }
  split_and!; [by destruct Hc as [Hc|Hc]; rewrite Hc in Hl|done|].
  intros i. cbn. destruct (threads s !! i) as [t|] eqn:Hi; [|done]. cbn.
  destruct (thread_step s t) as [[s' t']|] eqn:Ht; [|done].
  apply thread_step_keeps in Ht as (_ & _ & _ & _ & _ & Hret).
  by rewrite (Forall_lookup_1 _ _ _ _ Hall Hi) in Hret.
Qed.

(** A run of the test from there with one thread of each kind, which find [timeout] set. *)
Definition short_init : test := Test (Some (new_lfqueue 2)) (Some (new_lfqueue 2)) 0 [] TReset.
Definition short_sched : list (option nat) := replicate 6 None ++ [Some 0%nat; Some 1%nat] ++ replicate 5 None.
Definition short_state : test :=
  Eval vm_compute in default short_init (run_sched (tnext 2 1) short_sched short_init).

Lemma delete_after_join_witness :
  run_sched (tnext 2 1) short_sched short_init = Some short_state ∧ caller short_state = TPassed ∧
  length (threads short_state) = 2%nat ∧ Forall (λ t, returned t = true) (threads short_state).
Proof.
  assert (run_sched (tnext 2 1) short_sched short_init = Some short_state) as Hr by (vm_compute; reflexivity).
  destruct (delete_after_join 2 1 (new_lfqueue 2) (new_lfqueue 2) short_state) as (Hl & Hall & _);
    [exact (run_sched_rtc (tnext 2 1) _ _ _ Hr)|by left|done].
Defined.

(** ** Writing outside the array *)

(** Two producers and two consumers on two new queues of two elements.  The first producer
    takes an element nobody wrote from [queue2]; while its [enqueue] is at the loop, both
    consumers increment [cnsu_counter] of [queue1]. *)
Definition overflow_sched : list (option nat) :=
  replicate 6 None ++ replicate 11 (Some 0%nat) ++ replicate 2 (Some 1%nat) ++ replicate 2 (Some 3%nat) ++
  replicate 3 (Some 0%nat).
Definition overflow_state : test :=
  Eval vm_compute in default short_init (run_sched (tnext 2 2) overflow_sched short_init).

(** With concurrent callers [enqueue] can write outside the array: the consumers
    increment their counter before reducing it, so the producer can see it above a
    [prod_counter] that is never reduced. *)
Theorem enqueue_overflows :
  reachable short_init (tstep 2 2) overflow_state ∧
  threads overflow_state !! 0%nat = Some (Producer (Worker 1 0 (WEnqueue None (EWrite 2)))) ∧
  (length ∘ arr <$> queue1 overflow_state) = Some 2%nat ∧
  tnext 2 2 (Some 0%nat) overflow_state = None.
Proof.
  split; [|done]. apply (run_sched_rtc (tnext 2 2) overflow_sched). vm_compute. reflexivity.
Qed.

End Lfqueue.
