(* ===== verification/Graph.v ===== *)
(** Walks and distances in a graph given by neighbour lists: the reference the
    breadth-first searches of src/Project1 and src/Lab4 are compared with. *)

From S2P Require Import Prelude.

Section graph.
Context (nb : nat → list nat).

(** [walk n u v]: there is a walk of [n] edges from [u] to [v]. *)
Inductive walk : nat → nat → nat → Prop :=
  | walk_O u : walk 0 u u
  | walk_S n u v w : walk n u v → w ∈ nb v → walk (S n) u w.

(** The vertices at the end of walks of length [n], as a list. *)
Fixpoint sphere (n u : nat) : list nat :=
  match n with O => [u] | S n => sphere n u ≫= nb end.

Lemma sphere_walk n u v : v ∈ sphere n u ↔ walk n u v.
Proof.
  revert v. induction n as [|n IH]; intros v; cbn.
  - rewrite list_elem_of_singleton. split; [intros ->; constructor|by inversion 1].
  - rewrite list_elem_of_bind. split.
    + intros (w & Hv & Hw%IH). by econstructor.
    + inversion 1 as [|? ? w ? Hw Hv]; subst. exists w. by rewrite IH.
Qed.

#[export] Instance walk_dec n u v : Decision (walk n u v).
Proof.
  destruct (decide (v ∈ sphere n u)) as [H|H]; [left|right]; by rewrite <- sphere_walk.
Defined.

Lemma walk_app n m u v w : walk n u v → walk m v w → walk (n + m) u w.
Proof.
  intros Hn. induction 1 as [|m v w x Hm IH Hx]; [by rewrite Nat.add_0_r|].
  rewrite Nat.add_succ_r. econstructor; eauto.
Qed.

(** The distance: the length of a shortest walk. *)
Definition isdist (u v d : nat) : Prop := walk d u v ∧ ∀ m, walk m u v → d ≤ m.

Lemma isdist_fun u v d d' : isdist u v d → isdist u v d' → d = d'.
Proof. intros [H1 H2] [H3 H4]. specialize (H2 _ H3). specialize (H4 _ H1). lia. Qed.

Lemma isdist_self u : isdist u u 0.
Proof. split; [constructor|lia]. Qed.

Lemma isdist_zero u v : isdist u v 0 → v = u.
Proof. intros [Hw _]. by inversion Hw. Qed.

(** A walk has a shortest one. *)
Lemma walk_isdist n u v : walk n u v → ∃ d, isdist u v d ∧ d ≤ n.
Proof.
  induction n as [n IH] using lt_wf_ind. intros Hw.
  destruct (decide (Exists (λ m, walk m u v) (seq 0 n))) as [He|He].
  - apply Exists_exists in He as (m & Hm%elem_of_seq & Hwm).
    destruct (IH m ltac:(lia) Hwm) as (d & Hd & Hle). exists d. split; [done|lia].
  - exists n. split; [|done]. split; [done|]. intros m Hm.
    destruct (decide (n ≤ m)) as [|Hlt]; [done|]. exfalso. apply He, Exists_exists. exists m.
    split; [apply elem_of_seq; lia|done].
Qed.

(** The predecessor on a shortest walk. *)
Lemma isdist_pred u v d : isdist u v (S d) → ∃ w, isdist u w d ∧ v ∈ nb w.
Proof.
  intros [Hw Hmin]. inversion Hw as [|? ? w ? Hd Hv]; subst. exists w. split; [|done].
  split; [done|]. intros m Hm. specialize (Hmin (S m)). assert (walk (S m) u v) by by econstructor.
  specialize (Hmin ltac:(done)). lia.
Qed.

(** The distance grows by at most one along an edge. *)
Lemma isdist_step u v w d : isdist u v d → w ∈ nb v → ∃ d', isdist u w d' ∧ d' ≤ S d.
Proof. intros [Hw _] Hin. apply walk_isdist. by econstructor. Qed.

(** All smaller distances occur. *)
Lemma isdist_below u v d : isdist u v d → ∀ k, k ≤ d → ∃ w, isdist u w k.
Proof.
  revert v. induction d as [|d IH]; intros v Hd k Hk; [exists v; by replace k with 0 by lia|].
  destruct (decide (k = S d)) as [->|]; [by exists v|].
  destruct (isdist_pred _ _ _ Hd) as (w & Hw & _). apply (IH w Hw). lia.
Qed.

(** A vertex at any place of a shortest walk. *)
Lemma split_shortest u v d k : isdist u v d → k ≤ d → ∃ w, isdist u w k ∧ isdist w v (d - k).
Proof.
  revert v. induction d as [|d IH]; intros v Hd Hk.
  { exists v. assert (k = 0) as -> by lia. split; [done|apply isdist_self]. }
  destruct (decide (k = S d)) as [->|Hne]; [exists v; rewrite Nat.sub_diag; split; [done|apply isdist_self]|].
  destruct (isdist_pred _ _ _ Hd) as (w & Hw & Hv). destruct (IH w Hw ltac:(lia)) as (x & Hx1 & Hx2).
  exists x. split; [done|]. split.
  - replace (S d - k) with (S (d - k)) by lia. econstructor; [apply Hx2|done].
  - intros m Hm. destruct Hd as [_ Hmin]. destruct Hx1 as [Hx1 _]. specialize (Hmin _ (walk_app _ _ _ _ _ Hx1 Hm)). lia.
Qed.

(** A vertex at every smaller distance, in order. *)
Lemma isdist_path u v d :
  isdist u v d → ∃ l, length l = S d ∧ ∀ k w, l !! k = Some w → isdist u w k.
Proof.
  revert v. induction d as [|d IH]; intros v Hd.
  - exists [v]. split; [done|]. intros [|k] w Hk; by simplify_eq/=.
  - destruct (isdist_pred _ _ _ Hd) as (w & Hw & _). destruct (IH w Hw) as (l & Hl & Hp).
    exists (l ++ [v]). rewrite length_app, Hl. split; [cbn; lia|]. intros k x Hk.
    destruct (decide (k < length l)) as [Hlt|Hge]; [rewrite lookup_app_l in Hk by done; auto|].
    rewrite lookup_app_r in Hk by lia. destruct (k - length l) as [|k'] eqn:Hkl; simplify_eq/=.
    by replace k with (S d) by lia.
Qed.

(** In a graph of vertices up to [n] no distance exceeds [n]. *)
Lemma isdist_bound u n :
  (∀ m v, walk m u v → v ≤ n) → ∀ v d, isdist u v d → d ≤ n.
Proof.
  intros Hr v d Hd. destruct (isdist_path u v d Hd) as (l & Hl & Hp).
  assert (NoDup l) as Hnd.
  { apply NoDup_alt. intros i j x Hi Hj. eapply isdist_fun; eauto. }
  assert (l ⊆+ seq 0 (S n)) as Hsub.
  { apply NoDup_submseteq; [done|]. intros x [k Hk]%list_elem_of_lookup. apply elem_of_seq.
    destruct (Hp k x Hk) as [Hw _]. specialize (Hr _ _ Hw). lia. }
  apply submseteq_length in Hsub. rewrite length_seq in Hsub. lia.
Qed.

Hypothesis Hsym : ∀ v w, w ∈ nb v → v ∈ nb w.

Lemma walk_sym n u v : walk n u v → walk n v u.
Proof.
  induction 1 as [|n u v w Hw IH Hin]; [constructor|].
  apply (walk_app 1 n _ v); [|done]. econstructor; [constructor|]. auto.
Qed.

Lemma isdist_sym u v d : isdist u v d → isdist v u d.
Proof. intros [Hw Hm]. split; [by apply walk_sym|]. intros m Hw'. apply Hm. by apply walk_sym. Qed.
End graph.

Arguments isdist nb u v d : simpl never.

(** Distances depend on the neighbours only up to order and repetition. *)
Lemma walk_proper (nb nb' : nat → list nat) n u v :
  (∀ v w, w ∈ nb v ↔ w ∈ nb' v) → walk nb n u v → walk nb' n u v.
Proof. intros He. induction 1 as [|n u v w Hw IH Hin]; [constructor|]. econstructor; [done|]. by apply He. Qed.

Lemma isdist_proper (nb nb' : nat → list nat) u v d :
  (∀ v w, w ∈ nb v ↔ w ∈ nb' v) → isdist nb u v d → isdist nb' u v d.
Proof.
  intros He [Hw Hm]. split; [by eapply walk_proper|]. intros m Hm'. apply Hm.
  eapply walk_proper; [|done]. intros. by rewrite He.
Qed.
