(* ===== verification/P1Context.v ===== *)
(** The global context of src/Project1 and how it is read: [config.h], [util.cpp]
    (powers of two), [context.h] ([AdjInfo], [Context]) and [reader.cpp] ([Reader::Read]).

    The input is the sequence of integers [scanf] delivers.  What C++ leaves undefined
    (an index outside a vector or array, input that ends early) has no result.  The
    reader is shown to store exactly the edges of the input, in both directions. *)

From S2P Require Import Prelude Graph.

(** * config.h *)

Definition MAX_EDGES_PER_VERTEX : nat := 10.
Definition MAX_HOUSE : nat := 64.

(** * util.cpp: powers of two *)

Module Util.

(** The loop of [InitUtil] from [g_pow2[i - 1] = p] with [n] entries left. *)
Fixpoint pow2_loop (n : nat) (p : Z) : list Z :=
  match n with O => [] | S n => let p' := u64 (p * 2) in p' :: pow2_loop n p' end.

Definition InitUtil : list Z := 1%Z :: pow2_loop (MAX_HOUSE - 1) 1.

(** The table [g_pow2] after [InitUtil]. *)
Definition g_pow2 : list Z := Eval vm_compute in InitUtil.

Lemma g_pow2_lookup i : (i < MAX_HOUSE)%nat → g_pow2 !! i = Some (2 ^ Z.of_nat i)%Z.
Proof.
  intros Hi. assert (Forall (λ i, g_pow2 !! i = Some (2 ^ Z.of_nat i)%Z) (seq 0 MAX_HOUSE)) as Hall.
  { unfold MAX_HOUSE. cbn [seq]. repeat (apply Forall_cons; split; [reflexivity|]). apply Forall_nil. done. }
  rewrite Forall_forall in Hall. apply Hall. apply elem_of_seq. lia.
Qed.

End Util.

(** * context.h *)

(** [AdjInfo]: an array of [MAX_EDGES_PER_VERTEX] neighbours and how many are used. *)
Record AdjInfo := MkAdjInfo { neighbors : list nat; size : nat }.

Definition new_AdjInfo : AdjInfo := MkAdjInfo (replicate MAX_EDGES_PER_VERTEX 0) 0.

(** [PushBack] does not check the array bound. *)
Definition PushBack (a : AdjInfo) (vertex : nat) : option AdjInfo :=
  if size a <? MAX_EDGES_PER_VERTEX
  then Some (MkAdjInfo (<[size a:=vertex]> (neighbors a)) (S (size a)))
  else None.

(** [Context], without the mutex. *)
Record Context := MkContext {
  num_vertices : nat;
  houses : list nat;
  house_bitmap : list bool;
  house_index_map : gmap nat nat;
  adjlist : list AdjInfo;
}.

(** The neighbours in the order of the unrolled loops of the searches: [case n] falls
    through to [case 0], so the last one comes first. *)
Definition neighbors_of (a : AdjInfo) : list nat := reverse (take (size a) (neighbors a)).

Definition nbrs (adj : list AdjInfo) (v : nat) : list nat :=
  match adj !! v with Some a => neighbors_of a | None => [] end.

(** * reader.cpp *)

Module Reader.

Fixpoint read_ints (n : nat) (ts : list Z) : option (list Z * list Z) :=
  match n, ts with
  | O, _ => Some ([], ts)
  | S n, z :: ts => '(zs, ts) ← read_ints n ts; Some (z :: zs, ts)
  | S _, [] => None
  end.

(** An index into a vector of [num_vertices + 1] elements. *)
Definition to_vertex (nv : nat) (z : Z) : option nat :=
  if ((0 <=? z) && (z <=? Z.of_nat nv))%Z then Some (Z.to_nat z) else None.

(** The loop over the houses. *)
Fixpoint mark_houses (i : nat) (hs : list nat) (bm : list bool) (im : gmap nat nat) : list bool * gmap nat nat :=
  match hs with [] => (bm, im) | h :: hs => mark_houses (S i) hs (<[h:=true]> bm) (<[h:=i]> im) end.

(** The two [PushBack]s for one neighbour. *)
Definition add_edge (adj : list AdjInfo) (v w : nat) : option (list AdjInfo) :=
  a ← adj !! v; a' ← PushBack a w;
  b ← <[v:=a']> adj !! w; b' ← PushBack b v;
  Some (<[w:=b']> (<[v:=a']> adj)).

(** The loop over the neighbours of one line. *)
Fixpoint read_neighbors (n nv v : nat) (ts : list Z) (adj : list AdjInfo) : option (list AdjInfo * list Z) :=
  match n, ts with
  | O, _ => Some (adj, ts)
  | S n, z :: ts => w ← to_vertex nv z; adj ← add_edge adj v w; read_neighbors n nv v ts adj
  | S _, [] => None
  end.

(** The loop over the lines. *)
Fixpoint read_lines (m nv : nat) (ts : list Z) (adj : list AdjInfo) : option (list AdjInfo) :=
  match m, ts with
  | O, _ => Some adj
  | S m, v_i :: num_neighbors :: ts =>
      v ← to_vertex nv v_i;
      '(adj, ts) ← read_neighbors (Z.to_nat num_neighbors) nv v ts adj;
      read_lines m nv ts adj
  | _, _ => None
  end.

Definition Read (ts : list Z) : option Context :=
  match ts with
  | N :: ts =>
      '(hs, ts) ← read_ints (Z.to_nat N) ts;
      match ts with
      | nv :: num_line_below :: ts =>
          if (nv <? 0)%Z then None else
          let n := Z.to_nat nv in
          hs ← mapM (to_vertex n) hs;
          let '(bm, im) := mark_houses 0 hs (replicate (n + 1) false) ∅ in
          adj ← read_lines (Z.to_nat num_line_below) n ts (replicate (n + 1) new_AdjInfo);
          Some (MkContext n hs bm im adj)
      | _ => None
      end
  | [] => None
  end.

End Reader.

(** * Well-formed contexts *)

(** What the searches rely on. *)
Record context_ok (g : Context) : Prop := {
  c_houses h : h ∈ houses g → (h ≤ num_vertices g)%nat;
  c_bitmap v : house_bitmap g !! v = if bool_decide (v ≤ num_vertices g)%nat
    then Some (bool_decide (v ∈ houses g)) else None;
  c_index i h : houses g !! i = Some h → NoDup (houses g) → house_index_map g !! h = Some i;
  c_adj v : (v ≤ num_vertices g)%nat → ∃ a, adjlist g !! v = Some a ∧
    length (neighbors a) = MAX_EDGES_PER_VERTEX ∧ (size a ≤ MAX_EDGES_PER_VERTEX)%nat;
  c_nbrs v w : w ∈ nbrs (adjlist g) v → (w ≤ num_vertices g)%nat;
  c_sym v w : w ∈ nbrs (adjlist g) v → v ∈ nbrs (adjlist g) w;
}.

(** * Adding edges *)

Import Reader.

Definition adj_wf (a : AdjInfo) : Prop :=
  length (neighbors a) = MAX_EDGES_PER_VERTEX ∧ (size a ≤ MAX_EDGES_PER_VERTEX)%nat.

Lemma PushBack_spec a w a' :
  adj_wf a → PushBack a w = Some a' →
  adj_wf a' ∧ neighbors_of a' = w :: neighbors_of a.
Proof.
  intros [Hl Hs] Hp. unfold PushBack in Hp. destruct (Nat.ltb_spec (size a) MAX_EDGES_PER_VERTEX); simplify_eq.
  split; [split; cbn; [by rewrite length_insert|lia]|]. unfold neighbors_of. cbn [neighbors size].
  rewrite (take_S_r _ _ w) by (apply list_lookup_insert_eq; lia).
  rewrite take_insert_ge by lia. by rewrite reverse_snoc.
Qed.

Lemma neighbors_of_length a : adj_wf a → length (neighbors_of a) = size a.
Proof. intros [Hl Hs]. unfold neighbors_of. rewrite length_reverse, length_take. lia. Qed.

(** The neighbours an edge adds to [v], last first. *)
Definition edge_nbrs (v : nat) (e : nat * nat) : list nat :=
  (if bool_decide (e.2 = v) then [e.1] else []) ++ (if bool_decide (e.1 = v) then [e.2] else []).

Definition edges_nbrs (v : nat) (es : list (nat * nat)) : list nat := reverse es ≫= edge_nbrs v.

Fixpoint add_edges (adj : list AdjInfo) (es : list (nat * nat)) : option (list AdjInfo) :=
  match es with [] => Some adj | (v, w) :: es => adj ← add_edge adj v w; add_edges adj es end.

Definition adjs_wf (n : nat) (adj : list AdjInfo) : Prop := length adj = n ∧ Forall adj_wf adj.

Lemma add_edge_spec n adj v w adj' :
  adjs_wf n adj → add_edge adj v w = Some adj' →
  adjs_wf n adj' ∧ ∀ x, nbrs adj' x = edge_nbrs x (v, w) ++ nbrs adj x.
Proof.
  intros [Hl Hwf] He. unfold add_edge in He.
  destruct (adj !! v) as [a|] eqn:Hv; simplify_eq/=.
  destruct (PushBack a w) as [a'|] eqn:Ha'; simplify_eq/=.
  destruct (<[v:=a']> adj !! w) as [b|] eqn:Hw; simplify_eq/=.
  destruct (PushBack b v) as [b'|] eqn:Hb'; simplify_eq/=.
  assert (adj_wf a) as Ha by (rewrite Forall_lookup in Hwf; eauto).
  destruct (PushBack_spec _ _ _ Ha Ha') as [Hwa Hna].
  assert (Forall adj_wf (<[v:=a']> adj)) as Hwf' by by apply Forall_insert.
  assert (adj_wf b) as Hb by (rewrite Forall_lookup in Hwf'; eauto).
  destruct (PushBack_spec _ _ _ Hb Hb') as [Hwb Hnb].
  split; [split; [by rewrite !length_insert|by apply Forall_insert]|].
  assert (v < length adj)%nat as Hvl by by eapply lookup_lt_Some.
  assert (w < length adj)%nat as Hwl by (apply lookup_lt_Some in Hw; by rewrite length_insert in Hw).
  intros x. unfold nbrs, edge_nbrs. cbn [fst snd].
  destruct (decide (x = w)) as [->|Hxw].
  - rewrite list_lookup_insert_eq by by rewrite length_insert. rewrite Hnb, (bool_decide_eq_true_2 (w = w)) by done.
    destruct (decide (v = w)) as [->|Hvw].
    + rewrite list_lookup_insert_eq in Hw by done. simplify_eq. rewrite Hna, Hv, (bool_decide_eq_true_2 (w = w)); done.
    + rewrite list_lookup_insert_ne in Hw by done. rewrite Hw, (bool_decide_eq_false_2 (v = w)); done.
  - rewrite list_lookup_insert_ne by done. rewrite (bool_decide_eq_false_2 (w = x)) by done.
    destruct (decide (x = v)) as [->|Hxv].
    + rewrite list_lookup_insert_eq by done. by rewrite Hna, Hv, (bool_decide_eq_true_2 (v = v)).
    + by rewrite list_lookup_insert_ne, (bool_decide_eq_false_2 (v = x)).
Qed.

Lemma edges_nbrs_cons x e es : edges_nbrs x (e :: es) = edges_nbrs x es ++ edge_nbrs x e.
Proof. unfold edges_nbrs. rewrite reverse_cons, bind_app. cbn. by rewrite app_nil_r. Qed.

Lemma add_edges_spec n adj es adj' :
  adjs_wf n adj → add_edges adj es = Some adj' →
  adjs_wf n adj' ∧ ∀ x, nbrs adj' x = edges_nbrs x es ++ nbrs adj x.
Proof.
  revert adj. induction es as [|[v w] es IH]; intros adj Hwf He; simplify_eq/=; [done|].
  destruct (add_edge adj v w) as [adj1|] eqn:H1; simplify_eq/=.
  destruct (add_edge_spec _ _ _ _ _ Hwf H1) as [Hwf1 Hn1].
  destruct (IH _ Hwf1 He) as [Hwf' Hn']. split; [done|]. intros x.
  by rewrite Hn', Hn1, edges_nbrs_cons, app_assoc.
Qed.

Lemma PushBack_success a w :
  (size a < MAX_EDGES_PER_VERTEX)%nat →
  PushBack a w = Some (MkAdjInfo (<[size a:=w]> (neighbors a)) (S (size a))).
Proof. intros Hs. unfold PushBack. by rewrite (proj2 (Nat.ltb_lt _ _) Hs). Qed.

(** Edges can be added as long as no vertex gets more than ten neighbours. *)
Lemma add_edge_success n adj v w :
  adjs_wf n adj → (v < n)%nat → (w < n)%nat →
  (∀ x, length (edge_nbrs x (v, w)) + length (nbrs adj x) ≤ MAX_EDGES_PER_VERTEX)%nat →
  is_Some (add_edge adj v w).
Proof.
  intros [Hl Hwf] Hv Hw Hd. unfold add_edge.
  destruct (lookup_lt_is_Some_2 adj v ltac:(lia)) as [a Ha]. rewrite Ha. cbn [mbind option_bind].
  assert (adj_wf a) as Hwa by (rewrite Forall_lookup in Hwf; eauto).
  assert (size a + (if bool_decide (v = w) then 1 else 0) < MAX_EDGES_PER_VERTEX)%nat as Hsa.
  { specialize (Hd v). unfold nbrs, edge_nbrs in Hd. cbn in Hd. rewrite Ha, neighbors_of_length in Hd by done.
    rewrite length_app, (bool_decide_eq_true_2 (v = v)) in Hd by done.
    destruct (decide (v = w)) as [->|]; [rewrite !bool_decide_eq_true_2 in * by done; cbn in *; lia|].
    rewrite bool_decide_eq_false_2 by done. cbn in Hd. lia. }
  rewrite PushBack_success by lia. cbn [mbind option_bind].
  destruct (decide (v = w)) as [->|Hne].
  - rewrite bool_decide_eq_true_2 in Hsa by done. rewrite list_lookup_insert_eq by lia. cbn [mbind option_bind].
    rewrite PushBack_success by (cbn; lia). cbn. eauto.
  - rewrite list_lookup_insert_ne by done.
    destruct (lookup_lt_is_Some_2 adj w ltac:(lia)) as [b Hb]. rewrite Hb. cbn [mbind option_bind].
    assert (adj_wf b) as Hwb by (rewrite Forall_lookup in Hwf; eauto).
    specialize (Hd w). unfold nbrs, edge_nbrs in Hd. cbn in Hd. rewrite Hb, neighbors_of_length in Hd by done.
    rewrite length_app, (bool_decide_eq_true_2 (w = w)) in Hd by done. cbn in Hd.
    rewrite PushBack_success by lia. cbn. eauto.
Qed.

Lemma add_edges_success n adj es :
  adjs_wf n adj → Forall (λ e, e.1 < n ∧ e.2 < n)%nat es →
  (∀ x, length (edges_nbrs x es) + length (nbrs adj x) ≤ MAX_EDGES_PER_VERTEX)%nat →
  is_Some (add_edges adj es).
Proof.
  revert adj. induction es as [|[v w] es IH]; intros adj Hwf Hr Hd; cbn; [eauto|].
  apply Forall_cons in Hr as [[Hv Hw] Hr].
  destruct (add_edge_success n adj v w Hwf Hv Hw) as [adj1 H1].
  { intros x. specialize (Hd x). rewrite edges_nbrs_cons, length_app in Hd. lia. }
  rewrite H1. cbn. destruct (add_edge_spec _ _ _ _ _ Hwf H1) as [Hwf1 Hn1].
  apply IH; [done|done|]. intros x. specialize (Hd x).
  rewrite edges_nbrs_cons, length_app in Hd. rewrite Hn1, length_app. lia.
Qed.

Lemma elem_of_edges_nbrs x y es : y ∈ edges_nbrs x es ↔ (x, y) ∈ es ∨ (y, x) ∈ es.
Proof.
  unfold edges_nbrs. rewrite list_elem_of_bind. setoid_rewrite elem_of_reverse. unfold edge_nbrs. split.
  - intros ([v w] & Hin & He). cbn in Hin. apply elem_of_app in Hin as [Hin|Hin]; case_bool_decide; subst;
      [apply list_elem_of_singleton in Hin as ->; by right|by apply not_elem_of_nil in Hin
      |apply list_elem_of_singleton in Hin as ->; by left|by apply not_elem_of_nil in Hin].
  - intros [He|He]; eexists; (split; [|exact He]); cbn; apply elem_of_app.
    + right. rewrite bool_decide_eq_true_2 by done. set_solver.
    + left. rewrite bool_decide_eq_true_2 by done. set_solver.
Qed.

(** * Reading a printed input *)

(** The input format: the houses, the numbers of vertices and lines, and for each line a
    vertex with its neighbours. *)
Definition print_line (l : nat * list nat) : list Z :=
  Z.of_nat l.1 :: Z.of_nat (length l.2) :: (Z.of_nat <$> l.2).

Definition print_input (hs : list nat) (nv : nat) (lines : list (nat * list nat)) : list Z :=
  Z.of_nat (length hs) :: (Z.of_nat <$> hs) ++ Z.of_nat nv :: Z.of_nat (length lines) :: concat (print_line <$> lines).

Definition line_edges (l : nat * list nat) : list (nat * nat) := (λ w, (l.1, w)) <$> l.2.
Definition edges (lines : list (nat * list nat)) : list (nat * nat) := concat (line_edges <$> lines).

Lemma to_vertex_of_nat nv v : (v ≤ nv)%nat → to_vertex nv (Z.of_nat v) = Some v.
Proof.
  intros Hv. unfold to_vertex. rewrite (proj2 (Z.leb_le _ _)), (proj2 (Z.leb_le _ _)) by lia.
  cbn. by rewrite Nat2Z.id.
Qed.

Lemma read_ints_print zs ts : read_ints (length zs) (zs ++ ts) = Some (zs, ts).
Proof. induction zs as [|z zs IH]; [done|]. cbn. by rewrite IH. Qed.

Lemma read_neighbors_print nv v ns ts adj :
  Forall (λ w, w ≤ nv)%nat ns →
  read_neighbors (length ns) nv v ((Z.of_nat <$> ns) ++ ts) adj =
    (adj' ← add_edges adj (line_edges (v, ns)); Some (adj', ts)).
Proof.
  revert adj. induction ns as [|w ns IH]; intros adj Hr; [done|]. apply Forall_cons in Hr as [Hw Hr].
  cbn. rewrite to_vertex_of_nat by done. cbn. destruct (add_edge adj v w) as [adj'|]; [|done]. cbn. by apply IH.
Qed.

Lemma add_edges_app adj es es' : add_edges adj (es ++ es') = (adj' ← add_edges adj es; add_edges adj' es').
Proof.
  revert adj. induction es as [|[v w] es IH]; intros adj; [done|]. cbn.
  destruct (add_edge adj v w); [|done]. cbn. apply IH.
Qed.

Lemma read_lines_print nv lines adj :
  Forall (λ l, l.1 ≤ nv ∧ Forall (λ w, w ≤ nv) l.2)%nat lines →
  read_lines (length lines) nv (concat (print_line <$> lines)) adj = add_edges adj (edges lines).
Proof.
  revert adj. induction lines as [|[v ns] lines IH]; intros adj Hr; [done|].
  apply Forall_cons in Hr as [[Hv Hns] Hr]. cbn in Hv, Hns.
  change (edges ((v, ns) :: lines)) with (line_edges (v, ns) ++ edges lines). rewrite add_edges_app.
  cbn [length read_lines fmap list_fmap concat print_line app fst snd].
  rewrite to_vertex_of_nat by done. cbn. rewrite Nat2Z.id, read_neighbors_print by done.
  change ((λ w : nat, (v, w)) <$> ns) with (line_edges (v, ns)).
  destruct (add_edges adj (line_edges (v, ns))) as [adj'|]; [|done]. cbn. by apply IH.
Qed.

Lemma mapM_to_vertex nv hs : Forall (λ h, h ≤ nv)%nat hs → mapM (to_vertex nv) (Z.of_nat <$> hs) = Some hs.
Proof.
  induction 1 as [|h hs Hh Hhs IH]; [done|]. cbn. rewrite to_vertex_of_nat by done. cbn in *. by rewrite IH.
Qed.

(** The loop over the houses sets exactly the bits of the houses. *)
Lemma mark_houses_bitmap i hs bm im v :
  (mark_houses i hs bm im).1 !! v =
    if bool_decide (v < length bm)%nat then Some (bool_decide (v ∈ hs) || default false (bm !! v)) else None.
Proof.
  revert i bm im. induction hs as [|h hs IH]; intros i bm im; cbn.
  - case_bool_decide as Hv; [|by apply lookup_ge_None; lia].
    rewrite (bool_decide_eq_false_2 (v ∈ [])) by set_solver.
    destruct (lookup_lt_is_Some_2 bm v Hv) as [b ->]. done.
  - rewrite IH, length_insert. destruct (decide (v < length bm)%nat) as [Hv|Hv];
      [rewrite !(bool_decide_eq_true_2 (v < length bm)%nat) by done|by rewrite !(bool_decide_eq_false_2 (v < length bm)%nat)].
    f_equal.
    destruct (decide (v = h)) as [->|Hne].
    + rewrite list_lookup_insert_eq by done. rewrite (bool_decide_eq_true_2 (h ∈ h :: hs)) by set_solver.
      by rewrite orb_true_r.
    + rewrite list_lookup_insert_ne by done. f_equal. apply bool_decide_ext. set_solver.
Qed.

Lemma mark_houses_index i hs bm im k h :
  NoDup hs → hs !! k = Some h → (mark_houses i hs bm im).2 !! h = Some (i + k)%nat.
Proof.
  revert i bm im k. induction hs as [|h' hs IH]; intros i bm im k Hnd Hk; [done|].
  apply NoDup_cons in Hnd as [Hn Hnd]. cbn. destruct k as [|k]; simplify_eq/=.
  - assert (∀ hs i bm (im : gmap nat nat), h ∉ hs → (mark_houses i hs bm im).2 !! h = im !! h) as Hkeep.
    { clear. induction hs as [|h' hs IH]; intros i bm im Hh; [done|]. cbn.
      rewrite IH by set_solver. apply lookup_insert_ne. set_solver. }
    rewrite Hkeep by done. rewrite lookup_insert_eq. by rewrite Nat.add_0_r.
  - rewrite (IH (S i) _ _ k Hnd Hk). f_equal. lia.
Qed.

(** The reader, on printed inputs. *)
Lemma Read_ok hs nv lines :
  Forall (λ h, h ≤ nv)%nat hs →
  Forall (λ l, l.1 ≤ nv ∧ Forall (λ w, w ≤ nv) l.2)%nat lines →
  (∀ x, length (edges_nbrs x (edges lines)) ≤ MAX_EDGES_PER_VERTEX)%nat →
  ∃ g, Read (print_input hs nv lines) = Some g ∧ context_ok g ∧
    num_vertices g = nv ∧ houses g = hs ∧
    ∀ v w, w ∈ nbrs (adjlist g) v ↔ (v, w) ∈ edges lines ∨ (w, v) ∈ edges lines.
Proof.
  intros Hhs Hlines Hdeg.
  assert (adjs_wf (nv + 1) (replicate (nv + 1) new_AdjInfo)) as Hwf.
  { split; [apply length_replicate|]. apply Forall_replicate. split; [done|]. apply Nat.le_0_l. }
  assert (∀ x, nbrs (replicate (nv + 1) new_AdjInfo) x = []) as Hempty.
  { intros x. unfold nbrs. destruct (replicate (nv + 1) new_AdjInfo !! x) as [a|] eqn:Ha; [|done].
    apply lookup_replicate in Ha as [-> _]. done. }
  assert (Forall (λ e, e.1 < nv + 1 ∧ e.2 < nv + 1)%nat (edges lines)) as Hrange.
  { clear -Hlines. induction Hlines as [|[v ns] lines [Hv Hns] _ IH]; [constructor|].
    change (edges ((v, ns) :: lines)) with (line_edges (v, ns) ++ edges lines).
    apply Forall_app. split; [|done]. unfold line_edges. cbn in *. apply Forall_fmap.
    eapply Forall_impl; [exact Hns|]. cbn. lia. }
  destruct (add_edges_success _ _ _ Hwf Hrange) as [adj Hadj].
  { intros x. rewrite Hempty. cbn. specialize (Hdeg x). lia. }
  destruct (add_edges_spec _ _ _ _ Hwf Hadj) as [[Hl Hwf'] Hn].
  pose proof (mark_houses_bitmap 0 hs (replicate (nv + 1) false) ∅) as Hbm.
  pose proof (mark_houses_index 0 hs (replicate (nv + 1) false) ∅) as Him.
  destruct (mark_houses 0 hs (replicate (nv + 1) false) ∅) as [bm im] eqn:Hmark. cbn in Hbm, Him.
  exists (MkContext nv hs bm im adj).
  assert (∀ v w, w ∈ nbrs adj v ↔ (v, w) ∈ edges lines ∨ (w, v) ∈ edges lines) as Hedge.
  { intros v w. rewrite Hn, Hempty, app_nil_r. apply elem_of_edges_nbrs. }
  split_and!; [| |done|done|done].
  - unfold print_input, Read. rewrite Nat2Z.id.
    rewrite <- (length_fmap Z.of_nat hs) at 1. rewrite read_ints_print. cbn [mbind option_bind].
    rewrite (proj2 (Z.ltb_ge _ _)) by lia. rewrite !Nat2Z.id, mapM_to_vertex by done. cbn [mbind option_bind].
    rewrite Hmark, read_lines_print by done. by rewrite Hadj.
  - constructor; cbn.
    + intros h Hh. rewrite Forall_forall in Hhs. auto.
    + intros v. rewrite Hbm, length_replicate. repeat case_bool_decide; try lia; try done.
      destruct (replicate (nv + 1) false !! v) as [b|] eqn:Hb; [|by rewrite orb_false_r].
      apply lookup_replicate in Hb as [-> _]. by rewrite orb_false_r.
    + intros i h Hi Hnd. by rewrite (Him i h Hnd Hi).
    + intros v Hv. destruct (lookup_lt_is_Some_2 adj v ltac:(lia)) as [a Ha]. exists a. split; [done|].
      rewrite Forall_lookup in Hwf'. by apply (Hwf' v).
    + intros v w Hw%Hedge. rewrite Forall_forall in Hrange.
      destruct Hw as [Hw|Hw]; specialize (Hrange _ Hw); cbn in Hrange; lia.
    + intros v w Hw. apply Hedge. apply Hedge in Hw. tauto.
Qed.

(** C15: reading an input file gives the graph it describes: the houses with their bitmap
    and index map, and for every vertex exactly the vertices it shares a line with, in
    both directions; this holds for every input whose vertices are in range and whose
    vertices have at most ten neighbours each. *)
Theorem Read_correct hs nv lines :
  Forall (λ h, h ≤ nv)%nat hs →
  Forall (λ l, l.1 ≤ nv ∧ Forall (λ w, w ≤ nv) l.2)%nat lines →
  (∀ x, length (edges_nbrs x (edges lines)) ≤ MAX_EDGES_PER_VERTEX)%nat →
  ∃ g, Read (print_input hs nv lines) = Some g ∧ context_ok g ∧
    num_vertices g = nv ∧ houses g = hs ∧
    ∀ v w, w ∈ nbrs (adjlist g) v ↔ (v, w) ∈ edges lines ∨ (w, v) ∈ edges lines.
Proof. apply Read_ok. Qed.

(** The path 1 - 2 - 3 with houses 1 and 3. *)
Lemma Read_correct_witness :
  ∃ g, Read [2; 1; 3; 3; 2; 1; 1; 2; 2; 1; 3]%Z = Some g ∧ context_ok g ∧
    num_vertices g = 3 ∧ houses g = [1; 3] ∧
    ∀ v w, w ∈ nbrs (adjlist g) v ↔ (v, w) ∈ edges [(1, [2]); (2, [3])] ∨ (w, v) ∈ edges [(1, [2]); (2, [3])].
Proof.
  apply (Read_correct [1; 3] 3 [(1, [2]); (2, [3])]).
  - repeat constructor; lia.
  - repeat constructor; cbn; lia.
  - intros x. unfold MAX_EDGES_PER_VERTEX. cbn. unfold edge_nbrs. cbn. repeat case_bool_decide; cbn; lia.
Defined.
