(* ===== verification/P1Search.v ===== *)
(** What the two searches of src/Project1/src/bfs.cpp share: [BFSResult], the bits of the
    houses in [visit_bitmap], and the interface [SearchSpec] through which the workers of
    main.cpp use a search.

    Several searches run at the same time and share [visit_bitmap]: a search stops early
    when its word says that every other house has met its own.  The interface says that
    such a search has nothing to add: the distances it leaves out are covered by the
    results of others. *)

From S2P Require Import Prelude Graph P1Context.

Local Open Scope Z_scope.

(** * BFSResult *)

Record BFSResult := MkResult { min_dist : Z; max_dist : Z }.

Definition new_BFSResult : BFSResult := MkResult INT_MAX 0.

(** The two overloads of [BFSResult::Update]. *)
Definition Update (r rhs : BFSResult) : BFSResult :=
  MkResult (Z.min (min_dist r) (min_dist rhs)) (Z.max (max_dist r) (max_dist rhs)).
Definition UpdateDist (r : BFSResult) (dist : Z) : BFSResult :=
  MkResult (Z.min (min_dist r) dist) (Z.max (max_dist r) dist).

(** A distance lies between the two. *)
Definition covers (r : BFSResult) (n : nat) : Prop := min_dist r ≤ Z.of_nat n ≤ max_dist r.

(** [r'] has taken in [r]. *)
Definition includes (r' r : BFSResult) : Prop := min_dist r' ≤ min_dist r ∧ max_dist r ≤ max_dist r'.

Lemma covers_includes r r' n : covers r n → includes r' r → covers r' n.
Proof. unfold covers, includes. lia. Qed.

Lemma includes_refl r : includes r r.
Proof. unfold includes. lia. Qed.

Lemma includes_trans r1 r2 r3 : includes r1 r2 → includes r2 r3 → includes r1 r3.
Proof. unfold includes. lia. Qed.

Lemma Update_includes r rhs : includes (Update r rhs) r ∧ includes (Update r rhs) rhs.
Proof. unfold includes, Update. cbn. lia. Qed.

Lemma UpdateDist_includes r d : includes (UpdateDist r d) r.
Proof. unfold includes, UpdateDist. cbn. lia. Qed.

Lemma UpdateDist_covers r n : covers (UpdateDist r (Z.of_nat n)) n.
Proof. unfold covers, UpdateDist. cbn. lia. Qed.

(** A result made of distances satisfying [P], or still empty. *)
Definition made_of (P : nat → Prop) (r : BFSResult) : Prop :=
  (min_dist r = INT_MAX ∨ ∃ n, P n ∧ min_dist r = Z.of_nat n) ∧
  (max_dist r = 0 ∨ ∃ n, P n ∧ max_dist r = Z.of_nat n).

Lemma made_of_new P : made_of P new_BFSResult.
Proof. split; by left. Qed.

Lemma made_of_Update P r rhs : made_of P r → made_of P rhs → made_of P (Update r rhs).
Proof.
  intros [H1 H2] [H3 H4]. split; cbn.
  - destruct (Z.min_spec (min_dist r) (min_dist rhs)) as [[_ ->]|[_ ->]]; done.
  - destruct (Z.max_spec (max_dist r) (max_dist rhs)) as [[_ ->]|[_ ->]]; done.
Qed.

Lemma made_of_UpdateDist (P : nat → Prop) r n : P n → made_of P r → made_of P (UpdateDist r (Z.of_nat n)).
Proof.
  intros Hn [H1 H2]. split; cbn.
  - destruct (Z.min_spec (min_dist r) (Z.of_nat n)) as [[_ ->]|[_ ->]]; [done|]. right. eauto.
  - destruct (Z.max_spec (max_dist r) (Z.of_nat n)) as [[_ ->]|[_ ->]]; [|done]. right. eauto.
Qed.

(** * The bits of the houses *)

Section bits.
Context (g : Context).

(** The loop computing [full_visit_bits]. *)
Fixpoint full_bits (idx n : nat) : option Z :=
  match n with
  | O => Some 0
  | S n =>
      acc ← full_bits idx n;
      if (n =? idx)%nat then Some acc else p ← Util.g_pow2 !! n; Some (Z.lor acc p)
  end.

(** [map::operator[]] yields 0 for a key that is not there. *)
Definition index_of (v : nat) : nat := default 0%nat (house_index_map g !! v).

(** The section of a search under [visit_bitmap_mutex]: both words of the pair.  A search
    reads only its own word outside such sections, so that nobody sees the state between
    the two assignments. *)
Definition set_bits (bm : list Z) (idx v : nat) : option (list Z) :=
  let j := index_of v in
  pj ← Util.g_pow2 !! j; pi ← Util.g_pow2 !! idx;
  bi ← bm !! idx;
  let bm := <[idx:=Z.lor bi pj]> bm in
  bj ← bm !! j;
  Some (<[j:=Z.lor bj pi]> bm).

(** * Distances between houses *)

Notation nb := (nbrs (adjlist g)).

(** A distance between two different houses. *)
Definition pairdist (n : nat) : Prop :=
  ∃ i j h h', i ≠ j ∧ houses g !! i = Some h ∧ houses g !! j = Some h' ∧ isdist nb h h' n.

(** Every bit of the bitmap stands for a distance that is covered. *)
Definition bits_ok (cov : nat → Prop) (bm : list Z) : Prop :=
  ∀ i j bits h h' n, bm !! i = Some bits → Z.testbit bits (Z.of_nat j) = true →
    houses g !! i = Some h → houses g !! j = Some h' → isdist nb h h' n → cov n.

(** The distances from house [i] to the other houses are covered. *)
Definition all_met (cov : nat → Prop) (i : nat) : Prop :=
  ∀ j h h' n, j ≠ i → houses g !! i = Some h → houses g !! j = Some h' → isdist nb h h' n → cov n.

(** The words of the bitmap hold bits of other houses only, and they only gain bits. *)
Definition bm_ok (bm : list Z) : Prop :=
  length bm = MAX_HOUSE ∧ ∀ i bits j, bm !! i = Some bits → Z.testbit bits (Z.of_nat j) = true →
    (j < length (houses g))%nat ∧ j ≠ i.

Definition bm_le (bm bm' : list Z) : Prop :=
  ∀ i bits, bm !! i = Some bits → ∃ bits', bm' !! i = Some bits' ∧
    ∀ j, Z.testbit bits (Z.of_nat j) = true → Z.testbit bits' (Z.of_nat j) = true.

#[export] Instance bm_le_preorder : PreOrder bm_le.
Proof.
  split; [intros bm i bits Hi; eauto|]. intros a b c Hab Hbc i x Hx. destruct (Hab i x Hx) as (y & Hy & Hxy).
  destruct (Hbc i y Hy) as (z & Hz & Hyz). eauto.
Qed.

Lemma bm_lookup bm i : bm_ok bm → (i < MAX_HOUSE)%nat → is_Some (bm !! i).
Proof. intros [Hl _] Hi. apply lookup_lt_is_Some_2. by rewrite Hl. Qed.

Hypothesis Hg : context_ok g.
Hypothesis Hnd : NoDup (houses g).
Hypothesis Hmax : (length (houses g) ≤ MAX_HOUSE)%nat.

Lemma walk_in_range n u v : walk nb n u v → (u ≤ num_vertices g)%nat → (v ≤ num_vertices g)%nat.
Proof. induction 1 as [|n u v w Hw IH Hin]; [done|]. intros Hu. by eapply (c_nbrs _ Hg). Qed.

Lemma index_of_house i h : houses g !! i = Some h → index_of h = i.
Proof. intros Hi. unfold index_of. by rewrite (c_index _ Hg i h Hi Hnd). Qed.

Lemma full_bits_some idx n : (n ≤ MAX_HOUSE)%nat → ∃ full, full_bits idx n = Some full ∧
  ∀ j, Z.testbit full (Z.of_nat j) = true ↔ (j < n)%nat ∧ j ≠ idx.
Proof.
  clear Hg Hnd Hmax. induction n as [|n IH]; intros Hn; cbn.
  { exists 0. split; [done|]. intros j. rewrite Z.bits_0. split; [done|lia]. }
  destruct IH as (acc & Hacc & Hb); [lia|]. rewrite Hacc. cbn. destruct (Nat.eqb_spec n idx) as [->|Hne].
  - exists acc. split; [done|]. intros j. rewrite Hb. lia.
  - rewrite Util.g_pow2_lookup by lia. cbn. eexists. split; [done|]. intros j.
    rewrite Z.lor_spec, orb_true_iff, Hb, Z.pow2_bits_eqb, Z.eqb_eq by lia. lia.
Qed.

Lemma nbrs_in v a : adjlist g !! v = Some a → nb v = neighbors_of a.
Proof. intros Ha. unfold nbrs. by rewrite Ha. Qed.

Lemma lookup_insert_true (l : list bool) i v :
  (i < length l)%nat → <[i:=true]> l !! v = Some true ↔ v = i ∨ l !! v = Some true.
Proof.
  intros Hi. destruct (decide (v = i)) as [->|Hne].
  - rewrite list_lookup_insert_eq by done. tauto.
  - rewrite list_lookup_insert_ne by done. tauto.
Qed.

(** Setting one bit. *)
Lemma or_bit_ok (cov : nat → Prop) bm i j b :
  bits_ok cov bm → bm !! i = Some b →
  (∀ h h' n, houses g !! i = Some h → houses g !! j = Some h' → isdist nb h h' n → cov n) →
  bits_ok cov (<[i:=Z.lor b (2 ^ Z.of_nat j)]> bm).
Proof.
  intros Hbm Hb Hcov i' j' bits h h' n Hi Hbit Hh Hh' Hd.
  destruct (decide (i' = i)) as [->|Hne]; [|rewrite list_lookup_insert_ne in Hi by done; by eapply Hbm].
  rewrite list_lookup_insert_eq in Hi by by eapply lookup_lt_Some. injection Hi as <-.
  rewrite Z.lor_spec in Hbit. apply orb_true_iff in Hbit as [Hbit|Hbit]; [by eapply Hbm|].
  rewrite Z.pow2_bits_eqb in Hbit by lia. apply Z.eqb_eq in Hbit. assert (j' = j) as -> by lia. by eapply Hcov.
Qed.

(** Setting the bit of another house. *)
Lemma or_bit_keeps bm i j b :
  bm_ok bm → bm !! i = Some b → (j < length (houses g))%nat → j ≠ i →
  bm_ok (<[i:=Z.lor b (2 ^ Z.of_nat j)]> bm) ∧ bm_le bm (<[i:=Z.lor b (2 ^ Z.of_nat j)]> bm).
Proof.
  clear Hg Hnd Hmax. intros [Hl Hb] Hi Hj Hne. pose proof (lookup_lt_Some _ _ _ Hi) as Hlt. split.
  - split; [by rewrite length_insert|]. intros k bits j' [[<- ->]|[_ Hk]]%lookup_insert_inv Hbit; [|eauto].
    rewrite Z.lor_spec, orb_true_iff, Z.pow2_bits_eqb, Z.eqb_eq in Hbit by lia.
    destruct Hbit as [Hbit|Hbit]; [eauto|]. assert (j' = j) as -> by lia. done.
  - intros k bits Hk. destruct (decide (k = i)) as [->|Hki]; [|rewrite list_lookup_insert_ne by done; eauto].
    rewrite list_lookup_insert_eq by done. assert (bits = b) as -> by congruence. eexists. split; [done|].
    intros j' Hj'. by rewrite Z.lor_spec, Hj'.
Qed.

(** The locked section, once the distance of the pair is covered. *)
Lemma set_bits_ok bm idx v h :
  bm_ok bm → houses g !! idx = Some h → v ∈ houses g → v ≠ h →
  ∃ bm', set_bits bm idx v = Some bm' ∧ bm_ok bm' ∧ bm_le bm bm' ∧
    ∀ cov : nat → Prop, (∀ n, isdist nb h v n → cov n) → bits_ok cov bm → bits_ok cov bm'.
Proof.
  intros Hl Hidx Hv Hvh. apply list_elem_of_lookup in Hv as [j Hj]. unfold set_bits. rewrite (index_of_house _ _ Hj).
  pose proof (lookup_lt_Some _ _ _ Hidx) as Hi64. pose proof (lookup_lt_Some _ _ _ Hj) as Hj64.
  assert (j ≠ idx) as Hne by congruence.
  rewrite !Util.g_pow2_lookup by lia. cbn [mbind option_bind].
  destruct (bm_lookup bm idx Hl ltac:(lia)) as [bi Hbi]. rewrite Hbi. cbn [mbind option_bind].
  destruct (or_bit_keeps bm idx j bi Hl Hbi Hj64 Hne) as [Hok1 Hle1].
  destruct (bm_lookup _ j Hok1 ltac:(lia)) as [bj Hbj]. rewrite Hbj. cbn [mbind option_bind].
  destruct (or_bit_keeps _ j idx bj Hok1 Hbj Hi64 (not_eq_sym Hne)) as [Hok2 Hle2].
  eexists. split; [done|]. split; [done|]. split; [by etrans|].
  intros cov Hcov Hbm. apply or_bit_ok; [apply or_bit_ok|..]; try done; intros h1 h2 n H1 H2 Hd; simplify_eq.
  - by apply Hcov.
  - apply Hcov. apply isdist_sym; [apply (c_sym _ Hg)|done].
Qed.

(** A full word stays full. *)
Lemma full_stays bm bm' idx full :
  bm_ok bm' → bm_le bm bm' → full_bits idx (length (houses g)) = Some full → bm !! idx = Some full → bm' !! idx = Some full.
Proof.
  clear Hg Hnd. intros Hok Hle Hf Hb. destruct (full_bits_some idx (length (houses g)) Hmax) as (f & Hf' & Hbits).
  assert (f = full) as -> by congruence. destruct (Hle idx full Hb) as (b' & Hb' & Hsub). rewrite Hb'. f_equal. apply Z.bits_inj'. intros z Hz.
  rewrite <- (Z2Nat.id z) by done. apply eq_bool_prop_intro. rewrite !Is_true_true. split; [|apply Hsub].
  intros Ht. apply Hbits. by eapply (proj2 Hok).
Qed.

(** A word that is full: every other house has been met. *)
Lemma full_bits_met cov bm idx bits h :
  bits_ok cov bm → houses g !! idx = Some h →
  bm !! idx = Some bits → full_bits idx (length (houses g)) = Some bits → all_met cov idx.
Proof.
  intros Hbm Hidx Hb Hf j h1 h2 n Hne H1 H2 Hd.
  destruct (full_bits_some idx (length (houses g)) Hmax) as (f & Hf' & Hbits). simplify_eq.
  eapply (Hbm idx j); eauto. apply Hbits. split; [by eapply lookup_lt_Some|done].
Qed.

End bits.

(** * The interface of a search *)

(** A running search: how it starts at a house with a number of threads, its steps on the
    shared bitmap (the number chooses the thread of the search that moves), and its result
    once it has returned. *)
Class SearchImpl (S : Type) := {
  se_start : nat → nat → option S;
  se_next : nat → list Z → S → option (list Z * S);
  se_result : S → option BFSResult;
}.

(** What a search promises: the numbers of threads it runs with [se_allowed], the house
    index [se_idx], the distances found so far [se_found], an invariant that survives the
    bits set by others; its steps only add bits and keep them justified, and when it returns
    the distances from its house are covered. *)
Class SearchSpec (g : Context) (S : Type) `{SearchImpl S} := {
  se_allowed : nat → Prop;
  se_inv : list Z → S → Prop;
  se_idx : S → nat;
  se_found : S → BFSResult;
  se_start_ok t i h bm : se_allowed t → houses g !! i = Some h → bm_ok g bm →
    ∃ q, se_start t h = Some q ∧ se_inv bm q ∧ se_idx q = i ∧ se_result q = None;
  se_made bm q : se_inv bm q → made_of (pairdist g) (se_found q);
  se_result_found bm q r : se_inv bm q → se_result q = Some r → r = se_found q;
  se_inv_le bm bm' q : se_inv bm q → bm_ok g bm' → bm_le bm bm' → se_inv bm' q;
  se_step_ok c bm q bm' q' : se_inv bm q → bm_ok g bm → se_next c bm q = Some (bm', q') →
    (se_inv bm' q' ∧ se_idx q' = se_idx q ∧ bm_ok g bm' ∧ bm_le bm bm' ∧ includes (se_found q') (se_found q)) ∧
    ∀ cov : nat → Prop, bits_ok g cov bm → (∀ n, covers (se_found q') n → cov n) →
      bits_ok g cov bm' ∧ (is_Some (se_result q') → all_met g cov (se_idx q));
  se_progress bm q : se_inv bm q → bm_ok g bm → se_result q = None → ∃ c bm' q', se_next c bm q = Some (bm', q');
}.

(** Pairs of numbers in lexicographic order. *)
Definition lex_lt (p q : nat * nat) : Prop := (p.1 < q.1)%nat ∨ p.1 = q.1 ∧ (p.2 < q.2)%nat.

Lemma lex_lt_wf : well_founded lex_lt.
Proof.
  intros [a b]. revert b. induction a as [a IHa] using lt_wf_ind. intros b.
  induction b as [b IHb] using lt_wf_ind. constructor. intros [a' b'] [Hlt|[He Hlt]]; cbn in *; [by apply IHa|subst; by apply IHb].
Qed.

(** Sizes that are integers. *)
Lemma lex_lt_Z a b a' b' :
  0 ≤ a' → 0 ≤ b' → a' < a ∨ a' = a ∧ b' < b → lex_lt (Z.to_nat a', Z.to_nat b') (Z.to_nat a, Z.to_nat b).
Proof. unfold lex_lt. cbn. intros. lia. Qed.

(** A search whose steps make it smaller: the levels to come, and the work at this level. *)
Class SearchMeasure (g : Context) (S : Type) `{SearchSpec g S} := {
  se_size : S → nat * nat;
  se_decreases c bm q bm' q' : se_inv bm q → bm_ok g bm → se_next c bm q = Some (bm', q') → lex_lt (se_size q') (se_size q);
}.
