(* ===== verification/P1Bfs.v ===== *)
(** The single-threaded breadth-first search of src/Project1/src/bfs.cpp ([BFSResult],
    [VISIT_VERTEX], [BFSSingleThread]), one shared access per step.

    Several searches run at the same time and share [visit_bitmap]: a search stops early
    when its word says that every other house has met its own.  The invariant of a search
    is that of a level-by-level search against the distances of Graph.v; it does not
    depend on the bitmap. *)

From S2P Require Import Prelude Graph P1Context P1Search.

Local Open Scope Z_scope.

(** * BFSSingleThread *)

(** At the loop test, going through the vertices of a level, in the locked section for
    a house just found, finished. *)
Inductive spc := STest | SVertex | SHouse (v : nat) | SEnd.

(** The local variables of a search: [q_cur] are the vertices of the level still to be
    expanded, [q_todo] the neighbours of the vertex being expanded still to be visited,
    [q_dist] is [dist]. *)
Record search := Search {
  q_start : nat;
  q_idx : nat;
  q_full : Z;
  q_check : list bool;
  q_cur : list nat;
  q_todo : list nat;
  q_next : list nat;
  q_dist : nat;
  q_res : BFSResult;
  q_pc : spc;
}.

Section search.
Context (g : Context).

(** The beginning of [BFSSingleThread] from where its vectors are taken and cleared, up to
    the loop; P1Pooled.v takes them from the pools before the first step. *)
Definition start_search (start_house : nat) : option search :=
  let idx := index_of g start_house in
  full ← full_bits idx (length (houses g));
  let check := replicate (num_vertices g + 1) false in
  if (start_house <? length check)%nat then
    Some (Search start_house idx full (<[start_house:=true]> check) [] [] [start_house] 0 new_BFSResult STest)
  else None.

Definition set_pc (q : search) (p : spc) : search :=
  Search (q_start q) (q_idx q) (q_full q) (q_check q) (q_cur q) (q_todo q) (q_next q) (q_dist q) (q_res q) p.

(** [VISIT_VERTEX(w)], up to the locked section. *)
Definition visit_vertex (q : search) (w : nat) (todo : list nat) : option search :=
  c ← q_check q !! w;
  if (c : bool) then
    Some (Search (q_start q) (q_idx q) (q_full q) (q_check q) (q_cur q) todo (q_next q) (q_dist q) (q_res q) SVertex)
  else
    is_house ← house_bitmap g !! w;
    Some (Search (q_start q) (q_idx q) (q_full q) (<[w:=true]> (q_check q)) (q_cur q) todo (q_next q ++ [w]) (q_dist q)
            (if (is_house : bool) then UpdateDist (q_res q) (Z.of_nat (q_dist q) + 1) else q_res q)
            (if (is_house : bool) then SHouse w else SVertex)).

(** One step of the search on the shared bitmap. *)
Definition bfs_step (bm : list Z) (q : search) : option (list Z * search) :=
  match q_pc q with
  | STest =>
      visit_bits ← bm !! q_idx q;
      Some (bm,
        if negb (visit_bits =? q_full q) && negb (length (q_next q) =? 0)%nat
        then Search (q_start q) (q_idx q) (q_full q) (q_check q) (q_next q) [] [] (q_dist q) (q_res q) SVertex
        else set_pc q SEnd)
  | SVertex =>
      match q_todo q with
      | w :: todo => q' ← visit_vertex q w todo; Some (bm, q')
      | [] =>
          match q_cur q with
          | v :: cur =>
              a ← adjlist g !! v;
              Some (bm, Search (q_start q) (q_idx q) (q_full q) (q_check q) cur (neighbors_of a) (q_next q) (q_dist q) (q_res q) SVertex)
          | [] => Some (bm, Search (q_start q) (q_idx q) (q_full q) (q_check q) [] [] (q_next q) (S (q_dist q)) (q_res q) STest)
          end
      end
  | SHouse v => bm' ← set_bits g bm (q_idx q) v; Some (bm', set_pc q SVertex)
  | SEnd => None
  end.

(** * The invariant of a search *)

Hypothesis Hg : context_ok g.
Hypothesis Hnd : NoDup (houses g).
Hypothesis Hmax : (length (houses g) ≤ MAX_HOUSE)%nat.

Notation nb := (nbrs (adjlist g)).

Definition visited (q : search) (v : nat) : Prop := q_check q !! v = Some true.

(** At the loop test: exactly the vertices up to distance [q_dist] are visited. *)
Record test_ok (q : search) : Prop := {
  t_cur : q_cur q = [];
  t_todo : q_todo q = [];
  t_visited v : visited q v ↔ ∃ n, isdist nb (q_start q) v n ∧ (n ≤ q_dist q)%nat;
  t_next v : v ∈ q_next q ↔ isdist nb (q_start q) v (q_dist q);
}.

(** While level [q_dist] is expanded: the next level is being collected. *)
Record level_ok (q : search) : Prop := {
  l_visited v : visited q v → ∃ n, isdist nb (q_start q) v n ∧ (n ≤ S (q_dist q))%nat ∧
    (n = S (q_dist q) → v ∈ q_next q);
  l_below v n : isdist nb (q_start q) v n → (n ≤ q_dist q)%nat → visited q v;
  l_next v : v ∈ q_next q → isdist nb (q_start q) v (S (q_dist q)) ∧ visited q v;
  l_cur v : v ∈ q_cur q → isdist nb (q_start q) v (q_dist q);
  l_todo w : w ∈ q_todo q → ∃ u, isdist nb (q_start q) u (q_dist q) ∧ w ∈ nb u;
  l_expanded u : isdist nb (q_start q) u (q_dist q) →
    u ∈ q_cur q ∨ ∀ w, w ∈ nb u → visited q w ∨ w ∈ q_todo q;
}.

Record search_ok (q : search) : Prop := {
  s_idx : houses g !! q_idx q = Some (q_start q);
  s_full : full_bits (q_idx q) (length (houses g)) = Some (q_full q);
  s_len : length (q_check q) = (num_vertices g + 1)%nat;
  s_level : match q_pc q with
    | STest => test_ok q | SVertex | SHouse _ => level_ok q | SEnd => True end;
  s_house v : q_pc q = SHouse v → visited q v ∧ v ∈ houses g ∧ v ≠ q_start q;
  s_res v n : visited q v → v ∈ houses g → v ≠ q_start q → isdist nb (q_start q) v n → covers (q_res q) n;
  s_made : made_of (pairdist g) (q_res q);
}.

Lemma start_in_range q : search_ok q → (q_start q ≤ num_vertices g)%nat.
Proof. intros Hq. apply (c_houses _ Hg). eapply list_elem_of_lookup_2, (s_idx _ Hq). Qed.

Lemma dist_in_range q v n : search_ok q → isdist nb (q_start q) v n → (v ≤ num_vertices g)%nat.
Proof. intros Hq [Hw _]. eapply walk_in_range; [done|done|]. by apply start_in_range. Qed.

(** The search starts. *)
Lemma start_search_ok i h :
  houses g !! i = Some h → ∃ q, start_search h = Some q ∧ search_ok q ∧ q_idx q = i.
Proof.
  intros Hi. unfold start_search. rewrite (index_of_house g Hg Hnd i h Hi).
  destruct (full_bits_some i (length (houses g)) Hmax) as (full & Hfull & _). rewrite Hfull. cbn [mbind option_bind].
  assert (h ≤ num_vertices g)%nat as Hh by (apply (c_houses _ Hg); by eapply list_elem_of_lookup_2).
  rewrite length_replicate, (proj2 (Nat.ltb_lt _ _)) by lia. eexists. split; [done|]. split; [|done].
  assert (∀ v, <[h:=true]> (replicate (num_vertices g + 1) false) !! v = Some true ↔ v = h) as Hv.
  { intros v. destruct (decide (v = h)) as [->|Hne].
    - rewrite list_lookup_insert_eq; [done|rewrite length_replicate; lia].
    - rewrite list_lookup_insert_ne by done. rewrite lookup_replicate. naive_solver. }
  constructor; cbn [q_idx q_start q_full q_check q_pc q_cur q_todo q_next q_dist q_res]; try done.
  - by rewrite length_insert, length_replicate.
  - constructor; unfold visited; cbn [q_cur q_todo q_next q_check q_start q_dist]; try done.
    + intros v. rewrite Hv. split; [intros ->; exists 0%nat; split; [apply isdist_self|lia]|].
      intros (n & Hn & Hle). assert (n = 0%nat) as -> by lia. by apply isdist_zero in Hn.
    + intros v. rewrite list_elem_of_singleton. split; [intros ->; apply isdist_self|by intros ?%isdist_zero].
  - unfold visited. cbn. intros v n ->%Hv. done.
  - apply made_of_new.
Qed.

Lemma start_not_at q v d : isdist nb (q_start q) v (S d) → v ≠ q_start q.
Proof. intros Hd ->. pose proof (isdist_fun _ _ _ _ _ Hd (isdist_self _ _)). lia. Qed.

(** A vertex met for the first time while level [q_dist] is expanded is one further. *)
Lemma first_visit q w todo :
  level_ok q → q_todo q = w :: todo → ¬ visited q w → isdist nb (q_start q) w (S (q_dist q)).
Proof.
  intros Hq Ht Hn. destruct (l_todo _ Hq w) as (u & Hu & Hw); [rewrite Ht; by left|].
  destruct (isdist_step _ _ _ _ _ Hu Hw) as (d & Hd & Hdle).
  destruct (decide (d = S (q_dist q))) as [->|]; [done|]. destruct Hn. apply (l_below _ Hq w d Hd). lia.
Qed.

(** Dropping a visited vertex from the neighbours to be visited. *)
Lemma level_skip q w todo q' :
  level_ok q → q_todo q = w :: todo → visited q w →
  q_start q' = q_start q → q_check q' = q_check q → q_cur q' = q_cur q → q_next q' = q_next q →
  q_dist q' = q_dist q → q_todo q' = todo → level_ok q'.
Proof.
  intros Hq Ht Hw Hs Hc Hcu Hn Hd Htd. unfold visited in Hw.
  constructor; unfold visited; rewrite ?Hs, ?Hc, ?Hcu, ?Hn, ?Hd, ?Htd; try apply Hq.
  - intros w' Hw'. apply (l_todo _ Hq). rewrite Ht. by right.
  - intros u Hu. destruct (l_expanded _ Hq u Hu) as [|Hall]; [by left|right]. intros w' Hw'.
    destruct (Hall w' Hw') as [|Hin]; [by left|]. rewrite Ht in Hin.
    apply elem_of_cons in Hin as [->|]; [by left|by right].
Qed.

(** Visiting a new vertex. *)
Lemma level_visit q w todo q' :
  level_ok q → q_todo q = w :: todo → q_check q !! w = Some false →
  q_start q' = q_start q → q_check q' = <[w:=true]> (q_check q) → q_cur q' = q_cur q →
  q_next q' = q_next q ++ [w] → q_dist q' = q_dist q → q_todo q' = todo → level_ok q'.
Proof.
  intros Hq Ht Hw Hs Hc Hcu Hn Hd Htd.
  assert (¬ visited q w) as Hnv by (unfold visited; rewrite Hw; done).
  pose proof (first_visit q w todo Hq Ht Hnv) as Hdist.
  assert (∀ v, visited q' v ↔ v = w ∨ visited q v) as Hins.
  { intros v. unfold visited. rewrite Hc. apply lookup_insert_true. by eapply lookup_lt_Some. }
  constructor; rewrite ?Hs, ?Hcu, ?Hn, ?Hd, ?Htd.
  - intros v [->|Hv]%Hins; [exists (S (q_dist q)); split_and!; [done|lia|intros; apply elem_of_app; right; by left]|].
    destruct (l_visited _ Hq v Hv) as (n & Hn1 & Hn2 & Hn3). exists n. split_and!; [done..|].
    intros Hn4. apply elem_of_app. left. auto.
  - intros v n Hv Hle. apply Hins. right. by eapply (l_below _ Hq).
  - intros v [Hv| ->%list_elem_of_singleton]%elem_of_app; [|split; [done|apply Hins; by left]].
    destruct (l_next _ Hq v Hv). split; [done|]. apply Hins. by right.
  - apply Hq.
  - intros w' Hw'. apply (l_todo _ Hq). rewrite Ht. by right.
  - intros u Hu. destruct (l_expanded _ Hq u Hu) as [|Hall]; [by left|right]. intros w' Hw'.
    rewrite Hins. destruct (Hall w' Hw') as [|Hin]; [by left; right|]. rewrite Ht in Hin.
    apply elem_of_cons in Hin as [->|]; [by left; left|by right].
Qed.

Lemma visit_vertex_ok q w todo :
  search_ok q → q_pc q = SVertex → q_todo q = w :: todo →
  ∃ q', visit_vertex q w todo = Some q' ∧ search_ok q' ∧ includes (q_res q') (q_res q) ∧
    q_idx q' = q_idx q ∧ q_pc q' ≠ SEnd.
Proof.
  intros Hq Hpc Htodo. pose proof (s_level _ Hq) as Hl. rewrite Hpc in Hl.
  destruct (l_todo _ Hl w) as (u & Hu & Hwu); [rewrite Htodo; by left|].
  assert (w ≤ num_vertices g)%nat as Hwr by by eapply (c_nbrs _ Hg).
  destruct (lookup_lt_is_Some_2 (q_check q) w) as [c Hc]; [rewrite (s_len _ Hq); lia|].
  unfold visit_vertex. rewrite Hc. cbn [mbind option_bind]. destruct c.
  { eexists. split; [done|]. split_and!; [|apply includes_refl|done|done].
    constructor; cbn; try apply Hq; [by eapply level_skip|done]. }
  pose proof (first_visit q w todo Hl Htodo ltac:(unfold visited; by rewrite Hc)) as Hd.
  rewrite (c_bitmap _ Hg), bool_decide_eq_true_2 by done. cbn [mbind option_bind].
  replace (Z.of_nat (q_dist q) + 1) with (Z.of_nat (S (q_dist q))) by lia.
  assert (∀ r, level_ok (Search (q_start q) (q_idx q) (q_full q) (<[w:=true]> (q_check q)) (q_cur q) todo
    (q_next q ++ [w]) (q_dist q) r (if bool_decide (w ∈ houses g) then SHouse w else SVertex))) as Hlev
    by (intros r; by eapply level_visit).
  assert (∀ v, <[w:=true]> (q_check q) !! v = Some true ↔ v = w ∨ visited q v) as Hins.
  { intros v. apply lookup_insert_true. by eapply lookup_lt_Some. }
  case_bool_decide as Hh; (eexists; split; [done|]); split_and!; try done;
    [|apply UpdateDist_includes|];
    (constructor; unfold visited; cbn [q_idx q_start q_full q_check q_pc q_cur q_todo q_next q_dist q_res];
      try apply Hq; try done; [by rewrite length_insert, (s_len _ Hq)|..]).
  - intros v [= <-]. rewrite Hins. split_and!; [by left|done|by eapply start_not_at].
  - intros v n [->|Hv]%Hins Hvh Hne Hn.
    + rewrite (isdist_fun _ _ _ _ _ Hn Hd). apply UpdateDist_covers.
    + eapply covers_includes; [by eapply (s_res _ Hq)|apply UpdateDist_includes].
  - apply made_of_UpdateDist; [|apply Hq]. apply list_elem_of_lookup in Hh as [j Hj].
    exists (q_idx q), j, (q_start q), w. split_and!; [|apply Hq|done|done].
    intros <-. rewrite (s_idx _ Hq) in Hj. injection Hj as Hj. by apply start_not_at in Hd.
  - intros v n [->|Hv]%Hins Hvh Hne Hn; [done|]. by eapply (s_res _ Hq).
Qed.

(** Expanding the next vertex of the level. *)
Lemma level_expand q v cur a q' :
  level_ok q → q_todo q = [] → q_cur q = v :: cur → adjlist g !! v = Some a →
  q_start q' = q_start q → q_check q' = q_check q → q_cur q' = cur →
  q_next q' = q_next q → q_dist q' = q_dist q → q_todo q' = neighbors_of a → level_ok q'.
Proof.
  intros Hq Ht Hcur Ha Hs Hc Hcu Hn Hd Htd.
  constructor; unfold visited; rewrite ?Hs, ?Hc, ?Hcu, ?Hn, ?Hd, ?Htd; try apply Hq.
  - intros w Hw. apply (l_cur _ Hq). rewrite Hcur. by right.
  - intros w Hw. exists v. rewrite (nbrs_in g _ _ Ha). split; [|done].
    apply (l_cur _ Hq). rewrite Hcur. by left.
  - intros u Hu. destruct (l_expanded _ Hq u Hu) as [Hin|Hall].
    + rewrite Hcur in Hin. apply elem_of_cons in Hin as [->|]; [right|by left].
      intros w Hw. right. by rewrite <- (nbrs_in g _ _ Ha).
    + right. intros w Hw. left. destruct (Hall w Hw) as [|Hin]; [done|]. rewrite Ht in Hin. by apply not_elem_of_nil in Hin.
Qed.

(** The end of a level is the loop test of the next. *)
Lemma level_end q q' :
  level_ok q → q_todo q = [] → q_cur q = [] →
  q_start q' = q_start q → q_check q' = q_check q → q_cur q' = [] → q_todo q' = [] →
  q_next q' = q_next q → q_dist q' = S (q_dist q) → test_ok q'.
Proof.
  intros Hq Ht Hcur Hs Hc Hcu Htd Hn Hd.
  assert (∀ v, isdist nb (q_start q) v (S (q_dist q)) → visited q v) as Hnext.
  { intros v (w & Hw & Hv)%isdist_pred. destruct (l_expanded _ Hq w Hw) as [Hin|Hall].
    - rewrite Hcur in Hin. by apply not_elem_of_nil in Hin.
    - destruct (Hall v Hv) as [|Hin]; [done|]. rewrite Ht in Hin. by apply not_elem_of_nil in Hin. }
  constructor; unfold visited; rewrite ?Hs, ?Hc, ?Hn, ?Hd; try done.
  - intros v. split.
    + intros Hv. destruct (l_visited _ Hq v Hv) as (n & H1 & H2 & _). eauto.
    + intros (n & Hdn & Hle). destruct (decide (n = S (q_dist q))) as [->|]; [by apply Hnext|].
      apply (l_below _ Hq v n Hdn). lia.
  - intros v. split; [apply (l_next _ Hq)|]. intros Hv.
    destruct (l_visited _ Hq v (Hnext v Hv)) as (n & H1 & _ & H2). apply H2. by eapply isdist_fun.
Qed.

(** The loop test enters the level. *)
Lemma test_enter q q' :
  test_ok q → q_start q' = q_start q → q_check q' = q_check q → q_cur q' = q_next q → q_todo q' = [] →
  q_next q' = [] → q_dist q' = q_dist q → level_ok q'.
Proof.
  intros Hq Hs Hc Hcu Htd Hn Hd.
  constructor; unfold visited; rewrite ?Hs, ?Hc, ?Hcu, ?Hn, ?Hd, ?Htd.
  - intros v Hv%(t_visited _ Hq). destruct Hv as (n & Hdn & Hle). exists n. split_and!; [done|lia|lia].
  - intros v n Hdn Hle. apply (t_visited _ Hq). eauto.
  - intros v Hv. by apply not_elem_of_nil in Hv.
  - intros v. apply (t_next _ Hq).
  - intros v Hv. by apply not_elem_of_nil in Hv.
  - intros u Hu. left. by apply (t_next _ Hq).
Qed.

(** At the loop test with nothing left to expand, every reachable vertex is visited. *)
Lemma test_closed q v n :
  test_ok q → q_next q = [] → isdist nb (q_start q) v n → visited q v.
Proof.
  intros Hq Hn Hd. apply (t_visited _ Hq). exists n. split; [done|].
  destruct (decide (n ≤ q_dist q)%nat) as [|Hlt]; [done|].
  destruct (isdist_below _ _ _ _ Hd (q_dist q) ltac:(lia)) as [w Hw].
  apply (t_next _ Hq) in Hw. rewrite Hn in Hw. by apply not_elem_of_nil in Hw.
Qed.

(** What a step of the search does. *)
Definition step_spec (bm : list Z) (q : search) (bm' : list Z) (q' : search) : Prop :=
  (search_ok q' ∧ q_idx q' = q_idx q ∧ bm_ok g bm' ∧ bm_le bm bm' ∧ includes (q_res q') (q_res q)) ∧
  ∀ cov : nat → Prop, bits_ok g cov bm → (∀ n, covers (q_res q') n → cov n) →
    bits_ok g cov bm' ∧ (q_pc q' = SEnd → all_met g cov (q_idx q)).

(** Steps that leave the bitmap and the result alone and do not end the search. *)
Lemma quiet_step_ok bm q q' :
  search_ok q → bm_ok g bm → q_idx q' = q_idx q → q_start q' = q_start q →
  q_full q' = q_full q → q_check q' = q_check q → q_res q' = q_res q →
  match q_pc q' with STest => test_ok q' | SVertex => level_ok q' | SHouse _ | SEnd => False end →
  step_spec bm q bm q'.
Proof.
  intros Hq Hbm Hi Hs Hf Hc Hr Hl.
  split_and!; [|done|done|done|rewrite Hr; apply includes_refl|intros cov Hb _; split; [done|intros He; by rewrite He in Hl]].
  constructor; unfold visited; rewrite ?Hi, ?Hs, ?Hf, ?Hc, ?Hr; try apply Hq.
  - by destruct (q_pc q').
  - intros v Hv. by rewrite Hv in Hl.
Qed.

(** The loop test ends the search. *)
Lemma end_step_ok bm q bits :
  search_ok q → bm_ok g bm → q_pc q = STest → bm !! q_idx q = Some bits →
  bits = q_full q ∨ q_next q = [] → step_spec bm q bm (set_pc q SEnd).
Proof.
  intros Hq Hbm Hpc Hb Hend. pose proof (s_level _ Hq) as Ht. rewrite Hpc in Ht.
  split_and!; [|done|done|done|apply includes_refl|].
  - constructor; cbn; try apply Hq; done.
  - intros cov Hcov Hr. split; [done|]. intros _. destruct Hend as [->|Hn].
    + eapply (full_bits_met g Hmax); [done|apply Hq|done|apply Hq].
    + intros j h h' n Hne Hh Hh' Hd. rewrite (s_idx _ Hq) in Hh. injection Hh as <-.
      apply Hr. cbn. eapply (s_res _ Hq); [by eapply test_closed|by eapply list_elem_of_lookup_2| |done].
      intros ->. apply Hne. eapply (NoDup_lookup (houses g)); [done..|apply Hq].
Qed.

(** Every step of a search that has not ended. *)
Lemma bfs_step_ok bm q :
  search_ok q → bm_ok g bm → q_pc q ≠ SEnd →
  ∃ bm' q', bfs_step bm q = Some (bm', q') ∧ step_spec bm q bm' q'.
Proof.
  intros Hq Hbm Hne. pose proof (s_level _ Hq) as Hl. unfold bfs_step. destruct (q_pc q) as [| |v|] eqn:Hpc; [..|done].
  - assert (q_idx q < MAX_HOUSE)%nat as Hi by (pose proof (lookup_lt_Some _ _ _ (s_idx _ Hq)); lia).
    destruct (bm_lookup g bm (q_idx q) Hbm Hi) as [bits Hb]. rewrite Hb. cbn [mbind option_bind].
    do 2 eexists. split; [done|].
    destruct (Z.eqb_spec bits (q_full q)) as [He|He]; cbn [negb andb]; [by eapply end_step_ok; eauto|].
    destruct (Nat.eqb_spec (length (q_next q)) 0) as [Hn|Hn]; cbn [negb andb].
    + apply length_zero_iff_nil in Hn. by eapply end_step_ok; eauto.
    + apply quiet_step_ok; try done. cbn. by eapply test_enter.
  - destruct (q_todo q) as [|w todo] eqn:Htd; [destruct (q_cur q) as [|v cur] eqn:Hcur|].
    + do 2 eexists. split; [done|]. apply quiet_step_ok; try done. cbn. by eapply level_end.
    + destruct (c_adj _ Hg v) as (a & Ha & _).
      { eapply dist_in_range; [done|]. apply (l_cur _ Hl). rewrite Hcur. by left. }
      rewrite Ha. cbn [mbind option_bind]. do 2 eexists. split; [done|].
      apply quiet_step_ok; try done. cbn. by eapply level_expand.
    + destruct (visit_vertex_ok q w todo Hq Hpc Htd) as (q' & Hv & Hq' & Hinc & Hidx & Hend).
      rewrite Hv. cbn [mbind option_bind]. do 2 eexists. split; [done|]. by split_and!.
  - destruct (s_house _ Hq v Hpc) as (Hv & Hh & Hnv).
    destruct (set_bits_ok g Hg Hnd Hmax bm (q_idx q) v (q_start q) Hbm (s_idx _ Hq) Hh Hnv) as (bm' & -> & Hlen & Hle & Hset).
    cbn [mbind option_bind]. do 2 eexists. split; [done|]. split_and!; [|done|done|done|apply includes_refl|].
    + constructor; cbn; try apply Hq; [|done]. destruct Hl. by constructor.
    + intros cov Hcov Hr. split; [|done]. apply Hset; [|done]. intros n Hd. apply Hr. by eapply (s_res _ Hq).
Qed.

End search.

(** * Termination *)

Fixpoint unvisited (l : list bool) : nat :=
  match l with [] => 0 | b :: l => (if b then 0 else 1) + unvisited l end%nat.

Lemma unvisited_insert l i : l !! i = Some false → unvisited l = S (unvisited (<[i:=true]> l)).
Proof.
  revert i. induction l as [|b l IH]; intros [|i] Hi; simplify_eq/=; [done|].
  rewrite (IH i Hi). lia.
Qed.

(** A vertex costs at most a visit with its locked section, a place in the next level and
    the expansion of its ten neighbours. *)
Definition search_size (q : search) : nat :=
  15 * unvisited (q_check q) + 14 * length (q_next q) + 11 * length (q_cur q) + length (q_todo q) +
  match q_pc q with SEnd => 0 | STest => 1 | SVertex => 2 | SHouse _ => 3 end.

Lemma neighbors_of_le g v a : context_ok g → (v ≤ num_vertices g)%nat → adjlist g !! v = Some a →
  (length (neighbors_of a) ≤ 10)%nat.
Proof.
  intros Hg Hv Ha. destruct (c_adj _ Hg v Hv) as (a' & Ha' & Hl & Hs). simplify_eq.
  unfold neighbors_of. rewrite length_reverse, length_take. unfold MAX_EDGES_PER_VERTEX in *. lia.
Qed.

Lemma bfs_step_size g bm q bm' q' :
  context_ok g → search_ok g q → bfs_step g bm q = Some (bm', q') → (search_size q' < search_size q)%nat.
Proof.
  intros Hg Hq Hs. pose proof (s_level _ _ Hq) as Hl. unfold bfs_step in Hs. unfold search_size.
  destruct (q_pc q) as [| |v|] eqn:Hpc; [..|done].
  - destruct (bm !! q_idx q) as [bits|]; [|done]. cbn [mbind option_bind] in Hs. injection Hs as <- <-.
    case_match eqn:Ht; [|cbn; lia]. apply andb_true_iff in Ht as [_ Ht].
    apply negb_true_iff, Nat.eqb_neq in Ht. cbn [q_check q_next q_cur q_todo q_pc length].
    pose proof (t_cur _ _ Hl) as ->. pose proof (t_todo _ _ Hl) as ->. cbn [length]. lia.
  - destruct (q_todo q) as [|w todo] eqn:Htd; [destruct (q_cur q) as [|v cur] eqn:Hcur|].
    + injection Hs as <- <-. cbn. lia.
    + destruct (adjlist g !! v) as [a|] eqn:Ha; [|done]. cbn [mbind option_bind] in Hs. injection Hs as <- <-.
      cbn [q_check q_next q_cur q_todo q_pc length].
      assert (length (neighbors_of a) ≤ 10)%nat; [|lia]. eapply neighbors_of_le; [done| |done].
      eapply dist_in_range; [done..|]. apply (l_cur _ _ Hl). rewrite Hcur. by left.
    + unfold visit_vertex in Hs. destruct (q_check q !! w) as [[]|] eqn:Hc; [..|done]; cbn [mbind option_bind] in Hs.
      * injection Hs as <- <-. cbn [q_check q_next q_cur q_todo q_pc length]. lia.
      * destruct (house_bitmap g !! w) as [is_house|]; [|done]. cbn [mbind option_bind] in Hs. injection Hs as <- <-.
        cbn [q_check q_next q_cur q_todo q_pc length]. rewrite (unvisited_insert _ _ Hc), length_app. cbn [length].
        destruct is_house; lia.
  - destruct (set_bits g bm (q_idx q) v); [|done]. cbn [mbind option_bind] in Hs. injection Hs as <- <-. cbn. lia.
Qed.

(** * The search behind the interface *)

(** [BFSSingleThread] is called for one thread. *)
#[export] Instance bfs_impl g : SearchImpl search := {
  se_start t h := if (t =? 1)%nat then start_search g h else None;
  se_next c bm q := if (c =? 0)%nat then bfs_step g bm q else None;
  se_result q := match q_pc q with SEnd => Some (q_res q) | _ => None end;
}.

(** A well-formed context with at most 64 different houses. *)
Record houses_ok (g : Context) : Prop := {
  h_ctx : context_ok g;
  h_nodup : NoDup (houses g);
  h_max : (length (houses g) ≤ MAX_HOUSE)%nat;
}.

Lemma se_result_end g q : is_Some (@se_result _ (bfs_impl g) q) ↔ q_pc q = SEnd.
Proof. cbn. destruct (q_pc q); split; intros H; try done; by apply is_Some_None in H. Qed.

Lemma se_next_bfs g c bm q r : @se_next _ (bfs_impl g) c bm q = Some r ↔ c = 0%nat ∧ bfs_step g bm q = Some r.
Proof. cbn [se_next bfs_impl]. destruct (Nat.eqb_spec c 0); naive_solver. Qed.

#[export, refine] Instance bfs_spec g (Hg : houses_ok g) : @SearchSpec g search (bfs_impl g) := {|
  se_allowed t := t = 1%nat;
  se_inv _ := search_ok g;
  se_idx := q_idx;
  se_found := q_res;
|}.
Proof.
  - intros t i h bm -> Hi _. destruct (start_search_ok g (h_ctx _ Hg) (h_nodup _ Hg) (h_max _ Hg) i h Hi) as (q & Hq & Hok & Hidx).
    exists q. split_and!; try done. cbn in *. unfold start_search in Hq.
    destruct (full_bits _ _); [|done]. cbn [mbind option_bind] in Hq. case_match; [|done]. by injection Hq as <-.
  - intros _ q Hq. apply Hq.
  - intros _ q r Hq Hr. cbn in Hr. destruct (q_pc q); congruence.
  - done.
  - intros c bm q bm' q' Hq Hl [_ Hs]%se_next_bfs.
    assert (q_pc q ≠ SEnd) as Hne by (intros He; unfold bfs_step in Hs; by rewrite He in Hs).
    destruct (bfs_step_ok g (h_ctx _ Hg) (h_nodup _ Hg) (h_max _ Hg) bm q Hq Hl Hne) as (bm2 & q2 & Hs2 & Hok).
    rewrite Hs in Hs2. injection Hs2 as <- <-. destruct Hok as [H1 H2].
    split; [done|]. setoid_rewrite se_result_end. done.
  - intros bm q Hq Hl Hr.
    assert (q_pc q ≠ SEnd) as Hne by (intros He; cbn in Hr; by rewrite He in Hr).
    destruct (bfs_step_ok g (h_ctx _ Hg) (h_nodup _ Hg) (h_max _ Hg) bm q Hq Hl Hne) as (bm2 & q2 & Hs2 & _).
    exists 0%nat, bm2, q2. by apply se_next_bfs.
Defined.

#[export, refine] Instance bfs_measure g (Hg : houses_ok g) : @SearchMeasure g search (bfs_impl g) (bfs_spec g Hg) := {|
  se_size q := (0%nat, search_size q);
|}.
Proof.
  intros c bm q bm' q' Hq _ [_ Hs]%se_next_bfs. right. split; [done|]. exact (bfs_step_size g bm q bm' q' (h_ctx _ Hg) Hq Hs).
Defined.
