(* ===== verification/P1Multi.v ===== *)
(** The multi-threaded breadth-first search of src/Project1/src/bfs.cpp
    ([BFSMultiThreadContext], [BFSMultiThread]).

    The threads of one search go through the levels of the graph together: a thread that has
    more than one vertex to expand hands vertices to free threads, and at the end of a level
    all busy threads wait for each other.  The words for the waiting exist twice and are used
    in turn.  One access to what the threads share is one step, and so is a section under a
    mutex; a round of a waiting loop that changes nothing is no step.

    The condition of the waiting loop reads two words of which C++ does not order the reads.
    The model has both orders ([done_first]): the search is right when the done bits are read
    first, and this order is the one its invariant is about. *)

From S2P Require Import Prelude Graph P1Context P1Search P1Bfs.

Local Open Scope Z_scope.

(** * The data *)

(** The arrays of two words, indexed by [dist % 2]. *)
Definition get {A} (d : nat) (p : A * A) : A := if Nat.odd d then p.2 else p.1.
Definition put {A} (d : nat) (x : A) (p : A * A) : A * A := if Nat.odd d then (p.1, x) else (x, p.2).

(** Where a thread is in [BeginWorkAt]: not created; waiting for work; reading its parameter;
    at the loop test; before and in the section that hands out a vertex; going through the
    neighbours; marking one, taking over its distance, setting its bits; at the end of a
    level: setting its done bit, reading the first word of the waiting condition, then the
    second; in the section after it; leaving; returned. *)
Inductive kpc :=
  | KNew | KIdle | KBegin | KTest | KHire | KMake | KVisit | KMark (v : nat) | KResult (v : nat) | KBits (v : nat)
  | KDone | KWait | KRead (x : Z) | KFlag | KFree | KEnd.

#[export] Instance kpc_eq_dec : EqDecision kpc.
Proof. solve_decision. Defined.

(** [WorkParam] (the first three) and the local variables of its thread; [todo] are the
    neighbours still to be visited of the vertex being expanded. *)
Record worker := MkW {
  is_busy : bool;
  start_vertex : nat;
  p_dist : nat;
  cur_vertices : list nat;
  todo : list nat;
  next_vertices : list nat;
  dist : nat;
  k_pc : kpc;
}.

(** [Run]: creating thread [k], creating thread 0, joining thread [k], returned. *)
Inductive rpc := RCreate (k : nat) | RFirst | RJoin (k : nat) | RDone.

(** [BFSMultiThreadContext], without its mutexes and [num_free_threads_], which nobody reads. *)
Record multi := MkM {
  start_house : nat;
  start_house_index : nat;
  full_visit_bits : Z;
  check_map : list bool;
  result : BFSResult;
  worker_done_bits : Z * Z;
  worker_done_full_bits : Z * Z;
  done_bits_flag : bool * bool;
  num_free_workers : Z;
  ks : list worker;
  m_pc : rpc;
}.

(** Assignments to the fields. *)
Definition set_kpc (w : worker) (p : kpc) : worker :=
  MkW (is_busy w) (start_vertex w) (p_dist w) (cur_vertices w) (todo w) (next_vertices w) (dist w) p.
Definition set_lists (w : worker) (cur td nxt : list nat) (p : kpc) : worker :=
  MkW (is_busy w) (start_vertex w) (p_dist w) cur td nxt (dist w) p.
Definition set_worker (m : multi) (i : nat) (w : worker) : multi :=
  MkM (start_house m) (start_house_index m) (full_visit_bits m) (check_map m) (result m) (worker_done_bits m)
    (worker_done_full_bits m) (done_bits_flag m) (num_free_workers m) (<[i:=w]> (ks m)) (m_pc m).
Definition set_check (m : multi) (c : list bool) (r : BFSResult) : multi :=
  MkM (start_house m) (start_house_index m) (full_visit_bits m) c r (worker_done_bits m)
    (worker_done_full_bits m) (done_bits_flag m) (num_free_workers m) (ks m) (m_pc m).
Definition set_sync (m : multi) (dn fu : Z * Z) (fl : bool * bool) (fr : Z) : multi :=
  MkM (start_house m) (start_house_index m) (full_visit_bits m) (check_map m) (result m) dn fu fl fr (ks m) (m_pc m).

Section search.
Context (g : Context) (done_first : bool).

(** * The operations *)

(** The constructor; the threads' parameters are zero.  P1Pooled.v takes [check_map_] from the
    pool before [Run] makes its first step. *)
Definition new_worker : worker := MkW false 0 0 [] [] [] 0 KNew.

Definition new_BFSMultiThreadContext (start num_threads : nat) : option multi :=
  let idx := index_of g start in
  full ← full_bits idx (length (houses g));
  Some (MkM start idx full (replicate (num_vertices g + 1) false) new_BFSResult (0, 0) (0, 0) (false, false) 0
          (replicate num_threads new_worker) (RCreate 1)).

(** The section that hands the last vertex of [cur_vertices] to the first free thread. *)
Definition make_worker (m : multi) (k : nat) (w : worker) : option multi :=
  if num_free_workers m <=? 0 then Some (set_worker m k (set_kpc w KVisit)) else
  last_vertex ← last (cur_vertices w);
  '(i, c) ← list_find (λ w, is_busy w = false) (ks m);
  p ← Util.g_pow2 !! i;
  let d := dist w in
  let fu := worker_done_full_bits m in
  let m1 := set_sync m (worker_done_bits m) (put d (Z.lor (get d fu) p) fu) (done_bits_flag m) (num_free_workers m - 1) in
  let m2 := set_worker m1 k (set_lists w (removelast (cur_vertices w)) (todo w) (next_vertices w) KHire) in
  Some (set_worker m2 i (MkW true last_vertex d (cur_vertices c) (todo c) (next_vertices c) (dist c) (k_pc c))).

(** The section after the waiting loop: the first thread prepares the next level. *)
Definition next_level (m : multi) (k : nat) (w : worker) : multi :=
  let d := dist w in
  let w' := MkW (is_busy w) (start_vertex w) (p_dist w) (cur_vertices w) (todo w) (next_vertices w) (S d) KTest in
  let fu := worker_done_full_bits m in
  set_worker
    (if get d (done_bits_flag m) then m
     else set_sync m (put (S d) 0 (worker_done_bits m)) (put (S d) (get d fu) fu)
            (put (S d) false (put d true (done_bits_flag m))) (num_free_workers m)) k w'.

(** The section in which a thread becomes free. *)
Definition free_worker (m : multi) (k : nat) (w : worker) : option multi :=
  p ← Util.g_pow2 !! k;
  let remover := 2 ^ 64 - 1 - p in
  let fu := worker_done_full_bits m in
  Some (set_worker
    (set_sync m (worker_done_bits m) (Z.land fu.1 remover, Z.land fu.2 remover) (done_bits_flag m) (num_free_workers m + 1))
    k (MkW false (start_vertex w) (p_dist w) (cur_vertices w) (todo w) (next_vertices w) (dist w) KIdle)).

(** [VisitNeighborsOf] and the check of [VisitVertex]. *)
Definition visit_neighbors (m : multi) (k : nat) (w : worker) : option multi :=
  match todo w with
  | v :: td =>
      c ← check_map m !! v;
      Some (set_worker m k (set_lists w (cur_vertices w) td (next_vertices w) (if (c : bool) then KVisit else KMark v)))
  | [] =>
      match cur_vertices w with
      | v :: cur => a ← adjlist g !! v; Some (set_worker m k (set_lists w cur (neighbors_of a) (next_vertices w) KVisit))
      | [] => Some (set_worker m k (set_kpc w KDone))
      end
  end.

(** [VisitVertex] from where the vertex was found unmarked. *)
Definition mark_vertex (m : multi) (k : nat) (w : worker) (v : nat) : option multi :=
  is_house ← house_bitmap g !! v;
  Some (set_worker (set_check m (<[v:=true]> (check_map m)) (result m)) k
    (set_lists w (cur_vertices w) (todo w) (next_vertices w ++ [v]) (if (is_house : bool) then KResult v else KVisit))).

(** The two words of the waiting condition: the one read first, and the condition. *)
Definition first_word (m : multi) (w : worker) : Z :=
  get (dist w) (if done_first then worker_done_bits m else worker_done_full_bits m).

Definition all_done (m : multi) (w : worker) (x : Z) : bool :=
  let dn := if done_first then x else get (dist w) (worker_done_bits m) in
  let fu := if done_first then get (dist w) (worker_done_full_bits m) else x in
  Z.land dn fu =? fu.

(** One step of thread [k], from where it has its two vectors and until it gives them back:
    that is in P1Pooled.v. *)
Definition BeginWorkAt (bm : list Z) (m : multi) (k : nat) (w : worker) : option (list Z * multi) :=
  match k_pc w with
  | KNew | KEnd => None
  | KIdle =>
      if is_busy w then Some (bm, set_worker m k (set_kpc w KBegin))
      else if num_free_workers m =? Z.of_nat (length (ks m)) then Some (bm, set_worker m k (set_kpc w KEnd))
      else None
  | KBegin =>
      Some (bm, set_worker m k (MkW (is_busy w) (start_vertex w) (p_dist w) (cur_vertices w) (todo w)
                                  (next_vertices w ++ [start_vertex w]) (p_dist w) KTest))
  | KTest =>
      visit_bits ← bm !! start_house_index m;
      Some (bm, set_worker m k
        (if negb (visit_bits =? full_visit_bits m) && negb (length (next_vertices w) =? 0)%nat
         then set_lists w (next_vertices w) (todo w) (cur_vertices w) KHire else set_kpc w KFree))
  | KHire =>
      Some (bm, set_worker m k
        (set_kpc w (if (0 <? num_free_workers m) && (1 <? length (cur_vertices w))%nat then KMake else KVisit)))
  | KMake => m' ← make_worker m k w; Some (bm, m')
  | KVisit => m' ← visit_neighbors m k w; Some (bm, m')
  | KMark v => m' ← mark_vertex m k w v; Some (bm, m')
  | KResult v =>
      Some (bm, set_worker (set_check m (check_map m) (UpdateDist (result m) (Z.of_nat (dist w) + 1))) k (set_kpc w (KBits v)))
  | KBits v => bm' ← set_bits g bm (start_house_index m) v; Some (bm', set_worker m k (set_kpc w KVisit))
  | KDone =>
      p ← Util.g_pow2 !! k;
      let dn := worker_done_bits m in
      Some (bm, set_worker
        (set_sync m (put (dist w) (Z.lor (get (dist w) dn) p) dn) (worker_done_full_bits m) (done_bits_flag m) (num_free_workers m))
        k (set_kpc w KWait))
  | KWait => Some (bm, set_worker m k (set_kpc w (KRead (first_word m w))))
  | KRead x =>
      if all_done m w x then Some (bm, set_worker m k (set_kpc w KFlag))
      else if x =? first_word m w then None
      else Some (bm, set_worker m k (set_kpc w (KRead (first_word m w))))
  | KFlag => Some (bm, next_level m k w)
  | KFree => m' ← free_worker m k w; Some (bm, m')
  end.

Definition set_rpc (m : multi) (p : rpc) : multi :=
  MkM (start_house m) (start_house_index m) (full_visit_bits m) (check_map m) (result m) (worker_done_bits m)
    (worker_done_full_bits m) (done_bits_flag m) (num_free_workers m) (ks m) p.

(** One step of [Run], from where the start vertex is marked. *)
Definition Run (m : multi) : option multi :=
  match m_pc m with
  | RCreate k =>
      match ks m !! k with
      | Some w => Some (set_rpc (set_worker m k (set_kpc w KIdle)) (RCreate (S k)))
      | None => Some (set_rpc m RFirst)
      end
  | RFirst =>
      w ← ks m !! 0%nat;
      let m1 := set_sync m (worker_done_bits m) (put 0 1 (worker_done_full_bits m)) (done_bits_flag m)
                  (Z.of_nat (length (ks m)) - 1) in
      Some (set_rpc (set_worker m1 0
        (MkW true (start_house m) 0 (cur_vertices w) (todo w) (next_vertices w) (dist w) KIdle)) (RJoin 0))
  | RJoin k =>
      match ks m !! k with
      | Some w => match k_pc w with KEnd => Some (set_rpc m (RJoin (S k))) | _ => None end
      | None => Some (set_rpc m RDone)
      end
  | RDone => None
  end.

(** The call of [BFSMultiThread]: the constructor and the first statement of [Run]. *)
Definition BFSMultiThread (num_threads start : nat) : option multi :=
  m ← new_BFSMultiThreadContext start num_threads;
  if (start <? length (check_map m))%nat
  then Some (set_check m (<[start:=true]> (check_map m)) (result m)) else None.

(** A step of the search: [c] is 0 for [Run] and [S k] for thread [k]. *)
Definition multi_step (c : nat) (bm : list Z) (m : multi) : option (list Z * multi) :=
  match c with
  | O => m' ← Run m; Some (bm, m')
  | S k => w ← ks m !! k; BeginWorkAt bm m k w
  end.

End search.

(** * The two words *)

Lemma odd_S d : Nat.odd (S d) = negb (Nat.odd d).
Proof. by rewrite Nat.odd_succ, <- Nat.negb_odd. Qed.

Lemma get_put {A} d (x : A) p : get d (put d x p) = x.
Proof. unfold get, put. by destruct (Nat.odd d). Qed.

Lemma get_put_S {A} d (x : A) p : get d (put (S d) x p) = get d p.
Proof. unfold get, put. rewrite odd_S. by destruct (Nat.odd d). Qed.

Lemma get_S_put {A} d (x : A) p : get (S d) (put d x p) = get (S d) p.
Proof. unfold get, put. rewrite odd_S. by destruct (Nat.odd d). Qed.

Lemma get_SS {A} d (p : A * A) : get (S (S d)) p = get d p.
Proof. unfold get. by rewrite !odd_S, negb_involutive. Qed.

Lemma get_land d p z : get d (Z.land p.1 z, Z.land p.2 z) = Z.land (get d p) z.
Proof. unfold get. by destruct (Nat.odd d). Qed.

#[export] Hint Rewrite @get_put @get_put_S @get_S_put @get_SS get_land : words.

(** * The invariant *)

Definition is_waiting (p : kpc) : bool := match p with KWait | KRead _ | KFlag => true | _ => false end.
Definition is_visiting (p : kpc) : bool :=
  match p with KHire | KMake | KVisit | KMark _ | KResult _ | KBits _ => true | _ => false end.

Section invariant.
Context (g : Context).
Hypothesis Hg : context_ok g.
Hypothesis Hnd : NoDup (houses g).
Hypothesis Hmax : (length (houses g) ≤ MAX_HOUSE)%nat.

Notation nb := (nbrs (adjlist g)).

(** The threads work at level [L]; those that have not noticed yet that the last level is
    over are one behind.  [st] says that the word of the search is full, which ends it at
    every loop test to come; only then can there be vertices left over. *)
Section worker.
Context (s0 : nat) (st : Prop) (r : BFSResult) (L : nat) (w : worker).

Notation at_dist v d := (isdist nb s0 v d).

Definition idle_lists : Prop := cur_vertices w = [] ∧ todo w = [].

(** A level at which vertices are expanded exists, and it is not below the one at which the
    thread was handed its vertex. *)
Definition paced : Prop := (p_dist w ≤ dist w ≤ num_vertices g)%nat.

Definition visit_lists : Prop :=
  dist w = L ∧ paced ∧ (∀ v, v ∈ cur_vertices w → at_dist v L) ∧ (∀ v, v ∈ todo w → ∃ u, at_dist u L ∧ v ∈ nb u) ∧
  (∀ v, v ∈ next_vertices w → at_dist v (S L)).

Definition hired : Prop := p_dist w = L ∧ at_dist (start_vertex w) L.

Definition worker_ok : Prop :=
  match k_pc w with
  | KNew => False
  | KIdle => idle_lists ∧ (dist w ≤ L)%nat ∧ (st ∨ next_vertices w = []) ∧ (is_busy w = true → hired)
  | KBegin => is_busy w = true ∧ idle_lists ∧ (dist w ≤ L)%nat ∧ (st ∨ next_vertices w = []) ∧ hired
  | KTest => is_busy w = true ∧ idle_lists ∧ dist w = L ∧ (st ∨ ∀ v, v ∈ next_vertices w → at_dist v L) ∧
      (p_dist w ≤ L)%nat ∧ (st ∨ (p_dist w = L → next_vertices w = [start_vertex w]))
  | KHire => is_busy w = true ∧ visit_lists ∧ todo w = []
  | KMake => is_busy w = true ∧ visit_lists ∧ todo w = [] ∧ (1 < length (cur_vertices w))%nat
  | KVisit => is_busy w = true ∧ visit_lists
  | KMark v => is_busy w = true ∧ visit_lists ∧ at_dist v (S L)
  | KResult v => is_busy w = true ∧ visit_lists ∧ at_dist v (S L) ∧ v ∈ houses g
  | KBits v => is_busy w = true ∧ visit_lists ∧ at_dist v (S L) ∧ v ∈ houses g ∧ covers r (S L)
  | KDone => is_busy w = true ∧ idle_lists ∧ visit_lists
  | KWait | KRead _ | KFlag => is_busy w = true ∧ idle_lists ∧ (dist w = L ∨ S (dist w) = L) ∧ paced ∧
      ∀ v, v ∈ next_vertices w → at_dist v (S (dist w))
  | KFree => is_busy w = true ∧ idle_lists ∧ dist w = L ∧ (st ∨ next_vertices w = [])
  | KEnd => is_busy w = false ∧ todo w = []
  end.

(** Vertices of level [L] that the thread will expand, vertices it will visit, and vertices
    of the next level that it has collected. *)
Definition holds (u : nat) : Prop :=
  match k_pc w with
  | KIdle | KBegin => is_busy w = true ∧ u = start_vertex w
  | KTest => u ∈ next_vertices w
  | KHire | KMake | KVisit | KMark _ | KResult _ | KBits _ => u ∈ cur_vertices w
  | KWait | KRead _ | KFlag => S (dist w) = L ∧ u ∈ next_vertices w
  | _ => False
  end.

Definition plans (x : nat) : Prop := x ∈ todo w ∨ k_pc w = KMark x.

Definition collects (v : nat) : Prop :=
  (is_visiting (k_pc w) || is_waiting (k_pc w) = true ∨ k_pc w = KDone) ∧ dist w = L ∧ v ∈ next_vertices w.

End worker.

Definition stop (bm : list Z) (m : multi) : Prop := bm !! start_house_index m = Some (full_visit_bits m).
Definition visited (m : multi) (v : nat) : Prop := check_map m !! v = Some true.

(** The search: level by level, up to the vertices left over when the word is full. *)
Record bfs_ok (bm : list Z) (L : nat) (m : multi) : Prop := {
  b_idx : houses g !! start_house_index m = Some (start_house m);
  b_full : full_bits (start_house_index m) (length (houses g)) = Some (full_visit_bits m);
  b_len : length (check_map m) = (num_vertices g + 1)%nat;
  b_sound v : visited m v → ∃ n, isdist nb (start_house m) v n ∧ (n ≤ S L)%nat;
  b_below : (∀ v n, isdist nb (start_house m) v n → (n ≤ L)%nat → visited m v) ∨
    (stop bm m ∧ ∀ i w, ks m !! i = Some w → is_visiting (k_pc w) = false);
  b_expanded u : isdist nb (start_house m) u L → stop bm m ∨
    (∃ i w, ks m !! i = Some w ∧ holds L w u) ∨ ∀ x, x ∈ nb u → visited m x ∨ ∃ i w, ks m !! i = Some w ∧ plans w x;
  b_front v : visited m v → isdist nb (start_house m) v (S L) → stop bm m ∨ ∃ i w, ks m !! i = Some w ∧ collects L w v;
  b_res v n : visited m v → v ∈ houses g → v ≠ start_house m → isdist nb (start_house m) v n →
    covers (result m) n ∨ ∃ i w, ks m !! i = Some w ∧ k_pc w = KResult v;
  b_made : made_of (pairdist g) (result m);
  b_workers i w : ks m !! i = Some w → worker_ok (start_house m) (stop bm m) (result m) L w;
}.

(** The threads: who is busy, who has finished the level, who may prepare the next. *)
Record sync_ok (L : nat) (m : multi) : Prop := {
  y_ids : (length (ks m) ≤ MAX_HOUSE)%nat;
  y_full i : Z.testbit (get L (worker_done_full_bits m)) (Z.of_nat i) = true ↔ ∃ w, ks m !! i = Some w ∧ is_busy w = true;
  y_done i : Z.testbit (get L (worker_done_bits m)) (Z.of_nat i) = true ↔
    ∃ w, ks m !! i = Some w ∧ is_waiting (k_pc w) = true ∧ dist w = L;
  y_prev i : Z.testbit (get (S L) (worker_done_full_bits m)) (Z.of_nat i) = true →
    Z.testbit (get (S L) (worker_done_bits m)) (Z.of_nat i) = true;
  y_flag : get L (done_bits_flag m) = false;
  y_lag i w : ks m !! i = Some w → is_waiting (k_pc w) = true → S (dist w) = L → get (S L) (done_bits_flag m) = true;
  y_free : num_free_workers m + Zsum (λ w, Z.b2z (is_busy w)) (ks m) = Z.of_nat (length (ks m));
  y_read i w x j : ks m !! i = Some w → k_pc w = KRead x → dist w = L → Z.testbit x (Z.of_nat j) = true →
    Z.testbit (get L (worker_done_bits m)) (Z.of_nat j) = true;
  y_flagged i w j w' : ks m !! i = Some w → k_pc w = KFlag → dist w = L → ks m !! j = Some w' → is_busy w' = true →
    is_waiting (k_pc w') = true ∧ dist w' = L;
  y_end i w j w' : ks m !! i = Some w → k_pc w = KEnd → ks m !! j = Some w' → is_busy w' = false;
}.


Lemma thread_ok_mono s0 (st st' : Prop) r r' L w :
  (st → st') → includes r' r → worker_ok s0 st r L w → worker_ok s0 st' r' L w.
Proof.
  intros Hst Hr. unfold worker_ok. destruct (k_pc w); intros; destruct_and?; split_and?; try done; try tauto.
  by eapply covers_includes.
Qed.

(** One thread makes a step at level [L]. *)
Section replace.
Context (bm bm' : list Z) (L : nat) (m m' : multi) (i : nat) (w w' : worker).
Context (Hb : bfs_ok bm L m) (Hi : ks m !! i = Some w) (Hks : ks m' = <[i:=w']> (ks m)).
Context (Hstart : start_house m' = start_house m) (Hindex : start_house_index m' = start_house_index m)
  (Hfull : full_visit_bits m' = full_visit_bits m).

Lemma there : ks m' !! i = Some w'.
Proof. rewrite Hks. apply list_lookup_insert_eq. by eapply lookup_lt_Some. Qed.

(** What somebody has, somebody has afterwards. *)
Lemma someone (P Q : worker → Prop) :
  (∃ j x, ks m !! j = Some x ∧ P x) → (∀ x, P x → Q x) → (P w → Q w' ∨ ∃ j x, ks m' !! j = Some x ∧ Q x) →
  ∃ j x, ks m' !! j = Some x ∧ Q x.
Proof.
  intros (j & x & Hj & Hx) HPQ Hw. destruct (decide (j = i)) as [->|Hne].
  - assert (x = w) as -> by congruence. destruct (Hw Hx) as [|]; [|done]. eauto using there.
  - exists j, x. rewrite Hks, list_lookup_insert_ne by done. auto.
Qed.

Lemma bfs_replace :
  length (check_map m') = length (check_map m) →
  (∀ v, visited m v → visited m' v) →
  (∀ v, visited m' v → visited m v ∨
    isdist nb (start_house m) v (S L) ∧ collects L w' v ∧ (v ∈ houses g → k_pc w' = KResult v)) →
  (stop bm m → stop bm' m') →
  includes (result m') (result m) → made_of (pairdist g) (result m') →
  worker_ok (start_house m) (stop bm' m') (result m') L w' →
  (∀ u, holds L w u → stop bm' m' ∨ (∃ j x, ks m' !! j = Some x ∧ holds L x u) ∨ ∀ x, x ∈ nb u → visited m' x ∨ plans w' x) →
  (∀ x, plans w x → visited m' x ∨ plans w' x) →
  (∀ v, collects L w v → collects L w' v) →
  (∀ v, k_pc w = KResult v → k_pc w' = KResult v ∨ covers (result m') (S L)) →
  (is_visiting (k_pc w') = true → is_visiting (k_pc w) = true ∨ ¬ stop bm' m') →
  bfs_ok bm' L m'.
Proof.
  intros Hlen Hv Hv' Hst Hinc Hmade Hok Hh Hp Hc Hr Hvis. pose proof there as Hi'.
  constructor; rewrite ?Hstart, ?Hindex, ?Hfull, ?Hlen; try apply Hb; [..|done|].
  - intros v [Hv1|(Hv1 & _)]%Hv'; [by apply (b_sound _ _ _ Hb)|eauto].
  - destruct (b_below _ _ _ Hb) as [Hall|[Hs Hno]]; [left; eauto|right]. split; [auto|]. rewrite Hks.
    apply (pool_insert (λ _ x, is_visiting (k_pc x) = false)); [done|]. destruct (is_visiting (k_pc w')) eqn:E; [|done].
    destruct (Hvis eq_refl) as [E'|Hn]; [by rewrite (Hno i w Hi) in E'|]. destruct Hn. auto.
  - intros u Hu. destruct (b_expanded _ _ _ Hb u Hu) as [Hs|[(j & x & Hj & Hx)|Hall]]; [auto| |].
    + destruct (decide (j = i)) as [->|Hne].
      * assert (x = w) as -> by congruence. destruct (Hh u Hx) as [|[|Hall]]; [auto..|]. do 2 right.
        intros y Hy. destruct (Hall y Hy) as [|]; eauto.
      * right. left. exists j, x. by rewrite Hks, list_lookup_insert_ne.
    + do 2 right. intros y Hy. destruct (Hall y Hy) as [|(j & x & Hj & Hx)]; [auto|].
      destruct (decide (j = i)) as [->|Hne].
      * assert (x = w) as -> by congruence. destruct (Hp y Hx); eauto.
      * right. exists j, x. by rewrite Hks, list_lookup_insert_ne.
  - intros v [Hv1|(Hd & Hcol & _)]%Hv' Hdv; [|eauto]. destruct (b_front _ _ _ Hb v Hv1 Hdv) as [|Hex]; [auto|right].
    apply (someone _ _ Hex); [done|]. intros Hw. auto.
  - intros v n [Hv1|(Hd & _ & Hres)]%Hv' Hh1 Hne Hdn; [|right; eauto].
    destruct (b_res _ _ _ Hb v n Hv1 Hh1 Hne Hdn) as [Hcov|(j & x & Hj & Hx)]; [left; by eapply covers_includes|].
    destruct (decide (j = i)) as [->|Hne'].
    + assert (x = w) as -> by congruence. destruct (Hr v Hx) as [|Hcov]; [eauto|left].
      pose proof (b_workers _ _ _ Hb i w Hi) as Hw. unfold worker_ok in Hw. rewrite Hx in Hw. destruct_and!.
      by assert (n = S L) as -> by by eapply isdist_fun.
    + right. exists j, x. by rewrite Hks, list_lookup_insert_ne.
  - rewrite Hks. apply (pool_insert (λ _ x, worker_ok _ _ _ _ x)); [|done]. intros j x Hj.
    eapply thread_ok_mono; [done|done|]. by eapply (b_workers _ _ _ Hb).
Qed.

Lemma sync_replace :
  sync_ok L m →
  worker_done_bits m' = worker_done_bits m → worker_done_full_bits m' = worker_done_full_bits m →
  done_bits_flag m' = done_bits_flag m → num_free_workers m' = num_free_workers m →
  is_busy w' = is_busy w →
  (is_waiting (k_pc w') = true ∧ dist w' = L ↔ is_waiting (k_pc w) = true ∧ dist w = L) →
  (is_waiting (k_pc w') = true → S (dist w') = L → is_waiting (k_pc w) = true ∧ S (dist w) = L) →
  (∀ x j, k_pc w' = KRead x → dist w' = L → Z.testbit x (Z.of_nat j) = true →
    Z.testbit (get L (worker_done_bits m)) (Z.of_nat j) = true) →
  (k_pc w' = KFlag → dist w' = L → ∀ j x, ks m !! j = Some x → is_busy x = true → is_waiting (k_pc x) = true ∧ dist x = L) →
  (k_pc w' = KEnd → ∀ j x, ks m !! j = Some x → is_busy x = false) →
  sync_ok L m'.
Proof.
  intros Hy Hdn Hfu Hfl Hfr Hbusy HB HC Hread Hflag Hend. pose proof there as Hi'.
  assert (∀ j, (∃ x, ks m' !! j = Some x ∧ is_busy x = true) ↔ ∃ x, ks m !! j = Some x ∧ is_busy x = true) as Hb1.
  { intros j. rewrite Hks. destruct (decide (j = i)) as [->|Hne]; [|by rewrite list_lookup_insert_ne].
    rewrite Hks in Hi'. rewrite Hi', Hi. split; intros (x & [= <-] & Hx); eexists; (split; [done|]); congruence. }
  assert (∀ j x, ks m' !! j = Some x → ∃ y, ks m !! j = Some y ∧ is_busy x = is_busy y ∧
    (is_waiting (k_pc x) = true ∧ dist x = L ↔ is_waiting (k_pc y) = true ∧ dist y = L)) as Hback.
  { rewrite Hks. intros j x [[<- ->]|[_ Hj]]%lookup_insert_inv; [exists w; auto|exists x; auto]. }
  constructor; rewrite ?Hdn, ?Hfu, ?Hfl, ?Hfr; try apply Hy.
  - rewrite Hks, length_insert. apply Hy.
  - intros j. by rewrite Hb1, (y_full _ _ Hy).
  - intros j. rewrite (y_done _ _ Hy), Hks. destruct (decide (j = i)) as [->|Hne]; [|by rewrite list_lookup_insert_ne].
    rewrite Hks in Hi'. rewrite Hi', Hi. split; intros (x & [= <-] & Hx); eexists; (split; [done|]); tauto.
  - rewrite Hks. intros j x [[<- ->]|[_ Hj]]%lookup_insert_inv H1 H2; [|by eapply (y_lag _ _ Hy)].
    destruct (HC H1 H2). by eapply (y_lag _ _ Hy).
  - rewrite Hks, (Zsum_insert _ _ _ _ _ Hi), Hbusy, length_insert. pose proof (y_free _ _ Hy). lia.
  - rewrite Hks. intros k x z j [[<- ->]|[_ Hj]]%lookup_insert_inv H1 H2; [by apply Hread|by eapply (y_read _ _ Hy)].
  - intros k x j y Hk H1 H2 (y' & Hy' & Hby & Hwy)%Hback H3. apply Hwy. rewrite Hby in H3. rewrite Hks in Hk.
    apply lookup_insert_inv in Hk as [[<- ->]|[_ Hk]]; [by eapply Hflag|exact (y_flagged _ _ Hy k x j y' Hk H1 H2 Hy' H3)].
  - intros k x j y Hk H1 (y' & Hy' & Hby & _)%Hback. rewrite Hby. rewrite Hks in Hk.
    apply lookup_insert_inv in Hk as [[<- ->]|[_ Hk]]; [by eapply Hend|exact (y_end _ _ Hy k x j y' Hk H1 Hy')].
Qed.

End replace.


Definition run_ok (bm : list Z) (L : nat) (m : multi) : Prop := bfs_ok bm L m ∧ sync_ok L m.

(** A step that only moves its thread. *)
Lemma local_ok bm L m k w w' :
  run_ok bm L m → ks m !! k = Some w → is_busy w' = is_busy w →
  worker_ok (start_house m) (stop bm m) (result m) L w' →
  (∀ u, holds L w u → stop bm m ∨ holds L w' u ∨ ∀ x, x ∈ nb u → visited m x ∨ plans w' x) →
  (∀ x, plans w x → visited m x ∨ plans w' x) →
  (∀ v, collects L w v → collects L w' v) →
  (∀ v, k_pc w ≠ KResult v) →
  (is_visiting (k_pc w') = true → is_visiting (k_pc w) = true ∨ ¬ stop bm m) →
  (is_waiting (k_pc w') = true ∧ dist w' = L ↔ is_waiting (k_pc w) = true ∧ dist w = L) →
  (is_waiting (k_pc w') = true → S (dist w') = L → is_waiting (k_pc w) = true ∧ S (dist w) = L) →
  (∀ x j, k_pc w' = KRead x → dist w' = L → Z.testbit x (Z.of_nat j) = true →
    Z.testbit (get L (worker_done_bits m)) (Z.of_nat j) = true) →
  (k_pc w' = KFlag → dist w' = L → ∀ j x, ks m !! j = Some x → is_busy x = true → is_waiting (k_pc x) = true ∧ dist x = L) →
  (k_pc w' = KEnd → ∀ j x, ks m !! j = Some x → is_busy x = false) →
  run_ok bm L (set_worker m k w').
Proof.
  intros [Hb Hy] Hk Hbusy Hok Hh Hp Hc Hr Hvis H1 H2 H3 H4 H5.
  assert (ks (set_worker m k w') !! k = Some w') as Hk' by (apply list_lookup_insert_eq; by eapply lookup_lt_Some).
  split; [|by eapply (sync_replace L m (set_worker m k w') k w w')].
  eapply (bfs_replace bm bm L m (set_worker m k w') k w w'); try done; [by left|apply Hb| |].
  - intros u Hu. destruct (Hh u Hu) as [|[|]]; eauto 6.
  - intros v Hv. by destruct (Hr v).
Qed.

(** Nobody is busy when all are counted free. *)
Lemma none_busy L m j w :
  sync_ok L m → num_free_workers m = Z.of_nat (length (ks m)) → ks m !! j = Some w → is_busy w = false.
Proof.
  intros Hy Hf Hj. pose proof (y_free _ _ Hy) as Hs.
  pose proof (Zsum_member (λ w, Z.b2z (is_busy w)) (ks m) w) as Hm. cbn in Hm.
  destruct (is_busy w) eqn:E; [|done]. cbn in Hm.
  enough (1 ≤ Zsum (λ w, Z.b2z (is_busy w)) (ks m)) by lia.
  apply Hm; [|by eapply list_elem_of_lookup_2]. intros y _. destruct (is_busy y); cbn; lia.
Qed.

(** Takes a thread at a known place apart and moves it. *)
Ltac open_worker w Hpc :=
  let b := fresh "b" in let sv := fresh "sv" in let pd := fresh "pd" in let cu := fresh "cu" in
  let td := fresh "td" in let nx := fresh "nx" in let d := fresh "d" in let p := fresh "p" in
  destruct w as [b sv pd cu td nx d p]; cbn in Hpc; subst p;
  unfold worker_ok, idle_lists, visit_lists, hired in *; cbn in *; destruct_and?; subst.

Ltac local_step Hrun Hk :=
  eapply (local_ok _ _ _ _ _ _ Hrun Hk);
  unfold worker_ok, idle_lists, visit_lists, hired, holds, plans, collects; cbn; try done; try tauto; try set_solver; try lia.

(** Waiting for work and beginning it. *)
Lemma idle_ok bm L m k w :
  run_ok bm L m → ks m !! k = Some w → k_pc w = KIdle →
  (is_busy w = true → run_ok bm L (set_worker m k (set_kpc w KBegin))) ∧
  (num_free_workers m = Z.of_nat (length (ks m)) → run_ok bm L (set_worker m k (set_kpc w KEnd))).
Proof.
  intros Hrun Hk Hpc. pose proof (b_workers _ _ _ (proj1 Hrun) k w Hk) as Hw. open_worker w Hpc. split; intros Hbusy.
  - local_step Hrun Hk.
  - pose proof (λ j w, none_busy L m j w (proj2 Hrun) Hbusy) as Hnb. pose proof (Hnb _ _ Hk) as Hb0. cbn in Hb0. subst.
    local_step Hrun Hk.
Qed.

Lemma begin_ok bm L m k w :
  run_ok bm L m → ks m !! k = Some w → k_pc w = KBegin →
  run_ok bm L (set_worker m k (MkW (is_busy w) (start_vertex w) (p_dist w) (cur_vertices w) (todo w)
                                  (next_vertices w ++ [start_vertex w]) (p_dist w) KTest)).
Proof.
  intros Hrun Hk Hpc. pose proof (b_workers _ _ _ (proj1 Hrun) k w Hk) as Hw. open_worker w Hpc.
  local_step Hrun Hk. destruct_or?; subst; split_and!; auto. right. by intros v ->%list_elem_of_singleton.
Qed.

(** Vertices and levels are bounded by the number of vertices. *)
Lemma vertex_range bm L m v n : bfs_ok bm L m → isdist nb (start_house m) v n → (v ≤ num_vertices g)%nat.
Proof.
  intros Hb [Hw _]. eapply walk_in_range; [done|done|]. apply (c_houses _ Hg). eapply list_elem_of_lookup_2, (b_idx _ _ _ Hb).
Qed.

Lemma level_range bm L m v n : bfs_ok bm L m → isdist nb (start_house m) v n → (n ≤ num_vertices g)%nat.
Proof.
  intros Hb. eapply isdist_bound. intros d u Hw. eapply walk_in_range; [done|done|].
  apply (c_houses _ Hg). eapply list_elem_of_lookup_2, (b_idx _ _ _ Hb).
Qed.

(** The loop test. *)
Lemma test_enter_ok bm L m k w :
  run_ok bm L m → ks m !! k = Some w → k_pc w = KTest → ¬ stop bm m → next_vertices w ≠ [] →
  run_ok bm L (set_worker m k (set_lists w (next_vertices w) (todo w) (cur_vertices w) KHire)).
Proof.
  intros Hrun Hk Hpc Hst Hne. pose proof (b_workers _ _ _ (proj1 Hrun) k w Hk) as Hw. open_worker w Hpc.
  assert (L ≤ num_vertices g)%nat as HL.
  { destruct nx as [|v nx]; [done|]. destruct_or?; [done..|]. apply (level_range bm L m v L (proj1 Hrun)). set_solver. }
  local_step Hrun Hk. split_and!; try done; [by destruct_or?|set_solver..].
Qed.

Lemma test_leave_ok bm L m k w :
  run_ok bm L m → ks m !! k = Some w → k_pc w = KTest → stop bm m ∨ next_vertices w = [] →
  run_ok bm L (set_worker m k (set_kpc w KFree)).
Proof.
  intros Hrun Hk Hpc Hst. pose proof (b_workers _ _ _ (proj1 Hrun) k w Hk) as Hw. open_worker w Hpc. local_step Hrun Hk.
  intros u Hu. destruct Hst as [|Hn]; [by left|]. by rewrite Hn in Hu; apply not_elem_of_nil in Hu.
Qed.

(** Asking for free threads. *)
Lemma hire_ok bm L m k w p :
  run_ok bm L m → ks m !! k = Some w → k_pc w = KHire ∨ k_pc w = KMake →
  p = KVisit ∨ p = KMake ∧ (1 < length (cur_vertices w))%nat →
  run_ok bm L (set_worker m k (set_kpc w p)).
Proof.
  intros Hrun Hk Hpc Hp. pose proof (b_workers _ _ _ (proj1 Hrun) k w Hk) as Hw.
  destruct Hpc as [Hpc|Hpc]; open_worker w Hpc; destruct Hp as [->|[-> Hlen]]; local_step Hrun Hk.
Qed.

(** Going through the neighbours. *)
Lemma visiting_below bm L m k w :
  run_ok bm L m → ks m !! k = Some w → is_visiting (k_pc w) = true →
  ∀ v n, isdist nb (start_house m) v n → (n ≤ L)%nat → visited m v.
Proof.
  intros [Hb _] Hk Hv. destruct (b_below _ _ _ Hb) as [|[_ Hno]]; [done|]. by rewrite (Hno k w Hk) in Hv.
Qed.

Lemma visit_neighbors_ok bm L m k w :
  run_ok bm L m → ks m !! k = Some w → k_pc w = KVisit → ∃ m', visit_neighbors g m k w = Some m' ∧ run_ok bm L m' ∧
    start_house_index m' = start_house_index m ∧ result m' = result m ∧ m_pc m' = m_pc m.
Proof.
  intros Hrun Hk Hpc. pose proof (b_workers _ _ _ (proj1 Hrun) k w Hk) as Hw.
  pose proof (visiting_below _ _ _ _ _ Hrun Hk ltac:(by rewrite Hpc)) as Hbelow.
  unfold visit_neighbors. open_worker w Hpc. destruct td as [|v td].
  - destruct cu as [|v cu].
    + eexists. split; [done|]. split; [|done]. local_step Hrun Hk.
    + destruct (c_adj _ Hg v) as (a & Ha & _); [eapply (vertex_range bm L m v L); [apply Hrun|set_solver]|].
      rewrite Ha. cbn [mbind option_bind]. eexists. split; [done|]. split; [|done].
      pose proof (nbrs_in g _ _ Ha) as Hnb. local_step Hrun Hk.
      * split_and!; try done; [set_solver|]. intros x Hx. exists v. rewrite Hnb. set_solver.
      * intros u [->|Hu]%elem_of_cons; [|by right; left]. do 2 right. intros x Hx. right. left. by rewrite <- Hnb.
  - assert (v ∈ v :: td) as Hin by set_solver.
    match goal with H : ∀ x, x ∈ _ :: td → _ |- _ => destruct (H v Hin) as (u & Hu & Hvu) end.
    assert (v ≤ num_vertices g)%nat as Hr by by eapply (c_nbrs _ Hg).
    destruct (lookup_lt_is_Some_2 (check_map m) v) as [c Hc]; [rewrite (b_len _ _ _ (proj1 Hrun)); lia|].
    rewrite Hc. cbn [mbind option_bind]. eexists. split; [done|]. split; [|done].
    destruct (isdist_step _ _ _ _ _ Hu Hvu) as (n & Hn & Hle). destruct c; local_step Hrun Hk.
    split_and!; try done; [set_solver|]. destruct (decide (n = S L)) as [->|]; [done|].
    pose proof (Hbelow v n Hn ltac:(lia)) as Hvis. unfold visited in Hvis. congruence.
Qed.

Lemma not_start m v d : isdist nb (start_house m) v (S d) → v ≠ start_house m.
Proof. intros Hd ->. pose proof (isdist_fun _ _ _ _ _ Hd (isdist_self _ _)). lia. Qed.

(** Marking a vertex that was found unmarked; another thread may have marked it meanwhile. *)
Lemma mark_vertex_ok bm L m k w v :
  run_ok bm L m → ks m !! k = Some w → k_pc w = KMark v → ∃ m', mark_vertex g m k w v = Some m' ∧ run_ok bm L m' ∧
    start_house_index m' = start_house_index m ∧ result m' = result m ∧ m_pc m' = m_pc m.
Proof.
  intros Hrun Hk Hpc. pose proof (b_workers _ _ _ (proj1 Hrun) k w Hk) as Hw. unfold mark_vertex.
  pose proof (vertex_range bm L m v (S L) (proj1 Hrun)) as Hr. open_worker w Hpc. specialize (Hr ltac:(done)).
  rewrite (c_bitmap _ Hg), bool_decide_eq_true_2 by done. cbn [mbind option_bind]. eexists. split; [done|]. split; [|done].
  set (w' := set_lists _ _ _ _ _). set (m' := set_worker _ _ _).
  assert (∀ x, visited m' x ↔ x = v ∨ visited m x) as Hins.
  { intros x. apply lookup_insert_true. rewrite (b_len _ _ _ (proj1 Hrun)). lia. }
  assert (ks m' !! k = Some w') as Hk' by (apply list_lookup_insert_eq; by eapply lookup_lt_Some).
  assert (is_waiting (k_pc w') = false ∧ is_visiting (k_pc w') = true ∧ k_pc w' ≠ KEnd ∧ k_pc w' ≠ KFlag ∧ (∀ x, k_pc w' ≠ KRead x))
    as (Hwa & Hvi & Hen & Hfl & Hre) by (subst w'; cbn; by case_bool_decide).
  split.
  - eapply (bfs_replace bm bm L m m' k _ w' (proj1 Hrun) Hk); try done.
    + apply length_insert.
    + intros x Hx. apply Hins. by right.
    + intros x [->|Hx]%Hins; [right|by left]. split; [done|]. split; [|intros Hx; subst w'; cbn; by rewrite bool_decide_eq_true_2].
      split; [left; by rewrite Hvi|]. split; [done|]. subst w'. cbn. set_solver.
    + apply Hrun.
    + subst w'. unfold worker_ok, visit_lists. cbn. case_bool_decide; split_and!; try done; set_solver.
    + intros u Hu. right. left. exists k, w'. split; [done|]. subst w'. unfold holds in *. cbn in *. by case_bool_decide.
    + intros x [Hx|Hx]; [right; by left|left]. cbn in Hx. apply Hins. left. congruence.
    + intros x (_ & _ & Hx). split; [left; by rewrite Hvi|]. split; [done|]. subst w'. cbn in *. set_solver.
    + by left.
  - eapply (sync_replace L m m' k _ w' Hk); try done; [apply Hrun|..]; rewrite ?Hwa; try done. by intros ? ? ?%Hre.
Qed.

(** Taking over the distance of a house. *)
Lemma result_ok bm L m k w v :
  run_ok bm L m → ks m !! k = Some w → k_pc w = KResult v →
  run_ok bm L (set_worker (set_check m (check_map m) (UpdateDist (result m) (Z.of_nat (dist w) + 1))) k (set_kpc w (KBits v))).
Proof.
  intros Hrun Hk Hpc. pose proof (b_workers _ _ _ (proj1 Hrun) k w Hk) as Hw. open_worker w Hpc.
  replace (Z.of_nat L + 1) with (Z.of_nat (S L)) by lia. set (m' := set_worker _ _ _). set (w' := set_kpc _ _) in *.
  assert (ks m' !! k = Some w') as Hk' by (apply list_lookup_insert_eq; by eapply lookup_lt_Some).
  split; [|by eapply (sync_replace L m m' k _ w' Hk); try done; apply Hrun].
  eapply (bfs_replace bm bm L m m' k _ w' (proj1 Hrun) Hk); try done.
  - by left.
  - apply UpdateDist_includes.
  - apply made_of_UpdateDist; [|apply Hrun]. destruct (list_elem_of_lookup_1 (houses g) v) as [j Hj]; [done|].
    pose proof (b_idx _ _ _ (proj1 Hrun)) as Hidx.
    exists (start_house_index m), j, (start_house m), v. split_and!; [|done..].
    intros <-. assert (v = start_house m) by congruence. by eapply not_start.
  - unfold worker_ok, visit_lists. cbn. split_and!; try done. apply UpdateDist_covers.
  - intros u Hu. right. left. by exists k, w'.
  - intros x [Hx|Hx]; [by right; left|done].
  - intros x (_ & Hd & Hx). split; [by left|done].
  - intros x _. right. apply UpdateDist_covers.
  - by left.
Qed.

(** Setting the bits of a house. *)
Lemma bits_step_ok bm L m k w v :
  run_ok bm L m → bm_ok g bm → ks m !! k = Some w → k_pc w = KBits v →
  ∃ bm', set_bits g bm (start_house_index m) v = Some bm' ∧ bm_ok g bm' ∧ bm_le bm bm' ∧
    run_ok bm' L (set_worker m k (set_kpc w KVisit)) ∧
    ∀ cov : nat → Prop, bits_ok g cov bm → (∀ n, covers (result m) n → cov n) → bits_ok g cov bm'.
Proof.
  intros Hrun Hbm Hk Hpc. pose proof (b_workers _ _ _ (proj1 Hrun) k w Hk) as Hw. open_worker w Hpc.
  pose proof (b_idx _ _ _ (proj1 Hrun)) as Hidx.
  destruct (set_bits_ok g Hg Hnd Hmax bm (start_house_index m) v (start_house m) Hbm Hidx) as (bm' & Hset & Hbm' & Hle & Hcov);
    [done|by eapply not_start|].
  exists bm'. split; [done|]. split; [done|]. split; [done|]. set (m' := set_worker _ _ _). set (w' := set_kpc _ _) in *.
  assert (ks m' !! k = Some w') as Hk' by (apply list_lookup_insert_eq; by eapply lookup_lt_Some).
  split; [split|].
  - eapply (bfs_replace bm bm' L m m' k _ w' (proj1 Hrun) Hk); try done.
    + by left.
    + intros Hst. eapply (full_stays g Hmax bm bm'); [done|done|apply Hrun|done].
    + apply Hrun.
    + intros u Hu. right. left. by exists k, w'.
    + intros x [Hx|Hx]; [by right; left|done].
    + intros x (_ & Hd & Hx). split; [by left|done].
    + by left.
  - by eapply (sync_replace L m m' k _ w' Hk); try done; apply Hrun.
  - intros cov Hb Hc. apply Hcov; [|done]. intros n Hn. apply Hc. by assert (n = S L) as -> by by eapply isdist_fun.
Qed.


(** Reading the done bits while waiting. *)
Lemma wait_ok bm L m k w :
  run_ok bm L m → ks m !! k = Some w → k_pc w = KWait ∨ (∃ x, k_pc w = KRead x) →
  run_ok bm L (set_worker m k (set_kpc w (KRead (first_word true m w)))).
Proof.
  intros Hrun Hk Hpc. pose proof (b_workers _ _ _ (proj1 Hrun) k w Hk) as Hw.
  destruct Hpc as [Hpc|[x Hpc]]; open_worker w Hpc; local_step Hrun Hk; by intros x' j [= <-] ->.
Qed.

Lemma read_ok bm L m k w x :
  run_ok bm L m → ks m !! k = Some w → k_pc w = KRead x → all_done true m w x = true →
  run_ok bm L (set_worker m k (set_kpc w KFlag)).
Proof.
  intros Hrun Hk Hpc Hall. pose proof (b_workers _ _ _ (proj1 Hrun) k w Hk) as Hw.
  pose proof (y_read _ _ (proj2 Hrun) k w x) as Hread. pose proof Hk as Hk0.
  open_worker w Hpc; local_step Hrun Hk. intros _ -> j y Hj Hbusy. unfold all_done in Hall. cbn in Hall. apply Z.eqb_eq in Hall.
  assert (Z.testbit (get L (worker_done_full_bits m)) (Z.of_nat j) = true) as Hf by (apply (y_full _ _ (proj2 Hrun)); eauto).
  rewrite <- Hall, Z.land_spec, andb_true_iff in Hf.
  assert (Z.testbit (get L (worker_done_bits m)) (Z.of_nat j) = true) as Hd by (apply Hread; tauto).
  apply (y_done _ _ (proj2 Hrun)) in Hd as (z & Hz & Hd). by assert (y = z) as -> by congruence.
Qed.

(** Going on when somebody else has prepared the level. *)
Lemma lagging_ok bm L m k w :
  run_ok bm L m → ks m !! k = Some w → k_pc w = KFlag → dist w ≠ L → run_ok bm L (next_level m k w).
Proof.
  intros Hrun Hk Hpc Hne. pose proof (b_workers _ _ _ (proj1 Hrun) k w Hk) as Hw.
  pose proof (y_lag _ _ (proj2 Hrun) k w Hk ltac:(by rewrite Hpc)) as Hlag. unfold next_level.
  open_worker w Hpc. destruct_or?; [done|]. subst. rewrite get_SS in Hlag. rewrite Hlag by done.
  local_step Hrun Hk. unfold paced in *. cbn in *. split_and!; auto; [lia|right; lia].
Qed.

(** When a thread is about to prepare the next level, the others wait or are free. *)
Lemma all_waiting bm L m k w j x :
  run_ok bm L m → ks m !! k = Some w → k_pc w = KFlag → dist w = L → ks m !! j = Some x →
  (is_busy x = false ∧ k_pc x = KIdle ∧ todo x = [] ∧ cur_vertices x = [] ∧ (stop bm m ∨ next_vertices x = [])) ∨
  (is_busy x = true ∧ is_waiting (k_pc x) = true ∧ dist x = L ∧ todo x = [] ∧ cur_vertices x = [] ∧
    ∀ v, v ∈ next_vertices x → isdist nb (start_house m) v (S L)).
Proof.
  intros Hrun Hk Hpc Hd Hj. pose proof (b_workers _ _ _ (proj1 Hrun) j x Hj) as Hx.
  pose proof (b_workers _ _ _ (proj1 Hrun) k w Hk) as Hw. unfold worker_ok in Hw. rewrite Hpc in Hw. destruct Hw as [Hbw _].
  destruct (is_busy x) eqn:Hb.
  - right. destruct (y_flagged _ _ (proj2 Hrun) k w j x Hk Hpc Hd Hj Hb) as [Hwa Hdx].
    unfold worker_ok, idle_lists in Hx. destruct (k_pc x); try done; destruct_and!; rewrite <- Hdx; auto 10.
  - left. unfold worker_ok, idle_lists in Hx. rewrite Hb in Hx. destruct (k_pc x) eqn:Hp; destruct_and?; try done.
    pose proof (y_end _ _ (proj2 Hrun) j x k w Hj Hp Hk). congruence.
Qed.


(** How the distances of a thread lie to the level. *)
Lemma paces bm L m k w :
  run_ok bm L m → ks m !! k = Some w →
  (k_pc w = KIdle → (dist w ≤ L)%nat) ∧ (is_waiting (k_pc w) = true → (p_dist w ≤ dist w ≤ num_vertices g)%nat).
Proof.
  intros Hrun Hk. pose proof (b_workers _ _ _ (proj1 Hrun) k w Hk) as Hw. unfold worker_ok, paced in Hw.
  destruct (k_pc w); destruct_and?; auto; by split.
Qed.

(** The first thread past the waiting loop takes the search to the next level. *)
Section release.
Context (bm : list Z) (L : nat) (m : multi) (k : nat) (w : worker).
Context (Hrun : run_ok bm L m) (Hk : ks m !! k = Some w) (Hpc : k_pc w = KFlag) (Hd : dist w = L).

Notation w' := (MkW (is_busy w) (start_vertex w) (p_dist w) (cur_vertices w) (todo w) (next_vertices w) (S L) KTest).
Notation fu := (worker_done_full_bits m).
Notation m' := (set_worker (set_sync m (put (S L) 0 (worker_done_bits m)) (put (S L) (get L fu) fu)
  (put (S L) false (put L true (done_bits_flag m))) (num_free_workers m)) k w').

Lemma next_level_release : next_level m k w = m'.
Proof. unfold next_level. by rewrite Hd, (y_flag _ _ (proj2 Hrun)). Qed.

Lemma w_busy : is_busy w = true ∧ todo w = [] ∧ cur_vertices w = [] ∧
  ∀ v, v ∈ next_vertices w → isdist nb (start_house m) v (S L).
Proof.
  destruct (all_waiting _ _ _ _ _ _ _ Hrun Hk Hpc Hd Hk) as [(_ & Hp & _)|H]; [congruence|]. destruct_and!. auto.
Qed.

Lemma released j x : ks m' !! j = Some x →
  (x = w' ∧ j = k) ∨ (j ≠ k ∧ ks m !! j = Some x ∧ is_visiting (k_pc x) = false ∧
    (is_busy x = false ∨ is_waiting (k_pc x) = true ∧ dist x = L)).
Proof.
  cbn. intros [[<- ->]|[Hne Hj]]%lookup_insert_inv; [by left|right].
  destruct (all_waiting _ _ _ _ _ _ _ Hrun Hk Hpc Hd Hj) as [(Hb & Hp & _)|(Hb & Hwa & Hdx & _)]; split_and!; auto.
  - by rewrite Hp.
  - by destruct (k_pc x).
Qed.

Lemma released_visited : ¬ stop bm m → ∀ v, isdist nb (start_house m) v (S L) → visited m v.
Proof.
  intros Hst v (u & Hu & Hv)%isdist_pred. destruct (b_expanded _ _ _ (proj1 Hrun) u Hu) as [|[(j & x & Hj & Hx)|Hall]]; [done|..].
  - unfold holds in Hx. destruct (all_waiting _ _ _ _ _ _ _ Hrun Hk Hpc Hd Hj) as [(Hb & Hp & _)|(Hb & Hwa & Hdx & _)].
    + rewrite Hp in Hx. destruct Hx. congruence.
    + destruct (k_pc x); try done; destruct Hx; lia.
  - destruct (Hall v Hv) as [|(j & x & Hj & Hx)]; [done|].
    destruct (all_waiting _ _ _ _ _ _ _ Hrun Hk Hpc Hd Hj) as [(Hb & Hp & Htd & _)|(Hb & Hwa & Hdx & Htd & _)];
      destruct Hx as [Hx|Hx]; try (rewrite Htd in Hx; by apply not_elem_of_nil in Hx).
    + congruence.
    + by rewrite Hx in Hwa.
Qed.

Lemma release_bfs : bfs_ok bm (S L) m'.
Proof.
  pose proof (proj1 Hrun) as Hb. destruct w_busy as (Hbusy & Htd & Hcu & Hnx).
  assert (ks m' !! k = Some w') as Hk' by (apply list_lookup_insert_eq; by eapply lookup_lt_Some).
  assert (∀ j x, ks m !! j = Some x → j ≠ k → ks m' !! j = Some x) as Hother by (intros; cbn; by rewrite list_lookup_insert_ne).
  constructor; try apply Hb.
  - intros v Hv. destruct (b_sound _ _ _ Hb v Hv) as (n & Hn & Hle). exists n. split; [done|lia].
  - destruct (decide (bm !! start_house_index m = Some (full_visit_bits m))) as [Hst|Hst]; [right|left].
    + split; [done|]. intros j x [[-> _]|(_ & _ & Hv & _)]%released; done.
    + intros v n Hn Hle. destruct (decide (n = S L)) as [->|]; [by apply released_visited|].
      destruct (b_below _ _ _ Hb) as [Hall|[]]; [|done]. apply (Hall v n Hn). lia.
  - intros u Hu. destruct (decide (bm !! start_house_index m = Some (full_visit_bits m))) as [Hst|Hst]; [by left|right; left].
    destruct (b_front _ _ _ Hb u) as [|(j & x & Hj & Hx)]; [by apply released_visited|done|done|].
    destruct (decide (j = k)) as [->|Hne].
    { assert (x = w) as -> by congruence. exists k, w'. split; [done|]. apply Hx. }
    exists j, x. split; [by apply Hother|]. destruct Hx as (Hp & Hdx & Hin). unfold holds.
    destruct (all_waiting _ _ _ _ _ _ _ Hrun Hk Hpc Hd Hj) as [(Hbx & Hp' & _)|(Hbx & Hwa & _)].
    + rewrite Hp' in Hp. by destruct Hp.
    + destruct (k_pc x); try done; by rewrite Hdx.
  - intros v Hv Hdv. destruct (b_sound _ _ _ Hb v Hv) as (n & Hn & Hle). pose proof (isdist_fun _ _ _ _ _ Hdv Hn). lia.
  - intros v n Hv Hh Hne Hn. destruct (b_res _ _ _ Hb v n Hv Hh Hne Hn) as [|(j & x & Hj & Hx)]; [by left|right].
    exists j, x. split; [|done]. apply Hother; [done|]. congruence.
  - intros j x [[-> _]|(Hne & Hj & _)]%released.
    + destruct (paces _ _ _ _ _ Hrun Hk) as [_ Hpw]. rewrite Hpc, Hd in Hpw. specialize (Hpw eq_refl).
      unfold worker_ok, idle_lists. cbn. split_and!; auto; [lia|right; lia].
    + destruct (paces _ _ _ _ _ Hrun Hj) as [Hp1 Hp2]. destruct (all_waiting _ _ _ _ _ _ _ Hrun Hk Hpc Hd Hj) as [(Hbx & Hp & H1 & H2 & H3)|(Hbx & Hwa & Hdx & H1 & H2 & H3)];
        unfold worker_ok, idle_lists.
      * specialize (Hp1 Hp). rewrite Hp, Hbx. split_and!; auto; lia.
      * destruct (k_pc x); try done; (split_and!; [done|done|done|right; lia|by apply Hp2|by rewrite Hdx]).
Qed.

Lemma release_sync : sync_ok (S L) m'.
Proof.
  pose proof (proj2 Hrun) as Hy. destruct w_busy as (Hbusy & _).
  assert (∀ j, (∃ x, ks m' !! j = Some x ∧ is_busy x = true) ↔ ∃ x, ks m !! j = Some x ∧ is_busy x = true) as Hb1.
  { intros j. cbn. destruct (decide (j = k)) as [->|Hne]; [|by rewrite list_lookup_insert_ne].
    rewrite list_lookup_insert_eq, Hk by by eapply lookup_lt_Some. split; intros (x & [= <-] & Hx); eauto. }
  assert (∀ j x, ks m' !! j = Some x → is_waiting (k_pc x) = true → dist x = L) as Hlag.
  { intros j x [[-> _]|(_ & Hj & _ & [Hx|Hx])]%released Hwa; [done| |tauto].
    destruct (all_waiting _ _ _ _ _ _ _ Hrun Hk Hpc Hd Hj) as [(_ & Hp & _)|(_ & _ & ? & _)]; [by rewrite Hp in Hwa|done]. }
  constructor; cbn [ks set_worker set_sync worker_done_bits worker_done_full_bits done_bits_flag num_free_workers];
    autorewrite with words.
  - rewrite length_insert. apply Hy.
  - intros j. by rewrite (y_full _ _ Hy), <- Hb1.
  - intros j. rewrite Z.bits_0. split; [done|]. intros (x & Hj & Hwa & Hdx). specialize (Hlag j x Hj Hwa). lia.
  - intros j (x & Hj & Hbx)%(y_full _ _ Hy). apply (y_done _ _ Hy). exists x. split; [done|].
    by destruct (y_flagged _ _ Hy k w j x Hk Hpc Hd Hj Hbx).
  - done.
  - done.
  - rewrite (Zsum_insert _ _ _ _ _ Hk), length_insert. cbn. pose proof (y_free _ _ Hy). lia.
  - intros j x z l Hj Hp Hdx. specialize (Hlag j x Hj ltac:(by rewrite Hp)). lia.
  - intros j x l y Hj Hp Hdx. specialize (Hlag j x Hj ltac:(by rewrite Hp)). lia.
  - intros j x l y [[-> _]|(_ & Hj & _)]%released Hp; [done|].
    pose proof (y_end _ _ Hy j x k w Hj Hp Hk). congruence.
Qed.

Lemma release_ok : run_ok bm (S L) (next_level m k w).
Proof. rewrite next_level_release. split; [apply release_bfs|apply release_sync]. Qed.

End release.


(** While a thread works at the level, nobody prepares the next level and nobody returns. *)
Lemma working L m k w :
  sync_ok L m → ks m !! k = Some w → is_busy w = true → is_waiting (k_pc w) = false →
  ∀ j x, ks m !! j = Some x → (k_pc x = KFlag → dist x ≠ L) ∧ k_pc x ≠ KEnd.
Proof.
  intros Hy Hk Hb Hw j x Hj. split.
  - intros Hp Hd. destruct (y_flagged _ _ Hy j x k w Hj Hp Hd Hk Hb). congruence.
  - intros Hp. pose proof (y_end _ _ Hy j x k w Hj Hp Hk). congruence.
Qed.

Lemma remover_testbit k j :
  (k < 64)%nat → (j < 64)%nat → Z.testbit (2 ^ 64 - 1 - 2 ^ Z.of_nat k) (Z.of_nat j) = bool_decide (j ≠ k).
Proof.
  intros Hk Hj. change (2 ^ 64 - 1) with (Z.ones 64). rewrite Z.sub_nocarry_ldiff.
  - rewrite Z.ldiff_spec, Z.ones_spec_low, Z.pow2_bits_eqb by lia. cbn. case_bool_decide as H.
    + apply negb_true_iff, Z.eqb_neq. lia.
    + apply negb_false_iff, Z.eqb_eq. lia.
  - apply Z.bits_inj'. intros z Hz. rewrite Z.ldiff_spec, Z.pow2_bits_eqb, Z.bits_0 by lia.
    destruct (Z.eqb_spec (Z.of_nat k) z) as [<-|]; [|done]. by rewrite Z.ones_spec_low by lia.
Qed.

Lemma lor_pow2_testbit x k j : Z.testbit (Z.lor x (2 ^ Z.of_nat k)) (Z.of_nat j) = true ↔ Z.testbit x (Z.of_nat j) = true ∨ j = k.
Proof. rewrite Z.lor_spec, orb_true_iff, Z.pow2_bits_eqb, Z.eqb_eq by lia. split; intros [|]; auto with lia. Qed.

Lemma pow2_worker L m k w : sync_ok L m → ks m !! k = Some w → (k < 64)%nat ∧ Util.g_pow2 !! k = Some (2 ^ Z.of_nat k).
Proof.
  intros Hy Hk%lookup_lt_Some. pose proof (y_ids _ _ Hy) as H. unfold MAX_HOUSE in H. split; [lia|]. apply Util.g_pow2_lookup. unfold MAX_HOUSE. lia.
Qed.

(** Setting the done bit. *)
Lemma done_ok bm L m k w :
  run_ok bm L m → ks m !! k = Some w → k_pc w = KDone →
  run_ok bm L (set_worker (set_sync m (put (dist w) (Z.lor (get (dist w) (worker_done_bits m)) (2 ^ Z.of_nat k)) (worker_done_bits m))
    (worker_done_full_bits m) (done_bits_flag m) (num_free_workers m)) k (set_kpc w KWait)).
Proof.
  intros [Hb Hy] Hk Hpc. pose proof (b_workers _ _ _ Hb k w Hk) as Hw. pose proof (working L m k w Hy Hk) as Hno.
  open_worker w Hpc. specialize (Hno eq_refl eq_refl). set (w' := set_kpc _ _). set (m' := set_worker _ _ _).
  assert (ks m' !! k = Some w') as Hk' by (apply list_lookup_insert_eq; by eapply lookup_lt_Some).
  split.
  - eapply (bfs_replace bm bm L m m' k _ w' Hb Hk); try done; [by left|apply Hb| | |].
    + by unfold worker_ok, idle_lists; cbn; auto.
    + intros x [Hx|Hx]; [by apply not_elem_of_nil in Hx|done].
    + intros x (_ & Hd & Hx). split; [by left|done].
  - constructor; cbn [m' ks set_worker set_sync worker_done_bits worker_done_full_bits done_bits_flag num_free_workers];
      autorewrite with words; try apply Hy.
    + rewrite length_insert. apply Hy.
    + intros j. rewrite (y_full _ _ Hy). destruct (decide (j = k)) as [->|Hne]; [|by rewrite list_lookup_insert_ne].
      fold m' in Hk'. cbn in Hk'. rewrite Hk', Hk. split; intros (x & [= <-] & Hx); eauto.
    + intros j. rewrite lor_pow2_testbit, (y_done _ _ Hy). cbn in Hk'. destruct (decide (j = k)) as [->|Hne].
      * rewrite Hk'. split; [eauto|]. by right.
      * rewrite list_lookup_insert_ne by done. split; [intros [|]; done|by left].
    + intros j x [[<- ->]|[_ Hj]]%lookup_insert_inv; [cbn; lia|by apply (y_lag _ _ Hy j)].
    + rewrite (Zsum_insert _ _ _ _ _ Hk), length_insert. cbn. pose proof (y_free _ _ Hy). lia.
    + intros j x z l [[<- ->]|[_ Hj]]%lookup_insert_inv Hp1 Hp2 Hp3; [done|]. apply lor_pow2_testbit. left. by eapply (y_read _ _ Hy).
    + intros j x l y [[<- ->]|[_ Hj]]%lookup_insert_inv Hp1 Hp2; [done|]. by destruct (Hno j x Hj) as [[] _].
    + intros j x l y [[<- ->]|[_ Hj]]%lookup_insert_inv Hp1; [done|]. by destruct (Hno j x Hj) as [_ []].
Qed.

(** Becoming free. *)
Lemma free_ok bm L m k w :
  run_ok bm L m → ks m !! k = Some w → k_pc w = KFree → ∃ m', free_worker m k w = Some m' ∧ run_ok bm L m' ∧
    start_house_index m' = start_house_index m ∧ result m' = result m ∧ m_pc m' = m_pc m.
Proof.
  intros [Hb Hy] Hk Hpc. pose proof (b_workers _ _ _ Hb k w Hk) as Hw. pose proof (working L m k w Hy Hk) as Hno.
  destruct (pow2_worker L m k w Hy Hk) as [Hk64 Hpow]. unfold free_worker. rewrite Hpow. cbn [mbind option_bind].
  open_worker w Hpc. specialize (Hno eq_refl eq_refl). eexists. split; [done|]. split; [|done].
  set (w' := MkW _ _ _ _ _ _ _ _). set (m' := set_worker _ _ _).
  assert (ks m' !! k = Some w') as Hk' by (apply list_lookup_insert_eq; by eapply lookup_lt_Some).
  split.
  - eapply (bfs_replace bm bm L m m' k _ w' Hb Hk); try done; [by left|apply Hb| |].
    + intros x [Hx|Hx]; [by apply not_elem_of_nil in Hx|done].
    + by intros v [[|] _].
  - constructor; unfold m'; cbn [ks set_worker set_sync worker_done_bits worker_done_full_bits done_bits_flag num_free_workers];
      rewrite ?get_land; try apply Hy.
    + rewrite length_insert. apply Hy.
    + intros j. rewrite Z.land_spec, andb_true_iff, (y_full _ _ Hy). cbn in Hk'. destruct (decide (j = k)) as [->|Hne].
      * rewrite Hk', remover_testbit, bool_decide_eq_false_2 by (done || tauto). split; [by intros []|by intros (x & [= <-] & Hx)].
      * rewrite list_lookup_insert_ne by done. split; [tauto|]. intros Hx. split; [done|]. destruct Hx as (x & Hx & _).
        destruct (pow2_worker L m j x Hy Hx) as [Hj _]. rewrite remover_testbit by done. by apply bool_decide_eq_true.
    + intros j. rewrite (y_done _ _ Hy). cbn in Hk'. destruct (decide (j = k)) as [->|Hne]; [|by rewrite list_lookup_insert_ne].
      rewrite Hk', Hk. split; intros (x & [= <-] & Hx & _); done.
    + intros j. rewrite Z.land_spec, andb_true_iff. intros [Hj _]. by apply (y_prev _ _ Hy).
    + intros j x [[<- ->]|[_ Hj]]%lookup_insert_inv; [done|by apply (y_lag _ _ Hy j)].
    + rewrite (Zsum_insert _ _ _ _ _ Hk), length_insert. cbn. pose proof (y_free _ _ Hy). lia.
    + intros j x z l [[<- ->]|[_ Hj]]%lookup_insert_inv; [done|by apply (y_read _ _ Hy j)].
    + intros j x l y [[<- ->]|[_ Hj]]%lookup_insert_inv Hp1 Hp2; [done|]. by destruct (Hno j x Hj) as [[] _].
    + intros j x l y [[<- ->]|[_ Hj]]%lookup_insert_inv Hp1; [done|]. by destruct (Hno j x Hj) as [_ []].
Qed.


(** There is a free thread when the counter says so. *)
Lemma free_found L m :
  sync_ok L m → 0 < num_free_workers m → ∃ i c, list_find (λ w, is_busy w = false) (ks m) = Some (i, c).
Proof.
  intros Hy Hf. destruct (list_find (λ w, is_busy w = false) (ks m)) as [[i c]|] eqn:He; [eauto|].
  apply list_find_None in He. rewrite Forall_forall in He. pose proof (y_free _ _ Hy) as Hs.
  rewrite (Zsum_const _ _ 1) in Hs; [lia|]. intros x Hx. specialize (He x Hx). by destruct (is_busy x).
Qed.

Section make.
Context (bm : list Z) (L : nat) (m : multi) (k : nat) (w : worker) (i : nat) (c : worker) (v : nat).
Context (Hrun : run_ok bm L m) (Hk : ks m !! k = Some w) (Hpc : k_pc w = KMake).
Context (Hi : ks m !! i = Some c) (Hc : is_busy c = false) (Hv : last (cur_vertices w) = Some v).

Notation c' := (MkW true v L (cur_vertices c) (todo c) (next_vertices c) (dist c) (k_pc c)).
Notation w' := (set_lists w (removelast (cur_vertices w)) (todo w) (next_vertices w) KHire).
Notation fu := (worker_done_full_bits m).
Notation m1 := (set_sync m (worker_done_bits m) (put L (Z.lor (get L fu) (2 ^ Z.of_nat i)) fu) (done_bits_flag m) (num_free_workers m - 1)).
Notation m' := (set_worker (set_worker m1 k w') i c').

Lemma make_facts : is_busy w = true ∧ dist w = L ∧ k_pc c = KIdle ∧ i ≠ k ∧ isdist nb (start_house m) v L ∧
  ∀ u, u ∈ cur_vertices w ↔ u = v ∨ u ∈ removelast (cur_vertices w).
Proof.
  pose proof (b_workers _ _ _ (proj1 Hrun) k w Hk) as Hw. pose proof (b_workers _ _ _ (proj1 Hrun) i c Hi) as Hwc.
  unfold worker_ok, visit_lists in Hw. rewrite Hpc in Hw. destruct_and!.
  assert (∀ u, u ∈ cur_vertices w ↔ u = v ∨ u ∈ removelast (cur_vertices w)) as Hu.
  { intros u. apply last_Some in Hv as [l Hl]. rewrite Hl, removelast_last. set_solver. }
  split_and!; try done.
  - unfold worker_ok in Hwc. rewrite Hc in Hwc. destruct (k_pc c) eqn:Hp; destruct_and?; try done.
    by destruct (working L m k w (proj2 Hrun) Hk ltac:(done) ltac:(by rewrite Hpc) i c Hi) as [_ []].
  - congruence.
  - set_solver.
Qed.

Lemma make_bfs : bfs_ok bm L m'.
Proof.
  destruct make_facts as (Hbw & Hd & Hpi & Hne & Hdist & Hcur). destruct Hrun as [Hb Hy].
  pose proof (b_workers _ _ _ Hb k w Hk) as Hw. pose proof (b_workers _ _ _ Hb i c Hi) as Hwc.
  unfold worker_ok in Hw, Hwc. rewrite Hpc in Hw. rewrite Hpi in Hwc. destruct_and!.
  assert (bfs_ok bm L (set_worker m i c')) as Hb1.
  { eapply (bfs_replace bm bm L m (set_worker m i c') i c c' Hb Hi); try done; [by left|apply Hb|..].
    - unfold worker_ok. cbn. rewrite Hpi. by split_and!.
    - intros u Hu. unfold holds in Hu. rewrite Hpi in Hu. destruct Hu. congruence.
    - intros x Hx. by right.
    - intros x Hx. by left.
    - cbn. by rewrite Hpi. }
  assert (ks (set_worker m i c') !! i = Some c') as Hi' by (apply list_lookup_insert_eq; by eapply lookup_lt_Some).
  assert (ks (set_worker m i c') !! k = Some w) as Hk1 by (cbn; by rewrite list_lookup_insert_ne).
  assert (ks m' !! i = Some c') as Hi2 by (apply list_lookup_insert_eq; cbn; rewrite length_insert; by eapply lookup_lt_Some).
  assert (ks m' !! k = Some w') as Hk2
    by (cbn; rewrite list_lookup_insert_ne by done; apply list_lookup_insert_eq; by eapply lookup_lt_Some).
  eapply (bfs_replace bm bm L (set_worker m i c') m' k w w' Hb1 Hk1); try done; cbn.
  - by rewrite list_insert_insert_ne.
  - by left.
  - apply Hb.
  - unfold worker_ok, visit_lists in *. cbn in *. destruct_and!. split_and!; try done. intros u Hu. set_solver.
  - intros u Hu. right. left. unfold holds in Hu. rewrite Hpc in Hu. apply Hcur in Hu as [->|Hu].
    + exists i, c'. split; [done|]. unfold holds. cbn. by rewrite Hpi.
    + exists k, w'. split; [done|]. by unfold holds; cbn.
  - intros x [Hx|Hx]; [right; by left|congruence].
  - intros x (_ & Hdx & Hx). by split; [left|].
  - by rewrite Hpc.
  - rewrite Hpc. by left.
Qed.

Lemma make_sync : sync_ok L m'.
Proof.
  destruct make_facts as (Hbw & Hd & Hpi & Hne & _). destruct Hrun as [Hb Hy].
  pose proof (working L m k w Hy Hk Hbw ltac:(by rewrite Hpc)) as Hno.
  assert (∀ j x, ks m' !! j = Some x → (j = i ∧ x = c') ∨ (j = k ∧ x = w') ∨ (j ≠ i ∧ j ≠ k ∧ ks m !! j = Some x)) as Hin.
  { cbn. intros j x [[<- ->]|[Hji [[<- ->]|[Hjk Hj]]%lookup_insert_inv]]%lookup_insert_inv; auto 6. }
  assert (ks m' !! i = Some c') as Hi' by (apply list_lookup_insert_eq; cbn; rewrite length_insert; by eapply lookup_lt_Some).
  assert (ks m' !! k = Some w') as Hk'
    by (cbn; rewrite list_lookup_insert_ne by done; apply list_lookup_insert_eq; by eapply lookup_lt_Some).
  assert (∀ j, j ≠ i → j ≠ k → ks m' !! j = ks m !! j) as Hsame by (intros; cbn; by rewrite !list_lookup_insert_ne).
  constructor; cbn [set_worker set_sync worker_done_bits worker_done_full_bits done_bits_flag num_free_workers];
    autorewrite with words; try apply Hy.
  - cbn. rewrite !length_insert. apply Hy.
  - intros j. rewrite lor_pow2_testbit, (y_full _ _ Hy). destruct (decide (j = i)) as [->|H1]; [split; [eauto|by right]|].
    destruct (decide (j = k)) as [->|H2]; [rewrite Hk', Hk|rewrite Hsame by done; naive_solver].
    split; [|left; eauto]. intros _. eauto.
  - intros j. rewrite (y_done _ _ Hy). destruct (decide (j = i)) as [->|H1].
    { rewrite Hi, Hi'. split; intros (x & [= <-] & Hx & _); cbn in Hx; by rewrite Hpi in Hx. }
    destruct (decide (j = k)) as [->|H2]; [rewrite Hk', Hk|by rewrite Hsame].
    split; intros (x & [= <-] & Hx & _); [by rewrite Hpc in Hx|done].
  - intros j x [[-> ->]|[[-> ->]|(_ & _ & Hj)]]%Hin; cbn; [by rewrite Hpi|done|by apply (y_lag _ _ Hy j)].
  - cbn. rewrite (Zsum_insert _ _ _ c), (Zsum_insert _ _ _ w), !length_insert by (done || by rewrite list_lookup_insert_ne).
    cbn. rewrite Hc. pose proof (y_free _ _ Hy). cbn. lia.
  - intros j x z l [[-> ->]|[[-> ->]|(_ & _ & Hj)]]%Hin; cbn; [by rewrite Hpi|done|by apply (y_read _ _ Hy j)].
  - intros j x l y [[-> ->]|[[-> ->]|(_ & _ & Hj)]]%Hin Hp1 Hp2; cbn in *; [congruence|done|]. by destruct (Hno j x Hj) as [[] _].
  - intros j x l y [[-> ->]|[[-> ->]|(_ & _ & Hj)]]%Hin Hp1; cbn in *; [congruence|done|]. by destruct (Hno j x Hj) as [_ []].
Qed.

End make.

(** Handing out a vertex. *)
Lemma make_worker_ok bm L m k w :
  run_ok bm L m → ks m !! k = Some w → k_pc w = KMake → ∃ m', make_worker m k w = Some m' ∧ run_ok bm L m' ∧
    start_house_index m' = start_house_index m ∧ result m' = result m ∧ m_pc m' = m_pc m.
Proof.
  intros Hrun Hk Hpc. unfold make_worker. destruct (Z.leb_spec (num_free_workers m) 0) as [Hle|Hgt].
  { eexists. split; [done|]. split; [|done]. apply hire_ok; auto. }
  pose proof (b_workers _ _ _ (proj1 Hrun) k w Hk) as Hw. unfold worker_ok, visit_lists in Hw. rewrite Hpc in Hw. destruct_and!.
  destruct (last (cur_vertices w)) as [v|] eqn:Hv; [|apply last_None in Hv; rewrite Hv in *; cbn in *; lia].
  destruct (free_found L m (proj2 Hrun) Hgt) as (i & c & Hf). rewrite Hf. cbn [mbind option_bind].
  apply list_find_Some in Hf as (Hi & Hc & _). destruct (pow2_worker L m i c (proj2 Hrun) Hi) as [_ ->]. cbn [mbind option_bind].
  eexists. split; [done|]. split; [|done].
  match goal with H : dist w = L |- _ => rewrite H end. split; [by eapply make_bfs|by eapply make_sync].
Qed.


(** * Steps and the end of the search *)

Definition step_ok (bm : list Z) (m : multi) (bm' : list Z) (m' : multi) : Prop :=
  (start_house_index m' = start_house_index m ∧ m_pc m' = m_pc m ∧ bm_ok g bm' ∧ bm_le bm bm' ∧ includes (result m') (result m)) ∧
  ∀ cov : nat → Prop, bits_ok g cov bm → (∀ n, covers (result m') n → cov n) → bits_ok g cov bm'.

Lemma step_quiet bm m m' :
  bm_ok g bm → start_house_index m' = start_house_index m ∧ result m' = result m ∧ m_pc m' = m_pc m → step_ok bm m bm m'.
Proof. intros Hbm (H1 & H2 & H3). split; [|done]. rewrite H2. split_and!; try done. Qed.

Lemma next_level_keeps m k w : let m' := next_level m k w in
  start_house_index m' = start_house_index m ∧ result m' = result m ∧ m_pc m' = m_pc m.
Proof. unfold next_level. by destruct (get _ _). Qed.

Lemma thread_step_ok bm L m k w bm' m' :
  run_ok bm L m → bm_ok g bm → ks m !! k = Some w → BeginWorkAt g true bm m k w = Some (bm', m') →
  (∃ L', run_ok bm' L' m') ∧ step_ok bm m bm' m'.
Proof.
  intros Hrun Hbm Hk. unfold BeginWorkAt. destruct (k_pc w) as [| | | | | | |v|v|v| | |x| | |] eqn:Hpc; try done; intros Hs.
  - destruct (is_busy w) eqn:Hb; [|case_match eqn:Hf; [|done]]; injection Hs as <- <-;
      (split; [exists L; apply (idle_ok bm L m k w Hrun Hk Hpc)|by apply step_quiet]); [done|lia].
  - injection Hs as <- <-. split; [exists L; by apply begin_ok|by apply step_quiet].
  - destruct (bm !! start_house_index m) as [bits|] eqn:Hbits; [|done]. cbn [mbind option_bind] in Hs. injection Hs as <- <-.
    split; [exists L|by apply step_quiet].
    destruct (Z.eqb_spec bits (full_visit_bits m)) as [He|He]; cbn [negb andb].
    { apply test_leave_ok; try done. left. unfold stop. congruence. }
    destruct (Nat.eqb_spec (length (next_vertices w)) 0) as [Hn|Hn]; cbn [negb].
    + apply test_leave_ok; try done. right. by apply length_zero_iff_nil.
    + apply test_enter_ok; try done; [unfold stop; congruence|]. intros Hnil. by rewrite Hnil in Hn.
  - injection Hs as <- <-. split; [exists L|by apply step_quiet]. apply hire_ok; [done|done|by left|].
    case_match eqn:Hf; [|by left]. right. split; [done|]. apply andb_true_iff in Hf as [_ Hf]. by apply Nat.ltb_lt.
  - destruct (make_worker_ok bm L m k w Hrun Hk Hpc) as (m2 & Hm & Hok & Hq). rewrite Hm in Hs. injection Hs as <- <-.
    split; [eauto|by apply step_quiet].
  - destruct (visit_neighbors_ok bm L m k w Hrun Hk Hpc) as (m2 & Hm & Hok & Hq). rewrite Hm in Hs. injection Hs as <- <-.
    split; [eauto|by apply step_quiet].
  - destruct (mark_vertex_ok bm L m k w v Hrun Hk Hpc) as (m2 & Hm & Hok & Hq). rewrite Hm in Hs. injection Hs as <- <-.
    split; [eauto|by apply step_quiet].
  - injection Hs as <- <-. split; [exists L; by apply result_ok|]. split; [|done]. split_and!; try done. apply UpdateDist_includes.
  - destruct (bits_step_ok bm L m k w v Hrun Hbm Hk Hpc) as (bm2 & Hm & Hok & Hle & Hr & Hcov). rewrite Hm in Hs. injection Hs as <- <-.
    split; [eauto|]. split; [|done]. by split_and!.
  - destruct (pow2_worker L m k w (proj2 Hrun) Hk) as [_ Hp]. rewrite Hp in Hs. injection Hs as <- <-.
    split; [exists L; by apply done_ok|by apply step_quiet].
  - injection Hs as <- <-. split; [exists L; apply wait_ok; auto|by apply step_quiet].
  - destruct (all_done true m w x) eqn:Ha; [|case_match; [done|]]; injection Hs as <- <-;
      (split; [exists L|by apply step_quiet]); [by eapply read_ok|apply wait_ok; eauto].
  - injection Hs as <- <-. split; [|apply step_quiet; [done|apply next_level_keeps]].
    destruct (decide (dist w = L)); [exists (S L); by apply release_ok|exists L; by apply lagging_ok].
  - destruct (free_ok bm L m k w Hrun Hk Hpc) as (m2 & Hm & Hok & Hq). rewrite Hm in Hs. injection Hs as <- <-.
    split; [eauto|by apply step_quiet].
Qed.

(** A thread that has returned stays so. *)
Lemma ended_stays bm L m k w bm' m' j x :
  run_ok bm L m → ks m !! k = Some w → BeginWorkAt g true bm m k w = Some (bm', m') →
  ks m !! j = Some x → k_pc x = KEnd → ks m' !! j = Some x.
Proof.
  intros Hrun Hk Hs Hj Hx. pose proof (y_end _ _ (proj2 Hrun) j x k w Hj Hx Hk) as Hb.
  pose proof (b_workers _ _ _ (proj1 Hrun) k w Hk) as Hw. unfold worker_ok in Hw. unfold BeginWorkAt in Hs. rewrite Hb in *.
  destruct (k_pc w) eqn:Hpc; destruct_and?; try done. case_match; [|done]. injection Hs as <- <-.
  cbn. rewrite list_lookup_insert_ne; [done|congruence].
Qed.

(** Once nobody is busy, the distances from the house are covered. *)
Lemma end_covers bm L m cov :
  run_ok bm L m → (∀ i w, ks m !! i = Some w → k_pc w = KEnd) →
  bits_ok g cov bm → (∀ n, covers (result m) n → cov n) → all_met g cov (start_house_index m).
Proof.
  intros [Hb Hy] Hend Hbits Hcov. destruct (decide (bm !! start_house_index m = Some (full_visit_bits m))) as [Hst|Hst].
  { eapply (full_bits_met g Hmax); [done|apply Hb|done|apply Hb]. }
  intros j h h' n Hne Hh Hh' Hd. rewrite (b_idx _ _ _ Hb) in Hh. injection Hh as <-.
  destruct (b_below _ _ _ Hb) as [Hbelow|[]]; [|done].
  assert (n ≤ L)%nat as Hle.
  { destruct (decide (n ≤ L)%nat) as [|Hgt]; [done|]. exfalso.
    destruct (isdist_below _ _ _ _ Hd (S L) ltac:(lia)) as [v Hv]. destruct (isdist_pred _ _ _ _ Hv) as (u & Hu & Huv).
    assert (visited m v) as Hvis.
    { destruct (b_expanded _ _ _ Hb u Hu) as [|[(i & w & Hi & Hw)|Hall]]; [done|unfold holds in Hw; by rewrite (Hend _ _ Hi) in Hw|].
      destruct (Hall v Huv) as [|(i & w & Hi & Hw)]; [done|]. pose proof (b_workers _ _ _ Hb i w Hi) as Hok.
      unfold worker_ok in Hok. unfold plans in Hw. rewrite (Hend _ _ Hi) in Hok, Hw. destruct Hok as [_ Htd].
      rewrite Htd in Hw. by destruct Hw as [Hw|Hw]; [apply not_elem_of_nil in Hw|]. }
    destruct (b_front _ _ _ Hb v Hvis Hv) as [|(i & w & Hi & Hw & _)]; [done|]. rewrite (Hend _ _ Hi) in Hw. by destruct Hw. }
  destruct (b_res _ _ _ Hb h' n) as [|(i & w & Hi & Hw)]; [by eapply Hbelow|by eapply list_elem_of_lookup_2| |done|by apply Hcov|].
  - intros ->. apply Hne. eapply (NoDup_lookup (houses g)); [done..|apply Hb].
  - rewrite (Hend _ _ Hi) in Hw. done.
Qed.


Lemma land_sub x y : (∀ j, Z.testbit y (Z.of_nat j) = true → Z.testbit x (Z.of_nat j) = true) → Z.land x y = y.
Proof.
  intros H. apply Z.bits_inj'. intros z Hz. rewrite Z.land_spec. specialize (H (Z.to_nat z)). rewrite Z2Nat.id in H by done.
  destruct (Z.testbit y z); [by rewrite H|apply andb_false_r].
Qed.

(** A busy thread can move, unless it waits for one that is not waiting. *)
Lemma busy_moves bm L m k w :
  run_ok bm L m → bm_ok g bm → ks m !! k = Some w → is_busy w = true →
  is_waiting (k_pc w) = false ∨ S (dist w) = L ∨
    (dist w = L ∧ ∀ j x, ks m !! j = Some x → is_busy x = true → is_waiting (k_pc x) = true ∧ dist x = L) →
  is_Some (BeginWorkAt g true bm m k w).
Proof.
  intros Hrun Hbm Hk Hb Hcase. pose proof (b_workers _ _ _ (proj1 Hrun) k w Hk) as Hw. unfold worker_ok in Hw. unfold BeginWorkAt.
  destruct (k_pc w) as [| | | | | | |v|v|v| | |x| | |] eqn:Hpc; try done; try (destruct_and?; congruence); try (by eexists).
  - rewrite Hb. by eexists.
  - pose proof (lookup_lt_Some _ _ _ (b_idx _ _ _ (proj1 Hrun))).
    destruct (bm_lookup g bm (start_house_index m) Hbm) as [bits ->]; [lia|]. by eexists.
  - destruct (make_worker_ok bm L m k w Hrun Hk Hpc) as (m2 & -> & _). by eexists.
  - destruct (visit_neighbors_ok bm L m k w Hrun Hk Hpc) as (m2 & -> & _). by eexists.
  - destruct (mark_vertex_ok bm L m k w v Hrun Hk Hpc) as (m2 & -> & _). by eexists.
  - destruct (bits_step_ok bm L m k w v Hrun Hbm Hk Hpc) as (bm2 & -> & _). by eexists.
  - destruct (pow2_worker L m k w (proj2 Hrun) Hk) as [_ ->]. by eexists.
  - destruct (all_done true m w x) eqn:Ha; [by eexists|]. destruct (Z.eqb_spec x (first_word true m w)) as [->|]; [|by eexists].
    exfalso. unfold all_done, first_word in Ha. apply Z.eqb_neq in Ha. apply Ha, land_sub. intros j Hj.
    destruct Hcase as [|[<-|[<- Hall]]]; [done|..].
    + pose proof (y_prev _ _ (proj2 Hrun) j) as Hprev. rewrite !get_SS in Hprev. auto.
    + apply (y_full _ _ (proj2 Hrun)) in Hj as (y & Hy & Hby). apply (y_done _ _ (proj2 Hrun)). eauto.
  - destruct (free_ok bm L m k w Hrun Hk Hpc) as (m2 & -> & _). by eexists.
Qed.

(** Somebody can move until all have returned. *)
Lemma threads_progress bm L m :
  run_ok bm L m → bm_ok g bm → (∀ i w, ks m !! i = Some w → k_pc w = KEnd) ∨
  ∃ k w, ks m !! k = Some w ∧ is_Some (BeginWorkAt g true bm m k w).
Proof.
  intros Hrun Hbm.
  destruct (list_find (λ w, is_busy w = true ∧ is_waiting (k_pc w) = false) (ks m)) as [[k w]|] eqn:H1.
  { apply list_find_Some in H1 as (Hk & [Hb Hn] & _). right. exists k, w. split; [done|]. eapply busy_moves; eauto. }
  destruct (list_find (λ w, is_busy w = true ∧ S (dist w) = L) (ks m)) as [[k w]|] eqn:H2.
  { apply list_find_Some in H2 as (Hk & [Hb Hn] & _). right. exists k, w. split; [done|]. eapply busy_moves; eauto. }
  apply list_find_None in H1, H2. rewrite Forall_lookup in H1, H2.
  assert (∀ j x, ks m !! j = Some x → is_busy x = true → is_waiting (k_pc x) = true ∧ dist x = L) as Hall.
  { intros j x Hj Hb. specialize (H1 j x Hj). specialize (H2 j x Hj). assert (is_waiting (k_pc x) = true) as Hw by (destruct (is_waiting (k_pc x)); tauto).
    split; [done|]. pose proof (b_workers _ _ _ (proj1 Hrun) j x Hj) as Hok. unfold worker_ok in Hok. destruct (k_pc x); try done; naive_solver. }
  destruct (list_find (λ w, is_busy w = true) (ks m)) as [[k w]|] eqn:H3.
  { apply list_find_Some in H3 as (Hk & Hb & _). right. exists k, w. split; [done|]. eapply busy_moves; try done. right. right.
    split; [by eapply Hall|done]. }
  apply list_find_None in H3. rewrite Forall_forall in H3.
  destruct (list_find (λ w, k_pc w = KIdle) (ks m)) as [[k w]|] eqn:H4.
  - apply list_find_Some in H4 as (Hk & Hp & _). right. exists k, w. split; [done|]. unfold BeginWorkAt. rewrite Hp.
    pose proof (y_free _ _ (proj2 Hrun)) as Hf. rewrite (Zsum_const _ _ 0) in Hf.
    + destruct (is_busy w); [by eexists|]. rewrite (proj2 (Z.eqb_eq _ _)) by lia. by eexists.
    + intros x Hx. specialize (H3 x Hx). by destruct (is_busy x).
  - left. intros i w Hi. apply list_find_None in H4. rewrite Forall_lookup in H4. specialize (H4 i w Hi).
    specialize (H3 w (list_elem_of_lookup_2 _ _ _ Hi)). pose proof (b_workers _ _ _ (proj1 Hrun) i w Hi) as Hok.
    unfold worker_ok in Hok. destruct (k_pc w); destruct_and?; done.
Qed.


(** * Run *)

(** Before the first thread is created. *)
Record fresh_ok (m : multi) : Prop := {
  f_idx : houses g !! start_house_index m = Some (start_house m);
  f_full : full_bits (start_house_index m) (length (houses g)) = Some (full_visit_bits m);
  f_check : check_map m = <[start_house m:=true]> (replicate (num_vertices g + 1) false);
  f_res : result m = new_BFSResult;
  f_done : worker_done_bits m = (0, 0);
  f_fullw : worker_done_full_bits m = (0, 0);
  f_flag : done_bits_flag m = (false, false);
  f_free : num_free_workers m = 0;
  f_len : (1 ≤ length (ks m) ≤ MAX_HOUSE)%nat;
}.

Definition multi_ok (bm : list Z) (m : multi) : Prop :=
  match m_pc m with
  | RCreate k => (1 ≤ k)%nat ∧ fresh_ok m ∧
      ∀ i w, ks m !! i = Some w → w = if decide (1 ≤ i < k)%nat then set_kpc new_worker KIdle else new_worker
  | RFirst => fresh_ok m ∧ ∀ i w, ks m !! i = Some w → w = if decide (1 ≤ i)%nat then set_kpc new_worker KIdle else new_worker
  | RJoin k => ∃ L, run_ok bm L m ∧ ∀ i, (i < k)%nat → ∃ w, ks m !! i = Some w ∧ k_pc w = KEnd
  | RDone => ∃ L, run_ok bm L m ∧ ∀ i w, ks m !! i = Some w → k_pc w = KEnd
  end.

(** The first thread is created: level 0. *)
Lemma first_ok bm m w :
  fresh_ok m → (∀ i w, ks m !! i = Some w → w = if decide (1 ≤ i)%nat then set_kpc new_worker KIdle else new_worker) →
  ks m !! 0%nat = Some w →
  run_ok bm 0 (set_rpc (set_worker (set_sync m (worker_done_bits m) (put 0 1 (worker_done_full_bits m)) (done_bits_flag m)
    (Z.of_nat (length (ks m)) - 1)) 0 (MkW true (start_house m) 0 (cur_vertices w) (todo w) (next_vertices w) (dist w) KIdle)) (RJoin 0)).
Proof.
  intros Hf Hall Hw. pose proof (Hall _ _ Hw) as ->. cbn [decide cur_vertices todo next_vertices dist]. set (w' := MkW _ _ _ _ _ _ _ _).
  pose proof (lookup_lt_Some _ _ _ Hw) as Hlen. set (m' := set_rpc _ _).
  assert (∀ i x, ks m' !! i = Some x → (i = 0%nat ∧ x = w') ∨ (1 ≤ i)%nat ∧ x = set_kpc new_worker KIdle) as Hin.
  { intros i x [[<- ->]|[Hne Hi]]%lookup_insert_inv; [by left|right]. pose proof (Hall i x Hi) as ->.
    rewrite decide_True by lia. split; [lia|done]. }
  assert (ks m' !! 0%nat = Some w') as H0 by by apply list_lookup_insert_eq.
  assert (∀ v, visited m' v ↔ v = start_house m) as Hvis.
  { intros v. unfold visited. cbn. rewrite (f_check _ Hf), lookup_insert_true.
    - rewrite lookup_replicate. naive_solver.
    - rewrite length_replicate. pose proof (c_houses _ Hg (start_house m) (list_elem_of_lookup_2 _ _ _ (f_idx _ Hf))). lia. }
  split.
  - constructor; try apply Hf.
    + cbn. by rewrite (f_check _ Hf), length_insert, length_replicate.
    + intros v ->%Hvis. exists 0%nat. split; [apply isdist_self|lia].
    + left. intros v n Hn Hle. apply Hvis. apply isdist_zero with (nb:=nb). by assert (n = 0%nat) as <- by lia.
    + intros u ->%isdist_zero. right. left. exists 0%nat, w'. by split.
    + intros v ->%Hvis Hd. pose proof (isdist_fun _ _ _ _ _ Hd (isdist_self _ _)). lia.
    + intros v n ->%Hvis. done.
    + cbn. rewrite (f_res _ Hf). apply made_of_new.
    + intros i x [[-> ->]|[_ ->]]%Hin; unfold worker_ok, idle_lists, hired; cbn; split_and!; auto; [|done].
      split; [done|apply isdist_self].
  - constructor; unfold m';
      cbn [ks set_rpc set_worker set_sync worker_done_bits worker_done_full_bits done_bits_flag num_free_workers];
      rewrite ?(f_done _ Hf), ?(f_fullw _ Hf), ?(f_flag _ Hf); cbn [get put Nat.odd Nat.even negb fst snd]; try done.
    + rewrite length_insert. apply Hf.
    + intros i. change 1 with (2 ^ Z.of_nat 0). rewrite Z.pow2_bits_eqb, Z.eqb_eq by lia. split.
      * intros Hi. assert (i = 0%nat) as -> by lia. by exists w'.
      * intros (x & [[-> _]|[_ ->]]%Hin & Hb); [done|]. done.
    + intros i. rewrite Z.bits_0. split; [done|]. intros (x & [[_ ->]|[_ ->]]%Hin & Hb & _); done.
    + rewrite (Zsum_insert _ _ _ _ _ Hw), length_insert, (Zsum_const _ _ 0); [cbn; lia|].
      intros x [i Hi]%list_elem_of_lookup. rewrite (Hall i x Hi). by destruct (decide (1 ≤ i)%nat).
    + intros i x z j [[_ ->]|[_ ->]]%Hin; done.
    + intros i x j y [[_ ->]|[_ ->]]%Hin; done.
    + intros i x j y [[_ ->]|[_ ->]]%Hin; done.
Qed.

Lemma start_multi_ok bm t i h :
  (1 ≤ t ≤ MAX_HOUSE)%nat → houses g !! i = Some h →
  ∃ m, BFSMultiThread g t h = Some m ∧ multi_ok bm m ∧ start_house_index m = i ∧ m_pc m = RCreate 1.
Proof.
  intros Ht Hi. unfold BFSMultiThread, new_BFSMultiThreadContext. rewrite (index_of_house g Hg Hnd i h Hi).
  destruct (full_bits_some i (length (houses g)) Hmax) as (full & Hfull & _). rewrite Hfull. cbn [mbind option_bind check_map].
  assert (h ≤ num_vertices g)%nat as Hh by (apply (c_houses _ Hg); by eapply list_elem_of_lookup_2).
  rewrite length_replicate, (proj2 (Nat.ltb_lt _ _)) by lia. eexists. split; [done|]. split; [|done].
  unfold multi_ok. cbn. split_and!; [lia| |].
  - constructor; cbn; try done. rewrite length_replicate. lia.
  - intros j w [-> _]%lookup_replicate. by rewrite decide_False by lia.
Qed.

(** What holds of a step of [Run]. *)
Lemma Run_ok bm m m' :
  multi_ok bm m → Run m = Some m' →
  multi_ok bm m' ∧ start_house_index m' = start_house_index m ∧ result m' = result m.
Proof.
  intros Hm Hr. unfold multi_ok in Hm. unfold Run in Hr. destruct (m_pc m) as [k| |k|] eqn:Hpc.
  - destruct Hm as (Hk & Hf & Hall). destruct (ks m !! k) as [w|] eqn:Hw; injection Hr as <-; (split; [|done]); unfold multi_ok; cbn.
    + split_and!; [lia| |].
      * destruct Hf. constructor; cbn; try done. by rewrite length_insert.
      * intros i x [[<- ->]|[Hne Hi]]%lookup_insert_inv.
        -- rewrite (Hall _ _ Hw). by rewrite decide_False, decide_True by lia.
        -- rewrite (Hall _ _ Hi). by destruct (decide (1 ≤ i < k)%nat), (decide (1 ≤ i < S k)%nat); try lia.
    + apply lookup_ge_None in Hw. split; [by destruct Hf|]. intros i x Hi. rewrite (Hall _ _ Hi). apply lookup_lt_Some in Hi.
      by destruct (decide (1 ≤ i < k)%nat), (decide (1 ≤ i)%nat); try lia.
  - destruct Hm as [Hf Hall]. destruct (ks m !! 0%nat) as [w|] eqn:Hw; [|done]. injection Hr as <-. split; [|done].
    exists 0%nat. split; [by apply first_ok|]. intros; lia.
  - destruct Hm as (L & Hrun & Hall). destruct (ks m !! k) as [w|] eqn:Hw.
    + destruct (k_pc w) eqn:Hp; try done. injection Hr as <-. split; [|done]. exists L. split; [by destruct Hrun as [[] []]|].
      intros i Hlt. destruct (decide (i = k)) as [->|]; [by exists w|]. apply (Hall i). lia.
    + injection Hr as <-. split; [|done]. exists L. split; [by destruct Hrun as [[] []]|].
      intros i x Hi. apply lookup_ge_None in Hw. pose proof (lookup_lt_Some _ _ _ Hi). cbn in *.
      destruct (Hall i ltac:(lia)) as (y & Hy & Hp). congruence.
  - done.
Qed.

(** Before the first thread is created the others can not move. *)
Lemma fresh_waits bm m k w :
  fresh_ok m → ks m !! k = Some w → w = new_worker ∨ w = set_kpc new_worker KIdle → BeginWorkAt g true bm m k w = None.
Proof.
  intros Hf Hk [->| ->]; [done|]. unfold BeginWorkAt. cbn. rewrite (f_free _ Hf).
  pose proof (f_len _ Hf). by rewrite (proj2 (Z.eqb_neq _ _)) by lia.
Qed.

Lemma multi_step_ok c bm m bm' m' :
  multi_ok bm m → bm_ok g bm → multi_step g true c bm m = Some (bm', m') →
  (multi_ok bm' m' ∧ start_house_index m' = start_house_index m ∧ bm_ok g bm' ∧ bm_le bm bm' ∧ includes (result m') (result m)) ∧
  ∀ cov : nat → Prop, bits_ok g cov bm → (∀ n, covers (result m') n → cov n) →
    bits_ok g cov bm' ∧ (m_pc m' = RDone → all_met g cov (start_house_index m)).
Proof.
  intros Hm Hbm Hs. destruct c as [|k]; cbn [multi_step] in Hs.
  - destruct (Run m) as [m2|] eqn:Hr; [|done]. injection Hs as <- <-. destruct (Run_ok bm m m2 Hm Hr) as (Hok & Hidx & Hres).
    split; [rewrite Hres; split_and!; try done|]. intros cov Hb Hc. split; [done|]. intros Hp.
    unfold multi_ok in Hok. rewrite Hp in Hok. destruct Hok as (L & Hrun & Hend). rewrite <- Hidx. by eapply end_covers.
  - destruct (ks m !! k) as [w|] eqn:Hk; [|done]. cbn [mbind option_bind] in Hs. unfold multi_ok in Hm.
    destruct (m_pc m) as [j| |j|] eqn:Hpc.
    + destruct Hm as (_ & Hf & Hall). rewrite (fresh_waits bm m k w Hf Hk) in Hs; [done|].
      rewrite (Hall _ _ Hk). destruct (decide _); auto.
    + destruct Hm as (Hf & Hall). rewrite (fresh_waits bm m k w Hf Hk) in Hs; [done|].
      rewrite (Hall _ _ Hk). destruct (decide _); auto.
    + destruct Hm as (L & Hrun & Hall). destruct (thread_step_ok bm L m k w bm' m' Hrun Hbm Hk Hs) as [[L' Hrun'] [(H1 & H2 & H3 & H4 & H5) H6]].
      split; [split_and!; try done|]. 2: { intros cov Hb Hc. split; [auto|]. congruence. }
      unfold multi_ok. rewrite H2, Hpc. exists L'. split; [done|]. intros i Hlt.
      destruct (Hall i Hlt) as (y & Hy & Hp). exists y. split; [|done]. exact (ended_stays bm L m k w bm' m' i y Hrun Hk Hs Hy Hp).
    + destruct Hm as (L & Hrun & Hall). unfold BeginWorkAt in Hs. by rewrite (Hall _ _ Hk) in Hs.
Qed.


Lemma multi_progress bm m : multi_ok bm m → bm_ok g bm → m_pc m ≠ RDone → ∃ c bm' m', multi_step g true c bm m = Some (bm', m').
Proof.
  intros Hm Hbm Hp. unfold multi_ok in Hm. destruct (m_pc m) as [k| |k|] eqn:Hpc; [..|done].
  - exists 0%nat. cbn. unfold Run. rewrite Hpc. destruct (ks m !! k); cbn; eauto.
  - destruct Hm as [Hf _]. exists 0%nat. cbn. unfold Run. rewrite Hpc.
    destruct (lookup_lt_is_Some_2 (ks m) 0) as [w ->]; [pose proof (f_len _ Hf); lia|]. cbn. eauto.
  - destruct Hm as (L & Hrun & Hall). destruct (threads_progress bm L m Hrun Hbm) as [Hend|(j & w & Hj & [[bm' m'] Hs])].
    + exists 0%nat. cbn. unfold Run. rewrite Hpc. destruct (ks m !! k) as [w|] eqn:Hk; [rewrite (Hend _ _ Hk)|]; cbn; eauto.
    + exists (S j), bm', m'. cbn [multi_step]. by rewrite Hj.
Qed.

Lemma multi_ok_le bm bm' m : multi_ok bm m → bm_ok g bm' → bm_le bm bm' → multi_ok bm' m.
Proof.
  intros Hm Hbm Hle. unfold multi_ok in *.
  assert (∀ L, run_ok bm L m → run_ok bm' L m) as Hkeep.
  { intros L [Hb Hy]. split; [|done].
    assert (stop bm m → stop bm' m) as Hst by (intros Hs; eapply (full_stays g Hmax bm bm'); [done|done|apply Hb|done]).
    destruct Hb. constructor; try done.
    - destruct b_below0 as [|[]]; auto.
    - intros u Hu. destruct (b_expanded0 u Hu); auto.
    - intros v Hv Hd. destruct (b_front0 v Hv Hd); auto.
    - intros i w Hi. eapply thread_ok_mono; [done|apply includes_refl|eauto]. }
  destruct (m_pc m); try done; destruct Hm as (L & Hrun & Hall); eauto.
Qed.

Lemma multi_made bm m : multi_ok bm m → made_of (pairdist g) (result m).
Proof.
  unfold multi_ok. destruct (m_pc m); intros Hm; destruct_and?.
  - match goal with H : fresh_ok m |- _ => rewrite (f_res _ H) end. apply made_of_new.
  - match goal with H : fresh_ok m |- _ => rewrite (f_res _ H) end. apply made_of_new.
  - destruct Hm as (L & [Hb _] & _). apply Hb.
  - destruct Hm as (L & [Hb _] & _). apply Hb.
Qed.


End invariant.

(** * The searches behind the interface *)

#[export] Instance multi_impl g : SearchImpl multi := {
  se_start t h := BFSMultiThread g t h;
  se_next c bm m := multi_step g true c bm m;
  se_result m := match m_pc m with RDone => Some (result m) | _ => None end;
}.

Lemma multi_result_end g m : is_Some (@se_result _ (multi_impl g) m) ↔ m_pc m = RDone.
Proof. cbn. destruct (m_pc m); split; intros H; try done; by apply is_Some_None in H. Qed.

#[export, refine] Instance multi_spec g (Hg : houses_ok g) : @SearchSpec g multi (multi_impl g) := {|
  se_allowed t := (1 ≤ t ≤ MAX_HOUSE)%nat;
  se_inv := multi_ok g;
  se_idx := start_house_index;
  se_found := result;
|}.
Proof.
  - intros t i h bm Ht Hi _. destruct (start_multi_ok g (h_ctx _ Hg) (h_nodup _ Hg) (h_max _ Hg) bm t i h Ht Hi) as (m & Hm & Hok & Hidx & Hp).
    exists m. split_and!; try done. cbn. by rewrite Hp.
  - intros bm m Hm. by eapply multi_made.
  - intros bm m r Hm Hr. cbn in Hr. destruct (m_pc m); congruence.
  - intros bm bm' m Hm Hbm Hle. by apply (multi_ok_le g (h_max _ Hg) bm bm').
  - intros c bm m bm' m' Hm Hbm Hs.
    destruct (multi_step_ok g (h_ctx _ Hg) (h_nodup _ Hg) (h_max _ Hg) c bm m bm' m' Hm Hbm Hs) as [H1 H2].
    split; [done|]. intros cov Hb Hc. rewrite multi_result_end. auto.
  - intros bm m Hm Hbm Hr. apply (multi_progress g (h_ctx _ Hg) (h_nodup _ Hg) (h_max _ Hg) bm m Hm Hbm).
    intros He. cbn in Hr. by rewrite He in Hr.
Defined.

(** The choice [BFSThread] makes by the number of threads. *)
#[export] Instance house_impl g : SearchImpl (search + multi) := {
  se_start t h := if (t =? 1)%nat then inl <$> start_search g h else inr <$> BFSMultiThread g t h;
  se_next c bm q :=
    match q with
    | inl q => '(bm', q') ← @se_next _ (bfs_impl g) c bm q; Some (bm', inl q')
    | inr m => '(bm', m') ← @se_next _ (multi_impl g) c bm m; Some (bm', inr m')
    end;
  se_result q := match q with inl q => @se_result _ (bfs_impl g) q | inr m => @se_result _ (multi_impl g) m end;
}.

#[export, refine] Instance house_spec g (Hg : houses_ok g) : @SearchSpec g (search + multi) (house_impl g) := {|
  se_allowed t := (1 ≤ t ≤ MAX_HOUSE)%nat;
  se_inv bm q := match q with inl q => @se_inv g _ _ (bfs_spec g Hg) bm q | inr m => @se_inv g _ _ (multi_spec g Hg) bm m end;
  se_idx q := match q with inl q => q_idx q | inr m => start_house_index m end;
  se_found q := match q with inl q => q_res q | inr m => result m end;
|}.
Proof.
  - intros t i h bm Ht Hi Hbm. cbn [se_start house_impl]. destruct (Nat.eqb_spec t 1) as [->|Hne].
    + destruct (@se_start_ok g _ _ (bfs_spec g Hg) 1 i h bm eq_refl Hi Hbm) as (q & Hq & H1 & H2 & H3).
      exists (inl q). cbn in Hq. rewrite Hq. done.
    + destruct (@se_start_ok g _ _ (multi_spec g Hg) t i h bm Ht Hi Hbm) as (m & Hm & H1 & H2 & H3).
      exists (inr m). cbn in Hm. rewrite Hm. done.
  - intros bm [q|m] Hq; [exact (@se_made g _ _ (bfs_spec g Hg) bm q Hq)|exact (@se_made g _ _ (multi_spec g Hg) bm m Hq)].
  - intros bm [q|m] r Hq; [exact (@se_result_found g _ _ (bfs_spec g Hg) bm q r Hq)|exact (@se_result_found g _ _ (multi_spec g Hg) bm m r Hq)].
  - intros bm bm' [q|m] Hq; [exact (@se_inv_le g _ _ (bfs_spec g Hg) bm bm' q Hq)|exact (@se_inv_le g _ _ (multi_spec g Hg) bm bm' m Hq)].
  - intros c bm [q|m] bm' r Hq Hbm Hs; cbn [se_next house_impl] in Hs.
    + destruct (@se_next _ (bfs_impl g) c bm q) as [[bm2 q2]|] eqn:Hn; [|done]. injection Hs as <- <-.
      exact (@se_step_ok g _ _ (bfs_spec g Hg) c bm q bm2 q2 Hq Hbm Hn).
    + destruct (@se_next _ (multi_impl g) c bm m) as [[bm2 m2]|] eqn:Hn; [|done]. injection Hs as <- <-.
      exact (@se_step_ok g _ _ (multi_spec g Hg) c bm m bm2 m2 Hq Hbm Hn).
  - intros bm [q|m] Hq Hbm Hr; cbn [se_next house_impl].
    + destruct (@se_progress g _ _ (bfs_spec g Hg) bm q Hq Hbm Hr) as (c & bm' & q' & Hn). exists c, bm', (inl q'). by rewrite Hn.
    + destruct (@se_progress g _ _ (multi_spec g Hg) bm m Hq Hbm Hr) as (c & bm' & m' & Hn). exists c, bm', (inr m'). by rewrite Hn.
Defined.

(** * The order of the two reads *)

(** The search alone, on a bitmap nobody else writes. *)
Definition multi_run (g : Context) (done_first : bool) : relation (list Z * multi) :=
  λ s s', ∃ c, multi_step g done_first c s.1 s.2 = Some s'.

(** 1 - 3 - 4 - 7 - 8 and 1 - 2 - 5 - 8 with an edge 2 - 6; houses 1 and 8. *)
Definition order_lines : list (nat * list nat) :=
  [(1, [2; 3]); (3, [4]); (2, [5; 6]); (4, [7]); (7, [8]); (5, [8])]%nat.
Definition order_context : Context :=
  Eval vm_compute in default (MkContext 0 [] [] ∅ []) (Reader.Read (print_input [1; 8] 8 order_lines)%nat).
Definition order_init : list Z * multi :=
  Eval vm_compute in (replicate MAX_HOUSE 0,
    default (MkM 0 0 0 [] new_BFSResult (0, 0) (0, 0) (false, false) 0 [] RDone) (BFSMultiThread order_context 3 1)).
(** Thread 0 reads who is busy at level 2; then thread 1 hands vertex 5 to thread 2 and
    finishes the level; thread 0 reads the done bits and goes on without thread 2. *)
Definition order_sched : list nat :=
  (replicate 4 0 ++ replicate 25 1 ++ replicate 13 2 ++ replicate 11 1 ++ replicate 11 2 ++ replicate 12 1 ++
   [3; 1; 3; 3; 3; 2; 1; 2; 2; 2; 2; 1; 1; 1; 1; 1; 3; 2; 1; 0; 0; 0; 0])%nat.
Definition order_end : list Z * multi :=
  Eval vm_compute in default order_init (run_sched (λ c s, multi_step order_context false c s.1 s.2) order_sched order_init).

Lemma order_distance : isdist (nbrs (adjlist order_context)) 1 8 3.
Proof.
  assert (∀ n, bool_decide (8%nat ∈ sphere (nbrs (adjlist order_context)) n 1) = true ↔
    walk (nbrs (adjlist order_context)) n 1 8) as Hs by (intros n; by rewrite bool_decide_eq_true, sphere_walk).
  split; [by apply Hs|]. intros n Hn. apply Hs in Hn. destruct n as [|[|[|n]]]; [done..|lia].
Qed.

(** If the waiting condition reads who is busy before it reads who is done, a thread can
    go on to the next level before the others have finished theirs, and the search returns a
    distance that is too large. *)
Theorem wait_order_matters :
  BFSMultiThread order_context 3 1 = Some order_init.2 ∧
  reachable order_init (multi_run order_context false) order_end ∧ m_pc order_end.2 = RDone ∧
  houses order_context = [1; 8]%nat ∧ isdist (nbrs (adjlist order_context)) 1 8 3 ∧
  result order_end.2 = MkResult 4 4.
Proof.
  split; [reflexivity|]. split; [|split_and!; [reflexivity|reflexivity|apply order_distance|reflexivity]].
  apply (run_sched_rtc (λ c s, multi_step order_context false c s.1 s.2) order_sched). vm_compute. reflexivity.
Qed.
