(* ===== verification/P1MultiEnd.v ===== *)
(** The multi-threaded search of src/Project1/src/bfs.cpp ends ([BFSMultiThreadContext]).

    The threads may mark a vertex twice and hand vertices to each other, and a thread reads
    the done bits again whenever somebody has set one.  The size of a search is a pair: the
    levels its threads have not finished, and the work left at their levels.  A thread that
    leaves the waiting loop moves to the next level; every other step uses up work of the
    level, in which a vertex that is still to be handed out also pays for waking its thread,
    and a thread that sets its done bit pays for the threads that read the bits again. *)

From S2P Require Import Prelude Graph P1Context P1Search P1Bfs P1Multi.

Local Open Scope Z_scope.

(** A sum of values that grow by at most one each. *)
Lemma Zsum_le_add {A} (f h : A → Z) l : (∀ x, f x ≤ h x + 1) → Zsum f l ≤ Zsum h l + Z.of_nat (length l).
Proof. intros H. induction l as [|x l IH]; cbn [Zsum length]; [lia|]. specialize (H x). lia. Qed.

Section size.
Context (g : Context).

Notation nb := (nbrs (adjlist g)).

(** The work of a vertex to be expanded, of a list of them, and of a list from which all
    vertices but one may be handed out; [T] is the number of threads. *)
Definition vertex_work (v : nat) : Z := 1 + 5 * Z.of_nat (length (nb v)).
Definition list_work (l : list nat) : Z := Zsum vertex_work l.
Definition hire_work (T : Z) (l : list nat) : Z := list_work l + (14 + T) * Z.of_nat (length l - 1).

(** What a thread has left to do before it moves to the next level; [dn] are the done bits.
    A thread with a vertex that was handed to it is at the level of its parameter. *)
Definition thread_work (T : Z) (dn : Z * Z) (w : worker) : Z :=
  let visit := 8 + T + list_work (cur_vertices w) + 5 * Z.of_nat (length (todo w)) in
  match k_pc w with
  | KNew | KEnd => 0
  | KIdle => if is_busy w then 13 + T + vertex_work (start_vertex w) else 1
  | KBegin => 12 + T + vertex_work (start_vertex w)
  | KTest => 11 + T + (if (p_dist w =? dist w)%nat then vertex_work (start_vertex w) else hire_work T (next_vertices w))
  | KHire => 10 + T + hire_work T (cur_vertices w)
  | KMake => 9 + T + hire_work T (cur_vertices w)
  | KVisit => visit
  | KMark _ => visit + 4
  | KResult _ => visit + 3
  | KBits _ => visit + 2
  | KDone => 7 + T
  | KWait => 6
  | KRead x => if x =? get (dist w) dn then 4 else 5
  | KFlag => 3
  | KFree => 2
  end.

(** What [Run] has left to do. *)
Definition run_work (T : Z) (start : nat) (p : rpc) : Z :=
  match p with
  | RCreate k => 2 * Z.max 0 (T - Z.of_nat k) + 20 + 2 * T + vertex_work start
  | RFirst => 18 + 2 * T + vertex_work start
  | RJoin k => 1 + Z.max 0 (T - Z.of_nat k)
  | RDone => 0
  end.

(** Levels a thread has not finished. *)
Definition thread_levels (w : worker) : Z := Z.of_nat (S (num_vertices g) - dist w).

Definition levels (m : multi) : Z := Zsum thread_levels (ks m).
Definition work (m : multi) : Z :=
  let T := Z.of_nat (length (ks m)) in run_work T (start_house m) (m_pc m) + Zsum (thread_work T (worker_done_bits m)) (ks m).

Definition multi_size (m : multi) : nat * nat := (Z.to_nat (levels m), Z.to_nat (work m)).

(** * Sums *)

Lemma vertex_work_pos v : 1 ≤ vertex_work v.
Proof. unfold vertex_work. lia. Qed.

Lemma list_work_nonneg l : 0 ≤ list_work l.
Proof. apply Zsum_nonneg. intros v _. pose proof (vertex_work_pos v). lia. Qed.

Lemma hire_work_ge T l : 0 ≤ T → list_work l ≤ hire_work T l.
Proof. intros HT. unfold hire_work. pose proof (Z.mul_nonneg_nonneg (14 + T) (Z.of_nat (length l - 1))). lia. Qed.

Lemma hire_work_one T v : hire_work T [v] = vertex_work v.
Proof. unfold hire_work, list_work. cbn. lia. Qed.

(** Handing out the last vertex. *)
Lemma hire_work_last T l v :
  last l = Some v → (1 < length l)%nat → hire_work T l = hire_work T (removelast l) + vertex_work v + 14 + T.
Proof.
  intros [k ->]%last_Some Hl. rewrite removelast_last. unfold hire_work, list_work. rewrite Zsum_app, length_app in *. cbn in *.
  replace (Z.of_nat (length k + 1 - 1)) with (Z.of_nat (length k - 1) + 1) by lia. lia.
Qed.

Lemma thread_work_nonneg T dn w : 0 ≤ T → 0 ≤ thread_work T dn w.
Proof.
  intros HT. unfold thread_work. pose proof (list_work_nonneg (cur_vertices w)). pose proof (list_work_nonneg (next_vertices w)).
  pose proof (vertex_work_pos (start_vertex w)). pose proof (hire_work_ge T (cur_vertices w) HT).
  pose proof (hire_work_ge T (next_vertices w) HT). destruct (k_pc w); repeat case_match; lia.
Qed.

Lemma size_nonneg m : 0 ≤ levels m ∧ 0 ≤ work m.
Proof.
  split; [apply Zsum_nonneg; unfold thread_levels; lia|]. unfold work. apply Z.add_nonneg_nonneg.
  - pose proof (vertex_work_pos (start_house m)). unfold run_work. case_match; lia.
  - apply Zsum_nonneg. intros w _. apply thread_work_nonneg. lia.
Qed.

Lemma size_lt m m' : levels m' < levels m ∨ levels m' = levels m ∧ work m' < work m → lex_lt (multi_size m') (multi_size m).
Proof. intros H. destruct (size_nonneg m'). by apply lex_lt_Z. Qed.

(** A thread moves to a later level. *)
Lemma size_level m m' k w w' :
  ks m !! k = Some w → ks m' = <[k:=w']> (ks m) → (dist w < dist w')%nat → (dist w ≤ num_vertices g)%nat →
  lex_lt (multi_size m') (multi_size m).
Proof.
  intros Hk Hks Hlt Hle. apply size_lt. left. unfold levels. rewrite Hks, (Zsum_insert _ _ _ _ _ Hk). unfold thread_levels. lia.
Qed.

(** A thread does a piece of work of its level. *)
Lemma size_work m m' k w w' :
  ks m !! k = Some w → ks m' = <[k:=w']> (ks m) → start_house m' = start_house m → m_pc m' = m_pc m →
  worker_done_bits m' = worker_done_bits m → dist w' = dist w →
  (let T := Z.of_nat (length (ks m)) in 0 ≤ T → thread_work T (worker_done_bits m) w' < thread_work T (worker_done_bits m) w) →
  lex_lt (multi_size m') (multi_size m).
Proof.
  intros Hk Hks Hs Hp Hd Hdist Hlt. apply size_lt. right. unfold levels, work.
  rewrite Hks, Hs, Hp, Hd, length_insert, !(Zsum_insert _ _ _ _ _ Hk). unfold thread_levels at 2 3. rewrite Hdist.
  specialize (Hlt ltac:(lia)). cbn in Hlt. lia.
Qed.

(** A thread sets its done bit. *)
Lemma size_done m k w dn :
  ks m !! k = Some w → k_pc w = KDone →
  lex_lt (multi_size (set_worker (set_sync m dn (worker_done_full_bits m) (done_bits_flag m) (num_free_workers m)) k (set_kpc w KWait)))
    (multi_size m).
Proof.
  intros Hk Hp. apply size_lt. right. unfold levels, work. cbn [ks set_worker set_sync worker_done_bits start_house m_pc].
  rewrite length_insert, !(Zsum_insert _ _ _ _ _ Hk). split; [unfold thread_levels; cbn; lia|].
  set (T := Z.of_nat (length (ks m))).
  assert (Zsum (thread_work T dn) (ks m) ≤ Zsum (thread_work T (worker_done_bits m)) (ks m) + T) as Hz.
  { apply Zsum_le_add. intros x. unfold thread_work. destruct (k_pc x); repeat case_match; lia. }
  assert (thread_work T dn w = 7 + T) as -> by (unfold thread_work; by rewrite Hp).
  unfold thread_work at 2. cbn. lia.
Qed.

(** A thread hands out a vertex. *)
Lemma size_make m k w i c m' v :
  ks m !! k = Some w → k_pc w = KMake → ks m !! i = Some c → k_pc c = KIdle → is_busy c = false →
  last (cur_vertices w) = Some v → (1 < length (cur_vertices w))%nat →
  ks m' = <[i:=MkW true v (dist w) (cur_vertices c) (todo c) (next_vertices c) (dist c) (k_pc c)]>
            (<[k:=set_lists w (removelast (cur_vertices w)) (todo w) (next_vertices w) KHire]> (ks m)) →
  start_house m' = start_house m → m_pc m' = m_pc m → worker_done_bits m' = worker_done_bits m →
  lex_lt (multi_size m') (multi_size m).
Proof.
  intros Hk Hp Hi Hpc Hb Hv Hl Hks Hs Hm Hd. apply size_lt. right.
  assert (i ≠ k) as Hne by congruence.
  assert (<[k:=set_lists w (removelast (cur_vertices w)) (todo w) (next_vertices w) KHire]> (ks m) !! i = Some c) as Hi'
    by (by rewrite list_lookup_insert_ne).
  unfold levels, work. rewrite Hks, Hs, Hm, Hd, !length_insert, !(Zsum_insert _ _ _ _ _ Hi'), !(Zsum_insert _ _ _ _ _ Hk).
  split; [unfold thread_levels; cbn; lia|]. set (T := Z.of_nat (length (ks m))). unfold thread_work at 2 3 4 5.
  rewrite Hp, Hpc, Hb. cbn. rewrite (hire_work_last T _ v Hv Hl). lia.
Qed.

End size.

(** * Every step makes the search smaller *)

Section steps.
Context (g : Context).
Hypothesis Hg : context_ok g.
Hypothesis Hnd : NoDup (houses g).
Hypothesis Hmax : (length (houses g) ≤ MAX_HOUSE)%nat.

Notation smaller m' m := (lex_lt (multi_size g m') (multi_size g m)).

(** A step that only moves its thread on. *)
Ltac work_step Hk Hpc :=
  eapply (size_work g _ _ _ _ _ Hk); try done; unfold thread_work; cbn [set_worker set_kpc set_lists set_check set_sync ks k_pc is_busy start_vertex p_dist cur_vertices todo next_vertices dist];
  rewrite ?Hpc; intros.

Lemma begin_smaller bm L m k w :
  run_ok g bm L m → ks m !! k = Some w → k_pc w = KBegin →
  smaller (set_worker m k (MkW (is_busy w) (start_vertex w) (p_dist w) (cur_vertices w) (todo w)
             (next_vertices w ++ [start_vertex w]) (p_dist w) KTest)) m.
Proof.
  intros Hrun Hk Hpc. pose proof (b_workers _ _ _ _ (proj1 Hrun) k w Hk) as Hw. unfold worker_ok, hired in Hw. rewrite Hpc in Hw.
  destruct Hw as (_ & _ & Hle & _ & Hp & Hd). pose proof (level_range g Hg bm L m _ _ (proj1 Hrun) Hd) as HL.
  destruct (decide (dist w = p_dist w)) as [He|Hne].
  - work_step Hk Hpc. rewrite Nat.eqb_refl. lia.
  - eapply (size_level g _ _ _ _ _ Hk); [done|cbn; lia|lia].
Qed.

Lemma test_smaller bm L m k w :
  run_ok g bm L m → ks m !! k = Some w → k_pc w = KTest →
  (¬ stop bm m → next_vertices w ≠ [] →
    smaller (set_worker m k (set_lists w (next_vertices w) (todo w) (cur_vertices w) KHire)) m) ∧
  smaller (set_worker m k (set_kpc w KFree)) m.
Proof.
  intros Hrun Hk Hpc. pose proof (b_workers _ _ _ _ (proj1 Hrun) k w Hk) as Hw. unfold worker_ok in Hw. rewrite Hpc in Hw.
  destruct Hw as (_ & _ & Hd & _ & Hp & Hone). pose proof (vertex_work_pos g (start_vertex w)). split; [intros Hst Hne|].
  - destruct Hone as [|Hone]; [done|]. work_step Hk Hpc. destruct (Nat.eqb_spec (p_dist w) (dist w)) as [He|]; [|lia].
    rewrite Hone, hire_work_one by lia. lia.
  - work_step Hk Hpc. pose proof (list_work_nonneg g (next_vertices w)).
    pose proof (hire_work_ge g (Z.of_nat (length (ks m))) (next_vertices w)). case_match; lia.
Qed.

Lemma make_smaller bm L m k w m' :
  run_ok g bm L m → ks m !! k = Some w → k_pc w = KMake → make_worker m k w = Some m' → smaller m' m.
Proof.
  intros Hrun Hk Hpc Hs. pose proof (b_workers _ _ _ _ (proj1 Hrun) k w Hk) as Hw. unfold worker_ok in Hw. rewrite Hpc in Hw.
  destruct Hw as (Hbusy & Hlists & Htd & Hlen). unfold make_worker in Hs. case_match.
  { injection Hs as <-. work_step Hk Hpc. rewrite Htd. cbn [length].
    pose proof (hire_work_ge g (Z.of_nat (length (ks m))) (cur_vertices w)). lia. }
  destruct (last (cur_vertices w)) as [v|] eqn:Hv; [|done]. cbn [mbind option_bind] in Hs.
  destruct (list_find _ (ks m)) as [[i c]|] eqn:Hf; [|done]. cbn [mbind option_bind] in Hs.
  destruct (Util.g_pow2 !! i); [|done]. injection Hs as <-. apply list_find_Some in Hf as (Hi & Hc & _).
  assert (k_pc c = KIdle) as Hpi.
  { pose proof (b_workers _ _ _ _ (proj1 Hrun) i c Hi) as Hwc. unfold worker_ok in Hwc. rewrite Hc in Hwc.
    destruct (k_pc c) eqn:E; destruct_and?; try done.
    pose proof (y_end _ _ (proj2 Hrun) i c k w Hi E Hk). congruence. }
  by eapply (size_make g m k w i c _ v).
Qed.

Lemma visit_smaller m k w m' :
  ks m !! k = Some w → k_pc w = KVisit → visit_neighbors g m k w = Some m' → smaller m' m.
Proof.
  intros Hk Hpc Hs. unfold visit_neighbors in Hs. destruct (todo w) as [|v td] eqn:Htd.
  - destruct (cur_vertices w) as [|v cur] eqn:Hcur.
    + injection Hs as <-. work_step Hk Hpc. rewrite Hcur, Htd. cbn [length]. unfold list_work. cbn [Zsum]. lia.
    + destruct (adjlist g !! v) as [a|] eqn:Ha; [|done]. injection Hs as <-. work_step Hk Hpc. rewrite Hcur, Htd.
      unfold list_work. cbn [Zsum length]. unfold vertex_work at 2. rewrite (nbrs_in g _ _ Ha). lia.
  - destruct (check_map m !! v) as [b|]; [|done]. injection Hs as <-. work_step Hk Hpc. rewrite Htd. destruct b; cbn [length]; lia.
Qed.

Lemma thread_smaller bm L m k w bm' m' :
  run_ok g bm L m → ks m !! k = Some w → BeginWorkAt g true bm m k w = Some (bm', m') → smaller m' m.
Proof.
  intros Hrun Hk. pose proof (vertex_work_pos g (start_vertex w)) as Hv. unfold BeginWorkAt.
  destruct (k_pc w) as [| | | | | | |v|v|v| | |x| | |] eqn:Hpc; try done; intros Hs.
  - destruct (is_busy w) eqn:Hb; [|case_match; [|done]]; injection Hs as <- <-; work_step Hk Hpc; rewrite Hb; lia.
  - injection Hs as <- <-. by eapply begin_smaller.
  - destruct (bm !! start_house_index m) as [bits|] eqn:Hbits; [|done]. cbn [mbind option_bind] in Hs. injection Hs as <- <-.
    destruct (test_smaller bm L m k w Hrun Hk Hpc) as [Henter Hleave]. case_match eqn:Ht; [|done].
    apply andb_true_iff in Ht as [H1%negb_true_iff%Z.eqb_neq H2%negb_true_iff%Nat.eqb_neq].
    apply Henter; [unfold stop; congruence|]. intros Hnil. by rewrite Hnil in H2.
  - pose proof (b_workers _ _ _ _ (proj1 Hrun) k w Hk) as Hw. unfold worker_ok in Hw. rewrite Hpc in Hw. destruct Hw as (_ & _ & Htd).
    pose proof (hire_work_ge g (Z.of_nat (length (ks m))) (cur_vertices w)).
    injection Hs as <- <-. work_step Hk Hpc. rewrite Htd. destruct (_ && _); cbn [length]; lia.
  - destruct (make_worker m k w) as [m2|] eqn:Hm; [|done]. injection Hs as <- <-. by eapply make_smaller.
  - destruct (visit_neighbors g m k w) as [m2|] eqn:Hm; [|done]. injection Hs as <- <-. by eapply visit_smaller.
  - unfold mark_vertex in Hs. destruct (house_bitmap g !! v) as [h|]; [|done]. injection Hs as <- <-. work_step Hk Hpc. destruct h; lia.
  - injection Hs as <- <-. work_step Hk Hpc. lia.
  - destruct (set_bits g bm (start_house_index m) v) as [bm2|]; [|done]. injection Hs as <- <-. work_step Hk Hpc. lia.
  - destruct (Util.g_pow2 !! k); [|done]. injection Hs as <- <-. by apply size_done.
  - injection Hs as <- <-. work_step Hk Hpc. rewrite Z.eqb_refl. lia.
  - destruct (all_done true m w x); [|case_match eqn:Hx; [done|]]; injection Hs as <- <-; work_step Hk Hpc; [case_match; lia|].
    unfold first_word in Hx. cbn in Hx. rewrite Hx, Z.eqb_refl. lia.
  - injection Hs as <- <-. destruct (paces g bm L m k w Hrun Hk) as [_ Hp]. rewrite Hpc in Hp. destruct (Hp eq_refl) as [_ Hle].
    unfold next_level. destruct (get _ _); eapply (size_level g _ _ _ _ _ Hk); try done; cbn; lia.
  - destruct (free_worker m k w) as [m2|] eqn:Hm; [|done]. injection Hs as <- <-. unfold free_worker in Hm.
    destruct (Util.g_pow2 !! k); [|done]. injection Hm as <-. work_step Hk Hpc. lia.
Qed.

(** [Run] gets on: creating a thread, creating the first, joining. *)
Lemma Run_smaller bm m m' : multi_ok g bm m → Run m = Some m' → smaller m' m.
Proof.
  intros Hm Hr. unfold multi_ok in Hm. unfold Run in Hr. apply size_lt. right. unfold levels, work.
  destruct (m_pc m) as [k| |k|] eqn:Hpc; [| | |done].
  - destruct Hm as (_ & _ & Hall). destruct (ks m !! k) as [w|] eqn:Hk; injection Hr as <-; cbn [ks set_rpc set_worker worker_done_bits start_house m_pc].
    + pose proof (lookup_lt_Some _ _ _ Hk). rewrite length_insert, !(Zsum_insert _ _ _ _ _ Hk).
      rewrite (Hall _ _ Hk), decide_False by lia. unfold thread_levels at 2 3. cbn. lia.
    + cbn. lia.
  - destruct Hm as (_ & Hall). destruct (ks m !! 0%nat) as [w|] eqn:Hk; [|done]. injection Hr as <-.
    cbn [ks set_rpc set_worker set_sync worker_done_bits start_house m_pc]. rewrite length_insert, !(Zsum_insert _ _ _ _ _ Hk).
    rewrite (Hall _ _ Hk), decide_False by lia. unfold thread_levels at 2 3. cbn. lia.
  - destruct (ks m !! k) as [w|] eqn:Hk.
    + destruct (k_pc w); try done. injection Hr as <-. apply lookup_lt_Some in Hk. cbn. lia.
    + injection Hr as <-. cbn. lia.
Qed.

Lemma multi_smaller c bm m bm' m' :
  multi_ok g bm m → multi_step g true c bm m = Some (bm', m') → smaller m' m.
Proof.
  intros Hm Hs. destruct c as [|k]; cbn [multi_step] in Hs.
  { destruct (Run m) as [m2|] eqn:Hr; [|done]. injection Hs as <- <-. by eapply Run_smaller. }
  destruct (ks m !! k) as [w|] eqn:Hk; [|done]. cbn [mbind option_bind] in Hs. unfold multi_ok in Hm.
  destruct (m_pc m) as [j| |j|] eqn:Hpc.
  - destruct Hm as (_ & Hf & Hall). rewrite (fresh_waits g Hmax bm m k w Hf Hk) in Hs; [done|].
    rewrite (Hall _ _ Hk). destruct (decide _); auto.
  - destruct Hm as (Hf & Hall). rewrite (fresh_waits g Hmax bm m k w Hf Hk) in Hs; [done|].
    rewrite (Hall _ _ Hk). destruct (decide _); auto.
  - destruct Hm as (L & Hrun & _). by eapply thread_smaller.
  - destruct Hm as (L & Hrun & _). by eapply thread_smaller.
Qed.

End steps.

#[export, refine] Instance multi_measure g (Hg : houses_ok g) : @SearchMeasure g multi (multi_impl g) (multi_spec g Hg) := {|
  se_size := multi_size g;
|}.
Proof. intros c bm m bm' m' Hm _ Hs. exact (multi_smaller g (h_ctx _ Hg) (h_max _ Hg) c bm m bm' m' Hm Hs). Defined.

(** The search of a house, whichever it is. *)
#[export, refine] Instance house_measure g (Hg : houses_ok g) : @SearchMeasure g (search + multi) (house_impl g) (house_spec g Hg) := {|
  se_size q := match q with
    | inl q => @se_size g _ _ _ (bfs_measure g Hg) q
    | inr m => @se_size g _ _ _ (multi_measure g Hg) m
    end;
|}.
Proof.
  intros c bm [q|m] bm' r Hq Hbm Hs; cbn [se_next house_impl] in Hs.
  - destruct (@se_next _ (bfs_impl g) c bm q) as [[bm2 q2]|] eqn:Hn; [|done]. injection Hs as <- <-.
    exact (@se_decreases g _ _ _ (bfs_measure g Hg) c bm q bm2 q2 Hq Hbm Hn).
  - destruct (@se_next _ (multi_impl g) c bm m) as [[bm2 m2]|] eqn:Hn; [|done]. injection Hs as <- <-.
    exact (@se_decreases g _ _ _ (multi_measure g Hg) c bm m bm2 m2 Hq Hbm Hn).
Defined.
