(* ===== verification/P1Pool.v ===== *)
(** [VectorPool] of src/Project1/src/util.cpp: the buffers the searches draw from, shared
    by all threads.  [Alloc] looks at the free list before it takes the mutex. *)

From S2P Require Import Prelude.

Module VectorPool.

(** Where a thread is: outside the pool, or in [Alloc] after finding the list not empty. *)
Inductive ppc := POut | PPop.

(** A thread and the vectors it has been given. *)
Record user := User { u_pc : ppc; u_held : list nat }.

(** The pool: [free_vector_list], the address of the next vector from the heap, and
    whether [front] and [pop_front] were called on an empty list. *)
Record pool := Pool { free_vector_list : list nat; fresh : nat; broken : bool }.

(** The first half of [Alloc]: without the mutex. *)
Definition Alloc_check (p : pool) (u : user) : option (pool * user) :=
  match u_pc u with
  | POut =>
      Some (match free_vector_list p with
            | [] => (Pool [] (S (fresh p)) (broken p), User POut (fresh p :: u_held u))
            | _ :: _ => (p, User PPop (u_held u))
            end)
  | PPop => None
  end.

(** The second half: the section under the mutex. *)
Definition Alloc_pop (p : pool) (u : user) : option (pool * user) :=
  match u_pc u with
  | PPop =>
      Some (match free_vector_list p with
            | [] => (Pool [] (fresh p) true, User POut (u_held u))
            | v :: vs => (Pool vs (fresh p) (broken p), User POut (v :: u_held u))
            end)
  | POut => None
  end.

(** [Free] of the [k]-th vector the thread holds. *)
Definition Free (k : nat) (p : pool) (u : user) : option (pool * user) :=
  match u_pc u with
  | POut => vec ← u_held u !! k;
      Some (Pool (free_vector_list p ++ [vec]) (fresh p) (broken p), User POut (delete k (u_held u)))
  | PPop => None
  end.

Inductive call := CCheck | CPop | CFree (k : nat).

Definition pool_call (c : call) : pool → user → option (pool * user) :=
  match c with CCheck => Alloc_check | CPop => Alloc_pop | CFree k => Free k end.

Definition state : Type := pool * list user.

(** One thread makes a step. *)
Definition next (c : nat * call) (s : state) : option state :=
  u ← s.2 !! c.1; '(p, u') ← pool_call c.2 s.1 u; Some (p, <[c.1:=u']> s.2).

Definition step (s s' : state) : Prop := ∃ c, next c s = Some s'.

(** The constructor, and [n] threads. *)
Definition init (n : nat) : state := (Pool [] 0 false, replicate n (User POut [])).

(** * The vectors held are private *)

Definition held (us : list user) : list nat := us ≫= u_held.

Record pool_ok (s : state) : Prop := {
  p_nodup : NoDup (held s.2 ++ free_vector_list s.1);
  p_fresh v : v ∈ held s.2 ++ free_vector_list s.1 → v < fresh s.1;
}.

Lemma held_lookup us i u : us !! i = Some u → held us ≡ₚ u_held u ++ held (delete i us).
Proof. intros Hi. unfold held. rewrite (delete_Permutation us i u Hi) at 1. done. Qed.

Lemma delete_insert_same {A} (l : list A) i x : delete i (<[i:=x]> l) = delete i l.
Proof. revert i. induction l as [|y l IH]; intros [|i]; cbn; [done..|]. f_equal. apply IH. Qed.

Lemma held_insert us i u u' : us !! i = Some u → held (<[i:=u']> us) ≡ₚ u_held u' ++ held (delete i us).
Proof.
  intros Hi. assert (i < length us) as Hl by by eapply lookup_lt_Some.
  rewrite (held_lookup (<[i:=u']> us) i u') by by apply list_lookup_insert_eq.
  by rewrite delete_insert_same.
Qed.

(** A call that only moves vectors between the caller and the free list, or adds a new one. *)
Lemma pool_ok_call p us i u p' u' :
  pool_ok (p, us) → us !! i = Some u →
  (u_held u' ++ free_vector_list p' ≡ₚ u_held u ++ free_vector_list p ∧ fresh p' = fresh p) ∨
  (u_held u' ++ free_vector_list p' ≡ₚ fresh p :: u_held u ++ free_vector_list p ∧ fresh p' = S (fresh p)) →
  pool_ok (p', <[i:=u']> us).
Proof.
  intros [Hnd Hf] Hi Hc. cbn in *.
  assert (held us ++ free_vector_list p ≡ₚ held (delete i us) ++ u_held u ++ free_vector_list p) as H1.
  { rewrite (held_lookup us i u Hi). solve_Permutation. }
  assert (held (<[i:=u']> us) ++ free_vector_list p' ≡ₚ held (delete i us) ++ u_held u' ++ free_vector_list p') as H2.
  { rewrite (held_insert us i u u' Hi). solve_Permutation. }
  destruct Hc as [[He Hfr]|[He Hfr]]; rewrite He in H2.
  - rewrite <- H1 in H2. constructor; cbn; [by rewrite H2|]. intros v. rewrite H2, Hfr. apply Hf.
  - assert (held (delete i us) ++ fresh p :: u_held u ++ free_vector_list p ≡ₚ
      fresh p :: held us ++ free_vector_list p) as H3 by (rewrite H1; solve_Permutation).
    rewrite H3 in H2.
    constructor; cbn.
    + rewrite H2. apply NoDup_cons. split; [|done]. intros Hin%Hf. lia.
    + intros v. rewrite H2, Hfr. intros [->|Hin%Hf]%elem_of_cons; lia.
Qed.

Lemma pool_ok_step s s' : pool_ok s → step s s' → pool_ok s'.
Proof.
  destruct s as [p us]. intros Hok [[i c] Hn]. unfold next in Hn. cbn in Hn.
  destruct (us !! i) as [u|] eqn:Hi; [|done]. cbn in Hn.
  destruct (pool_call c p u) as [[p' u']|] eqn:Hc; [|done]. injection Hn as <-.
  eapply pool_ok_call; [done|done|]. destruct p as [fl fr br], u as [pc hs]. cbn in *.
  destruct c as [| |k]; cbn in Hc.
  - unfold Alloc_check in Hc. destruct pc; [|done]. destruct fl as [|v vs]; injection Hc as <- <-; cbn; [right|left]; done.
  - unfold Alloc_pop in Hc. destruct pc; [done|]. destruct fl as [|v vs]; injection Hc as <- <-; cbn; left; [done|].
    split; [|done]. solve_Permutation.
  - unfold Free in Hc. destruct pc; [|done]. cbn in Hc. destruct (hs !! k) as [vec|] eqn:Hk; [|done].
    injection Hc as <- <-. cbn. left. split; [|done]. rewrite (delete_Permutation hs k vec Hk) at 2. solve_Permutation.
Qed.

Lemma pool_ok_init n : pool_ok (init n).
Proof.
  assert (held (replicate n (User POut [])) = []) as Hh by (induction n as [|n IH]; [done|exact IH]).
  constructor; cbn [init fst snd free_vector_list]; rewrite Hh; [constructor|]. intros v Hv. by apply not_elem_of_nil in Hv.
Qed.

Lemma nodup_bind_disjoint us i j u u' v :
  NoDup (held us) → us !! i = Some u → us !! j = Some u' → i ≠ j → v ∈ u_held u → v ∉ u_held u'.
Proof.
  intros Hnd Hi Hj Hne Hv Hv'. rewrite (held_lookup us i u Hi) in Hnd.
  apply NoDup_app in Hnd as (_ & Hd & _). apply (Hd v Hv). unfold held. apply list_elem_of_bind.
  exists u'. split; [done|]. apply list_elem_of_lookup.
  destruct (decide (j < i)).
  - exists j. by rewrite list_lookup_delete_lt.
  - exists (j - 1). rewrite list_lookup_delete_ge by lia. by replace (S (j - 1)) with j by lia.
Qed.

(** The pool never gives the same vector to two users: in every interleaving of calls of
    any number of threads, a vector a thread holds is held by no other thread, held only
    once, and not in the free list. *)
Theorem vectors_private n s i u v :
  reachable (init n) step s → s.2 !! i = Some u → v ∈ u_held u →
  NoDup (u_held u) ∧ v ∉ free_vector_list s.1 ∧ ∀ j u', s.2 !! j = Some u' → j ≠ i → v ∉ u_held u'.
Proof.
  intros Hr Hi Hv.
  assert (pool_ok s) as [Hnd _] by (eapply reachable_invariant; [apply (pool_ok_init n)|apply pool_ok_step|done]).
  apply NoDup_app in Hnd as (Hnd & Hd & _). split_and!.
  - rewrite (held_lookup _ _ _ Hi) in Hnd. by apply NoDup_app in Hnd as [? _].
  - apply Hd. unfold held. apply list_elem_of_bind. exists u. split; [done|]. by eapply list_elem_of_lookup_2.
  - intros j u' Hj Hne. by eapply (nodup_bind_disjoint s.2 i j).
Qed.

(** Two threads; one has taken two vectors and given one back. *)
Definition sample_calls : list (nat * call) := [(0, CCheck); (0, CCheck); (0, CFree 0)].
Definition sample_pool : state := (Pool [1] 2 false, [User POut [0]; User POut []]).

Lemma vectors_private_witness :
  NoDup [0] ∧ 0 ∉ free_vector_list sample_pool.1 ∧ ∀ j u', sample_pool.2 !! j = Some u' → j ≠ 0 → 0 ∉ u_held u'.
Proof.
  apply (vectors_private 2 sample_pool 0 (User POut [0]) 0).
  - apply (run_sched_rtc next sample_calls). reflexivity.
  - reflexivity.
  - by left.
Defined.

(** Two threads that both find the last free vector can both go on to take it: the
    second one calls [front] and [pop_front] on an empty list. *)
Theorem alloc_pops_empty : ∃ s, reachable (init 2) step s ∧ broken s.1 = true.
Proof.
  exists (Pool [] 2 true, [User POut [1; 0]; User POut []]). split; [|done].
  apply (run_sched_rtc next (sample_calls ++ [(0, CCheck); (1, CCheck); (0, CPop); (1, CPop)])). reflexivity.
Qed.

End VectorPool.
