(* ===== verification/P1Main.v ===== *)
(** src/Project1/src/main.cpp: how the cores are divided among the workers, the
    [HouseWorker]s that compete for the houses, and [main] which starts them, joins them
    and prints the two distances.

    The workers use a search only through the interface [SearchSpec], and [SearchMeasure] for
    the end of the program.  The program runs with both searches of bfs.cpp behind it. *)

From S2P Require Import Prelude Graph P1Context P1Search P1Bfs P1Multi P1MultiEnd.

Local Open Scope Z_scope.

(** * Dividing the cores *)

(** [ceil((float)num_cores / houses)]: the quotient is computed in single precision, which
    is exact enough up to 2^24 cores. *)
Definition max_threads_per_worker (num_cores num_houses : nat) : nat := (num_cores + num_houses - 1) / num_houses.

(** The loop that takes threads away until the cores suffice. *)
Fixpoint take_away (fuel i num_threads num_cores : nat) (arr : list nat) : list nat :=
  match fuel with
  | O => arr
  | S fuel =>
      if (num_cores <? num_threads)%nat
      then take_away fuel (S i) (num_threads - 1) num_cores (alter Nat.pred i arr)
      else arr
  end.

Definition num_threads_per_worker_arr (num_cores num_houses : nat) : list nat :=
  if (num_cores <=? num_houses)%nat then replicate num_cores 1%nat
  else
    let m := max_threads_per_worker num_cores num_houses in
    take_away (m * num_houses) 0 (m * num_houses) num_cores (replicate num_houses m).

(** * The workers and main *)

(** A worker: not started, at the loop test, taking an index, running a search, returned. *)
Inductive wpc (S : Type) := WIdle | HTest | HTake | HRun (q : S) | HDone.
Arguments WIdle {S}. Arguments HTest {S}. Arguments HTake {S}. Arguments HRun {S} q. Arguments HDone {S}.

Record HouseWorker (S : Type) := MkWorker {
  num_allowed_threads : nat;
  w_result : BFSResult;
  w_pc : wpc S;
}.
Arguments MkWorker {S}. Arguments num_allowed_threads {S}. Arguments w_result {S}. Arguments w_pc {S}.

(** Main: starting worker [k], joining worker [k], returned after printing. *)
Inductive mpc := MWork (k : nat) | MJoin (k : nat) | MExit.

Record state (S : Type) := MkState {
  visit_bitmap : list Z;
  g_house_index : Z;
  workers : list (HouseWorker S);
  s_main : mpc;
  s_result : BFSResult;
  s_out : list Z;
}.
Arguments MkState {S}. Arguments visit_bitmap {S}. Arguments g_house_index {S}. Arguments workers {S}.
Arguments s_main {S}. Arguments s_result {S}. Arguments s_out {S}.

Section main.
Context (g : Context) {S : Type} `{SI : SearchImpl S}.

(** [houses.size() - 1] as an [int]. *)
Definition last_house : Z := Z.of_nat (length (houses g)) - 1.

(** One step of [BFSThread] on the bitmap and the index; [c] chooses among the threads of
    its search.  The section under [g_house_index_mutex] is one step. *)
Definition BFSThread (c : nat) (bm : list Z) (gi : Z) (w : HouseWorker S) : option (list Z * Z * HouseWorker S) :=
  let set p := MkWorker (num_allowed_threads w) (w_result w) p in
  match w_pc w with
  | WIdle | HDone => None
  | HTest => Some (bm, gi, set (if gi <? last_house then HTake else HDone))
  | HTake =>
      if last_house <=? gi then Some (bm, gi + 1, set HDone)
      else
        house ← houses g !! Z.to_nat gi;
        q ← se_start (num_allowed_threads w) house;
        Some (bm, gi + 1, set (HRun q))
  | HRun q =>
      match se_result q with
      | Some r => Some (bm, gi, MkWorker (num_allowed_threads w) (Update (w_result w) r) HTest)
      | None => '(bm', q') ← se_next c bm q; Some (bm', gi, set (HRun q'))
      end
  end.

(** [Work]: the thread of the worker starts. *)
Definition Work (w : HouseWorker S) : HouseWorker S := MkWorker (num_allowed_threads w) (w_result w) HTest.

(** [JoinAndUpdateResult] waits for the worker. *)
Definition JoinAndUpdateResult (w : HouseWorker S) (r : BFSResult) : option BFSResult :=
  match w_pc w with HDone => Some (Update r (w_result w)) | _ => None end.

(** One step of [main], from where the workers are made. *)
Definition main_step (s : state S) : option (state S) :=
  let '(MkState bm gi ws m r out) := s in
  match m with
  | MWork k =>
      match ws !! k with
      | Some w => Some (MkState bm gi (<[k:=Work w]> ws) (MWork (Datatypes.S k)) r out)
      | None => Some (MkState bm gi ws (MJoin 0) r out)
      end
  | MJoin k =>
      match ws !! k with
      | Some w => r' ← JoinAndUpdateResult w r; Some (MkState bm gi ws (MJoin (Datatypes.S k)) r' out)
      | None => Some (MkState bm gi ws MExit r (out ++ [min_dist r; max_dist r]))
      end
  | MExit => None
  end.

(** Who moves: main, or a worker (with the thread of its search). *)
Inductive choice := CMain | CWorker (i c : nat).

Definition next (ch : choice) (s : state S) : option (state S) :=
  match ch with
  | CMain => main_step s
  | CWorker i c =>
      w ← workers s !! i;
      '(bm, gi, w') ← BFSThread c (visit_bitmap s) (g_house_index s) w;
      Some (MkState bm gi (<[i:=w']> (workers s)) (s_main s) (s_result s) (s_out s))
  end.

Definition step (s s' : state S) : Prop := ∃ ch, next ch s = Some s'.

(** [main] from where it knows the context: the workers are made, none has started. *)
Definition init (threads : list nat) : state S :=
  MkState (replicate MAX_HOUSE 0) 0 ((λ t, MkWorker t new_BFSResult WIdle) <$> threads) (MWork 0) new_BFSResult [].

End main.

(** * The distribution of the cores *)

Lemma take_away_loop m h i k fuel c :
  (1 ≤ m)%nat → (k ≤ fuel)%nat → (i + k ≤ h)%nat →
  take_away fuel i (c + k) c (replicate i (m - 1) ++ replicate (h - i) m)%nat =
    (replicate (i + k) (m - 1) ++ replicate (h - (i + k)) m)%nat.
Proof.
  intros Hm. revert i k. induction fuel as [|fuel IH]; intros i k Hk Hi.
  { assert (k = 0)%nat as -> by lia. by rewrite !Nat.add_0_r. }
  destruct k as [|k].
  { cbn [take_away]. rewrite (proj2 (Nat.ltb_ge _ _)) by lia. by rewrite !Nat.add_0_r. }
  cbn [take_away]. rewrite (proj2 (Nat.ltb_lt _ _)) by lia.
  assert (alter Nat.pred i (replicate i (m - 1) ++ replicate (h - i) m) =
    replicate (Datatypes.S i) (m - 1) ++ replicate (h - Datatypes.S i) m)%nat as ->.
  { replace (h - i)%nat with (Datatypes.S (h - Datatypes.S i)) by lia.
    rewrite alter_app_r_alt by (rewrite length_replicate; lia).
    rewrite length_replicate, Nat.sub_diag, replicate_S, replicate_S_end, <- app_assoc. cbn.
    by rewrite Nat.sub_1_r. }
  replace (c + Datatypes.S k - 1)%nat with (c + k)%nat by lia.
  rewrite IH by lia. by replace (Datatypes.S i + k)%nat with (i + Datatypes.S k)%nat by lia.
Qed.

Lemma sum_list_replicate n m : sum_list (replicate n m) = (n * m)%nat.
Proof. induction n as [|n IH]; [done|]. cbn. by rewrite IH. Qed.

(** The shape of the distribution when there are more cores than houses. *)
Lemma arr_shape c h :
  (1 ≤ h)%nat → (h < c)%nat → ∃ m k, (1 ≤ m)%nat ∧ (k ≤ h)%nat ∧ c = (k * m + (h - k) * (m + 1))%nat ∧
    num_threads_per_worker_arr c h = replicate k m ++ replicate (h - k) (m + 1)%nat ∧
    length (num_threads_per_worker_arr c h) = h ∧ sum_list (num_threads_per_worker_arr c h) = c.
Proof.
  intros Hh Hc. unfold num_threads_per_worker_arr. rewrite (proj2 (Nat.leb_gt _ _) Hc).
  set (M := max_threads_per_worker c h).
  assert (c ≤ M * h < c + h)%nat as HM.
  { unfold M, max_threads_per_worker. pose proof (Nat.div_mod_eq (c + h - 1) h).
    pose proof (Nat.mod_upper_bound (c + h - 1) h). nia. }
  assert (2 ≤ M)%nat as HM2 by nia.
  pose proof (take_away_loop M h 0 (M * h - c) (M * h) c) as Ht. cbn [replicate app] in Ht.
  rewrite !Nat.sub_0_r, !Nat.add_0_l in Ht. replace (c + (M * h - c))%nat with (M * h)%nat in Ht by lia.
  rewrite Ht by nia. exists (M - 1)%nat, (M * h - c)%nat.
  replace (M - 1 + 1)%nat with M by lia.
  rewrite length_app, !length_replicate, sum_list_with_app. unfold sum_list. cbn.
  change (sum_list_with id) with sum_list. rewrite !sum_list_replicate. split_and!; [lia|lia|nia|done|lia|nia].
Qed.

Lemma single_threads c h : (c ≤ h)%nat → num_threads_per_worker_arr c h = replicate c 1%nat.
Proof. intros Hc. unfold num_threads_per_worker_arr. by rewrite (proj2 (Nat.leb_le _ _) Hc). Qed.

Lemma arr_nonempty c h : (1 ≤ h)%nat → (1 ≤ c)%nat → (0 < length (num_threads_per_worker_arr c h))%nat.
Proof.
  intros Hh Hc. destruct (decide (c ≤ h)%nat); [rewrite single_threads, length_replicate by done; lia|].
  destruct (arr_shape c h Hh ltac:(lia)) as (? & ? & _ & _ & _ & _ & -> & _). lia.
Qed.

(** The cores are divided among the workers: with at least as many houses as cores
    every core gets a worker of one thread; otherwise every house gets a worker, the
    threads add up to the number of cores, and the workers differ by at most one thread,
    the smaller ones first. *)
Theorem cores_distributed c h :
  (1 ≤ h)%nat →
  ((c ≤ h)%nat → num_threads_per_worker_arr c h = replicate c 1%nat) ∧
  ((h < c)%nat → ∃ m k, (1 ≤ m)%nat ∧ (k ≤ h)%nat ∧ c = (k * m + (h - k) * (m + 1))%nat ∧
    num_threads_per_worker_arr c h = replicate k m ++ replicate (h - k) (m + 1)%nat ∧
    length (num_threads_per_worker_arr c h) = h ∧ sum_list (num_threads_per_worker_arr c h) = c).
Proof. intros Hh. split; [apply single_threads|by apply arr_shape]. Qed.

(** The example of the comment in [main]: 36 cores, 10 houses. *)
Lemma cores_distributed_witness :
  num_threads_per_worker_arr 36 10 = [3; 3; 3; 3; 4; 4; 4; 4; 4; 4]%nat ∧
  ((36 ≤ 10)%nat → num_threads_per_worker_arr 36 10 = replicate 36 1%nat) ∧
  ((10 < 36)%nat → ∃ m k, (1 ≤ m)%nat ∧ (k ≤ 10)%nat ∧ 36%nat = (k * m + (10 - k) * (m + 1))%nat ∧
    num_threads_per_worker_arr 36 10 = replicate k m ++ replicate (10 - k) (m + 1)%nat ∧
    length (num_threads_per_worker_arr 36 10) = 10%nat ∧ sum_list (num_threads_per_worker_arr 36 10) = 36%nat).
Proof. split; [reflexivity|]. apply (cores_distributed 36 10). lia. Defined.

(** * The invariant of the program *)

Section invariant.
Context (g : Context) {S : Type} `{SP : SearchSpec g S}.
Context (Hsym : ∀ v w, w ∈ nbrs (adjlist g) v → v ∈ nbrs (adjlist g) w).

Notation n := (length (houses g)).

(** A distance covered by what a worker has found. *)
Definition found_by (w : HouseWorker S) (d : nat) : Prop :=
  covers (w_result w) d ∨ ∃ q, w_pc w = HRun q ∧ covers (se_found q) d.

Definition found (ws : list (HouseWorker S)) (d : nat) : Prop := ∃ i w, ws !! i = Some w ∧ found_by w d.

(** What holds of a worker. *)
Record worker_ok (bm : list Z) (gi : Z) (cov : nat → Prop) (w : HouseWorker S) : Prop := {
  w_allowed : se_allowed (num_allowed_threads w);
  w_made : made_of (pairdist g) (w_result w);
  w_run q : w_pc w = HRun q → se_inv bm q ∧ Z.of_nat (se_idx q) < gi ∧
    (is_Some (se_result q) → all_met g cov (se_idx q));
  w_done : w_pc w = HDone → last_house g ≤ gi;
}.

(** What holds of main. *)
Definition main_ok (s : state S) : Prop :=
  match s_main s with
  | MWork k => (∀ i w, workers s !! i = Some w → (k ≤ i)%nat → w_pc w = WIdle) ∧
      (∀ i w, workers s !! i = Some w → (i < k)%nat → w_pc w ≠ WIdle) ∧ s_out s = []
  | MJoin k => (∀ i w, workers s !! i = Some w → w_pc w ≠ WIdle) ∧
      (∀ i w, workers s !! i = Some w → (i < k)%nat → w_pc w = HDone ∧ includes (s_result s) (w_result w)) ∧ s_out s = []
  | MExit => (∀ i w, workers s !! i = Some w → w_pc w = HDone ∧ includes (s_result s) (w_result w)) ∧
      s_out s = [min_dist (s_result s); max_dist (s_result s)]
  end.

Record state_ok (s : state S) : Prop := {
  i_bitmap : bm_ok g (visit_bitmap s);
  i_bits : bits_ok g (found (workers s)) (visit_bitmap s);
  i_index : 0 ≤ g_house_index s;
  i_taken k : Z.of_nat k < g_house_index s → Z.of_nat k < last_house g →
    all_met g (found (workers s)) k ∨ ∃ i w q, workers s !! i = Some w ∧ w_pc w = HRun q ∧ se_idx q = k;
  i_workers i w : workers s !! i = Some w → worker_ok (visit_bitmap s) (g_house_index s) (found (workers s)) w;
  i_main : main_ok s;
  i_result : made_of (pairdist g) (s_result s);
}.

Lemma all_met_mono (cov cov' : nat → Prop) k :
  (∀ d, cov d → cov' d) → all_met g cov k → all_met g cov' k.
Proof. intros Hc Hm j h h' d Hne Hh Hh' Hd. eapply Hc, Hm; eauto. Qed.

Lemma bits_ok_mono (cov cov' : nat → Prop) bm :
  (∀ d, cov d → cov' d) → bits_ok g cov bm → bits_ok g cov' bm.
Proof. intros Hc Hm i j b h h' d Hi Hb Hh Hh' Hd. eapply Hc, Hm; eauto. Qed.

Lemma worker_ok_mono bm bm' gi gi' (cov cov' : nat → Prop) w :
  bm_ok g bm' → bm_le bm bm' → gi ≤ gi' → (∀ d, cov d → cov' d) → worker_ok bm gi cov w → worker_ok bm' gi' cov' w.
Proof.
  intros Hbm Hle Hgi Hc Hw. constructor; try apply Hw.
  - intros q Hq. destruct (w_run _ _ _ _ Hw q Hq) as (H1 & H2 & H3). split_and!; [by eapply se_inv_le|lia|].
    intros Hr. eapply all_met_mono; [done|auto].
  - intros Hd. pose proof (w_done _ _ _ _ Hw Hd). lia.
Qed.

(** Replacing a worker by one that has found at least as much. *)
Lemma found_insert ws i w w' d :
  ws !! i = Some w → (∀ d, found_by w d → found_by w' d) → found ws d → found (<[i:=w']> ws) d.
Proof.
  intros Hi Hw (j & x & Hj & Hd). destruct (decide (j = i)) as [->|Hne].
  - simplify_eq. exists i, w'. rewrite list_lookup_insert_eq by by eapply lookup_lt_Some. auto.
  - exists j, x. by rewrite list_lookup_insert_ne.
Qed.

(** A step of a worker: it keeps the invariant if it has found no less, the bits are
    justified by what it has found then, and the indices taken stay accounted for. *)
Lemma worker_step_keeps s i w w' bm' gi' :
  state_ok s → workers s !! i = Some w →
  let ws' := <[i:=w']> (workers s) in
  (∀ d, found_by w d → found_by w' d) →
  w_pc w ≠ WIdle → w_pc w ≠ HDone → w_pc w' ≠ WIdle →
  bm_ok g bm' → bm_le (visit_bitmap s) bm' → bits_ok g (found ws') bm' →
  g_house_index s ≤ gi' →
  worker_ok bm' gi' (found ws') w' →
  (∀ k, Z.of_nat k < gi' → Z.of_nat k < last_house g → g_house_index s ≤ Z.of_nat k ∨ (∃ q, w_pc w = HRun q ∧ se_idx q = k) →
    all_met g (found ws') k ∨ ∃ q, w_pc w' = HRun q ∧ se_idx q = k) →
  state_ok (MkState bm' gi' ws' (s_main s) (s_result s) (s_out s)).
Proof.
  intros Hs Hi ws' Hf Hni Hnd Hni' Hl Hle Hb Hgi Hw Hk.
  assert (∀ d, found (workers s) d → found ws' d) as Hmono by (intros d; by eapply found_insert).
  assert (ws' !! i = Some w') as Hi' by (apply list_lookup_insert_eq; by eapply lookup_lt_Some).
  constructor; cbn; try done.
  - pose proof (i_index _ Hs). lia.
  - intros k Hk1 Hk2. destruct (decide (g_house_index s ≤ Z.of_nat k)) as [Hge|Hlt].
    { destruct (Hk k Hk1 Hk2 (or_introl Hge)) as [|(q & Hq & Hqk)]; [by left|right; eauto 6]. }
    destruct (i_taken _ Hs k ltac:(lia) Hk2) as [Hm|(j & x & q & Hj & Hq & Hqk)]; [left; by eapply all_met_mono|].
    destruct (decide (j = i)) as [->|Hne]; simplify_eq.
    + destruct (Hk (se_idx q) Hk1 Hk2 (or_intror (ex_intro _ q (conj Hq eq_refl)))) as [|(q' & Hq' & Hqk')]; [by left|right; eauto 6].
    + right. exists j, x, q. unfold ws'. by rewrite list_lookup_insert_ne.
  - apply (pool_insert (λ _, worker_ok bm' gi' (found ws'))); [|done]. intros j x Hj.
    eapply worker_ok_mono; [done..|]. by eapply (i_workers _ Hs).
  - pose proof (i_main _ Hs) as Hm. unfold main_ok in *. cbn. destruct (s_main s) as [k|k|].
    + destruct Hm as (H1 & H2 & H3). split_and!; [| |done].
      * intros j x [[<- ->]|[_ Hj]]%lookup_insert_inv Hkj; [by specialize (H1 _ _ Hi Hkj)|eauto].
      * intros j x [[<- ->]|[_ Hj]]%lookup_insert_inv Hkj; eauto.
    + destruct Hm as (H1 & H2 & H3). split_and!; [| |done].
      * intros j x [[<- ->]|[_ Hj]]%lookup_insert_inv; eauto.
      * intros j x [[<- ->]|[_ Hj]]%lookup_insert_inv Hkj; [by destruct (H2 _ _ Hi Hkj)|eauto].
    + destruct Hm as [H1 _]. by destruct (H1 _ _ Hi).
  - apply Hs.
Qed.

Lemma found_here ws i w d : ws !! i = Some w → found_by w d → found ws d.
Proof. intros. by exists i, w. Qed.

(** A worker whose result does not change and which runs no search. *)
Lemma found_by_result (w w' : HouseWorker S) d :
  w_result w' = w_result w → (∀ q, w_pc w ≠ HRun q) → found_by w d → found_by w' d.
Proof. intros Hr Hq [Hd|(q & He & _)]; [left; by rewrite Hr|by destruct (Hq q)]. Qed.

(** Loop test and the index that is too large: nothing but the place changes. *)
Lemma idle_step_keeps s i w p gi' :
  state_ok s → workers s !! i = Some w → w_pc w = HTest ∨ w_pc w = HTake →
  p = HTake ∨ p = HDone ∧ last_house g ≤ g_house_index s →
  gi' = g_house_index s ∨ gi' = g_house_index s + 1 ∧ last_house g ≤ g_house_index s →
  state_ok (MkState (visit_bitmap s) gi' (<[i:=MkWorker (num_allowed_threads w) (w_result w) p]> (workers s))
    (s_main s) (s_result s) (s_out s)).
Proof.
  intros Hs Hi Hpc Hp Hgi. pose proof (i_workers _ Hs i w Hi) as Hw.
  assert (∀ d, found_by w d → found_by (MkWorker (num_allowed_threads w) (w_result w) p) d) as Hf.
  { intros d. apply found_by_result; [done|]. intros q Hq. destruct Hpc; congruence. }
  eapply worker_step_keeps; try done.
  - destruct Hpc; congruence.
  - destruct Hpc; congruence.
  - cbn. intros ->. destruct Hp as [|[]]; congruence.
  - apply Hs.
  - eapply bits_ok_mono; [|apply Hs]. intros d. by eapply found_insert.
  - lia.
  - constructor; cbn; try apply Hw; [intros q ->; destruct Hp as [|[]]; congruence|].
    intros ->. destruct Hp as [|[]]; [done|lia].
  - intros k Hk1 Hk2 [Hge|(q & Hq & _)]; [lia|destruct Hpc; congruence].
Qed.

(** Taking an index and starting the search of its house. *)
Lemma take_step_keeps s i w q :
  state_ok s → workers s !! i = Some w → w_pc w = HTake → g_house_index s < last_house g →
  se_inv (visit_bitmap s) q → Z.of_nat (se_idx q) = g_house_index s → se_result q = None →
  state_ok (MkState (visit_bitmap s) (g_house_index s + 1)
    (<[i:=MkWorker (num_allowed_threads w) (w_result w) (HRun q)]> (workers s)) (s_main s) (s_result s) (s_out s)).
Proof.
  intros Hs Hi Hpc Hlt Hq Hidx Hres. pose proof (i_workers _ Hs i w Hi) as Hw.
  assert (∀ d, found_by w d → found_by (MkWorker (num_allowed_threads w) (w_result w) (HRun q)) d) as Hf.
  { intros d. apply found_by_result; [done|]. congruence. }
  eapply worker_step_keeps; try done; try congruence.
  - apply Hs.
  - eapply bits_ok_mono; [|apply Hs]. intros d. by eapply found_insert.
  - lia.
  - constructor; cbn; try apply Hw; [|done]. intros q' [= <-]. split_and!; [done|lia|].
    rewrite Hres. by intros ?%is_Some_None.
  - intros k Hk1 Hk2 [Hge|(q' & Hq' & _)]; [|congruence]. right. exists q. split; [done|lia].
Qed.

(** The search returned: its result is taken over. *)
Lemma return_step_keeps s i w q r :
  state_ok s → workers s !! i = Some w → w_pc w = HRun q → se_result q = Some r →
  state_ok (MkState (visit_bitmap s) (g_house_index s)
    (<[i:=MkWorker (num_allowed_threads w) (Update (w_result w) r) HTest]> (workers s)) (s_main s) (s_result s) (s_out s)).
Proof.
  intros Hs Hi Hpc Hr. pose proof (i_workers _ Hs i w Hi) as Hw.
  destruct (w_run _ _ _ _ Hw q Hpc) as (Hq & Hlt & Hmet).
  pose proof (se_result_found _ _ _ Hq Hr) as ->. destruct (Update_includes (w_result w) (se_found q)) as [Hu1 Hu2].
  assert (∀ d, found_by w d → found_by (MkWorker (num_allowed_threads w) (Update (w_result w) (se_found q)) HTest) d) as Hf.
  { intros d [Hd|(q' & Hq' & Hd)]; left; cbn; (eapply covers_includes; [done|]); [done|]. by assert (q' = q) as -> by congruence. }
  eapply worker_step_keeps; try done; try congruence.
  - apply Hs.
  - eapply bits_ok_mono; [|apply Hs]. intros d. by eapply found_insert.
  - constructor; cbn; try done; [apply Hw|]. apply made_of_Update; [apply Hw|by eapply se_made].
  - intros k Hk1 Hk2 [Hge|(q' & Hq' & <-)]; [lia|]. rewrite Hpc in Hq'. injection Hq' as <-. left.
    eapply all_met_mono; [|apply Hmet; eauto]. intros d. by eapply found_insert.
Qed.

(** The search makes a step. *)
Lemma search_step_keeps s i w q c bm' q' :
  state_ok s → workers s !! i = Some w → w_pc w = HRun q → se_next c (visit_bitmap s) q = Some (bm', q') →
  state_ok (MkState bm' (g_house_index s)
    (<[i:=MkWorker (num_allowed_threads w) (w_result w) (HRun q')]> (workers s)) (s_main s) (s_result s) (s_out s)).
Proof.
  intros Hs Hi Hpc Hn. pose proof (i_workers _ Hs i w Hi) as Hw.
  destruct (w_run _ _ _ _ Hw q Hpc) as (Hq & Hlt & _).
  destruct (se_step_ok _ _ _ _ _ Hq (i_bitmap _ Hs) Hn) as [(Hq' & Hidx & Hl & Hle & Hinc) Hcov].
  set (w' := MkWorker (num_allowed_threads w) (w_result w) (HRun q')).
  assert (∀ d, found_by w d → found_by w' d) as Hf.
  { intros d [Hd|(q2 & Hq2 & Hd)]; [by left|right]. assert (q2 = q) as -> by congruence. exists q'. split; [done|]. by eapply covers_includes. }
  assert (<[i:=w']> (workers s) !! i = Some w') as Hi' by (apply list_lookup_insert_eq; by eapply lookup_lt_Some).
  destruct (Hcov (found (<[i:=w']> (workers s)))) as [Hbits Hmet].
  { eapply bits_ok_mono; [|apply Hs]. intros d. by eapply found_insert. }
  { intros d Hd. eapply found_here; [done|]. right. eauto. }
  eapply worker_step_keeps; try done; try congruence.
  - constructor; cbn; try apply Hw; [|done]. intros q2 [= <-]. rewrite Hidx. by split_and!.
  - intros k Hk1 Hk2 [Hge|(q2 & Hq2 & <-)]; [lia|]. right. exists q'. split; [done|]. congruence.
Qed.

Lemma worker_next_keeps s i c s' : state_ok s → next g (CWorker i c) s = Some s' → state_ok s'.
Proof.
  intros Hs Hn. cbn [next] in Hn. destruct (workers s !! i) as [w|] eqn:Hi; [|done]. cbn [mbind option_bind] in Hn.
  pose proof (i_workers _ Hs i w Hi) as Hw.
  unfold BFSThread in Hn. destruct (w_pc w) as [| | |q|] eqn:Hpc; cbn [mbind option_bind] in Hn; [done|..|done].
  - injection Hn as <-. apply idle_step_keeps; [done..|by left| |by left].
    destruct (Z.ltb_spec (g_house_index s) (last_house g)); [by left|by right].
  - destruct (Z.leb_spec (last_house g) (g_house_index s)) as [Hle|Hlt]; cbn [mbind option_bind] in Hn.
    { injection Hn as <-. apply idle_step_keeps; [done..|by right|by right|by right]. }
    destruct (houses g !! Z.to_nat (g_house_index s)) as [house|] eqn:Hh; cbn [mbind option_bind] in Hn; [|done].
    destruct (se_start_ok _ _ _ (visit_bitmap s) (w_allowed _ _ _ _ Hw) Hh (i_bitmap _ Hs)) as (q & Hst & Hq & Hidx & Hres).
    rewrite Hst in Hn. cbn [mbind option_bind] in Hn. injection Hn as <-. apply take_step_keeps; try done.
    pose proof (i_index _ Hs). lia.
  - destruct (se_result q) as [r|] eqn:Hr; cbn [mbind option_bind] in Hn.
    { injection Hn as <-. by eapply return_step_keeps. }
    destruct (se_next c (visit_bitmap s) q) as [[bm' q']|] eqn:Hq; cbn [mbind option_bind] in Hn; [|done].
    injection Hn as <-. by eapply search_step_keeps.
Qed.

(** Starting a worker. *)
Lemma work_step_keeps s k w :
  state_ok s → s_main s = MWork k → workers s !! k = Some w →
  state_ok (MkState (visit_bitmap s) (g_house_index s) (<[k:=Work w]> (workers s)) (MWork (Datatypes.S k)) (s_result s) (s_out s)).
Proof.
  intros Hs Hm Hk. pose proof (i_main _ Hs) as Hmain. unfold main_ok in Hmain. rewrite Hm in Hmain.
  destruct Hmain as (H1 & H2 & H3). pose proof (H1 _ _ Hk (le_n k)) as Hidle.
  assert (∀ d, found_by w d → found_by (Work w) d) as Hf.
  { intros d. apply found_by_result; [done|]. congruence. }
  assert (∀ d, found (workers s) d → found (<[k:=Work w]> (workers s)) d) as Hmono by (intros d; by eapply found_insert).
  constructor; cbn; try apply Hs.
  - eapply bits_ok_mono; [done|apply Hs].
  - intros j Hj1 Hj2. destruct (i_taken _ Hs j Hj1 Hj2) as [Hmet|(i & x & q & Hi & Hq & Hqj)];
      [left; by eapply all_met_mono|right].
    exists i, x, q. split_and!; [|done|done]. destruct (decide (i = k)) as [->|]; [congruence|].
    by rewrite list_lookup_insert_ne.
  - apply (pool_insert (λ _, worker_ok _ _ _)).
    + intros j x Hj. eapply worker_ok_mono; [apply Hs|done|done|done|]. by eapply (i_workers _ Hs).
    + pose proof (i_workers _ Hs _ _ Hk) as Hw. constructor; cbn; try done; apply Hw.
  - unfold main_ok. cbn. split_and!; [| |done].
    + intros i x [[<- ->]|[_ Hi]]%lookup_insert_inv Hle; [lia|]. apply (H1 _ _ Hi). lia.
    + intros i x [[<- ->]|[Hne Hi]]%lookup_insert_inv Hlt; [done|]. apply (H2 _ _ Hi). lia.
Qed.

Lemma main_next_keeps s s' : state_ok s → next g CMain s = Some s' → state_ok s'.
Proof.
  intros Hs Hn. pose proof (i_main _ Hs) as Hm. unfold main_ok in Hm. cbn [next] in Hn. unfold main_step in Hn.
  destruct s as [bm gi ws m r out]. cbn in Hm. destruct m as [k|k|]; [..|done]; destruct (ws !! k) as [w|] eqn:Hk.
  - injection Hn as <-. exact (work_step_keeps _ k w Hs eq_refl Hk).
  - injection Hn as <-. destruct Hs. constructor; try done. unfold main_ok. cbn. destruct Hm as (_ & H2 & H3).
    apply lookup_ge_None in Hk. split_and!; [|intros; lia|done].
    intros i w Hi. apply (H2 _ _ Hi). apply lookup_lt_Some in Hi. lia.
  - unfold JoinAndUpdateResult in Hn. destruct (w_pc w) eqn:Hw; cbn [mbind option_bind] in Hn; try done.
    injection Hn as <-. destruct (Update_includes r (w_result w)) as [Hu1 Hu2]. destruct Hm as (H1 & H2 & H3).
    pose proof (i_workers _ Hs _ _ Hk) as Hok. destruct Hs. constructor; try done; cbn in *.
    + unfold main_ok. cbn. split_and!; [done| |done]. intros i x Hi Hlt.
      destruct (decide (i = k)) as [->|]; [by simplify_eq|].
      destruct (H2 i x Hi ltac:(lia)) as [Hd Hinc]. split; [done|]. exact (includes_trans _ _ _ Hu1 Hinc).
    + apply made_of_Update; [done|apply Hok].
  - injection Hn as <-. destruct Hs. constructor; try done. unfold main_ok. cbn. destruct Hm as (_ & H2 & ->).
    apply lookup_ge_None in Hk. split; [|done]. intros i w Hi. apply (H2 _ _ Hi). apply lookup_lt_Some in Hi. lia.
Qed.

Lemma init_ok threads : Forall se_allowed threads → state_ok (init threads).
Proof.
  intros Ht. constructor; unfold init; cbn [visit_bitmap g_house_index workers s_main s_result].
  - split; [apply length_replicate|]. intros i bits j Hi Hb. apply lookup_replicate in Hi as [-> _]. by rewrite Z.bits_0 in Hb.
  - intros i j bits h h' d Hi Hb. apply lookup_replicate in Hi as [-> _]. by rewrite Z.bits_0 in Hb.
  - done.
  - intros k Hk. lia.
  - intros i w Hi. rewrite list_lookup_fmap in Hi. destruct (threads !! i) as [t|] eqn:Hti; [|done].
    cbn in Hi. injection Hi as <-. constructor; cbn; try done; [|apply made_of_new].
    rewrite Forall_lookup in Ht. eauto.
  - unfold main_ok. cbn. split_and!; [|lia|done]. intros i w Hi _. rewrite list_lookup_fmap in Hi.
    destruct (threads !! i); [|done]. by injection Hi as <-.
  - apply made_of_new.
Qed.

Lemma reachable_ok threads s : Forall se_allowed threads → reachable (init threads) (step g) s → state_ok s.
Proof.
  intros Ht Hr. eapply reachable_invariant; [by apply init_ok| |done]. intros a b Ha [[|i c] Hn].
  - by eapply main_next_keeps.
  - by eapply worker_next_keeps.
Qed.

(** When main has returned, every distance between two houses has been covered. *)
Lemma exit_covers s d :
  state_ok s → workers s ≠ [] → s_main s = MExit → pairdist g d → covers (s_result s) d.
Proof.
  intros Hs Hne He Hd. pose proof (i_main _ Hs) as Hm. unfold main_ok in Hm. rewrite He in Hm. destruct Hm as [Hall _].
  assert (last_house g ≤ g_house_index s) as Hlast.
  { destruct (workers s) as [|w ws] eqn:Hws; [done|]. destruct (Hall 0%nat w eq_refl) as [Hw _].
    apply (w_done _ _ _ _ (i_workers _ Hs 0%nat w ltac:(by rewrite Hws)) Hw). }
  assert (∀ k, Z.of_nat k < last_house g → all_met g (covers (s_result s)) k) as Hmet.
  { intros k Hk. destruct (i_taken _ Hs k ltac:(lia) Hk) as [Hm|(i & w & q & Hi & Hq & _)];
      [|destruct (Hall _ _ Hi); congruence].
    eapply all_met_mono; [|done]. intros d' (i & w & Hi & [Hc|(q & Hq & _)]); destruct (Hall _ _ Hi) as [Hd' Hinc].
    - by eapply covers_includes.
    - congruence. }
  destruct Hd as (i & j & h & h' & Hij & Hi & Hj & Hd). unfold last_house in Hmet.
  pose proof (lookup_lt_Some _ _ _ Hi). pose proof (lookup_lt_Some _ _ _ Hj).
  destruct (decide (Z.of_nat i < Z.of_nat n - 1)) as [Hlt|Hge].
  - by eapply (Hmet i Hlt j).
  - eapply (Hmet j ltac:(lia) i); [lia|done|done|]. by apply isdist_sym.
Qed.

End invariant.

(** * Termination *)

Section termination.
Context (g : Context) {S : Type} `{SM : SearchMeasure g S}.

(** Houses not taken yet, then the levels of the searches that run, then the work of the
    workers and main. *)
Definition pc_level (p : wpc S) : Z := match p with HRun q => Z.of_nat (se_size q).1 | _ => 0 end.
Definition pc_work (p : wpc S) : Z :=
  match p with WIdle => 4 | HTest => 3 | HTake => 2 | HRun q => 4 + Z.of_nat (se_size q).2 | HDone => 1 end.

Definition mpc_size (ws : nat) (m : mpc) : Z :=
  Z.of_nat match m with MWork k => (ws - k) + ws + 2 | MJoin k => (ws - k) + 1 | MExit => 0 end.

Definition houses_left (s : state S) : nat := Z.to_nat (last_house g - g_house_index s).

Definition work_left (s : state S) : nat * nat :=
  (Z.to_nat (Zsum (pc_level ∘ w_pc) (workers s)),
   Z.to_nat (Zsum (pc_work ∘ w_pc) (workers s) + mpc_size (length (workers s)) (s_main s))).

Definition smaller (s' s : state S) : Prop :=
  (houses_left s' < houses_left s)%nat ∨ houses_left s' = houses_left s ∧ lex_lt (work_left s') (work_left s).

Lemma smaller_wf : well_founded smaller.
Proof.
  intros s. remember (houses_left s) as a eqn:Ha. revert s Ha.
  induction a as [a IHa] using lt_wf_ind. intros s Ha. remember (work_left s) as b eqn:Hb. revert s Ha Hb.
  induction (lex_lt_wf b) as [b _ IHb]. intros s -> ->. constructor. intros s' [Hlt|[He Hlt]].
  - by apply (IHa _ Hlt).
  - by apply (IHb _ Hlt).
Qed.

Lemma sizes_nonneg ws m r :
  0 ≤ Zsum (pc_level ∘ w_pc) ws ∧ 0 ≤ Zsum (pc_work ∘ w_pc) ws + mpc_size r m.
Proof.
  split; [apply Zsum_nonneg; intros x _; cbn; destruct (w_pc x); cbn; lia|].
  apply Z.add_nonneg_nonneg; [|unfold mpc_size; lia]. apply Zsum_nonneg; intros x _; cbn; destruct (w_pc x); cbn; lia.
Qed.

(** Main gets on. *)
Lemma work_left_main bm gi ws m m' r r' out out' :
  mpc_size (length ws) m' < mpc_size (length ws) m → lex_lt (work_left (MkState bm gi ws m' r' out')) (work_left (MkState bm gi ws m r out)).
Proof. intros Hm. destruct (sizes_nonneg ws m' (length ws)). apply lex_lt_Z; cbn [workers s_main]; [done..|]. right. lia. Qed.

(** A worker whose place gets smaller makes the state smaller. *)
Lemma work_left_insert s i w w' bm gi m r out :
  workers s !! i = Some w →
  pc_level (w_pc w') < pc_level (w_pc w) ∨ pc_level (w_pc w') = pc_level (w_pc w) ∧ pc_work (w_pc w') < pc_work (w_pc w) →
  mpc_size (length (workers s)) m ≤ mpc_size (length (workers s)) (s_main s) →
  lex_lt (work_left (MkState bm gi (<[i:=w']> (workers s)) m r out)) (work_left s).
Proof.
  intros Hi Hp Hm. destruct (sizes_nonneg (<[i:=w']> (workers s)) m (length (<[i:=w']> (workers s)))) as [H1 H2].
  apply lex_lt_Z; cbn [workers s_main]; [done..|].
  rewrite length_insert, !(Zsum_insert _ _ _ _ _ Hi). cbn. destruct Hp as [Hp|[Hp Hp']]; [left; lia|right]. split; lia.
Qed.

Lemma step_smaller s s' : state_ok g s → step g s s' → smaller s' s.
Proof.
  intros Hs [[|i c] Hn]; cbn [next] in Hn.
  - right. pose proof (i_main _ _ Hs) as Hm. unfold main_ok in Hm.
    destruct s as [bm gi ws m r out]. cbn in Hm. unfold main_step in Hn.
    destruct m as [k|k|]; [..|done]; destruct (ws !! k) as [w|] eqn:Hk.
    + injection Hn as <-. split; [done|]. destruct Hm as (H1 & _). pose proof (H1 k w Hk (le_n k)) as Hw.
      apply (work_left_insert (MkState bm gi ws (MWork k) r out) k w); [done|right; cbn; rewrite Hw; done|].
      cbn [workers s_main]. unfold mpc_size. lia.
    + injection Hn as <-. split; [done|]. apply work_left_main. unfold mpc_size. lia.
    + unfold JoinAndUpdateResult in Hn. destruct (w_pc w); try done. injection Hn as <-. split; [done|].
      apply lookup_lt_Some in Hk. apply work_left_main. unfold mpc_size. lia.
    + injection Hn as <-. split; [done|]. apply work_left_main. unfold mpc_size. lia.
  - destruct (workers s !! i) as [w|] eqn:Hi; [|done]. cbn [mbind option_bind] in Hn.
    pose proof (i_workers _ _ Hs i w Hi) as Hw. unfold BFSThread in Hn.
    destruct (w_pc w) as [| | |q|] eqn:Hpc; cbn [mbind option_bind] in Hn; [done|..|done].
    + injection Hn as <-. right. split; [done|]. apply (work_left_insert s i w); [done| |done].
      right. cbn. rewrite Hpc. by case_match.
    + unfold smaller, houses_left. destruct (Z.leb_spec (last_house g) (g_house_index s)) as [Hle|Hlt]; cbn [mbind option_bind] in Hn.
      * injection Hn as <-. right. split; [cbn; lia|]. apply (work_left_insert s i w); [done| |done]. right. cbn. by rewrite Hpc.
      * left. destruct (houses g !! _); [|done]. cbn [mbind option_bind] in Hn.
        destruct (se_start _ _); [|done]. injection Hn as <-. cbn. lia.
    + destruct (w_run _ _ _ _ _ Hw q Hpc) as (Hq & _). right. destruct (se_result q) as [r|] eqn:Hr; cbn [mbind option_bind] in Hn.
      * injection Hn as <-. split; [done|]. apply (work_left_insert s i w); [done| |done]. cbn. rewrite Hpc. cbn. lia.
      * destruct (se_next c (visit_bitmap s) q) as [[bm' q']|] eqn:Hnx; cbn [mbind option_bind] in Hn; [|done].
        injection Hn as <-. split; [done|]. pose proof (se_decreases _ _ _ _ _ Hq (i_bitmap _ _ Hs) Hnx) as Hd.
        apply (work_left_insert s i w); [done| |done]. cbn. rewrite Hpc. cbn. unfold lex_lt in Hd. lia.
Qed.

(** A worker that has started and not returned can go on. *)
Lemma worker_progress s i w :
  state_ok g s → workers s !! i = Some w → w_pc w ≠ WIdle → w_pc w ≠ HDone → ∃ s', step g s s'.
Proof.
  intros Hs Hi H1 H2. pose proof (i_workers _ _ Hs i w Hi) as Hw.
  assert (∃ c r, BFSThread g c (visit_bitmap s) (g_house_index s) w = Some r) as (c & [[bm gi] w'] & Hr).
  { unfold BFSThread. destruct (w_pc w) as [| | |q|] eqn:Hpc; [done|..|done].
    - exists 0%nat. eauto.
    - exists 0%nat. destruct (Z.leb_spec (last_house g) (g_house_index s)) as [Hle|Hlt]; [eauto|].
      pose proof (i_index _ _ Hs). unfold last_house in Hlt.
      destruct (lookup_lt_is_Some_2 (houses g) (Z.to_nat (g_house_index s)) ltac:(lia)) as [h Hh]. rewrite Hh.
      destruct (se_start_ok _ _ _ (visit_bitmap s) (w_allowed _ _ _ _ _ Hw) Hh (i_bitmap _ _ Hs)) as (q & Hst & _). cbn [mbind option_bind]. rewrite Hst. eauto.
    - destruct (se_result q) as [r|] eqn:Hr; [exists 0%nat; eauto|].
      destruct (w_run _ _ _ _ _ Hw q Hpc) as (Hq & _).
      destruct (se_progress _ _ Hq (i_bitmap _ _ Hs) Hr) as (c & bm' & q' & Hn). exists c. rewrite Hn. cbn. eauto. }
  eexists. exists (CWorker i c). cbn [next]. rewrite Hi. cbn [mbind option_bind]. rewrite Hr. cbn [mbind option_bind]. done.
Qed.

Lemma main_step_some (s : state S) : is_Some (main_step s) → ∃ s', step g s s'.
Proof. intros [s' Hs]. exists s', CMain. done. Qed.

Lemma state_progress s : state_ok g s → s_main s = MExit ∨ ∃ s', step g s s'.
Proof.
  intros Hs. pose proof (i_main _ _ Hs) as Hm. unfold main_ok in Hm.
  destruct (s_main s) as [k|k|] eqn:He; [right..|by left].
  - apply main_step_some. unfold main_step. destruct s as [bm gi ws m r out]. cbn in He. subst m.
    destruct (ws !! k); eauto.
  - destruct Hm as (H1 & _). destruct (workers s !! k) as [w|] eqn:Hk.
    + assert (w_pc w = HDone ∨ w_pc w ≠ HDone) as [Hd|Hd] by (destruct (w_pc w); auto).
      * apply main_step_some. unfold main_step. destruct s as [bm gi ws m r out]. cbn in He, Hk. subst m.
        rewrite Hk. unfold JoinAndUpdateResult. rewrite Hd. eauto.
      * eapply worker_progress; eauto.
    + apply main_step_some. unfold main_step. destruct s as [bm gi ws m r out]. cbn in He, Hk. subst m.
      rewrite Hk. eauto.
Qed.

(** No execution from a state of the invariant is infinite. *)
Lemma step_acc s : state_ok g s → Acc (λ s' s, step g s s') s.
Proof.
  induction (smaller_wf s) as [s _ IH]. intros Hs. constructor. intros s' Hst. apply IH; [by apply step_smaller|].
  destruct Hst as [[|i c] Hn]; [by eapply main_next_keeps|by eapply worker_next_keeps].
Qed.

End termination.

(** * The whole program *)

(** The program: a worker with one thread runs the single-threaded search. *)
Definition main_next (g : Context) : choice → state (search + multi) → option (state (search + multi)) :=
  next g (SI:=house_impl g).
Definition main_run (g : Context) : relation (state (search + multi)) := step g (SI:=house_impl g).

(** The state in which [main] starts its workers: after reading the input. *)
Definition main_init (num_cores : nat) (g : Context) : state (search + multi) :=
  init (num_threads_per_worker_arr num_cores (length (houses g))).

(** A distance between two different houses of the input. *)
Definition house_dist (hs : list nat) (lines : list (nat * list nat)) (d : nat) : Prop :=
  ∃ h h', h ∈ hs ∧ h' ∈ hs ∧ h ≠ h' ∧ isdist (λ v, edges_nbrs v (edges lines)) h h' d.

(** The two numbers to be printed. *)
Definition answer (P : nat → Prop) (out : list Z) : Prop :=
  ((∀ d, ¬ P d) ∧ out = [INT_MAX; 0]) ∨
  ∃ m M, P m ∧ P M ∧ (∀ d, P d → (m ≤ d ≤ M)%nat) ∧ out = [Z.of_nat m; Z.of_nat M].

(** The inputs: vertices in range, at most ten neighbours each, at most 64 different
    houses. *)
Record input_ok (hs : list nat) (nv : nat) (lines : list (nat * list nat)) : Prop := {
  in_houses : Forall (λ h, h ≤ nv)%nat hs;
  in_lines : Forall (λ l, l.1 ≤ nv ∧ Forall (λ w, w ≤ nv) l.2)%nat lines;
  in_degree x : (length (edges_nbrs x (edges lines)) ≤ MAX_EDGES_PER_VERTEX)%nat;
  in_nodup : NoDup hs;
  in_max : (length hs ≤ MAX_HOUSE)%nat;
  in_int : Z.of_nat nv < INT_MAX;
}.

Lemma pairdist_range g d : houses_ok g → pairdist g d → (1 ≤ d ≤ num_vertices g)%nat.
Proof.
  intros Hg (i & j & h & h' & Hij & Hi & Hj & Hd). split.
  - destruct d as [|d]; [|lia]. apply isdist_zero in Hd as ->. destruct Hij.
    eapply (NoDup_lookup (houses g)); [apply Hg|done|done].
  - eapply isdist_bound; [|exact Hd]. intros m v Hw. eapply (walk_in_range g (h_ctx _ Hg)); [done|].
    apply (c_houses _ (h_ctx _ Hg)). by eapply list_elem_of_lookup_2.
Qed.

(** Results that cover the distances and are made of them. *)
Lemma answer_covers g r :
  houses_ok g → Z.of_nat (num_vertices g) < INT_MAX → made_of (pairdist g) r →
  (∀ d, pairdist g d → covers r d) → answer (pairdist g) [min_dist r; max_dist r].
Proof.
  intros Hg Hnv [Hmin Hmax] Hcov. unfold covers in Hcov.
  destruct Hmin as [Hmin|(m & Hm & Hmin)], Hmax as [Hmax|(M & HM & Hmax)].
  - left. rewrite Hmin, Hmax. split; [|done]. intros d Hd. specialize (Hcov d Hd). unfold INT_MAX in *. lia.
  - specialize (Hcov M HM). pose proof (pairdist_range g M Hg HM). lia.
  - specialize (Hcov m Hm). pose proof (pairdist_range g m Hg Hm). lia.
  - right. exists m, M. rewrite Hmin, Hmax. split_and!; try done. intros d Hd. specialize (Hcov d Hd). lia.
Qed.

Lemma answer_proper (P Q : nat → Prop) out : (∀ d, P d ↔ Q d) → answer P out → answer Q out.
Proof.
  intros He [[Hn ->]|(m & M & Hm & HM & Hall & ->)].
  - left. split; [|done]. intros d Hd. by apply (Hn d), He.
  - right. exists m, M. split_and!; [by apply He..| |done]. intros d Hd. by apply Hall, He.
Qed.

(** What [Read] gives for such an input. *)
Lemma read_houses hs nv lines :
  input_ok hs nv lines → ∃ g, Reader.Read (print_input hs nv lines) = Some g ∧ houses_ok g ∧
    houses g = hs ∧ num_vertices g = nv ∧ ∀ d, pairdist g d ↔ house_dist hs lines d.
Proof.
  intros Hin. destruct (Read_ok hs nv lines) as (g & Hr & Hok & Hnv & Hhs & Hedge); [apply Hin..|].
  exists g. split_and!; try done.
  - constructor; [done|rewrite Hhs; apply Hin|rewrite Hhs; apply Hin].
  - assert (∀ v w, w ∈ nbrs (adjlist g) v ↔ w ∈ edges_nbrs v (edges lines)) as He.
    { intros v w. by rewrite Hedge, elem_of_edges_nbrs. }
    intros d. unfold pairdist, house_dist. rewrite Hhs. split.
    + intros (i & j & h & h' & Hij & Hi & Hj & Hd). exists h, h'.
      split_and!; [by eapply list_elem_of_lookup_2..| |by eapply isdist_proper].
      intros ->. apply Hij. eapply (NoDup_lookup hs); [apply Hin|done|done].
    + intros (h & h' & [i Hi]%list_elem_of_lookup & [j Hj]%list_elem_of_lookup & Hne & Hd).
      exists i, j, h, h'. split_and!; [congruence|done|done|]. eapply isdist_proper; [|done]. intros v w. by rewrite He.
Qed.

(** No worker gets more than 64 threads. *)
Lemma threads_allowed c h :
  (1 ≤ h)%nat → (c ≤ MAX_HOUSE * h)%nat → Forall (λ t, 1 ≤ t ≤ MAX_HOUSE)%nat (num_threads_per_worker_arr c h).
Proof.
  intros Hh Hc. destruct (decide (c ≤ h)%nat) as [Hle|Hgt].
  { rewrite single_threads by done. apply Forall_replicate. unfold MAX_HOUSE. lia. }
  destruct (arr_shape c h Hh ltac:(lia)) as (m & k & Hm & Hk & Hck & -> & _).
  unfold MAX_HOUSE in *. apply Forall_app. split.
  - destruct (decide (k = 0)%nat) as [->|]; [apply Forall_nil; done|]. apply Forall_replicate. nia.
  - destruct (decide (k = h)%nat) as [->|]; [rewrite Nat.sub_diag; apply Forall_nil; done|]. apply Forall_replicate. nia.
Qed.

Lemma workers_kept {S} `{SI : SearchImpl S} g (s s' : state S) :
  (∃ w, workers s !! 0%nat = Some w) → step g s s' → ∃ w, workers s' !! 0%nat = Some w.
Proof.
  assert (∀ (ws : list (HouseWorker S)) i x, (∃ w, ws !! 0%nat = Some w) → ∃ w, <[i:=x]> ws !! 0%nat = Some w) as Hins.
  { intros [|w ws] [|i] x [w' Hw']; cbn in *; eauto. }
  intros Hw [[|i c] Hn]; cbn [next] in Hn.
  - destruct s as [bm gi ws m r out]. unfold main_step in Hn. cbn in Hw.
    destruct m as [k|k|]; [..|done]; destruct (ws !! k) as [w|]; try (injection Hn as <-; cbn; eauto).
    destruct (JoinAndUpdateResult w r); [|done]. by injection Hn as <-.
  - destruct (workers s !! i); [|done]. cbn [mbind option_bind] in Hn.
    destruct (BFSThread _ _ _ _ _) as [[[bm gi] w']|]; [|done]. injection Hn as <-. cbn. eauto.
Qed.

(** The program without its vector pools, whose control P1Pooled.v adds: when main has
    returned, the two numbers it has printed are the answer. *)
Lemma prints_answer hs nv lines c g s :
  input_ok hs nv lines → (1 ≤ length hs)%nat → (1 ≤ c ≤ MAX_HOUSE * length hs)%nat →
  Reader.Read (print_input hs nv lines) = Some g →
  reachable (main_init c g) (main_run g) s → s_main s = MExit →
  answer (house_dist hs lines) (s_out s).
Proof.
  intros Hin Hh Hc Hr Hs He. destruct (read_houses hs nv lines Hin) as (g' & Hr' & Hg & Hhs & Hnv & Hd).
  assert (g' = g) as -> by congruence. unfold main_init in Hs. rewrite Hhs in Hs.
  pose proof (threads_allowed c (length hs) Hh ltac:(lia)) as Ht.
  assert (∃ w, workers s !! 0%nat = Some w) as [w Hw].
  { eapply (reachable_invariant _ _ (λ s, ∃ w, workers s !! 0%nat = Some w)); [| |exact Hs].
    - unfold init. cbn. rewrite list_lookup_fmap.
      destruct (lookup_lt_is_Some_2 (num_threads_per_worker_arr c (length hs)) 0) as [t ->]; [|by eexists].
      apply arr_nonempty; lia.
    - intros a b Ha Hst. by eapply (workers_kept g). }
  pose proof (reachable_ok g (SP:=house_spec g Hg) _ _ Ht Hs) as Hok.
  pose proof (i_main _ _ Hok) as Hm. unfold main_ok in Hm. rewrite He in Hm. destruct Hm as [_ ->].
  eapply answer_proper; [done|]. apply answer_covers; [done|rewrite Hnv; apply Hin|apply Hok|].
  intros d. apply (exit_covers g (SP:=house_spec g Hg)); [apply (c_sym _ (h_ctx _ Hg))|done| |done]. intros Hn. by rewrite Hn in Hw.
Qed.
