(* ===== verification/P1Pooled.v ===== *)
(** The program of src/Project1/src together with its two vector pools: the threads of the
    searches (bfs.cpp) take their vectors from [g_char_vector_pool] and [g_int_vector_pool]
    (util.cpp) before they work and give them back before they return.

    The program of P1Main.v runs under the control of the pools: a thread of a search moves
    only when it has all its vectors, and it returns, or is joined, only when it has given
    them back.  A call of a pool is one or two steps, as in P1Pool.v: [Alloc] looks at the
    free list without the mutex.  Two threads that both see the last free vector can both go
    on to take it; the second one then takes the front of an empty list, which is undefined,
    and the model stops there.  The vectors are cleared when they are taken, and no vector is
    held twice, so that the searches can have them as local variables. *)

From S2P Require Import Prelude Graph P1Context P1Search P1Bfs P1Multi P1MultiEnd P1Pool P1Main.
Import VectorPool (ppc, POut, PPop, user, User, u_pc, u_held, call, CCheck, CPop, CFree, pool_call,
  free_vector_list, fresh, broken).

Local Open Scope nat_scope.

(** * The threads and their vectors *)

(** The threads: [(i, 0)] is worker [i] while it runs a search, [(i, S k)] is thread [k] of
    the multi-threaded search of worker [i]. *)
Abbreviation tid := (nat * nat)%type.

(** A pool, and the threads that have used it. *)
Record vpool := VPool { v_pool : VectorPool.pool; v_users : gmap tid user }.

Definition no_vectors : user := User POut [].
Definition user_of (p : vpool) (x : tid) : user := default no_vectors (v_users p !! x).

(** A call of [Alloc] or [Free] (or half a call) by thread [x]. *)
Definition vpool_call (a : call) (x : tid) (p : vpool) : option vpool :=
  '(q, u) ← pool_call a (v_pool p) (user_of p x); Some (VPool q (<[x:=u]> (v_users p))).

(** A thread of a search: not created, between its first [Alloc] and the end of its work,
    between its first [Free] and its return. *)
Inductive stage := Absent | Active | Returning.

Definition kstage (w : option worker) : stage :=
  match w with
  | Some w => match k_pc w with KNew => Absent | KEnd => Returning | _ => Active end
  | None => Absent
  end.

Definition life (q : search + multi) (c : nat) : stage :=
  match q, c with
  | inl q, O => match q_pc q with SEnd => Returning | _ => Active end
  | inl _, S _ => Absent
  | inr m, O => match m_pc m with RDone => Returning | _ => Active end
  | inr m, S k => kstage (ks m !! k)
  end.

(** How many [vector<char>] and [vector<int>] it takes: [check_map], [buf1] and [buf2] in
    [BFSSingleThread]; [check_map_] in [BFSMultiThreadContext]; [buf1] and [buf2] in
    [BeginWorkAt]. *)
Definition needs (q : search + multi) (c : nat) : nat * nat :=
  match q, c with inl _, _ => (1, 2) | inr _, O => (1, 0) | inr _, S _ => (0, 2) end.

(** The search a worker is running. *)
Definition search_of (s : state (search + multi)) (i : nat) : option (search + multi) :=
  w ← workers s !! i; match w_pc w with HRun q => Some q | _ => None end.

Definition stage_of (s : state (search + multi)) (x : tid) : stage :=
  match search_of s x.1 with Some q => life q x.2 | None => Absent end.
Definition needs_of (s : state (search + multi)) (x : tid) : nat * nat :=
  match search_of s x.1 with Some q => needs q x.2 | None => (0, 0) end.

(** * The program with its pools *)

Record pstate := PState { prog : state (search + multi); chars : vpool; ints : vpool }.

(** Thread [x] is outside the pool and holds [n] vectors of it. *)
Definition has (n : nat) (p : vpool) (x : tid) : bool :=
  match u_pc (user_of p x) with POut => length (u_held (user_of p x)) =? n | PPop => false end.

Definition allocated (ps : pstate) (x : tid) : bool :=
  has (needs_of (prog ps) x).1 (chars ps) x && has (needs_of (prog ps) x).2 (ints ps) x.
Definition released (ps : pstate) (x : tid) : bool := has 0 (chars ps) x && has 0 (ints ps) x.

(** When a step of the program at thread [(i, c)] is possible: a search returns when its
    worker has given back its vectors; its threads work when they have theirs; [Run] joins a
    thread that has given back its own. *)
Definition may_move (ps : pstate) (i c : nat) : bool :=
  match search_of (prog ps) i with
  | None => true
  | Some q =>
      match life q 0 with
      | Returning => (c =? 0) && released ps (i, 0)
      | _ =>
          allocated ps (i, c) &&
          match q, c with
          | inr m, O => match m_pc m with RJoin k => released ps (i, S k) | _ => true end
          | _, _ => true
          end
      end
  end.

(** The calls of the pools: a thread that starts takes its [vector<char>], then its
    [vector<int>]s; one that returns gives back the [vector<int>]s, the last one first, then
    the [vector<char>]. *)
Definition char_call (ps : pstate) (x : tid) (a : call) : bool :=
  match stage_of (prog ps) x, a with
  | Active, CCheck => length (u_held (user_of (chars ps) x)) <? (needs_of (prog ps) x).1
  | Active, CPop => true
  | Returning, CFree k => (k =? 0) && has 0 (ints ps) x
  | _, _ => false
  end.
Definition int_call (ps : pstate) (x : tid) (a : call) : bool :=
  match stage_of (prog ps) x, a with
  | Active, CCheck =>
      has (needs_of (prog ps) x).1 (chars ps) x && (length (u_held (user_of (ints ps) x)) <? (needs_of (prog ps) x).2)
  | Active, CPop => true
  | Returning, CFree k => k =? 0
  | _, _ => false
  end.

(** Some thread has taken the front of an empty list. *)
Definition pool_broken (ps : pstate) : bool := broken (v_pool (chars ps)) || broken (v_pool (ints ps)).

Inductive pchoice := PRun (ch : choice) | PChar (x : tid) (a : call) | PInt (x : tid) (a : call).

Section program.
Context (g : Context).

Definition pnext (d : pchoice) (ps : pstate) : option pstate :=
  if pool_broken ps then None else
  match d with
  | PRun ch =>
      if match ch with CMain => true | CWorker i c => may_move ps i c end
      then s ← main_next g ch (prog ps); Some (PState s (chars ps) (ints ps)) else None
  | PChar x a => if char_call ps x a then p ← vpool_call a x (chars ps); Some (PState (prog ps) p (ints ps)) else None
  | PInt x a => if int_call ps x a then p ← vpool_call a x (ints ps); Some (PState (prog ps) (chars ps) p) else None
  end.

Definition pstep (ps ps' : pstate) : Prop := ∃ d, pnext d ps = Some ps'.

(** The constructors of the two pools, and [main] after reading the input. *)
Definition empty_vpool : vpool := VPool (VectorPool.Pool [] 0 false) ∅.
Definition pinit (num_cores : nat) : pstate := PState (main_init num_cores g) empty_vpool empty_vpool.

(** The program under its pools makes steps of the program. *)
Lemma pstep_prog ps ps' : pstep ps ps' → prog ps' = prog ps ∨ main_run g (prog ps) (prog ps').
Proof.
  intros [[ch|x a|x a] Hn]; unfold pnext in Hn; destruct (pool_broken ps); try done.
  - destruct (match ch with CMain => _ | CWorker _ _ => _ end); [|done].
    destruct (main_next g ch (prog ps)) as [s|] eqn:Hs; [|done]. injection Hn as <-. right. by exists ch.
  - destruct (char_call ps x a); [|done]. destruct (vpool_call _ _ _); [|done]. injection Hn as <-. by left.
  - destruct (int_call ps x a); [|done]. destruct (vpool_call _ _ _); [|done]. injection Hn as <-. by left.
Qed.

Lemma pooled_reachable c ps :
  reachable (pinit c) pstep ps → reachable (main_init c g) (main_run g) (prog ps).
Proof.
  revert ps. refine (rtc_ind_r _ _ _ _); [apply rtc_refl|]. intros a b _ Hst IH.
  destruct (pstep_prog _ _ Hst) as [->|Hs]; [done|]. by eapply rtc_r.
Qed.

End program.

(** * No vector is held twice *)

(** The vectors that threads hold and the free ones are all different, and older than the
    next one. *)
Record private (p : vpool) : Prop := {
  pr_held x v : v ∈ u_held (user_of p x) → v < fresh (v_pool p) ∧ v ∉ free_vector_list (v_pool p);
  pr_once x : NoDup (u_held (user_of p x));
  pr_other x y v : x ≠ y → v ∈ u_held (user_of p x) → v ∉ u_held (user_of p y);
  pr_free : NoDup (free_vector_list (v_pool p));
  pr_old v : v ∈ free_vector_list (v_pool p) → v < fresh (v_pool p);
}.

Lemma user_of_insert q us x u y : user_of (VPool q (<[x:=u]> us)) y = if decide (y = x) then u else default no_vectors (us !! y).
Proof. unfold user_of. cbn. case_decide as Hd; [subst; by rewrite lookup_insert_eq|by rewrite lookup_insert_ne]. Qed.

Lemma user_of_same q us x u : user_of (VPool q (<[x:=u]> us)) x = u.
Proof. rewrite user_of_insert. by rewrite decide_True. Qed.

Lemma user_of_other q p x u y : y ≠ x → user_of (VPool q (<[x:=u]> (v_users p))) y = user_of p y.
Proof. intros Hne. rewrite user_of_insert. by rewrite decide_False. Qed.

Lemma private_init : private empty_vpool.
Proof.
  constructor; cbn; unfold user_of; cbn; intros; rewrite ?lookup_empty in *; cbn in *; try done;
    try constructor; by match goal with H : _ ∈ [] |- _ => apply not_elem_of_nil in H end.
Qed.

(** A call that leaves the other threads alone. *)
Lemma private_call p x q u :
  private p →
  (∀ v, v ∈ u_held u → v < fresh q ∧ v ∉ free_vector_list q) → NoDup (u_held u) →
  (∀ v, v ∈ u_held u → v ∈ u_held (user_of p x) ∨ v ∈ free_vector_list (v_pool p) ∨ v = fresh (v_pool p)) →
  NoDup (free_vector_list q) → (∀ v, v ∈ free_vector_list q → v < fresh q ∧
    (v ∈ free_vector_list (v_pool p) ∨ v ∈ u_held (user_of p x))) →
  fresh (v_pool p) ≤ fresh q → private (VPool q (<[x:=u]> (v_users p))).
Proof.
  intros [H1 H2 H3 H4 H5] Hu Hnd Hfrom Hq Hqo Hf. constructor; cbn [v_pool]; try done.
  - intros y v. destruct (decide (y = x)) as [->|Hne]; [rewrite user_of_same; apply Hu|rewrite user_of_other by done].
    intros Hv. destruct (H1 y v Hv). split; [lia|]. intros [_ [?|Hx]]%Hqo; [done|]. by destruct (H3 y x v).
  - intros y. destruct (decide (y = x)) as [->|Hne]; [by rewrite user_of_same|by rewrite user_of_other].
  - assert (∀ y v, y ≠ x → v ∈ u_held u → v ∉ u_held (user_of p y)) as Hx.
    { intros y v Hne [Hv|[Hv| ->]]%Hfrom Hv'; [by destruct (H3 x y v)|by destruct (H1 y v Hv')|destruct (H1 _ _ Hv'); lia]. }
    intros y z v Hne. destruct (decide (y = x)) as [->|Hy], (decide (z = x)) as [->|Hz]; [done|..];
      rewrite ?user_of_same, ?user_of_other by done; [by apply Hx| |by apply H3]. intros Hv Hv'. by apply (Hx y v Hy Hv').
  - intros v Hv. by apply Hqo.
Qed.

Lemma vpool_call_private a x p p' : private p → vpool_call a x p = Some p' → private p'.
Proof.
  intros Hp Hc. pose proof Hp as [H1 H2 H3 H4 H5]. unfold vpool_call in Hc.
  destruct (pool_call a (v_pool p) (user_of p x)) as [[q u]|] eqn:Ha; [|done]. injection Hc as <-.
  specialize (H1 x). specialize (H2 x). set (w := user_of p x) in *.
  destruct a as [| |k]; cbn in Ha.
  - unfold VectorPool.Alloc_check in Ha. destruct (u_pc w); [|done].
    destruct (free_vector_list (v_pool p)) as [|v vs] eqn:Hfl; injection Ha as <- <-; apply private_call;
      cbn; rewrite ?Hfl; try done; try lia; fold w; auto.
    + intros v [->|Hv]%elem_of_cons; (split; [|by apply not_elem_of_nil]); [lia|]. destruct (H1 v Hv). lia.
    + apply NoDup_cons. split; [|done]. intros Hv. destruct (H1 _ Hv). lia.
    + intros v [->|Hv]%elem_of_cons; auto.
    + intros v Hv. by apply not_elem_of_nil in Hv.
  - unfold VectorPool.Alloc_pop in Ha. destruct (u_pc w); [done|].
    destruct (free_vector_list (v_pool p)) as [|v vs] eqn:Hfl; injection Ha as <- <-; apply private_call;
      cbn; rewrite ?Hfl; try done; try lia; fold w; auto.
    + apply NoDup_cons in H4 as [Hn _]. intros y [->|Hy]%elem_of_cons; [split; [apply H5; by left|done]|].
      destruct (H1 y Hy) as [? Hy']. split; [done|]. intros ?. apply Hy'. by right.
    + apply NoDup_cons. split; [|done]. intros Hv. destruct (H1 v Hv) as [_ Hn]. apply Hn. by left.
    + intros y [->|Hy]%elem_of_cons; [right; left; by left|auto].
    + by apply NoDup_cons in H4 as [_ ?].
    + intros y Hy. split; [apply H5; by right|left; by right].
  - unfold VectorPool.Free in Ha. destruct (u_pc w); [|done]. destruct (u_held w !! k) as [v|] eqn:Hk; [|done].
    injection Ha as <- <-. assert (v ∈ u_held w) as Hv by by eapply list_elem_of_lookup_2.
    pose proof (delete_Permutation _ _ _ Hk) as Hperm. rewrite Hperm in H2. apply NoDup_cons in H2 as [Hvn Hnd].
    apply private_call; cbn; try done; fold w.
    + intros y Hy. assert (y ∈ u_held w) as Hy' by (rewrite Hperm; by right). destruct (H1 y Hy') as [? Hn]. split; [done|].
      intros [?|Heq%list_elem_of_singleton]%elem_of_app; [done|]. by subst y.
    + intros y Hy. left. rewrite Hperm. by right.
    + apply NoDup_app. split_and!; [done| |by repeat constructor; apply not_elem_of_nil].
      intros y Hy Heq%list_elem_of_singleton. subst y. by destruct (H1 v Hv).
    + intros y [Hy|Heq%list_elem_of_singleton]%elem_of_app; [auto|]. subst y. split; [by apply H1|by right].
Qed.

(** In every run, a vector that a thread holds is held by no other thread and is not free. *)
Theorem pooled_vectors_private g c ps :
  reachable (pinit g c) (pstep g) ps → private (chars ps) ∧ private (ints ps).
Proof.
  apply (reachable_invariant _ _ (λ ps, private (chars ps) ∧ private (ints ps))); [split; apply private_init|].
  intros a b [H1 H2] [[ch|x cl|x cl] Hn]; unfold pnext in Hn; destruct (pool_broken a); try done.
  - destruct (match ch with CMain => _ | CWorker _ _ => _ end); [|done].
    destruct (main_next g ch (prog a)); [|done]. by injection Hn as <-.
  - destruct (char_call a x cl); [|done]. destruct (vpool_call _ _ _) eqn:Hc; [|done]. injection Hn as <-.
    split; [exact (vpool_call_private _ _ _ _ H1 Hc)|done].
  - destruct (int_call a x cl); [|done]. destruct (vpool_call _ _ _) eqn:Hc; [|done]. injection Hn as <-.
    split; [done|exact (vpool_call_private _ _ _ _ H2 Hc)].
Qed.

(** * The vectors of a thread at each stage *)

Definition user_ok (st : stage) (n : nat) (u : user) : Prop :=
  match st with
  | Absent => u = no_vectors
  | Active => length (u_held u) ≤ n ∧ (u_pc u = PPop → length (u_held u) < n)
  | Returning => u_pc u = POut ∧ length (u_held u) ≤ n
  end.

Lemma user_ok_none st n : user_ok st n no_vectors.
Proof. destruct st; cbn; [done|split; [lia|done]|split; [done|lia]]. Qed.

Lemma has_spec n p x : has n p x = true ↔ u_pc (user_of p x) = POut ∧ length (u_held (user_of p x)) = n.
Proof. unfold has. destruct (u_pc (user_of p x)); rewrite ?Nat.eqb_eq; naive_solver. Qed.

Lemma has_none p x : has 0 p x = true ↔ user_of p x = no_vectors.
Proof.
  rewrite has_spec. destruct (user_of p x) as [pc [|v vs]]; cbn; unfold no_vectors; split; try done; [by intros [-> _]|by intros [=->]|].
  by intros [_ ?].
Qed.

Lemma user_ok_full st n p x : st ≠ Absent → has n p x = true → user_ok st n (user_of p x).
Proof. intros Hst [Hp Hl]%has_spec. destruct st; cbn; [done|split; [lia|congruence]|split; [done|lia]]. Qed.

(** A created thread that becomes active. *)
Lemma user_ok_active st n u : user_ok st n u → user_ok Active n u.
Proof. destruct st; cbn; [intros ->; apply (user_ok_none Active)|done|intros [? ?]; split; [done|congruence]]. Qed.

(** The users of thread [x] in both pools. *)
Definition thread_ok (ps : pstate) (st : stage) (n : nat * nat) (x : tid) : Prop :=
  user_ok st n.1 (user_of (chars ps) x) ∧ user_ok st n.2 (user_of (ints ps) x).

Lemma released_spec ps x : released ps x = true ↔ user_of (chars ps) x = no_vectors ∧ user_of (ints ps) x = no_vectors.
Proof. unfold released. by rewrite andb_true_iff, !has_none. Qed.

Lemma thread_ok_released ps st n x : released ps x = true → thread_ok ps st n x.
Proof. intros [H1 H2]%released_spec. unfold thread_ok. rewrite H1, H2. split; apply user_ok_none. Qed.

Lemma thread_ok_absent ps n x : thread_ok ps Absent n x ↔ released ps x = true.
Proof. rewrite released_spec. done. Qed.

(** The threads that [Run] has joined are gone. *)
Definition joined (ps : pstate) (i : nat) (m : multi) : Prop :=
  ∀ k w, match m_pc m with RJoin j => k < j | RDone => True | _ => False end → ks m !! k = Some w →
    k_pc w = KEnd ∧ released ps (i, S k) = true.

Record pools_ok (ps : pstate) : Prop := {
  po_thread x : thread_ok ps (stage_of (prog ps) x) (needs_of (prog ps) x) x;
  po_joined i m : search_of (prog ps) i = Some (inr m) → joined ps i m;
}.

Lemma pools_ok_init g c : pools_ok (pinit g c).
Proof.
  assert (∀ i, search_of (main_init c g) i = None) as Hn.
  { intros i. unfold search_of, main_init, init. cbn. rewrite list_lookup_fmap. by destruct (_ !! i). }
  constructor.
  - intros x. apply thread_ok_released. done.
  - intros i m. cbn [pinit prog]. by rewrite Hn.
Qed.

(** * Steps of a search *)

(** Thread [k] moves: nobody else's place changes. *)
Definition moved (m : multi) (k : nat) (m' : multi) : Prop :=
  m_pc m' = m_pc m ∧ (∀ j, j ≠ k → k_pc <$> ks m' !! j = k_pc <$> ks m !! j) ∧
  ∃ w', ks m' !! k = Some w' ∧ k_pc w' ≠ KNew.

Lemma moved_set m k m1 w w' :
  ks m !! k = Some w → m_pc m1 = m_pc m → ks m1 = ks m → k_pc w' ≠ KNew → moved m k (set_worker m1 k w').
Proof.
  intros Hk Hp Hks Hw'. split_and!; cbn; [done|..]; rewrite Hks.
  - intros j Hne. by rewrite list_lookup_insert_ne.
  - exists w'. split; [|done]. apply list_lookup_insert_eq. by eapply lookup_lt_Some.
Qed.

Lemma make_worker_moved m k w m' :
  ks m !! k = Some w → k_pc w ≠ KNew → make_worker m k w = Some m' → moved m k m'.
Proof.
  intros Hk Hw Hs. unfold make_worker in Hs.
  destruct (num_free_workers m <=? 0)%Z; [injection Hs as <-; by eapply moved_set|].
  destruct (last (cur_vertices w)) as [v|]; [|done]. cbn [mbind option_bind] in Hs.
  destruct (list_find _ (ks m)) as [[i c]|] eqn:Hf; [|done]. cbn [mbind option_bind] in Hs.
  destruct (Util.g_pow2 !! i) as [p|]; [|done]. cbn [mbind option_bind] in Hs. injection Hs as <-.
  apply list_find_Some in Hf as (Hi & _ & _). assert (k < length (ks m)) as Hlt by by eapply lookup_lt_Some.
  split_and!; cbn; [done|..].
  - intros j Hne. destruct (decide (i = j)) as [->|Hij].
    + rewrite list_lookup_insert_eq by (rewrite length_insert; by eapply lookup_lt_Some). by rewrite Hi.
    + by rewrite !list_lookup_insert_ne.
  - destruct (decide (i = k)) as [->|Hik].
    + rewrite list_lookup_insert_eq by by rewrite length_insert. eexists. split; [done|]. cbn. congruence.
    + rewrite list_lookup_insert_ne, list_lookup_insert_eq by done. by eexists.
Qed.

(** A step of a thread of the multi-threaded search. *)
Lemma begin_work_moved g b bm m k w bm' m' :
  ks m !! k = Some w → BeginWorkAt g b bm m k w = Some (bm', m') →
  k_pc w ≠ KNew ∧ k_pc w ≠ KEnd ∧ moved m k m'.
Proof.
  intros Hk Hs. unfold BeginWorkAt in Hs.
  assert (∀ m1 w', m_pc m1 = m_pc m → ks m1 = ks m → k_pc w' ≠ KNew → moved m k (set_worker m1 k w')) as Hset
    by (intros; by eapply moved_set).
  destruct (k_pc w) eqn:Hpc; try done; (split; [done|]; split; [done|]);
    try (destruct (make_worker m k w) eqn:Hmk; [|done]; injection Hs as <- <-; eapply make_worker_moved; [done|congruence|done]);
    unfold visit_neighbors, mark_vertex, free_worker, next_level in Hs;
    repeat (case_match || simplify_option_eq); try done; apply Hset; done || by repeat case_match.
Qed.

(** A step of [Run]: it creates a thread, or joins one that has ended. *)
Lemma run_moved m m' :
  Run m = Some m' →
  (∀ k, life (inr m') (S k) = life (inr m) (S k) ∨ life (inr m') (S k) = Active) ∧ m_pc m ≠ RDone ∧
  match m_pc m' with
  | RCreate _ | RFirst | RJoin 0 => True
  | RJoin (S k) => m_pc m = RJoin k ∧ ks m' = ks m ∧ (k_pc <$> ks m !! k) = Some KEnd
  | RDone => ∃ k, m_pc m = RJoin k ∧ ks m' = ks m ∧ ks m !! k = None
  end.
Proof.
  assert (∀ (l : list worker) k x, k_pc x = KIdle → ∀ j,
    kstage (<[k:=x]> l !! j) = kstage (l !! j) ∨ kstage (<[k:=x]> l !! j) = Active) as Hins.
  { intros l k x Hx j. destruct (decide (k = j)) as [->|Hne]; [|rewrite list_lookup_insert_ne by done; by left].
    destruct (decide (j < length l)) as [Hlt|Hge].
    - rewrite list_lookup_insert_eq by done. right. cbn. by rewrite Hx.
    - left. by rewrite list_insert_ge by lia. }
  unfold Run. destruct (m_pc m) as [k| |k|] eqn:Hp; [..|done].
  - destruct (ks m !! k) as [w|] eqn:Hk; intros [= <-]; cbn; [|by split_and!; [left|..]].
    split_and!; [|done|done]. intros j. by apply Hins.
  - destruct (ks m !! 0) as [w|]; [|done]. intros [= <-]. cbn. split_and!; [|done|done]. intros j. by apply Hins.
  - destruct (ks m !! k) as [w|] eqn:Hk.
    + destruct (k_pc w) eqn:Hw; try done. intros [= <-]. cbn. split_and!; try done; [by left|rewrite Hk; cbn; by rewrite Hw].
    + intros [= <-]. cbn. split_and!; [by left|done|]. by exists k.
Qed.

(** * The invariant is kept *)

(** A step of the program changes the search of one worker only. *)
Lemma search_of_same s i w x bm gi m r out :
  workers s !! i = Some w →
  search_of (MkState bm gi (<[i:=x]> (workers s)) m r out) i = match w_pc x with HRun q => Some q | _ => None end.
Proof.
  intros Hi. unfold search_of. cbn. by rewrite list_lookup_insert_eq by by eapply lookup_lt_Some.
Qed.

Lemma search_of_other s i x bm gi m r out j :
  j ≠ i → search_of (MkState bm gi (<[i:=x]> (workers s)) m r out) j = search_of s j.
Proof. intros Hne. unfold search_of. cbn. by rewrite list_lookup_insert_ne. Qed.

(** The threads of the other workers do not notice. *)
Lemma pools_ok_worker s i w x bm gi m r out ch it :
  pools_ok (PState s ch it) → workers s !! i = Some w →
  let s' := MkState bm gi (<[i:=x]> (workers s)) m r out in
  (∀ c, thread_ok (PState s' ch it) (stage_of s' (i, c)) (needs_of s' (i, c)) (i, c)) →
  (∀ mu, search_of s' i = Some (inr mu) → joined (PState s' ch it) i mu) →
  pools_ok (PState s' ch it).
Proof.
  intros [H1 H2] Hi s' Ht Hj. constructor.
  - intros [j c]. destruct (decide (j = i)) as [->|Hne]; [apply Ht|]. specialize (H1 (j, c)).
    unfold stage_of, needs_of in *. cbn [prog fst snd] in *. unfold s'. by rewrite search_of_other.
  - intros j mu. cbn [prog]. destruct (decide (j = i)) as [->|Hne]; [apply Hj|].
    unfold s'. rewrite search_of_other by done. apply H2.
Qed.

Lemma allocated_spec ps i c q :
  search_of (prog ps) i = Some q → allocated ps (i, c) = true →
  ∀ st, st ≠ Absent → thread_ok ps st (needs q c) (i, c).
Proof.
  unfold allocated, needs_of. cbn [fst snd]. intros -> [H1 H2]%andb_true_iff st Hst.
  split; by apply user_ok_full.
Qed.

(** A step inside a search that goes on. *)
Lemma search_move_ok g ps i c q bm bm' q' :
  pools_ok ps → search_of (prog ps) i = Some q → life q 0 ≠ Returning → may_move ps i c = true →
  @se_next _ (house_impl g) c bm q = Some (bm', q') →
  (∀ d, thread_ok ps (life q' d) (needs q' d) (i, d)) ∧ ∀ mu, q' = inr mu → joined ps i mu.
Proof.
  intros [Ht Hj] Hq Hl Hmv Hn. unfold may_move in Hmv. rewrite Hq in Hmv.
  assert (allocated ps (i, c) = true ∧ match q, c with
    | inr m, O => match m_pc m with RJoin k => released ps (i, S k) | _ => true end | _, _ => true end = true) as [Hal Hrel].
  { destruct (life q 0); try done; by apply andb_true_iff in Hmv. }
  pose proof (allocated_spec _ _ _ _ Hq Hal) as Hfull.
  assert (∀ d, thread_ok ps (life q d) (needs q d) (i, d)) as Hq0.
  { intros d. specialize (Ht (i, d)). unfold stage_of, needs_of in Ht. cbn [fst snd] in Ht. by rewrite Hq in Ht. }
  destruct q as [q|mu]; cbn [se_next house_impl] in Hn.
  - cbn in Hn. destruct (c =? 0)%nat eqn:Hc; [|done]. apply Nat.eqb_eq in Hc as ->.
    destruct (bfs_step g bm q) as [[bm2 q2]|]; [|done]. injection Hn as <- <-. split; [|done].
    intros [|d]; [|apply (Hq0 (S d))]. apply Hfull. cbn. by destruct (q_pc q2).
  - destruct (@se_next _ (multi_impl g) c bm mu) as [[bm2 m2]|] eqn:Hs; [|done]. injection Hn as <- <-.
    specialize (Hj i mu Hq). destruct c as [|k]; cbn in Hs.
    + destruct (Run mu) as [m3|] eqn:Hr; [|done]. injection Hs as <- <-.
      destruct (run_moved _ _ Hr) as (Hlife & Hnd & Hpc). split.
      * intros [|d]; [apply Hfull; cbn; by destruct (m_pc m3)|]. destruct (Hlife d) as [->| ->]; [apply (Hq0 (S d))|].
        destruct (Hq0 (S d)) as [? ?]. split; by eapply user_ok_active.
      * intros ? [= <-]. unfold joined in *. intros k w Hk Hw. destruct (m_pc m3) as [| |[|j]|]; try done; [lia|..].
        -- destruct Hpc as (Hp & Hks & He). rewrite Hp in Hj, Hrel. rewrite Hks in Hw.
           destruct (decide (k = j)) as [->|]; [|apply Hj; [lia|done]]. rewrite Hw in He. cbn in He. split; [congruence|done].
        -- destruct Hpc as (j & Hp & Hks & He). rewrite Hp in Hj. rewrite Hks in Hw. apply Hj; [|done].
           apply lookup_lt_Some in Hw. apply lookup_ge_None in He. lia.
    + destruct (ks mu !! k) as [w|] eqn:Hk; [|done].
      destruct (begin_work_moved _ _ _ _ _ _ _ _ Hk Hs) as (Hn1 & Hn2 & Hpc & Hoth & w' & Hw' & Hn'). split.
      * intros [|d]; [pose proof (Hq0 0) as H0; cbn in H0 |- *; by rewrite Hpc|].
        destruct (decide (d = k)) as [->|Hne]; [apply Hfull; cbn; rewrite Hw'; cbn; by destruct (k_pc w')|].
        specialize (Hq0 (S d)). cbn in Hq0 |- *. specialize (Hoth d Hne).
        destruct (ks m2 !! d), (ks mu !! d); cbn in *; try done. injection Hoth as ->. done.
      * intros ? [= <-]. unfold joined in *. rewrite Hpc. intros j u Hlt Hu.
        destruct (decide (j = k)) as [->|Hne]; [by destruct (Hj k w Hlt Hk)|]. specialize (Hoth j Hne). rewrite Hu in Hoth.
        destruct (ks mu !! j) as [u'|] eqn:Hu'; [|done]. cbn in Hoth. injection Hoth as ->. by apply Hj.
Qed.

(** A search has a result when its worker is about to return from it. *)
Lemma life_returning g q : is_Some (@se_result _ (house_impl g) q) ↔ life q 0 = Returning.
Proof.
  destruct q as [q|m]; cbn [se_result house_impl life].
  - rewrite se_result_end. by destruct (q_pc q).
  - rewrite multi_result_end. by destruct (m_pc m).
Qed.

Lemma new_search_joined g ps i t h q mu :
  @se_start _ (house_impl g) t h = Some q → q = inr mu → joined ps i mu.
Proof.
  intros Hs ->. cbn [se_start house_impl] in Hs. destruct (t =? 1); [by destruct (start_search g h)|].
  destruct (BFSMultiThread g t h) as [m|] eqn:Hm; [|done]. injection Hs as ->.
  unfold BFSMultiThread, new_BFSMultiThreadContext in Hm. destruct (full_bits _ _); [|done].
  cbn [mbind option_bind] in Hm. case_match; [|done]. injection Hm as <-. by intros k w Hk.
Qed.

Lemma absent_released ps x : pools_ok ps → stage_of (prog ps) x = Absent → released ps x = true.
Proof. intros [Ht _] Hs. specialize (Ht x). rewrite Hs in Ht. by apply thread_ok_absent in Ht. Qed.

(** All threads of a search that returns are gone. *)
Lemma returned_released ps i q c :
  pools_ok ps → search_of (prog ps) i = Some q → life q 0 = Returning → released ps (i, 0) = true →
  released ps (i, c) = true.
Proof.
  intros Hps Hq Hl H0. destruct c as [|k]; [done|].
  destruct q as [q|m]; [apply absent_released; [done|]; unfold stage_of; cbn; by rewrite Hq|].
  cbn in Hl. destruct (m_pc m) eqn:Hp; try done.
  destruct (ks m !! k) as [w|] eqn:Hk.
  - eapply (po_joined _ Hps i m Hq k w); [by rewrite Hp|done].
  - apply absent_released; [done|]. unfold stage_of. cbn. rewrite Hq. cbn. by rewrite Hk.
Qed.

Lemma worker_move_ok g ps i c s :
  pools_ok ps → may_move ps i c = true → main_next g (CWorker i c) (prog ps) = Some s →
  pools_ok (PState s (chars ps) (ints ps)).
Proof.
  intros Hps Hmv Hn. unfold main_next in Hn. cbn [next] in Hn.
  destruct (workers (prog ps) !! i) as [w|] eqn:Hi; [|done]. cbn [mbind option_bind] in Hn.
  assert (search_of (prog ps) i = match w_pc w with HRun q => Some q | _ => None end) as Hso
    by (unfold search_of; by rewrite Hi).
  destruct (BFSThread g c _ _ w) as [[[bm gi] w']|] eqn:Hb; [|done]. injection Hn as <-.
  assert ((∀ d, thread_ok ps match w_pc w' with HRun q => life q d | _ => Absent end
                   match w_pc w' with HRun q => needs q d | _ => (0, 0) end (i, d)) ∧
          ∀ mu, w_pc w' = HRun (inr mu) → joined ps i mu) as [Ht Hj].
  { assert (w_pc w = HTest ∨ w_pc w = HTake → ∀ d, released ps (i, d) = true) as Hidle.
    { intros Hw d. apply absent_released; [done|]. unfold stage_of. cbn. rewrite Hso. by destruct Hw as [-> | ->]. }
    assert (∀ q, w_pc w = HRun q → life q 0 = Returning → ∀ d, released ps (i, d) = true) as Hret.
    { intros q Hq Hl d. rewrite Hq in Hso. eapply returned_released; [done..|].
      unfold may_move in Hmv. rewrite Hso, Hl in Hmv. by apply andb_true_iff in Hmv as [_ ?]. }
    unfold BFSThread in Hb. destruct (w_pc w) as [| | |q|] eqn:Hpc; [done|..|done].
    - injection Hb as <- <- <-. cbn. split; [|by destruct (_ <? _)%Z]. intros d. apply thread_ok_released, Hidle; auto.
    - destruct (_ <=? _)%Z; [injection Hb as <- <- <-; cbn; split; [|done]; intros d; apply thread_ok_released, Hidle; auto|].
      destruct (houses g !! _) as [h|]; [|done]. cbn [mbind option_bind] in Hb.
      destruct (se_start _ h) as [q|] eqn:Hq; [|done]. injection Hb as <- <- <-. cbn. split.
      + intros d. apply thread_ok_released, Hidle; auto.
      + intros mu [= ->]. by eapply new_search_joined.
    - destruct (se_result q) as [r|] eqn:Hr.
      + assert (life q 0 = Returning) as Hl by (apply (life_returning g); eauto).
        injection Hb as <- <- <-. cbn. split; [|done]. intros d. apply thread_ok_released, (Hret q); eauto.
      + destruct (se_next c _ q) as [[bm' q']|] eqn:Hq; [|done]. injection Hb as <- <- <-. cbn.
        assert (life q 0 ≠ Returning) as Hl by (rewrite <- (life_returning g), Hr; by intros ?%is_Some_None).
        destruct (search_move_ok _ _ _ _ _ _ _ _ Hps Hso Hl Hmv Hq) as [H1 H2]. split; [done|]. intros mu [= ->]. by apply H2. }
  destruct ps as [s ch it]. cbn [prog chars ints] in *. apply (pools_ok_worker s i w w' bm gi _ _ _ ch it Hps Hi).
  - intros d. unfold stage_of, needs_of. cbn [fst snd]. rewrite (search_of_same s i w) by done. specialize (Ht d).
    by destruct (w_pc w').
  - intros mu. rewrite (search_of_same s i w) by done. intros He. destruct (w_pc w'); try done. injection He as ->. by apply Hj.
Qed.

(** [main] touches no search. *)
Lemma main_move_ok g ps s :
  main_ok (prog ps) → pools_ok ps → main_next g CMain (prog ps) = Some s → pools_ok (PState s (chars ps) (ints ps)).
Proof.
  intros Hm Hps Hn. destruct ps as [s0 ch it]. cbn [prog chars ints] in *.
  assert (∀ i, search_of s i = search_of s0 i) as He.
  { unfold main_ok in Hm. unfold main_next in Hn. cbn [next] in Hn. unfold main_step in Hn. destruct s0 as [bm gi ws m r out].
    cbn in Hm. intros i. destruct m as [k|k|]; [..|done]; destruct (ws !! k) as [w|] eqn:Hk.
    - injection Hn as <-. destruct Hm as (H1 & _). pose proof (H1 k w Hk (le_n k)) as Hw. unfold search_of. cbn.
      destruct (decide (i = k)) as [->|]; [|by rewrite list_lookup_insert_ne].
      rewrite list_lookup_insert_eq by by eapply lookup_lt_Some. rewrite Hk. cbn. by rewrite Hw.
    - by injection Hn as <-.
    - destruct (JoinAndUpdateResult w r); [|done]. by injection Hn as <-.
    - by injection Hn as <-. }
  destruct Hps as [H1 H2]. constructor.
  - intros x. specialize (H1 x). unfold stage_of, needs_of in *. cbn [prog] in *. by rewrite He.
  - intros i m. cbn [prog]. rewrite He. apply H2.
Qed.

(** * The calls of the pools *)

(** The calls a thread makes at its stage. *)
Definition at_stage (st : stage) (n : nat) (a : call) (u : user) : Prop :=
  match st, a with
  | Active, CCheck => length (u_held u) < n
  | Active, CPop => True
  | Returning, CFree _ => True
  | _, _ => False
  end.

Lemma char_call_stage ps x a :
  char_call ps x a = true → at_stage (stage_of (prog ps) x) (needs_of (prog ps) x).1 a (user_of (chars ps) x).
Proof. unfold char_call. destruct (stage_of (prog ps) x), a; cbn; try done. by intros ?%Nat.ltb_lt. Qed.

Lemma int_call_stage ps x a :
  int_call ps x a = true → at_stage (stage_of (prog ps) x) (needs_of (prog ps) x).2 a (user_of (ints ps) x).
Proof. unfold int_call. destruct (stage_of (prog ps) x), a; cbn; try done. by intros [_ ?%Nat.ltb_lt]%andb_true_iff. Qed.

Lemma vpool_call_inv a x p p' :
  vpool_call a x p = Some p' →
  pool_call a (v_pool p) (user_of p x) = Some (v_pool p', user_of p' x) ∧ ∀ y, y ≠ x → user_of p' y = user_of p y.
Proof.
  unfold vpool_call. destruct (pool_call a (v_pool p) (user_of p x)) as [[q u]|]; [|done]. intros [= <-].
  rewrite user_of_same. split; [done|]. intros y Hne. by apply user_of_other.
Qed.

Lemma vpool_call_possible a x p :
  is_Some (pool_call a (v_pool p) (user_of p x)) → is_Some (vpool_call a x p).
Proof. intros [[q u] Hc]. unfold vpool_call. rewrite Hc. by eexists. Qed.

(** What a thread still does in a pool before it works, or before it is gone. *)
Definition calls_left (st : stage) (n : nat) (u : user) : nat :=
  match st with
  | Absent => 0
  | Active => 2 * (n - length (u_held u)) - match u_pc u with POut => 0 | PPop => 1 end
  | Returning => length (u_held u)
  end.

Lemma call_keeps st n a p u q u' :
  user_ok st n u → at_stage st n a u → pool_call a p u = Some (q, u') →
  user_ok st n u' ∧ (broken q = true ∨ calls_left st n u' < calls_left st n u) ∧ (st = Active ∨ u ≠ no_vectors).
Proof.
  destruct st, a as [| |k]; cbn; try done; intros [H1 H2] Ha Hc.
  - unfold VectorPool.Alloc_check in Hc. destruct (u_pc u) eqn:Hu; [|done].
    destruct (free_vector_list p); injection Hc as <- <-; cbn; (split_and!; [lia|done| |by left]); right; lia.
  - unfold VectorPool.Alloc_pop in Hc. destruct (u_pc u) eqn:Hu; [done|]. specialize (H2 eq_refl).
    destruct (free_vector_list p); injection Hc as <- <-; cbn; (split_and!; [lia|done| |by left]); [by left|right; lia].
  - unfold VectorPool.Free in Hc. destruct (u_pc u) eqn:Hu; [|done].
    destruct (u_held u !! k) as [v|] eqn:Hk; [|done]. injection Hc as <- <-. cbn.
    assert (length (delete k (u_held u)) = length (u_held u) - 1) as Hl by (apply length_delete; by eexists).
    apply lookup_lt_Some in Hk. split_and!; [done|lia|right; lia|right]. intros ->. cbn in Hk. lia.
Qed.

(** A pool call of thread [x] that takes the users from [ps] to [ps']. *)
Lemma pool_call_ok ps ps' x :
  pools_ok ps → prog ps' = prog ps →
  (∀ y, y ≠ x → user_of (chars ps') y = user_of (chars ps) y ∧ user_of (ints ps') y = user_of (ints ps) y) →
  thread_ok ps' (stage_of (prog ps) x) (needs_of (prog ps) x) x →
  (stage_of (prog ps) x = Active ∨ released ps x = false) → pools_ok ps'.
Proof.
  intros [Ht Hj] Hp Hoth Hx Hst. constructor.
  - intros y. rewrite Hp. destruct (decide (y = x)) as [->|Hne]; [done|].
    destruct (Hoth y Hne) as [E1 E2]. unfold thread_ok. rewrite E1, E2. apply Ht.
  - intros i m. rewrite Hp. intros Hm k w Hk Hw. destruct (Hj i m Hm k w Hk Hw) as [He Hr]. split; [done|].
    destruct (decide ((i, S k) = x)) as [<-|Hne].
    + destruct Hst as [Hst|Hst]; [|congruence]. unfold stage_of in Hst. cbn in Hst. rewrite Hm in Hst. cbn in Hst.
      rewrite Hw in Hst. cbn in Hst. by rewrite He in Hst.
    + destruct (Hoth _ Hne) as [E1 E2]. rewrite released_spec in Hr |- *. by rewrite E1, E2.
Qed.

Lemma not_released ps x : (user_of (chars ps) x ≠ no_vectors ∨ user_of (ints ps) x ≠ no_vectors) → released ps x = false.
Proof. intros Hn. apply not_true_iff_false. rewrite released_spec. tauto. Qed.

(** The work left in the pools, over the threads there can be. *)
Definition tids (s : state (search + multi)) : list tid :=
  i ← seq 0 (length (workers s));
  c ← seq 0 (S match search_of s i with Some (inr m) => length (ks m) | _ => 0 end); [(i, c)].

Definition thread_left (ps : pstate) (x : tid) : nat :=
  let st := stage_of (prog ps) x in let n := needs_of (prog ps) x in
  calls_left st n.1 (user_of (chars ps) x) + calls_left st n.2 (user_of (ints ps) x).

Definition pool_left (ps : pstate) : nat := sum_list_with (thread_left ps) (tids (prog ps)).

Lemma elem_of_tids s x : stage_of s x ≠ Absent → x ∈ tids s.
Proof.
  destruct x as [i c]. unfold stage_of, tids. cbn [fst snd]. destruct (search_of s i) as [q|] eqn:Hq; [|done]. intros Hst.
  apply list_elem_of_bind. exists i. split.
  - rewrite Hq. apply list_elem_of_bind. exists c. split; [by left|]. apply elem_of_seq.
    destruct q as [q|m], c as [|k]; cbn in *; try done; try lia.
    destruct (ks m !! k) as [w|] eqn:Hk; [|done]. apply lookup_lt_Some in Hk. lia.
  - apply elem_of_seq. unfold search_of in Hq. destruct (workers s !! i) as [w|] eqn:Hi; [|done]. apply lookup_lt_Some in Hi. lia.
Qed.

Lemma sum_list_with_lt {A} (f f' : A → nat) l x :
  (∀ y, f' y ≤ f y) → x ∈ l → f' x < f x → sum_list_with f' l < sum_list_with f l.
Proof.
  intros Hle Hx Hlt. assert (∀ l', sum_list_with f' l' ≤ sum_list_with f l') as Hall.
  { induction l' as [|y l' IH]; cbn; [lia|]. specialize (Hle y). lia. }
  induction Hx as [y l'|y z l' Hx IH]; cbn; [specialize (Hall l'); lia|]. specialize (Hle z). specialize (IH Hlt). lia.
Qed.

(** A call of a pool keeps the invariant and leaves less to do. *)
Lemma pool_step_ok g ps ps' x a :
  pools_ok ps → pnext g (PChar x a) ps = Some ps' ∨ pnext g (PInt x a) ps = Some ps' →
  pools_ok ps' ∧ prog ps' = prog ps ∧ (pool_broken ps' = true ∨ pool_left ps' < pool_left ps).
Proof.
  intros Hps Hn.
  assert (prog ps' = prog ps ∧
    (∀ y, y ≠ x → user_of (chars ps') y = user_of (chars ps) y ∧ user_of (ints ps') y = user_of (ints ps) y) ∧
    thread_ok ps' (stage_of (prog ps) x) (needs_of (prog ps) x) x ∧
    (stage_of (prog ps) x = Active ∨ released ps x = false) ∧ stage_of (prog ps) x ≠ Absent ∧
    (pool_broken ps' = true ∨ thread_left ps' x < thread_left ps x)) as (Hp & Hoth & Hx & Hst & Hna & Hleft).
  { destruct (po_thread _ Hps x) as [U1 U2]. unfold pnext, thread_left, pool_broken in *. destruct Hn as [Hn|Hn];
      destruct (broken (v_pool (chars ps)) || _); try done.
    - destruct (char_call ps x a) eqn:Hc; [|done]. apply char_call_stage in Hc.
      destruct (vpool_call a x (chars ps)) as [p|] eqn:Hv; [|done]. injection Hn as <-. cbn [prog chars ints].
      apply vpool_call_inv in Hv as [Hv Hoth]. destruct (call_keeps _ _ _ _ _ _ _ U1 Hc Hv) as (K1 & K2 & K3).
      split_and!; [done|by auto|by split| |by intros E; rewrite E in Hc|].
      + destruct K3; [by left|right; apply not_released; auto].
      + destruct K2 as [->|]; [by left|right; lia].
    - destruct (int_call ps x a) eqn:Hc; [|done]. apply int_call_stage in Hc.
      destruct (vpool_call a x (ints ps)) as [p|] eqn:Hv; [|done]. injection Hn as <-. cbn [prog chars ints].
      apply vpool_call_inv in Hv as [Hv Hoth]. destruct (call_keeps _ _ _ _ _ _ _ U2 Hc Hv) as (K1 & K2 & K3).
      split_and!; [done|by auto|by split| |by intros E; rewrite E in Hc|].
      + destruct K3; [by left|right; apply not_released; auto].
      + destruct K2 as [->|]; [left; by rewrite orb_true_r|right; lia]. }
  split; [by eapply pool_call_ok|]. split; [done|]. destruct Hleft as [|Hleft]; [by left|right].
  unfold pool_left. rewrite Hp. apply (sum_list_with_lt _ _ _ x); [|by apply elem_of_tids|done].
  intros y. destruct (decide (y = x)) as [->|Hne]; [lia|]. unfold thread_left. destruct (Hoth y Hne) as [-> ->]. by rewrite Hp.
Qed.

(** * A run that has not ended goes on *)

Section progress.
Context (g : Context).

Lemma char_possible ps x a :
  pool_broken ps = false → char_call ps x a = true → is_Some (pool_call a (v_pool (chars ps)) (user_of (chars ps) x)) →
  ∃ ps', pstep g ps ps'.
Proof.
  intros Hb Hc [p Hp]%vpool_call_possible. eexists. exists (PChar x a). unfold pnext. rewrite Hb, Hc, Hp. done.
Qed.

Lemma int_possible ps x a :
  pool_broken ps = false → int_call ps x a = true → is_Some (pool_call a (v_pool (ints ps)) (user_of (ints ps) x)) →
  ∃ ps', pstep g ps ps'.
Proof.
  intros Hb Hc [p Hp]%vpool_call_possible. eexists. exists (PInt x a). unfold pnext. rewrite Hb, Hc, Hp. done.
Qed.

Lemma pop_possible p u : u_pc u = PPop → is_Some (pool_call CPop p u).
Proof. intros Hu. cbn. unfold VectorPool.Alloc_pop. rewrite Hu. by eexists. Qed.

Lemma check_possible p u : u_pc u = POut → is_Some (pool_call CCheck p u).
Proof. intros Hu. cbn. unfold VectorPool.Alloc_check. rewrite Hu. by eexists. Qed.

Lemma free_possible p u : u_pc u = POut → 0 < length (u_held u) → is_Some (pool_call (CFree 0) p u).
Proof. intros Hu Hl. cbn. unfold VectorPool.Free. rewrite Hu. destruct (u_held u); cbn in *; [lia|by eexists]. Qed.

(** A thread that starts takes its vectors. *)
Lemma active_call ps x :
  pools_ok ps → pool_broken ps = false → stage_of (prog ps) x = Active → allocated ps x = false → ∃ ps', pstep g ps ps'.
Proof.
  intros Hps Hb Hst Hal. pose proof (po_thread _ Hps x) as Ht. rewrite Hst in Ht. destruct Ht as [[L1 P1] [L2 P2]].
  destruct (u_pc (user_of (chars ps) x)) eqn:E1; [|apply (char_possible ps x CPop); [done|by unfold char_call; rewrite Hst|by apply pop_possible]].
  destruct (has (needs_of (prog ps) x).1 (chars ps) x) eqn:Hh.
  - destruct (u_pc (user_of (ints ps) x)) eqn:E2; [|apply (int_possible ps x CPop); [done|by unfold int_call; rewrite Hst|by apply pop_possible]].
    apply (int_possible ps x CCheck); [done| |by apply check_possible]. unfold int_call. rewrite Hst, Hh. cbn. apply Nat.ltb_lt.
    unfold allocated in Hal. rewrite Hh in Hal. cbn in Hal. unfold has in Hal. rewrite E2 in Hal. apply Nat.eqb_neq in Hal. lia.
  - apply (char_possible ps x CCheck); [done| |by apply check_possible]. unfold char_call. rewrite Hst. apply Nat.ltb_lt.
    unfold has in Hh. rewrite E1 in Hh. apply Nat.eqb_neq in Hh. lia.
Qed.

(** A thread that returns gives them back. *)
Lemma returning_call ps x :
  pools_ok ps → pool_broken ps = false → stage_of (prog ps) x = Returning → released ps x = false → ∃ ps', pstep g ps ps'.
Proof.
  intros Hps Hb Hst Hrel. pose proof (po_thread _ Hps x) as Ht. rewrite Hst in Ht. destruct Ht as [[P1 L1] [P2 L2]].
  destruct (has 0 (ints ps) x) eqn:Hh.
  - apply (char_possible ps x (CFree 0)); [done|by unfold char_call; rewrite Hst|]. apply free_possible; [done|].
    unfold released in Hrel. rewrite Hh, andb_true_r in Hrel. unfold has in Hrel. rewrite P1 in Hrel. apply Nat.eqb_neq in Hrel. lia.
  - apply (int_possible ps x (CFree 0)); [done|by unfold int_call; rewrite Hst|]. apply free_possible; [done|].
    unfold has in Hh. rewrite P2 in Hh. apply Nat.eqb_neq in Hh. lia.
Qed.

(** The thread of a search that makes a step is active. *)
Lemma stepping_active c bm q r : @se_next _ (house_impl g) c bm q = Some r → life q 0 ≠ Returning → life q c = Active.
Proof.
  intros Hn Hl. destruct c as [|k]; [destruct q as [q|m]; cbn in *; [by destruct (q_pc q)|by destruct (m_pc m)]|].
  destruct q as [q|m]; cbn in Hn |- *; [done|]. destruct (ks m !! k) as [w|] eqn:Hk; [|done]. cbn in Hn.
  destruct (BeginWorkAt g true bm m k w) as [[bm' m']|] eqn:Hw; [|done].
  destruct (begin_work_moved _ _ _ _ _ _ _ _ Hk Hw) as (H1 & H2 & _). cbn. by destruct (k_pc w).
Qed.

(** [Run] joins threads that have ended. *)
Lemma join_stage m m' k : Run m = Some m' → m_pc m = RJoin k → life (inr m) (S k) ≠ Active.
Proof. intros Hr Hp. unfold Run in Hr. rewrite Hp in Hr. cbn. destruct (ks m !! k) as [w|]; [|done]. cbn. by destruct (k_pc w). Qed.

(** When a worker may not move, a thread of its search has a call of a pool to make. *)
Lemma blocked_call ps i c s :
  pools_ok ps → pool_broken ps = false → main_next g (CWorker i c) (prog ps) = Some s → ∃ ps', pstep g ps ps'.
Proof.
  intros Hps Hb Hn. destruct (may_move ps i c) eqn:Hmv.
  { eexists. exists (PRun (CWorker i c)). unfold pnext. rewrite Hb, Hmv, Hn. done. }
  unfold may_move in Hmv. destruct (search_of (prog ps) i) as [q|] eqn:Hq; [|done].
  assert (∀ d, stage_of (prog ps) (i, d) = life q d) as Hst by (intros d; unfold stage_of; cbn; by rewrite Hq).
  unfold search_of in Hq. destruct (workers (prog ps) !! i) as [w|] eqn:Hi; [|done]. cbn in Hq.
  destruct (w_pc w) as [| | |q'|] eqn:Hpc; try done. injection Hq as ->.
  unfold main_next in Hn. cbn [next] in Hn. rewrite Hi in Hn. cbn [mbind option_bind] in Hn. unfold BFSThread in Hn. rewrite Hpc in Hn.
  destruct (life q 0) eqn:Hl.
  - by destruct q as [q|m]; cbn in Hl; [destruct (q_pc q)|destruct (m_pc m)].
  - destruct (se_result q) as [r|] eqn:Hr; [assert (life q 0 = Returning) by (apply (life_returning g); eauto); congruence|].
    destruct (se_next c _ q) as [[bm' q']|] eqn:Hx; [|done].
    destruct (allocated ps (i, c)) eqn:Hal.
    + cbn in Hmv. destruct q as [q|m]; [done|]. destruct c as [|c]; [|done]. destruct (m_pc m) as [| |k|] eqn:Hp; try done.
      destruct (stage_of (prog ps) (i, S k)) eqn:Hsk; [by rewrite absent_released in Hmv| |by eapply returning_call].
      cbn in Hx. destruct (Run m) as [m'|] eqn:Hrun; [|done]. destruct (join_stage m m' k Hrun Hp). by rewrite <- Hst.
    + eapply active_call; [done..| |exact Hal]. rewrite Hst. eapply stepping_active; [exact Hx|congruence].
  - destruct (released ps (i, 0)) eqn:Hrel; [|eapply returning_call; [done..| |exact Hrel]; by rewrite Hst].
    assert (is_Some (se_result q)) as [r Hr] by by apply (life_returning g).
    eexists. exists (PRun (CWorker i 0)). unfold pnext, may_move, search_of. rewrite Hb, Hi. cbn [mbind option_bind].
    rewrite Hpc, Hl, Hrel. cbn [andb Nat.eqb]. unfold main_next. cbn [next]. rewrite Hi. cbn [mbind option_bind].
    unfold BFSThread. rewrite Hpc, Hr. cbn [mbind option_bind]. done.
Qed.

Context (Hg : houses_ok g).

Notation prog_ok ps := (state_ok g (SP:=house_spec g Hg) (prog ps)).

Lemma pooled_progress ps :
  prog_ok ps → pools_ok ps → s_main (prog ps) = MExit ∨ pool_broken ps = true ∨ ∃ ps', pstep g ps ps'.
Proof.
  intros Hs Hps. destruct (pool_broken ps) eqn:Hb; [auto|].
  destruct (state_progress g (H0:=house_spec g Hg) (prog ps) Hs) as [He|(s & [|i c] & Hn)]; [by left|right; right..].
  - eexists. exists (PRun CMain). unfold pnext. rewrite Hb. unfold main_next. rewrite Hn. done.
  - by eapply blocked_call.
Qed.

Lemma prog_ok_run s s' : state_ok g (SP:=house_spec g Hg) s → main_run g s s' → state_ok g (SP:=house_spec g Hg) s'.
Proof. intros Hs [[|i c] Hn]; [by eapply main_next_keeps|by eapply worker_next_keeps]. Qed.

(** A step of the program with its pools: the program moves, or less is left in the pools. *)
Lemma pstep_ok ps ps' :
  prog_ok ps → pools_ok ps → pstep g ps ps' →
  prog_ok ps' ∧ pools_ok ps' ∧
  (main_run g (prog ps) (prog ps') ∨ prog ps' = prog ps ∧ (pool_broken ps' = true ∨ pool_left ps' < pool_left ps)).
Proof.
  intros Hs Hps Hst. assert (prog_ok ps') as Hs'.
  { destruct (pstep_prog g _ _ Hst) as [->|?]; [done|by eapply prog_ok_run]. }
  split; [done|]. destruct Hst as [[ch|x a|x a] Hn].
  - unfold pnext in Hn. destruct (pool_broken ps); [done|].
    destruct (match ch with CMain => _ | CWorker _ _ => _ end) eqn:Hmv; [|done].
    destruct (main_next g ch (prog ps)) as [s|] eqn:Hx; [|done]. injection Hn as <-. split; [|left; by exists ch].
    destruct ch as [|i c]; [eapply main_move_ok; [apply (i_main _ _ Hs)|done|done]|by eapply worker_move_ok].
  - destruct (pool_step_ok g ps ps' x a Hps (or_introl Hn)) as [H1 H2]. auto.
  - destruct (pool_step_ok g ps ps' x a Hps (or_intror Hn)) as [H1 H2]. auto.
Qed.

Lemma pooled_acc ps : prog_ok ps → pools_ok ps → Acc (λ ps' ps, pstep g ps ps') ps.
Proof.
  intros Hs. pose proof (step_acc g (SM:=house_measure g Hg) (prog ps) Hs) as Hacc.
  remember (prog ps) as s eqn:Hp. revert ps Hp Hs. induction Hacc as [s _ IHs]. intros ps.
  remember (pool_left ps) as n eqn:Hn. revert ps Hn. induction n as [n IHn] using lt_wf_ind. intros ps -> -> Hs Hps.
  constructor. intros ps' Hst. destruct (pstep_ok ps ps' Hs Hps Hst) as (Hs' & Hps' & [Hr|[He [Hb|Hlt]]]).
  - by apply (IHs (prog ps') Hr).
  - constructor. intros ps2 [d Hd]. unfold pnext in Hd. by rewrite Hb in Hd.
  - rewrite He in Hs'. by apply (IHn (pool_left ps') Hlt ps').
Qed.

Lemma pooled_invariant c ps :
  1 ≤ length (houses g) → c ≤ MAX_HOUSE * length (houses g) →
  reachable (pinit g c) (pstep g) ps → prog_ok ps ∧ pools_ok ps.
Proof.
  intros Hh Hc. apply (reachable_invariant _ _ (λ ps, prog_ok ps ∧ pools_ok ps)).
  - split; [|apply pools_ok_init]. apply (init_ok g (SP:=house_spec g Hg)). by apply threads_allowed.
  - intros a b [H1 H2] Hst. by destruct (pstep_ok a b H1 H2 Hst) as (? & ? & _).
Qed.

End progress.

(** * One core *)

(** With one core there is one thread that calls the pools. *)
Definition sole (p : vpool) : Prop :=
  broken (v_pool p) = false ∧ ∀ x, u_pc (user_of p x) = PPop → x = (0, 0) ∧ free_vector_list (v_pool p) ≠ [].

Definition single (i : nat) (w : HouseWorker (search + multi)) : Prop :=
  i = 0 ∧ num_allowed_threads w = 1 ∧ ∀ m, w_pc w ≠ HRun (inr m).

Definition alone (ps : pstate) : Prop :=
  (∀ i w, workers (prog ps) !! i = Some w → single i w) ∧ sole (chars ps) ∧ sole (ints ps).

Lemma single_next g ch s s' :
  (∀ i w, workers s !! i = Some w → single i w) → main_next g ch s = Some s' → ∀ i w, workers s' !! i = Some w → single i w.
Proof.
  intros Hs Hn. unfold main_next in Hn. destruct ch as [|i c]; cbn [next] in Hn.
  - destruct s as [bm gi ws m r out]. unfold main_step in Hn. cbn [workers] in Hs.
    destruct m as [k|k|]; [..|done]; destruct (ws !! k) as [w|] eqn:Hk; try (by injection Hn as <-).
    + injection Hn as <-. apply (pool_insert single _ _ _ Hs). by destruct (Hs k w Hk) as (? & ? & _).
    + destruct (JoinAndUpdateResult w r); [|done]. by injection Hn as <-.
  - destruct (workers s !! i) as [w|] eqn:Hi; [|done]. cbn [mbind option_bind] in Hn.
    destruct (BFSThread g c _ _ w) as [[[bm gi] w']|] eqn:Hb; [|done]. injection Hn as <-.
    apply (pool_insert single _ _ _ Hs). destruct (Hs i w Hi) as (-> & Ht & Hm). split; [done|].
    unfold BFSThread in Hb. rewrite Ht in Hb. destruct (w_pc w) as [| | |q|]; [done|..|done].
    + injection Hb as _ _ <-. cbn. split; [done|]. by destruct (_ <? _)%Z.
    + destruct (_ <=? _)%Z; [by injection Hb as _ _ <-|]. destruct (houses g !! _) as [h|]; [|done]. cbn in Hb.
      destruct (start_search g h); [|done]. by injection Hb as _ _ <-.
    + destruct q as [q|m]; [|by destruct (Hm m)]. destruct (se_result _); [by injection Hb as _ _ <-|].
      cbn [se_next house_impl] in Hb. destruct (@se_next _ (bfs_impl g) c _ q) as [[bm' q']|]; [|done]. by injection Hb as _ _ <-.
Qed.

Lemma sole_call a p p' : sole p → vpool_call a (0, 0) p = Some p' → sole p'.
Proof.
  intros [Hb Hs] [Hc Hoth]%vpool_call_inv. assert (∀ x, u_pc (user_of p' x) = PPop → x = (0, 0)) as Hx.
  { intros x. destruct (decide (x = (0, 0))) as [|Hne]; [done|]. rewrite Hoth by done. intros Hp. by destruct (Hs x Hp). }
  specialize (Hs (0, 0)). destruct (user_of p (0, 0)) as [pc l]. destruct a as [| |k]; cbn in Hc.
  - unfold VectorPool.Alloc_check in Hc. cbn in Hc. destruct pc; [|done].
    destruct (free_vector_list (v_pool p)) eqn:Hf; injection Hc as E1 E2; (split; [by rewrite <- E1|]); intros x Hp;
      pose proof (Hx x Hp) as ->; [by rewrite <- E2 in Hp|]. rewrite <- E1, Hf. done.
  - unfold VectorPool.Alloc_pop in Hc. cbn in Hc. destruct pc; [done|]. destruct (Hs eq_refl) as [_ Hne].
    destruct (free_vector_list (v_pool p)) eqn:Hf; [done|]. injection Hc as E1 E2. split; [by rewrite <- E1|]. intros x Hp.
    pose proof (Hx x Hp) as ->. by rewrite <- E2 in Hp.
  - unfold VectorPool.Free in Hc. cbn in Hc. destruct pc; [|done]. destruct (l !! k); [|done]. injection Hc as E1 E2.
    split; [by rewrite <- E1|]. intros x Hp. pose proof (Hx x Hp) as ->. by rewrite <- E2 in Hp.
Qed.

Lemma alone_stage ps x : alone ps → stage_of (prog ps) x ≠ Absent → x = (0, 0).
Proof.
  intros [Hw _]. destruct x as [i c]. unfold stage_of, search_of. cbn [fst snd].
  destruct (workers (prog ps) !! i) as [w|] eqn:Hi; [|done]. cbn. destruct (Hw i w Hi) as (-> & _ & Hm).
  destruct (w_pc w) as [| | |[q|m]|]; try done; [|by destruct (Hm m)]. by destruct c.
Qed.

(** One core: no thread takes the front of an empty list. *)
Lemma one_core_unbroken g ps :
  1 ≤ length (houses g) → reachable (pinit g 1) (pstep g) ps → pool_broken ps = false.
Proof.
  intros Hh Hr. assert (alone ps) as (_ & [E1 _] & [E2 _]); [|unfold pool_broken; by rewrite E1, E2].
  revert Hr. apply (reachable_invariant _ _ alone).
  - split; [|split; (split; [done|by intros x Hx])]. intros i w. unfold pinit, main_init. rewrite single_threads by done. cbn.
    destruct i as [|i]; [|done]. by intros [= <-].
  - intros p1 p2 Ha [[ch|x a|x a] Hn]; unfold pnext in Hn; destruct (pool_broken p1); try done.
    + destruct (match ch with CMain => _ | CWorker _ _ => _ end); [|done].
      destruct (main_next g ch (prog p1)) as [s|] eqn:Hs; [|done]. injection Hn as <-.
      destruct Ha as [H1 H2]. split; [|done]. by eapply single_next.
    + destruct (char_call p1 x a) eqn:Hc; [|done]. apply char_call_stage in Hc.
      assert (x = (0, 0)) as -> by (apply (alone_stage p1); [done|]; intros E; by rewrite E in Hc).
      destruct (vpool_call a (0, 0) (chars p1)) as [p|] eqn:Hv; [|done]. injection Hn as <-. destruct Ha as (H1 & H2 & H3).
      split; [done|]. split; [exact (sole_call _ _ _ H2 Hv)|done].
    + destruct (int_call p1 x a) eqn:Hc; [|done]. apply int_call_stage in Hc.
      assert (x = (0, 0)) as -> by (apply (alone_stage p1); [done|]; intros E; by rewrite E in Hc).
      destruct (vpool_call a (0, 0) (ints p1)) as [p|] eqn:Hv; [|done]. injection Hn as <-. destruct Ha as (H1 & H2 & H3).
      split; [done|]. split; [done|exact (sole_call _ _ _ H3 Hv)].
Qed.

(** * The whole program *)

(** C2: on every input with a house and at most 64 cores per house, when main has returned,
    whatever the interleaving of the workers, the threads of their searches, main and the
    calls of the two vector pools, the two numbers it has printed are the smallest and the
    largest distance between two different houses that are connected, and INT_MAX and 0 when
    no two are; this although searches stop early because of the bits set by others, and
    although the threads of a search mark vertices without synchronization.  The waiting
    condition of a search is taken to read the done bits first.  A run in which a thread takes
    the front of an empty free list, which the test of [Alloc] outside the mutex allows
    ([pool_run_breaks]), stops there and is not one in which main returns. *)
Theorem main_prints_answer hs nv lines c g ps :
  input_ok hs nv lines → 1 ≤ length hs → 1 ≤ c ≤ MAX_HOUSE * length hs →
  Reader.Read (print_input hs nv lines) = Some g →
  reachable (pinit g c) (pstep g) ps → s_main (prog ps) = MExit →
  answer (house_dist hs lines) (s_out (prog ps)).
Proof. intros Hin Hh Hc Hr Hs He. eapply prints_answer; [done..| |done]. by apply pooled_reachable. Qed.

(** C5: on every such input every execution of the program is finite, and it stops only when
    main has returned or when a thread has taken the front of the empty free list of a vector
    pool: the workers get no more houses, the threads of a search no more levels, the waiting
    of the threads for each other always ends, and every thread gets its vectors and gives
    them back.  On one core no thread ever takes the front of an empty list.  A round of a waiting loop that reads nothing new is no step, and the waiting
    condition is taken to read the done bits first. *)
Theorem main_terminates hs nv lines c g ps :
  input_ok hs nv lines → 1 ≤ length hs → 1 ≤ c ≤ MAX_HOUSE * length hs →
  Reader.Read (print_input hs nv lines) = Some g →
  reachable (pinit g c) (pstep g) ps →
  Acc (λ ps' ps, pstep g ps ps') ps ∧
  (s_main (prog ps) = MExit ∨ pool_broken ps = true ∨ ∃ ps', pstep g ps ps') ∧
  (c = 1 → pool_broken ps = false).
Proof.
  intros Hin Hh Hc Hr Hs. destruct (read_houses hs nv lines Hin) as (g' & Hr' & Hg & Hhs & _).
  assert (g' = g) as -> by congruence. rewrite <- Hhs in Hh, Hc.
  destruct (pooled_invariant g Hg c ps Hh ltac:(lia) Hs) as [H1 H2].
  split_and!; [by apply (pooled_acc g Hg)|by apply (pooled_progress g Hg)|]. intros ->. by apply (one_core_unbroken g).
Qed.

(** * Runs *)

(** A schedule that lets the choices of [cs] take turns, as far as they can move. *)
Fixpoint take_turns {C St} (nx : C → St → option St) (fuel : nat) (cs : list C) (s : St) : list C :=
  match fuel, cs with
  | S fuel, c :: cs => match nx c s with
    | Some s' => c :: take_turns nx fuel (cs ++ [c]) s'
    | None => take_turns nx fuel (cs ++ [c]) s
    end
  | _, _ => []
  end.

(** The graph 1 - 2 - 4, 1 - 3 - 4, 4 - 5 with houses 1 and 5 on four cores: the search from
    house 1 has two threads. *)
Definition sample_lines : list (nat * list nat) := [(1, [2; 3]); (4, [2; 3; 5])].
Definition sample_context : Context :=
  Eval vm_compute in default (MkContext 0 [] [] ∅ []) (Reader.Read (print_input [1; 5] 5 sample_lines)).

(** What worker [i] and the threads of its search can do. *)
Definition worker_turns (i : nat) : list pchoice :=
  c ← [0; 1; 2];
  [PChar (i, c) CCheck; PChar (i, c) CPop; PInt (i, c) CCheck; PInt (i, c) CPop; PRun (CWorker i c);
   PInt (i, c) (CFree 0); PChar (i, c) (CFree 0)].
Definition sample_turns : list pchoice := PRun CMain :: worker_turns 0 ++ worker_turns 1.
Definition sample_sched : list pchoice :=
  Eval vm_compute in take_turns (pnext sample_context) 6000 sample_turns (pinit sample_context 4).
Definition sample_state : pstate :=
  Eval vm_compute in
    default (pinit sample_context 4) (run_sched (pnext sample_context) sample_sched (pinit sample_context 4)).
Definition early_state : pstate :=
  Eval vm_compute in
    default (pinit sample_context 4) (run_sched (pnext sample_context) (take 60 sample_sched) (pinit sample_context 4)).

Lemma p1_sample_input_ok : input_ok [1; 5] 5 sample_lines.
Proof.
  constructor.
  - repeat constructor.
  - repeat constructor.
  - intros x. unfold MAX_EDGES_PER_VERTEX. cbn. unfold edge_nbrs. cbn. repeat case_bool_decide; cbn; lia.
  - repeat constructor; set_solver.
  - unfold MAX_HOUSE. cbn. lia.
  - done.
Qed.

Lemma p1_sample_reachable : reachable (pinit sample_context 4) (pstep sample_context) sample_state.
Proof.
  apply (run_sched_rtc (pnext sample_context) sample_sched). vm_cast_no_check (eq_refl (Some sample_state)).
Qed.

Lemma main_prints_answer_witness :
  s_out (prog sample_state) = [3; 3]%Z ∧ answer (house_dist [1; 5] sample_lines) (s_out (prog sample_state)).
Proof.
  split; [reflexivity|].
  apply (main_prints_answer [1; 5] 5 sample_lines 4 sample_context sample_state).
  - exact p1_sample_input_ok.
  - cbn. lia.
  - cbn. lia.
  - vm_compute. reflexivity.
  - exact p1_sample_reachable.
  - reflexivity.
Defined.

Lemma main_terminates_witness :
  s_main (prog early_state) = MJoin 0 ∧ Acc (λ ps' ps, pstep sample_context ps ps') early_state ∧
  (s_main (prog early_state) = MExit ∨ pool_broken early_state = true ∨ ∃ ps', pstep sample_context early_state ps') ∧
  (4 = 1 → pool_broken early_state = false).
Proof.
  split; [reflexivity|].
  apply (main_terminates [1; 5] 5 sample_lines 4 sample_context early_state).
  - exact p1_sample_input_ok.
  - cbn. lia.
  - cbn. lia.
  - vm_compute. reflexivity.
  - apply (run_sched_rtc (pnext sample_context) (take 60 sample_sched)). vm_cast_no_check (eq_refl (Some early_state)).
Defined.

(** Four houses without roads on two cores: worker 0 has searched from house 1 and given back
    its vectors; then both workers start a search. *)
Definition broken_context : Context :=
  Eval vm_compute in default (MkContext 0 [] [] ∅ []) (Reader.Read (print_input [1; 2; 3; 4] 4 [])).
Definition broken_sched : list pchoice :=
  let w i := PRun (CWorker i 0) in
  [PRun CMain; PRun CMain; w 0; w 0] ++
  [PChar (0, 0) CCheck; PInt (0, 0) CCheck; PInt (0, 0) CCheck] ++ replicate 4 (w 0) ++
  [PInt (0, 0) (CFree 0); PInt (0, 0) (CFree 0); PChar (0, 0) (CFree 0); w 0; w 0; w 0] ++
  [w 1; w 1; PChar (0, 0) CCheck; PChar (1, 0) CCheck; PChar (0, 0) CPop; PChar (1, 0) CPop].
Definition broken_state : pstate :=
  Eval vm_compute in
    default (pinit broken_context 2) (run_sched (pnext broken_context) broken_sched (pinit broken_context 2)).

(** On an input like any other, the program can take the front of an empty free list: both
    workers have found the list of [vector<char>]s not empty before one of them took the only
    vector in it. *)
Theorem pool_run_breaks :
  Reader.Read (print_input [1; 2; 3; 4] 4 []) = Some broken_context ∧
  ∃ ps, reachable (pinit broken_context 2) (pstep broken_context) ps ∧ pool_broken ps = true.
Proof.
  split; [vm_compute; reflexivity|]. exists broken_state. split; [|done].
  apply (run_sched_rtc (pnext broken_context) broken_sched). vm_cast_no_check (eq_refl (Some broken_state)).
Qed.
