(* ===== verification/P1TestMaker.v ===== *)
(** src/Project1TestMaker/tri/main.cpp: the generator of test inputs for src/Project1, a
    strip of triangles with 64 houses.  The output is the sequence of numbers printed. *)

From S2P Require Import Prelude Graph P1Context P1Search P1Bfs P1Main.

Local Open Scope Z_scope.

(** The two loops over the houses; [k] is [count]. *)
Fixpoint houses_loop (fuel : nat) (i inc count limit : Z) : list Z * Z :=
  match fuel with
  | O => ([], count)
  | S fuel =>
      if count <? limit then let '(out, c) := houses_loop fuel (i + inc) inc (count + 1) limit in (i :: out, c)
      else ([], count)
  end.

(** The loop over the lines, from [i] on; the value of [i] after it. *)
Fixpoint lines_loop (fuel : nat) (i num_vertices : Z) : list Z * Z :=
  match fuel with
  | O => ([], i)
  | S fuel =>
      if i <=? num_vertices - 2 then
        let '(out, i') := lines_loop fuel (i + 1) num_vertices in
        ((i :: (if Z.rem i 2 =? 1 then [2; i + 1; i + 2] else [1; i + 2])) ++ out, i')
      else ([], i)
  end.

(** [main]; the loops run 32, 32 and [num_vertices - 2] times. *)
Definition main (num_vertices : Z) : list Z :=
  let '(hs1, count) := houses_loop 33 1 2 0 32 in
  let '(hs2, count) := houses_loop 33 (num_vertices - 1) (-2) count 64 in
  let '(lines, i) := lines_loop (Z.to_nat num_vertices) 1 num_vertices in
  64 :: hs1 ++ hs2 ++
  num_vertices :: (if Z.rem num_vertices 2 =? 0 then num_vertices - 1 else num_vertices - 2) ::
  lines ++ (if Z.rem i 2 =? 1 then [i; 1; i + 1] else []).

(** * The input it describes *)

(** 1, 3, 5, ..., 63 and the vertices down from the last but one. *)
Definition tri_houses (n : nat) : list nat :=
  ((λ k, 2 * k + 1) <$> seq 0 32)%nat ++ ((λ k, n - 1 - 2 * k) <$> seq 0 32)%nat.

Definition tri_line (i : nat) : nat * list nat := (i, if Nat.odd i then [i + 1; i + 2] else [i + 2])%nat.

Definition tri_lines (n : nat) : list (nat * list nat) :=
  (tri_line <$> seq 1 (n - 2)) ++ (if Nat.odd (n - 1) then [(n - 1, [n])] else [])%nat.

Lemma rem_odd i : (Z.rem (Z.of_nat i) 2 =? 1) = Nat.odd i.
Proof.
  rewrite Z.rem_mod_nonneg by lia. rewrite Zmod_odd.
  destruct (Z.odd (Z.of_nat i)) eqn:Ho.
  - symmetry. apply Nat.odd_spec. apply Z.odd_spec in Ho as [k Hk]. exists (Z.to_nat k). lia.
  - symmetry. apply Bool.not_true_iff_false. intros [k Hk]%Nat.odd_spec.
    apply Bool.not_true_iff_false in Ho. apply Ho, Z.odd_spec. exists (Z.of_nat k). lia.
Qed.

Lemma rem_even i : (Z.rem (Z.of_nat i) 2 =? 0) = negb (Nat.odd i).
Proof.
  rewrite <- rem_odd, Z.rem_mod_nonneg by lia. pose proof (Z.mod_pos_bound (Z.of_nat i) 2 ltac:(lia)).
  destruct (Z.eqb_spec (Z.of_nat i `mod` 2) 0), (Z.eqb_spec (Z.of_nat i `mod` 2) 1); cbn; lia || done.
Qed.

Lemma lines_loop_spec n fuel i :
  (2 ≤ n)%nat → (1 ≤ i ≤ n - 1)%nat → (n - 1 - i < fuel)%nat →
  lines_loop fuel (Z.of_nat i) (Z.of_nat n) =
    (concat (print_line <$> (tri_line <$> seq i (n - 1 - i))), Z.of_nat (n - 1)).
Proof.
  intros Hn. revert i. induction fuel as [|fuel IH]; intros i Hi Hf; [lia|]. cbn [lines_loop].
  destruct (Z.leb_spec (Z.of_nat i) (Z.of_nat n - 2)) as [Hle|Hgt].
  - replace (Z.of_nat i + 1) with (Z.of_nat (i + 1)) by lia. rewrite IH by lia.
    replace (n - 1 - i)%nat with (S (n - 1 - (i + 1))) by lia.
    cbn [seq fmap list_fmap concat]. rewrite Nat.add_1_r. f_equal. f_equal.
    unfold print_line, tri_line. rewrite rem_odd. cbn [fst snd].
    destruct (Nat.odd i); cbn; repeat f_equal; lia.
  - replace (n - 1 - i)%nat with 0%nat by lia. cbn. f_equal. lia.
Qed.

Lemma houses_loop_spec fuel i inc count k :
  (k < fuel)%nat →
  houses_loop fuel i inc count (count + Z.of_nat k) =
    ((λ j, i + inc * Z.of_nat j) <$> seq 0 k, count + Z.of_nat k).
Proof.
  revert i count k. induction fuel as [|fuel IH]; intros i count k Hk; [lia|]. cbn [houses_loop]. destruct k as [|k].
  - rewrite (proj2 (Z.ltb_ge _ _)) by lia. cbn [seq fmap list_fmap]. f_equal. lia.
  - rewrite (proj2 (Z.ltb_lt _ _)) by lia.
    replace (count + Z.of_nat (S k)) with (count + 1 + Z.of_nat k) by lia. rewrite IH by lia.
    cbn [seq fmap list_fmap]. f_equal. f_equal; [lia|]. rewrite <- fmap_S_seq, <- list_fmap_compose.
    apply list_fmap_ext. intros _ j _. cbn. lia.
Qed.

(** The numbers printed are those of the input format. *)
Lemma main_prints n : (128 ≤ n)%nat → main (Z.of_nat n) = print_input (tri_houses n) n (tri_lines n).
Proof.
  intros Hn. unfold main, print_input.
  pose proof (houses_loop_spec 33 1 2 0 32 ltac:(lia)) as H1. change (0 + Z.of_nat 32) with 32 in H1. rewrite H1.
  pose proof (houses_loop_spec 33 (Z.of_nat n - 1) (-2) 32 32 ltac:(lia)) as H2.
  change (32 + Z.of_nat 32) with 64 in H2. rewrite H2.
  pose proof (lines_loop_spec n n 1 ltac:(lia) ltac:(lia) ltac:(lia)) as H3. change (Z.of_nat 1) with 1 in H3.
  rewrite Nat2Z.id, H3.
  assert (length (tri_houses n) = 64%nat) as ->
    by (unfold tri_houses; by rewrite length_app, !length_fmap, !length_seq).
  rewrite rem_even, rem_odd. unfold tri_houses. rewrite fmap_app, <- app_assoc. do 2 f_equal. f_equal; [|do 2 f_equal].
  - rewrite <- list_fmap_compose. apply list_fmap_ext. intros k j Hj%lookup_seq. cbn. lia.
  - unfold tri_lines. rewrite length_app, length_fmap, length_seq.
    replace n with (S (n - 1)) at 1 by lia. rewrite Nat.odd_succ, <- Nat.negb_odd.
    destruct (Nat.odd (n - 1)); cbn; lia.
  - unfold tri_lines. rewrite fmap_app, concat_app. replace (n - 1 - 1)%nat with (n - 2)%nat by lia. f_equal.
    destruct (Nat.odd (n - 1)); [|done]. cbn. repeat f_equal; lia.
Qed.

Local Open Scope nat_scope.

(** The strip: an odd vertex is joined with the next two, an even one with the one after
    the next. *)
Definition tri_edge (n v w : nat) : Prop := 1 ≤ v ∧ w ≤ n ∧ (w = v + 2 ∨ w = v + 1 ∧ Nat.odd v = true).

Lemma elem_of_edges v w lines : (v, w) ∈ edges lines ↔ ∃ ns, (v, ns) ∈ lines ∧ w ∈ ns.
Proof.
  induction lines as [|[u ns] lines IH].
  - cbn. split; [by intros ?%not_elem_of_nil|intros (? & ?%not_elem_of_nil & _); done].
  - change (edges ((u, ns) :: lines)) with (line_edges (u, ns) ++ edges lines).
    rewrite elem_of_app, IH. unfold line_edges. cbn [fst snd]. rewrite list_elem_of_fmap. split.
    + intros [(y & [= -> ->] & Hy)|(ns' & Hin & Hw)]; [exists ns|exists ns']; set_solver.
    + intros (ns' & [[= -> ->]|Hin]%elem_of_cons & Hw); [left; eauto|right; eauto].
Qed.

Lemma tri_edges n v w : 2 ≤ n → (v, w) ∈ edges (tri_lines n) ↔ tri_edge n v w.
Proof.
  intros Hn. rewrite elem_of_edges. unfold tri_lines, tri_edge. setoid_rewrite elem_of_app.
  setoid_rewrite list_elem_of_fmap. setoid_rewrite elem_of_seq. split.
  - intros (ns & [(i & [= -> ->] & Hi)|Hl] & Hw).
    + destruct (Nat.odd i); set_unfold; intuition lia.
    + destruct (Nat.odd (n - 1)) eqn:Ho; [|by apply not_elem_of_nil in Hl].
      apply list_elem_of_singleton in Hl as [= -> ->]. apply list_elem_of_singleton in Hw as ->.
      split_and!; [lia|lia|right; split; [lia|done]].
  - intros (Hv & Hw & Hc). destruct (decide (v ≤ n - 2)) as [Hle|Hgt].
    + exists (tri_line v).2. split; [left; exists v; split; [done|lia]|]. cbn.
      destruct Hc as [->|[-> ->]]; [destruct (Nat.odd v)|]; set_solver.
    + destruct Hc as [->|[-> Ho]]; [lia|]. exists [n]. assert (v = n - 1) as -> by lia. rewrite Ho.
      split; [right; by left|]. apply list_elem_of_singleton. lia.
Qed.

(** A line adds to [x] only when [x] is its vertex or one of the next two. *)
Definition near (i x : nat) : nat :=
  (if i =? x then 2 else 0) + (if i + 1 =? x then 1 else 0) + (if i + 2 =? x then 1 else 0).

Lemma edges_nbrs_length x l lines :
  length (edges_nbrs x (edges (l :: lines))) = length (edges_nbrs x (line_edges l)) + length (edges_nbrs x (edges lines)).
Proof.
  change (edges (l :: lines)) with (line_edges l ++ edges lines). unfold edges_nbrs.
  rewrite reverse_app, bind_app, length_app. lia.
Qed.

Lemma tri_line_near i x : length (edges_nbrs x (line_edges (tri_line i))) ≤ near i x.
Proof.
  unfold near, edges_nbrs, line_edges, tri_line. cbn [fst snd].
  destruct (Nat.odd i); cbn; unfold edge_nbrs; cbn [fst snd];
    repeat case_bool_decide; subst; cbn [length app];
    repeat match goal with |- context [?a =? ?b] => destruct (Nat.eqb_spec a b) end; lia.
Qed.

Lemma last_line_near n x : 2 ≤ n → length (edges_nbrs x (line_edges (n - 1, [n]))) ≤ near (n - 1) x.
Proof.
  intros Hn. unfold near, edges_nbrs, line_edges. cbn. unfold edge_nbrs. cbn [fst snd].
  repeat case_bool_decide; subst; cbn [length app];
    repeat match goal with |- context [?a =? ?b] => destruct (Nat.eqb_spec a b) end; lia.
Qed.

Lemma near_sum a k x : sum_list_with (λ i, near i x) (seq a k) ≤
  (if bool_decide (a ≤ x < a + k) then 2 else 0) + (if bool_decide (a + 1 ≤ x < a + k + 1) then 1 else 0) +
  (if bool_decide (a + 2 ≤ x < a + k + 2) then 1 else 0).
Proof.
  revert a. induction k as [|k IH]; intros a; cbn [seq sum_list_with]; [lia|]. specialize (IH (S a)).
  etrans; [apply Nat.add_le_mono_l, IH|]. unfold near.
  repeat case_bool_decide; repeat match goal with |- context [?a =? ?b] => destruct (Nat.eqb_spec a b) end; lia.
Qed.

Lemma tri_degree_sum x k a lines :
  length (edges_nbrs x (edges ((tri_line <$> seq a k) ++ lines))) ≤
    sum_list_with (λ i, near i x) (seq a k) + length (edges_nbrs x (edges lines)).
Proof.
  revert a. induction k as [|k IH]; intros a; [done|]. cbn [seq fmap list_fmap app sum_list_with].
  rewrite edges_nbrs_length. pose proof (tri_line_near a x). specialize (IH (S a)). cbn [fmap] in IH. lia.
Qed.

Lemma tri_degree n x : 2 ≤ n → length (edges_nbrs x (edges (tri_lines n))) ≤ 4.
Proof.
  intros Hn. pose proof (last_line_near n x Hn) as Hlast.
  assert (sum_list_with (λ i, near i x) (seq 1 (n - 2)) + near (n - 1) x ≤ 4) as Hsum.
  { pose proof (near_sum 1 (n - 2 + 1) x) as Hs. rewrite seq_app, sum_list_with_app in Hs.
    cbn [seq sum_list_with] in Hs. replace (1 + (n - 2)) with (n - 1) in Hs by lia.
    repeat case_bool_decide; lia. }
  unfold tri_lines. etrans; [apply tri_degree_sum|]. destruct (Nat.odd (n - 1)); [|cbn; lia].
  rewrite edges_nbrs_length. cbn [edges fmap list_fmap concat edges_nbrs length]. cbn in *. lia.
Qed.

Lemma tri_input_ok n : 128 ≤ n → (Z.of_nat n < INT_MAX)%Z → input_ok (tri_houses n) n (tri_lines n).
Proof.
  intros Hn Hint. constructor; [| | | | |done].
  - unfold tri_houses. apply Forall_app. split; apply Forall_fmap, Forall_forall; intros k Hk%elem_of_seq; cbn; lia.
  - unfold tri_lines. apply Forall_app. split.
    + apply Forall_fmap, Forall_forall. intros i Hi%elem_of_seq. cbn. split; [lia|].
      destruct (Nat.odd i); repeat constructor; lia.
    + destruct (Nat.odd (n - 1)); repeat constructor; cbn; lia.
  - intros x. pose proof (tri_degree n x). unfold MAX_EDGES_PER_VERTEX. lia.
  - unfold tri_houses. apply NoDup_app. split_and!.
    + apply NoDup_fmap_2; [intros a b; lia|apply NoDup_seq].
    + intros h (k & -> & Hk%elem_of_seq)%list_elem_of_fmap (j & Hj & Hj'%elem_of_seq)%list_elem_of_fmap. lia.
    + apply NoDup_fmap_2_strong; [|apply NoDup_seq]. intros a b Ha%elem_of_seq Hb%elem_of_seq. lia.
  - unfold tri_houses. rewrite length_app, !length_fmap, !length_seq. done.
Qed.

(** The output of the test generator is an input the program accepts: reading it back
    gives the 64 different houses and the strip of triangles, for every size from 128 on
    that fits an [int]. *)
Theorem tri_test_readable n :
  128 ≤ n → (Z.of_nat n < INT_MAX)%Z →
  ∃ g, Reader.Read (main (Z.of_nat n)) = Some g ∧ houses_ok g ∧ houses g = tri_houses n ∧ num_vertices g = n ∧
    ∀ v w, w ∈ nbrs (adjlist g) v ↔ tri_edge n v w ∨ tri_edge n w v.
Proof.
  intros Hn Hint. pose proof (tri_input_ok n Hn Hint) as Hin. rewrite main_prints by done.
  destruct (Read_ok (tri_houses n) n (tri_lines n)) as (g & Hr & Hok & Hnv & Hhs & He); [apply Hin..|].
  exists g. split_and!; try done.
  - constructor; [done|rewrite Hhs; apply Hin|rewrite Hhs; apply Hin].
  - intros v w. by rewrite He, !tri_edges by lia.
Qed.

Lemma tri_test_readable_witness :
  ∃ g, Reader.Read (main 128) = Some g ∧ houses_ok g ∧ houses g = tri_houses 128 ∧ num_vertices g = 128 ∧
    ∀ v w, w ∈ nbrs (adjlist g) v ↔ tri_edge 128 v w ∨ tri_edge 128 w v.
Proof. apply (tri_test_readable 128); [lia|reflexivity]. Defined.
