(* ===== verification/P2Node.v ===== *)
(** src/Project2/src/node.h: singly linked lists with explicit memory.  The memory maps
    addresses to nodes; following a pointer that is not allocated has no result.  The
    operations are shown to be the operations on sequences that P2Mvcc.v uses. *)

From S2P Require Import Prelude.

Module Node.

Section node.
Context {T : Type}.

(** [Node<T>] *)
Record Node := MkNode { next : option nat; data : T }.

Abbreviation heap := (gmap nat Node).

(** [NodePushFront]: the new head and the memory; the new node is the head. *)
Definition NodePushFront (h : heap) (head : option nat) (d : T) : heap * nat :=
  let new_node := fresh (dom h) in (<[new_node:=MkNode head d]> h, new_node).

(** [NodeErase(prev_node, node)] *)
Definition NodeErase_after (h : heap) (prev_node : option nat) (node : nat) : option (heap * option nat) :=
  n ← h !! node;
  match prev_node with
  | Some prev =>
      p ← h !! prev;
      let h := delete node (<[prev:=MkNode (next n) (data p)]> h) in
      p ← h !! prev; Some (h, next p)
  | None => Some (delete node h, None)
  end.

(** The loop of [NodeErase(head, node)] that looks for the node before. *)
Fixpoint find_prev (fuel : nat) (h : heap) (it prev_node : option nat) (node : nat) : option (option nat) :=
  match it with
  | None => Some prev_node
  | Some i =>
      match fuel with
      | O => None
      | S fuel =>
          if (i =? node)%nat then Some prev_node
          else n ← h !! i; find_prev fuel h (next n) (Some i) node
      end
  end.

(** [NodeErase(head, node)]: the memory, the head, and the value returned. *)
Definition NodeErase (fuel : nat) (h : heap) (head : option nat) (node : nat) : option (heap * option nat * option nat) :=
  prev_node ← find_prev fuel h head None node;
  head' ← match prev_node with None => n ← h !! node; Some (next n) | Some _ => Some head end;
  '(h', r) ← NodeErase_after h prev_node node;
  Some (h', head', r).

(** [DestroyNodes]: the memory; the head becomes null. *)
Fixpoint DestroyNodes (fuel : nat) (h : heap) (it : option nat) : option heap :=
  match it with
  | None => Some h
  | Some i =>
      match fuel with
      | O => None
      | S fuel => n ← h !! i; DestroyNodes fuel (delete i h) (next n)
      end
  end.

(** * Lists in memory *)

(** The list from [p] holds [l], addresses with their data. *)
Fixpoint chain (h : heap) (p : option nat) (l : list (nat * T)) : Prop :=
  match l with
  | [] => p = None
  | (a, d) :: l => p = Some a ∧ ∃ q, h !! a = Some (MkNode q d) ∧ chain h q l
  end.

(** A list whose nodes are different. *)
Definition is_list (h : heap) (p : option nat) (l : list (nat * T)) : Prop := chain h p l ∧ NoDup l.*1.

(** Memory outside the list does not matter. *)
Lemma chain_frame h h' p l : (∀ a, a ∈ l.*1 → h' !! a = h !! a) → chain h p l → chain h' p l.
Proof.
  revert p. induction l as [|[a d] l IH]; intros p Hh Hc; [done|]. cbn in *.
  destruct Hc as (-> & q & Ha & Hc). split; [done|]. exists q. split; [rewrite Hh by set_solver; done|].
  apply IH; [|done]. intros b Hb. apply Hh. by right.
Qed.

Lemma chain_lookup h p l a d : chain h p l → (a, d) ∈ l → ∃ q, h !! a = Some (MkNode q d).
Proof.
  revert p. induction l as [|[b e] l IH]; intros p Hc Hin; [by apply not_elem_of_nil in Hin|].
  destruct Hc as (-> & q & Hb & Hc). apply elem_of_cons in Hin as [[= -> ->]|Hin]; eauto.
Qed.

Lemma is_list_push h p l d :
  is_list h p l →
  let '(h', a) := NodePushFront h p d in is_list h' (Some a) ((a, d) :: l) ∧ h !! a = None.
Proof.
  intros [Hc Hnd]. unfold NodePushFront. set (a := fresh (dom h)).
  assert (h !! a = None) as Ha by (apply not_elem_of_dom, is_fresh). split; [|done].
  assert (a ∉ l.*1) as Hal.
  { intros ([b d'] & Hb & Hin)%list_elem_of_fmap. cbn in Hb. subst b.
    destruct (chain_lookup _ _ _ _ _ Hc Hin) as [q Hq]. congruence. }
  split; [|by constructor]. cbn. split; [done|]. exists p. rewrite lookup_insert_eq. split; [done|].
  eapply chain_frame; [|done]. intros b Hb. apply lookup_insert_ne. congruence.
Qed.

(** The node before [a], if any. *)
Definition before (prev : option nat) (l1 : list (nat * T)) : option nat :=
  match last l1 with Some (a, _) => Some a | None => prev end.

Lemma find_prev_ok h fuel p prev l1 a d l2 :
  chain h p (l1 ++ (a, d) :: l2) → NoDup (l1 ++ (a, d) :: l2).*1 → (length l1 < fuel)%nat →
  find_prev fuel h p prev a = Some (before prev l1).
Proof.
  revert p prev fuel. induction l1 as [|[b e] l1 IH]; intros p prev fuel Hc Hnd Hf; cbn in *.
  - destruct Hc as (-> & q & _). destruct fuel; [lia|]. cbn. by rewrite Nat.eqb_refl.
  - destruct Hc as (-> & q & Hb & Hc). destruct fuel; [lia|]. cbn.
    apply NoDup_cons in Hnd as [Hnb Hnd]. rewrite (proj2 (Nat.eqb_neq b a)).
    + rewrite Hb. cbn. rewrite IH by (done || lia). unfold before. rewrite last_cons. by destruct (last l1) as [[]|].
    + intros ->. apply Hnb. rewrite fmap_app. set_solver.
Qed.

(** Unlinking the node after [b]. *)
Lemma chain_unlink h p l1 b e a d q l2 :
  chain h p (l1 ++ [(b, e)] ++ (a, d) :: l2) → NoDup (l1 ++ [(b, e)] ++ (a, d) :: l2).*1 →
  h !! a = Some (MkNode q d) →
  h !! b = Some (MkNode (Some a) e) ∧
  chain (delete a (<[b:=MkNode q e]> h)) p (l1 ++ [(b, e)] ++ l2).
Proof.
  revert p. induction l1 as [|[c f] l1 IH]; intros p Hc Hnd Ha; cbn in *.
  - destruct Hc as (-> & q1 & Hb & -> & q2 & Ha' & Hc). apply NoDup_cons in Hnd as [Hnb Hnd].
    apply NoDup_cons in Hnd as [Hna Hnd].
    assert (q2 = q) as -> by congruence. split; [done|]. split; [done|]. exists q.
    rewrite lookup_delete_ne, lookup_insert_eq by set_solver. split; [done|].
    eapply chain_frame; [|done]. intros x Hx. rewrite lookup_delete_ne, lookup_insert_ne by set_solver. done.
  - destruct Hc as (-> & q1 & Hcq & Hc). apply NoDup_cons in Hnd as [Hnc Hnd].
    destruct (IH q1 Hc Hnd Ha) as [Hb Hc']. split; [done|]. split; [done|]. exists q1. split; [|done].
    rewrite fmap_app in Hnc. csimpl in Hnc. rewrite lookup_delete_ne, lookup_insert_ne by set_solver. done.
Qed.

(** Erasing a node of a list. *)
Lemma is_list_erase h p l1 a d l2 fuel :
  is_list h p (l1 ++ (a, d) :: l2) → (length l1 < fuel)%nat →
  ∃ h' p' r, NodeErase fuel h p a = Some (h', p', r) ∧ is_list h' p' (l1 ++ l2) ∧
    h' !! a = None ∧ ∀ b, b ∉ (l1 ++ (a, d) :: l2).*1 → h' !! b = h !! b.
Proof.
  intros [Hc Hnd] Hf. unfold NodeErase. rewrite (find_prev_ok _ _ _ _ _ _ _ _ Hc Hnd Hf). cbn [mbind option_bind].
  assert (∃ q, h !! a = Some (MkNode q d)) as [q Ha] by (eapply chain_lookup; [done|set_solver]).
  assert (NoDup (l1 ++ l2).*1) as Hnd'.
  { revert Hnd. rewrite !fmap_app. csimpl. rewrite !NoDup_app, NoDup_cons. set_solver. }
  destruct l1 as [|[b e] l1 _] using rev_ind.
  - cbn in Hc. destruct Hc as (-> & q' & Ha' & Hc). assert (q' = q) as -> by congruence.
    cbn [before last mbind option_bind].
    rewrite Ha. cbn [mbind option_bind next]. unfold NodeErase_after. rewrite Ha. cbn [mbind option_bind].
    do 3 eexists. split; [done|]. split_and!.
    + split; [|done]. eapply chain_frame; [|done]. intros x Hx. cbn in Hnd. apply NoDup_cons in Hnd as [Hna _].
      rewrite lookup_delete_ne; [done|]. set_solver.
    + apply lookup_delete_eq.
    + intros x Hx. rewrite lookup_delete_ne; [done|]. set_solver.
  - rewrite <- app_assoc in Hc, Hnd, Hnd' |- *.
    destruct (chain_unlink h p l1 b e a d q l2 Hc Hnd Ha) as [Hb Hc'].
    unfold before. rewrite last_snoc. cbn [mbind option_bind]. unfold NodeErase_after.
    assert (a ≠ b) as Hab.
    { intros ->. revert Hnd. rewrite !fmap_app. csimpl. rewrite !NoDup_app, !NoDup_cons. set_solver. }
    rewrite Ha, Hb. cbn [mbind option_bind next data]. rewrite lookup_delete_ne, lookup_insert_eq by done.
    cbn [mbind option_bind]. do 3 eexists. split; [done|]. split_and!.
    + done.
    + apply lookup_delete_eq.
    + intros x Hx. rewrite !fmap_app in Hx. csimpl in Hx. rewrite !not_elem_of_app, !not_elem_of_cons in Hx.
      rewrite lookup_delete_ne, lookup_insert_ne by naive_solver. done.
Qed.

(** Destroying a list frees exactly its nodes. *)
Lemma is_list_destroy h p l fuel :
  is_list h p l → (length l ≤ fuel)%nat →
  ∃ h', DestroyNodes fuel h p = Some h' ∧ (∀ a, a ∈ l.*1 → h' !! a = None) ∧ ∀ b, b ∉ l.*1 → h' !! b = h !! b.
Proof.
  revert h p fuel. induction l as [|[a d] l IH]; intros h p fuel [Hc Hnd] Hf; cbn in *.
  - subst p. exists h. split_and!; [by destruct fuel|by intros a ?%not_elem_of_nil|done].
  - destruct Hc as (-> & q & Ha & Hc). apply NoDup_cons in Hnd as [Hna Hnd]. destruct fuel; [lia|].
    destruct (IH (delete a h) q fuel) as (h' & Hd & Hin & Hout); [|lia|].
    { split; [|done]. eapply chain_frame; [|done]. intros b Hb. apply lookup_delete_ne. set_solver. }
    exists h'. cbn. rewrite Ha. cbn. split; [done|]. split.
    + intros b [->|Hb]%elem_of_cons; [|by apply Hin]. rewrite Hout by done. apply lookup_delete_eq.
    + intros b Hb. rewrite Hout by set_solver. apply lookup_delete_ne. set_solver.
Qed.

End node.

(** C38: erasing a node of a list by its address removes exactly that node: the list in
    memory afterwards is the list without it, the node is freed, and memory outside the
    list is not touched; a new node in front and the destruction of a list behave the same
    way. *)
Theorem node_operations {T} (h : gmap nat (@Node T)) (p : option nat) l :
  is_list h p l →
  (∀ d, let '(h', a) := NodePushFront h p d in
     is_list h' (Some a) ((a, d) :: l) ∧ h !! a = None ∧ ∀ b, b ≠ a → h' !! b = h !! b) ∧
  (∀ l1 a d l2, l = l1 ++ (a, d) :: l2 → ∃ h' p' r, NodeErase (length l) h p a = Some (h', p', r) ∧
     is_list h' p' (l1 ++ l2) ∧ h' !! a = None ∧ ∀ b, b ∉ l.*1 → h' !! b = h !! b) ∧
  (∃ h', DestroyNodes (length l) h p = Some h' ∧ (∀ a, a ∈ l.*1 → h' !! a = None) ∧
     ∀ b, b ∉ l.*1 → h' !! b = h !! b).
Proof.
  intros Hl. split_and!.
  - intros d. pose proof (is_list_push h p l d Hl) as Hp. unfold NodePushFront in *. destruct Hp as [Hp Ha].
    split_and!; [done|done|]. intros b Hb. by apply lookup_insert_ne.
  - intros l1 a d l2 ->. apply is_list_erase; [done|]. rewrite length_app. cbn. lia.
  - by apply is_list_destroy.
Qed.

(** A list of two nodes. *)
Lemma node_operations_witness :
  let h : gmap nat (@Node Z) := <[1:=MkNode (Some 2) 10%Z]> (<[2:=MkNode None 20%Z]> ∅) in
  (∃ h' p' r, NodeErase 2 h (Some 1) 1 = Some (h', p', r) ∧ is_list h' p' [(2, 20%Z)]) ∧
  ∃ h', DestroyNodes 2 h (Some 1) = Some h' ∧ h' !! 1 = None.
Proof.
  intros h. assert (is_list h (Some 1) [(1, 10%Z); (2, 20%Z)]) as Hl.
  { split; [|repeat constructor; set_solver]. cbn. split; [done|]. exists (Some 2). split; [done|].
    split; [done|]. by exists None. }
  destruct (node_operations h (Some 1) [(1, 10%Z); (2, 20%Z)] Hl) as (_ & He & (h2 & Hd & Hf & _)). split.
  - destruct (He [] 1 10%Z [(2, 20%Z)] eq_refl) as (h' & p' & r & H1 & H2 & _). by exists h', p', r.
  - exists h2. split; [done|]. apply Hf. by left.
Defined.

End Node.
