(* ===== verification/P2Mutex.v ===== *)
(** [MyMutex] of src/Project2/src/my_mutex.cpp as an instance of the lock interface.

    The lock is used by the updaters, whose identifiers are their indices, and by the
    garbage collector, whose identifier is the number of updaters plus 100. *)

From S2P Require Import Prelude Locks.

Local Open Scope Z_scope.

Module MyMutex.

Section mutex.
Context (g_num_threads : nat).

Definition EMPTY : Z := -1.

(** The fields [throne_] and [dummy_]. *)
Record mem := Mem { throne_ : Z; dummy_ : Z }.

(** The constructor. *)
Definition new_MyMutex : mem := Mem EMPTY 2016.

(** The identifier thread [i] passes; thread [g_num_threads] is the garbage collector. *)
Definition thread_id (i : nat) : Z := if (i =? g_num_threads)%nat then Z.of_nat g_num_threads + 100 else Z.of_nat i.

(** [TakeTheIronThrone] *)
Definition TakeTheIronThrone (id : Z) (m : mem) : mem :=
  if throne_ m =? EMPTY then Mem id (dummy_ m) else m.

(** The loop that passes the time. *)
Definition wait (m : mem) : mem :=
  Mem (throne_ m) (Nat.iter 32 (λ d, Z.lxor (i32 (d + 398)) 98914) (dummy_ m)).

(** Outside; after the first attempt; at the top of the loop with [count]; after the
    waiting; after an attempt in the loop; holding. *)
Inductive loc := LOut | LFirst | LLoop (count : Z) | LTry (count : Z) | LAgain (count : Z) | LIn.

Definition loc_phase (l : loc) : phase :=
  match l with LOut => Idle | LFirst | LLoop _ | LTry _ | LAgain _ => Acquiring | LIn => Held end.

(** One access of [Lock] or [Unlock]; sleeping does not touch the memory. *)
Definition mutex_step (i c : nat) (m : mem) (l : loc) : option (mem * loc) :=
  let id := thread_id i in
  match l with
  | LOut => Some (TakeTheIronThrone id m, LFirst)
  | LFirst => Some (m, if throne_ m =? id then LIn else LLoop 0)
  | LLoop count => Some (wait m, LTry (count + 1))
  | LTry count => Some (TakeTheIronThrone id m, LAgain count)
  | LAgain count => Some (m, if throne_ m =? id then LIn else LLoop count)
  | LIn => Some (Mem EMPTY (dummy_ m), LOut)
  end.

#[export] Instance my_mutex : LockImpl := {|
  lsh := mem;
  lloc := loc;
  lsh_init := new_MyMutex;
  lloc_init := LOut;
  lphase := loc_phase;
  lock_step := mutex_step;
|}.

Lemma thread_id_inj i j : (i ≤ g_num_threads)%nat → (j ≤ g_num_threads)%nat → thread_id i = thread_id j → i = j.
Proof. unfold thread_id. destruct (Nat.eqb_spec i g_num_threads), (Nat.eqb_spec j g_num_threads); lia. Qed.

Lemma thread_id_nonempty i : thread_id i ≠ EMPTY.
Proof. unfold thread_id, EMPTY. case_match; lia. Qed.

(** The throne holds the identifier of a thread that has succeeded and not released. *)
Record mutex_inv (m : mem) (ls : list loc) : Prop := {
  mi_len : length ls = S g_num_threads;
  mi_in i : ls !! i = Some LIn → throne_ m = thread_id i;
  mi_out i l : ls !! i = Some l → l = LOut ∨ (∃ c, l = LLoop c ∨ l = LTry c) → throne_ m ≠ thread_id i;
  mi_owner : throne_ m ≠ EMPTY → ∃ i l, ls !! i = Some l ∧ throne_ m = thread_id i;
}.

Lemma mi_bound m ls i l : mutex_inv m ls → ls !! i = Some l → (i ≤ g_num_threads)%nat.
Proof. intros Hm Hi. apply lookup_lt_Some in Hi. rewrite (mi_len _ _ Hm) in Hi. lia. Qed.

(** Steps that leave the throne alone. *)
Lemma mutex_inv_quiet m m' ls i l l' :
  mutex_inv m ls → ls !! i = Some l → throne_ m' = throne_ m →
  (l' = LIn → throne_ m = thread_id i) →
  (l' = LOut ∨ (∃ c, l' = LLoop c ∨ l' = LTry c) → throne_ m ≠ thread_id i) →
  mutex_inv m' (<[i:=l']> ls).
Proof.
  intros Hm Hi Ht Hin Hout. constructor; rewrite ?Ht.
  - rewrite length_insert. apply Hm.
  - intros j [[<- <-]|[_ Hj]]%lookup_insert_inv; [by apply Hin|by apply (mi_in _ _ Hm)].
  - intros j x [[<- ->]|[_ Hj]]%lookup_insert_inv; [done|by apply (mi_out _ _ Hm)].
  - intros He. destruct (mi_owner _ _ Hm He) as (j & x & Hj & Hx). destruct (decide (j = i)) as [->|].
    + exists i, l'. rewrite list_lookup_insert_eq by by eapply lookup_lt_Some. done.
    + exists j, x. by rewrite list_lookup_insert_ne.
Qed.

(** An attempt. *)
Lemma mutex_inv_take m ls i l l' :
  mutex_inv m ls → ls !! i = Some l → l' = LFirst ∨ (∃ c, l' = LAgain c) →
  mutex_inv (TakeTheIronThrone (thread_id i) m) (<[i:=l']> ls).
Proof.
  intros Hm Hi Hl'. unfold TakeTheIronThrone. destruct (Z.eqb_spec (throne_ m) EMPTY) as [He|Hne].
  2:{ eapply mutex_inv_quiet; [done..| |]; naive_solver. }
  pose proof (mi_bound _ _ _ _ Hm Hi) as Hb. constructor; cbn.
  - rewrite length_insert. apply Hm.
  - intros j [[<- ?]|[_ Hj]]%lookup_insert_inv; [done|]. apply (mi_in _ _ Hm) in Hj.
    by destruct (thread_id_nonempty j); congruence.
  - intros j x [[<- ->]|[Hne Hj]]%lookup_insert_inv Hx.
    + naive_solver.
    + intros Hid. apply Hne. pose proof (mi_bound _ _ _ _ Hm Hj). by apply thread_id_inj.
  - intros _. exists i, l'. by rewrite list_lookup_insert_eq by by eapply lookup_lt_Some.
Qed.

Lemma mutex_inv_step m ls i c l m' l' :
  mutex_inv m ls → ls !! i = Some l → mutex_step i c m l = Some (m', l') → mutex_inv m' (<[i:=l']> ls).
Proof.
  intros Hm Hi Hst. destruct l; cbn in Hst; injection Hst as <- <-.
  - apply (mutex_inv_take _ _ _ LOut); auto.
  - eapply mutex_inv_quiet; [done..| |]; destruct (Z.eqb_spec (throne_ m) (thread_id i)); try done.
    intros [|[? [|]]]; done.
  - eapply mutex_inv_quiet; [done..| |]; [done|]. intros _. eapply (mi_out _ _ Hm); eauto.
  - eapply mutex_inv_take; eauto.
  - eapply mutex_inv_quiet; [done..| |]; destruct (Z.eqb_spec (throne_ m) (thread_id i)); try done.
    intros [|[? [|]]]; done.
  - pose proof (mi_in _ _ Hm i Hi) as Ht. pose proof (mi_bound _ _ _ _ Hm Hi). constructor; cbn.
    + rewrite length_insert. apply Hm.
    + intros j [[<- ?]|[Hne Hj]]%lookup_insert_inv; [done|]. pose proof (mi_bound _ _ _ _ Hm Hj).
      apply (mi_in _ _ Hm) in Hj. destruct Hne. apply thread_id_inj; congruence.
    + intros j x _ _ Hid. by destruct (thread_id_nonempty j).
    + done.
Qed.

Lemma mutex_inv_init : mutex_inv new_MyMutex (replicate (S g_num_threads) LOut).
Proof.
  constructor.
  - apply length_replicate.
  - intros i Hi. by apply lookup_replicate in Hi as [? _].
  - intros i l _ _ Hid. by apply (thread_id_nonempty i).
  - done.
Qed.

(** From anywhere in [Lock], with an empty throne, the thread gets in alone. *)
Lemma empty_acquire m ls i l :
  mutex_inv m ls → ls !! i = Some l → throne_ m = EMPTY → l ≠ LIn →
  ∃ m' ls', rtc (lrun1 (H:=my_mutex) (λ j l, (j = i ∧ loc_phase l = Idle) ∨ loc_phase l = Acquiring)) (m, ls) (m', ls') ∧
    ls' !! i = Some LIn.
Proof.
  intros Hm Hi He Hne. assert (i < length ls)%nat as Hlt by by eapply lookup_lt_Some.
  set (P := λ j l, (j = i ∧ loc_phase l = Idle) ∨ loc_phase l = Acquiring).
  assert (∀ l m ls, ls !! i = Some l → throne_ m = EMPTY → l = LOut ∨ (∃ c, l = LTry c) →
    ∃ m' ls', rtc (lrun1 (H:=my_mutex) P) (m, ls) (m', ls') ∧ ls' !! i = Some LIn) as Htake.
  { clear. intros l m ls Hi He Hl. assert (i < length ls)%nat as Hlt by by eapply lookup_lt_Some.
    set (l' := match l with LTry c => LAgain c | _ => LFirst end).
    exists (Mem (thread_id i) (dummy_ m)), (<[i:=LIn]> (<[i:=l']> ls)).
    split; [|apply list_lookup_insert_eq; by rewrite length_insert].
    assert (lock_step (LockImpl:=my_mutex) i 0 m l = Some (Mem (thread_id i) (dummy_ m), l')) as Hs.
    { unfold l'. destruct Hl as [->|[c ->]]; cbn [lock_step my_mutex mutex_step]; unfold TakeTheIronThrone; by rewrite He. }
    eapply rtc_l; [eapply (lrun1_once (H:=my_mutex)); [exact Hi| |exact Hs]|].
    { destruct Hl as [->|[c ->]]; [by left|by right]. }
    apply rtc_once. eapply (lrun1_once (H:=my_mutex) P i 0); [by apply list_lookup_insert_eq| |].
    - right. unfold l'. by destruct Hl as [->|[c ->]].
    - unfold l'. destruct Hl as [->|[c ->]]; cbn [lock_step my_mutex mutex_step throne_]; by rewrite Z.eqb_refl. }
  assert (∀ c m ls, ls !! i = Some (LLoop c) → throne_ m = EMPTY →
    ∃ m' ls', rtc (lrun1 (H:=my_mutex) P) (m, ls) (m', ls') ∧ ls' !! i = Some LIn) as Hloop.
  { clear -Htake. intros c m ls Hi He. assert (i < length ls)%nat as Hlt by by eapply lookup_lt_Some.
    destruct (Htake (LTry (c + 1)) (wait m) (<[i:=LTry (c + 1)]> ls)) as (m' & ls' & Hr & Hin);
      [by apply list_lookup_insert_eq|done|eauto|].
    exists m', ls'. split; [|done]. eapply rtc_l; [|done].
    eapply (lrun1_once (H:=my_mutex) P i 0); [done|by right|done]. }
  assert (∀ l' c, ls !! i = Some l' → l' = LFirst ∨ l' = LAgain c →
    ∃ m' ls', rtc (lrun1 (H:=my_mutex) P) (m, ls) (m', ls') ∧ ls' !! i = Some LIn) as Hcheck.
  { intros l' c Hl' Hc. destruct (Hloop (match l' with LAgain c => c | _ => 0 end) m
      (<[i:=LLoop (match l' with LAgain c => c | _ => 0 end)]> ls)) as (m' & ls' & Hr & Hin);
      [by apply list_lookup_insert_eq|done|].
    exists m', ls'. split; [|done]. eapply rtc_l; [|done].
    eapply (lrun1_once (H:=my_mutex) P i 0); [done|right; by destruct Hc as [->| ->]|].
    pose proof (thread_id_nonempty i) as Hid.
    destruct Hc as [->| ->]; cbn [lock_step my_mutex mutex_step];
      rewrite (proj2 (Z.eqb_neq (throne_ m) (thread_id i))) by congruence; done. }
  destruct l as [| |c|c|c|]; [..|done].
  - apply (Htake LOut); auto.
  - apply (Hcheck LFirst 0); auto.
  - by apply (Hloop c).
  - apply (Htake (LTry c)); eauto.
  - apply (Hcheck (LAgain c) c); auto.
Qed.

#[export] Instance my_mutex_spec : LockSpec my_mutex (S g_num_threads).
Proof.
  refine {| lock_inv := mutex_inv : @lsh my_mutex → list (@lloc my_mutex) → Prop |}.
  - done.
  - exact mutex_inv_init.
  - exact mutex_inv_step.
  - intros i c m l m' l' Hst. cbn in Hst |- *. destruct l; cbn in Hst; injection Hst as <- <-; cbn; by repeat case_match.
  - intros m ls i j li lj Hm Hi Hj Hpi Hpj.
    assert (li = LIn ∧ lj = LIn) as [-> ->] by (cbn in *; destruct li, lj; done).
    apply thread_id_inj; [by eapply mi_bound|by eapply mi_bound|].
    rewrite <- (mi_in _ _ Hm i Hi). by apply (mi_in _ _ Hm).
  - intros m ls i l Hm Hi Hp. assert (l = LIn) as -> by (cbn in Hp; destruct l, Hp; done).
    exists (Mem EMPTY (dummy_ m)), LOut. split; [|done]. apply rtc_once. lock_one my_mutex i.
  - intros m ls i Hm Hlt Hlen Hall. cbn in Hall.
    destruct (decide (throne_ m = EMPTY)) as [He|He].
    + destruct (lookup_lt_is_Some_2 ls i) as [l Hl]; [lia|].
      assert (l ≠ LIn) as Hne by (intros ->; by destruct (Hall _ _ Hl)).
      destruct (empty_acquire m ls i l Hm Hl He Hne) as (m' & ls' & Hr & Hin). by exists m', ls', i, LIn.
    + destruct (mi_owner _ _ Hm He) as (j & l & Hj & Hid).
      exists m, (<[j:=LIn]> ls), j, LIn. split_and!; [|apply list_lookup_insert_eq; by eapply lookup_lt_Some|done].
      apply rtc_once. destruct l as [| |c|c|c|].
      * by destruct (mi_out _ _ Hm _ _ Hj (or_introl eq_refl)).
      * eapply (lrun1_once (H:=my_mutex) _ j 0); [done|by right|].
        cbn [lock_step my_mutex mutex_step]. by rewrite Hid, Z.eqb_refl.
      * destruct (mi_out _ _ Hm _ _ Hj); eauto.
      * destruct (mi_out _ _ Hm _ _ Hj); eauto.
      * eapply (lrun1_once (H:=my_mutex) _ j 0); [done|by right|].
        cbn [lock_step my_mutex mutex_step]. by rewrite Hid, Z.eqb_refl.
      * by destruct (Hall _ _ Hj).
Qed.

End mutex.

(** The lock by itself: every thread takes and releases it at will. *)
Definition lock_init (n : nat) : mem * list loc := (new_MyMutex, replicate (S n) LOut).
Definition lock_run (n : nat) : relation (mem * list loc) := lrun1 (H:=my_mutex n) (λ _ _, True).

(** C37: whatever the updaters and the garbage collector do with the mutex, at most one of
    them holds it, the holder is the one whose identifier is on the throne, and as long as
    nobody holds it any given thread can be run until somebody does. *)
Theorem my_mutex_correct n m ls :
  reachable (lock_init n) (lock_run n) (m, ls) →
  (∀ i, ls !! i = Some LIn → throne_ m = thread_id n i) ∧
  (∀ i j, ls !! i = Some LIn → ls !! j = Some LIn → i = j) ∧
  (LIn ∉ ls → ∃ m' ls', rtc (lock_run n) (m, ls) (m', ls') ∧ LIn ∈ ls').
Proof.
  intros Hr. assert (mutex_inv n m ls) as Hm.
  { eapply (reachable_invariant _ _ (λ s : mem * list loc, mutex_inv n s.1 s.2)) in Hr; [done|apply mutex_inv_init|].
    intros [m1 ls1] [m2 ls2] Hinv (i & c & l & s' & l' & Hi & _ & Hs & [= -> ->]). exact (mutex_inv_step n _ _ _ c _ _ _ Hinv Hi Hs). }
  assert (lock_inv (LockSpec:=my_mutex_spec n) m ls) as Hl.
  { eapply (reachable_invariant _ _ (λ s : mem * list loc, lock_inv (LockSpec:=my_mutex_spec n) s.1 s.2)) in Hr;
      [done|apply (lock_inv_init (LockSpec:=my_mutex_spec n))|].
    intros [m1 ls1] [m2 ls2] Hinv (i & c & l & s' & l' & Hi & _ & Hs & [= -> ->]).
    exact (lock_inv_step (LockSpec:=my_mutex_spec n) _ _ _ _ _ _ _ Hinv Hi Hs). }
  split_and!.
  - apply (mi_in _ _ _ Hm).
  - intros i j Hi Hj. exact (lock_mutex (LockSpec:=my_mutex_spec n) m ls i j LIn LIn Hl Hi Hj eq_refl eq_refl).
  - intros Hn. destruct (lock_acquire (LockSpec:=my_mutex_spec n) m ls 0%nat Hl) as (m' & ls' & j & l & Hrun & Hj & Hph).
    + lia.
    + apply (mi_len _ _ _ Hm).
    + intros j l Hj. cbn. destruct l; auto. destruct Hn. by eapply list_elem_of_lookup_2.
    + exists m', ls'. split.
      * eapply rtc_subrel; [|exact Hrun]. intros a b (i & c & l0 & s' & l' & Hi & _ & Hs). by exists i, c, l0, s', l'.
      * assert (l = LIn) as -> by (cbn in Hph; by destruct l). exact (list_elem_of_lookup_2 ls' j LIn Hj).
Qed.

(** Two updaters and the collector; updater 1 holds the mutex, updater 0 has failed once. *)
Lemma my_mutex_correct_witness :
  throne_ (Mem 1 2016) = thread_id 2 1 ∧ (∀ i j, [LLoop 0; LIn; LOut] !! i = Some LIn → [LLoop 0; LIn; LOut] !! j = Some LIn → i = j).
Proof.
  destruct (my_mutex_correct 2 (Mem 1 2016) [LLoop 0; LIn; LOut]) as (H1 & H2 & _).
  - eapply rtc_l; [by exists 1%nat, 0%nat, LOut, (Mem 1 2016), LFirst|].
    eapply rtc_l; [by exists 0%nat, 0%nat, LOut, (Mem 1 2016), LFirst|].
    eapply rtc_l; [by exists 0%nat, 0%nat, LFirst, (Mem 1 2016), (LLoop 0)|].
    eapply rtc_l; [by exists 1%nat, 0%nat, LFirst, (Mem 1 2016), LIn|]. apply rtc_refl.
  - split; [by apply (H1 1%nat)|done].
Defined.

End MyMutex.
