(* ===== verification/P2Mvcc.v ===== *)
(** src/Project2/src/mvcc.cpp: the multi-version simulation.  Updaters take a version
    number and a read view, read the data of a random thread as of that view, and push a
    new version of their own data; a collector deletes versions nobody can need.

    The lists are sequences (P2Node.v shows that the pointer operations implement them) and
    a node of a data list is identified by its version, which is not given out twice before
    the counter has gone round; to follow a pointer to a node that has been deleted is a failure.  The sections under
    [g_mutex] are single steps (P2Mutex.v).  [reread] says whether the two reads of
    [data_head] in the collector's scan stay two reads when the program is compiled.
    All [int]s wrap around, the counter of the versions too; the theorems about versions are
    about runs in which it has not ([counted]), since a version that is given out after the
    counter has wrapped is smaller than all others.  The [long long] sums of the fairness are
    unbounded integers.  The log files of the verbose mode are left out. *)

From stdpp Require Import sorting.
From S2P Require Import Prelude.

Local Open Scope Z_scope.

Module Mvcc.

Record Data := MkData { version : Z; A : Z; B : Z }.

Record ThreadContext := MkContext { data_list : list Data; num_updates : Z }.

Record ActiveThread := MkActive { at_id : nat; at_version : Z }.

Definition A_PLUS_B : Z := 100.

(** The shared variables. *)
Record mem := Mem {
  g_exec_order : Z;
  g_over : bool;
  g_active : list ActiveThread;
  g_contexts : list ThreadContext;
}.

(** An updater: not created; at the loop test; at the first locked section; with its
    version and read view; with the thread picked and the version to look for, if that
    thread was active; at a node of the list; with the data read; at the second locked
    section; returned; failed. *)
Inductive upc :=
  | UIdle | UTest | ULock
  | UPick (my_version : Z) (rv : list ActiveThread)
  | UHead (my_version : Z) (target : option Z) (i : nat)
  | UWalk (my_version : Z) (target : option Z) (i : nat) (data_node : option Z)
  | UPush (my_version : Z) (i : nat) (data_i : Data)
  | UErase | UExit | UFail.

(** The collector: not created; at the loop test; at the locked section; in the scan of the
    contexts, before the second read; at the list of context [i], at a node of it, deleting
    the nodes after [prev_node]; returned; failed. *)
Inductive gpc :=
  | GIdle | GTest | GLock
  | GScan (k : nat) (ref_min_version : Z) | GReread (k : nat) (ref_min_version : Z)
  | GList (i : nat) (ref_min_version : Z) | GWalk (i : nat) (ref_min_version : Z) (node : option Z)
  | GErase (i : nat) (ref_min_version : Z) (prev_node : Z)
  | GExit | GFail.

(** The list from the node with version [v] on. *)
Fixpoint node_from (l : list Data) (v : Z) : option (list Data) :=
  match l with [] => None | d :: l' => if version d =? v then Some l else node_from l' v end.

(** [NodeErase(prev_node, node)] for the node after [v]. *)
Fixpoint erase_after (l : list Data) (v : Z) : list Data :=
  match l with
  | [] => []
  | d :: l' => if version d =? v then d :: tail l' else d :: erase_after l' v
  end.

(** [NodeErase(head, node)] for the node of thread [id]. *)
Fixpoint erase_active (l : list ActiveThread) (id : nat) : list ActiveThread :=
  match l with [] => [] | a :: l' => if (at_id a =? id)%nat then l' else a :: erase_active l' id end.

Definition head_version (cx : ThreadContext) : option Z := version <$> head (data_list cx).

(** The copy of the active list, made by pushing in front. *)
Definition read_view (l : list ActiveThread) : list ActiveThread := foldl (λ rv a, a :: rv) [] l.
Arguments read_view l : simpl never.

(** The loop that looks for thread [i] in the read view. *)
Fixpoint find_target (rv : list ActiveThread) (i : nat) : option Z :=
  match rv with [] => None | a :: rv => if (at_id a =? i)%nat then Some (at_version a) else find_target rv i end.

Definition set_context (m : mem) (t : nat) (cx : ThreadContext) : mem :=
  Mem (g_exec_order m) (g_over m) (g_active m) (<[t:=cx]> (g_contexts m)).

(** The first locked section of [UpdateAB]. *)
Definition update_begin (t : nat) (m : mem) : option (mem * upc) :=
  cx ← g_contexts m !! t;
  my_recent_version ← head_version cx;
  let my_version := g_exec_order m in
  let active := MkActive t my_recent_version :: g_active m in
  Some (Mem (i32 (my_version + 1)) (g_over m) active (g_contexts m), UPick my_version (read_view active)).

(** One round of a search loop of [UpdateAB] at node [v]. *)
Definition update_walk (m : mem) (my_version : Z) (target : option Z) (i : nat) (v : Z) : option upc :=
  cx ← g_contexts m !! i;
  Some (match node_from (data_list cx) v with
        | Some (d :: rest) =>
            let go := UWalk my_version target i (version <$> head rest) in
            match target with
            | Some target_version =>
                if version d <? target_version then UFail
                else if version d =? target_version then UPush my_version i d else go
            | None => if version d <? my_version then UPush my_version i d else go
            end
        | _ => UFail
        end).

(** The push of the new version. *)
Definition update_push (t : nat) (m : mem) (my_version : Z) (data_i : Data) : option mem :=
  cx ← g_contexts m !! t;
  data_x ← head (data_list cx);
  let d := MkData my_version (i32 (A data_x + Z.rem (A data_i) 100)) (i32 (B data_x - Z.rem (A data_i) 100)) in
  Some (set_context m t (MkContext (d :: data_list cx) (num_updates cx))).

(** The second locked section and the end of the round. *)
Definition update_end (t : nat) (m : mem) : option mem :=
  cx ← g_contexts m !! t;
  Some (Mem (g_exec_order m) (g_over m) (erase_active (g_active m) t)
    (<[t:=MkContext (data_list cx) (i32 (num_updates cx + 1))]> (g_contexts m))).

(** One step of [UpdateAB] in thread [t]; [rand] is the value of [rand()]. *)
Definition UpdateAB (rand t : nat) (m : mem) (p : upc) : option (mem * upc) :=
  match p with
  | UIdle | UExit | UFail => None
  | UTest => Some (m, if g_over m then UExit else ULock)
  | ULock => update_begin t m
  | UPick my_version rv =>
      let i := (rand mod length (g_contexts m))%nat in Some (m, UHead my_version (find_target rv i) i)
  | UHead my_version target i =>
      cx ← g_contexts m !! i; Some (m, UWalk my_version target i (head_version cx))
  | UWalk _ _ _ None => Some (m, UFail)
  | UWalk my_version target i (Some v) => p' ← update_walk m my_version target i v; Some (m, p')
  | UPush my_version _ data_i => m' ← update_push t m my_version data_i; Some (m', UErase)
  | UErase => m' ← update_end t m; Some (m', UTest)
  end.

(** The version of the last node of the active list. *)
Definition last_active (l : list ActiveThread) : Z :=
  match last l with Some a => at_version a | None => INT_MAX end.

Section program.
Context (reread : bool).

(** One step of [GC] and [ScheduleGC]. *)
Definition GC (m : mem) (p : gpc) : option (mem * gpc) :=
  match p with
  | GIdle | GExit | GFail => None
  | GTest => Some (m, if g_over m then GExit else GLock)
  | GLock => Some (m, GScan 0 (last_active (g_active m)))
  | GScan k ref =>
      match g_contexts m !! k with
      | None => Some (m, GList 0 ref)
      | Some cx =>
          v ← head_version cx;
          Some (m, if v <? ref then if reread then GReread k ref else GScan (S k) v else GScan (S k) ref)
      end
  | GReread k _ => cx ← g_contexts m !! k; v ← head_version cx; Some (m, GScan (S k) v)
  | GList i ref =>
      match g_contexts m !! i with
      | None => Some (m, GTest)
      | Some cx => Some (m, GWalk i ref (head_version cx))
      end
  | GWalk i ref None => Some (m, GList (S i) ref)
  | GWalk i ref (Some v) =>
      cx ← g_contexts m !! i;
      Some (m, match node_from (data_list cx) v with
               | Some (d :: rest) =>
                   if version d <? ref
                   then match rest with [] => GList (S i) ref | prev :: _ => GErase i ref (version prev) end
                   else GWalk i ref (version <$> head rest)
               | _ => GFail
               end)
  | GErase i ref prev =>
      cx ← g_contexts m !! i;
      match node_from (data_list cx) prev with
      | Some (_ :: _ :: _) => Some (set_context m i (MkContext (erase_after (data_list cx) prev) (num_updates cx)), GErase i ref prev)
      | Some _ => Some (m, GList (S i) ref)
      | None => Some (m, GFail)
      end
  end.

(** * Main *)

(** [PrintSum] *)
Definition sum_data (cxs : list ThreadContext) : Z :=
  foldl (λ sum cx, match head (data_list cx) with Some d => i32 (i32 (sum + A d) + B d) | None => sum end) 0 cxs.

(** [PrintTotalThroughput] and [PrintFairness], before the divisions; the first adds up in an
    [int]. *)
Definition sum_updates (cxs : list ThreadContext) : Z := Zsum num_updates cxs.
Definition throughput (cxs : list ThreadContext) : Z := i32 (sum_updates cxs).
Definition fairness (cxs : list ThreadContext) : Z * Z :=
  (sum_updates cxs * sum_updates cxs, Z.of_nat (length cxs) * Zsum (λ cx, num_updates cx * num_updates cx) cxs).

Inductive mpc := MCreate (k : nat) | MCreateGC | MSleep | MJoinGC | MJoin (k : nat) | MExit.

Record state := State {
  s_mem : mem;
  s_updaters : list upc;
  s_gc : gpc;
  s_main : mpc;
  s_out : list Z;
}.

Definition main_step (s : state) : option state :=
  let '(State m us gc mp out) := s in
  match mp with
  | MCreate k =>
      match us !! k with
      | Some _ => Some (State m (<[k:=UTest]> us) gc (MCreate (S k)) out)
      | None => Some (State m us gc MCreateGC out)
      end
  | MCreateGC => Some (State m us GTest MSleep out)
  | MSleep => Some (State (Mem (g_exec_order m) true (g_active m) (g_contexts m)) us gc MJoinGC out)
  | MJoinGC => match gc with GExit => Some (State m us gc (MJoin 0) out) | _ => None end
  | MJoin k =>
      match us !! k with
      | Some UExit => Some (State m us gc (MJoin (S k)) out)
      | Some _ => None
      | None =>
          let '(num, den) := fairness (g_contexts m) in
          Some (State m us gc MExit (out ++ [sum_data (g_contexts m); throughput (g_contexts m); num; den]))
      end
  | MExit => None
  end.

Inductive choice := CMain | CGC | CUpdater (t rand : nat).

Definition next (c : choice) (s : state) : option state :=
  match c with
  | CMain => main_step s
  | CGC => '(m, gc) ← GC (s_mem s) (s_gc s); Some (State m (s_updaters s) gc (s_main s) (s_out s))
  | CUpdater t rand =>
      p ← s_updaters s !! t;
      '(m, p') ← UpdateAB rand t (s_mem s) p;
      Some (State m (<[t:=p']> (s_updaters s)) (s_gc s) (s_main s) (s_out s))
  end.

Definition step (s s' : state) : Prop := ∃ c, next c s = Some s'.

(** A step at which the counter of the versions does not wrap around. *)
Definition counted (s s' : state) : Prop := step s s' ∧ g_exec_order (s_mem s) ≤ g_exec_order (s_mem s').

(** The loop that initializes the contexts from the values of [rand()], and the first
    [PrintSum]. *)
Fixpoint init_contexts (i : nat) (rands : list nat) : list ThreadContext :=
  match rands with
  | [] => []
  | r :: rands =>
      let a := Z.of_nat r mod A_PLUS_B in
      MkContext [MkData (Z.of_nat i) a (A_PLUS_B - a)] 0 :: init_contexts (S i) rands
  end.

Definition init (rands : list nat) : state :=
  let cxs := init_contexts 0 rands in
  State (Mem (Z.of_nat (length rands)) false [] cxs) (replicate (length rands) UIdle) GIdle (MCreate 0) [sum_data cxs].

End program.

(** * Lists of versions *)

Definition versions (cx : ThreadContext) : list Z := version <$> data_list cx.

(** Versions decrease along a list. *)
Abbreviation desc := (StronglySorted Z.gt).

Lemma desc_head x l y : desc (x :: l) → y ∈ x :: l → y ≤ x.
Proof. intros [_ Hx]%StronglySorted_inv [->|Hy]%elem_of_cons; [lia|]. rewrite Forall_forall in Hx. specialize (Hx _ Hy). lia. Qed.

Lemma desc_NoDup l : desc l → NoDup l.
Proof.
  induction 1 as [|x l Hl IH Hx]; constructor; [|done]. intros Hin. rewrite Forall_forall in Hx. specialize (Hx _ Hin). lia.
Qed.

Lemma desc_app l1 l2 : desc (l1 ++ l2) → desc l1 ∧ desc l2 ∧ ∀ x y, x ∈ l1 → y ∈ l2 → y < x.
Proof.
  induction l1 as [|a l1 IH]; cbn; intros Hd; [split_and!; [constructor|done|]; by intros x y ?%not_elem_of_nil|].
  apply StronglySorted_inv in Hd as [Hd Ha]. destruct (IH Hd) as (H1 & H2 & H3). rewrite Forall_app in Ha.
  destruct Ha as [Ha1 Ha2]. split_and!; [by constructor|done|]. intros x y [->|Hx]%elem_of_cons Hy; [|by apply H3].
  rewrite Forall_forall in Ha2. specialize (Ha2 _ Hy). lia.
Qed.

Lemma node_from_app l v rest :
  node_from l v = Some rest → ∃ l1, l = l1 ++ rest ∧ ∃ d rest', rest = d :: rest' ∧ version d = v.
Proof.
  induction l as [|d l IH]; cbn; [done|]. destruct (Z.eqb_spec (version d) v) as [He|Hne]; intros Hn.
  - injection Hn as <-. exists []. split; [done|]. by exists d, l.
  - destruct (IH Hn) as (l1 & -> & Hr). by exists (d :: l1).
Qed.

Lemma node_from_some l v : v ∈ version <$> l → is_Some (node_from l v).
Proof.
  induction l as [|d l IH]; cbn; intros Hv; [by apply not_elem_of_nil in Hv|].
  destruct (Z.eqb_spec (version d) v); [eauto|]. apply IH. apply elem_of_cons in Hv as [->|]; done.
Qed.

Lemma erase_after_app l1 p e l2 v :
  version p = v → v ∉ version <$> l1 → erase_after (l1 ++ p :: e :: l2) v = l1 ++ p :: l2.
Proof.
  intros Hp. induction l1 as [|d l1 IH]; cbn; intros Hn.
  - by rewrite (proj2 (Z.eqb_eq _ _) Hp).
  - rewrite not_elem_of_cons in Hn. destruct Hn as [Hd Hn]. rewrite (proj2 (Z.eqb_neq _ _)) by congruence. by rewrite IH.
Qed.

(** The versions of [l] between [x] and [mv]. *)
Definition between (l : list Z) (x mv : Z) : list Z := filter (λ v, x < v < mv) l.
Arguments between l x mv : simpl never.

Lemma between_two l x mv a b :
  desc l → a ∈ l → b ∈ l → a ≠ b → x < a < mv → x < b < mv → (2 ≤ length (between l x mv))%nat.
Proof.
  intros Hd Ha Hb Hne Hxa Hxb. assert (NoDup [a; b]) as Hnd by (repeat constructor; set_solver).
  assert ([a; b] ⊆+ between l x mv) as Hs.
  { apply NoDup_submseteq; [done|]. intros y Hy. apply list_elem_of_filter. set_unfold. naive_solver. }
  apply submseteq_length in Hs. done.
Qed.

(** * The active list *)

Definition active_of (l : list ActiveThread) (t : nat) : list ActiveThread := filter (λ a, at_id a = t) l.

Lemma find_target_filter rv i : find_target rv i = at_version <$> head (active_of rv i).
Proof.
  induction rv as [|a rv IH]; [done|]. cbn [find_target]. unfold active_of. rewrite filter_cons.
  destruct (Nat.eqb_spec (at_id a) i), (decide (at_id a = i)); try done. 
Qed.

Lemma read_view_reverse l : read_view l = reverse l.
Proof.
  unfold read_view. enough (∀ acc, foldl (λ rv a, a :: rv) acc l = reverse l ++ acc) as H by (rewrite H; apply app_nil_r).
  induction l as [|a l IH]; intros acc; [done|]. cbn [foldl]. rewrite IH, reverse_cons, <- app_assoc. done.
Qed.

Lemma active_of_reverse l t : active_of (reverse l) t = reverse (active_of l t).
Proof.
  induction l as [|a l IH]; [done|]. unfold active_of in *. rewrite reverse_cons, filter_app, IH.
  destruct (decide (at_id a = t)) as [He|He].
  - rewrite !(filter_cons_True _ a) by done. by rewrite reverse_cons.
  - rewrite !(filter_cons_False _ a) by done. by rewrite app_nil_r.
Qed.

Lemma find_read_view l i : find_target (read_view l) i = at_version <$> head (reverse (active_of l i)).
Proof. by rewrite read_view_reverse, find_target_filter, active_of_reverse. Qed.

Lemma active_of_erase l t : active_of (erase_active l t) t = tail (active_of l t).
Proof.
  induction l as [|a l IH]; [done|]. cbn [erase_active]. unfold active_of in *.
  destruct (Nat.eqb_spec (at_id a) t) as [He|He]; [by rewrite filter_cons_True|].
  rewrite !(filter_cons_False _ a) by done. done.
Qed.

Lemma active_of_erase_ne l t t' : t ≠ t' → active_of (erase_active l t) t' = active_of l t'.
Proof.
  intros Hne. induction l as [|a l IH]; [done|]. cbn [erase_active]. unfold active_of in *.
  destruct (Nat.eqb_spec (at_id a) t) as [He|He]; [rewrite filter_cons_False by congruence; done|].
  rewrite !filter_cons. by rewrite IH.
Qed.

(** * The invariant *)

(** The version an updater has taken and not pushed yet. *)
Definition pre_version (p : upc) : option Z :=
  match p with
  | UPick mv _ | UHead mv _ _ | UWalk mv _ _ _ | UPush mv _ _ => Some mv
  | UIdle | UTest | ULock | UErase | UExit | UFail => None
  end.

(** Whether an updater is going to push a version below [mv]. *)
Definition pend (p : upc) (mv : Z) : nat :=
  match pre_version p with Some v => if v <? mv then 1 else 0 | None => 0 end.
Arguments pend p mv : simpl never.

(** Version [x] of thread [i] is what a reader with version [mv] is looking for: it is in
    the list, and newer versions below [mv], pushed or to be pushed, are none if the thread
    was not active and at most one if it was. *)
Definition tgt_ok (m : mem) (us : list upc) (mv : Z) (target : option Z) (i : nat) (x : Z) : Prop :=
  ∃ cx p, g_contexts m !! i = Some cx ∧ us !! i = Some p ∧ x ∈ versions cx ∧ x < mv ∧
    (length (between (versions cx) x mv) + pend p mv ≤ match target with Some _ => 1 | None => 0 end)%nat ∧
    ∀ tv, target = Some tv → tv = x.

(** What an updater that reads relies on; [X i] is the version of thread [i] as of its read
    view. *)
Definition reader_ok (m : mem) (us : list upc) (X : nat → Z) (p : upc) : Prop :=
  match p with
  | UPick mv rv => ∀ i, (i < length (g_contexts m))%nat → tgt_ok m us mv (find_target rv i) i (X i)
  | UHead mv target i => tgt_ok m us mv target i (X i)
  | UWalk mv target i q => tgt_ok m us mv target i (X i) ∧
      ∃ v cx, q = Some v ∧ g_contexts m !! i = Some cx ∧ v ∈ versions cx ∧ X i ≤ v
  | UPush mv i d => version d = X i
  | UFail => False
  | UIdle | UTest | ULock | UErase | UExit => True
  end.

(** The thread's own list and its place in the active list. *)
Definition own_ok (m : mem) (t : nat) (p : upc) (cx : ThreadContext) : Prop :=
  match p with
  | UPick mv _ | UHead mv _ _ | UWalk mv _ _ _ | UPush mv _ _ =>
      mv < g_exec_order m ∧ ∃ x rest, versions cx = x :: rest ∧ x < mv ∧ active_of (g_active m) t = [MkActive t x]
  | UErase => ∃ y x rest, versions cx = y :: x :: rest ∧ active_of (g_active m) t = [MkActive t x]
  | UFail => False
  | UIdle | UTest | ULock | UExit => active_of (g_active m) t = []
  end.

Definition list_ok (m : mem) (cx : ThreadContext) : Prop :=
  versions cx ≠ [] ∧ desc (versions cx) ∧ ∀ v, v ∈ versions cx → v < g_exec_order m.

(** No reader has a version below [ref]. *)
Definition bounded (m : mem) (us : list upc) (ref : Z) : Prop :=
  ref ≤ g_exec_order m ∧ ∀ r p mv, us !! r = Some p → pre_version p = Some mv → ref ≤ mv.

Definition gc_ok (m : mem) (us : list upc) (gc : gpc) : Prop :=
  match gc with
  | GScan k ref => ((1 ≤ k)%nat → ref < g_exec_order m) ∧
      ∀ r p mv, us !! r = Some p → (r < k)%nat → pre_version p = Some mv → ref ≤ mv
  | GList _ ref => bounded m us ref
  | GWalk i ref q => bounded m us ref ∧
      ∀ v, q = Some v → ∃ cx, g_contexts m !! i = Some cx ∧ v ∈ versions cx
  | GErase i ref prev => bounded m us ref ∧
      ∃ cx f, g_contexts m !! i = Some cx ∧ prev ∈ versions cx ∧ f ∈ versions cx ∧ prev < f < ref
  | GReread _ _ | GFail => False
  | GIdle | GTest | GLock | GExit => True
  end.

Record inv (m : mem) (us : list upc) (gc : gpc) : Prop := {
  i_len : length us = length (g_contexts m);
  i_some : (1 ≤ length us)%nat;
  i_list i cx : g_contexts m !! i = Some cx → list_ok m cx;
  i_own t p cx : us !! t = Some p → g_contexts m !! t = Some cx → own_ok m t p cx;
  i_reader t p : us !! t = Some p → ∃ X, reader_ok m us X p;
  i_gc : gc_ok m us gc;
}.

Lemma ctx_some m us gc t p : inv m us gc → us !! t = Some p → ∃ cx, g_contexts m !! t = Some cx.
Proof. intros Hi Ht. apply lookup_lt_is_Some_2. rewrite <- (i_len _ _ _ Hi). by eapply lookup_lt_Some. Qed.

Lemma pc_some m us gc t cx : inv m us gc → g_contexts m !! t = Some cx → ∃ p, us !! t = Some p.
Proof. intros Hi Ht. apply lookup_lt_is_Some_2. rewrite (i_len _ _ _ Hi). by eapply lookup_lt_Some. Qed.

Lemma own_pre m t p cx mv :
  own_ok m t p cx → pre_version p = Some mv →
  mv < g_exec_order m ∧ ∃ x rest, versions cx = x :: rest ∧ x < mv ∧ active_of (g_active m) t = [MkActive t x].
Proof. intros Ho Hp. destruct p; try done; injection Hp as <-; exact Ho. Qed.

Lemma own_active m t p cx :
  own_ok m t p cx → active_of (g_active m) t = [] ∨ ∃ a, active_of (g_active m) t = [a].
Proof.
  intros Ho. destruct (pre_version p) as [mv|] eqn:Hp.
  - destruct (own_pre _ _ _ _ _ Ho Hp) as (_ & x & rest & _ & _ & ->). eauto.
  - destruct p; try done; cbn in Ho; auto. destruct Ho as (y & x & rest & _ & ->). eauto.
Qed.

(** A target survives when its version stays in the list and no more newer versions appear. *)
Lemma tgt_keep m us m' us' mv target i x :
  (∀ cx p, g_contexts m !! i = Some cx → us !! i = Some p → ∃ cx' p', g_contexts m' !! i = Some cx' ∧ us' !! i = Some p' ∧
     (x ∈ versions cx → x ∈ versions cx') ∧
     (length (between (versions cx') x mv) + pend p' mv ≤ length (between (versions cx) x mv) + pend p mv)%nat) →
  tgt_ok m us mv target i x → tgt_ok m' us' mv target i x.
Proof.
  intros Hk (cx & p & Hcx & Hp & Hx & Hlt & Hc & Ht). destruct (Hk cx p Hcx Hp) as (cx' & p' & Hcx' & Hp' & Hin & Hle).
  exists cx', p'. split_and!; [done|done|auto|done|lia|done].
Qed.

(** A reader survives when its targets do. *)
Lemma reader_keep m us m' us' X p :
  length (g_contexts m') = length (g_contexts m) →
  (∀ mv target i x, pre_version p = Some mv → tgt_ok m us mv target i x →
     tgt_ok m' us' mv target i x ∧
     ∀ v cx, g_contexts m !! i = Some cx → v ∈ versions cx → x ≤ v →
       ∃ cx', g_contexts m' !! i = Some cx' ∧ v ∈ versions cx') →
  reader_ok m us X p → reader_ok m' us' X p.
Proof.
  intros Hl Hk Hr. destruct p as [| | |mv rv|mv tg i|mv tg i q|mv i d| | |]; cbn in *; try done.
  - intros i Hi. apply (Hk mv); [done|]. apply Hr. lia.
  - by apply (Hk mv).
  - destruct Hr as (Ht & v & cx & -> & Hcx & Hv & Hle). destruct (Hk mv tg i (X i) eq_refl Ht) as [Ht' Hw].
    split; [done|]. destruct (Hw v cx Hcx Hv Hle) as (cx' & Hcx' & Hv'). by exists v, cx'.
Qed.

(** Nothing a reader looks at changes when the data lists stay and no updater gets a
    version below the reader's. *)
Lemma reader_quiet m us m' us' X p :
  length (g_contexts m') = length (g_contexts m) →
  (∀ i cx q, g_contexts m !! i = Some cx → us !! i = Some q →
     ∃ cx' q', g_contexts m' !! i = Some cx' ∧ us' !! i = Some q' ∧ versions cx' = versions cx ∧
       ∀ mv, pre_version p = Some mv → (pend q' mv ≤ pend q mv)%nat) →
  reader_ok m us X p → reader_ok m' us' X p.
Proof.
  intros Hl Hk. apply reader_keep; [done|]. intros mv target i x Hmv Ht. split.
  - eapply tgt_keep; [|done]. intros cx q Hcx Hq. destruct (Hk i cx q Hcx Hq) as (cx' & q' & H1 & H2 & H3 & H4).
    exists cx', q'. rewrite H3. split_and!; [done..|]. specialize (H4 mv Hmv). lia.
  - intros v cx Hcx Hv _. destruct Ht as (cx0 & q & Hcx0 & Hq & _).
    destruct (Hk i cx q Hcx Hq) as (cx' & q' & H1 & _ & H3 & _). exists cx'. by rewrite H3.
Qed.

(** ** Steps that only move an updater *)

Lemma pend_same p p' mv : pre_version p' = pre_version p → pend p' mv = pend p mv.
Proof. intros H. unfold pend. by rewrite H. Qed.

Lemma insert_pend (us : list upc) (t : nat) p p' (i : nat) q :
  us !! t = Some p → us !! i = Some q → pre_version p' = pre_version p →
  ∃ q', <[t:=p']> us !! i = Some q' ∧ ∀ mv, pend q' mv = pend q mv.
Proof.
  intros Ht Hi Hp. destruct (decide (i = t)) as [->|Hne].
  - assert (q = p) as -> by congruence. exists p'. rewrite list_lookup_insert_eq by by eapply lookup_lt_Some.
    split; [done|]. intros mv. by apply pend_same.
  - exists q. by rewrite list_lookup_insert_ne.
Qed.

Lemma reader_move m us t p p' X q :
  us !! t = Some p → pre_version p' = pre_version p → reader_ok m us X q → reader_ok m (<[t:=p']> us) X q.
Proof.
  intros Ht Hp. apply reader_quiet; [done|]. intros i cx q' Hcx Hq'.
  destruct (insert_pend us t p p' i q' Ht Hq' Hp) as (q'' & Hq'' & He). exists cx, q''. split_and!; [done..|].
  intros mv _. by rewrite He.
Qed.

Lemma gc_move m us t p p' gc :
  us !! t = Some p → (∀ mv, pre_version p' = Some mv → pre_version p = Some mv) → gc_ok m us gc → gc_ok m (<[t:=p']> us) gc.
Proof.
  intros Ht Hp. assert (∀ ref, bounded m us ref → bounded m (<[t:=p']> us) ref) as Hb.
  { intros ref [H1 H2]. split; [done|]. intros r q mv [[<- ->]|[_ Hr]]%lookup_insert_inv Hq; [|by eapply H2].
    eapply H2; [done|]. auto. }
  destruct gc as [| | |k ref|k ref|k ref|k ref q|k ref q| |]; cbn; try done; auto.
  - intros [H1 H2]. split; [done|]. intros r q mv [[<- ->]|[_ Hr]]%lookup_insert_inv Hlt Hq; [|by eapply H2].
    eapply (H2 t p); [done|done|]. auto.
  - intros [H1 H2]. auto.
  - intros [H1 H2]. auto.
Qed.

(** The memory stays, the round goes on. *)
Lemma inv_move m us gc t p p' :
  inv m us gc → us !! t = Some p → pre_version p' = pre_version p →
  (∀ cx, own_ok m t p cx → own_ok m t p' cx) →
  (∃ X, reader_ok m us X p') → inv m (<[t:=p']> us) gc.
Proof.
  intros Hi Ht Hp Ho [X HX]. constructor.
  - rewrite length_insert. apply Hi.
  - rewrite length_insert. apply Hi.
  - apply Hi.
  - intros r q cx [[<- ->]|[_ Hr]]%lookup_insert_inv Hcx; [apply Ho; by eapply Hi|by eapply Hi].
  - intros r q [[<- ->]|[_ Hr]]%lookup_insert_inv; [exists X; by eapply reader_move|].
    destruct (i_reader _ _ _ Hi r q Hr) as [Y HY]. exists Y. by eapply reader_move.
  - eapply gc_move; [done| |apply Hi]. intros mv. by rewrite Hp.
Qed.

(** Where a reader stands in the list it searches. *)
Lemma walk_next m us gc X mv target i v p' :
  inv m us gc → reader_ok m us X (UWalk mv target i (Some v)) →
  update_walk m mv target i v = Some p' → reader_ok m us X p' ∧ pre_version p' = Some mv.
Proof.
  intros Hi (Ht & v' & cx & [= <-] & Hcx & Hv & Hle) Hw. pose proof Ht as (cx' & q & Hcx' & Hq & Hx & Hlt & Hc & Htv).
  assert (cx' = cx) as -> by congruence. destruct (i_list _ _ _ Hi i cx Hcx) as (_ & Hd & _).
  unfold update_walk in Hw. rewrite Hcx in Hw. cbn [mbind option_bind] in Hw. injection Hw as <-.
  destruct (node_from_some (data_list cx) v Hv) as [rest Hn]. rewrite Hn.
  destruct (node_from_app _ _ _ Hn) as (l1 & Hl & d & rest' & -> & Hdv). subst v.
  assert (X i < version d → reader_ok m us X (UWalk mv target i (version <$> head rest'))) as Hgo.
  { intros Hgt. split; [done|]. unfold versions in *. rewrite Hl, fmap_app in Hd. apply desc_app in Hd as (_ & Hd & Hcross).
    rewrite Hl, fmap_app in Hx. apply elem_of_app in Hx as [Hx|Hx].
    { specialize (Hcross (X i) (version d) Hx ltac:(by left)). lia. }
    cbn in Hx. apply elem_of_cons in Hx as [Hx|Hx]; [lia|].
    destruct rest' as [|d' rest']; [by apply not_elem_of_nil in Hx|]. cbn in Hd. apply StronglySorted_inv in Hd as [Hd _].
    exists (version d'), cx. split_and!; [done|done| |by apply (desc_head (version d') (version <$> rest'))].
    rewrite Hl, fmap_app. apply elem_of_app. right. right. left. }
  destruct target as [tv|].
  - pose proof (Htv tv eq_refl) as ->. destruct (Z.ltb_spec (version d) (X i)); [lia|].
    destruct (Z.eqb_spec (version d) (X i)); [done|]. split; [apply Hgo; lia|done].
  - destruct (Z.ltb_spec (version d) mv) as [Hm|Hm]; [|split; [apply Hgo; lia|done]]. split; [|done]. cbn.
    destruct (decide (version d = X i)) as [|Hne]; [done|].
    assert (version d ∈ between (versions cx) (X i) mv) as Hin by (apply list_elem_of_filter; split; [lia|done]).
    destruct (between (versions cx) (X i) mv); [by apply not_elem_of_nil in Hin|cbn in Hc; lia].
Qed.

(** ** The first locked section *)

(** The version of thread [i] that a read view shows: for an active thread the one it had
    when it became active, for the others the newest one. *)
Definition committed (m : mem) (i : nat) : Z :=
  default 0 (match find_target (g_active m) i with Some v => Some v | None => cx ← g_contexts m !! i; head_version cx end).

(** A version of the list with nothing newer. *)
Lemma between_head x rest mv : desc (x :: rest) → between (x :: rest) x mv = [].
Proof.
  intros Hd. unfold between. destruct (filter _ _) as [|y l] eqn:Hf; [done|].
  assert (y ∈ y :: l) as Hy by by left. rewrite <- Hf in Hy. apply list_elem_of_filter in Hy as [Hlt Hy].
  pose proof (desc_head x rest y Hd Hy). lia.
Qed.

Lemma between_second y x rest mv : desc (y :: x :: rest) → (length (between (y :: x :: rest) x mv) ≤ 1)%nat.
Proof.
  intros Hd. unfold between. rewrite filter_cons. apply StronglySorted_inv in Hd as [Hd _].
  pose proof (between_head x rest mv Hd) as Hb. unfold between in Hb.
  destruct (decide (x < y < mv)); rewrite Hb; cbn; lia.
Qed.

Lemma pend_le p mv : (pend p mv ≤ 1)%nat.
Proof. unfold pend. repeat case_match; lia. Qed.

Lemma pend_below p mv : (∀ v, pre_version p = Some v → mv ≤ v) → pend p mv = 0%nat.
Proof.
  unfold pend. intros H. destruct (pre_version p) as [v|]; [|done]. specialize (H v eq_refl).
  by rewrite (proj2 (Z.ltb_ge _ _)) by lia.
Qed.

(** What a thread shows in a read view taken now, against a version not given out yet. *)
Lemma committed_ok m us gc i p cx :
  inv m us gc → us !! i = Some p → g_contexts m !! i = Some cx →
  let target := at_version <$> head (active_of (g_active m) i) in
  committed m i ∈ versions cx ∧ committed m i < g_exec_order m ∧
  (length (between (versions cx) (committed m i) (g_exec_order m)) + pend p (g_exec_order m) ≤
    match target with Some _ => 1 | None => 0 end)%nat ∧ ∀ tv, target = Some tv → tv = committed m i.
Proof.
  intros Hi Hp Hcx target. destruct (i_list _ _ _ Hi i cx Hcx) as (Hne & Hd & Hord).
  pose proof (i_own _ _ _ Hi i p cx Hp Hcx) as Ho. unfold committed. rewrite find_target_filter, Hcx. cbn [mbind option_bind].
  unfold target. clear target. destruct (pre_version p) as [mv|] eqn:Hpre.
  { destruct (own_pre _ _ _ _ _ Ho Hpre) as (Hmv & x & rest & Hv & Hx & ->). rewrite Hv in *. cbn.
    split_and!; [by left|apply Hord; by left| |congruence]. rewrite between_head by done. apply pend_le. }
  assert (pend p (g_exec_order m) = 0%nat) as -> by (apply pend_below; congruence).
  assert (active_of (g_active m) i = [] ∨ ∃ y x rest, versions cx = y :: x :: rest ∧ active_of (g_active m) i = [MkActive i x])
    as [->|(y & x & rest & Hv & ->)] by (destruct p; cbn in *; try done; auto).
  - unfold head_version. cbn. unfold versions in *. destruct (data_list cx) as [|d l]; [done|]. cbn in *.
    split_and!; [by left|apply Hord; by left| |congruence]. by rewrite between_head.
  - rewrite Hv in *. cbn. split_and!; [right; by left|apply Hord; right; by left| |congruence].
    rewrite Nat.add_0_r. by apply between_second.
Qed.

Lemma begin_reader m us gc t m' p' :
  inv m us gc → us !! t = Some ULock → update_begin t m = Some (m', p') →
  reader_ok m' (<[t:=p']> us) (committed m) p'.
Proof.
  intros Hi Ht Hb. destruct (ctx_some _ _ _ _ _ Hi Ht) as [cx Hcx]. pose proof (i_own _ _ _ Hi t _ cx Ht Hcx) as Ho.
  unfold update_begin in Hb. rewrite Hcx in Hb. cbn [mbind option_bind] in Hb.
  destruct (head_version cx) as [rec|] eqn:Hhv; [|done]. cbn [mbind option_bind] in Hb. injection Hb as <- <-.
  cbn [reader_ok g_contexts]. intros i Hil. rewrite find_read_view.
  destruct (lookup_lt_is_Some_2 us i) as [p Hp]; [rewrite (i_len _ _ _ Hi); done|].
  destruct (lookup_lt_is_Some_2 (g_contexts m) i Hil) as [cxi Hcxi].
  destruct (committed_ok m us gc i p cxi Hi Hp Hcxi) as (H1 & H2 & H3 & H4).
  destruct (decide (i = t)) as [->|Hne].
  - assert (p = ULock) as -> by congruence. assert (cxi = cx) as -> by congruence. cbn in Ho.
    unfold active_of in *. rewrite filter_cons_True by done. rewrite Ho in *. cbn in *.
    exists cx, (UPick (g_exec_order m) (read_view (MkActive t rec :: g_active m))). cbn.
    rewrite list_lookup_insert_eq by by eapply lookup_lt_Some. split_and!; try done.
    + rewrite (pend_below (UPick _ _)) by (cbn; intros v [= <-]; lia). lia.
    + intros tv [= <-]. unfold committed. rewrite find_target_filter. unfold active_of. rewrite Ho, Hcx. cbn. by rewrite Hhv.
  - unfold active_of in *. rewrite filter_cons_False by (cbn; congruence).
    exists cxi, p. cbn. rewrite list_lookup_insert_ne by done.
    destruct (own_active m i p cxi (i_own _ _ _ Hi i p cxi Hp Hcxi)) as [Ha|[a Ha]]; unfold active_of in Ha;
      rewrite Ha in *; done.
Qed.

(** The collector does not mind versions being added and new readers starting. *)
Lemma gc_grow m us m' us' gc :
  g_exec_order m ≤ g_exec_order m' →
  (∀ i cx, g_contexts m !! i = Some cx → ∃ cx', g_contexts m' !! i = Some cx' ∧ versions cx ⊆ versions cx') →
  (∀ r p' mv, us' !! r = Some p' → pre_version p' = Some mv →
     (∃ p, us !! r = Some p ∧ pre_version p = Some mv) ∨ mv = g_exec_order m) →
  gc_ok m us gc → gc_ok m' us' gc.
Proof.
  intros Hord Hcx Hpre.
  assert (∀ ref, bounded m us ref → bounded m' us' ref) as Hb.
  { intros ref [H1 H2]. split; [lia|]. intros r p' mv Hr Hp.
    destruct (Hpre r p' mv Hr Hp) as [(p & Hp1 & Hp2)| ->]; [by eapply H2|done]. }
  destruct gc as [| | |k ref|k ref|k ref|k ref q|k ref q| |]; cbn; try done; auto.
  - intros [H1 H2]. split; [intros Hk; specialize (H1 Hk); lia|]. intros r p' mv Hr Hlt Hp.
    destruct (Hpre r p' mv Hr Hp) as [(p & Hp1 & Hp2)| ->]; [by eapply H2|]. specialize (H1 ltac:(lia)). lia.
  - intros [H1 H2]. split; [auto|]. intros v Hv. destruct (H2 v Hv) as (cx & Hc & Hin).
    destruct (Hcx k cx Hc) as (cx' & Hc' & Hsub). exists cx'. split; [done|]. by apply Hsub.
  - intros [H1 (cx & f & Hc & Hp & Hf & Hlt)]. split; [auto|]. destruct (Hcx k cx Hc) as (cx' & Hc' & Hsub).
    exists cx', f. split_and!; [done|by apply Hsub|by apply Hsub|lia|lia].
Qed.

(** Versions taken are below the counter. *)
Lemma pre_below m us gc r p mv : inv m us gc → us !! r = Some p → pre_version p = Some mv → mv < g_exec_order m.
Proof.
  intros Hi Hr Hp. destruct (ctx_some _ _ _ _ _ Hi Hr) as [cx Hcx].
  by destruct (own_pre _ _ _ _ _ (i_own _ _ _ Hi _ _ _ Hr Hcx) Hp).
Qed.

Lemma begin_others m us gc t m' p' r q X :
  inv m us gc → us !! t = Some ULock → update_begin t m = Some (m', p') → us !! r = Some q →
  reader_ok m us X q → reader_ok m' (<[t:=p']> us) X q.
Proof.
  intros Hi Ht Hb Hr. unfold update_begin in Hb. destruct (g_contexts m !! t) as [cx|]; [|done]. cbn [mbind option_bind] in Hb.
  destruct (head_version cx) as [rec|]; [|done]. cbn [mbind option_bind] in Hb. injection Hb as <- <-.
  apply reader_quiet; [done|]. intros i cxi qi Hcxi Hqi. cbn [g_contexts]. destruct (decide (i = t)) as [->|Hne].
  - eexists cxi, _. rewrite list_lookup_insert_eq by by eapply lookup_lt_Some. split_and!; [done..|].
    intros mv Hmv. pose proof (pre_below _ _ _ _ _ _ Hi Hr Hmv). rewrite (pend_below (UPick _ _)); [lia|].
    cbn. intros v [= <-]. lia.
  - exists cxi, qi. by rewrite list_lookup_insert_ne.
Qed.

Lemma i32_succ z : 0 ≤ z ≤ i32 (z + 1) → i32 (z + 1) = z + 1.
Proof.
  intros [H0 H1]. assert (z + 1 < 2 ^ 31 ∨ 2 ^ 31 ≤ z + 1) as [Hlt|Hge] by lia; [apply i32_id; lia|exfalso].
  unfold i32 in H1. assert ((z + 1 + 2 ^ 31) mod 2 ^ 32 < 2 ^ 32) by (apply Z.mod_pos_bound; lia).
  assert (z = 2 ^ 31 - 1) as -> by lia. done.
Qed.

Lemma begin_inv m us gc t m' p' :
  inv m us gc → us !! t = Some ULock → update_begin t m = Some (m', p') →
  0 ≤ g_exec_order m ≤ g_exec_order m' → inv m' (<[t:=p']> us) gc.
Proof.
  intros Hi Ht Hb Hord. pose proof (begin_reader _ _ _ _ _ _ Hi Ht Hb) as Hnew.
  pose proof (begin_others m us gc t m' p') as Hothers.
  assert (∃ cx rec, g_contexts m !! t = Some cx ∧ head_version cx = Some rec ∧
    m' = Mem (g_exec_order m + 1) (g_over m) (MkActive t rec :: g_active m) (g_contexts m) ∧
    ∃ rv, p' = UPick (g_exec_order m) rv) as (cx & rec & Hcx & Hrec & Hm' & rv & Hp').
  { unfold update_begin in Hb. destruct (g_contexts m !! t) as [cx|]; [|done]. cbn [mbind option_bind] in Hb.
    destruct (head_version cx) as [rec|] eqn:Hrec; [|done]. cbn [mbind option_bind] in Hb. injection Hb as <- <-.
    cbn in Hord. rewrite i32_succ by done. eauto 10. }
  constructor.
  - rewrite length_insert, Hm'. apply Hi.
  - rewrite length_insert. apply Hi.
  - intros i cxi Hcxi. rewrite Hm' in *. destruct (i_list _ _ _ Hi i cxi Hcxi) as (H1 & H2 & H3).
    split_and!; [done|done|]. intros v Hv. specialize (H3 v Hv). cbn. lia.
  - intros r q cxr [[<- ->]|[Hne Hr]]%lookup_insert_inv Hcxr; rewrite Hm' in *; cbn in Hcxr.
    + rewrite Hcx in Hcxr. injection Hcxr as <-. rewrite Hp'. cbn [own_ok g_exec_order g_active]. split; [lia|].
      unfold head_version in Hrec. unfold versions. destruct (data_list cx) as [|d l] eqn:Hl; [done|]. injection Hrec as <-.
      exists (version d), (version <$> l). split; [done|]. split.
      * apply (i_list _ _ _ Hi t cx Hcx). unfold versions. rewrite Hl. by left.
      * pose proof (i_own _ _ _ Hi t _ _ Ht Hcx) as Ho. cbn in Ho. unfold active_of in *.
        rewrite filter_cons_True by done. by rewrite Ho.
    + pose proof (i_own _ _ _ Hi r q cxr Hr Hcxr) as Ho. unfold own_ok, active_of in *. cbn [g_active g_exec_order].
      rewrite filter_cons_False by (cbn; congruence). destruct q; try done; destruct Ho as [? Ho]; (split; [lia|done]).
  - intros r q [[<- ->]|[Hne Hr]]%lookup_insert_inv; [by eexists|].
    destruct (i_reader _ _ _ Hi r q Hr) as [X HX]. exists X. by eapply Hothers.
  - eapply gc_grow; [..|apply Hi].
    + rewrite Hm'. cbn. lia.
    + rewrite Hm'. cbn. intros i cxi Hcxi. by exists cxi.
    + intros r q mv [[<- ->]|[Hne Hr]]%lookup_insert_inv Hq; [|left; eauto]. right. rewrite Hp' in Hq. by injection Hq.
Qed.

(** ** The push of a version *)

Lemma push_split t m mv d m' :
  update_push t m mv d = Some m' → ∃ cx cx', g_contexts m !! t = Some cx ∧ m' = set_context m t cx' ∧
    versions cx' = mv :: versions cx.
Proof.
  unfold update_push. intros H. destruct (g_contexts m !! t) as [cx|] eqn:Hcx; [|done]. cbn [mbind option_bind] in H.
  destruct (head (data_list cx)) as [dx|]; [|done]. cbn [mbind option_bind] in H. injection H as <-.
  by exists cx, (MkContext (MkData mv (i32 (A dx + Z.rem (A d) 100)) (i32 (B dx - Z.rem (A d) 100)) :: data_list cx) (num_updates cx)).
Qed.

Lemma push_others m us gc t mv i d m' r q X :
  inv m us gc → us !! t = Some (UPush mv i d) → update_push t m mv d = Some m' → us !! r = Some q → r ≠ t →
  reader_ok m us X q → reader_ok m' (<[t:=UErase]> us) X q.
Proof.
  intros Hi Ht Hp Hr Hne. destruct (push_split _ _ _ _ _ Hp) as (cx & cx' & Hcx & -> & Hv).
  assert (t < length (g_contexts m))%nat as Hl by by eapply lookup_lt_Some.
  apply reader_keep; [cbn; by rewrite length_insert|]. intros mvr target j x Hmvr Htg. split.
  - eapply tgt_keep; [|done]. intros cxj qj Hcxj Hqj. cbn [set_context g_contexts]. destruct (decide (j = t)) as [->|Hj].
    + assert (cxj = cx) as -> by congruence. assert (qj = UPush mv i d) as -> by congruence.
      exists cx', UErase. rewrite list_lookup_insert_eq, list_lookup_insert_eq by (done || by eapply lookup_lt_Some).
      split_and!; [done|done|rewrite Hv; by right|]. rewrite Hv. unfold between. rewrite filter_cons.
      unfold pend. cbn [pre_version]. destruct (decide (x < mv < mvr)) as [Hd|Hd]; [|destruct (mv <? mvr); lia].
      rewrite (proj2 (Z.ltb_lt _ _)) by lia. cbn. lia.
    + exists cxj, qj. by rewrite !list_lookup_insert_ne.
  - intros v cxj Hcxj Hvin _. cbn [set_context g_contexts]. destruct (decide (j = t)) as [->|Hj].
    + assert (cxj = cx) as -> by congruence. exists cx'. rewrite list_lookup_insert_eq, Hv by done. split; [done|by right].
    + exists cxj. by rewrite list_lookup_insert_ne.
Qed.

Lemma push_inv m us gc t mv i d m' :
  inv m us gc → us !! t = Some (UPush mv i d) → update_push t m mv d = Some m' → inv m' (<[t:=UErase]> us) gc.
Proof.
  intros Hi Ht Hp. pose proof (push_others m us gc t mv i d m') as Hothers.
  pose proof (push_split _ _ _ _ _ Hp) as (cx & cx' & Hcx & Hm' & Hv).
  destruct (i_own _ _ _ Hi t _ cx Ht Hcx) as (Hmv & x & rest & Hvx & Hlt & Hact).
  destruct (i_list _ _ _ Hi t cx Hcx) as (_ & Hd & Hord). assert (t < length (g_contexts m))%nat as Hl by by eapply lookup_lt_Some.
  constructor.
  - rewrite length_insert, Hm'. cbn. rewrite length_insert. apply Hi.
  - rewrite length_insert. apply Hi.
  - rewrite Hm'. cbn [set_context g_contexts]. intros j cxj [[<- ->]|[_ Hj]]%lookup_insert_inv; [|by apply (i_list _ _ _ Hi j)].
    split_and!; rewrite Hv; [done| |].
    + constructor; [done|]. rewrite Forall_forall. intros y Hy. rewrite Hvx in Hy, Hd. pose proof (desc_head _ _ _ Hd Hy). lia.
    + cbn. intros v [->|Hvin]%elem_of_cons; [done|by apply Hord].
  - rewrite Hm'. cbn [set_context g_contexts].
    intros r q cxr [[<- ->]|[Hne Hr]]%lookup_insert_inv [[Hrt ->]|[Hrt Hcxr]]%lookup_insert_inv; try done.
    + cbn. rewrite Hv, Hvx. eauto 6.
    + by apply (i_own _ _ _ Hi r q cxr).
  - intros r q [[<- ->]|[Hne Hr]]%lookup_insert_inv; [by exists (λ _, 0)|].
    destruct (i_reader _ _ _ Hi r q Hr) as [X HX]. exists X. eapply Hothers; eauto.
  - eapply gc_grow; [..|apply Hi]; rewrite ?Hm'; cbn [set_context g_contexts g_exec_order].
    + lia.
    + intros j cxj Hcxj. destruct (decide (j = t)) as [->|Hj].
      * exists cx'. rewrite list_lookup_insert_eq by done. assert (cxj = cx) as -> by congruence. rewrite Hv. split; [done|set_solver].
      * exists cxj. by rewrite list_lookup_insert_ne.
    + intros r q v [[<- ->]|[Hne Hr]]%lookup_insert_inv Hq; [done|left; eauto].
Qed.

(** ** The second locked section *)

Lemma end_split t m m' :
  update_end t m = Some m' → ∃ cx cx', g_contexts m !! t = Some cx ∧ versions cx' = versions cx ∧
    m' = Mem (g_exec_order m) (g_over m) (erase_active (g_active m) t) (<[t:=cx']> (g_contexts m)).
Proof.
  unfold update_end. intros H. destruct (g_contexts m !! t) as [cx|] eqn:Hcx; [|done]. cbn [mbind option_bind] in H.
  injection H as <-. by exists cx, (MkContext (data_list cx) (i32 (num_updates cx + 1))).
Qed.

Lemma end_others m us t m' q X :
  us !! t = Some UErase → update_end t m = Some m' →
  reader_ok m us X q → reader_ok m' (<[t:=UTest]> us) X q.
Proof.
  intros Ht He. destruct (end_split _ _ _ He) as (cx & cx' & Hcx & Hv & ->).
  apply reader_quiet; [cbn; by rewrite length_insert|]. intros j cxj qj Hcxj Hqj. cbn [g_contexts].
  destruct (insert_pend us t UErase UTest j qj Ht Hqj eq_refl) as (q' & Hq' & Hpend).
  destruct (decide (j = t)) as [->|Hne].
  - exists cx', q'. rewrite list_lookup_insert_eq by by eapply lookup_lt_Some. assert (cxj = cx) as -> by congruence.
    split_and!; [done..|]. intros mv _. by rewrite Hpend.
  - exists cxj, q'. rewrite (list_lookup_insert_ne (g_contexts m)) by done. split_and!; [done..|]. intros mv _. by rewrite Hpend.
Qed.

Lemma end_inv m us gc t m' :
  inv m us gc → us !! t = Some UErase → update_end t m = Some m' → inv m' (<[t:=UTest]> us) gc.
Proof.
  intros Hi Ht He. pose proof (end_others m us t m') as Hothers.
  pose proof (end_split _ _ _ He) as (cx & cx' & Hcx & Hv & Hm').
  destruct (i_own _ _ _ Hi t _ cx Ht Hcx) as (y & x & rest & Hvx & Hact).
  assert (t < length (g_contexts m))%nat as Hl by by eapply lookup_lt_Some.
  constructor.
  - rewrite length_insert, Hm'. cbn. rewrite length_insert. apply Hi.
  - rewrite length_insert. apply Hi.
  - rewrite Hm'. cbn [g_contexts]. intros j cxj [[<- ->]|[_ Hj]]%lookup_insert_inv; [|by apply (i_list _ _ _ Hi j)].
    unfold list_ok. rewrite Hv. by apply (i_list _ _ _ Hi t cx).
  - rewrite Hm'. cbn [g_contexts].
    intros r q cxr [[<- ->]|[Hne Hr]]%lookup_insert_inv [[Hrt ->]|[Hrt Hcxr]]%lookup_insert_inv; try done.
    + cbn [own_ok g_active]. by rewrite active_of_erase, Hact.
    + pose proof (i_own _ _ _ Hi r q cxr Hr Hcxr) as Ho. unfold own_ok in *. cbn [g_active g_exec_order].
      rewrite active_of_erase_ne by done. done.
  - intros r q [[<- ->]|[Hne Hr]]%lookup_insert_inv; [by exists (λ _, 0)|].
    destruct (i_reader _ _ _ Hi r q Hr) as [X HX]. exists X. eapply Hothers; eauto.
  - eapply gc_grow; [..|apply Hi]; rewrite ?Hm'; cbn [g_contexts g_exec_order].
    + lia.
    + intros j cxj Hcxj. destruct (decide (j = t)) as [->|Hj].
      * exists cx'. rewrite list_lookup_insert_eq by done. assert (cxj = cx) as -> by congruence. by rewrite Hv.
      * exists cxj. by rewrite list_lookup_insert_ne.
    + intros r q v [[<- ->]|[Hne Hr]]%lookup_insert_inv Hq; [done|left; eauto].
Qed.

(** ** The collector *)

(** Deleting the version after [prev] when a version between [prev] and [ref] is in the list:
    nothing that a reader with a version from [ref] on stands on or looks for goes. *)
Lemma erase_split cx prev rest e l2 :
  desc (versions cx) → node_from (data_list cx) prev = Some (rest :: e :: l2) →
  ∃ l1, data_list cx = l1 ++ rest :: e :: l2 ∧ erase_after (data_list cx) prev = l1 ++ rest :: l2 ∧ version rest = prev.
Proof.
  intros Hd Hn. destruct (node_from_app _ _ _ Hn) as (l1 & Hl & d & rest' & [= <- <-] & Hv).
  exists l1. split_and!; [done| |done]. rewrite Hl. apply erase_after_app; [done|].
  unfold versions in Hd. rewrite Hl, fmap_app in Hd. apply desc_app in Hd as (_ & _ & Hc).
  intros Hin. specialize (Hc prev prev Hin ltac:(subst; by left)). lia.
Qed.

(** The versions after a deletion: those before, without [e], which has two above it. *)
Lemma erase_versions cx prev rest e l2 cx' f :
  desc (versions cx) → node_from (data_list cx) prev = Some (rest :: e :: l2) →
  data_list cx' = erase_after (data_list cx) prev → f ∈ versions cx → prev < f →
  desc (versions cx') ∧ version e < prev ∧ (∀ v, v ∈ versions cx' ↔ v ∈ versions cx ∧ v ≠ version e) ∧
  ∃ a b l l', versions cx = a :: b :: l ∧ versions cx' = a :: b :: l'.
Proof.
  intros Hd Hn Hcx' Hf Hlt. destruct (erase_split _ _ _ _ _ Hd Hn) as (l1 & Hl & He & Hv).
  unfold versions in *. rewrite Hcx', He. rewrite Hl in Hd, Hf |- *. rewrite !fmap_app in *. cbn in *. rewrite Hv in *.
  pose proof (desc_NoDup _ Hd) as Hnd. apply desc_app in Hd as (Hd1 & Hd2 & Hc).
  apply StronglySorted_inv in Hd2 as [Hd2 Hfor]. apply StronglySorted_inv in Hd2 as [Hd2 Hfor2].
  apply Forall_cons in Hfor as [Hep Hfor]. apply NoDup_app in Hnd as (_ & Hdisj & Hnd).
  apply NoDup_cons in Hnd as [Hn1 Hnd]. apply NoDup_cons in Hnd as [Hn2 Hnd].
  assert (f ∈ version <$> l1) as Hf1.
  { apply elem_of_app in Hf as [|Hf]; [done|]. exfalso. set_unfold in Hf.
    assert (f ≤ prev); [|lia]. apply (desc_head prev (version e :: (version <$> l2))); [|set_solver].
    constructor; [constructor; done|]. by apply Forall_cons. }
  split_and!.
  - clear -Hd1 Hd2 Hfor Hc. induction l1 as [|d l1 IH]; cbn in *; [by constructor|].
    apply StronglySorted_inv in Hd1 as [Hd1 Hd]. constructor; [apply IH; [done|]; intros; apply Hc; set_solver|].
    rewrite Forall_app in *. split; [done|]. rewrite Forall_forall. intros y Hy.
    assert (y < version d); [|lia]. apply Hc; set_solver.
  - lia.
  - intros v. rewrite !elem_of_app, !elem_of_cons. split.
    + intros [H|[->|H]]; (split; [tauto|]); intros ->; [by apply (Hdisj (version e) H); set_solver|lia|done].
    + intros [[H|[->|[->|H]]] Hne]; tauto.
  - destruct l1 as [|a l1]; [by apply not_elem_of_nil in Hf1|]. cbn. destruct l1 as [|b l1]; cbn; eauto 10.
Qed.

(** Readers do not notice a deletion. *)
Lemma erase_reader m us gc i ref prev cx cx' rest e l2 f q r X :
  inv m us gc → bounded m us ref → g_contexts m !! i = Some cx →
  f ∈ versions cx → prev ∈ versions cx → prev < f < ref →
  node_from (data_list cx) prev = Some (rest :: e :: l2) → data_list cx' = erase_after (data_list cx) prev →
  us !! r = Some q → reader_ok m us X q → reader_ok (set_context m i cx') us X q.
Proof.
  intros Hi [_ Hb] Hcx Hf Hp Hlt Hn Hcx' Hr. destruct (i_list _ _ _ Hi i cx Hcx) as (_ & Hd & _).
  destruct (erase_versions cx prev rest e l2 cx' f Hd Hn Hcx' Hf ltac:(lia)) as (_ & He & Hmem & _).
  assert (i < length (g_contexts m))%nat as Hl by by eapply lookup_lt_Some.
  apply reader_keep; [cbn; by rewrite length_insert|]. intros mv target j x Hmv Ht. cbn [set_context g_contexts].
  destruct (decide (j = i)) as [->|Hne].
  2:{ split; [|intros v cxj Hcxj Hv _; exists cxj; by rewrite list_lookup_insert_ne].
      eapply tgt_keep; [|done]. intros cxj qj Hcxj Hqj. exists cxj, qj. cbn. by rewrite list_lookup_insert_ne. }
  specialize (Hb r q mv Hr Hmv).
  assert (∀ v, v ∈ versions cx → x ≤ v → v ∈ versions cx') as Hkeep.
  { intros v Hv Hxv. apply Hmem. split; [done|]. intros ->.
    destruct Ht as (cx0 & q0 & Hcx0 & _ & _ & _ & Hcount & _). assert (cx0 = cx) as -> by congruence.
    pose proof (between_two (versions cx) x mv f prev Hd Hf Hp ltac:(lia) ltac:(lia) ltac:(lia)).
    destruct target; lia. }
  split.
  - eapply tgt_keep; [|done]. intros cx0 q0 Hcx0 Hq0. assert (cx0 = cx) as -> by congruence.
    exists cx', q0. cbn. rewrite list_lookup_insert_eq by done. split_and!; [done|done|intros; apply Hkeep; [done|lia]|].
    apply Nat.add_le_mono_r. apply submseteq_length, NoDup_submseteq.
    + apply NoDup_filter, desc_NoDup.
      by destruct (erase_versions cx prev rest e l2 cx' f Hd Hn Hcx' Hf ltac:(lia)) as (? & _).
    + intros v [Hv1 Hv2]%list_elem_of_filter. apply list_elem_of_filter. split; [done|]. by apply Hmem.
  - intros v cx0 Hcx0 Hv Hxv. assert (cx0 = cx) as -> by congruence. exists cx'. rewrite list_lookup_insert_eq by done. auto.
Qed.

Lemma erase_inv m us i ref prev cx cx' rest e l2 :
  inv m us (GErase i ref prev) → g_contexts m !! i = Some cx →
  node_from (data_list cx) prev = Some (rest :: e :: l2) → data_list cx' = erase_after (data_list cx) prev →
  inv (set_context m i cx') us (GErase i ref prev).
Proof.
  intros Hi Hcx Hn Hcx'. pose proof (i_gc _ _ _ Hi) as (Hb & cx0 & f & Hcx0 & Hp & Hf & Hlt).
  assert (cx0 = cx) as -> by congruence. destruct (i_list _ _ _ Hi i cx Hcx) as (Hne & Hd & Hord).
  destruct (erase_versions cx prev rest e l2 cx' f Hd Hn Hcx' Hf ltac:(lia)) as (Hd' & He & Hmem & a & b & l & l' & Hv & Hv').
  assert (i < length (g_contexts m))%nat as Hl by by eapply lookup_lt_Some.
  constructor; cbn [set_context g_contexts].
  - rewrite length_insert. apply Hi.
  - apply Hi.
  - intros j cxj [[<- ->]|[_ Hj]]%lookup_insert_inv; [|by apply (i_list _ _ _ Hi j)].
    split_and!; [by rewrite Hv'|done|]. intros v [Hvin _]%Hmem. by apply Hord.
  - intros t p cxt Ht [[<- ->]|[_ Hj]]%lookup_insert_inv; [|by apply (i_own _ _ _ Hi)].
    pose proof (i_own _ _ _ Hi i p cx Ht Hcx) as Ho. unfold own_ok in *. cbn [g_active g_exec_order].
    rewrite Hv in Ho. rewrite Hv'.
    destruct p; try done;
      try (destruct Ho as (H1 & x & rs & H2 & H3 & H4); split; [done|]; injection H2 as <- <-; by exists a, (b :: l')).
    destruct Ho as (y & x & rs & H2 & H3). injection H2 as <- <- <-. by exists a, b, l'.
  - intros r q Hr. destruct (i_reader _ _ _ Hi r q Hr) as [X HX]. exists X.
    exact (erase_reader m us _ i ref prev cx cx' rest e l2 f q r X Hi Hb Hcx Hf Hp Hlt Hn Hcx' Hr HX).
  - split; [done|]. exists cx', f. cbn [set_context g_contexts]. rewrite list_lookup_insert_eq by done.
    split_and!; [done|apply Hmem; split; [done|lia]|apply Hmem; split; [done|lia]|lia|lia].
Qed.

(** The collector, when the second read of [data_head] gives what the first gave. *)
Lemma gc_inv m us gc m' gc' :
  inv m us gc → GC false m gc = Some (m', gc') →
  inv m' us gc' ∧ ∀ r q X, us !! r = Some q → reader_ok m us X q → reader_ok m' us X q.
Proof.
  intros Hi Hg. pose proof (i_gc _ _ _ Hi) as Hok.
  assert (∀ gc', gc_ok m us gc' → inv m us gc' ∧ ∀ r q X, us !! r = Some q → reader_ok m us X q → reader_ok m us X q) as Hq.
  { intros gc2 Hgc2. destruct Hi. by split. }
  destruct gc as [| | |k ref|k ref|k ref|k ref q|k ref q| |]; cbn in Hg; try done.
  - injection Hg as <- <-. apply Hq. by destruct (g_over m).
  - injection Hg as <- <-. apply Hq. cbn. split; [lia|]. intros; lia.
  - destruct (g_contexts m !! k) as [cx|] eqn:Hcx.
    + destruct (i_list _ _ _ Hi k cx Hcx) as (Hne & Hd & Hord). unfold versions in *. unfold head_version in Hg.
      destruct (data_list cx) as [|d l] eqn:Hl; [done|]. cbn in Hg. injection Hg as <- <-. apply Hq.
      assert (version d < g_exec_order m) as Hdo by (apply Hord; by left). destruct Hok as [H1 H2].
      assert (∀ mv p, us !! k = Some p → pre_version p = Some mv → version d < mv) as Hk.
      { intros mv p Hp Hpre. destruct (own_pre _ _ _ _ _ (i_own _ _ _ Hi k p cx Hp Hcx) Hpre) as (_ & x & rs & Hx & Hlt & _).
        unfold versions in Hx. rewrite Hl in Hx. injection Hx as <- _. done. }
      destruct (Z.ltb_spec (version d) ref); cbn; (split; [lia|]); intros r p mv Hr Hlt Hpre;
        (destruct (decide (r = k)) as [->|Hrk]; [specialize (Hk mv p Hr Hpre); lia|]);
        specialize (H2 r p mv Hr ltac:(lia) Hpre); lia.
    + injection Hg as <- <-. apply Hq. apply lookup_ge_None in Hcx. destruct Hok as [H1 H2]. cbn.
      pose proof (i_some _ _ _ Hi). pose proof (i_len _ _ _ Hi). split; [specialize (H1 ltac:(lia)); lia|].
      intros r p mv Hr Hpre. apply (H2 r p mv); [done| |done]. apply lookup_lt_Some in Hr. lia.
  - destruct (g_contexts m !! k) as [cx|] eqn:Hcx; injection Hg as <- <-; apply Hq; [|done]. cbn. split; [done|].
    intros v Hv. exists cx. split; [done|]. unfold head_version in Hv. unfold versions.
    destruct (data_list cx); [done|]. injection Hv as <-. by left.
  - destruct Hok as [Hb Hok]. destruct q as [v|]; [|injection Hg as <- <-; by apply Hq].
    destruct (Hok v eq_refl) as (cx & Hcx & Hv). rewrite Hcx in Hg. cbn [mbind option_bind] in Hg. injection Hg as <- <-. apply Hq.
    destruct (node_from_some _ _ Hv) as [rest Hn]. rewrite Hn. destruct (node_from_app _ _ _ Hn) as (l1 & Hl & d & rest' & -> & Hdv).
    assert (∀ d', d' ∈ d :: rest' → version d' ∈ versions cx) as Hin.
    { intros d' Hd'. unfold versions. rewrite Hl, fmap_app. apply elem_of_app. right. by apply list_elem_of_fmap_2. }
    destruct (Z.ltb_spec (version d) ref) as [Hlt|Hge].
    + destruct rest' as [|p rest']; cbn; [done|]. split; [done|]. exists cx, (version d).
      split_and!; [done|apply Hin; right; by left|apply Hin; by left| |done].
      destruct (i_list _ _ _ Hi k cx Hcx) as (_ & Hd & _). unfold versions in Hd. rewrite Hl, fmap_app in Hd.
      apply desc_app in Hd as (_ & Hd & _). cbn in Hd. apply StronglySorted_inv in Hd as [_ Hd]. apply Forall_cons in Hd as [Hd _]. lia.
    + cbn. split; [done|]. intros v' Hv'. exists cx. split; [done|]. destruct rest' as [|p rest']; [done|].
      injection Hv' as <-. apply Hin. right. by left.
  - pose proof Hok as (Hb & cx & f & Hcx & Hp & Hf & Hlt). rewrite Hcx in Hg. cbn [mbind option_bind] in Hg.
    destruct (node_from_some _ _ Hp) as [rest Hn]. rewrite Hn in Hg.
    destruct rest as [|d [|e l2]]; injection Hg as <- <-; [by apply Hq|by apply Hq|]. split.
    + by eapply erase_inv.
    + intros r p X Hr. eapply (erase_reader m us _ k ref q cx _ d e l2 f p r X Hi Hb Hcx Hf Hp Hlt Hn); done.
Qed.

(** ** All steps *)

Lemma updater_inv m us gc rand t p m' p' :
  inv m us gc → us !! t = Some p → UpdateAB rand t m p = Some (m', p') →
  0 ≤ g_exec_order m ≤ g_exec_order m' →
  inv m' (<[t:=p']> us) gc ∧
  (∀ r q X, r ≠ t → us !! r = Some q → reader_ok m us X q → reader_ok m' (<[t:=p']> us) X q) ∧
  (∀ X mv, pre_version p = Some mv → pre_version p' = Some mv → reader_ok m us X p → reader_ok m' (<[t:=p']> us) X p').
Proof.
  intros Hi Ht Hs Hord.
  assert (∀ p', m' = m → pre_version p' = pre_version p → (∀ cx, own_ok m t p cx → own_ok m t p' cx) →
    (∀ X, reader_ok m us X p → reader_ok m us X p') →
    inv m' (<[t:=p']> us) gc ∧
    (∀ r q X, r ≠ t → us !! r = Some q → reader_ok m us X q → reader_ok m' (<[t:=p']> us) X q) ∧
    (∀ X mv, pre_version p = Some mv → pre_version p' = Some mv → reader_ok m us X p → reader_ok m' (<[t:=p']> us) X p')) as Hmove.
  { clear p' Hs. intros p' -> Hpre Ho HX. destruct (i_reader _ _ _ Hi t p Ht) as [X0 HX0]. split_and!.
    - eapply inv_move; eauto.
    - intros r q X _ _. by eapply reader_move.
    - intros X mv _ _ Hr. eapply reader_move; eauto. }
  destruct p as [| | |mv rv|mv tg i|mv tg i [v|]|mv i d| | |]; cbn in Hs; try done.
  - injection Hs as <- <-. apply Hmove; try done; by destruct (g_over m).
  - split_and!.
    + by eapply begin_inv.
    + intros r q X _ Hr. by eapply begin_others.
    + done.
  - injection Hs as <- <-. apply Hmove; try done. intros X HX. apply HX. apply Nat.mod_upper_bound.
    apply lookup_lt_Some in Ht. rewrite (i_len _ _ _ Hi) in Ht. lia.
  - destruct (i_reader _ _ _ Hi t _ Ht) as [X0 (cx & q & Hcx & _)]. rewrite Hcx in Hs. cbn [mbind option_bind] in Hs.
    injection Hs as <- <-. apply Hmove; try done. intros X HX. split; [done|].
    destruct HX as (cx' & q' & Hcx' & _ & Hx & _). assert (cx' = cx) as -> by congruence.
    unfold head_version. destruct (i_list _ _ _ Hi i cx Hcx) as (_ & Hd & _). unfold versions in *.
    destruct (data_list cx) as [|d l] eqn:Hl; [by apply not_elem_of_nil in Hx|]. exists (version d), cx.
    unfold versions. rewrite Hl. split_and!; [done|done|by left|]. by apply (desc_head (version d) (version <$> l)).
  - destruct (i_reader _ _ _ Hi t _ Ht) as [X0 HX0]. destruct (update_walk m mv tg i v) as [p''|] eqn:Hw; [|done].
    cbn [mbind option_bind] in Hs. injection Hs as <- <-. destruct (walk_next _ _ _ _ _ _ _ _ _ Hi HX0 Hw) as [_ Hpre].
    apply Hmove; [done|done| |].
    + intros cx Ho. cbn in Ho. destruct p''; try done; injection Hpre as ->; exact Ho.
    + intros X HX. by destruct (walk_next _ _ _ _ _ _ _ _ _ Hi HX Hw).
  - destruct (i_reader _ _ _ Hi t _ Ht) as [X0 (_ & v & cx & [=] & _)].
  - destruct (update_push t m mv d) as [m2|] eqn:Hp; [|done]. cbn [mbind option_bind] in Hs. injection Hs as <- <-. split_and!.
    + by eapply push_inv.
    + intros r q X Hne Hr. by eapply push_others.
    + done.
  - destruct (update_end t m) as [m2|] eqn:He; [|done]. cbn [mbind option_bind] in Hs. injection Hs as <- <-. split_and!.
    + by eapply end_inv.
    + intros r q X Hne Hr. by eapply end_others.
    + done.
Qed.

(** Updaters main has not created. *)
Definition main_ok (s : state) : Prop :=
  match s_main s with MCreate k => ∀ i p, s_updaters s !! i = Some p → (k ≤ i)%nat → p = UIdle | _ => True end.

Definition state_ok (s : state) : Prop := inv (s_mem s) (s_updaters s) (s_gc s) ∧ main_ok s.

(** A step keeps the invariant, and a reader in the middle of its round still looks for the
    same versions. *)
Lemma step_ok s s' :
  state_ok s → 0 ≤ g_exec_order (s_mem s) → counted false s s' → state_ok s' ∧
  ∀ t p p' X mv, s_updaters s !! t = Some p → s_updaters s' !! t = Some p' →
    pre_version p = Some mv → pre_version p' = Some mv →
    reader_ok (s_mem s) (s_updaters s) X p → reader_ok (s_mem s') (s_updaters s') X p'.
Proof.
  intros [Hi Hm] H0 [[[| |t rand] Hn] Hord]; cbn in Hn.
  - destruct s as [m us gc mp out]. unfold main_ok in Hm. cbn in *. destruct mp as [k| | | |k|]; cbn in Hn; try done.
    + destruct (us !! k) as [p|] eqn:Hk; injection Hn as <-.
      * assert (p = UIdle) as -> by by apply (Hm k). split; [split|].
        -- eapply inv_move; [done|done|done|done|by exists (λ _, 0)].
        -- intros i q. cbn. intros [[<- ->]|[Hne Hi']]%lookup_insert_inv Hle; [lia|]. apply (Hm i); [done|lia].
        -- cbn. intros t p p' X mv Hp Hp' Hpre _ Hr. destruct (decide (t = k)) as [->|Hne]; [by assert (p = UIdle) as -> by congruence|].
           rewrite list_lookup_insert_ne in Hp' by done. assert (p' = p) as -> by congruence.
           eapply reader_move; [exact Hk|done|done].
      * split; [split; [done|exact I]|]. cbn. intros t p p' X mv Hp Hp' _ _. by assert (p' = p) as -> by congruence.
    + injection Hn as <-. split; [split; [|exact I]|].
      * destruct Hi. by constructor.
      * cbn. intros t p p' X mv Hp Hp' _ _. by assert (p' = p) as -> by congruence.
    + injection Hn as <-. split; [split; [|exact I]|].
      * destruct Hi. by constructor.
      * cbn. intros t p p' X mv Hp Hp' _ _. assert (p' = p) as -> by congruence. done.
    + destruct gc; try done. injection Hn as <-. split; [split; [done|exact I]|].
      cbn. intros t p p' X mv Hp Hp' _ _. by assert (p' = p) as -> by congruence.
    + destruct (us !! k) as [[]|]; try done; injection Hn as <-; (split; [split; [done|exact I]|]);
        cbn; intros t p p' X mv Hp Hp' _ _; by assert (p' = p) as -> by congruence.
  - destruct (GC false (s_mem s) (s_gc s)) as [[m' gc']|] eqn:Hg; [|done]. injection Hn as <-.
    destruct (gc_inv _ _ _ _ _ Hi Hg) as [Hi' Hk]. split; [by split|]. cbn. intros t p p' X mv Hp Hp' _ _.
    assert (p' = p) as -> by congruence. by eapply Hk.
  - destruct (s_updaters s !! t) as [p|] eqn:Ht; [|done]. cbn [mbind option_bind] in Hn.
    destruct (UpdateAB rand t (s_mem s) p) as [[m' p']|] eqn:Hu; [|done]. injection Hn as <-.
    destruct (updater_inv _ _ _ _ _ _ _ _ Hi Ht Hu (conj H0 Hord)) as (Hi' & Hoth & Hown). split.
    + split; [done|]. unfold main_ok in *. cbn. destruct (s_main s) as [k| | | | |]; try done.
      intros i q [[<- ->]|[Hne Hi2]]%lookup_insert_inv Hle; [|by apply (Hm i)].
      pose proof (Hm t p Ht Hle) as ->. done.
    + cbn. intros r q q' X mv Hq Hq' Hpre Hpre'. destruct (decide (r = t)) as [->|Hne].
      * rewrite list_lookup_insert_eq in Hq' by by eapply lookup_lt_Some. injection Hq' as <-.
        assert (q = p) as -> by congruence. by eapply Hown.
      * rewrite list_lookup_insert_ne in Hq' by done. assert (q' = q) as -> by congruence. by eapply Hoth.
Qed.

(** ** The initial state *)

Lemma init_contexts_lookup k rands i cx :
  init_contexts k rands !! i = Some cx → ∃ d, data_list cx = [d] ∧ version d = Z.of_nat (k + i) ∧
    A d + B d = A_PLUS_B ∧ 0 ≤ A d < 100.
Proof.
  revert k i. induction rands as [|r rands IH]; intros k i Hi; [done|]. destruct i as [|i]; cbn in Hi.
  - injection Hi as <-. eexists. split; [done|]. cbn. unfold A_PLUS_B. split_and!; [lia|lia|..];
      pose proof (Z.mod_pos_bound (Z.of_nat r) 100); lia.
  - destruct (IH (S k) i Hi) as (d & H1 & H2 & H3 & H4). exists d. split_and!; [done|lia|done|lia|lia].
Qed.

Lemma init_contexts_length k rands : length (init_contexts k rands) = length rands.
Proof. revert k. induction rands as [|r rands IH]; intros k; [done|]. cbn. by rewrite IH. Qed.

Lemma init_state_ok rands : rands ≠ [] → state_ok (init rands).
Proof.
  intros Hne. split.
  - constructor; unfold init; cbn [s_mem s_updaters s_gc g_contexts].
    + by rewrite length_replicate, init_contexts_length.
    + rewrite length_replicate. destruct rands; [done|cbn; lia].
    + intros i cx Hi. pose proof (lookup_lt_Some _ _ _ Hi) as Hl. rewrite init_contexts_length in Hl.
      destruct (init_contexts_lookup _ _ _ _ Hi) as (d & Hd & Hv & _). unfold list_ok, versions. rewrite Hd. cbn.
      split_and!; [done|repeat constructor|]. intros v ->%list_elem_of_singleton. lia.
    + intros t p cx Ht _. apply lookup_replicate in Ht as [-> _]. done.
    + intros t p Ht. apply lookup_replicate in Ht as [-> _]. by exists (λ _, 0).
    + done.
  - unfold main_ok. cbn. intros i p Hi _. by apply lookup_replicate in Hi as [-> _].
Qed.

Lemma mvcc_reachable_ok rands s :
  rands ≠ [] → reachable (init rands) (counted false) s → state_ok s ∧ 0 ≤ g_exec_order (s_mem s).
Proof.
  intros Hne. apply (reachable_invariant _ _ (λ s, state_ok s ∧ 0 ≤ g_exec_order (s_mem s))).
  - split; [by apply init_state_ok|]. cbn. lia.
  - intros a b [Ha H0] Hs. split; [by apply (step_ok a b Ha H0)|]. destruct Hs. lia.
Qed.

(** C23: with the head of a data list read once in the scan of the collector, and as long as
    the [int] that counts the versions has not wrapped around (which takes about 2^31 rounds):
    no assertion of an updater fails, no updater and not the collector ever follows a pointer
    to a deleted node, and every search for a version finds one; this for any number of
    threads and any interleaving. *)
Theorem mvcc_no_failure rands s t :
  rands ≠ [] → reachable (init rands) (counted false) s →
  s_updaters s !! t ≠ Some UFail ∧ s_gc s ≠ GFail.
Proof.
  intros Hne Hr. destruct (mvcc_reachable_ok rands s Hne Hr) as [[Hi _] _]. split.
  - intros Ht. by destruct (i_reader _ _ _ Hi t _ Ht).
  - intros Hg. pose proof (i_gc _ _ _ Hi) as Hok. by rewrite Hg in Hok.
Qed.

(** A round keeps its version; a new round has a larger one. *)
Lemma pre_version_step s s' t p' mv :
  step false s s' → s_updaters s' !! t = Some p' → pre_version p' = Some mv → mv < g_exec_order (s_mem s) →
  ∃ p, s_updaters s !! t = Some p ∧ pre_version p = Some mv.
Proof.
  intros [[| |r rand] Hn] Ht Hp Hlt; cbn in Hn.
  - destruct s as [m us gc mp out]. destruct mp as [k| | | |k|]; cbn in Hn |- *.
    + destruct (us !! k) eqn:Hk; injection Hn as <-; [|eauto]. cbn in Ht.
      apply lookup_insert_inv in Ht as [[<- ->]|[_ Ht]]; [done|eauto].
    + injection Hn as <-. eauto.
    + injection Hn as <-. eauto.
    + destruct gc; try done. injection Hn as <-. eauto.
    + destruct (us !! k) as [[]|]; try done; injection Hn as <-; eauto.
    + done.
  - destruct (GC false (s_mem s) (s_gc s)) as [[m' gc']|]; [|done]. injection Hn as <-. eauto.
  - destruct (s_updaters s !! r) as [p|] eqn:Hr; [|done]. cbn [mbind option_bind] in Hn.
    destruct (UpdateAB rand r (s_mem s) p) as [[m' q]|] eqn:Hu; [|done]. injection Hn as <-. cbn in Ht.
    apply lookup_insert_inv in Ht as [[<- ->]|[_ Ht]]; [|eauto]. exists p. split; [done|].
    unfold UpdateAB in Hu. destruct p; try done.
    + injection Hu as <- <-. by destruct (g_over (s_mem s)).
    + unfold update_begin in Hu. simplify_option_eq. lia.
    + by injection Hu as <- <-.
    + by simplify_option_eq.
    + destruct data_node as [v|]; [|by simplify_option_eq]. unfold update_walk in Hu. simplify_option_eq.
      repeat case_match; simplify_eq/=; done.
    + unfold update_push in Hu. by simplify_option_eq.
    + unfold update_end in Hu. by simplify_option_eq.
Qed.

(** C19: reads are snapshot reads, with the head of a data list read once in the scan of the
    collector and as long as the [int] that counts the versions has not wrapped around: the
    data an updater uses in a round is the version of the picked thread that was committed
    when the round began (the one an active thread had when it became active, the newest one
    of a thread that was not active), no matter how many versions are pushed and deleted until
    the updater gets to read it. *)
Theorem mvcc_snapshot_read rands s1 s2 s3 rand t i d :
  rands ≠ [] → reachable (init rands) (counted false) s1 →
  s_updaters s1 !! t = Some ULock → next false (CUpdater t rand) s1 = Some s2 → counted false s1 s2 →
  rtc (counted false) s2 s3 → s_updaters s3 !! t = Some (UPush (g_exec_order (s_mem s1)) i d) →
  version d = committed (s_mem s1) i.
Proof.
  intros Hne Hr1 Ht Hn Hc Hr Hp. destruct (mvcc_reachable_ok rands s1 Hne Hr1) as [[Hi1 Hm1] H0].
  set (mv := g_exec_order (s_mem s1)) in *. set (X := committed (s_mem s1)).
  set (J := λ s, state_ok s ∧ mv < g_exec_order (s_mem s) ∧
    ∀ p, s_updaters s !! t = Some p → pre_version p = Some mv → reader_ok (s_mem s) (s_updaters s) X p).
  assert (J s3) as (_ & _ & H3).
  { eapply (rtc_invariant (counted false) J s2); [| |done].
    - intros a b (Ha & Hlt & Hrd) Hs. destruct (step_ok a b Ha ltac:(lia) Hs) as [Hb Hk]. pose proof (proj2 Hs).
      split_and!; [done|lia|]. intros p' Hp' Hpre'.
      destruct (pre_version_step a b t p' mv (proj1 Hs) Hp' Hpre' Hlt) as (p & Htp & Hpre).
      by eapply Hk; eauto.
    - pose proof (step_ok s1 s2 (conj Hi1 Hm1) H0 Hc) as [H2 _]. split; [done|]. destruct Hc as [_ Hc].
      cbn in Hn. rewrite Ht in Hn. cbn [mbind option_bind] in Hn.
      destruct (UpdateAB rand t (s_mem s1) ULock) as [[m' p']|] eqn:Hu; [|done]. injection Hn as <-. cbn [UpdateAB] in Hu.
      pose proof (begin_reader _ _ _ _ _ _ Hi1 Ht Hu) as Hb. split.
      + cbn in Hc |- *. unfold update_begin in Hu. simplify_option_eq. rewrite i32_succ by done. unfold mv. lia.
      + cbn. intros p Htp _. rewrite list_lookup_insert_eq in Htp by by eapply lookup_lt_Some. by injection Htp as <-. }
  specialize (H3 _ Hp eq_refl). exact H3.
Qed.

(** * A and B *)



















(** * Sample runs *)

(** Three threads; main creates them and the collector. *)
Definition sample_rands : list nat := [5; 6; 7]%nat.
Definition start_all : list choice := replicate 5 CMain.

(** A whole round of thread [t] that reads its own data. *)
Definition round (t : nat) : list choice := replicate 7 (CUpdater t t).

(** Thread 0 begins a round in which it will read thread 2; thread 2 pushes two versions
    before it gets to it. *)
Definition snapshot_state (reread : bool) (sched : list choice) : state :=
  default (init sample_rands) (run_sched (next reread) sched (init sample_rands)).

Definition sched1 : list choice := start_all ++ [CUpdater 0 0].
Definition state1 : state := Eval vm_compute in snapshot_state false sched1.
Definition state2 : state := Eval vm_compute in snapshot_state false (sched1 ++ [CUpdater 0 0]).
Definition sched3 : list choice := [CUpdater 0 2] ++ round 2 ++ round 2 ++ replicate 4 CGC ++ replicate 4 (CUpdater 0 0).
Definition state3 : state := Eval vm_compute in snapshot_state false (sched1 ++ [CUpdater 0 0] ++ sched3).

(** The counter in a schedule never wraps around. *)
Definition counted_next (c : choice) (s : state) : option state :=
  s' ← next false c s; if g_exec_order (s_mem s) <=? g_exec_order (s_mem s') then Some s' else None.

Lemma counted_rtc sched s s' : run_sched counted_next sched s = Some s' → rtc (counted false) s s'.
Proof.
  intros Hr%run_sched_rtc. eapply rtc_subrel; [|exact Hr]. intros a b [c Hc]. unfold counted_next in Hc.
  destruct (next false c a) as [b'|] eqn:Hn; [|done]. cbn in Hc. destruct (Z.leb_spec (g_exec_order (s_mem a)) (g_exec_order (s_mem b'))); [|done].
  injection Hc as <-. split; [by exists c|done].
Qed.

Lemma sample_state1 : reachable (init sample_rands) (counted false) state1.
Proof. apply (counted_rtc sched1). reflexivity. Qed.

Lemma sample_state3 : rtc (counted false) state2 state3.
Proof. apply (counted_rtc sched3). reflexivity. Qed.

Lemma mvcc_snapshot_read_witness :
  (versions <$> g_contexts (s_mem state3) !! 2%nat) = Some [5; 4; 2] ∧ 2 = committed (s_mem state1) 2.
Proof.
  split; [reflexivity|].
  apply (mvcc_snapshot_read sample_rands state1 state2 state3 0 0 2 (MkData 2 7 93)).
  - done.
  - exact sample_state1.
  - reflexivity.
  - reflexivity.
  - split; [by exists (CUpdater 0 0)|by vm_compute].
  - exact sample_state3.
  - reflexivity.
Defined.

Lemma mvcc_no_failure_witness : s_updaters state1 !! 0%nat ≠ Some UFail ∧ s_gc state1 ≠ GFail.
Proof. apply (mvcc_no_failure sample_rands state1 0); [done|exact sample_state1]. Defined.



(** Thread 0 has made a round and begins one in which it will read thread 2, thread 2 makes
    three rounds, the collector looks at the head of thread 1, thread 1 makes a round, and
    the collector takes over the new head. *)
Definition sched_bad : list choice :=
  start_all ++ round 0 ++ replicate 3 (CUpdater 0 2) ++ round 2 ++ round 2 ++ round 2 ++
  replicate 4 CGC ++ round 1 ++ replicate 14 CGC ++ replicate 5 (CUpdater 0 0).

(** C40: when the two reads of [data_head] in the scan of the collector are two reads, the
    bound it computes can grow in between: the collector then deletes the version a reader
    is about to look for and the assertion [found] of the reader fails. *)
Theorem gc_reread_fails :
  ∃ s, reachable (init sample_rands) (step true) s ∧ s_updaters s !! 0%nat = Some UFail.
Proof.
  eexists. split; [apply (run_sched_rtc (next true) sched_bad); vm_compute; reflexivity|]. reflexivity.
Qed.

End Mvcc.
