(* ===== verification/Lab4.v ===== *)
(** src/Lab4/project1_TA.cpp: the distances between houses by one search per house, all
    running at the same time and marking the vertices they reach.  Two searches that reach
    the same vertex meet there: the one that comes second sees the mark of the first.  The
    result is put together from the depths at which the searches first met.

    The arrays of the program are maps with default 0; an index outside an array, and
    input that ends early, has no result.  A step of a search is one access to the marks. *)

From S2P Require Import Prelude Graph P1Context.

Local Open Scope Z_scope.

Definition MAX_NUM_HOUSE : nat := 64.
Definition MAX_EDGE_PER_VERTEX : nat := 10.
Definition MAX_VERTICES : Z := 10000000.
Definition MAX_DEPTH : Z := MAX_VERTICES + 1.

(** [FLAG(x)], as a [flag_t]. *)
Definition FLAG (x : nat) : Z := 2 ^ Z.of_nat x.

(** [uint16_t] *)
Definition u16 (z : Z) : Z := z mod 2 ^ 16.

Record VisitInfo := MkVisit { vid : nat; depth : Z }.

(** * InputGraph *)

(** The globals after the input: the houses, the used part of each row of [g_graph], the
    marks and the full mark. *)
Record Graph := MkGraph {
  g_house : list nat;
  g_graph : gmap nat (list nat);
  g_vertex_flag : gmap nat Z;
  g_full_flag : Z;
}.

Definition row (gr : gmap nat (list nat)) (v : nat) : list nat := default [] (gr !! v).

Definition flag_of (fl : gmap nat Z) (v : nat) : Z := default 0 (fl !! v).

(** An index into the arrays of vertices. *)
Definition vertex (z : Z) : option nat := if (0 <=? z) && (z <=? MAX_VERTICES) then Some (Z.to_nat z) else None.

Fixpoint read_houses (n : nat) (ts : list Z) : option (list nat * list Z) :=
  match n, ts with
  | O, _ => Some ([], ts)
  | S n, z :: ts => h ← vertex z; '(hs, ts) ← read_houses n ts; Some (h :: hs, ts)
  | S _, [] => None
  end.

(** The loop that marks the houses; [i] is the index of the first one. *)
Fixpoint mark_houses (i : nat) (hs : list nat) (fl : gmap nat Z) (full : Z) : gmap nat Z * Z :=
  match hs with [] => (fl, full) | h :: hs => mark_houses (S i) hs (<[h:=FLAG i]> fl) (Z.lor full (FLAG i)) end.

(** [g_graph[v][0]++; g_graph[v][g_graph[v][0]] = w] *)
Definition add_neighbor (gr : gmap nat (list nat)) (v w : nat) : option (gmap nat (list nat)) :=
  if (length (row gr v) <? MAX_EDGE_PER_VERTEX)%nat then Some (<[v:=row gr v ++ [w]]> gr) else None.

Fixpoint read_edges (n : nat) (v : nat) (ts : list Z) (gr : gmap nat (list nat)) : option (gmap nat (list nat) * list Z) :=
  match n, ts with
  | O, _ => Some (gr, ts)
  | S n, z :: ts =>
      w ← vertex z; gr ← add_neighbor gr v w; gr ← add_neighbor gr w v; read_edges n v ts gr
  | S _, [] => None
  end.

Fixpoint read_edge_lists (n : nat) (ts : list Z) (gr : gmap nat (list nat)) : option (gmap nat (list nat)) :=
  match n, ts with
  | O, _ => Some gr
  | S n, z :: num_edge :: ts =>
      v ← vertex z; '(gr, ts) ← read_edges (Z.to_nat num_edge) v ts gr; read_edge_lists n ts gr
  | _, _ => None
  end.

Definition InputGraph (ts : list Z) : option Graph :=
  match ts with
  | num_house :: ts =>
      if Z.of_nat MAX_NUM_HOUSE <? num_house then None else
      '(hs, ts) ← read_houses (Z.to_nat num_house) ts;
      let '(fl, full) := mark_houses 0 hs ∅ 0 in
      match ts with
      | _ :: num_edge_list :: ts =>
          gr ← read_edge_lists (Z.to_nat num_edge_list) ts ∅; Some (MkGraph hs gr fl full)
      | _ => None
      end
  | [] => None
  end.

(** * FindMinMaxPath *)

(** Not started; at the loop test; looking at the neighbours left; about to mark [w]; past
    the loop; past the end of the queue. *)
Inductive tpc := TInit | TLoop | TCheck (todo : list nat) | TMark (w : nat) (todo : list nat) | TDone | TFail.

Record thread := MkThread {
  queue : list Z;
  front : nat;
  depth_fence : list nat;
  curr_depth : nat;
  visited_flag : Z;
  t_pc : tpc;
}.

(** What the threads share: the marks and [g_visit_info]. *)
Record mem := Mem { flags : gmap nat Z; visit_info : gmap (nat * nat) VisitInfo }.

Section search.
Context (g : Graph).

(** Writing behind the queue: [malloc] gave room for [MAX_VERTICES] entries. *)
Definition enqueue (q : list Z) (z : Z) : option (list Z) :=
  if Z.of_nat (length q) <? MAX_VERTICES then Some (q ++ [z]) else None.

Definition fail (t : thread) : thread :=
  MkThread (queue t) (front t) (depth_fence t) (curr_depth t) (visited_flag t) TFail.

(** The beginning of [FindMinMaxPath]. *)
Definition start_path (start_idx : nat) : option thread :=
  h ← g_house g !! start_idx;
  Some (MkThread [Z.of_nat h; 0 + MAX_DEPTH] 0 [0%nat] 0 (FLAG start_idx) TLoop).

(** One round of the loop up to the neighbours. *)
Definition dequeue (t : thread) : thread :=
  match queue t !! front t with
  | None => MkThread (queue t) (front t) (depth_fence t) (curr_depth t) (visited_flag t) TDone
  | Some curr_node =>
      if MAX_DEPTH <=? curr_node then
        match enqueue (queue t) (Z.of_nat (S (curr_depth t)) + MAX_DEPTH) with
        | Some q =>
            MkThread q (S (front t)) (depth_fence t ++ [front t]) (S (curr_depth t)) (visited_flag t)
              (if visited_flag t =? g_full_flag g then TDone else TLoop)
        | None => fail t
        end
      else MkThread (queue t) (S (front t)) (depth_fence t) (curr_depth t) (visited_flag t)
             (TCheck (row (g_graph g) (Z.to_nat curr_node)))
  end.

(** The loop over the bits of [flag_before]. *)
Fixpoint record_meetings (fuel thd : nat) (flag_before : Z) (i : nat) (w : nat) (d : Z)
    (info : gmap (nat * nat) VisitInfo) : gmap (nat * nat) VisitInfo :=
  match fuel with
  | O => info
  | S fuel =>
      if flag_before =? 0 then info
      else record_meetings fuel (S thd) (Z.shiftr flag_before 1) i w d
             (if Z.testbit flag_before 0 then <[(i, thd):=MkVisit w d]> info else info)
  end.

(** Marking [w] and what follows it. *)
Definition mark_vertex (i : nat) (m : mem) (t : thread) (w : nat) (todo : list nat) : mem * thread :=
  let flag_before := flag_of (flags m) w in
  let fl := <[w:=Z.lor flag_before (FLAG i)]> (flags m) in
  let new := Z.land flag_before (Z.lnot (visited_flag t)) in
  let info := record_meetings MAX_NUM_HOUSE 0 new i w (u16 (Z.of_nat (curr_depth t) + 1)) (visit_info m) in
  let visited := Z.lor (visited_flag t) new in
  (Mem fl info,
   match enqueue (queue t) (Z.of_nat w) with
   | Some q => MkThread q (front t) (depth_fence t) (curr_depth t) visited (TCheck todo)
   | None => MkThread (queue t) (front t) (depth_fence t) (curr_depth t) visited TFail
   end).

(** One step of the search of house [i]. *)
Definition FindMinMaxPath (i : nat) (m : mem) (t : thread) : option (mem * thread) :=
  match t_pc t with
  | TInit => t' ← start_path i; Some (m, t')
  | TLoop => Some (m, dequeue t)
  | TCheck [] => Some (m, MkThread (queue t) (front t) (depth_fence t) (curr_depth t) (visited_flag t) TLoop)
  | TCheck (w :: todo) =>
      Some (m, MkThread (queue t) (front t) (depth_fence t) (curr_depth t) (visited_flag t)
                 (if Z.land (flag_of (flags m) w) (FLAG i) =? 0 then TMark w todo else TCheck todo))
  | TMark w todo => Some (mark_vertex i m t w todo)
  | TDone | TFail => None
  end.

End search.

(** * MakeResult *)

Section result.
Context (n : nat) (info : gmap (nat * nat) VisitInfo) (ths : list thread).

Definition visit (i j : nat) : VisitInfo := default (MkVisit 0 0) (info !! (i, j)).

(** The pairs of the two nested loops. *)
Definition pairs : list (nat * nat) := seq 0 n ≫= (λ i, (λ j, (i, j)) <$> seq (S i) (n - S i)).

Definition dist (p : nat * nat) : Z := depth (visit p.1 p.2) + depth (visit p.2 p.1).

Definition min_dist : Z := foldl (λ m p, if dist p <? m then dist p else m) 999999999 pairs.
Definition max_dist : Z := foldl (λ m p, if m <? dist p then dist p else m) 0 pairs.

(** [g_depth_fence_in_queue[thd][d]] *)
Definition fence (thd : nat) (d : Z) : option nat :=
  t ← ths !! thd; if d <? 0 then None else depth_fence t !! Z.to_nat d.

(** Whether vertex [v] is between two fences of the queue of [thd]. *)
Definition in_level (thd : nat) (d1 d2 : Z) (v : nat) : option bool :=
  t ← ths !! thd; a ← fence thd d1; b ← fence thd d2;
  Some (existsb (λ j, match queue t !! j with Some z => z =? Z.of_nat v | None => false end) (seq a (b - a))).

(** The loop over the candidates for the minimum: whether it was left early. *)
Fixpoint min_loop (ps : list (nat * nat)) : option bool :=
  match ps with
  | [] => Some false
  | (thd1, thd2) :: ps =>
      let v1 := visit thd1 thd2 in let v2 := visit thd2 thd1 in
      r1 ← in_level thd2 (depth v2) (depth v2 + 1) (vid v1);
      if negb r1 then Some true else
      r2 ← in_level thd1 (depth v1) (depth v1 + 1) (vid v2);
      if negb r2 then Some true else min_loop ps
  end.

Fixpoint max_loop (ps : list (nat * nat)) : option bool :=
  match ps with
  | [] => Some false
  | (thd1, thd2) :: ps =>
      let v1 := visit thd1 thd2 in let v2 := visit thd2 thd1 in
      r1 ← in_level thd2 (depth v2 - 1) (depth v2) (vid v1);
      if (r1 : bool) then max_loop ps else
      r2 ← in_level thd1 (depth v1 - 1) (depth v1) (vid v2);
      if negb r2 then Some true else max_loop ps
  end.

(** [MakeResult]: the two numbers printed. *)
Definition MakeResult : option (Z * Z) :=
  left_min ← min_loop (filter (λ p, dist p = min_dist) pairs);
  left_max ← max_loop (filter (λ p, dist p = max_dist) pairs);
  Some (if (left_min : bool) then min_dist - 1 else min_dist, if (left_max : bool) then max_dist else max_dist - 1).

End result.

(** * main *)

Inductive mpc := MCreate (k : nat) | MJoin (k : nat) | MExit (out : option (Z * Z)).

Record state := State { s_mem : mem; s_threads : list thread; s_started : nat; s_main : mpc }.

Definition new_thread : thread := MkThread [] 0 [] 0 0 TInit.

Definition main_step (s : state) : option state :=
  let '(State m ths k mp) := s in
  match mp with
  | MCreate i =>
      if (i <? length ths)%nat then Some (State m ths (S i) (MCreate (S i))) else Some (State m ths k (MJoin 0))
  | MJoin i =>
      match ths !! i with
      | Some t => match t_pc t with TDone => Some (State m ths k (MJoin (S i))) | _ => None end
      | None => Some (State m ths k (MExit (MakeResult (length ths) (visit_info m) ths)))
      end
  | MExit _ => None
  end.

(** [None] is main, [Some i] the thread of house [i]. *)
Definition next (g : Graph) (c : option nat) (s : state) : option state :=
  match c with
  | None => main_step s
  | Some i =>
      if (i <? s_started s)%nat then
        t ← s_threads s !! i;
        '(m, t') ← FindMinMaxPath g i (s_mem s) t;
        Some (State m (<[i:=t']> (s_threads s)) (s_started s) (s_main s))
      else None
  end.

Definition step (g : Graph) (s s' : state) : Prop := ∃ c, next g c s = Some s'.

Definition init (g : Graph) : state :=
  State (Mem (g_vertex_flag g) ∅) (replicate (length (g_house g)) new_thread) 0 (MCreate 0).

(** * Graphs the program can be run on *)

Record graph_ok (g : Graph) : Prop := {
  k_houses h : h ∈ g_house g → Z.of_nat h ≤ MAX_VERTICES;
  k_nodup : NoDup (g_house g);
  k_max : (length (g_house g) ≤ MAX_NUM_HOUSE)%nat;
  k_flag v i : Z.testbit (flag_of (g_vertex_flag g) v) (Z.of_nat i) = bool_decide (g_house g !! i = Some v);
  k_flag_range v : 0 ≤ flag_of (g_vertex_flag g) v < 2 ^ 64;
  k_full i : Z.testbit (g_full_flag g) (Z.of_nat i) = bool_decide (i < length (g_house g))%nat;
  k_full_range : 0 ≤ g_full_flag g < 2 ^ 64;
  k_row v w : w ∈ row (g_graph g) v → Z.of_nat w ≤ MAX_VERTICES;
  k_sym v w : w ∈ row (g_graph g) v → v ∈ row (g_graph g) w;
}.

(** Vertex [v] carries the mark of search [i]; search [t] has met search [j]. *)
Definition marked (fl : gmap nat Z) (i v : nat) : Prop := Z.testbit (flag_of fl v) (Z.of_nat i) = true.
Definition met (t : thread) (j : nat) : Prop := Z.testbit (visited_flag t) (Z.of_nat j) = true.

#[export] Instance marked_dec fl i v : Decision (marked fl i v).
Proof. unfold marked. apply _. Defined.

#[export] Instance met_dec t j : Decision (met t j).
Proof. unfold met. apply _. Defined.

Lemma FLAG_testbit i j : Z.testbit (FLAG i) (Z.of_nat j) = bool_decide (i = j).
Proof.
  unfold FLAG. rewrite Z.pow2_bits_eqb by lia. case_bool_decide; [apply Z.eqb_eq|apply Z.eqb_neq]; lia.
Qed.

Lemma marked_insert fl i j v w :
  marked (<[w:=Z.lor (flag_of fl w) (FLAG i)]> fl) j v ↔ marked fl j v ∨ (j = i ∧ v = w).
Proof.
  unfold marked, flag_of. destruct (decide (v = w)) as [->|Hne].
  - rewrite lookup_insert_eq. cbn [from_option id]. rewrite Z.lor_spec, orb_true_iff, FLAG_testbit, bool_decide_eq_true.
    split; [intros [?| ->]; auto|intros [?|[-> _]]; auto].
  - rewrite lookup_insert_ne by done. naive_solver.
Qed.

Lemma range_64 z : (∀ i, 64 ≤ i → Z.testbit z i = false) → 0 ≤ z → z < 2 ^ 64.
Proof.
  intros Hb Hz. destruct (Z.lt_ge_cases z (2 ^ 64)) as [|Hge]; [done|]. assert (0 < z) as Hpos by lia.
  assert (64 ≤ Z.log2 z) as H64 by (apply (Z.log2_le_pow2 z 64 Hpos); lia).
  specialize (Hb _ H64). by rewrite Z.bit_log2 in Hb.
Qed.

Lemma testbit_64 z i : 0 ≤ z < 2 ^ 64 → 64 ≤ i → Z.testbit z i = false.
Proof.
  intros [Hz Hlt] Hi. destruct (decide (z = 0)) as [->|Hne]; [apply Z.bits_0|].
  apply Z.bits_above_log2; [done|]. assert (Z.log2 z < 64); [|lia]. apply Z.log2_lt_pow2; lia.
Qed.

(** The loop over the bits writes an entry for each of them. *)
Lemma record_meetings_lookup fuel thd fb i w d info a b :
  0 ≤ fb < 2 ^ Z.of_nat fuel →
  record_meetings fuel thd fb i w d info !! (a, b) =
    if bool_decide (a = i ∧ (thd ≤ b)%nat ∧ Z.testbit fb (Z.of_nat (b - thd)) = true)
    then Some (MkVisit w d) else info !! (a, b).
Proof.
  revert thd fb info. induction fuel as [|fuel IH]; intros thd fb info Hfb.
  { cbn in *. assert (fb = 0) as -> by lia. rewrite bool_decide_eq_false_2; [done|]. rewrite Z.bits_0. naive_solver. }
  cbn [record_meetings]. destruct (Z.eqb_spec fb 0) as [->|Hne].
  { rewrite bool_decide_eq_false_2; [done|]. rewrite Z.bits_0. naive_solver. }
  rewrite IH.
  2:{ rewrite Z.shiftr_div_pow2 by lia. rewrite Nat2Z.inj_succ, Z.pow_succ_r in Hfb by lia. change (2 ^ 1) with 2.
      split; [apply Z.div_pos; lia|]. apply Z.div_lt_upper_bound; lia. }
  assert (∀ k, Z.testbit (Z.shiftr fb 1) (Z.of_nat k) = Z.testbit fb (Z.of_nat (S k))) as Hsh.
  { intros k. rewrite Z.shiftr_spec by lia. f_equal. lia. }
  rewrite Hsh. destruct (decide (a = i ∧ b = thd)) as [[-> ->]|Hab].
  - rewrite (bool_decide_eq_false_2 (i = i ∧ (S thd ≤ thd)%nat ∧ _)) by lia. rewrite Nat.sub_diag.
    destruct (Z.testbit fb 0) eqn:Hb0.
    + rewrite lookup_insert_eq, bool_decide_eq_true_2; [done|]. split_and!; [done|lia|done].
    + rewrite bool_decide_eq_false_2; [done|]. intros (_ & _ & Hc). change (Z.of_nat 0) with 0 in Hc. congruence.
  - assert ((if Z.testbit fb 0 then <[(i, thd):=MkVisit w d]> info else info) !! (a, b) = info !! (a, b)) as ->.
    { destruct (Z.testbit fb 0); [|done]. apply lookup_insert_ne. naive_solver. }
    destruct (decide (a = i ∧ (S thd ≤ b)%nat)) as [[-> Hle]|Hn].
    + replace (b - thd)%nat with (S (b - S thd)) by lia.
      destruct (Z.testbit fb (Z.of_nat (S (b - S thd)))) eqn:Hbit.
      * rewrite !bool_decide_eq_true_2; [done|split_and!; [done|lia|done]|split_and!; [done|lia|done]].
      * rewrite !bool_decide_eq_false_2; [done|naive_solver|naive_solver].
    + rewrite !bool_decide_eq_false_2; [done| |naive_solver]. intros (-> & Hle & _). apply Hn. split; [done|].
      destruct (decide (b = thd)) as [->|]; [by destruct Hab|lia].
Qed.

(** * One search *)

Section invariant.
Context (g : Graph) (Hg : graph_ok g).

Notation nb := (row (g_graph g)).
Notation n := (length (g_house g)).

(** While level [curr_depth] is expanded: [Lv] of it are left, [Nv] of the next have been
    found, [todo] are the neighbours left of the vertex being expanded. *)
Record level_ok (fl : gmap nat Z) (i h : nat) (t : thread) (Lv Nv todo : list nat) : Prop := {
  l_queue : ∃ F, MAX_DEPTH ≤ F ∧ drop (front t) (queue t) = (Z.of_nat <$> Lv) ++ F :: (Z.of_nat <$> Nv);
  l_marked v : marked fl i v → ∃ d, isdist nb h v d ∧ (d ≤ S (curr_depth t))%nat ∧ (d = S (curr_depth t) → v ∈ Nv);
  l_below v d : isdist nb h v d → (d ≤ curr_depth t)%nat → marked fl i v;
  l_next v : v ∈ Nv → isdist nb h v (S (curr_depth t));
  l_cur v : v ∈ Lv → isdist nb h v (curr_depth t);
  l_todo w : w ∈ todo → ∃ u, isdist nb h u (curr_depth t) ∧ w ∈ nb u;
  l_expanded u : isdist nb h u (curr_depth t) → u ∈ Lv ∨ ∀ w, w ∈ nb u → marked fl i w ∨ w ∈ todo;
}.

(** All vertices up to some depth are marked, and at most those of the next. *)
Definition levels (fl : gmap nat Z) (i h : nat) (c : nat) : Prop :=
  (∀ v d, isdist nb h v d → (d ≤ c)%nat → marked fl i v) ∧
  (∀ v, marked fl i v → ∃ d, isdist nb h v d ∧ (d ≤ S c)%nat).

Record thread_ok (fl : gmap nat Z) (i h : nat) (t : thread) : Prop := {
  t_levels : levels fl i h (curr_depth t);
  t_state : match t_pc t with
    | TInit => t = new_thread ∧ ∀ v, marked fl i v ↔ v = h
    | TLoop => ∃ Lv Nv, level_ok fl i h t Lv Nv []
    | TCheck todo => ∃ Lv Nv, level_ok fl i h t Lv Nv todo
    | TMark w todo => ¬ marked fl i w ∧ ∃ Lv Nv, level_ok fl i h t Lv Nv (w :: todo)
    | TDone => visited_flag t = g_full_flag g ∧ ∀ v, marked fl i v → ∃ d, isdist nb h v d ∧ (d ≤ curr_depth t)%nat
    | TFail => True
    end;
  t_fences : t_pc t ≠ TInit → length (depth_fence t) = S (curr_depth t);
  t_visited : 0 ≤ visited_flag t ∧ ∀ j, met t j → (j < n)%nat;
  t_own : t_pc t ≠ TInit → met t i;
}.

Lemma level_levels fl i h t Lv Nv todo : level_ok fl i h t Lv Nv todo → levels fl i h (curr_depth t).
Proof.
  intros Hl. split; [apply (l_below _ _ _ _ _ _ _ Hl)|]. intros v Hv.
  destruct (l_marked _ _ _ _ _ _ _ Hl v Hv) as (d & Hd & Hle & _). eauto.
Qed.

(** The marks of search [i] do not change when another search marks a vertex. *)
Lemma levels_frame fl fl' i h c : (∀ v, marked fl' i v ↔ marked fl i v) → levels fl i h c → levels fl' i h c.
Proof. intros He [H1 H2]. split; [intros v d Hd Hle; apply He; eauto|intros v Hv%He; eauto]. Qed.

Lemma level_frame fl fl' i h t Lv Nv todo :
  (∀ v, marked fl' i v ↔ marked fl i v) → level_ok fl i h t Lv Nv todo → level_ok fl' i h t Lv Nv todo.
Proof.
  intros He [H1 H2 H3 H4 H5 H6 H7]. constructor; try done.
  - intros v Hv%He. auto.
  - intros v d Hd Hle. apply He. eauto.
  - intros u Hu. destruct (H7 u Hu) as [|Hall]; [by left|right]. intros w Hw. rewrite He. auto.
Qed.

Lemma thread_frame fl fl' i h t :
  (∀ v, marked fl' i v ↔ marked fl i v) → thread_ok fl i h t → thread_ok fl' i h t.
Proof.
  intros He [H1 H2 H3 H4 H5]. constructor; try done; [by eapply levels_frame|].
  destruct (t_pc t) as [| |todo|w todo| |].
  - destruct H2 as [-> H2]. split; [done|]. intros v. by rewrite He.
  - destruct H2 as (Lv & Nv & Hl). exists Lv, Nv. by eapply level_frame.
  - destruct H2 as (Lv & Nv & Hl). exists Lv, Nv. by eapply level_frame.
  - destruct H2 as (Hn & Lv & Nv & Hl). split; [by rewrite He|]. exists Lv, Nv. by eapply level_frame.
  - destruct H2 as [Hv H2]. split; [done|]. intros v Hm%He. auto.
  - done.
Qed.

(** Moving through the loop without touching the marks. *)
Definition move (t : thread) (fr : nat) (p : tpc) : thread :=
  MkThread (queue t) fr (depth_fence t) (curr_depth t) (visited_flag t) p.

Lemma drop_cons {A} (l : list A) k x l' : drop k l = x :: l' → l !! k = Some x ∧ drop (S k) l = l'.
Proof.
  intros H. split; [by rewrite <- (Nat.add_0_r k), <- lookup_drop, H|].
  rewrite <- Nat.add_1_r, <- drop_drop, H. done.
Qed.

Lemma house_range i h : g_house g !! i = Some h → Z.of_nat h ≤ MAX_VERTICES.
Proof. intros Hi. apply (k_houses _ Hg). by eapply list_elem_of_lookup_2. Qed.

Lemma dist_range i h v d : g_house g !! i = Some h → isdist nb h v d → Z.of_nat v < MAX_DEPTH.
Proof.
  intros Hi [Hw _]. unfold MAX_DEPTH. destruct Hw as [u|m u v' w Hw Hin].
  - pose proof (house_range i u Hi). lia.
  - pose proof (k_row _ Hg _ _ Hin). lia.
Qed.

(** Skipping a neighbour that is marked. *)
Lemma skip_ok fl i h t Lv Nv w todo t' :
  level_ok fl i h t Lv Nv (w :: todo) → marked fl i w → front t' = front t → queue t' = queue t →
  curr_depth t' = curr_depth t → level_ok fl i h t' Lv Nv todo.
Proof.
  intros Hl Hm Hf Hq Hc. constructor; rewrite ?Hf, ?Hq, ?Hc; try apply Hl.
  - intros x Hx. apply Hl. by right.
  - intros u Hu. destruct (l_expanded _ _ _ _ _ _ _ Hl u Hu) as [|Hall]; [by left|right]. intros x Hx.
    destruct (Hall x Hx) as [|[->|]%elem_of_cons]; auto.
Qed.

(** A vertex that is not marked yet is one further. *)
Lemma new_depth fl i h t Lv Nv w todo :
  level_ok fl i h t Lv Nv (w :: todo) → ¬ marked fl i w → isdist nb h w (S (curr_depth t)).
Proof.
  intros Hl Hn. destruct (l_todo _ _ _ _ _ _ _ Hl w ltac:(by left)) as (u & Hu & Hw).
  destruct (isdist_step _ _ _ _ _ Hu Hw) as (d & Hd & Hle).
  destruct (decide (d = S (curr_depth t))) as [->|]; [done|]. destruct Hn. apply (l_below _ _ _ _ _ _ _ Hl w d Hd). lia.
Qed.

(** Marking a neighbour. *)
Lemma mark_ok fl fl' i h t Lv Nv w todo t' :
  level_ok fl i h t Lv Nv (w :: todo) → ¬ marked fl i w → (front t ≤ length (queue t))%nat →
  (∀ v, marked fl' i v ↔ marked fl i v ∨ v = w) →
  front t' = front t → queue t' = queue t ++ [Z.of_nat w] → curr_depth t' = curr_depth t →
  level_ok fl' i h t' Lv (Nv ++ [w]) todo.
Proof.
  intros Hl Hn Hfq He Hf Hq Hc. pose proof (new_depth _ _ _ _ _ _ _ _ Hl Hn) as Hd.
  constructor; rewrite ?Hf, ?Hq, ?Hc.
  - destruct (l_queue _ _ _ _ _ _ _ Hl) as (F & HF & Hdr). exists F. split; [done|].
    rewrite drop_app_le, Hdr, fmap_app, <- app_assoc by done. done.
  - intros v [Hv| ->]%He.
    + destruct (l_marked _ _ _ _ _ _ _ Hl v Hv) as (d & H1 & H2 & H3). exists d. split_and!; [done|done|].
      intros Hd2. apply elem_of_app. left. auto.
    + exists (S (curr_depth t)). split_and!; [done|lia|]. intros _. apply elem_of_app. right. by left.
  - intros v d Hv Hle. apply He. left. by eapply (l_below _ _ _ _ _ _ _ Hl).
  - intros v [Hv| ->%list_elem_of_singleton]%elem_of_app; [by apply (l_next _ _ _ _ _ _ _ Hl)|done].
  - apply Hl.
  - intros x Hx. apply Hl. by right.
  - intros u Hu. destruct (l_expanded _ _ _ _ _ _ _ Hl u Hu) as [|Hall]; [by left|right]. intros x Hx. rewrite He.
    destruct (Hall x Hx) as [|[->|]%elem_of_cons]; auto.
Qed.
(** The next vertex of the level. *)
Lemma expand_ok fl i h t v Lv Nv t' :
  level_ok fl i h t (v :: Lv) Nv [] → front t' = S (front t) → queue t' = queue t → curr_depth t' = curr_depth t →
  level_ok fl i h t' Lv Nv (nb v).
Proof.
  intros Hl Hf Hq Hc. constructor; rewrite ?Hf, ?Hq, ?Hc; try apply Hl.
  - destruct (l_queue _ _ _ _ _ _ _ Hl) as (F & HF & Hdr). exists F. split; [done|].
    rewrite fmap_cons in Hdr. by apply drop_cons in Hdr as [_ Hdr].
  - intros x Hx. apply Hl. by right.
  - intros w Hw. exists v. split; [|done]. apply Hl. by left.
  - intros u Hu. destruct (l_expanded _ _ _ _ _ _ _ Hl u Hu) as [[->|Hin]%elem_of_cons|Hall]; [right; auto|by left|right].
    intros w Hw. destruct (Hall w Hw) as [|Hin]; [by left|by apply not_elem_of_nil in Hin].
Qed.

(** A fence: the next level begins, all of which is marked. *)
Lemma fence_marked fl i h t Nv v d :
  level_ok fl i h t [] Nv [] → isdist nb h v d → (d ≤ S (curr_depth t))%nat → marked fl i v.
Proof.
  intros Hl Hd Hle. destruct (decide (d ≤ curr_depth t)%nat); [by eapply (l_below _ _ _ _ _ _ _ Hl)|].
  assert (d = S (curr_depth t)) as -> by lia. destruct (isdist_pred _ _ _ _ Hd) as (u & Hu & Hv).
  destruct (l_expanded _ _ _ _ _ _ _ Hl u Hu) as [Hin|Hall]; [by apply not_elem_of_nil in Hin|].
  destruct (Hall v Hv) as [|Hin]; [done|by apply not_elem_of_nil in Hin].
Qed.

Lemma fence_ok fl i h t Nv t' F' :
  level_ok fl i h t [] Nv [] → MAX_DEPTH ≤ F' → front t' = S (front t) → queue t' = queue t ++ [F'] →
  curr_depth t' = S (curr_depth t) → level_ok fl i h t' Nv [] [].
Proof.
  intros Hl HF' Hf Hq Hc. destruct (l_queue _ _ _ _ _ _ _ Hl) as (F & HF & Hdr). cbn in Hdr.
  assert (S (front t) ≤ length (queue t))%nat as Hlen.
  { apply drop_cons in Hdr as [Hdr _]. by apply lookup_lt_Some in Hdr. }
  apply drop_cons in Hdr as [_ Hdr]. constructor; rewrite ?Hf, ?Hq, ?Hc.
  - exists F'. split; [done|]. by rewrite drop_app_le, Hdr by done.
  - intros v Hv. destruct (l_marked _ _ _ _ _ _ _ Hl v Hv) as (d & H1 & H2 & _). exists d. split_and!; [done|lia|lia].
  - intros v d. by apply fence_marked with Nv.
  - intros v Hv. by apply not_elem_of_nil in Hv.
  - apply Hl.
  - intros w Hw. by apply not_elem_of_nil in Hw.
  - intros u Hu. left. pose proof (fence_marked _ _ _ _ _ _ _ Hl Hu (le_n _)) as Hm.
    destruct (l_marked _ _ _ _ _ _ _ Hl u Hm) as (d & H1 & _ & H3). apply H3. by eapply isdist_fun.
Qed.

(** The loop test and the dequeued entry. *)
Lemma dequeue_ok fl i h t :
  g_house g !! i = Some h → thread_ok fl i h t → t_pc t = TLoop →
  let t' := dequeue g t in
  thread_ok fl i h t' ∧ visited_flag t' = visited_flag t ∧ t_pc t' ≠ TInit ∧
  (curr_depth t' = curr_depth t ∧ t_pc t' ≠ TDone ∨ curr_depth t' = S (curr_depth t)).
Proof.
  intros Hi Ht Hpc. pose proof (t_state _ _ _ _ Ht) as Hst. rewrite Hpc in Hst. destruct Hst as (Lv & Nv & Hl).
  destruct (l_queue _ _ _ _ _ _ _ Hl) as (F & HF & Hdr). cbn zeta. unfold dequeue.
  pose proof (t_fences _ _ _ _ Ht ltac:(by rewrite Hpc)) as Hfen. pose proof (t_own _ _ _ _ Ht ltac:(by rewrite Hpc)) as Hown.
  destruct Lv as [|v Lv].
  - cbn in Hdr. destruct (drop_cons _ _ _ _ Hdr) as [Hlook _]. rewrite Hlook, (proj2 (Z.leb_le _ _) HF).
    unfold enqueue. destruct (Z.ltb_spec (Z.of_nat (length (queue t))) MAX_VERTICES); cbn.
    + split_and!; [|done|by destruct (_ =? _)|by right].
      assert (∀ p, level_ok fl i h (MkThread (queue t ++ [Z.of_nat (S (curr_depth t)) + MAX_DEPTH]) (S (front t))
        (depth_fence t ++ [front t]) (S (curr_depth t)) (visited_flag t) p) Nv [] []) as Hl'.
      { intros p. apply (fence_ok _ _ _ t _ _ (Z.of_nat (S (curr_depth t)) + MAX_DEPTH)); [done|lia|done..]. }
      constructor; cbn [curr_depth t_pc depth_fence visited_flag].
      * by apply (level_levels _ _ _ _ _ _ _ (Hl' TLoop)).
      * destruct (Z.eqb_spec (visited_flag t) (g_full_flag g)) as [Hv|Hv]; [|by exists Nv, []].
        split; [done|]. intros v Hm. destruct (l_marked _ _ _ _ _ _ _ Hl v Hm) as (d & H1 & H2 & _). eauto.
      * intros _. rewrite length_app, Hfen. cbn. lia.
      * apply Ht.
      * intros _. exact Hown.
    + split_and!; [|done|done|left; done]. constructor; cbn; try done; apply Ht.
  - rewrite fmap_cons in Hdr. destruct (drop_cons _ _ _ _ Hdr) as [Hlook _]. rewrite Hlook.
    pose proof (dist_range i h v _ Hi (l_cur _ _ _ _ _ _ _ Hl v ltac:(by left))).
    rewrite (proj2 (Z.leb_gt _ _)) by done. rewrite Nat2Z.id. split_and!; [|done|done|left; done].
    constructor; cbn; try apply Ht; [|done|done]. exists Lv, Nv. by eapply expand_ok.
Qed.

(** The start of a search. *)
Lemma start_ok fl i h t t' :
  g_house g !! i = Some h → thread_ok fl i h t → t_pc t = TInit → start_path g i = Some t' →
  thread_ok fl i h t' ∧ visited_flag t' = FLAG i ∧ t_pc t' ≠ TInit ∧ t_pc t' ≠ TDone ∧ curr_depth t' = 0%nat.
Proof.
  intros Hi Ht Hpc Hs. pose proof (t_state _ _ _ _ Ht) as Hst. rewrite Hpc in Hst. destruct Hst as [-> Hm].
  unfold start_path in Hs. rewrite Hi in Hs. cbn [mbind option_bind] in Hs. injection Hs as <-. split_and!; try done.
  constructor; cbn [curr_depth t_pc depth_fence visited_flag]; try done.
  - apply Ht.
  - exists [h], []. constructor; cbn; try done.
    + exists MAX_DEPTH. done.
    + intros v ->%Hm. exists 0%nat. split_and!; [apply isdist_self|lia|lia].
    + intros v d Hd Hle. apply Hm. assert (d = 0%nat) as -> by lia. by apply isdist_zero in Hd.
    + intros v Hv. by apply not_elem_of_nil in Hv.
    + intros v ->%list_elem_of_singleton. apply isdist_self.
    + intros w Hw. by apply not_elem_of_nil in Hw.
    + intros u ->%isdist_zero. left. by left.
  - split; [unfold FLAG; lia|]. intros j Hj. unfold met in Hj. cbn in Hj. rewrite FLAG_testbit in Hj.
    apply bool_decide_eq_true in Hj as <-. by eapply lookup_lt_Some.
  - intros _. unfold met. cbn. rewrite FLAG_testbit. by apply bool_decide_eq_true.
Qed.

(** * Two searches *)

(** Search [i] first met search [j] at depth [D], at a vertex that [j] had marked. *)
Definition first (fl : gmap nat Z) (info : gmap (nat * nat) VisitInfo) (i h j D : nat) : Prop :=
  (1 ≤ D)%nat ∧ ∃ v, info !! (i, j) = Some (MkVisit v (u16 (Z.of_nat D))) ∧ isdist nb h v D ∧ marked fl j v.

Lemma first_fun fl fl' info i h j D D' : first fl info i h j D → first fl' info i h j D' → D = D'.
Proof. intros (_ & v & Hv & Hd & _) (_ & v' & Hv' & Hd' & _). simplify_eq. by eapply isdist_fun. Qed.

(** What the two know of each other: a meeting has been written down; where both have been,
    the second has seen the first; and the depths of the first meetings are not too small. *)
Record pair_ok (fl : gmap nat Z) (info : gmap (nat * nat) VisitInfo) (i j h h' : nat) (t t' : thread) : Prop := {
  p_met : met t j → ∃ D, first fl info i h j D ∧ (D ≤ S (curr_depth t))%nat ∧ (t_pc t = TDone → (D ≤ curr_depth t)%nat);
  p_seen v a b : marked fl i v → marked fl j v → isdist nb h v a → isdist nb h' v b →
    (∃ D, met t j ∧ first fl info i h j D ∧ (D ≤ a)%nat) ∨ (∃ D, met t' i ∧ first fl info j h' i D ∧ (D ≤ b)%nat);
  p_ahead D v m d : met t j → ¬ met t' i → first fl info i h j D → isdist nb h' v m → isdist nb h h' d →
    (m + D < d)%nat → marked fl j v;
  p_low D E d : met t j → met t' i → first fl info i h j D → first fl info j h' i E → isdist nb h h' d → (d ≤ D + E)%nat;
}.

(** Steps of either search that change neither marks nor meetings. *)
Lemma pair_local fl info i j h h' t t' u u' :
  pair_ok fl info i j h h' t t' →
  (∀ k, met u k ↔ met t k) → (∀ k, met u' k ↔ met t' k) →
  (curr_depth u = curr_depth t ∧ (t_pc u = TDone → t_pc t = TDone) ∨ curr_depth u = S (curr_depth t)) →
  pair_ok fl info i j h h' u u'.
Proof.
  intros Hp Hu Hu' Hc. constructor.
  - intros Hm%Hu. destruct (p_met _ _ _ _ _ _ _ _ Hp Hm) as (D & HD & Hle & Hdone). exists D. split; [done|].
    destruct Hc as [[Hc Hpc]|Hc]; rewrite Hc; [split; [done|auto]|split; lia].
  - intros v a b Hi Hj Ha Hb. destruct (p_seen _ _ _ _ _ _ _ _ Hp v a b Hi Hj Ha Hb) as [(D & HD & ?)|(D & HD & ?)];
      [left|right]; exists D; (split; [|done]); by first [apply Hu|apply Hu'].
  - intros D v m d Hm%Hu Hn. apply (p_ahead _ _ _ _ _ _ _ _ Hp); [done|]. by rewrite <- Hu'.
  - intros D E d Hm%Hu Hm'%Hu'. by apply (p_low _ _ _ _ _ _ _ _ Hp).
Qed.

(** A third search marks a vertex. *)
Lemma pair_frame fl fl' info info' i j h h' t t' :
  (∀ v, marked fl' i v ↔ marked fl i v) → (∀ v, marked fl' j v ↔ marked fl j v) →
  info' !! (i, j) = info !! (i, j) → info' !! (j, i) = info !! (j, i) →
  pair_ok fl info i j h h' t t' → pair_ok fl' info' i j h h' t t'.
Proof.
  intros Hi Hj H1 H2 Hp.
  assert (∀ D, first fl' info' i h j D ↔ first fl info i h j D) as F1
    by (intros D; unfold first; rewrite H1; by setoid_rewrite Hj).
  assert (∀ D, first fl' info' j h' i D ↔ first fl info j h' i D) as F2
    by (intros D; unfold first; rewrite H2; by setoid_rewrite Hi).
  constructor.
  - intros Hm. setoid_rewrite F1. by apply Hp.
  - intros v a b Hmi%Hi Hmj%Hj Ha Hb. setoid_rewrite F1. setoid_rewrite F2. by eapply (p_seen _ _ _ _ _ _ _ _ Hp).
  - intros D v m d Hm Hn HD%F1 Hv Hd Hlt. apply Hj. by eapply (p_ahead _ _ _ _ _ _ _ _ Hp).
  - intros D E d Hm Hm' HD%F1 HE%F2. by apply (p_low _ _ _ _ _ _ _ _ Hp).
Qed.

(** The searches of two different houses at the beginning. *)
Lemma pair_init i j h h' :
  i ≠ j → g_house g !! i = Some h → g_house g !! j = Some h' →
  pair_ok (g_vertex_flag g) ∅ i j h h' new_thread new_thread.
Proof.
  intros Hij Hi Hj. constructor.
  - unfold met. cbn. by rewrite Z.bits_0.
  - intros v a b Hmi Hmj. unfold marked in *. rewrite (k_flag _ Hg) in *. apply bool_decide_eq_true in Hmi, Hmj.
    destruct Hij. eapply (NoDup_lookup (g_house g)); [apply Hg|done|done].
  - unfold met. cbn. by rewrite Z.bits_0.
  - unfold met. cbn. by rewrite Z.bits_0.
Qed.

(** Triangle: through a vertex both have reached. *)
Lemma meet_distance h h' v a b d : isdist nb h v a → isdist nb h' v b → isdist nb h h' d → (d ≤ a + b)%nat.
Proof.
  intros [Ha _] [Hb _] [_ Hd]. apply Hd. apply (walk_app _ _ _ _ v); [done|]. apply walk_sym; [apply (k_sym _ Hg)|done].
Qed.

(** ** Marking a vertex *)

Section mark.
Context (fl fl' : gmap nat Z) (info info' : gmap (nat * nat) VisitInfo) (k w c : nat) (t u : thread).

(** What [mark_vertex] does to the marks, the meetings and the entries. *)
Record marks : Prop := {
  m_marked j v : marked fl' j v ↔ marked fl j v ∨ (j = k ∧ v = w);
  m_met j : met u j ↔ met t j ∨ marked fl j w;
  m_info a b : info' !! (a, b) = if bool_decide (a = k ∧ marked fl b w ∧ ¬ met t b)
    then Some (MkVisit w (u16 (Z.of_nat (S c)))) else info !! (a, b);
  m_new : ¬ marked fl k w;
  m_depth : curr_depth t = c ∧ curr_depth u = c;
  m_pc : t_pc u ≠ TDone;
}.

Hypothesis Hm : marks.

Lemma m_info_ne a b : a ≠ k → info' !! (a, b) = info !! (a, b).
Proof. intros Hne. rewrite (m_info Hm), bool_decide_eq_false_2; [done|naive_solver]. Qed.

Lemma m_info_met b : met t b → info' !! (k, b) = info !! (k, b).
Proof. intros Hb. rewrite (m_info Hm), bool_decide_eq_false_2; [done|naive_solver]. Qed.

Lemma m_mono j v : marked fl j v → marked fl' j v.
Proof. intros Hj. apply (m_marked Hm). by left. Qed.

Lemma first_keep a h b D : info' !! (a, b) = info !! (a, b) → first fl info a h b D → first fl' info' a h b D.
Proof. intros He (H1 & v & Hv & Hd & Hb). split; [done|]. exists v. rewrite He. split_and!; [done|done|by apply m_mono]. Qed.

(** An entry that was there before has its depth from before. *)
Lemma first_back a h b D D' :
  info' !! (a, b) = info !! (a, b) → first fl info a h b D → first fl' info' a h b D' → D' = D.
Proof. intros He HD HD'. apply (first_keep _ _ _ _ He) in HD. by eapply first_fun. Qed.

Lemma first_new j h D :
  marked fl j w → ¬ met t j → isdist nb h w (S c) → first fl' info' k h j D ↔ D = S c.
Proof.
  intros Hj Hn Hd. assert (info' !! (k, j) = Some (MkVisit w (u16 (Z.of_nat (S c))))) as He
    by (rewrite (m_info Hm), bool_decide_eq_true_2; done). split.
  - intros (_ & v & Hv & Hd' & _). rewrite He in Hv. injection Hv as <- _. by eapply isdist_fun.
  - intros ->. split; [lia|]. exists w. split_and!; [done|done|by apply m_mono].
Qed.

Lemma mark_pair_left j h h' u' cj :
  j ≠ k → isdist nb h w (S c) → levels fl j h' cj →
  pair_ok fl info k j h h' t u' → pair_ok fl info j k h' h u' t →
  pair_ok fl' info' k j h h' u u'.
Proof.
  intros Hne Hw [Hl1 Hl2] Hp Hq. destruct (m_depth Hm) as [Hct Hcu].
  assert (∀ v, marked fl' j v → marked fl j v) as Hj by (intros v [|[-> _]]%(m_marked Hm); done).
  assert (met u j → ∃ D, first fl' info' k h j D ∧ (D ≤ S c)%nat) as Hmet.
  { intros [Hj1|Hj1]%(m_met Hm).
    - destruct (p_met _ _ _ _ _ _ _ _ Hp Hj1) as (D & HD & Hle & _). exists D. rewrite <- Hct. split; [|done].
      apply first_keep; [by apply m_info_met|done].
    - destruct (decide (met t j)) as [Hmt|Hmt].
      + destruct (p_met _ _ _ _ _ _ _ _ Hp Hmt) as (D & HD & Hle & _). exists D. rewrite <- Hct. split; [|done].
        apply first_keep; [by apply m_info_met|done].
      + exists (S c). split; [|done]. by apply first_new. }
  constructor.
  - intros Hu. destruct (Hmet Hu) as (D & HD & Hle). exists D. rewrite Hcu. split_and!; [done|done|]. intros He. by destruct (m_pc Hm).
  - intros v a b [Hv|[_ ->]]%(m_marked Hm) Hvj%Hj Ha Hb.
    + destruct (p_seen _ _ _ _ _ _ _ _ Hp v a b Hv Hvj Ha Hb) as [(D & H1 & H2 & H3)|(D & H1 & H2 & H3)].
      * left. exists D. split_and!; [apply (m_met Hm); by left| |done]. apply first_keep; [by apply m_info_met|done].
      * right. exists D. split_and!; [done| |done]. apply first_keep; [by apply m_info_ne|done].
    + left. assert (met u j) as Hu by (apply (m_met Hm); by right). destruct (Hmet Hu) as (D & HD & Hle).
      exists D. split_and!; [done|done|]. by rewrite (isdist_fun _ _ _ _ _ Ha Hw).
  - intros D v m d Hu Hn HD Hv Hd Hlt. apply m_mono. destruct (decide (met t j)) as [Hmt|Hmt].
    + destruct (p_met _ _ _ _ _ _ _ _ Hp Hmt) as (D0 & HD0 & _).
      pose proof (first_back _ _ _ _ _ (m_info_met j Hmt) HD0 HD) as ->. by eapply (p_ahead _ _ _ _ _ _ _ _ Hp).
    + apply (m_met Hm) in Hu as [|Hjw]; [done|]. apply first_new in HD; [|done..]. subst D.
      destruct (Hl2 w Hjw) as (b & Hb & Hble). pose proof (meet_distance _ _ _ _ _ _ Hw Hb Hd). apply (Hl1 v m); [done|lia].
  - intros D E d Hu Hu' HD HE Hd.
    assert (met u' k ∧ ∃ E0, first fl info j h' k E0) as [_ [E0 HE0]].
    { split; [done|]. destruct (p_met _ _ _ _ _ _ _ _ Hq Hu') as (E0 & HE0 & _). eauto. }
    pose proof (first_back _ _ _ _ _ (m_info_ne j k Hne) HE0 HE) as ->. destruct (decide (met t j)) as [Hmt|Hmt].
    + destruct (p_met _ _ _ _ _ _ _ _ Hp Hmt) as (D0 & HD0 & _).
      pose proof (first_back _ _ _ _ _ (m_info_met j Hmt) HD0 HD) as ->. by eapply (p_low _ _ _ _ _ _ _ _ Hp).
    + apply (m_met Hm) in Hu as [|Hjw]; [done|]. apply first_new in HD; [|done..]. subst D.
      destruct (decide (d ≤ S c + E0)%nat) as [|Hgt]; [done|]. destruct (m_new Hm).
      eapply (p_ahead _ _ _ _ _ _ _ _ Hq E0 w (S c) d); [done|done|done|done| |lia].
      apply isdist_sym; [apply (k_sym _ Hg)|done].
Qed.

Lemma mark_pair_right i h h' u' :
  i ≠ k → isdist nb h' w (S c) →
  pair_ok fl info i k h h' u' t → pair_ok fl info k i h' h t u' →
  pair_ok fl' info' i k h h' u' u.
Proof.
  intros Hne Hw Hp Hq. destruct (m_depth Hm) as [Hct Hcu].
  assert (∀ v, marked fl' i v → marked fl i v) as Hi by (intros v [|[-> _]]%(m_marked Hm); done).
  constructor.
  - intros Hu. destruct (p_met _ _ _ _ _ _ _ _ Hp Hu) as (D & HD & Hle & Hdone). exists D. split; [|done].
    apply first_keep; [by apply m_info_ne|done].
  - intros v a b Hv%Hi [Hvk|[_ ->]]%(m_marked Hm) Ha Hb.
    + destruct (p_seen _ _ _ _ _ _ _ _ Hp v a b Hv Hvk Ha Hb) as [(D & H1 & H2 & H3)|(D & H1 & H2 & H3)].
      * left. exists D. split_and!; [done| |done]. apply first_keep; [by apply m_info_ne|done].
      * right. exists D. split_and!; [apply (m_met Hm); by left| |done]. apply first_keep; [by apply m_info_met|done].
    + right. rewrite (isdist_fun _ _ _ _ _ Hb Hw). destruct (decide (met t i)) as [Hmt|Hmt].
      * destruct (p_met _ _ _ _ _ _ _ _ Hq Hmt) as (D & HD & Hle & _). exists D.
        split_and!; [apply (m_met Hm); by left| |lia]. apply first_keep; [by apply m_info_met|done].
      * exists (S c). split_and!; [apply (m_met Hm); by right|by apply first_new|done].
  - intros D v m d Hu Hn HD Hv Hd Hlt. apply m_mono.
    destruct (p_met _ _ _ _ _ _ _ _ Hp Hu) as (D0 & HD0 & _).
    pose proof (first_back _ _ _ _ _ (m_info_ne i k Hne) HD0 HD) as ->.
    eapply (p_ahead _ _ _ _ _ _ _ _ Hp); [done| |done..]. intros Hmt. apply Hn. apply (m_met Hm). by left.
  - intros D E d Hu' Hu HD HE Hd.
    destruct (p_met _ _ _ _ _ _ _ _ Hp Hu') as (D0 & HD0 & _).
    pose proof (first_back _ _ _ _ _ (m_info_ne i k Hne) HD0 HD) as ->. destruct (decide (met t i)) as [Hmt|Hmt].
    + destruct (p_met _ _ _ _ _ _ _ _ Hq Hmt) as (E0 & HE0 & _).
      pose proof (first_back _ _ _ _ _ (m_info_met i Hmt) HE0 HE) as ->. by eapply (p_low _ _ _ _ _ _ _ _ Hp).
    + apply (m_met Hm) in Hu as [|Hiw]; [done|]. apply first_new in HE; [|done..]. subst E.
      destruct (decide (d ≤ D0 + S c)%nat) as [|Hgt]; [done|]. destruct (m_new Hm).
      eapply (p_ahead _ _ _ _ _ _ _ _ Hp D0 w (S c) d); [done|done|done|done|done|lia].
Qed.

End mark.

(** [mark_vertex] *)
Lemma mark_vertex_marks i m t w todo :
  (i < n)%nat → (∀ v, 0 ≤ flag_of (flags m) v < 2 ^ 64) → ¬ marked (flags m) i w →
  let '(m', t') := mark_vertex i m t w todo in
  marks (flags m) (flags m') (visit_info m) (visit_info m') i w (curr_depth t) t t' ∧
  (∀ v, 0 ≤ flag_of (flags m') v < 2 ^ 64) ∧ visited_flag t' = Z.lor (visited_flag t) (flag_of (flags m) w).
Proof.
  intros Hin Hfl Hn. unfold mark_vertex. set (fb := flag_of (flags m) w) in *.
  set (nw := Z.land fb (Z.lnot (visited_flag t))). set (t' := match enqueue _ _ with Some _ => _ | None => _ end).
  assert (visited_flag t' = Z.lor (visited_flag t) nw ∧ curr_depth t' = curr_depth t ∧ t_pc t' ≠ TDone) as (Hv & Hc & Hpc)
    by (unfold t'; by destruct (enqueue _ _)).
  assert (0 ≤ nw < 2 ^ 64) as Hnw.
  { split; [apply Z.land_nonneg; left; apply Hfl|]. apply range_64; [|apply Z.land_nonneg; left; apply Hfl].
    intros k Hk. unfold nw. by rewrite Z.land_spec, (testbit_64 fb k (Hfl w) Hk). }
  assert (∀ k, 0 ≤ k → Z.testbit nw k = Z.testbit fb k && negb (Z.testbit (visited_flag t) k)) as Hbit.
  { intros k Hk. unfold nw. rewrite Z.land_spec, Z.lnot_spec by done. done. }
  split_and!.
  - constructor; cbn [flags visit_info]; try done.
    + intros j v. apply marked_insert.
    + intros j. unfold met, marked. rewrite Hv, Z.lor_spec, Hbit by lia. fold fb.
      destruct (Z.testbit (visited_flag t) (Z.of_nat j)), (Z.testbit fb (Z.of_nat j)); cbn; naive_solver.
    + intros a b. rewrite record_meetings_lookup by exact Hnw. rewrite Nat.sub_0_r, Hbit by lia.
      replace (Z.of_nat (curr_depth t) + 1) with (Z.of_nat (S (curr_depth t))) by lia.
      assert (bool_decide (a = i ∧ (0 ≤ b)%nat ∧ Z.testbit fb (Z.of_nat b) && negb (Z.testbit (visited_flag t) (Z.of_nat b)) = true) =
        bool_decide (a = i ∧ marked (flags m) b w ∧ ¬ met t b)) as ->; [|done].
      apply bool_decide_ext. unfold marked, met. fold fb. rewrite andb_true_iff, negb_true_iff, <- not_true_iff_false.
      split; [intros (? & _ & ? & ?)|intros (? & ? & ?)]; split_and!; try done; lia.
  - cbn [flags]. intros v. unfold flag_of. destruct (decide (v = w)) as [->|Hne].
    + rewrite lookup_insert_eq. cbn [from_option id]. assert (0 ≤ Z.lor fb (FLAG i)) as H0.
      { apply Z.lor_nonneg. split; [apply Hfl|unfold FLAG; lia]. }
      split; [done|]. apply range_64; [|done]. intros k Hk. rewrite Z.lor_spec, (testbit_64 fb k (Hfl w) Hk). cbn.
      unfold FLAG. rewrite Z.pow2_bits_eqb by lia. apply Z.eqb_neq. pose proof (k_max _ Hg). unfold MAX_NUM_HOUSE in *. lia.
    + rewrite lookup_insert_ne by done. apply Hfl.
  - rewrite Hv. apply Z.bits_inj'. intros k Hk. rewrite !Z.lor_spec, Hbit by done.
    destruct (Z.testbit (visited_flag t) k), (Z.testbit fb k); done.
Qed.

(** * The program *)

(** A search that has met all the others met the last of them at its last depth. *)
Definition last_ok (fl : gmap nat Z) (info : gmap (nat * nat) VisitInfo) (i h : nat) (t : thread) : Prop :=
  match t_pc t with
  | TInit | TFail => True
  | TDone => ∃ j, j ≠ i ∧ met t j ∧ first fl info i h j (curr_depth t)
  | TLoop | TCheck _ | TMark _ _ => visited_flag t = g_full_flag g →
      ∃ j, j ≠ i ∧ met t j ∧ first fl info i h j (S (curr_depth t))
  end.

Record inv (m : mem) (ths : list thread) : Prop := {
  v_len : length ths = n;
  v_flags v : 0 ≤ flag_of (flags m) v < 2 ^ 64;
  v_bits v j : marked (flags m) j v → (j < n)%nat;
  v_threads i t : ths !! i = Some t → ∃ h, g_house g !! i = Some h ∧ thread_ok (flags m) i h t ∧
    ((2 ≤ n)%nat → last_ok (flags m) (visit_info m) i h t);
  v_pairs i j h h' t t' : i ≠ j → ths !! i = Some t → ths !! j = Some t' →
    g_house g !! i = Some h → g_house g !! j = Some h' → pair_ok (flags m) (visit_info m) i j h h' t t';
}.

(** A step of search [i] that leaves the shared memory alone. *)
Lemma inv_local m ths i h t t' :
  inv m ths → ths !! i = Some t → g_house g !! i = Some h → thread_ok (flags m) i h t' →
  ((2 ≤ n)%nat → last_ok (flags m) (visit_info m) i h t') → (∀ k, k ≠ i → met t' k ↔ met t k) →
  (curr_depth t' = curr_depth t ∧ (t_pc t' = TDone → t_pc t = TDone) ∨ curr_depth t' = S (curr_depth t)) →
  inv m (<[i:=t']> ths).
Proof.
  intros Hi Ht Hh Hok Hlast Hmet Hc. constructor.
  - rewrite length_insert. apply Hi.
  - apply Hi.
  - apply Hi.
  - intros j u [[<- ->]|[_ Hj]]%lookup_insert_inv; [by exists h|by apply (v_threads _ _ Hi)].
  - assert (∀ k u h', i ≠ k → ths !! k = Some u → g_house g !! k = Some h' →
      pair_ok (flags m) (visit_info m) i k h h' t' u ∧ pair_ok (flags m) (visit_info m) k i h' h u t') as Hboth.
    { intros k u h' Hne Hk Hk'. split.
      - pose proof (v_pairs _ _ Hi i k h h' t u Hne Ht Hk Hh Hk') as Hp. destruct Hp as [P1 P2 P3 P4].
        assert (met t' k ↔ met t k) as He by by apply Hmet. constructor.
        + intros Hm%He. destruct (P1 Hm) as (D & HD & Hle & Hdone). exists D. split; [done|].
          destruct Hc as [[-> Hpc]| ->]; [split; [done|auto]|split; lia].
        + intros v a b H1 H2 H3 H4. destruct (P2 v a b H1 H2 H3 H4) as [(D & HD & ?)|(D & HD & ?)];
            [left|right]; exists D; (split; [|done]); [by apply He|done].
        + intros D v mm d Hm%He. by apply P3.
        + intros D E d Hm%He. by apply P4.
      - pose proof (v_pairs _ _ Hi k i h' h u t ltac:(done) Hk Ht Hk' Hh) as Hp. destruct Hp as [P1 P2 P3 P4].
        assert (met t' k ↔ met t k) as He by by apply Hmet. constructor.
        + done.
        + intros v a b H1 H2 H3 H4. destruct (P2 v a b H1 H2 H3 H4) as [(D & HD & ?)|(D & HD & ?)];
            [left|right]; exists D; (split; [|done]); [done|by apply He].
        + intros D v mm d Hm Hn. apply P3; [done|]. by rewrite <- He.
        + intros D E d Hm Hm'%He. by apply P4. }
    intros a b ha hb ta tb Hne [[<- ->]|[Hna Ha]]%lookup_insert_inv [[Hib ->]|[Hnb Hb]]%lookup_insert_inv Hga Hgb.
    + done.
    + assert (ha = h) as -> by congruence. by apply Hboth.
    + subst b. assert (hb = h) as -> by congruence. by apply Hboth.
    + by eapply (v_pairs _ _ Hi).
Qed.

(** The search that marks. *)
Lemma mark_thread_ok m ths i h t w todo m' t' :
  inv m ths → g_house g !! i = Some h → thread_ok (flags m) i h t → t_pc t = TMark w todo →
  mark_vertex i m t w todo = (m', t') → thread_ok (flags m') i h t'.
Proof.
  intros Hi Hh Hok Hpc Hmk. pose proof (t_state _ _ _ _ Hok) as Hst. rewrite Hpc in Hst.
  destruct Hst as (Hn & Lv & Nv & Hl). pose proof (new_depth _ _ _ _ _ _ _ _ Hl Hn) as Hd.
  assert (i < n)%nat as Hin by by eapply lookup_lt_Some.
  pose proof (mark_vertex_marks i m t w todo Hin (v_flags _ _ Hi) Hn) as Hmarks. rewrite Hmk in Hmarks.
  destruct Hmarks as (Hm & _ & Hvis). destruct (m_depth _ _ _ _ _ _ _ _ _ Hm) as [_ Hc].
  assert (∀ v, marked (flags m') i v ↔ marked (flags m) i v ∨ v = w) as Hmi.
  { intros v. rewrite (m_marked _ _ _ _ _ _ _ _ _ Hm). naive_solver. }
  assert (depth_fence t' = depth_fence t ∧ t_pc t' ≠ TInit ∧
    (t_pc t' = TFail ∨ t_pc t' = TCheck todo ∧ front t' = front t ∧ queue t' = queue t ++ [Z.of_nat w])) as (Hf & Hpi & Hq).
  { assert (t' = (mark_vertex i m t w todo).2) as -> by by rewrite Hmk. unfold mark_vertex, enqueue. cbn zeta. cbn [snd].
    destruct (Z.of_nat (length (queue t)) <? MAX_VERTICES); cbn [depth_fence t_pc front queue]; auto 6. }
  constructor.
  - rewrite Hc. destruct (t_levels _ _ _ _ Hok) as [H1 H2]. split; [intros v d Hv Hle; apply Hmi; left; eauto|].
    intros v [Hv| ->]%Hmi; [auto|eauto].
  - destruct Hq as [->|(-> & Hfr & Hqu)]; [done|]. exists Lv, (Nv ++ [w]). eapply mark_ok; eauto.
    destruct (l_queue _ _ _ _ _ _ _ Hl) as (F & _ & Hdr). destruct (decide (front t ≤ length (queue t))%nat) as [|Hgt]; [done|].
    rewrite drop_ge in Hdr by lia. destruct Lv; done.
  - intros _. rewrite Hf, Hc. apply (t_fences _ _ _ _ Hok). by rewrite Hpc.
  - destruct (t_visited _ _ _ _ Hok) as [Hv0 Hvj]. split; [rewrite Hvis; apply Z.lor_nonneg; split; [done|apply (v_flags _ _ Hi)]|].
    intros j [Hj|Hj]%(m_met _ _ _ _ _ _ _ _ _ Hm); [auto|]. by eapply (v_bits _ _ Hi).
  - intros _. apply (m_met _ _ _ _ _ _ _ _ _ Hm). left. apply (t_own _ _ _ _ Hok). by rewrite Hpc.
Qed.

Lemma mark_last_ok m ths i h t w todo m' t' :
  inv m ths → g_house g !! i = Some h → thread_ok (flags m) i h t → last_ok (flags m) (visit_info m) i h t →
  t_pc t = TMark w todo → mark_vertex i m t w todo = (m', t') → last_ok (flags m') (visit_info m') i h t'.
Proof.
  intros Hi Hh Hok Hlast Hpc Hmk. pose proof (t_state _ _ _ _ Hok) as Hst. rewrite Hpc in Hst.
  destruct Hst as (Hn & Lv & Nv & Hl). pose proof (new_depth _ _ _ _ _ _ _ _ Hl Hn) as Hd.
  assert (i < n)%nat as Hin by by eapply lookup_lt_Some.
  pose proof (mark_vertex_marks i m t w todo Hin (v_flags _ _ Hi) Hn) as Hmarks. rewrite Hmk in Hmarks.
  destruct Hmarks as (Hm & _ & Hvis). destruct (m_depth _ _ _ _ _ _ _ _ _ Hm) as [_ Hc].
  assert (visited_flag t' = g_full_flag g → ∃ j, j ≠ i ∧ met t' j ∧ first (flags m') (visit_info m') i h j (S (curr_depth t'))) as Hgoal.
  { intros Hfull. rewrite Hc. unfold last_ok in Hlast. rewrite Hpc in Hlast.
    destruct (decide (visited_flag t = g_full_flag g)) as [Hv|Hv].
    - destruct (Hlast Hv) as (j & Hj & Hmj & HD). exists j. split_and!; [done|apply (m_met _ _ _ _ _ _ _ _ _ Hm); by left|].
      eapply first_keep; [done|by eapply m_info_met|done].
    - destruct (decide (Exists (λ j, marked (flags m) j w ∧ ¬ met t j) (seq 0 n))) as [He|He].
      + apply Exists_exists in He as (j & _ & Hjm & Hjn). exists j. split_and!.
        * intros ->. apply Hjn. apply (t_own _ _ _ _ Hok). by rewrite Hpc.
        * apply (m_met _ _ _ _ _ _ _ _ _ Hm). by right.
        * by eapply first_new.
      + destruct Hv. rewrite <- Hfull, Hvis. apply Z.bits_inj'. intros k Hk. rewrite Z.lor_spec.
        destruct (Z.testbit (visited_flag t) k) eqn:Hb; [done|]. cbn. symmetry. apply not_true_iff_false. intros Hbit. apply He.
        apply Exists_exists. exists (Z.to_nat k). unfold marked, met. rewrite Z2Nat.id by done. split; [|split; [done|by rewrite Hb]].
        apply elem_of_seq. split; [lia|]. apply (v_bits _ _ Hi w). unfold marked. by rewrite Z2Nat.id. }
  assert (t_pc t' = TFail ∨ t_pc t' = TCheck todo) as Hp.
  { assert (t' = (mark_vertex i m t w todo).2) as -> by by rewrite Hmk. unfold mark_vertex, enqueue. cbn zeta. cbn [snd].
    destruct (Z.of_nat (length (queue t)) <? MAX_VERTICES); cbn [t_pc]; auto. }
  unfold last_ok. by destruct Hp as [->| ->].
Qed.

(** The marking of a vertex. *)
Lemma inv_mark m ths i h t w todo m' t' :
  inv m ths → ths !! i = Some t → g_house g !! i = Some h → t_pc t = TMark w todo →
  mark_vertex i m t w todo = (m', t') → inv m' (<[i:=t']> ths).
Proof.
  intros Hi Ht Hh Hpc Hmk. destruct (v_threads _ _ Hi i t Ht) as (h0 & Hh0 & Hok & Hlast).
  assert (h0 = h) as -> by congruence. pose proof (t_state _ _ _ _ Hok) as Hst. rewrite Hpc in Hst.
  destruct Hst as (Hn & Lv & Nv & Hl). pose proof (new_depth _ _ _ _ _ _ _ _ Hl Hn) as Hd.
  assert (i < n)%nat as Hin by by eapply lookup_lt_Some.
  pose proof (mark_vertex_marks i m t w todo Hin (v_flags _ _ Hi) Hn) as Hmarks. rewrite Hmk in Hmarks.
  destruct Hmarks as (Hm & Hfl' & Hvis).
  assert (∀ j v, j ≠ i → marked (flags m') j v ↔ marked (flags m) j v) as Hfr.
  { intros j v Hne. rewrite (m_marked _ _ _ _ _ _ _ _ _ Hm). naive_solver. }
  constructor.
  - rewrite length_insert. apply Hi.
  - done.
  - intros v j [Hj|[-> _]]%(m_marked _ _ _ _ _ _ _ _ _ Hm); [by eapply (v_bits _ _ Hi)|done].
  - intros j u [[<- ->]|[Hne Hj]]%lookup_insert_inv.
    + exists h. split; [done|]. split.
      * by eapply mark_thread_ok.
      * intros H2. by eapply mark_last_ok; eauto.
    + destruct (v_threads _ _ Hi j u Hj) as (hj & Hhj & Hokj & Hlastj). exists hj. split; [done|]. split.
      * eapply thread_frame; [|done]. intros v. by apply Hfr.
      * intros H2. specialize (Hlastj H2). unfold last_ok in *.
        assert (∀ k D, first (flags m) (visit_info m) j hj k D → first (flags m') (visit_info m') j hj k D) as Hk.
        { intros k D. eapply first_keep; [done|]. eapply m_info_ne; [done|]. done. }
        destruct (t_pc u); try done; naive_solver.
  - intros a b ha hb ta tb Hne [[<- ->]|[Hna Ha]]%lookup_insert_inv [[Hib ->]|[Hnb Hb]]%lookup_insert_inv Hga Hgb.
    + done.
    + assert (ha = h) as -> by congruence. destruct (v_threads _ _ Hi b tb Hb) as (hb' & Hhb' & Hokb & _).
      assert (hb' = hb) as -> by congruence.
      eapply mark_pair_left; [done|done|done|apply Hokb| |]; by eapply (v_pairs _ _ Hi).
    + subst b. assert (hb = h) as -> by congruence.
      eapply mark_pair_right; [done|done|done| |]; by eapply (v_pairs _ _ Hi).
    + eapply pair_frame; [| | | |by eapply (v_pairs _ _ Hi)].
      * intros v. by apply Hfr.
      * intros v. by apply Hfr.
      * eapply m_info_ne; [done|]. done.
      * eapply m_info_ne; [done|]. done.
Qed.

Lemma land_FLAG x i : (Z.land x (FLAG i) =? 0) = negb (Z.testbit x (Z.of_nat i)).
Proof.
  destruct (Z.testbit x (Z.of_nat i)) eqn:Hb; cbn.
  - apply Z.eqb_neq. intros H. assert (Z.testbit (Z.land x (FLAG i)) (Z.of_nat i) = false) as Hf by (rewrite H; apply Z.bits_0).
    rewrite Z.land_spec, Hb, FLAG_testbit, bool_decide_eq_true_2 in Hf by done. done.
  - apply Z.eqb_eq. apply Z.bits_inj'. intros k Hk. rewrite Z.land_spec, Z.bits_0. unfold FLAG. rewrite Z.pow2_bits_eqb by lia.
    destruct (Z.eqb_spec (Z.of_nat i) k) as [<-|]; [by rewrite Hb|apply andb_false_r].
Qed.

(** Places inside the loop: the same obligations towards the others. *)
Lemma last_move fl info i h t t' :
  last_ok fl info i h t → t_pc t ≠ TInit → t_pc t ≠ TDone → t_pc t ≠ TFail → t_pc t' ≠ TDone →
  visited_flag t' = visited_flag t → curr_depth t' = curr_depth t → last_ok fl info i h t'.
Proof.
  intros Hl H1 H2 H3 H4 Hv Hc. unfold last_ok in *. unfold met in *. rewrite Hv, Hc.
  destruct (t_pc t), (t_pc t'); done.
Qed.

Lemma level_front fl i h t Lv Nv todo : level_ok fl i h t Lv Nv todo → is_Some (queue t !! front t).
Proof.
  intros Hl. destruct (l_queue _ _ _ _ _ _ _ Hl) as (F & _ & Hdr). destruct Lv as [|v Lv].
  - cbn in Hdr. apply drop_cons in Hdr as [-> _]. eauto.
  - rewrite fmap_cons in Hdr. apply drop_cons in Hdr as [-> _]. eauto.
Qed.

Lemma dequeue_last fl info i h t :
  is_Some (queue t !! front t) → last_ok fl info i h t → t_pc t = TLoop → last_ok fl info i h (dequeue g t).
Proof.
  intros [z Hq] Hl Hpc. unfold dequeue. rewrite Hq.
  destruct (MAX_DEPTH <=? z); [|eapply last_move; eauto; by rewrite Hpc].
  unfold enqueue. destruct (_ <? _); [|done]. unfold last_ok in *. rewrite Hpc in Hl. cbn.
  destruct (Z.eqb_spec (visited_flag t) (g_full_flag g)) as [He|He]; [by apply Hl|]. intros He'. congruence.
Qed.

(** A search makes a step. *)
Lemma inv_thread m ths i t m' t' :
  inv m ths → ths !! i = Some t → FindMinMaxPath g i m t = Some (m', t') → inv m' (<[i:=t']> ths).
Proof.
  intros Hi Ht Hs. destruct (v_threads _ _ Hi i t Ht) as (h & Hh & Hok & Hlast). unfold FindMinMaxPath in Hs.
  pose proof (t_state _ _ _ _ Hok) as Hst.
  destruct (t_pc t) as [| |[|w todo]|w todo| |] eqn:Hpc; try done.
  - destruct (start_path g i) as [t2|] eqn:Hst2; [|done]. cbn [mbind option_bind] in Hs. injection Hs as <- <-.
    destruct (start_ok (flags m) i h t t2 Hh Hok Hpc Hst2) as (Hok' & Hv & Hn1 & Hn2 & Hc). destruct Hst as [-> _].
    eapply inv_local; try done.
    + intros H2. unfold last_ok. assert (visited_flag t2 ≠ g_full_flag g) as Hne.
      { intros He. pose proof (k_full _ Hg (if decide (i = 0%nat) then 1 else 0)%nat) as Hf. rewrite <- He, Hv, FLAG_testbit in Hf.
        destruct (decide (i = 0%nat)); rewrite bool_decide_eq_false_2, bool_decide_eq_true_2 in Hf by lia; done. }
      by destruct (t_pc t2).
    + intros k Hk. unfold met. rewrite Hv, FLAG_testbit, bool_decide_eq_false_2 by done. cbn. by rewrite Z.bits_0.
    + left. split; [done|]. by intros.
  - injection Hs as <- <-. destruct Hst as (Lv & Nv & Hl).
    destruct (dequeue_ok (flags m) i h t Hh Hok Hpc) as (Hok' & Hv & Hn1 & Hc).
    eapply inv_local; try done.
    + intros H2. apply dequeue_last; [by eapply level_front|auto|done].
    + intros k _. unfold met. by rewrite Hv.
    + destruct Hc as [[Hc Hp]|Hc]; [left; split; [done|done]|by right].
  - injection Hs as <- <-. destruct Hst as (Lv & Nv & Hl). eapply inv_local; try done.
    + constructor; cbn; try apply Hok; [|intros _; apply (t_fences _ _ _ _ Hok); by rewrite Hpc|intros _; apply (t_own _ _ _ _ Hok); by rewrite Hpc].
      exists Lv, Nv. destruct Hl. by constructor.
    + intros H2. eapply last_move; [by apply Hlast|by rewrite Hpc..|done|done|done].
    + by left.
  - injection Hs as <- <-. destruct Hst as (Lv & Nv & Hl). rewrite land_FLAG.
    set (t' := MkThread _ _ _ _ _ _). assert (thread_ok (flags m) i h t') as Hok'.
    { constructor; cbn; try apply Hok; [|intros _; apply (t_fences _ _ _ _ Hok); by rewrite Hpc|intros _; apply (t_own _ _ _ _ Hok); by rewrite Hpc].
      destruct (Z.testbit (flag_of (flags m) w) (Z.of_nat i)) eqn:Hb; cbn.
      - exists Lv, Nv. by eapply skip_ok.
      - split; [unfold marked; by rewrite Hb|]. exists Lv, Nv. destruct Hl. by constructor. }
    eapply inv_local; try done.
    + intros H2. eapply last_move; [by apply Hlast|by rewrite Hpc..| |done|done]. cbn. by destruct (negb _).
    + left. split; [done|]. cbn. by destruct (negb _).
  - apply (f_equal (from_option id (m, t))) in Hs. by apply (inv_mark m ths i h t w todo).
Qed.

Lemma search_inv_init : inv (Mem (g_vertex_flag g) ∅) (replicate n new_thread).
Proof.
  constructor; cbn [flags visit_info].
  - apply length_replicate.
  - apply (k_flag_range _ Hg).
  - intros v j Hm. unfold marked in Hm. rewrite (k_flag _ Hg) in Hm. apply bool_decide_eq_true in Hm. by eapply lookup_lt_Some.
  - intros i t Ht. apply lookup_replicate in Ht as [-> Hi]. destruct (lookup_lt_is_Some_2 (g_house g) i Hi) as [h Hh].
    exists h. split; [done|]. split; [|done].
    assert (∀ v, marked (g_vertex_flag g) i v ↔ v = h) as Hm.
    { intros v. unfold marked. rewrite (k_flag _ Hg), bool_decide_eq_true, Hh. naive_solver. }
    constructor; cbn; try done.
    + split; [intros v d Hd Hle; apply Hm; assert (d = 0%nat) as -> by lia; by apply isdist_zero in Hd|].
      intros v ->%Hm. exists 0%nat. split; [apply isdist_self|lia].
    + split; [lia|]. intros j Hj. unfold met in Hj. cbn in Hj. by rewrite Z.bits_0 in Hj.
  - intros i j h h' t t' Hne [-> _]%lookup_replicate [-> _]%lookup_replicate. by apply pair_init.
Qed.

(** What main knows of the threads it has joined. *)
Definition main_ok (s : state) : Prop :=
  match s_main s with
  | MCreate _ => True
  | MJoin k => ∀ i t, s_threads s !! i = Some t → (i < k)%nat → t_pc t = TDone
  | MExit out => (∀ i t, s_threads s !! i = Some t → t_pc t = TDone) ∧
      out = MakeResult n (visit_info (s_mem s)) (s_threads s)
  end.

Lemma search_step_ok s s' : inv (s_mem s) (s_threads s) ∧ main_ok s → step g s s' → inv (s_mem s') (s_threads s') ∧ main_ok s'.
Proof.
  intros [Hi Hm] [[i|] Hn]; cbn [next] in Hn.
  - destruct (i <? s_started s)%nat; [|done]. destruct (s_threads s !! i) as [t|] eqn:Ht; [|done]. cbn [mbind option_bind] in Hn.
    destruct (FindMinMaxPath g i (s_mem s) t) as [[m' t']|] eqn:Hf; [|done]. injection Hn as <-.
    pose proof (inv_thread _ _ _ _ _ _ Hi Ht Hf) as Hi'. split; [done|].
    assert (t_pc t ≠ TDone) as Hnd by (intros He; unfold FindMinMaxPath in Hf; by rewrite He in Hf).
    unfold main_ok in *. cbn. destruct (s_main s) as [|k|]; [done|..].
    + intros j u [[<- ->]|[_ Hj]]%lookup_insert_inv Hlt; [by specialize (Hm _ _ Ht Hlt)|eauto].
    + destruct Hm as [Hall _]. by specialize (Hall _ _ Ht).
  - destruct s as [m ths k mp]. unfold main_ok in Hm. unfold main_step in Hn. cbn [s_mem s_threads s_main] in *.
    destruct mp as [j|j|]; [..|done].
    + destruct (j <? length ths)%nat; injection Hn as <-; (split; [done|]); [done|]. unfold main_ok. cbn. intros; lia.
    + destruct (ths !! j) as [t|] eqn:Ht.
      * destruct (t_pc t) eqn:Hpc; try done. injection Hn as <-. split; [done|]. unfold main_ok. cbn.
        intros i u Hu Hlt. destruct (decide (i = j)) as [->|]; [congruence|]. apply (Hm i u Hu). lia.
      * injection Hn as <-. split; [done|]. unfold main_ok. cbn. rewrite <- (v_len _ _ Hi). split; [|done].
        intros i u Hu. apply (Hm i u Hu). apply lookup_lt_Some in Hu. apply lookup_ge_None in Ht. lia.
Qed.

Lemma search_reachable_inv s : reachable (init g) (step g) s → inv (s_mem s) (s_threads s) ∧ main_ok s.
Proof.
  apply (reachable_invariant _ _ (λ s, inv (s_mem s) (s_threads s) ∧ main_ok s)); [split; [apply search_inv_init|done]|apply search_step_ok].
Qed.

(** The depths of two searches that have met each other. *)
Lemma meeting_depths m ths i j h h' t t' :
  inv m ths → i ≠ j → ths !! i = Some t → ths !! j = Some t' → g_house g !! i = Some h → g_house g !! j = Some h' →
  met t j → met t' i → ∃ d D E, isdist nb h h' d ∧ first (flags m) (visit_info m) i h j D ∧
    first (flags m) (visit_info m) j h' i E ∧ (D ≤ curr_depth t + 1)%nat ∧ (E ≤ curr_depth t' + 1)%nat ∧ (d ≤ D + E ≤ d + 1)%nat.
Proof.
  intros Hi Hij Ht Ht' Hh Hh' Hm Hm'.
  pose proof (v_pairs _ _ Hi i j h h' t t' Hij Ht Ht' Hh Hh') as Hp.
  pose proof (v_pairs _ _ Hi j i h' h t' t ltac:(done) Ht' Ht Hh' Hh) as Hq.
  destruct (p_met _ _ _ _ _ _ _ _ Hp Hm) as (D & HD & HDle & _). destruct (p_met _ _ _ _ _ _ _ _ Hq Hm') as (E & HE & HEle & _).
  destruct (v_threads _ _ Hi i t Ht) as (? & Hh2 & Hok & _). destruct (v_threads _ _ Hi j t' Ht') as (? & Hh2' & Hok' & _). simplify_eq.
  destruct (t_levels _ _ _ _ Hok) as [L1 L2]. destruct (t_levels _ _ _ _ Hok') as [L1' L2'].
  assert (∃ d, isdist nb h h' d) as [d Hd].
  { destruct HD as (_ & v & _ & [Hw _] & Hv). destruct (L2' v Hv) as (b & [Hb _] & _).
    destruct (walk_isdist nb (D + b) h h') as (d & Hd & _); [|eauto].
    apply (walk_app _ _ _ _ v); [done|]. apply walk_sym; [apply (k_sym _ Hg)|done]. }
  exists d, D, E. split_and!; [done..|lia|lia| |].
  - by eapply (p_low _ _ _ _ _ _ _ _ Hp).
  - destruct (decide (D + E ≤ d + 1)%nat) as [|Hgt]; [done|]. exfalso.
    assert (∀ v a b, isdist nb h v a → isdist nb h' v b → (a < D)%nat → (b < E)%nat → False) as Hno.
    { intros v a b Ha Hb Hla Hlb. assert (marked (flags m) i v) as Mi by (apply (L1 v a Ha); lia).
      assert (marked (flags m) j v) as Mj by (apply (L1' v b Hb); lia).
      destruct (p_seen _ _ _ _ _ _ _ _ Hp v a b Mi Mj Ha Hb) as [(D' & _ & HD' & Hle)|(E' & _ & HE' & Hle)].
      - pose proof (first_fun _ _ _ _ _ _ _ _ HD HD'). lia.
      - pose proof (first_fun _ _ _ _ _ _ _ _ HE HE'). lia. }
    destruct (decide (D ≤ d + 1)%nat) as [HDd|HDd].
    + destruct D as [|D]; [by destruct HD; lia|].
      destruct (split_shortest nb h h' d D Hd ltac:(lia)) as (v & Hv1 & Hv2).
      eapply (Hno v D (d - D)%nat); [done| |lia|lia]. apply isdist_sym; [apply (k_sym _ Hg)|done].
    + eapply (Hno h' d 0%nat); [done|apply isdist_self|lia|]. by destruct HE.
Qed.

End invariant.

(** * Reading the graph *)

(** The neighbours an edge adds to [x]. *)
Definition edge_row (x : nat) (e : nat * nat) : list nat :=
  (if bool_decide (e.1 = x) then [e.2] else []) ++ (if bool_decide (e.2 = x) then [e.1] else []).

Fixpoint add_edges (gr : gmap nat (list nat)) (es : list (nat * nat)) : option (gmap nat (list nat)) :=
  match es with [] => Some gr | (v, w) :: es => gr ← add_neighbor gr v w; gr ← add_neighbor gr w v; add_edges gr es end.

Lemma add_neighbor_ok gr v w :
  (length (row gr v) < MAX_EDGE_PER_VERTEX)%nat →
  ∃ gr', add_neighbor gr v w = Some gr' ∧ ∀ x, row gr' x = row gr x ++ (if bool_decide (v = x) then [w] else []).
Proof.
  intros Hl. unfold add_neighbor. rewrite (proj2 (Nat.ltb_lt _ _) Hl). eexists. split; [done|]. intros x.
  unfold row at 1. destruct (decide (v = x)) as [->|Hne].
  - rewrite lookup_insert_eq, bool_decide_eq_true_2 by done. done.
  - rewrite lookup_insert_ne, bool_decide_eq_false_2, app_nil_r by done. done.
Qed.

Lemma add_edges_ok gr es :
  (∀ x, length (row gr x ++ (es ≫= edge_row x)) ≤ MAX_EDGE_PER_VERTEX)%nat →
  ∃ gr', add_edges gr es = Some gr' ∧ ∀ x, row gr' x = row gr x ++ (es ≫= edge_row x).
Proof.
  revert gr. induction es as [|[v w] es IH]; intros gr Hd.
  { exists gr. split; [done|]. intros x. cbn. by rewrite app_nil_r. }
  destruct (add_neighbor_ok gr v w) as (gr1 & H1 & R1).
  { specialize (Hd v). rewrite bind_cons in Hd. unfold edge_row at 1 in Hd. cbn [fst snd] in Hd.
    rewrite (bool_decide_eq_true_2 (v = v)), !length_app in Hd by done. cbn in Hd. lia. }
  destruct (add_neighbor_ok gr1 w v) as (gr2 & H2 & R2).
  { specialize (Hd w). rewrite bind_cons in Hd. unfold edge_row at 1 in Hd. cbn [fst snd] in Hd.
    rewrite (bool_decide_eq_true_2 (w = w)), !length_app in Hd by done. rewrite R1, length_app. cbn in Hd. lia. }
  cbn [add_edges]. rewrite H1. cbn [mbind option_bind]. rewrite H2. cbn [mbind option_bind].
  assert (∀ x, row gr2 x = row gr x ++ edge_row x (v, w)) as R.
  { intros x. unfold edge_row. cbn [fst snd]. by rewrite R2, R1, <- app_assoc. }
  destruct (IH gr2) as (gr' & H3 & R3).
  { intros x. specialize (Hd x). rewrite bind_cons in Hd. by rewrite R, <- app_assoc. }
  exists gr'. split; [done|]. intros x. by rewrite R3, R, bind_cons, <- app_assoc.
Qed.

Lemma add_edges_app4 gr es es' : add_edges gr (es ++ es') = (gr' ← add_edges gr es; add_edges gr' es').
Proof.
  revert gr. induction es as [|[v w] es IH]; intros gr; [done|]. cbn.
  destruct (add_neighbor gr v w) as [gr1|]; [|done]. cbn. destruct (add_neighbor gr1 w v); [|done]. cbn. apply IH.
Qed.

Lemma vertex_of_nat v : Z.of_nat v ≤ MAX_VERTICES → vertex (Z.of_nat v) = Some v.
Proof.
  intros Hv. unfold vertex. rewrite (proj2 (Z.leb_le 0 _)), (proj2 (Z.leb_le _ MAX_VERTICES)) by lia. cbn. by rewrite Nat2Z.id.
Qed.

Definition in_range (v : nat) : Prop := Z.of_nat v ≤ MAX_VERTICES.

Lemma read_houses_print hs ts :
  Forall in_range hs → read_houses (length hs) ((Z.of_nat <$> hs) ++ ts) = Some (hs, ts).
Proof.
  induction 1 as [|h hs Hh Hhs IH]; [done|]. cbn. rewrite vertex_of_nat by done. cbn in *. by rewrite IH.
Qed.

Lemma read_edges_print v ns ts gr :
  Forall in_range ns →
  read_edges (length ns) v ((Z.of_nat <$> ns) ++ ts) gr = (gr' ← add_edges gr (line_edges (v, ns)); Some (gr', ts)).
Proof.
  intros Hns. revert gr. induction Hns as [|w ns Hw Hns IH]; intros gr; [done|]. cbn. rewrite vertex_of_nat by done. cbn.
  destruct (add_neighbor gr v w) as [gr1|]; [|done]. cbn. destruct (add_neighbor gr1 w v); [|done]. cbn. apply IH.
Qed.

Lemma read_edge_lists_print lines gr :
  Forall (λ l, in_range l.1 ∧ Forall in_range l.2) lines →
  read_edge_lists (length lines) (concat (print_line <$> lines)) gr = add_edges gr (edges lines).
Proof.
  intros Hl. revert gr. induction Hl as [|[v ns] lines [Hv Hns] Hl IH]; intros gr; [done|]. cbn in Hv, Hns.
  change (edges ((v, ns) :: lines)) with (line_edges (v, ns) ++ edges lines). rewrite add_edges_app4.
  cbn [length read_edge_lists fmap list_fmap concat print_line app fst snd].
  rewrite vertex_of_nat by done. cbn. rewrite Nat2Z.id, read_edges_print by done.
  change ((λ w : nat, (v, w)) <$> ns) with (line_edges (v, ns)).
  destruct (add_edges gr (line_edges (v, ns))) as [gr'|]; [|done]. cbn. apply IH.
Qed.

Lemma mark_houses_flag k hs fl full v :
  NoDup hs → flag_of (mark_houses k hs fl full).1 v =
    match list_find (λ h, h = v) hs with Some (i, _) => FLAG (k + i) | None => flag_of fl v end.
Proof.
  revert k fl full. induction hs as [|h hs IH]; intros k fl full Hnd; [done|]. apply NoDup_cons in Hnd as [Hn Hnd].
  cbn [mark_houses]. rewrite IH by done. cbn [list_find]. destruct (decide (h = v)) as [->|Hne].
  - destruct (list_find (λ h, h = v) hs) as [[i x]|] eqn:Hf.
    + apply list_find_Some in Hf as (Hi & -> & _). destruct Hn. by eapply list_elem_of_lookup_2.
    + unfold flag_of. rewrite lookup_insert_eq. cbn. by rewrite Nat.add_0_r.
  - destruct (list_find (λ h, h = v) hs) as [[i x]|] eqn:Hf; cbn; [f_equal; lia|].
    unfold flag_of. by rewrite lookup_insert_ne.
Qed.

Lemma mark_houses_full k hs fl full j :
  Z.testbit (mark_houses k hs fl full).2 (Z.of_nat j) =
    (Z.testbit full (Z.of_nat j) || bool_decide (k ≤ j < k + length hs)%nat).
Proof.
  revert k fl full. induction hs as [|h hs IH]; intros k fl full; cbn [mark_houses snd].
  - rewrite bool_decide_eq_false_2 by (cbn; lia). by rewrite orb_false_r.
  - rewrite IH, Z.lor_spec, FLAG_testbit, <- orb_assoc. f_equal. cbn [length].
    destruct (decide (k = j)) as [->|Hne].
    + rewrite (bool_decide_eq_true_2 (j = j)), (bool_decide_eq_true_2 (j ≤ j < _)%nat) by lia. done.
    + rewrite (bool_decide_eq_false_2 (k = j)) by done. cbn. apply bool_decide_ext. lia.
Qed.

Lemma mark_houses_full_range k hs fl full : 0 ≤ full → 0 ≤ (mark_houses k hs fl full).2.
Proof.
  revert k fl full. induction hs as [|h hs IH]; intros k fl full Hf; [done|]. cbn [mark_houses].
  apply IH. apply Z.lor_nonneg. split; [done|unfold FLAG; lia].
Qed.

(** The inputs: vertices in range, at most ten neighbours each, at most 64 different houses. *)
Record input_ok (hs : list nat) (lines : list (nat * list nat)) : Prop := {
  in_houses : Forall in_range hs;
  in_lines : Forall (λ l, in_range l.1 ∧ Forall in_range l.2) lines;
  in_degree x : (length (edges lines ≫= edge_row x) ≤ MAX_EDGE_PER_VERTEX)%nat;
  in_nodup : NoDup hs;
  in_max : (length hs ≤ MAX_NUM_HOUSE)%nat;
}.

Lemma elem_of_edge_row x y es : y ∈ es ≫= edge_row x ↔ (x, y) ∈ es ∨ (y, x) ∈ es.
Proof.
  rewrite list_elem_of_bind. unfold edge_row. split.
  - intros ([v w] & Hin & He). cbn in Hin. apply elem_of_app in Hin as [Hin|Hin]; case_bool_decide; subst;
      [apply list_elem_of_singleton in Hin as ->; by left|by apply not_elem_of_nil in Hin
      |apply list_elem_of_singleton in Hin as ->; by right|by apply not_elem_of_nil in Hin].
  - intros [He|He]; eexists; (split; [|exact He]); cbn; apply elem_of_app.
    + left. rewrite bool_decide_eq_true_2 by done. set_solver.
    + right. rewrite bool_decide_eq_true_2 by done. set_solver.
Qed.

Lemma edges_in_range lines v w :
  Forall (λ l, in_range l.1 ∧ Forall in_range l.2) lines → (v, w) ∈ edges lines → in_range v ∧ in_range w.
Proof.
  induction 1 as [|[u ns] lines [Hu Hns] _ IH]; [by intros ?%not_elem_of_nil|].
  change (edges ((u, ns) :: lines)) with (line_edges (u, ns) ++ edges lines). intros [Hin|Hin]%elem_of_app; [|auto].
  unfold line_edges in Hin. apply list_elem_of_fmap in Hin as (y & [= -> ->] & Hy). cbn in *.
  rewrite Forall_forall in Hns. auto.
Qed.

Lemma full_range hs : (length hs ≤ MAX_NUM_HOUSE)%nat → 0 ≤ (mark_houses 0 hs ∅ 0).2 < 2 ^ 64.
Proof.
  intros Hmax. pose proof (mark_houses_full_range 0 hs ∅ 0 ltac:(lia)) as H0. split; [done|].
  apply range_64; [|done]. intros i Hi. rewrite <- (Z2Nat.id i) by lia. rewrite mark_houses_full, Z.bits_0.
  apply bool_decide_eq_false_2. unfold MAX_NUM_HOUSE in Hmax. lia.
Qed.

(** What the input gives. *)
Lemma InputGraph_ok hs nv lines :
  input_ok hs lines → ∃ g, InputGraph (print_input hs nv lines) = Some g ∧ graph_ok g ∧ g_house g = hs ∧
    ∀ v w, w ∈ row (g_graph g) v ↔ (v, w) ∈ edges lines ∨ (w, v) ∈ edges lines.
Proof.
  intros Hin. destruct (add_edges_ok ∅ (edges lines)) as (gr & Hgr & Hrow); [intros x; apply Hin|].
  pose proof (full_range hs (in_max _ _ Hin)) as Hfull.
  pose proof (mark_houses_full 0 hs ∅ 0) as Hbits.
  pose proof (λ v, mark_houses_flag 0 hs ∅ 0 v (in_nodup _ _ Hin)) as Hflag.
  destruct (mark_houses 0 hs ∅ 0) as [fl full] eqn:Hmk. cbn [fst snd] in *.
  exists (MkGraph hs gr fl full).
  assert (∀ v w, w ∈ row gr v ↔ (v, w) ∈ edges lines ∨ (w, v) ∈ edges lines) as Hedge
    by (intros v w; rewrite Hrow; apply elem_of_edge_row).
  split_and!; [| |done|done].
  - unfold print_input, InputGraph. rewrite (proj2 (Z.ltb_ge _ _)) by (pose proof (in_max _ _ Hin); lia).
    rewrite Nat2Z.id, read_houses_print by apply Hin. cbn [mbind option_bind]. rewrite Hmk.
    by rewrite Nat2Z.id, read_edge_lists_print, Hgr by apply Hin.
  - constructor; cbn [g_house g_graph g_vertex_flag g_full_flag].
    + intros h Hh. pose proof (in_houses _ _ Hin) as Hr. rewrite Forall_forall in Hr. by apply Hr.
    + apply Hin.
    + apply Hin.
    + intros v i. rewrite Hflag. destruct (list_find (λ h, h = v) hs) as [[k x]|] eqn:Hf.
      * apply list_find_Some in Hf as (Hk & -> & _). rewrite FLAG_testbit. apply bool_decide_ext. cbn.
        split; [by intros <-|]. intros Hi. by eapply (NoDup_lookup hs); [apply Hin|..].
      * unfold flag_of. cbn. rewrite Z.bits_0, bool_decide_eq_false_2; [done|]. intros Hi.
        apply list_find_None in Hf. rewrite Forall_lookup in Hf. by apply (Hf i v).
    + intros v. rewrite Hflag. destruct (list_find (λ h, h = v) hs) as [[k x]|] eqn:Hf; [|change (flag_of ∅ v) with 0; lia].
      apply list_find_Some in Hf as (Hk%lookup_lt_Some & _). pose proof (in_max _ _ Hin) as Hm. unfold MAX_NUM_HOUSE in Hm.
      unfold FLAG. split; [lia|]. apply Z.pow_lt_mono_r; lia.
    + intros i. rewrite Hbits, Z.bits_0. cbn. apply bool_decide_ext. lia.
    + done.
    + intros v w [Hw|Hw]%Hedge; by apply (edges_in_range lines _ _ (in_lines _ _ Hin)) in Hw as [? ?].
    + intros v w. rewrite !Hedge. tauto.
Qed.

(** * Theorems *)

(** Graphs with vertices below 2^16, whose depths fit a [uint16_t]. *)
Definition small (g : Graph) : Prop :=
  (∀ h, h ∈ g_house g → Z.of_nat h < 2 ^ 16) ∧ ∀ v w, w ∈ row (g_graph g) v → Z.of_nat w < 2 ^ 16.

Lemma small_dist g i h v d : small g → g_house g !! i = Some h → isdist (row (g_graph g)) h v d → Z.of_nat d < 2 ^ 16.
Proof.
  intros [Hs1 Hs2] Hi Hd. assert (d ≤ Z.to_nat (2 ^ 16 - 1))%nat; [|lia].
  eapply (isdist_bound (row (g_graph g)) h); [|exact Hd]. intros m u Hw.
  assert (Z.of_nat u < 2 ^ 16); [|lia]. destruct Hw as [u|m u v' w Hw Hin]; [|by eapply Hs2].
  apply Hs1. by eapply list_elem_of_lookup_2.
Qed.

(** The recorded depth of a first meeting is a [uint16_t]. *)
Lemma first_depth g fl info i h j D :
  first g fl info i h j D → depth (visit info i j) = u16 (Z.of_nat D).
Proof. intros (_ & v & Hv & Hd & _). unfold visit. by rewrite Hv. Qed.

Lemma small_first_depth g fl info i h j D :
  small g → g_house g !! i = Some h → first g fl info i h j D → depth (visit info i j) = Z.of_nat D.
Proof.
  intros Hs Hi Hf. rewrite (first_depth _ _ _ _ _ _ _ Hf). destruct Hf as (_ & v & _ & Hd & _).
  pose proof (small_dist g i h v D Hs Hi Hd). apply Z.mod_small. lia.
Qed.

(** At the end every search has met every other. *)
Lemma exit_met g s out i t j :
  graph_ok g → inv g (s_mem s) (s_threads s) ∧ main_ok g s → s_main s = MExit out →
  s_threads s !! i = Some t → (j < length (g_house g))%nat → met t j.
Proof.
  intros Hg [Hi Hm] He Ht Hj. unfold main_ok in Hm. rewrite He in Hm. destruct Hm as [Hall _].
  destruct (v_threads _ _ _ Hi i t Ht) as (h & Hh & Hok & _). pose proof (t_state _ _ _ _ _ Hok) as Hst.
  rewrite (Hall i t Ht) in Hst. destruct Hst as [Hv _]. unfold met. rewrite Hv, (k_full _ Hg). by apply bool_decide_eq_true.
Qed.

(** A level without a fence at its end is not there to read. *)
Lemma in_level_none ths k t d1 d2 v :
  ths !! k = Some t → Z.of_nat (length (depth_fence t)) ≤ d2 → in_level ths k d1 d2 v = None.
Proof.
  intros Ht Hd. unfold in_level. rewrite Ht. cbn [mbind option_bind]. destruct (fence ths k d1); [|done]. cbn [mbind option_bind].
  unfold fence. rewrite Ht. cbn [mbind option_bind]. destruct (d2 <? 0); [done|]. by rewrite lookup_ge_None_2 by lia.
Qed.

(** The result for two houses reads behind the last fence of the second search. *)
Lemma two_houses_none info ths t c :
  ths !! 1%nat = Some t → length (depth_fence t) = S c → depth (visit info 1 0) = Z.of_nat c →
  0 ≤ dist info (0, 1)%nat < 999999999 → MakeResult 2 info ths = None.
Proof.
  intros Ht Hlen Hd Hsmall. unfold MakeResult. assert (min_dist 2 info = dist info (0, 1)%nat) as ->.
  { unfold min_dist. change (pairs 2) with [(0, 1)%nat]. cbn [foldl]. by rewrite (proj2 (Z.ltb_lt _ _)) by lia. }
  assert (filter (λ p, dist info p = dist info (0, 1)%nat) (pairs 2) = [(0, 1)%nat]) as ->
    by (change (pairs 2) with [(0, 1)%nat]; by rewrite filter_cons_True).
  cbn [min_loop]. by rewrite (in_level_none ths 1 t _ _ _ Ht) by lia.
Qed.

(** With two houses a finished search has met the other one at its last depth. *)
Lemma last_depth g s out i t :
  graph_ok g → small g → length (g_house g) = 2%nat → inv g (s_mem s) (s_threads s) ∧ main_ok g s →
  s_main s = MExit out → s_threads s !! i = Some t → (i < 2)%nat →
  depth (visit (visit_info (s_mem s)) i (1 - i)) = Z.of_nat (curr_depth t) ∧ Z.of_nat (curr_depth t) < 2 ^ 16 ∧
  length (depth_fence t) = S (curr_depth t).
Proof.
  intros Hg Hs Hn [Hi Hm] He Ht Hlt. unfold main_ok in Hm. rewrite He in Hm. destruct Hm as [Hall _].
  destruct (v_threads _ _ _ Hi i t Ht) as (h & Hh & Hok & Hl). specialize (Hl ltac:(lia)).
  unfold last_ok in Hl. rewrite (Hall i t Ht) in Hl. destruct Hl as (j & Hne & Hmet & Hf).
  apply (t_visited _ _ _ _ _ Hok) in Hmet. assert (j = 1 - i)%nat as -> by lia. split_and!.
  - by eapply small_first_depth.
  - destruct Hf as (_ & v & _ & Hd & _). by eapply small_dist.
  - apply (t_fences _ _ _ _ _ Hok). by rewrite (Hall i t Ht).
Qed.

(** C25: when the program reaches its end, for every input graph, every pair of different
    houses and every interleaving of the searches: the depths [D] and [E] at which the two
    searches first met each other add up to the distance of their houses or to one more,
    and what is recorded is these depths modulo 2^16 (the recorded depth is a [uint16_t]);
    so for houses less than 65535 apart the sum that [MakeResult] computes is the distance
    or one more. *)
Theorem lab4_pair_distance hs nv lines g s out i j h h' :
  input_ok hs lines → InputGraph (print_input hs nv lines) = Some g →
  reachable (init g) (step g) s → s_main s = MExit out →
  i ≠ j → hs !! i = Some h → hs !! j = Some h' →
  ∃ d D E, isdist (row (g_graph g)) h h' d ∧ (d ≤ D + E ≤ d + 1)%nat ∧
    depth (visit (visit_info (s_mem s)) i j) = u16 (Z.of_nat D) ∧
    depth (visit (visit_info (s_mem s)) j i) = u16 (Z.of_nat E) ∧
    (Z.of_nat d < 2 ^ 16 - 1 → Z.of_nat d ≤ dist (visit_info (s_mem s)) (i, j) ≤ Z.of_nat d + 1).
Proof.
  intros Hin Hg Hr He Hij Hh Hh'. destruct (InputGraph_ok hs nv lines Hin) as (g' & Hg' & Hok & <- & _).
  rewrite Hg in Hg'. injection Hg' as ->. pose proof (search_reachable_inv g' Hok s Hr) as Hinv. pose proof (proj1 Hinv) as Hi.
  pose proof (lookup_lt_Some _ _ _ Hh) as Hl. pose proof (lookup_lt_Some _ _ _ Hh') as Hl'.
  destruct (lookup_lt_is_Some_2 (s_threads s) i) as [t Ht]; [by rewrite (v_len _ _ _ Hi)|].
  destruct (lookup_lt_is_Some_2 (s_threads s) j) as [t' Ht']; [by rewrite (v_len _ _ _ Hi)|].
  destruct (meeting_depths g' Hok _ _ i j h h' t t' Hi Hij Ht Ht' Hh Hh') as (d & D & E & Hd & HD & HE & _ & _ & Hle);
    [by eapply exit_met..|].
  pose proof (first_depth _ _ _ _ _ _ _ HD) as Hdd. pose proof (first_depth _ _ _ _ _ _ _ HE) as Hde.
  exists d, D, E. split_and!; [done|lia|lia|done|done|]. intros Hlt. unfold dist. cbn [fst snd].
  rewrite Hdd, Hde. unfold u16. rewrite !Z.mod_small by lia. lia.
Qed.

(** With exactly two houses [MakeResult] always reads the entry behind the last one of a
    fence vector: its result is undefined for every graph with vertices below 2^16 and
    every interleaving. *)
Theorem lab4_two_houses_undefined hs nv lines g s out :
  input_ok hs lines → InputGraph (print_input hs nv lines) = Some g → small g → length hs = 2%nat →
  reachable (init g) (step g) s → s_main s = MExit out → out = None.
Proof.
  intros Hin Hg Hs Hn Hr He. destruct (InputGraph_ok hs nv lines Hin) as (g' & Hg' & Hok & <- & _).
  rewrite Hg in Hg'. injection Hg' as ->. pose proof (search_reachable_inv g' Hok s Hr) as Hinv. pose proof (proj1 Hinv) as Hi.
  destruct (lookup_lt_is_Some_2 (s_threads s) 0) as [t Ht]; [rewrite (v_len _ _ _ Hi); lia|].
  destruct (lookup_lt_is_Some_2 (s_threads s) 1) as [t' Ht']; [rewrite (v_len _ _ _ Hi); lia|].
  destruct (last_depth _ _ _ _ _ Hok Hs Hn Hinv He Ht ltac:(lia)) as (D0 & L0 & _).
  destruct (last_depth _ _ _ _ _ Hok Hs Hn Hinv He Ht' ltac:(lia)) as (D1 & L1 & F1).
  destruct Hinv as [_ Hm]. unfold main_ok in Hm. rewrite He in Hm. destruct Hm as [_ ->]. rewrite Hn.
  eapply two_houses_none; [done|done|done|]. unfold dist. cbn [fst snd]. cbn in D0, D1. rewrite D0, D1. lia.
Qed.

(** * A sample: the path 1 - 2 - 3 with houses 1 and 3 *)

Definition sample_lines4 : list (nat * list nat) := [(1, [2]); (2, [3])]%nat.

Definition sample_graph4 : Graph :=
  Eval vm_compute in default (MkGraph [] ∅ ∅ 0) (InputGraph (print_input [1; 3]%nat 3 sample_lines4)).

Definition sample_sched4 : list (option nat) :=
  replicate 3 None ++ replicate 12 (Some 0%nat) ++ replicate 6 (Some 1%nat) ++ replicate 3 None.

Definition sample_end4 : state :=
  Eval vm_compute in default (init sample_graph4) (run_sched (next sample_graph4) sample_sched4 (init sample_graph4)).

Lemma sample_input4 : input_ok [1; 3]%nat sample_lines4.
Proof.
  constructor.
  - by repeat constructor.
  - by repeat constructor.
  - intros x. cbn. unfold edge_row. repeat case_bool_decide; cbn; unfold MAX_EDGE_PER_VERTEX; lia.
  - apply (bool_decide_eq_true _); reflexivity.
  - apply (bool_decide_eq_true _); reflexivity.
Qed.

Lemma sample_reach4 : reachable (init sample_graph4) (step sample_graph4) sample_end4.
Proof. apply (run_sched_rtc (next sample_graph4) sample_sched4). vm_compute. reflexivity. Qed.

Lemma sample_small4 : small sample_graph4.
Proof.
  assert (map_Forall (λ _ ws, Forall (λ w, Z.of_nat w < 2 ^ 16) ws) (g_graph sample_graph4)) as Hall
    by (apply (bool_decide_unpack _); vm_compute; exact I).
  split.
  - apply Forall_forall. apply (bool_decide_unpack _). vm_compute. exact I.
  - intros v w. unfold row. destruct (g_graph sample_graph4 !! v) as [ws|] eqn:Hv; [|by intros ?%not_elem_of_nil].
    specialize (Hall v ws Hv). rewrite Forall_forall in Hall. apply Hall.
Qed.

Lemma lab4_pair_distance_witness :
  ∃ d D E, isdist (row (g_graph sample_graph4)) 1 3 d ∧ (d ≤ D + E ≤ d + 1)%nat ∧
    depth (visit (visit_info (s_mem sample_end4)) 0 1) = u16 (Z.of_nat D) ∧
    depth (visit (visit_info (s_mem sample_end4)) 1 0) = u16 (Z.of_nat E) ∧
    (Z.of_nat d < 2 ^ 16 - 1 →
     Z.of_nat d ≤ dist (visit_info (s_mem sample_end4)) (0, 1)%nat ≤ Z.of_nat d + 1).
Proof.
  apply (lab4_pair_distance [1; 3]%nat 3 sample_lines4 sample_graph4 sample_end4 None 0 1 1 3);
    [apply sample_input4|reflexivity|apply sample_reach4|reflexivity|discriminate|reflexivity|reflexivity].
Defined.

Lemma lab4_two_houses_undefined_witness : s_main sample_end4 = MExit None ∧ None = (None : option (Z * Z)).
Proof.
  split; [reflexivity|].
  apply (lab4_two_houses_undefined [1; 3]%nat 3 sample_lines4 sample_graph4 sample_end4 None);
    [apply sample_input4|reflexivity|apply sample_small4|reflexivity|apply sample_reach4|reflexivity].
Defined.
