(* ===== verification/Crc32.v ===== *)
(** The CRC-32C of storage/xtradb/ut/ut0crc32.cc, which protects the pages of the buffer pool:
    the tables of [ut_crc32_slice8_table_init] and the routine [ut_crc32_slice8], which takes
    eight bytes at a time where the buffer is aligned.

    The routine is shown to be the cyclic redundancy check computed bit by bit.  Words are
    integers with their width written out; loads of eight bytes are little-endian. *)

From S2P Require Import Prelude.

Local Open Scope Z_scope.

Module Crc32.

(** bit-reversed polynomial 0x1EDC6F41 *)
Definition poly : Z := 0x82f63b78.

(** The body of the inner loop of the table initialization. *)
Definition bit_step (c : Z) : Z := if Z.odd c then Z.lxor poly (Z.shiftr c 1) else Z.shiftr c 1.

(** Eight times. *)
Definition B8 (c : Z) : Z := Nat.iter 8 bit_step c.

Definition table_entry (n : Z) : Z := B8 n.

(** The values of [n]. *)
Definition bytes256 : list Z := Z.of_nat <$> seq 0 256.

Definition table0 : list Z := table_entry <$> bytes256.

Definition row_lookup (row : list Z) (i : Z) : Z := default 0 (row !! Z.to_nat i).

(** The second loop: each row from the one before. *)
Definition next_entry (c : Z) : Z := Z.lxor (row_lookup table0 (Z.land c 0xFF)) (Z.shiftr c 8).

Definition ut_crc32_slice8_table_init : list (list Z) :=
  (λ k : nat, (λ c, Nat.iter k next_entry c) <$> table0) <$> seq 0 8.

Definition ut_crc32_slice8_table : list (list Z) := Eval vm_compute in ut_crc32_slice8_table_init.

Definition tab (k : nat) (i : Z) : Z := row_lookup (default [] (ut_crc32_slice8_table !! k)) i.

(** [ut_crc32_slice8_byte] *)
Definition slice8_byte (crc b : Z) : Z := Z.lxor (Z.shiftr crc 8) (tab 0 (Z.land (Z.lxor crc b) 0xFF)).

(** A load of eight bytes. *)
Fixpoint load_le (bs : list Z) : Z := match bs with [] => 0 | b :: bs => Z.lor b (Z.shiftl (load_le bs) 8) end.

(** [ut_crc32_slice8_quadword]; [crc] is 64 bits wide. *)
Definition slice8_quadword (crc : Z) (bs : list Z) : Z :=
  let crc := Z.lxor crc (load_le bs) in
  Z.lxor (tab 7 (Z.land crc 0xFF)) (Z.lxor (tab 6 (Z.land (Z.shiftr crc 8) 0xFF))
    (Z.lxor (tab 5 (Z.land (Z.shiftr crc 16) 0xFF)) (Z.lxor (tab 4 (Z.land (Z.shiftr crc 24) 0xFF))
      (Z.lxor (tab 3 (Z.land (Z.shiftr crc 32) 0xFF)) (Z.lxor (tab 2 (Z.land (Z.shiftr crc 40) 0xFF))
        (Z.lxor (tab 1 (Z.land (Z.shiftr crc 48) 0xFF)) (tab 0 (Z.shiftr crc 56)))))))).

(** The loop up to an aligned address; [addr] is the address of the buffer. *)
Fixpoint align_loop (addr : nat) (crc : Z) (buf : list Z) : Z * list Z :=
  match buf with
  | [] => (crc, [])
  | b :: buf' => if (addr mod 8 =? 0)%nat then (crc, buf) else align_loop (S addr) (slice8_byte crc b) buf'
  end.

(** The loop of four quadwords and the loop of one; [fuel] bounds the rounds. *)
Fixpoint loop32 (fuel : nat) (crc : Z) (buf : list Z) : Z * list Z :=
  match fuel with
  | O => (crc, buf)
  | S fuel =>
      if (32 <=? length buf)%nat then
        let crc := slice8_quadword crc (take 8 buf) in
        let crc := slice8_quadword crc (take 8 (drop 8 buf)) in
        let crc := slice8_quadword crc (take 8 (drop 16 buf)) in
        let crc := slice8_quadword crc (take 8 (drop 24 buf)) in
        loop32 fuel crc (drop 32 buf)
      else (crc, buf)
  end.

Fixpoint loop8 (fuel : nat) (crc : Z) (buf : list Z) : Z * list Z :=
  match fuel with
  | O => (crc, buf)
  | S fuel =>
      if (8 <=? length buf)%nat then loop8 fuel (slice8_quadword crc (take 8 buf)) (drop 8 buf) else (crc, buf)
  end.

(** Calculates CRC32 manually. *)
Definition ut_crc32_slice8 (addr : nat) (buf : list Z) : Z :=
  let '(crc, buf) := align_loop addr 0xFFFFFFFF buf in
  let '(crc, buf) := loop32 (length buf) crc buf in
  let '(crc, buf) := loop8 (length buf) crc buf in
  Z.land (Z.lnot (foldl slice8_byte crc buf)) 0xFFFFFFFF.

(** * The specification: one bit at a time *)

Definition crc_byte (crc b : Z) : Z := B8 (Z.lxor crc b).

Definition crc32c (buf : list Z) : Z := Z.land (Z.lnot (foldl crc_byte 0xFFFFFFFF buf)) 0xFFFFFFFF.

Definition is_byte (b : Z) : Prop := 0 ≤ b < 2 ^ 8.

Example crc32c_check : crc32c [0x31; 0x32; 0x33; 0x34; 0x35; 0x36; 0x37; 0x38; 0x39] = 0xE3069283.
Proof. reflexivity. Qed.


(** * Linearity *)

#[local] Arguments B8 : simpl never.


Lemma lxor_range n a b : 0 ≤ n → 0 ≤ a < 2 ^ n → 0 ≤ b < 2 ^ n → 0 ≤ Z.lxor a b < 2 ^ n.
Proof.
  intros Hn Ha Hb. assert (0 ≤ Z.lxor a b) as H0 by (apply Z.lxor_nonneg; lia). split; [done|].
  destruct (decide (Z.lxor a b = 0)) as [->|Hne]; [lia|]. apply Z.log2_lt_pow2; [lia|].
  pose proof (Z.log2_lxor a b). assert (∀ x, 0 ≤ x < 2 ^ n → Z.log2 x < n ∨ x = 0) as Hlog.
  { intros x Hx. destruct (decide (x = 0)) as [->|]; [by right|left]. apply Z.log2_lt_pow2; lia. }
  destruct (Hlog a Ha) as [| ->], (Hlog b Hb) as [| ->]; rewrite ?Z.lxor_0_l, ?Z.lxor_0_r in *; lia.
Qed.

Lemma lxor_swap a b c d : Z.lxor (Z.lxor a b) (Z.lxor c d) = Z.lxor (Z.lxor a c) (Z.lxor b d).
Proof. rewrite !Z.lxor_assoc. f_equal. rewrite <- !Z.lxor_assoc. f_equal. apply Z.lxor_comm. Qed.

Lemma bit_step_alt c : bit_step c = Z.lxor (if Z.odd c then poly else 0) (Z.shiftr c 1).
Proof. unfold bit_step. by destruct (Z.odd c); rewrite ?Z.lxor_0_l. Qed.

Lemma bit_step_lxor a b : bit_step (Z.lxor a b) = Z.lxor (bit_step a) (bit_step b).
Proof.
  rewrite !bit_step_alt, Z.shiftr_lxor, lxor_swap. f_equal. rewrite <- !Z.bit0_odd, Z.lxor_spec.
  by destruct (Z.testbit a 0), (Z.testbit b 0); cbn; rewrite ?Z.lxor_0_l, ?Z.lxor_0_r, ?Z.lxor_nilpotent.
Qed.

Lemma iter_lxor (f : Z → Z) n a b :
  (∀ x y, f (Z.lxor x y) = Z.lxor (f x) (f y)) → Nat.iter n f (Z.lxor a b) = Z.lxor (Nat.iter n f a) (Nat.iter n f b).
Proof. intros Hf. induction n as [|n IH]; [done|]. cbn [Nat.iter nat_rect]. change (nat_rect _ ?x (λ _, f) n) with (Nat.iter n f x) in *. by rewrite IH, Hf. Qed.

Lemma B8_lxor a b : B8 (Z.lxor a b) = Z.lxor (B8 a) (B8 b).
Proof. apply (iter_lxor bit_step 8), bit_step_lxor. Qed.

Lemma bit_step_shiftl x n : 0 < n → bit_step (Z.shiftl x n) = Z.shiftl x (n - 1).
Proof.
  intros Hn. unfold bit_step. rewrite <- Z.bit0_odd, Z.shiftl_spec_low by done.
  rewrite Z.shiftr_shiftl_l by lia. done.
Qed.

Lemma B8_shiftl x : B8 (Z.shiftl x 8) = x.
Proof. unfold B8. cbn. rewrite !bit_step_shiftl by lia. cbn. apply Z.shiftl_0_r. Qed.

Lemma split_byte c : c = Z.lxor (Z.land c 0xFF) (Z.shiftl (Z.shiftr c 8) 8).
Proof.
  apply Z.bits_inj'. intros n Hn. rewrite Z.lxor_spec, Z.land_spec. change 0xFF with (Z.ones 8).
  destruct (decide (n < 8)) as [Hlt|Hge].
  - by rewrite Z.ones_spec_low, Z.shiftl_spec_low, andb_true_r, xorb_false_r by lia.
  - rewrite Z.ones_spec_high, andb_false_r, xorb_false_l, Z.shiftl_spec, Z.shiftr_spec by lia. f_equal. lia.
Qed.

Lemma B8_split c : B8 c = Z.lxor (B8 (Z.land c 0xFF)) (Z.shiftr c 8).
Proof. rewrite (split_byte c) at 1. by rewrite B8_lxor, B8_shiftl. Qed.

Lemma byte_range c : is_byte (Z.land c 0xFF).
Proof. change 0xFF with (Z.ones 8). unfold is_byte. rewrite Z.land_ones by done. apply Z.mod_pos_bound. done. Qed.

(** * The tables *)

Lemma table0_lookup i : is_byte i → row_lookup table0 i = B8 i.
Proof.
  intros Hi. unfold is_byte in Hi. unfold row_lookup, table0, bytes256. rewrite !list_lookup_fmap, lookup_seq_lt by lia.
  cbn [fmap option_fmap option_map default]. unfold table_entry. by rewrite Nat.add_0_l, Z2Nat.id by lia.
Qed.

Lemma next_entry_B8 c : next_entry c = B8 c.
Proof. unfold next_entry. by rewrite table0_lookup, <- B8_split by apply byte_range. Qed.

Lemma table_init_eq : ut_crc32_slice8_table = ut_crc32_slice8_table_init.
Proof. vm_cast_no_check (eq_refl ut_crc32_slice8_table). Qed.

Lemma tab_B8 k i : (k < 8)%nat → is_byte i → tab k i = Nat.iter (S k) B8 i.
Proof.
  intros Hk Hi. unfold tab. rewrite table_init_eq. unfold ut_crc32_slice8_table_init.
  rewrite list_lookup_fmap, lookup_seq_lt by done. cbn [fmap option_fmap option_map default from_option]. unfold row_lookup.
  unfold id. rewrite list_lookup_fmap. pose proof (table0_lookup i Hi) as H0. unfold row_lookup in H0.
  destruct (table0 !! Z.to_nat i) as [c|] eqn:Hc; cbn [fmap option_fmap option_map default from_option] in *.
  - cbn in H0. subst c. rewrite Nat.add_0_l, (Nat.iter_succ_r k B8). clear. induction k as [|k IH]; [done|].
    rewrite !Nat.iter_succ, IH. apply next_entry_B8.
  - apply lookup_ge_None in Hc. unfold table0, bytes256, is_byte in *. rewrite !length_fmap, length_seq in Hc. lia.
Qed.

(** * The routine *)

Lemma slice8_byte_ok crc b : is_byte b → slice8_byte crc b = crc_byte crc b.
Proof.
  intros Hb. unfold slice8_byte, crc_byte. rewrite tab_B8 by (lia || apply byte_range). rewrite (B8_split (Z.lxor crc b)).
  change (Nat.iter 1 B8 ?x) with (B8 x). rewrite Z.lxor_comm, Z.shiftr_lxor, (Z.shiftr_div_pow2 b 8) by done.
  unfold is_byte in Hb. by rewrite (Z.div_small b), Z.lxor_0_r by done.
Qed.

Lemma load_cons b bs : is_byte b → load_le (b :: bs) = Z.lxor b (Z.shiftl (load_le bs) 8).
Proof.
  intros Hb. cbn. apply Z.bits_inj'. intros n Hn. rewrite Z.lor_spec, Z.lxor_spec.
  destruct (decide (n < 8)) as [Hlt|Hge].
  - by rewrite Z.shiftl_spec_low, orb_false_r, xorb_false_r by done.
  - assert (Z.testbit b n = false) as ->; [|by rewrite orb_false_l, xorb_false_l].
    unfold is_byte in Hb. destruct (decide (b = 0)) as [->|]; [apply Z.bits_0|]. apply Z.bits_above_log2; [lia|].
    enough (Z.log2 b < 8) by lia. apply Z.log2_lt_pow2; lia.
Qed.

Lemma fold_bytes bs crc : Forall is_byte bs → foldl crc_byte crc bs = Nat.iter (length bs) B8 (Z.lxor crc (load_le bs)).
Proof.
  intros Hbs. revert crc. induction Hbs as [|b bs Hb Hbs IH]; intros crc; [cbn; by rewrite Z.lxor_0_r|].
  cbn [foldl length]. rewrite IH, load_cons, Nat.iter_succ_r by done. f_equal.
  by rewrite <- Z.lxor_assoc, B8_lxor, B8_shiftl.
Qed.

(** Peeling off the lowest byte. *)
Lemma iter_peel n q : Nat.iter (S n) B8 q = Z.lxor (Nat.iter (S n) B8 (Z.land q 0xFF)) (Nat.iter n B8 (Z.shiftr q 8)).
Proof.
  rewrite (split_byte q) at 1. rewrite iter_lxor by apply B8_lxor. f_equal. by rewrite Nat.iter_succ_r, B8_shiftl.
Qed.

Definition word32 (c : Z) : Prop := 0 ≤ c < 2 ^ 32.

Lemma bit_step_range c : word32 c → word32 (bit_step c).
Proof.
  unfold word32. intros Hc. rewrite bit_step_alt. apply lxor_range; [done|unfold poly; destruct (Z.odd c); lia|].
  rewrite Z.shiftr_div_pow2 by done. change (2 ^ 1) with 2. Z.to_euclidean_division_equations. lia.
Qed.

Lemma crc_byte_range c b : word32 c → is_byte b → word32 (crc_byte c b).
Proof.
  intros Hc Hb. unfold crc_byte. assert (word32 (Z.lxor c b)) as H by (apply lxor_range; unfold word32, is_byte in *; lia).
  unfold B8. cbn. do 8 apply bit_step_range in H. done.
Qed.

Lemma load_range bs : Forall is_byte bs → 0 ≤ load_le bs < 2 ^ (8 * Z.of_nat (length bs)).
Proof.
  induction 1 as [|b bs Hb Hbs IH]; [cbn; lia|]. rewrite load_cons by done. apply lxor_range; [lia|..].
  - unfold is_byte in Hb. assert (2 ^ 8 ≤ 2 ^ (8 * Z.of_nat (length (b :: bs)))) by (apply Z.pow_le_mono_r; cbn; lia). lia.
  - rewrite Z.shiftl_mul_pow2 by done. cbn [length]. replace (8 * Z.of_nat (S (length bs))) with (8 * Z.of_nat (length bs) + 8) by lia.
    rewrite Z.pow_add_r by lia. nia.
Qed.

Lemma slice8_quadword_ok crc bs :
  word32 crc → length bs = 8%nat → Forall is_byte bs → slice8_quadword crc bs = foldl crc_byte crc bs.
Proof.
  intros Hc Hl Hbs. rewrite fold_bytes, Hl by done. unfold slice8_quadword. set (q := Z.lxor crc (load_le bs)).
  assert (0 ≤ q < 2 ^ 64) as Hq.
  { apply lxor_range; [done|unfold word32 in Hc; lia|]. pose proof (load_range bs Hbs) as H. by rewrite Hl in H. }
  assert (is_byte (Z.shiftr q 56)) as H56.
  { unfold is_byte. rewrite Z.shiftr_div_pow2 by done. split; [apply Z.div_pos; lia|]. apply Z.div_lt_upper_bound; lia. }
  rewrite !tab_B8 by (lia || apply byte_range || done).
  symmetry. rewrite (iter_peel 7 q). f_equal.
  assert (∀ n a, 0 ≤ a → Nat.iter (S n) B8 (Z.shiftr q a) =
    Z.lxor (Nat.iter (S n) B8 (Z.land (Z.shiftr q a) 0xFF)) (Nat.iter n B8 (Z.shiftr q (a + 8)))) as Hp.
  { intros n a Ha. by rewrite iter_peel, Z.shiftr_shiftr by lia. }
  rewrite (Hp 6%nat 8), (Hp 5%nat (8 + 8)), (Hp 4%nat (8 + 8 + 8)), (Hp 3%nat (8 + 8 + 8 + 8)),
    (Hp 2%nat (8 + 8 + 8 + 8 + 8)), (Hp 1%nat (8 + 8 + 8 + 8 + 8 + 8)) by lia. done.
Qed.

Lemma fold_range bs crc : word32 crc → Forall is_byte bs → word32 (foldl crc_byte crc bs).
Proof. intros Hc Hbs. revert crc Hc. induction Hbs as [|b bs Hb Hbs IH]; intros crc Hc; [done|]. cbn. apply IH. by apply crc_byte_range. Qed.

(** Each loop folds the bytes it takes from the front. *)
Lemma align_loop_ok addr crc buf crc' buf' :
  Forall is_byte buf → align_loop addr crc buf = (crc', buf') →
  ∃ bs, buf = bs ++ buf' ∧ crc' = foldl crc_byte crc bs.
Proof.
  intros Hb. revert addr crc. induction Hb as [|b buf Hb Hbuf IH]; intros addr crc H; cbn [align_loop] in H; [injection H as <- <-; by exists []|].
  destruct (addr mod 8 =? 0)%nat; [injection H as <- <-; by exists []|].
  destruct (IH _ _ H) as (bs & -> & ->). exists (b :: bs). cbn. by rewrite slice8_byte_ok.
Qed.

Lemma take_quadword crc buf :
  word32 crc → (8 ≤ length buf)%nat → Forall is_byte buf → slice8_quadword crc (take 8 buf) = foldl crc_byte crc (take 8 buf).
Proof. intros Hc Hl Hb. apply slice8_quadword_ok; [done|rewrite length_take; lia|by apply Forall_take]. Qed.

Lemma loop8_ok fuel crc buf crc' buf' :
  word32 crc → Forall is_byte buf → loop8 fuel crc buf = (crc', buf') →
  ∃ bs, buf = bs ++ buf' ∧ crc' = foldl crc_byte crc bs.
Proof.
  intros Hc Hb. revert crc buf Hc Hb. induction fuel as [|fuel IH]; intros crc buf Hc Hb H; cbn [loop8] in H; [injection H as <- <-; by exists []|].
  destruct (Nat.leb_spec 8 (length buf)) as [Hl|Hl]; [|injection H as <- <-; by exists []].
  rewrite take_quadword in H by done. apply IH in H as (bs & Hbs & ->); [|by apply fold_range, Forall_take|by apply Forall_drop].
  exists (take 8 buf ++ bs). rewrite <- app_assoc, <- Hbs, take_drop. split; [done|]. by rewrite foldl_app.
Qed.

Lemma loop32_ok fuel crc buf crc' buf' :
  word32 crc → Forall is_byte buf → loop32 fuel crc buf = (crc', buf') →
  ∃ bs, buf = bs ++ buf' ∧ crc' = foldl crc_byte crc bs.
Proof.
  intros Hc Hb. revert crc buf Hc Hb. induction fuel as [|fuel IH]; intros crc buf Hc Hb H; cbn [loop32] in H; [injection H as <- <-; by exists []|].
  destruct (Nat.leb_spec 32 (length buf)) as [Hl|Hl]; [|injection H as <- <-; by exists []].
  assert (∀ n, Forall is_byte (drop n buf)) as Hd by (intros; by apply Forall_drop).
  assert (∀ c n, word32 c → word32 (foldl crc_byte c (take 8 (drop n buf)))) as Hw by (intros; by apply fold_range, Forall_take).
  pose proof (Hw crc 0%nat Hc) as Hc1. rewrite drop_0 in Hc1.
  rewrite (take_quadword crc buf), (take_quadword _ (drop 8 buf)), (take_quadword _ (drop 16 buf)), (take_quadword _ (drop 24 buf)) in H
    by (rewrite ?length_drop; auto || lia).
  apply IH in H as (bs & Hbs & ->); [|auto|done].
  exists (take 8 buf ++ take 8 (drop 8 buf) ++ take 8 (drop 16 buf) ++ take 8 (drop 24 buf) ++ bs).
  split; [|by rewrite !foldl_app]. rewrite <- !app_assoc, <- Hbs.
  assert (∀ n, drop n buf = take 8 (drop n buf) ++ drop (n + 8) buf) as Hcut by (intros n; by rewrite <- drop_drop, take_drop).
  etrans; [apply (Hcut 0%nat)|]. rewrite drop_0. f_equal. etrans; [apply (Hcut 8%nat)|]. f_equal.
  etrans; [apply (Hcut 16%nat)|]. f_equal. apply (Hcut 24%nat).
Qed.

(** C8: the table-driven routine that takes eight bytes at a time computes the cyclic
    redundancy check defined one bit at a time, for every buffer and every alignment. *)
Theorem ut_crc32_slice8_correct addr buf : Forall is_byte buf → ut_crc32_slice8 addr buf = crc32c buf.
Proof.
  intros Hb. unfold ut_crc32_slice8, crc32c. assert (word32 0xFFFFFFFF) as H0 by done.
  destruct (align_loop addr 0xFFFFFFFF buf) as [c1 b1] eqn:H1.
  apply align_loop_ok in H1 as (l1 & -> & ->); [|done]. apply Forall_app in Hb as [Hl1 Hb1].
  destruct (loop32 _ _ b1) as [c2 b2] eqn:H2.
  apply loop32_ok in H2 as (l2 & -> & ->); [|by apply fold_range|done]. apply Forall_app in Hb1 as [Hl2 Hb2].
  destruct (loop8 _ _ b2) as [c3 b3] eqn:H3.
  apply loop8_ok in H3 as (l3 & -> & ->); [|by repeat apply fold_range|done]. apply Forall_app in Hb2 as [Hl3 Hb3].
  rewrite !foldl_app. do 2 f_equal. generalize (foldl crc_byte (foldl crc_byte (foldl crc_byte 0xFFFFFFFF l1) l2) l3).
  clear -Hb3. induction Hb3 as [|b b3 Hb Hb3 IH]; intros c; [done|]. cbn. by rewrite slice8_byte_ok, IH.
Qed.

Lemma ut_crc32_slice8_correct_witness :
  ut_crc32_slice8 5 (Z.of_nat <$> seq 0 50) = 0x95ce39d7 ∧ ut_crc32_slice8 5 (Z.of_nat <$> seq 0 50) = crc32c (Z.of_nat <$> seq 0 50).
Proof.
  split; [vm_compute; reflexivity|]. apply (ut_crc32_slice8_correct 5 (Z.of_nat <$> seq 0 50)).
  apply Forall_fmap, Forall_forall. intros n Hn. apply elem_of_seq in Hn. unfold is_byte. cbn. lia.
Defined.

(** * Error bursts *)

Lemma bit_step_zero d : word32 d → bit_step d = 0 → d = 0.
Proof.
  unfold word32, bit_step. intros Hd H. rewrite (Z.shiftr_div_pow2 d 1) in H by done. change (2 ^ 1) with 2 in H.
  destruct (Z.odd d) eqn:Ho.
  - apply Z.lxor_eq in H. unfold poly in H. exfalso. revert H. Z.to_euclidean_division_equations. lia.
  - pose proof (Zodd_mod d) as Hm. rewrite Ho in Hm. symmetry in Hm. apply Zeq_bool_neq in Hm. revert H Hm.
    Z.to_euclidean_division_equations. lia.
Qed.

Lemma B8_zero n d : word32 d → Nat.iter n B8 d = 0 → d = 0.
Proof.
  intros Hd. assert (∀ k e, word32 e → Nat.iter k bit_step e = 0 → e = 0) as Hk.
  { induction k as [|k IH]; intros e He H; [done|]. rewrite Nat.iter_succ_r in H. apply IH in H; [|by apply bit_step_range]. by apply bit_step_zero. }
  revert d Hd. induction n as [|n IH]; intros d Hd H; [done|]. rewrite Nat.iter_succ_r in H. apply IH in H; [by apply (Hk 8%nat)|].
  unfold B8. cbn. do 8 apply bit_step_range in Hd. done.
Qed.

Lemma lxor_byte b l : is_byte b → Z.lxor b (Z.shiftl l 8) = b + 256 * l.
Proof.
  intros Hb. rewrite <- Z.add_nocarry_lxor; [rewrite Z.shiftl_mul_pow2 by done; lia|]. apply Z.bits_inj'. intros m Hm.
  rewrite Z.land_spec, Z.bits_0. unfold is_byte in Hb. destruct (decide (m < 8)); [by rewrite Z.shiftl_spec_low, andb_false_r by lia|].
  by rewrite <- (Z.mod_small b (2 ^ 8)), Z.mod_pow2_bits_high by lia.
Qed.

Lemma load_inj x y : Forall is_byte x → Forall is_byte y → length x = length y → load_le x = load_le y → x = y.
Proof.
  intros Hx. revert y. induction Hx as [|b x Hb Hx IH]; intros [|c y] Hy Hl H; try done.
  apply Forall_cons in Hy as [Hc Hy]. rewrite !load_cons in H by done.
  rewrite !lxor_byte in H by done. unfold is_byte in *. assert (b = c ∧ load_le x = load_le y) as [-> Hxy] by lia.
  f_equal. apply IH; [done|by injection Hl|done].
Qed.

(** Folding the same bytes into different values. *)
Lemma fold_inj bs c d : word32 c → word32 d → Forall is_byte bs → foldl crc_byte c bs = foldl crc_byte d bs → c = d.
Proof.
  intros Hc Hd Hbs H. rewrite !fold_bytes in H by done. apply Z.lxor_eq.
  apply (B8_zero (length bs)); [by apply lxor_range|]. rewrite iter_lxor by apply B8_lxor.
  rewrite !iter_lxor in H by apply B8_lxor. apply (f_equal (λ z, Z.lxor z (Nat.iter (length bs) B8 (load_le bs)))) in H.
  rewrite !Z.lxor_assoc, Z.lxor_nilpotent, !Z.lxor_0_r in H. by rewrite H, Z.lxor_nilpotent.
Qed.

(** Two buffers that differ within four adjacent bytes. *)
Lemma crc_burst pre x y post :
  Forall is_byte (pre ++ x ++ post) → Forall is_byte y → length x = length y → (length x ≤ 4)%nat → x ≠ y →
  crc32c (pre ++ x ++ post) ≠ crc32c (pre ++ y ++ post).
Proof.
  rewrite !Forall_app. intros (Hpre & Hx & Hpost) Hy Hl H4 Hne H. apply Hne. clear Hne. unfold crc32c in H.
  assert (word32 0xFFFFFFFF) as H0 by done. rewrite !foldl_app in H.
  set (c := foldl crc_byte 0xFFFFFFFF pre) in *. assert (word32 c) as Hc by by apply fold_range.
  assert (∀ e, word32 e → Z.land (Z.lnot e) 0xFFFFFFFF = 2 ^ 32 - 1 - e) as Hlnot.
  { intros e He. unfold word32 in He. change 0xFFFFFFFF with (Z.ones 32). rewrite Z.land_ones by done. unfold Z.lnot.
    symmetry. apply (Z.mod_unique_pos _ _ (-1)); lia. }
  rewrite !Hlnot in H by (by repeat apply fold_range). assert (foldl crc_byte c x = foldl crc_byte c y) as Hxy.
  { apply (fold_inj post); [by apply fold_range..|done|lia]. }
  rewrite !fold_bytes, Hl, !iter_lxor in Hxy by (done || apply B8_lxor).
  apply load_inj; [done..|]. apply Z.lxor_eq, (B8_zero (length y)).
  - assert (2 ^ (8 * Z.of_nat (length y)) ≤ 2 ^ 32) as Hp by (apply Z.pow_le_mono_r; lia).
    pose proof (load_range x Hx) as Hx'. pose proof (load_range y Hy). rewrite Hl in Hx'. apply lxor_range; lia.
  - rewrite iter_lxor by apply B8_lxor. apply (f_equal (λ z, Z.lxor (Nat.iter (length y) B8 c) z)) in Hxy.
    rewrite <- !Z.lxor_assoc, Z.lxor_nilpotent, !Z.lxor_0_l in Hxy. by rewrite Hxy, Z.lxor_nilpotent.
Qed.

End Crc32.
