(* ===== verification/Adler32.v ===== *)
(** The Adler-32 checksum of zlib/adler32.c, which the server uses for compressed pages
    ([page_zip_calc_checksum]).

    The routine delays the two divisions for blocks of [NMAX] bytes.  It is shown to compute
    the sums with a division after every byte, for every width of [uLong] from 32 bits on: the
    delayed sums never wrap around. *)

From S2P Require Import Prelude Crc32.
Import Crc32.

Local Open Scope Z_scope.

Module Adler32.

(** largest prime smaller than 65536 *)
Definition BASE : Z := 65521.
Definition NMAX : nat := Z.to_nat 5552.

(** The two sums, [adler] and [sum2]. *)
Definition sums : Type := Z * Z.

Section adler.
(** The width of [unsigned long]. *)
Context (w : Z).

Definition ulong (n : Z) : Z := n mod 2 ^ w.

Definition DO1 (st : sums) (b : Z) : sums :=
  let adler := ulong (fst st + b) in (adler, ulong (snd st + adler)).

Definition DO16 (st : sums) (buf : list Z) : sums := foldl DO1 st (take 16 buf).

(** [MOD(adler); MOD(sum2)] *)
Definition MOD2 (st : sums) : sums := (fst st mod BASE, snd st mod BASE).

(** if (a >= BASE) a -= BASE; *)
Definition reduce (a : Z) : Z := if BASE <=? a then a - BASE else a.

(** [n] times sixteen sums *)
Fixpoint do16_loop (n : nat) (st : sums) (buf : list Z) : sums * list Z :=
  match n with O => (st, buf) | S n => do16_loop n (DO16 st buf) (drop 16 buf) end.

(** do length NMAX blocks; [fuel] bounds the rounds *)
Fixpoint nmax_loop (fuel : nat) (st : sums) (buf : list Z) : sums * list Z :=
  match fuel with
  | O => (st, buf)
  | S fuel =>
      if (NMAX <=? length buf)%nat then
        let '(st, buf) := do16_loop (NMAX / 16) st buf in nmax_loop fuel (MOD2 st) buf
      else (st, buf)
  end.

(** while (len >= 16) *)
Fixpoint rest_loop (fuel : nat) (st : sums) (buf : list Z) : sums * list Z :=
  match fuel with
  | O => (st, buf)
  | S fuel => if (16 <=? length buf)%nat then rest_loop fuel (DO16 st buf) (drop 16 buf) else (st, buf)
  end.

Definition recombine (st : sums) : Z := Z.lor (fst st) (ulong (Z.shiftl (snd st) 16)).

(** [None] is [Z_NULL]. *)
Definition adler32 (adler : Z) (buf : option (list Z)) : Z :=
  let st := (Z.land adler 0xffff, Z.land (Z.shiftr adler 16) 0xffff) in
  match buf with
  | None => 1
  | Some [b] =>
      let adler := reduce (ulong (fst st + b)) in
      let sum2 := reduce (ulong (snd st + adler)) in
      recombine (adler, sum2)
  | Some buf =>
      if (length buf <? 16)%nat then
        let st := foldl DO1 st buf in recombine (reduce (fst st), snd st mod BASE)
      else
        let '(st, buf) := nmax_loop (length buf) st buf in
        if (0 <? length buf)%nat then
          let '(st, buf) := rest_loop (length buf) st buf in recombine (MOD2 (foldl DO1 st buf))
        else recombine st
  end.

End adler.

(** * The specification: a division after every byte *)

Definition adler_byte (st : sums) (b : Z) : sums := ((fst st + b) mod BASE, (snd st + (fst st + b)) mod BASE).

Definition adler_word (st : sums) : Z := fst st + snd st * 2 ^ 16.

Definition reduced (st : sums) : Prop := 0 ≤ fst st < BASE ∧ 0 ≤ snd st < BASE.

(** * Delayed divisions *)

Definition raw_byte (st : sums) (b : Z) : sums := (fst st + b, snd st + (fst st + b)).

Lemma NMAX_val : Z.of_nat NMAX = 5552.
Proof. done. Qed.

(** What the delayed sums can reach after [n] bytes. *)
Lemma raw_bounds st bs (n := Z.of_nat (length bs)) : reduced st → Forall is_byte bs →
  0 ≤ fst (foldl raw_byte st bs) ≤ BASE - 1 + 255 * n ∧
  0 ≤ 2 * snd (foldl raw_byte st bs) ≤ 2 * (n + 1) * (BASE - 1) + 255 * n * (n + 1).
Proof.
  intros [Ha Hb] Hbs. subst n. induction bs as [|b bs IH] using rev_ind; [cbn; lia|].
  apply Forall_app in Hbs as [Hbs Hb1]. apply Forall_cons in Hb1 as [Hb1 _]. unfold is_byte in Hb1. change (2 ^ 8) with 256 in Hb1. unfold BASE in *.
  destruct (IH Hbs) as [H1 H2]. rewrite foldl_app, length_app. cbn [foldl length raw_byte fst snd].
  replace (Z.of_nat (length bs + 1)) with (Z.of_nat (length bs) + 1) by lia.
  set (m := Z.of_nat (length bs)) in *. assert (0 ≤ m) by lia. nia.
Qed.

Lemma DO1_raw w st bs : 32 ≤ w → reduced st → Forall is_byte bs → (length bs ≤ NMAX)%nat →
  foldl (DO1 w) st bs = foldl raw_byte st bs.
Proof.
  intros Hw Hst. induction bs as [|b bs IH] using rev_ind; intros Hbs Hl; [done|].
  destruct (raw_bounds st (bs ++ [b]) Hst Hbs) as [H1 H2].
  assert (Z.of_nat (length (bs ++ [b])) ≤ 5552) as Hn by (pose proof NMAX_val; lia).
  assert (2 ^ 32 ≤ 2 ^ w) as Hp by (apply Z.pow_le_mono_r; lia). change (2 ^ 32) with 4294967296 in Hp.
  rewrite !foldl_app in *. rewrite length_app in Hl. apply Forall_app in Hbs as [Hbs _].
  rewrite IH by (done || lia). cbn [foldl] in *. unfold DO1, raw_byte, ulong in *. cbn [fst snd] in *.
  unfold BASE in *. rewrite !Z.mod_small by (rewrite ?Z.mod_small by nia; nia). done.
Qed.

Lemma MOD2_raw st bs : MOD2 (foldl raw_byte st bs) = foldl adler_byte (MOD2 st) bs.
Proof.
  revert st. induction bs as [|b bs IH]; intros st; [done|]. cbn [foldl]. rewrite IH. f_equal.
  unfold MOD2, adler_byte, raw_byte. cbn [fst snd]. f_equal; [by rewrite Z.add_mod_idemp_l|].
  symmetry. rewrite Z.add_mod_idemp_l, <- (Z.add_mod_idemp_r _ (fst st mod BASE + b)) by done.
  by rewrite Z.add_mod_idemp_l, Z.add_mod_idemp_r by done.
Qed.

Lemma MOD2_reduced st : reduced (MOD2 st).
Proof. split; apply Z.mod_pos_bound; done. Qed.

Lemma MOD2_id st : reduced st → MOD2 st = st.
Proof. destruct st as [a b]. intros [Ha Hb]. unfold MOD2. cbn in *. by rewrite !Z.mod_small. Qed.

(** One division for a block. *)
Lemma block_ok w st bs : 32 ≤ w → reduced st → Forall is_byte bs → (length bs ≤ NMAX)%nat →
  MOD2 (foldl (DO1 w) st bs) = foldl adler_byte st bs.
Proof. intros. by rewrite DO1_raw, MOD2_raw, MOD2_id. Qed.

Lemma fold_reduced st bs : reduced st → reduced (foldl adler_byte st bs).
Proof. intros H. rewrite <- (MOD2_id st), <- MOD2_raw by done. apply MOD2_reduced. Qed.

(** * The loops *)

Lemma do16_loop_ok w n st buf : do16_loop w n st buf = (foldl (DO1 w) st (take (16 * n) buf), drop (16 * n) buf).
Proof.
  revert st buf. induction n as [|n IH]; intros st buf; [done|]. cbn [do16_loop]. rewrite IH. unfold DO16.
  replace (16 * S n)%nat with (16 + 16 * n)%nat by lia. by rewrite <- foldl_app, drop_drop, <- take_take_drop.
Qed.

Lemma nmax_loop_ok w fuel st buf st' buf' : 32 ≤ w → reduced st → Forall is_byte buf → (length buf ≤ fuel)%nat →
  nmax_loop w fuel st buf = (st', buf') →
  (length buf' < NMAX)%nat ∧ ∃ bs, buf = bs ++ buf' ∧ st' = foldl adler_byte st bs.
Proof.
  intros Hw. revert st buf. induction fuel as [|fuel IH]; intros st buf Hst Hb Hl H; cbn [nmax_loop] in H.
  - injection H as <- <-. split; [pose proof NMAX_val; lia|by exists []].
  - destruct (Nat.leb_spec NMAX (length buf)) as [Hn|Hn]; [|injection H as <- <-; split; [done|by exists []]].
    rewrite do16_loop_ok in H. change (16 * (NMAX / 16))%nat with NMAX in H.
    rewrite block_ok in H by (done || (by apply Forall_take) || (rewrite length_take; lia)).
    apply IH in H as (Hlt & bs & Hbs & ->); [|by apply fold_reduced|by apply Forall_drop|rewrite length_drop; pose proof NMAX_val; lia].
    split; [done|]. exists (take NMAX buf ++ bs). by rewrite <- app_assoc, <- Hbs, take_drop, foldl_app.
Qed.

Lemma rest_loop_ok w fuel st buf st' buf' : rest_loop w fuel st buf = (st', buf') →
  ∃ bs, buf = bs ++ buf' ∧ st' = foldl (DO1 w) st bs.
Proof.
  revert st buf. induction fuel as [|fuel IH]; intros st buf H; cbn [rest_loop] in H; [injection H as <- <-; by exists []|].
  destruct (16 <=? length buf)%nat; [|injection H as <- <-; by exists []].
  apply IH in H as (bs & Hbs & ->). exists (take 16 buf ++ bs). unfold DO16.
  by rewrite <- app_assoc, <- Hbs, take_drop, foldl_app.
Qed.

(** * Splitting and recombining *)

Lemma recombine_ok w st : 32 ≤ w → reduced st → recombine w st = adler_word st.
Proof.
  intros Hw [Ha Hb]. unfold recombine, adler_word, ulong, BASE in *. rewrite Z.shiftl_mul_pow2 by done.
  assert (2 ^ 32 ≤ 2 ^ w) by (apply Z.pow_le_mono_r; lia). change (2 ^ 32) with 4294967296 in *.
  rewrite Z.mod_small by lia. rewrite Z.add_nocarry_lxor, <- Z.lxor_lor; [done|..];
    apply Z.bits_inj'; intros m Hm; rewrite Z.land_spec, Z.bits_0, <- (Z.shiftl_mul_pow2 _ 16) by done.
  all: destruct (decide (m < 16)); [by rewrite Z.shiftl_spec_low, andb_false_r by lia|].
  all: rewrite <- (Z.mod_small (fst st) (2 ^ 16)), Z.mod_pow2_bits_high by lia; done.
Qed.

Lemma split_ok st : reduced st →
  (Z.land (adler_word st) 0xffff, Z.land (Z.shiftr (adler_word st) 16) 0xffff) = st.
Proof.
  destruct st as [a b]. intros [Ha Hb]. unfold adler_word, BASE in *. cbn [fst snd] in *.
  change 0xffff with (Z.ones 16). rewrite !Z.land_ones, Z.shiftr_div_pow2 by done.
  rewrite Z.div_add, Z.mod_add by done. rewrite (Z.div_small a) by lia. by rewrite Z.add_0_l, !Z.mod_small by lia.
Qed.

Lemma reduce_ok a : 0 ≤ a < 2 * BASE → reduce a = a mod BASE.
Proof.
  intros Ha. unfold reduce, BASE in *. destruct (Z.leb_spec 65521 a); [|by rewrite Z.mod_small by lia].
  apply (Z.mod_unique_pos a 65521 1); lia.
Qed.

Lemma one_byte w st b : 32 ≤ w → reduced st → is_byte b →
  (let adler := reduce (ulong w (fst st + b)) in (adler, reduce (ulong w (snd st + adler)))) = adler_byte st b.
Proof.
  intros Hw [Ha Hb] Hbb. unfold adler_byte, is_byte in *. cbn zeta.
  assert (2 ^ 32 ≤ 2 ^ w) by (apply Z.pow_le_mono_r; lia). change (2 ^ 32) with 4294967296 in *.
  unfold ulong. rewrite (Z.mod_small (fst st + b)) by (unfold BASE in *; lia). rewrite (reduce_ok (fst st + b)) by (unfold BASE in *; lia).
  pose proof (Z.mod_pos_bound (fst st + b) BASE ltac:(done)). f_equal.
  rewrite (Z.mod_small _ (2 ^ w)), reduce_ok by (unfold BASE in *; lia). by rewrite Z.add_mod_idemp_r.
Qed.

(** A few bytes: the first sum needs one subtraction only. *)
Lemma few_bytes w st bs : 32 ≤ w → reduced st → Forall is_byte bs → (length bs < 16)%nat →
  (reduce (fst (foldl (DO1 w) st bs)), snd (foldl (DO1 w) st bs) mod BASE) = foldl adler_byte st bs.
Proof.
  intros Hw Hst Hbs Hl. rewrite <- (block_ok w) by (done || (pose proof NMAX_val; lia)). unfold MOD2. f_equal.
  apply reduce_ok. rewrite DO1_raw by (done || (pose proof NMAX_val; lia)). pose proof (raw_bounds st bs Hst Hbs). unfold BASE in *. lia.
Qed.

(** C9: with its divisions delayed the routine computes the Adler-32 sums defined with a
    division after every byte, for every buffer and every width of [unsigned long] from 32 bits
    on. *)
Theorem adler32_correct w st buf : 32 ≤ w → reduced st → Forall is_byte buf →
  adler32 w (adler_word st) (Some buf) = adler_word (foldl adler_byte st buf).
Proof.
  intros Hw Hst Hb. unfold adler32. rewrite split_ok by done.
  assert (∀ l, Forall is_byte l → (length l < 16)%nat →
    recombine w (reduce (fst (foldl (DO1 w) st l)), snd (foldl (DO1 w) st l) mod BASE) = adler_word (foldl adler_byte st l)) as Hfew.
  { intros l Hl Hlen. rewrite few_bytes, recombine_ok by (done || by apply fold_reduced). done. }
  destruct buf as [|b [|b' buf]]; [apply (Hfew []); cbn; done || lia|..].
  - apply Forall_cons in Hb as [Hb _]. pose proof (one_byte w st b Hw Hst Hb) as H1. cbn zeta in H1. rewrite H1.
    apply recombine_ok; [done|]. by apply (fold_reduced st [b]).
  - set (bs := b :: b' :: buf) in *. destruct (Nat.ltb_spec (length bs) 16) as [Hs|_]; [by apply Hfew|].
    destruct (nmax_loop w (length bs) st bs) as [st1 buf1] eqn:H1.
    apply nmax_loop_ok in H1 as (Hlt & l1 & Heq & ->); [|done..]. rewrite Heq in *. clear Heq. apply Forall_app in Hb as [_ Hb1].
    destruct (Nat.ltb_spec 0 (length buf1)) as [Hpos|Hz].
    + destruct (rest_loop w (length buf1) _ buf1) as [st2 buf2] eqn:H2. apply rest_loop_ok in H2 as (l2 & -> & ->).
      rewrite <- foldl_app, block_ok, <- foldl_app by (done || lia || by apply fold_reduced).
      apply recombine_ok; [done|by apply fold_reduced].
    + destruct buf1; [|cbn in Hz; lia]. rewrite app_nil_r. apply recombine_ok; [done|by apply fold_reduced].
Qed.

Lemma adler32_correct_witness :
  adler32 32 (adler_word (1, 0)) (Some (Z.of_nat <$> seq 0 100)) = 0x8b7c1357 ∧
  adler32 32 (adler_word (1, 0)) (Some (Z.of_nat <$> seq 0 100)) = adler_word (foldl adler_byte (1, 0) (Z.of_nat <$> seq 0 100)).
Proof.
  split; [vm_compute; reflexivity|]. apply (adler32_correct 32 (1, 0) (Z.of_nat <$> seq 0 100)); [done|done|].
  apply Forall_fmap, Forall_forall. intros n Hn. apply elem_of_seq in Hn. unfold is_byte. cbn. lia.
Defined.

End Adler32.
