(* ===== verification/BufPage.v ===== *)
(** Pages of the buffer pool and their checksums: src/Project3/ryul/buf0buf.cc
    ([buf_page_is_zeroes], the checksum validity tests, [buf_page_is_corrupted]) together with
    what it calls in storage/xtradb: the big-endian fields of mach0data.ic, the folding hash of
    ut0rnd.ic, the three checksums of buf0checksum.cc, the checksum of compressed pages of
    page0zip.cc, and [buf_flush_init_for_writing] of buf0flu.cc, which writes the fields that
    are tested.

    A page is its list of bytes; the page size is a parameter of the server.  The table of the
    encrypted tablespaces is an argument.  [ut_crc32] is the software routine of Crc32.v. *)

From S2P Require Import Prelude Crc32 Adler32.
Import Crc32 Adler32.

Local Open Scope Z_scope.

Module BufPage.

(** * mach0data.ic *)

Definition byte_at (page : list Z) (i : nat) : Z := default 0 (page !! i).

Definition mach_read_from_2 (page : list Z) (off : nat) : Z :=
  Z.lor (Z.shiftl (byte_at page off) 8) (byte_at page (off + 1)).

Definition mach_read_from_4 (page : list Z) (off : nat) : Z :=
  Z.lor (Z.lor (Z.lor (Z.shiftl (byte_at page off) 24) (Z.shiftl (byte_at page (off + 1)) 16))
    (Z.shiftl (byte_at page (off + 2)) 8)) (byte_at page (off + 3)).

Definition mach_write_to_4 (page : list Z) (off : nat) (n : Z) : list Z :=
  <[(off + 3)%nat := Z.land n 0xFF]> (<[(off + 2)%nat := Z.land (Z.shiftr n 8) 0xFF]>
    (<[(off + 1)%nat := Z.land (Z.shiftr n 16) 0xFF]> (<[off := Z.land (Z.shiftr n 24) 0xFF]> page))).

Definition mach_read_from_8 (page : list Z) (off : nat) : Z :=
  Z.lor (Z.shiftl (mach_read_from_4 page off) 32) (mach_read_from_4 page (off + 4)).

Definition mach_write_to_8 (page : list Z) (off : nat) (n : Z) : list Z :=
  mach_write_to_4 (mach_write_to_4 page off (Z.shiftr n 32)) (off + 4) n.

(** * ut0rnd.ic *)

Definition UT_HASH_RANDOM_MASK : Z := 1463735687.
Definition UT_HASH_RANDOM_MASK2 : Z := 1653893711.

Definition ut_fold_ulint_pair (n1 n2 : Z) : Z :=
  u64 (Z.lxor (u64 (u64 (Z.shiftl (Z.lxor (Z.lxor n1 n2) UT_HASH_RANDOM_MASK2) 8) + n1)) UT_HASH_RANDOM_MASK + n2).

(** Eight bytes a round, then the rest. *)
Fixpoint fold_loop (fuel : nat) (fold : Z) (str : list Z) : Z :=
  match fuel with
  | O => foldl ut_fold_ulint_pair fold str
  | S fuel =>
      if (8 <=? length str)%nat then fold_loop fuel (foldl ut_fold_ulint_pair fold (take 8 str)) (drop 8 str)
      else foldl ut_fold_ulint_pair fold str
  end.

Definition ut_fold_binary (str : list Z) : Z := fold_loop (length str) 0 str.

(** * fil0fil.h, buf0checksum.h *)

Definition FIL_PAGE_SPACE_OR_CHKSUM : nat := 0.
Definition FIL_PAGE_OFFSET : nat := 4.
Definition FIL_PAGE_LSN : nat := 16.
Definition FIL_PAGE_TYPE : nat := 24.
Definition FIL_PAGE_FILE_FLUSH_LSN_OR_KEY_VERSION : nat := 26.
Definition FIL_PAGE_ARCH_LOG_NO_OR_SPACE_ID : nat := 34.
Definition FIL_PAGE_DATA : nat := 38.
Definition FIL_PAGE_END_LSN_OLD_CHKSUM : nat := 8.
Definition FIL_PAGE_INDEX : Z := 17855.
Definition FIL_PAGE_INODE : Z := 3.
Definition FIL_PAGE_TYPE_ALLOCATED : Z := 0.
Definition FIL_PAGE_IBUF_BITMAP : Z := 5.
Definition FIL_PAGE_TYPE_FSP_HDR : Z := 8.
Definition FIL_PAGE_TYPE_XDES : Z := 9.
Definition FIL_PAGE_TYPE_ZBLOB : Z := 11.
Definition FIL_PAGE_TYPE_ZBLOB2 : Z := 12.
Definition BUF_NO_CHECKSUM_MAGIC : Z := 0xDEADBEEF.

Inductive srv_checksum_algorithm_t := CRC32 | STRICT_CRC32 | INNODB | STRICT_INNODB | NONE | STRICT_NONE.

#[export] Instance algorithm_eq_dec : EqDecision srv_checksum_algorithm_t.
Proof. solve_decision. Defined.

Section page.
(** [UNIV_PAGE_SIZE] and the address of the page in memory. *)
Context (UNIV_PAGE_SIZE addr : nat).

Definition slice (page : list Z) (off len : nat) : list Z := take len (drop off page).

(** The end of the page. *)
Definition TRAILER : nat := UNIV_PAGE_SIZE - FIL_PAGE_END_LSN_OLD_CHKSUM.

(** * buf0checksum.cc *)

Definition HEADER_LEN : nat := FIL_PAGE_FILE_FLUSH_LSN_OR_KEY_VERSION - FIL_PAGE_OFFSET.
Definition DATA_LEN : nat := UNIV_PAGE_SIZE - FIL_PAGE_DATA - FIL_PAGE_END_LSN_OLD_CHKSUM.

Definition buf_calc_page_crc32 (page : list Z) : Z :=
  Z.lxor (ut_crc32_slice8 (addr + FIL_PAGE_OFFSET) (slice page FIL_PAGE_OFFSET HEADER_LEN))
    (ut_crc32_slice8 (addr + FIL_PAGE_DATA) (slice page FIL_PAGE_DATA DATA_LEN)).

Definition buf_calc_page_new_checksum (page : list Z) : Z :=
  Z.land (u64 (ut_fold_binary (slice page FIL_PAGE_OFFSET HEADER_LEN) + ut_fold_binary (slice page FIL_PAGE_DATA DATA_LEN)))
    0xFFFFFFFF.

Definition buf_calc_page_old_checksum (page : list Z) : Z :=
  Z.land (ut_fold_binary (slice page 0 FIL_PAGE_FILE_FLUSH_LSN_OR_KEY_VERSION)) 0xFFFFFFFF.

(** * buf0buf.cc *)

Definition buf_page_is_zeroes (page : list Z) (zip_size : nat) : bool :=
  let page_size := if (zip_size =? 0)%nat then UNIV_PAGE_SIZE else zip_size in
  forallb (λ i, byte_at page i =? 0) (seq 0 page_size).

Definition buf_page_is_checksum_valid_crc32 (read_buf : list Z) (checksum_field1 checksum_field2 : Z) : bool :=
  let crc32 := buf_calc_page_crc32 read_buf in
  (checksum_field1 =? crc32) && (checksum_field2 =? crc32).

Definition buf_page_is_checksum_valid_innodb (read_buf : list Z) (checksum_field1 checksum_field2 : Z) : bool :=
  if negb (checksum_field2 =? mach_read_from_4 read_buf FIL_PAGE_LSN)
     && negb (checksum_field2 =? buf_calc_page_old_checksum read_buf) then false
  else if negb (checksum_field1 =? 0) && negb (checksum_field1 =? buf_calc_page_new_checksum read_buf) then false
  else true.

Definition buf_page_is_checksum_valid_none (checksum_field1 checksum_field2 : Z) : bool :=
  (checksum_field1 =? checksum_field2) && (checksum_field1 =? BUF_NO_CHECKSUM_MAGIC).

(** The tests of one [case] in their order: the first format that fits; a strict algorithm
    warns when it is not its own.  The result is whether the page is corrupt and the format
    warned about. *)
Fixpoint try_formats (strict : bool) (own : bool) (tests : list (srv_checksum_algorithm_t * bool)) :
    bool * option srv_checksum_algorithm_t :=
  match tests with
  | [] => (true, None)
  | (f, ok) :: tests => if ok then (false, if strict && negb own then Some f else None) else try_formats strict false tests
  end.

Definition check_formats (algo : srv_checksum_algorithm_t) (read_buf : list Z) (f1 f2 : Z) : bool * option srv_checksum_algorithm_t :=
  let crc := (CRC32, buf_page_is_checksum_valid_crc32 read_buf f1 f2) in
  let inn := (INNODB, buf_page_is_checksum_valid_innodb read_buf f1 f2) in
  let non := (NONE, buf_page_is_checksum_valid_none f1 f2) in
  match algo with
  | CRC32 => try_formats false true [crc; non; inn]
  | STRICT_CRC32 => try_formats true true [crc; non; inn]
  | INNODB => try_formats false true [inn; non; crc]
  | STRICT_INNODB => try_formats true true [inn; non; crc]
  | STRICT_NONE => try_formats true true [non; crc; inn]
  | NONE => (false, None)
  end.

(** * page0zip.cc *)

(** Excludes [FIL_PAGE_SPACE_OR_CHKSUM], [FIL_PAGE_LSN] and [FIL_PAGE_FILE_FLUSH_LSN]. *)
Definition page_zip_calc_checksum (data : list Z) (size : nat) (algo : srv_checksum_algorithm_t) : Z :=
  let s0 := slice data FIL_PAGE_OFFSET (FIL_PAGE_LSN - FIL_PAGE_OFFSET) in
  let s1 := slice data FIL_PAGE_TYPE 2 in
  let s2 := slice data FIL_PAGE_ARCH_LOG_NO_OR_SPACE_ID (size - FIL_PAGE_ARCH_LOG_NO_OR_SPACE_ID) in
  match algo with
  | CRC32 | STRICT_CRC32 =>
      Z.lxor (Z.lxor (ut_crc32_slice8 (addr + FIL_PAGE_OFFSET) s0) (ut_crc32_slice8 (addr + FIL_PAGE_TYPE) s1))
        (ut_crc32_slice8 (addr + FIL_PAGE_ARCH_LOG_NO_OR_SPACE_ID) s2)
  | INNODB | STRICT_INNODB => adler32 64 (adler32 64 (adler32 64 0 (Some s0)) (Some s1)) (Some s2)
  | NONE | STRICT_NONE => BUF_NO_CHECKSUM_MAGIC
  end.

Definition zip_formats (algo : srv_checksum_algorithm_t) (data : list Z) (size : nat) (stored : Z) : bool * option srv_checksum_algorithm_t :=
  let test f := (f, stored =? u32 (page_zip_calc_checksum data size f)) in
  let non := (NONE, stored =? BUF_NO_CHECKSUM_MAGIC) in
  match algo with
  | CRC32 => try_formats false true [test algo; non; test INNODB]
  | STRICT_CRC32 => try_formats true true [test algo; non; test INNODB]
  | INNODB => try_formats false true [test algo; non; test CRC32]
  | STRICT_INNODB => try_formats true true [test algo; non; test CRC32]
  | STRICT_NONE => try_formats true true [test algo; test CRC32; test INNODB]
  | NONE => (false, None)
  end.

(** Whether the stored checksum is valid, and the format warned about. *)
Definition page_zip_verify_checksum (srv_checksum_algorithm : srv_checksum_algorithm_t) (data : list Z) (size : nat) :
    bool * option srv_checksum_algorithm_t :=
  let stored := u32 (mach_read_from_4 data FIL_PAGE_SPACE_OR_CHKSUM) in
  if (stored =? 0) && forallb (λ i, byte_at data i =? 0) (seq FIL_PAGE_LSN 8)
  then (forallb (λ i, byte_at data i =? 0) (seq 0 size), None)
  else
    let '(bad, warning) := zip_formats srv_checksum_algorithm data size stored in (negb bad, warning).

(** * buf0buf.cc, the test of a page *)

(** Whether a tablespace has encryption information.  The comparison of the page with the
    current log sequence number only writes a message and is left out. *)
Context (space_encrypted : Z → bool).

Definition fil_page_is_encrypted (page : list Z) : bool :=
  negb (mach_read_from_4 page FIL_PAGE_FILE_FLUSH_LSN_OR_KEY_VERSION =? 0).

Definition buf_page_is_corrupted (srv_checksum_algorithm : srv_checksum_algorithm_t) (read_buf : list Z) (zip_size : nat) :
    bool * option srv_checksum_algorithm_t :=
  let space_id := mach_read_from_4 read_buf FIL_PAGE_ARCH_LOG_NO_OR_SPACE_ID in
  let page_encrypted := space_encrypted space_id && fil_page_is_encrypted read_buf in
  if negb page_encrypted && (zip_size =? 0)%nat
     && negb (bool_decide (slice read_buf (FIL_PAGE_LSN + 4) 4 = slice read_buf (TRAILER + 4) 4)) then (true, None)
  else if decide (srv_checksum_algorithm = NONE) then (false, None)
  else if negb (zip_size =? 0)%nat then
    let '(valid, warning) := page_zip_verify_checksum srv_checksum_algorithm read_buf zip_size in (negb valid, warning)
  else if page_encrypted then (false, None)
  else
    let f1 := mach_read_from_4 read_buf FIL_PAGE_SPACE_OR_CHKSUM in
    let f2 := mach_read_from_4 read_buf TRAILER in
    if (f1 =? 0) && (f2 =? 0) && forallb (λ i, byte_at read_buf i =? 0) (seq FIL_PAGE_LSN 8)
    then (negb (forallb (λ i, byte_at read_buf i =? 0) (seq 0 UNIV_PAGE_SIZE)), None)
    else check_formats srv_checksum_algorithm read_buf f1 f2.

(** * buf0flu.cc *)

Definition memset0 (page : list Z) (off len : nat) : list Z := foldl (λ p i, <[i := 0]> p) page (seq off len).

Definition buf_flush_update_zip_checksum (srv_checksum_algorithm : srv_checksum_algorithm_t) (page : list Z) (zip_size : nat) (lsn : Z) : list Z :=
  let checksum := u32 (page_zip_calc_checksum page zip_size srv_checksum_algorithm) in
  let page := mach_write_to_8 page FIL_PAGE_LSN lsn in
  let page := memset0 page FIL_PAGE_FILE_FLUSH_LSN_OR_KEY_VERSION 8 in
  mach_write_to_4 page FIL_PAGE_SPACE_OR_CHKSUM checksum.

Definition fil_page_get_type (page : list Z) : Z := mach_read_from_2 page FIL_PAGE_TYPE.

(** The compressed page; [None] is the failed assertion for a page type that can not be
    compressed. *)
Definition init_zip (srv_checksum_algorithm : srv_checksum_algorithm_t) (page zip : list Z) (newest_lsn : Z) : option (list Z) :=
  let zip_size := length zip in
  let ty := fil_page_get_type page in
  if bool_decide (ty ∈ [FIL_PAGE_TYPE_ALLOCATED; FIL_PAGE_INODE; FIL_PAGE_IBUF_BITMAP; FIL_PAGE_TYPE_FSP_HDR; FIL_PAGE_TYPE_XDES])
  then Some (buf_flush_update_zip_checksum srv_checksum_algorithm (take zip_size page) zip_size newest_lsn)
  else if bool_decide (ty ∈ [FIL_PAGE_TYPE_ZBLOB; FIL_PAGE_TYPE_ZBLOB2; FIL_PAGE_INDEX])
  then Some (buf_flush_update_zip_checksum srv_checksum_algorithm zip zip_size newest_lsn)
  else None.

(** The part for a page that is not compressed. *)
Definition init_page (srv_checksum_algorithm : srv_checksum_algorithm_t) (page : list Z) (newest_lsn : Z) : list Z :=
  let page := mach_write_to_8 page FIL_PAGE_LSN newest_lsn in
  let page := mach_write_to_8 page TRAILER newest_lsn in
  let '(page, checksum) :=
    match srv_checksum_algorithm with
    | CRC32 | STRICT_CRC32 =>
        let checksum := buf_calc_page_crc32 page in (mach_write_to_4 page FIL_PAGE_SPACE_OR_CHKSUM checksum, checksum)
    | INNODB | STRICT_INNODB =>
        let page := mach_write_to_4 page FIL_PAGE_SPACE_OR_CHKSUM (u32 (buf_calc_page_new_checksum page)) in
        (page, u32 (buf_calc_page_old_checksum page))
    | NONE | STRICT_NONE => (mach_write_to_4 page FIL_PAGE_SPACE_OR_CHKSUM BUF_NO_CHECKSUM_MAGIC, BUF_NO_CHECKSUM_MAGIC)
    end in
  mach_write_to_4 page TRAILER checksum.

(** The page and the compressed page afterwards. *)
Definition buf_flush_init_for_writing (srv_checksum_algorithm : srv_checksum_algorithm_t) (page : list Z)
    (page_zip : option (list Z)) (newest_lsn : Z) : option (list Z * option (list Z)) :=
  match page_zip with
  | Some zip => z ← init_zip srv_checksum_algorithm page zip newest_lsn; Some (page, Some z)
  | None => Some (init_page srv_checksum_algorithm page newest_lsn, None)
  end.

(** What reaches the file, and the size the test is given for it. *)
Definition written (p : list Z * option (list Z)) : list Z := default (fst p) (snd p).
Definition written_zip_size (p : list Z * option (list Z)) : nat := default 0%nat (length <$> snd p).

End page.


(** * Fields *)

(** The four bytes of a field. *)
Definition be4 (n : Z) : list Z :=
  [Z.land (Z.shiftr n 24) 0xFF; Z.land (Z.shiftr n 16) 0xFF; Z.land (Z.shiftr n 8) 0xFF; Z.land n 0xFF].

Lemma write4_app page off n :
  (off + 4 ≤ length page)%nat → mach_write_to_4 page off n = take off page ++ be4 n ++ drop (off + 4) page.
Proof.
  intros Hl. unfold mach_write_to_4. rewrite <- (take_drop off page) at 1.
  assert (length (take off page) = off) as Ht by (rewrite length_take; lia).
  remember (drop off page) as r eqn:Hr. assert (4 ≤ length r)%nat as Hlr by (subst r; rewrite length_drop; lia).
  destruct r as [|a [|b [|c [|d r]]]]; cbn in Hlr; try lia.
  assert (drop (off + 4) page = r) as -> by (by rewrite <- drop_drop, <- Hr).
  rewrite <- (Nat.add_0_r off) at 4. rewrite <- Ht at 1 2 3 4. by rewrite !insert_app_r.
Qed.

Lemma write4_length page off n : length (mach_write_to_4 page off n) = length page.
Proof. unfold mach_write_to_4. by rewrite !length_insert. Qed.

Lemma write8_length page off n : length (mach_write_to_8 page off n) = length page.
Proof. unfold mach_write_to_8. by rewrite !write4_length. Qed.

Lemma write4_lookup page off n i : (i < off ∨ off + 4 ≤ i)%nat → mach_write_to_4 page off n !! i = page !! i.
Proof. intros Hi. unfold mach_write_to_4. by rewrite !list_lookup_insert_ne by lia. Qed.

Lemma write8_lookup page off n i : (i < off ∨ off + 8 ≤ i)%nat → mach_write_to_8 page off n !! i = page !! i.
Proof. intros Hi. unfold mach_write_to_8. by rewrite !write4_lookup by lia. Qed.

Lemma slice_lookup page off len k : slice page off len !! k = if decide (k < len)%nat then page !! (off + k)%nat else None.
Proof. unfold slice. rewrite lookup_take. case_decide; [by rewrite lookup_drop|done]. Qed.

Lemma slice_same p q off len : (∀ i, (off ≤ i < off + len)%nat → p !! i = q !! i) → slice p off len = slice q off len.
Proof. intros H. apply list_eq. intros k. rewrite !slice_lookup. case_decide; [apply H; lia|done]. Qed.

Lemma slice_write4 page off n : (off + 4 ≤ length page)%nat → slice (mach_write_to_4 page off n) off 4 = be4 n.
Proof.
  intros Hl. rewrite write4_app by done. unfold slice. rewrite drop_app_length' by (rewrite length_take; lia).
  by rewrite take_app_length'.
Qed.

Lemma read4_slice page off : mach_read_from_4 page off = mach_read_from_4 (slice page off 4) 0.
Proof.
  unfold mach_read_from_4, byte_at. rewrite !slice_lookup. cbn. by rewrite Nat.add_0_r.
Qed.

Lemma byte_field n a m : 0 ≤ a → 0 ≤ m →
  Z.testbit (Z.shiftl (Z.land (Z.shiftr n a) 0xFF) a) m = bool_decide (a ≤ m < a + 8) && Z.testbit n m.
Proof.
  intros Ha Hm. change 0xFF with (Z.ones 8). destruct (decide (m < a)) as [Hlt|Hge].
  - rewrite Z.shiftl_spec_low by done. by rewrite bool_decide_eq_false_2 by lia.
  - rewrite Z.shiftl_spec, Z.land_spec, Z.shiftr_spec by lia. replace (m - a + a) with m by lia.
    destruct (decide (m < a + 8)) as [Hlt|Hge'].
    + by rewrite Z.ones_spec_low, bool_decide_eq_true_2, andb_true_r by lia.
    + by rewrite Z.ones_spec_high, bool_decide_eq_false_2, andb_false_r by lia.
Qed.

Lemma read_be4 n : 0 ≤ n < 2 ^ 32 → mach_read_from_4 (be4 n) 0 = n.
Proof.
  intros Hn. unfold mach_read_from_4, byte_at. cbn [be4 lookup list_lookup default from_option id Nat.add].
  replace (Z.land n 0xFF) with (Z.shiftl (Z.land (Z.shiftr n 0) 0xFF) 0) by (by rewrite Z.shiftl_0_r, Z.shiftr_0_r).
  apply Z.bits_inj'. intros m Hm. rewrite !Z.lor_spec, !byte_field by lia.
  destruct (decide (m < 32)) as [Hlt|Hge].
  - destruct (Z.testbit n m); rewrite ?andb_false_r, ?andb_true_r; [|done].
    rewrite !orb_true_iff, !bool_decide_eq_true. lia.
  - assert (Z.testbit n m = false) as ->; [|by rewrite !andb_false_r].
    destruct (decide (n = 0)) as [->|]; [apply Z.bits_0|]. apply Z.bits_above_log2; [lia|].
    enough (Z.log2 n < 32) by lia. apply Z.log2_lt_pow2; lia.
Qed.

Lemma read_write4 page off n : (off + 4 ≤ length page)%nat → 0 ≤ n < 2 ^ 32 → mach_read_from_4 (mach_write_to_4 page off n) off = n.
Proof. intros Hl Hn. by rewrite read4_slice, slice_write4, read_be4. Qed.

Lemma be4_mod n : be4 (n mod 2 ^ 32) = be4 n.
Proof.
  unfold be4. assert (∀ a, 0 ≤ a ≤ 24 → Z.land (Z.shiftr (n mod 2 ^ 32) a) 0xFF = Z.land (Z.shiftr n a) 0xFF) as H.
  { intros a Ha. apply Z.bits_inj'. intros m Hm. rewrite !Z.land_spec, !Z.shiftr_spec by done. change 0xFF with (Z.ones 8).
    destruct (decide (m < 8)); [by rewrite Z.mod_pow2_bits_low by lia|by rewrite Z.ones_spec_high, !andb_false_r by lia]. }
  rewrite !H by lia. pose proof (H 0 ltac:(lia)) as H0. rewrite !Z.shiftr_0_r in H0. by rewrite H0.
Qed.

Lemma read_write8 page off n : (off + 8 ≤ length page)%nat → 0 ≤ n < 2 ^ 64 → mach_read_from_8 (mach_write_to_8 page off n) off = n.
Proof.
  intros Hl Hn. unfold mach_read_from_8, mach_write_to_8.
  rewrite (read4_slice _ off), (slice_same _ (mach_write_to_4 page off (Z.shiftr n 32))) by (intros i Hi; apply write4_lookup; lia).
  rewrite slice_write4 by lia. rewrite (read4_slice _ (off + 4)), slice_write4, <- (be4_mod n) by (rewrite write4_length; lia).
  rewrite !read_be4.
  - apply Z.bits_inj'. intros m Hm. rewrite Z.lor_spec. destruct (decide (m < 32)).
    + by rewrite Z.shiftl_spec_low, Z.mod_pow2_bits_low by lia.
    + rewrite Z.shiftl_spec, Z.shiftr_spec, Z.mod_pow2_bits_high, orb_false_r by lia. f_equal. lia.
  - apply Z.mod_pos_bound. lia.
  - rewrite Z.shiftr_div_pow2 by lia. split; [apply Z.div_pos; lia|apply Z.div_lt_upper_bound; lia].
Qed.

(** * Fields of a page that was written *)

Lemma read4_same p q off : (∀ i, (off ≤ i < off + 4)%nat → p !! i = q !! i) → mach_read_from_4 p off = mach_read_from_4 q off.
Proof. intros H. rewrite read4_slice, (read4_slice q). by rewrite (slice_same p q). Qed.

Lemma be4_bytes n : Forall is_byte (be4 n).
Proof. unfold be4. repeat constructor; apply byte_range. Qed.



Lemma slice_bytes page off len : Forall is_byte page → Forall is_byte (slice page off len).
Proof. intros H. by apply Forall_take, Forall_drop. Qed.


Lemma land32_range n : 0 ≤ Z.land n 0xFFFFFFFF < 2 ^ 32.
Proof. change 0xFFFFFFFF with (Z.ones 32). rewrite Z.land_ones by done. by apply Z.mod_pos_bound. Qed.

Lemma slice8_range a buf : 0 ≤ ut_crc32_slice8 a buf < 2 ^ 32.
Proof.
  unfold ut_crc32_slice8. destruct (align_loop _ _ _) as [c1 b1], (loop32 _ _ b1) as [c2 b2], (loop8 _ _ b2) as [c3 b3].
  apply land32_range.
Qed.



Section roundtrip.
Context (N : nat) (HN : (64 ≤ N)%nat).

Lemma crc32_range a p : 0 ≤ buf_calc_page_crc32 N a p < 2 ^ 32.
Proof. apply lxor_range; [done|apply slice8_range..]. Qed.



(** A page with its fields written: the log sequence numbers and then the two checksums. *)
Definition stamped (page : list Z) (lsn : Z) : list Z := mach_write_to_8 (mach_write_to_8 page 16 lsn) (N - 8) lsn.

Lemma stamped_fields page lsn c1 c2 (p := mach_write_to_4 (mach_write_to_4 (stamped page lsn) 0 c1) (N - 8) c2) :
  length page = N → 0 ≤ lsn < 2 ^ 64 → 0 ≤ c1 < 2 ^ 32 → 0 ≤ c2 < 2 ^ 32 →
  mach_read_from_4 p 0 = c1 ∧ mach_read_from_4 p (N - 8) = c2 ∧ mach_read_from_8 p 16 = lsn ∧
  slice p 20 4 = be4 lsn ∧ slice p (N - 8 + 4) 4 = be4 lsn.
Proof.
  intros Hl Hlsn H1 H2. subst p. unfold stamped.
  set (q := mach_write_to_8 (mach_write_to_8 page 16 lsn) (N - 8) lsn). assert (length q = N) as Hq by (unfold q; by rewrite !write8_length).
  split_and!.
  - rewrite (read4_same _ (mach_write_to_4 q 0 c1)) by (intros; apply write4_lookup; lia). apply read_write4; [lia|done].
  - apply read_write4; [rewrite write4_length; lia|done].
  - assert (∀ i, (16 ≤ i < 24)%nat → mach_write_to_4 (mach_write_to_4 q 0 c1) (N - 8) c2 !! i = mach_write_to_8 page 16 lsn !! i) as Hs.
    { intros i Hi. rewrite !write4_lookup by lia. apply write8_lookup. lia. }
    unfold mach_read_from_8. rewrite (read4_same _ (mach_write_to_8 page 16 lsn) 16), (read4_same _ (mach_write_to_8 page 16 lsn) (16 + 4))
      by (intros; apply Hs; lia). apply read_write8; [lia|done].
  - rewrite (slice_same _ (mach_write_to_8 page 16 lsn)) by (intros; rewrite !write4_lookup by lia; apply write8_lookup; lia).
    apply (slice_write4 _ (16 + 4)). rewrite write4_length. lia.
  - rewrite (slice_same _ q) by (intros; by rewrite !write4_lookup by lia). apply slice_write4. rewrite write4_length, write8_length. lia.
Qed.

End roundtrip.

(** * The formats *)

(** A page that is in one of the three formats passes under every algorithm, and without a
    warning when the format is the one of the algorithm. *)
Definition format_of (algo : srv_checksum_algorithm_t) : srv_checksum_algorithm_t :=
  match algo with CRC32 | STRICT_CRC32 => CRC32 | INNODB | STRICT_INNODB => INNODB | NONE | STRICT_NONE => NONE end.



(** * What is written passes the test *)

Section written.
Context (N : nat) (HN : (64 ≤ N)%nat) (a a' : nat) (enc : Z → bool).

Lemma init_page_stamped algo page lsn (q := stamped N page lsn) :
  ∃ c1 c2, init_page N a algo page lsn = mach_write_to_4 (mach_write_to_4 q 0 c1) (N - 8) c2 ∧ 0 ≤ c1 < 2 ^ 32 ∧ 0 ≤ c2 < 2 ^ 32 ∧
    match format_of algo with
    | CRC32 => c1 = buf_calc_page_crc32 N a q ∧ c2 = c1
    | INNODB => c1 = buf_calc_page_new_checksum N q ∧ c2 = buf_calc_page_old_checksum (mach_write_to_4 q 0 c1)
    | _ => c1 = BUF_NO_CHECKSUM_MAGIC ∧ c2 = c1
    end.
Proof.
  unfold init_page. destruct algo; cbn [format_of]; eexists _, _; (split; [reflexivity|]);
    (split_and!; [..|try reflexivity|try reflexivity]); try apply crc32_range; try apply u32_range; try done;
    unfold buf_calc_page_new_checksum, buf_calc_page_old_checksum; rewrite u32_id; try done; apply land32_range.
Qed.


(** ** Compressed pages *)






End written.


(** What the comments of [srv_checksum_algorithm_t] allow: the three algorithms that are not
    strict allow all formats when reading, a strict one only the format it writes. *)
Definition allows (reader writer : srv_checksum_algorithm_t) : bool :=
  match reader with
  | CRC32 | INNODB | NONE => true
  | STRICT_CRC32 => match writer with CRC32 | STRICT_CRC32 => true | _ => false end
  | STRICT_INNODB => match writer with INNODB | STRICT_INNODB => true | _ => false end
  | STRICT_NONE => match writer with NONE | STRICT_NONE => true | _ => false end
  end.


Lemma bytes_check l : forallb (λ b, (0 <=? b) && (b <? 256)) l = true → Forall is_byte l.
Proof. intros Hf. apply Forall_forall. intros b Hb. rewrite forallb_forall in Hf. apply list_elem_of_In, Hf in Hb. unfold is_byte. lia. Qed.

(** A sample page and a compressed index page. *)
Definition sample_page : list Z := [0;0;0;0; 0;0;0;7; 0;0;0;0; 0;0;0;0; 0;0;0;0;0;0;0;0; 0x45;0xBF] ++ (Z.of_nat <$> seq 1 54).
Definition sample_zip : list Z := Z.of_nat <$> seq 100 50.


(** The comments and the code disagree on the other pages: a strict algorithm takes a page in
    a format it is documented not to allow, with a warning. *)
Lemma strict_takes_other_format :
  let out := buf_flush_init_for_writing 80 3 CRC32 sample_page (Some sample_zip) 0x123456789 in
  allows STRICT_INNODB CRC32 = false ∧
  ((λ p, buf_page_is_corrupted 80 5 (λ _, true) STRICT_INNODB (written p) (written_zip_size p)) <$> out)
    = Some (false, Some CRC32).
Proof. split; [done|]. vm_compute. reflexivity. Qed.

(** * Damage that is found *)

Lemma crc32c_window u v k :
  Forall is_byte u → Forall is_byte v → length u = length v → (k + 4 ≤ length u)%nat →
  (∀ i, (i < k ∨ k + 4 ≤ i)%nat → u !! i = v !! i) → u ≠ v → crc32c u ≠ crc32c v.
Proof.
  intros Hu Hv Hl Hk Hs Hne.
  assert (∀ w, w = take k w ++ slice w k 4 ++ drop (k + 4) w) as Hcut.
  { intros w. unfold slice. by rewrite <- drop_drop, take_drop, take_drop. }
  assert (take k u = take k v) as Ht by (apply (slice_same u v 0 k); intros; apply Hs; lia).
  assert (drop (k + 4) u = drop (k + 4) v) as Hd.
  { apply list_eq. intros i. rewrite !lookup_drop. apply Hs. lia. }
  assert (∀ w : list Z, (k + 4 ≤ length w)%nat → length (slice w k 4) = 4%nat) as Hlen.
  { intros w Hw. unfold slice. rewrite length_take, length_drop. lia. }
  rewrite (Hcut u), (Hcut v), <- Ht, <- Hd. apply crc_burst; rewrite ?Hlen by lia; try done.
  - by rewrite <- Hcut.
  - by apply slice_bytes.
  - intros E. apply Hne. rewrite (Hcut u), (Hcut v). congruence.
Qed.

(** C26: damage that stays within four adjacent bytes of what the checksum covers is always found:
    a page that fits its CRC-32 fields does not fit them any more. *)
Theorem page_crc32_detects_burst N a a' p q k f1 f2 :
  (64 ≤ N)%nat → length p = N → length q = N → Forall is_byte p → Forall is_byte q →
  (4 ≤ k ∧ k + 4 ≤ 26 ∨ 38 ≤ k ∧ k + 4 ≤ N - 8)%nat →
  (∀ i, (i < k ∨ k + 4 ≤ i)%nat → p !! i = q !! i) → p ≠ q →
  buf_page_is_checksum_valid_crc32 N a p f1 f2 = true → buf_page_is_checksum_valid_crc32 N a' q f1 f2 = false.
Proof.
  intros HN Hp Hq Hbp Hbq Hk Hs Hne H. unfold buf_page_is_checksum_valid_crc32 in *.
  enough (buf_calc_page_crc32 N a p ≠ buf_calc_page_crc32 N a' q) as Hc.
  { apply andb_true_iff in H as [->%Z.eqb_eq _]. apply andb_false_iff. left. by apply Z.eqb_neq. }
  clear H. unfold buf_calc_page_crc32, DATA_LEN, HEADER_LEN, FIL_PAGE_OFFSET, FIL_PAGE_DATA, FIL_PAGE_FILE_FLUSH_LSN_OR_KEY_VERSION, FIL_PAGE_END_LSN_OLD_CHKSUM.
  rewrite !ut_crc32_slice8_correct by by apply slice_bytes.
  assert (∀ o len, (o ≤ k)%nat → (k + 4 ≤ o + len)%nat → (o + len ≤ N)%nat → crc32c (slice p o len) ≠ crc32c (slice q o len)) as Hw.
  { intros o len H1 H2 H3. assert (∀ w : list Z, length w = N → length (slice w o len) = len) as Hlen.
    { intros w Hw. unfold slice. rewrite length_take, length_drop. lia. }
    apply (crc32c_window _ _ (k - o)); rewrite ?Hlen by done; try (by apply slice_bytes); [done|lia|..].
    - intros i Hi. rewrite !slice_lookup. case_decide; [apply Hs; lia|done].
    - intros E. apply Hne, list_eq. intros i. destruct (decide (o ≤ i < o + len)%nat) as [Hi|Hi]; [|apply Hs; lia].
      apply (f_equal (lookup (i - o)%nat)) in E. rewrite !slice_lookup, !decide_True in E by lia. by replace (o + (i - o))%nat with i in E by lia. }
  destruct Hk as [Hk|Hk].
  - rewrite (slice_same p q 38) by (intros; apply Hs; lia). intros E. apply (Hw 4%nat (26 - 4)%nat); [lia..|].
    apply (f_equal (λ z, Z.lxor z (crc32c (slice q 38 (N - 38 - 8))))) in E. by rewrite !Z.lxor_assoc, Z.lxor_nilpotent, !Z.lxor_0_r in E.
  - rewrite (slice_same p q 4) by (intros; apply Hs; lia). intros E. apply (Hw 38%nat (N - 38 - 8)%nat); [lia..|].
    apply (f_equal (Z.lxor (crc32c (slice q 4 (26 - 4))))) in E. by rewrite <- !Z.lxor_assoc, Z.lxor_nilpotent, !Z.lxor_0_l in E.
Qed.

(** The sample page with its checksums, and with one byte of its data changed. *)
Definition sample_written : list Z := Eval vm_compute in init_page 80 0 CRC32 sample_page 1000.
Definition sample_damaged : list Z := Eval vm_compute in <[50%nat := 0]> sample_written.

Lemma page_crc32_detects_burst_witness :
  let f1 := mach_read_from_4 sample_written 0 in let f2 := mach_read_from_4 sample_written 72 in
  buf_page_is_checksum_valid_crc32 80 0 sample_written f1 f2 = true ∧ buf_page_is_checksum_valid_crc32 80 3 sample_damaged f1 f2 = false.
Proof.
  cbn zeta. split; [vm_compute; reflexivity|].
  apply (page_crc32_detects_burst 80 0 3 sample_written sample_damaged 48 _ _); [lia|done|done|apply bytes_check; reflexivity..|lia| |done|vm_compute; reflexivity].
  intros i Hi. change sample_damaged with (<[50%nat := 0]> sample_written). symmetry. apply list_lookup_insert_ne. lia.
Defined.

Lemma init_page_lsn N a algo page lsn : (64 ≤ N)%nat → length page = N → 0 ≤ lsn < 2 ^ 64 →
  length (init_page N a algo page lsn) = N ∧
  slice (init_page N a algo page lsn) 20 4 = be4 lsn ∧ slice (init_page N a algo page lsn) (N - 8 + 4) 4 = be4 lsn.
Proof.
  intros HN Hl Hlsn. destruct (init_page_stamped N a algo page lsn) as (c1 & c2 & -> & H1 & H2 & _).
  destruct (stamped_fields N HN page lsn c1 c2 Hl Hlsn H1 H2) as (_ & _ & _ & ? & ?). split_and!; [|done..].
  unfold stamped. by rewrite !write4_length, !write8_length.
Qed.

(** C27: a torn write is found: a page of at least 64 bytes whose first [k] bytes come from one
    write and whose rest from another one, with the cut behind the log sequence number in the
    header and before its copy in the last four bytes ([24 <= k <= N - 4]), is reported as corrupt,
    even with checksums switched off, if the log sequence numbers of the two writes differ in
    their low halves and no tablespace is encrypted. *)
Theorem torn_write_corrupted N a a1 a2 enc algo algo1 algo2 page1 page2 lsn1 lsn2 k :
  (64 ≤ N)%nat → length page1 = N → length page2 = N → 0 ≤ lsn1 < 2 ^ 64 → 0 ≤ lsn2 < 2 ^ 64 →
  lsn1 mod 2 ^ 32 ≠ lsn2 mod 2 ^ 32 → (24 ≤ k ≤ N - 4)%nat → (∀ space, enc space = false) →
  buf_page_is_corrupted N a enc algo (take k (init_page N a1 algo1 page1 lsn1) ++ drop k (init_page N a2 algo2 page2 lsn2)) 0 = (true, None).
Proof.
  intros HN Hl1 Hl2 H1 H2 Hne Hk He. destruct (init_page_lsn N a1 algo1 page1 lsn1 HN Hl1 H1) as (L1 & S1 & _).
  destruct (init_page_lsn N a2 algo2 page2 lsn2 HN Hl2 H2) as (L2 & _ & S2).
  set (p1 := init_page N a1 algo1 page1 lsn1) in *. set (p2 := init_page N a2 algo2 page2 lsn2) in *. clearbody p1 p2.
  assert (length (take k p1) = k) as Ht by (rewrite length_take; lia).
  rewrite (slice_same p1 (take k p1 ++ drop k p2)) in S1.
  2:{ intros i Hi. rewrite lookup_app_l by lia. by rewrite lookup_take_lt by lia. }
  rewrite (slice_same p2 (take k p1 ++ drop k p2)) in S2.
  2:{ intros i Hi. rewrite lookup_app_r, lookup_drop, Ht by lia. f_equal. lia. }
  unfold buf_page_is_corrupted, TRAILER, FIL_PAGE_END_LSN_OLD_CHKSUM. change (FIL_PAGE_LSN + 4)%nat with 20%nat.
  rewrite He, S1, S2, bool_decide_eq_false_2; [done|]. intros E. apply Hne.
  rewrite <- (be4_mod lsn1), <- (be4_mod lsn2) in E. apply (f_equal (λ l, mach_read_from_4 l 0)) in E.
  by rewrite !read_be4 in E by (by apply Z.mod_pos_bound).
Qed.

Lemma torn_write_corrupted_witness :
  buf_page_is_corrupted 80 0 (λ _, false) NONE (take 40 (init_page 80 0 CRC32 sample_page 1000) ++ drop 40 (init_page 80 0 CRC32 sample_page 2000)) 0
  = (true, None).
Proof. apply (torn_write_corrupted 80 0 0 0 (λ _, false) NONE CRC32 CRC32 sample_page sample_page 1000 2000 40); done || lia. Defined.


(** * Empty pages *)

(** A page that was never written, all of whose bytes are zero, is accepted by every algorithm. *)
Lemma zero_page_not_corrupted N a enc algo p :
  (64 ≤ N)%nat → length p = N → buf_page_is_zeroes N p 0 = true → buf_page_is_corrupted N a enc algo p 0 = (false, None).
Proof.
  intros HN Hl Hz. unfold buf_page_is_zeroes in Hz. cbn [Nat.eqb] in Hz. pose proof Hz as Hall. rewrite forallb_forall in Hz.
  assert (∀ i, (i < N)%nat → byte_at p i = 0) as H0 by (intros i Hi; apply Z.eqb_eq, Hz, in_seq; lia).
  assert (∀ i, (i < N)%nat → p !! i = Some 0) as Hl0.
  { intros i Hi. destruct (lookup_lt_is_Some_2 p i) as [b Hb]; [lia|]. specialize (H0 i Hi). unfold byte_at in H0. rewrite Hb in *. cbn in H0. by subst. }
  assert (∀ o, (o + 4 ≤ N)%nat → mach_read_from_4 p o = 0) as Hr by (intros o Ho; unfold mach_read_from_4; by rewrite !H0 by lia).
  unfold buf_page_is_corrupted, fil_page_is_encrypted, TRAILER, FIL_PAGE_FILE_FLUSH_LSN_OR_KEY_VERSION, FIL_PAGE_END_LSN_OLD_CHKSUM, FIL_PAGE_SPACE_OR_CHKSUM.
  rewrite !Hr by (unfold FIL_PAGE_ARCH_LOG_NO_OR_SPACE_ID; lia). rewrite andb_false_r, Hall. cbn [Nat.eqb negb andb].
  rewrite bool_decide_eq_true_2.
  - cbn [negb andb]. case_decide; [done|]. assert (forallb (λ i, byte_at p i =? 0) (seq FIL_PAGE_LSN 8) = true) as ->; [|done].
    apply forallb_forall. intros i Hi%in_seq. apply Z.eqb_eq, H0. unfold FIL_PAGE_LSN in Hi. lia.
  - apply list_eq. intros i. rewrite !slice_lookup. case_decide; [|done]. by rewrite !Hl0 by (unfold FIL_PAGE_LSN; lia).
Qed.

End BufPage.
