(* ===== verification/BufChunk.v ===== *)
(** The memory of a buffer pool instance: [buf_chunk_init] and [buf_block_init] of
    src/Project3/ryul/buf0buf.cc, with the rounding functions of ut0ut.h, ut0byte.ic and
    ut0ut.cc that they and [buf_pool_init_instance] use.

    Addresses and sizes are integers with the wrap-around of [ulint] written out.  The page
    size, the size of a block descriptor and the allocator of large memory are parameters. *)

From S2P Require Import Prelude BufPage.

Local Open Scope Z_scope.

Module BufChunk.

(** * Rounding *)

Definition ut_2pow_round (n m : Z) : Z := Z.land n (Z.lnot (m - 1)).

Definition ut_align (ptr align_no : Z) : Z := Z.land (u64 (ptr + align_no - 1)) (Z.lnot (align_no - 1)).

(** while (res < n) res = res * 2; the loop does not end for [n] above 2^63, where [fuel] is
    not enough either. *)
Fixpoint power_up_loop (fuel : nat) (res n : Z) : option Z :=
  if res <? n then match fuel with O => None | S fuel => power_up_loop fuel (u64 (res * 2)) n end else Some res.

Definition ut_2_power_up (n : Z) : option Z := power_up_loop 64 1 n.

Definition ut_min (a b : Z) : Z := if a <=? b then a else b.

(** * Blocks *)

Inductive buf_page_state :=
  | BUF_BLOCK_POOL_WATCH | BUF_BLOCK_ZIP_PAGE | BUF_BLOCK_ZIP_DIRTY | BUF_BLOCK_NOT_USED
  | BUF_BLOCK_READY_FOR_USE | BUF_BLOCK_FILE_PAGE | BUF_BLOCK_MEMORY | BUF_BLOCK_REMOVE_HASH.

Inductive buf_io_fix := BUF_IO_NONE | BUF_IO_READ | BUF_IO_WRITE | BUF_IO_PIN.

(** The fields [buf_block_init] sets; the mutex and the lock of the block exist afterwards. *)
Record buf_block_t := BufBlock {
  frame : Z; buf_pool_index : nat; state : buf_page_state; buf_fix_count : Z; io_fix : buf_io_fix; key_version : Z;
  page_encrypted : bool; page_compressed : bool; encrypted : bool; stored_checksum : Z; calculated_checksum : Z;
  real_size : Z; write_size : Z; modify_clock : Z; slot : option Z; check_index_page_at_flush : bool; index : option Z;
  has_mutex : bool; has_lock : bool }.

Definition buf_block_init (buf_pool : nat) (frame : Z) : buf_block_t :=
  BufBlock frame buf_pool BUF_BLOCK_NOT_USED 0 BUF_IO_NONE 0 false false false BufPage.BUF_NO_CHECKSUM_MAGIC
    BufPage.BUF_NO_CHECKSUM_MAGIC 0 0 0 None false None true true.

Record buf_chunk_t := BufChunk { mem : Z; mem_size : Z; size : Z; blocks : list buf_block_t }.

Section chunk.
(** [UNIV_PAGE_SIZE] and [sizeof(buf_block_t)] *)
Context (P BS : Z).

(** Subtract the space needed for block descriptors. *)
Fixpoint descriptor_loop (fuel : nat) (blocks frame size : Z) : Z * Z :=
  match fuel with
  | O => (frame, size)
  | S fuel => if frame <? blocks + size * BS then descriptor_loop fuel blocks (u64 (frame + P)) (u64 (size - 1)) else (frame, size)
  end.

(** Init block structs, assign frames for them and add them to the free list, which holds the
    addresses of the descriptors. *)
Fixpoint block_loop (n : nat) (buf_pool : nat) (block frame : Z) (free : list Z) : list buf_block_t * list Z :=
  match n with
  | O => ([], free)
  | S n =>
      let b := buf_block_init buf_pool frame in
      let '(bs, free) := block_loop n buf_pool (block + BS) (u64 (frame + P)) (free ++ [block]) in
      (b :: bs, free)
  end.

(** [alloc] is [os_mem_alloc_large]: the address and the size of the memory. *)
Definition buf_chunk_init (alloc : Z → option (Z * Z)) (buf_pool : nat) (mem_size : Z) (free : list Z) : option (buf_chunk_t * list Z) :=
  let mem_size := ut_2pow_round mem_size P in
  let size_target := u64 (mem_size / P - 1) in
  let mem_size := u64 (mem_size + ut_2pow_round (u64 (u64 (mem_size / P * BS) + (P - 1))) P) in
  '(mem, mem_size) ← alloc mem_size;
  let frame := ut_align mem P in
  let size := u64 (mem_size / P - (if frame =? mem then 0 else 1)) in
  let '(frame, size) := descriptor_loop (Z.to_nat size) mem frame size in
  let size := if size_target <? size then size_target else size in
  let '(bs, free) := block_loop (Z.to_nat size) buf_pool mem frame free in
  Some (BufChunk mem mem_size size bs, free).

End chunk.

(** * Rounding, shown *)

Lemma round_spec n s : 0 ≤ s → ut_2pow_round n (2 ^ s) = n - n mod 2 ^ s.
Proof.
  intros Hs. unfold ut_2pow_round. assert (2 ^ s - 1 = Z.ones s) as -> by (rewrite Z.ones_equiv; lia).
  rewrite <- Z.ldiff_land, Z.ldiff_ones_r, Z.shiftl_mul_pow2, Z.shiftr_div_pow2 by done.
  pose proof (Z.div_mod n (2 ^ s) ltac:(apply Z.pow_nonzero; lia)). lia.
Qed.

(** The first multiple of the alignment from an address on. *)
Lemma align_spec ptr s : 0 ≤ s → 0 ≤ ptr → ptr + 2 ^ s ≤ 2 ^ 64 →
  (2 ^ s | ut_align ptr (2 ^ s)) ∧ ptr ≤ ut_align ptr (2 ^ s) < ptr + 2 ^ s.
Proof.
  intros Hs Hp Ho. assert (0 < 2 ^ s) as H0 by (apply Z.pow_pos_nonneg; lia).
  pose proof (round_spec (u64 (ptr + 2 ^ s - 1)) s Hs) as H. unfold ut_2pow_round in H. unfold ut_align. rewrite H.
  rewrite u64_id by lia. pose proof (Z.mod_pos_bound (ptr + 2 ^ s - 1) (2 ^ s) H0). split; [|lia].
  exists ((ptr + 2 ^ s - 1) / 2 ^ s). pose proof (Z.div_mod (ptr + 2 ^ s - 1) (2 ^ s)). lia.
Qed.

(** * The powers of two *)

Lemma power_up_loop_spec fuel k n :
  0 ≤ k ≤ 63 → n ≤ 2 ^ 63 → 63 - k ≤ Z.of_nat fuel → (k = 0 ∨ 2 ^ (k - 1) < n) →
  ∃ j, k ≤ j ≤ 63 ∧ power_up_loop fuel (2 ^ k) n = Some (2 ^ j) ∧ n ≤ 2 ^ j ∧ (j = 0 ∨ 2 ^ (j - 1) < n).
Proof.
  revert k. induction fuel as [|fuel IH]; intros k Hk Hn Hf Hm; cbn [power_up_loop]; destruct (Z.ltb_spec (2 ^ k) n) as [Hlt|Hge];
    try (exists k; split_and!; done || lia).
  - assert (k = 63) as -> by lia. lia.
  - assert (k < 63) as Hk'.
    { destruct (decide (k = 63)) as [->|]; lia. }
    assert (u64 (2 ^ k * 2) = 2 ^ (k + 1)) as ->.
    { rewrite Z.pow_add_r by lia. change (2 ^ 1) with 2. apply u64_id. split; [apply Z.mul_nonneg_nonneg; lia|].
      assert (2 ^ k ≤ 2 ^ 62) by (apply Z.pow_le_mono_r; lia). lia. }
    destruct (IH (k + 1)) as (j & Hj & H1 & H2 & H3); [lia..|right; by replace (k + 1 - 1) with k by lia|].
    exists j. split_and!; done || lia.
Qed.

(** The first power of two from a number on. *)
Lemma power_up_spec n : n ≤ 2 ^ 63 →
  ∃ j, 0 ≤ j ≤ 63 ∧ ut_2_power_up n = Some (2 ^ j) ∧ n ≤ 2 ^ j ∧ (j = 0 ∨ 2 ^ (j - 1) < n).
Proof. intros Hn. apply (power_up_loop_spec 64 0 n); [lia..|by left]. Qed.

Lemma power_up_le n m j : n ≤ 2 ^ j → 0 ≤ j ≤ 63 → ut_2_power_up n = Some m → 1 ≤ m ≤ 2 ^ j.
Proof.
  intros Hn Hj Hm. assert (2 ^ j ≤ 2 ^ 63) as Hj63 by (apply Z.pow_le_mono_r; lia).
  destruct (power_up_spec n) as (i & Hi & Hs & _ & Hlo); [lia|]. rewrite Hm in Hs. injection Hs as ->.
  assert (0 < 2 ^ i) by (apply Z.pow_pos_nonneg; lia). split; [lia|]. destruct Hlo as [-> | Hlo]; [apply Z.pow_le_mono_r; lia|].
  assert (i - 1 < j) by (apply (Z.pow_lt_mono_r_iff 2); lia). apply Z.pow_le_mono_r; lia.
Qed.

(** Rounding up twice is rounding up once. *)
Lemma power_up_idem n m : n ≤ 2 ^ 63 → ut_2_power_up n = Some m → ut_2_power_up m = Some m.
Proof.
  intros Hn Hm. destruct (power_up_spec n Hn) as (i & Hi & H & _ & _). rewrite Hm in H. injection H as ->.
  assert (2 ^ i ≤ 2 ^ 63) by (apply Z.pow_le_mono_r; lia).
  destruct (power_up_spec (2 ^ i)) as (j & Hj & H2 & Hle & Hlo); [lia|]. rewrite H2. do 2 f_equal.
  apply (Z.pow_le_mono_r_iff 2) in Hle; [|lia..]. destruct Hlo as [-> | Hlo]; [lia|].
  apply (Z.pow_lt_mono_r_iff 2) in Hlo; lia.
Qed.

(** * The chunk *)

Section chunk_ok.
Context (s P BS : Z) (HP : P = 2 ^ s) (Hs : 0 ≤ s) (HBS : 0 < BS).

Lemma P_pos : 0 < P.
Proof. subst P. apply Z.pow_pos_nonneg; lia. Qed.

(** The loop keeps the end of the last frame and stops where the descriptors fit. *)
Lemma descriptor_loop_ok fuel m f n k f' n' :
  0 ≤ m ≤ f → 0 ≤ n → f + n * P < 2 ^ 64 → Z.of_nat fuel = n → 0 ≤ k ≤ n → m + k * BS ≤ f + (n - k) * P →
  descriptor_loop P BS fuel m f n = (f', n') →
  k ≤ n' ≤ n ∧ f' = f + (n - n') * P ∧ m + n' * BS ≤ f'.
Proof.
  pose proof P_pos as H0. revert f n. induction fuel as [|fuel IH]; intros f n Hm Hn Ho Hf Hk Hfit H; cbn [descriptor_loop] in H.
  - injection H as <- <-. assert (n = 0) as -> by lia. split_and!; lia.
  - destruct (Z.ltb_spec f (m + n * BS)) as [Hlt|Hge]; [|injection H as <- <-; split_and!; lia].
    assert (k ≠ n) as Hne by (intros ->; lia).
    rewrite !u64_id in H by nia. destruct (IH (f + P) (n - 1)) as (H1 & -> & H3); (done || lia).
Qed.

Lemma block_loop_ok n pool b f free bs free' :
  0 ≤ f → f + Z.of_nat n * P < 2 ^ 64 → block_loop P BS n pool b f free = (bs, free') →
  bs = (λ i : nat, buf_block_init pool (f + Z.of_nat i * P)) <$> seq 0 n ∧ free' = free ++ ((λ i : nat, b + Z.of_nat i * BS) <$> seq 0 n).
Proof.
  pose proof P_pos as H0. revert b f free bs free'. induction n as [|n IH]; intros b f free bs free' Hf Ho H; cbn [block_loop] in H.
  - injection H as <- <-. by rewrite app_nil_r.
  - rewrite u64_id in H by lia. destruct (block_loop _ _ _ _ _ _ _) as [bs1 free1] eqn:E. injection H as <- <-.
    apply IH in E as [-> ->]; [|lia..]. change (seq 0 (S n)) with (0%nat :: seq 1 n). rewrite <- app_assoc, !fmap_cons, <- !fmap_S_seq, <- !list_fmap_compose.
    cbn [Z.of_nat app]. rewrite !Z.mul_0_l, !Z.add_0_r. split; [apply (f_equal (cons _))|do 2 apply f_equal];
      apply list_fmap_ext; intros i x _; unfold compose; first [lia|f_equal; lia].
Qed.

(** What [os_mem_alloc_large] promises: at least the size asked for, inside the address space. *)
Definition alloc_ok (alloc : Z → option (Z * Z)) (n : Z) : Prop :=
  ∃ m n', alloc n = Some (m, n') ∧ n ≤ n' ∧ 0 < m ∧ m + n' + P < 2 ^ 64.

(** The size [buf_chunk_init] asks for when [k] pages are wanted. *)
Definition request (k : Z) : Z := k * P + ut_2pow_round (k * BS + (P - 1)) P.

(** A chunk of [n] blocks: the descriptors are in front, each block has its own aligned frame
    behind them, all within the memory of the chunk. *)
Definition chunk_ok (c : buf_chunk_t) (pool : nat) (n : nat) : Prop :=
  size c = Z.of_nat n ∧ ∃ f, (P | f) ∧ mem c + Z.of_nat n * BS ≤ f ∧ f + Z.of_nat n * P ≤ mem c + mem_size c ∧
  blocks c = (λ i : nat, buf_block_init pool (f + Z.of_nat i * P)) <$> seq 0 n.

Definition block_addrs (c : buf_chunk_t) (n : nat) : list Z := (λ i : nat, mem c + Z.of_nat i * BS) <$> seq 0 n.

Lemma request_bounds k : 0 ≤ k → k * P + k * BS ≤ request k < k * P + k * BS + P ∧ (P | request k).
Proof.
  intros Hk. pose proof P_pos as H0. unfold request. rewrite HP, round_spec, <- HP by done.
  pose proof (Z.mod_pos_bound (k * BS + (P - 1)) P H0). split; [lia|].
  exists (k + (k * BS + (P - 1)) / P). pose proof (Z.div_mod (k * BS + (P - 1)) P). lia.
Qed.

(** The space in front of the frames: both alignments of the memory. *)
Lemma frames_fit k m n' f : 1 ≤ k → request k ≤ n' → (P | f) → m ≤ f < m + P →
  let n := n' / P - (if f =? m then 0 else 1) in
  0 ≤ k - 1 ≤ n ∧ f + n * P ≤ m + n' ∧ m + (k - 1) * BS ≤ f + (n - (k - 1)) * P.
Proof.
  intros Hk Hr Hd Hf. pose proof P_pos as H0. destruct (request_bounds k ltac:(lia)) as [[Hr1 Hr2] [d Hd']].
  assert (d ≤ n' / P) as Hle by (apply Z.div_le_lower_bound; lia). pose proof (Z.mul_div_le n' P H0).
  cbn zeta. assert (k ≤ d) by nia. destruct (Z.eqb_spec f m) as [->|Hne]; split_and!; nia.
Qed.

Lemma buf_chunk_init_ok alloc pool mem_sz free k :
  k = mem_sz / P → 1 ≤ k → 0 ≤ mem_sz < 2 ^ 64 → request k < 2 ^ 64 → k * BS + P < 2 ^ 64 → alloc_ok alloc (request k) →
  ∃ c, buf_chunk_init P BS alloc pool mem_sz free = Some (c, free ++ block_addrs c (Z.to_nat (k - 1))) ∧ chunk_ok c pool (Z.to_nat (k - 1)) ∧ 0 < mem c.
Proof.
  intros -> Hk Hm Hr Ho (m & n' & Ha & Hn & Hm0 & Hmo). pose proof P_pos as H0. unfold buf_chunk_init.
  set (k := mem_sz / P) in *. assert (ut_2pow_round mem_sz P = k * P) as ->.
  { rewrite HP, round_spec, <- HP by done. pose proof (Z.div_mod mem_sz P). unfold k. lia. }
  rewrite Z.div_mul by lia. rewrite (u64_id (k * BS)) by nia. rewrite (u64_id (k * BS + (P - 1))) by nia. fold (request k).
  destruct (request_bounds k ltac:(lia)) as [Hrb _]. rewrite (u64_id (request k)) by nia. rewrite Ha. cbn [mbind option_bind].
  destruct (align_spec m s Hs ltac:(lia) ltac:(lia)) as [Hdiv Hal]. rewrite <- HP in *. set (f := ut_align m P) in *.
  pose proof (frames_fit k m n' f Hk Hn Hdiv Hal) as Hfit. cbn zeta in Hfit. set (n := n' / P - (if f =? m then 0 else 1)) in *.
  destruct Hfit as (Hkn & Hend & Hfit). rewrite (u64_id n) by nia.
  destruct (descriptor_loop P BS (Z.to_nat n) m f n) as [f1 n1] eqn:E.
  apply (descriptor_loop_ok _ _ _ _ (k - 1)) in E as (H1 & -> & H3); [|lia..].
  rewrite (u64_id (k - 1)) by nia.
  assert ((if k - 1 <? n1 then k - 1 else n1) = k - 1) as -> by (destruct (Z.ltb_spec (k - 1) n1); lia).
  assert (0 ≤ (n - n1) * P) as Hpos by (apply Z.mul_nonneg_nonneg; lia).
  assert (f + (n - n1) * P + (k - 1) * P ≤ m + n') as Hin.
  { assert ((k - 1) * P ≤ n1 * P) by (apply Z.mul_le_mono_nonneg_r; lia). lia. }
  assert (m + (k - 1) * BS ≤ f + (n - n1) * P) as Hdesc.
  { assert ((k - 1) * BS ≤ n1 * BS) by (apply Z.mul_le_mono_nonneg_r; lia). lia. }
  destruct (block_loop _ _ _ _ _ _ _) as [bs free'] eqn:E. apply block_loop_ok in E as [-> ->]; [|lia..].
  match goal with |- context [BufChunk ?a ?b ?d ?e] => exists (BufChunk a b d e) end.
  split; [reflexivity|]. split; [|done]. split; [cbn; lia|]. exists (f + (n - n1) * P). cbn.
  rewrite Z2Nat.id by lia. split_and!; [|lia..|done]. apply Z.divide_add_r; [done|]. by exists (n - n1).
Qed.

End chunk_ok.

(** The number of blocks is one less than the pages asked for, for every page size and every
    size of the memory that the allocation returns. *)
Lemma buf_chunk_one_less s P BS alloc pool mem_sz free k :
  P = 2 ^ s → 0 ≤ s → 0 < BS → k = mem_sz / P → 1 ≤ k → 0 ≤ mem_sz < 2 ^ 64 → request P BS k < 2 ^ 64 → k * BS + P < 2 ^ 64 →
  alloc_ok P alloc (request P BS k) →
  ∃ c free', buf_chunk_init P BS alloc pool mem_sz free = Some (c, free') ∧ size c = k - 1.
Proof.
  intros HP Hs HBS Hkeq Hk Hm Hr Ho Ha.
  destruct (buf_chunk_init_ok s P BS HP Hs HBS alloc pool mem_sz free k Hkeq Hk Hm Hr Ho Ha) as (c & E & (Hsz & _) & _).
  rewrite Z2Nat.id in Hsz by lia. eauto.
Qed.

(** C21: when [os_mem_alloc_large] returns the memory, [buf_chunk_init] makes at most one block
    less than the pages asked for, whatever the alignment of the memory: every frame is aligned
    to the page size, behind all the descriptors, inside the memory and disjoint from the other
    frames, and the free list grows by every block once, in order. *)
Theorem buf_chunk_frames s P BS alloc pool mem_sz free k :
  P = 2 ^ s → 0 ≤ s → 0 < BS → k = mem_sz / P → 1 ≤ k → 0 ≤ mem_sz < 2 ^ 64 → request P BS k < 2 ^ 64 → k * BS + P < 2 ^ 64 →
  alloc_ok P alloc (request P BS k) →
  ∃ c, buf_chunk_init P BS alloc pool mem_sz free = Some (c, free ++ ((λ i : nat, mem c + Z.of_nat i * BS) <$> seq 0 (Z.to_nat (size c)))) ∧
    k - 1 ≤ size c ∧ length (blocks c) = Z.to_nat (size c) ∧
    (∀ i b, blocks c !! i = Some b → state b = BUF_BLOCK_NOT_USED ∧ buf_pool_index b = pool ∧
       (P | frame b) ∧ mem c + size c * BS ≤ frame b ∧ frame b + P ≤ mem c + mem_size c) ∧
    (∀ i j b b', (i < j)%nat → blocks c !! i = Some b → blocks c !! j = Some b' → frame b + P ≤ frame b').
Proof.
  intros HP Hs HBS Hkeq Hk Hm Hr Ho Ha.
  destruct (buf_chunk_init_ok s P BS HP Hs HBS alloc pool mem_sz free k Hkeq Hk Hm Hr Ho Ha) as (c & E & (Hsz & f & Hd & Hlo & Hhi & Hb) & _).
  assert (0 < P) as H0 by (subst P; apply Z.pow_pos_nonneg; lia). rewrite Z2Nat.id in Hsz, Hlo, Hhi by lia.
  assert (∀ i b, blocks c !! i = Some b → b = buf_block_init pool (f + Z.of_nat i * P) ∧ Z.of_nat i < k - 1) as Hlook.
  { intros i b Hi. rewrite Hb in Hi. apply list_lookup_fmap_Some in Hi as (j & -> & [-> Hlt]%lookup_seq). split; [done|lia]. }
  exists c. split_and!; [by rewrite Hsz|lia|by rewrite Hb, length_fmap, length_seq, Hsz|..].
  - intros i b Hi. destruct (Hlook i b Hi) as [-> Hlt]. cbn. split_and!; [done|done|..].
    + apply Z.divide_add_r; [done|]. by exists (Z.of_nat i).
    + nia.
    + assert ((Z.of_nat i + 1) * P ≤ (k - 1) * P) by (apply Z.mul_le_mono_nonneg_r; lia). lia.
  - intros i j b b' Hij Hi Hj. destruct (Hlook i b Hi) as [-> _], (Hlook j b' Hj) as [-> _]. cbn.
    assert ((Z.of_nat i + 1) * P ≤ Z.of_nat j * P) by (apply Z.mul_le_mono_nonneg_r; lia). lia.
Qed.

(** Ten pages of 16 bytes, descriptors of 5 bytes, memory at an odd address. *)
Lemma buf_chunk_frames_witness :
  ∃ c, buf_chunk_init 16 5 (λ n, Some (1001, n)) 2 165 [7] =
      Some (c, [7] ++ ((λ i : nat, mem c + Z.of_nat i * 5) <$> seq 0 (Z.to_nat (size c)))) ∧
    10 - 1 ≤ size c ∧ (frame <$> blocks c) = [1056; 1072; 1088; 1104; 1120; 1136; 1152; 1168; 1184] ∧
    length (blocks c) = Z.to_nat (size c).
Proof.
  destruct (buf_chunk_frames 4 16 5 (λ n, Some (1001, n)) 2 165 [7] 10) as (c & E & Hs & Hl & _ & _); try done.
  - exists 1001, 224. done.
  - exists c. split; [exact E|]. split; [exact Hs|]. split; [|exact Hl]. vm_compute in E. injection E as <-. reflexivity.
Defined.

End BufChunk.
