(* ===== verification/UtList.v ===== *)
(** The two-way lists of src/Project3/mariadb/server/storage/xtradb/include/ut0lst.h, which
    hold the LRU lists, the flush lists and the free lists of the buffer pool.

    A list is a base node and a memory of list nodes, one per element.  Following a pointer to
    an element that is not there has no result.  The theorem says that the functions implement
    the operations on sequences and touch no node of another list, and that the two walks of
    the consistency check succeed on every list built with them; the components above use the
    sequences. *)

From S2P Require Import Prelude.

Module UtList.

Notation ptr := nat (only parsing).

(** [ut_list_node] and [ut_list_base]. *)
Record ut_list_node := Node { prev : option ptr; next : option ptr }.
Record ut_list_base := Base { count : nat; start : option ptr; end_ : option ptr }.

Notation heap := (gmap nat ut_list_node).

Definition UT_LIST_INIT : ut_list_base := Base 0 None None.

(** Assignments to the fields of the node of an element. *)
Definition set_prev (h : heap) (e : ptr) (v : option ptr) : option heap := n ← h !! e; Some (<[e:=Node v (next n)]> h).
Definition set_next (h : heap) (e : ptr) (v : option ptr) : option heap := n ← h !! e; Some (<[e:=Node (prev n) v]> h).

Definition ut_list_prepend (h : heap) (b : ut_list_base) (elem : ptr) : option (heap * ut_list_base) :=
  h ← set_prev h elem None; h ← set_next h elem (start b);
  h ← match start b with Some s => set_prev h s (Some elem) | None => Some h end;
  Some (h, Base (S (count b)) (Some elem) (match end_ b with None => Some elem | e => e end)).

Definition ut_list_append (h : heap) (b : ut_list_base) (elem : ptr) : option (heap * ut_list_base) :=
  h ← set_next h elem None; h ← set_prev h elem (end_ b);
  h ← match end_ b with Some e => set_next h e (Some elem) | None => Some h end;
  Some (h, Base (S (count b)) (match start b with None => Some elem | s => s end) (Some elem)).

Definition ut_list_insert (h : heap) (b : ut_list_base) (elem1 elem2 : ptr) : option (heap * ut_list_base) :=
  n1 ← h !! elem1;
  h ← set_prev h elem2 (Some elem1); h ← set_next h elem2 (next n1);
  h ← match next n1 with Some x => set_prev h x (Some elem2) | None => Some h end;
  h ← set_next h elem1 (Some elem2);
  Some (h, Base (S (count b)) (start b) (if decide (end_ b = Some elem1) then Some elem2 else end_ b)).

(** [None] also when [ut_a(list.count > 0)] fails. *)
Definition ut_list_remove (h : heap) (b : ut_list_base) (elem : ptr) : option (heap * ut_list_base) :=
  n ← h !! elem;
  match count b with O => None | S k =>
    '(h, e) ← match next n with
      | Some x => h ← set_prev h x (prev n); Some (h, end_ b)
      | None => Some (h, prev n)
      end;
    '(h, s) ← match prev n with
      | Some x => h ← set_next h x (next n); Some (h, start b)
      | None => Some (h, next n)
      end;
    Some (h, Base k s e)
  end.

(** The walk of [ut_list_map] along one of the two pointers: the elements met, [None] when it
    does not end within [fuel] elements. *)
Fixpoint ut_list_map (dir : ut_list_node → option ptr) (fuel : nat) (h : heap) (e : option ptr) : option (list ptr) :=
  match e with
  | None => Some []
  | Some x =>
      match fuel with O => None | S fuel => n ← h !! x; r ← ut_list_map dir fuel h (dir n); Some (x :: r) end
  end.

(** [ut_list_validate]: both walks meet [count] elements. *)
Definition ut_list_validate (fuel : nat) (h : heap) (b : ut_list_base) : bool :=
  match ut_list_map next fuel h (start b), ut_list_map prev fuel h (end_ b) with
  | Some l, Some r => (length l =? count b)%nat && (length r =? count b)%nat
  | _, _ => false
  end.

(** * Segments *)

Definition hd_or (l : list ptr) (o : option ptr) : option ptr := match l with [] => o | x :: _ => Some x end.
Definition last_or (l : list ptr) (o : option ptr) : option ptr := match last l with None => o | x => x end.

(** The nodes of [l] are linked in this order, between [pv] and [nx]. *)
Fixpoint linked (h : heap) (pv : option ptr) (l : list ptr) (nx : option ptr) : Prop :=
  match l with
  | [] => True
  | x :: l => h !! x = Some (Node pv (hd_or l nx)) ∧ linked h (Some x) l nx
  end.

(** The list [b] is the sequence [l]. *)
Record dll (h : heap) (b : ut_list_base) (l : list ptr) : Prop := {
  d_linked : linked h None l None;
  d_nodup : NoDup l;
  d_count : count b = length l;
  d_start : start b = hd_or l None;
  d_end : end_ b = last_or l None;
}.

Lemma hd_or_app l k o : hd_or (l ++ k) o = hd_or l (hd_or k o).
Proof. by destruct l. Qed.

Lemma last_or_cons x l o : last_or (x :: l) o = last_or l (Some x).
Proof. unfold last_or. rewrite last_cons. by destruct (last l). Qed.

Lemma last_or_snoc l x o : last_or (l ++ [x]) o = Some x.
Proof. unfold last_or. by rewrite last_snoc. Qed.

Lemma last_or_Some l y : ∃ z, last_or l (Some y) = Some z.
Proof. unfold last_or. destruct (last l); eauto. Qed.

Lemma linked_app h pv l k nx :
  linked h pv (l ++ k) nx ↔ linked h pv l (hd_or k nx) ∧ linked h (last_or l pv) k nx.
Proof.
  revert pv. induction l as [|x l IH]; intros pv; cbn; [tauto|].
  rewrite IH, hd_or_app, last_or_cons. tauto.
Qed.

Lemma linked_frame h h' pv l nx : (∀ x, x ∈ l → h' !! x = h !! x) → linked h pv l nx → linked h' pv l nx.
Proof.
  revert pv. induction l as [|x l IH]; intros pv Hf; cbn; [done|]. intros [Hx Hl].
  split; [rewrite Hf by set_solver; done|]. apply IH; [|done]. intros y Hy. apply Hf. set_solver.
Qed.

Lemma linked_insert h pv l nx x n : x ∉ l → linked h pv l nx → linked (<[x:=n]> h) pv l nx.
Proof. intros Hx. apply linked_frame. intros y Hy. rewrite lookup_insert_ne; [done|]. by intros ->. Qed.

(** Changing what the ends of a segment point to. *)
Lemma linked_first h pv pv' x l nx :
  x ∉ l → linked h pv (x :: l) nx → ∃ h', set_prev h x pv' = Some h' ∧ linked h' pv' (x :: l) nx ∧
    ∀ y, y ≠ x → h' !! y = h !! y.
Proof.
  intros Hx [H1 H2]. unfold set_prev. rewrite H1. cbn. eexists. split; [done|]. split; [split|].
  - by rewrite lookup_insert_eq.
  - by apply linked_insert.
  - intros y Hy. by rewrite lookup_insert_ne.
Qed.

Lemma linked_last h pv l x nx nx' :
  x ∉ l → linked h pv (l ++ [x]) nx → ∃ h', set_next h x nx' = Some h' ∧ linked h' pv (l ++ [x]) nx' ∧
    ∀ y, y ≠ x → h' !! y = h !! y.
Proof.
  intros Hx [H1 [H2 _]]%linked_app. unfold set_next. rewrite H2. cbn. eexists. split; [done|]. split; [apply linked_app; split|].
  - by apply linked_insert.
  - cbn. by rewrite lookup_insert_eq.
  - intros y Hy. by rewrite lookup_insert_ne.
Qed.

(** Writing both fields of the node of a new element. *)
Lemma new_node h x p n : is_Some (h !! x) →
  set_prev h x p ≫= (λ h, set_next h x n) = Some (<[x:=Node p n]> h) ∧
  set_next h x n ≫= (λ h, set_prev h x p) = Some (<[x:=Node p n]> h).
Proof.
  intros [m Hm]. unfold set_prev, set_next. rewrite Hm. cbn. rewrite !lookup_insert_eq. cbn. by rewrite !insert_insert_eq.
Qed.

(** * The operations on sequences *)

(** Nodes outside of [l] are left alone. *)
Definition same_but (l : list ptr) (h h' : heap) : Prop := ∀ y, y ∉ l → h' !! y = h !! y.

Lemma prepend_ok h b l x :
  dll h b l → x ∉ l → is_Some (h !! x) →
  ∃ h' b', ut_list_prepend h b x = Some (h', b') ∧ dll h' b' (x :: l) ∧ same_but (x :: l) h h'.
Proof.
  intros [Hl Hn Hc Hs He] Hx Hin. unfold ut_list_prepend.
  destruct (new_node h x None (start b) Hin) as [Hw _].
  destruct (set_prev h x None) as [h1|]; [|done]. cbn [mbind option_bind] in *. rewrite Hw. cbn [mbind option_bind].
  pose proof (linked_insert h None l None x (Node None (start b)) Hx Hl) as Hl1. rewrite Hs in *.
  destruct l as [|y l]; cbn [hd_or mbind option_bind] in *.
  - eexists _, _. split; [done|]. split; [split|].
    + cbn. by rewrite lookup_insert_eq.
    + apply NoDup_singleton.
    + cbn. by rewrite Hc.
    + done.
    + cbn. by rewrite He.
    + intros z Hz. rewrite lookup_insert_ne; [done|set_solver].
  - apply NoDup_cons in Hn as [Hy Hn].
    destruct (linked_first _ _ (Some x) y l None Hy Hl1) as (h2 & -> & Hl2 & Hf). cbn [mbind option_bind].
    eexists _, _. split; [done|]. split; [split|].
    + split; [|done]. rewrite Hf by set_solver. by rewrite lookup_insert_eq.
    + apply NoDup_cons. split; [done|]. by apply NoDup_cons.
    + cbn. by rewrite Hc.
    + done.
    + cbn. rewrite He, !last_or_cons. destruct (last_or_Some l y) as [z ->]. done.
    + intros z Hz. rewrite Hf by set_solver. rewrite lookup_insert_ne; [done|set_solver].
Qed.

Lemma append_ok h b l x :
  dll h b l → x ∉ l → is_Some (h !! x) →
  ∃ h' b', ut_list_append h b x = Some (h', b') ∧ dll h' b' (l ++ [x]) ∧ same_but (l ++ [x]) h h'.
Proof.
  intros [Hl Hn Hc Hs He] Hx Hin. unfold ut_list_append.
  destruct (new_node h x (end_ b) None Hin) as [_ Hw].
  destruct (set_next h x None) as [h1|]; [|done]. cbn [mbind option_bind] in *. rewrite Hw. cbn [mbind option_bind].
  pose proof (linked_insert h None l None x (Node (end_ b) None) Hx Hl) as Hl1. rewrite He in *.
  destruct l as [|y l _] using rev_ind.
  - eexists _, _. split; [done|]. split; [split|].
    + cbn. by rewrite lookup_insert_eq.
    + apply NoDup_singleton.
    + cbn. by rewrite Hc.
    + cbn. by rewrite Hs.
    + done.
    + intros z Hz. rewrite lookup_insert_ne; [done|set_solver].
  - rewrite last_or_snoc in *. apply NoDup_app in Hn as (Hn & Hy & _).
    assert (y ∉ l) as Hyl by (intros Hyl; apply (Hy y Hyl); set_solver).
    destruct (linked_last _ _ l y None (Some x) Hyl Hl1) as (h2 & -> & Hl2 & Hf). cbn [mbind option_bind].
    eexists _, _. split; [done|]. split; [split|].
    + apply linked_app. split; [done|]. rewrite last_or_snoc. cbn. rewrite Hf by set_solver. by rewrite lookup_insert_eq.
    + apply NoDup_app. split_and!; [apply NoDup_app; split_and!; [done|done|apply NoDup_singleton]| |apply NoDup_singleton]. set_solver.
    + cbn. rewrite Hc, !length_app. cbn. lia.
    + cbn. rewrite Hs. by destruct l.
    + cbn. by rewrite last_or_snoc.
    + intros z Hz. rewrite Hf by set_solver. rewrite lookup_insert_ne; [done|set_solver].
Qed.


Lemma insert_ok h b l1 l2 x y :
  dll h b (l1 ++ x :: l2) → y ∉ l1 ++ x :: l2 → is_Some (h !! y) →
  ∃ h' b', ut_list_insert h b x y = Some (h', b') ∧ dll h' b' (l1 ++ x :: y :: l2) ∧ same_but (l1 ++ x :: y :: l2) h h'.
Proof.
  intros [Hl Hn Hc Hs He] Hy Hin. unfold ut_list_insert.
  pose proof Hn as (Hn1 & Hd & [Hx2 Hn2]%NoDup_cons)%NoDup_app. assert (x ∉ l1) as Hx1 by (intros H; apply (Hd x H); set_solver).
  pose proof Hl as [_ [Hx _]]%linked_app. cbn in Hx. rewrite Hx. cbn [mbind option_bind next].
  destruct (new_node h y (Some x) (hd_or l2 None) Hin) as [Hw _].
  destruct (set_prev h y (Some x)) as [h1|]; [|done]. cbn [mbind option_bind] in *. rewrite Hw. cbn [mbind option_bind].
  set (h2 := <[y:=_]> h).
  pose proof (linked_insert h None _ None y (Node (Some x) (hd_or l2 None)) Hy Hl) as Hl2. fold h2 in Hl2.
  assert (∃ h3, match hd_or l2 None with Some z => set_prev h2 z (Some y) | None => Some h2 end = Some h3 ∧
    linked h3 (Some y) l2 None ∧ ∀ z, z ∉ l2 → h3 !! z = h2 !! z) as (h3 & -> & Hl3 & Hf3).
  { rewrite cons_middle, app_assoc in Hl2. apply linked_app in Hl2 as [_ Hl2]. rewrite last_or_snoc in Hl2.
    destruct l2 as [|z l2]; [exists h2; done|]. apply NoDup_cons in Hn2 as [Hz Hn2].
    destruct (linked_first _ _ (Some y) z l2 None Hz Hl2) as (h3 & ? & ? & Hf). exists h3. split_and!; [done..|].
    intros t Ht. apply Hf. set_solver. }
  cbn [mbind option_bind].
  assert (linked h3 None (l1 ++ [x]) (hd_or l2 None)) as Hl4.
  { eapply linked_frame; [|rewrite cons_middle, app_assoc in Hl2; apply linked_app in Hl2; apply Hl2].
    intros t Ht. apply Hf3. intros Ht2. set_solver. }
  destruct (linked_last _ _ l1 x _ (Some y) Hx1 Hl4) as (h4 & -> & Hl5 & Hf4). cbn [mbind option_bind].
  eexists _, _. split; [done|]. split; [split|].
  - rewrite cons_middle, app_assoc. apply linked_app. split; [done|]. rewrite last_or_snoc. split.
    + rewrite Hf4, Hf3 by set_solver. unfold h2. by rewrite lookup_insert_eq.
    + eapply linked_frame; [|exact Hl3]. intros t Ht. apply Hf4. set_solver.
  - apply NoDup_app. split_and!; [done| |repeat (apply NoDup_cons; split; [set_solver|]); done]. set_solver.
  - cbn. rewrite Hc, !length_app. cbn. lia.
  - cbn. rewrite Hs. by destruct l1.
  - cbn. rewrite He. unfold last_or. rewrite !last_app_cons, !last_cons. destruct (last l2) as [z|] eqn:Hz.
    + rewrite decide_False; [done|]. intros [= ->]. apply Hx2. apply last_Some in Hz as [k ->]. set_solver.
    + by rewrite decide_True.
  - intros z Hz. rewrite Hf4, Hf3 by set_solver. unfold h2. rewrite lookup_insert_ne; [done|set_solver].
Qed.

Lemma remove_ok h b l1 l2 x :
  dll h b (l1 ++ x :: l2) →
  ∃ h' b', ut_list_remove h b x = Some (h', b') ∧ dll h' b' (l1 ++ l2) ∧ same_but (l1 ++ l2) h h'.
Proof.
  intros [Hl Hn Hc Hs He]. unfold ut_list_remove.
  pose proof Hn as (Hn1 & Hd & [Hx2 Hn2]%NoDup_cons)%NoDup_app. assert (x ∉ l1) as Hx1 by (intros H; apply (Hd x H); set_solver).
  apply linked_app in Hl as [Hl1 [Hx Hl2]]. cbn in Hl1. rewrite Hx. cbn [mbind option_bind next prev].
  rewrite Hc, length_app. cbn [length]. rewrite Nat.add_succ_r.
  assert (∃ h1, match hd_or l2 None with Some z => h ← set_prev h z (last_or l1 None); Some (h, end_ b) | None => Some (h, last_or l1 None) end
    = Some (h1, last_or (l1 ++ l2) None) ∧ linked h1 (last_or l1 None) l2 None ∧ ∀ z, z ∉ l2 → h1 !! z = h !! z) as (h1 & -> & Hl3 & Hf1).
  { destruct l2 as [|z l2]; cbn [hd_or].
    - exists h. by rewrite app_nil_r.
    - apply NoDup_cons in Hn2 as [Hz Hn2]. destruct (linked_first _ _ (last_or l1 None) z l2 None Hz Hl2) as (h1 & -> & ? & Hf).
      exists h1. cbn [mbind option_bind]. split_and!; [|done|intros t Ht; apply Hf; set_solver].
      rewrite He. unfold last_or. by rewrite !last_app_cons, last_cons_cons. }
  cbn [mbind option_bind].
  assert (∃ h2, match last_or l1 None with Some z => h1 ← set_next h1 z (hd_or l2 None); Some (h1, start b) | None => Some (h1, hd_or l2 None) end
    = Some (h2, hd_or (l1 ++ l2) None) ∧ linked h2 None l1 (hd_or l2 None) ∧ ∀ z, z ∉ l1 → h2 !! z = h1 !! z) as (h2 & -> & Hl4 & Hf2).
  { destruct l1 as [|z l1 _] using rev_ind; [exists h1; done|]. rewrite last_or_snoc.
    apply NoDup_app in Hn1 as (_ & Hz & _). assert (z ∉ l1) as Hzl by (intros H; apply (Hz z H); set_solver).
    assert (linked h1 None (l1 ++ [z]) (Some x)) as Hl1' by (eapply linked_frame; [|exact Hl1]; intros t Ht; apply Hf1; set_solver).
    destruct (linked_last _ _ l1 z _ (hd_or l2 None) Hzl Hl1') as (h2 & -> & ? & Hf). exists h2. cbn [mbind option_bind].
    split_and!; [|done|intros t Ht; apply Hf; set_solver]. rewrite Hs. by destruct l1. }
  cbn [mbind option_bind]. eexists _, _. split; [done|]. split; [split|].
  - apply linked_app. split; [done|]. eapply linked_frame; [|exact Hl3]. intros t Ht. apply Hf2. set_solver.
  - apply NoDup_app. split_and!; [done|set_solver|done].
  - cbn. by rewrite length_app.
  - done.
  - done.
  - intros z Hz. rewrite Hf2, Hf1 by set_solver. done.
Qed.


(** * The walks *)

Lemma walk_forward h pv l fuel : linked h pv l None → (length l ≤ fuel)%nat → ut_list_map next fuel h (hd_or l None) = Some l.
Proof.
  revert pv fuel. induction l as [|x l IH]; intros pv fuel; [by destruct fuel|]. intros [Hx Hl] Hf.
  destruct fuel as [|fuel]; cbn in *; [lia|]. rewrite Hx. cbn. rewrite (IH (Some x)); [done|done|lia].
Qed.

Lemma walk_backward h l nx fuel :
  linked h None l nx → (length l ≤ fuel)%nat → ut_list_map prev fuel h (last_or l None) = Some (reverse l).
Proof.
  revert nx fuel. induction l as [|x l IH] using rev_ind; intros nx fuel; [by destruct fuel|].
  rewrite last_or_snoc, length_app. cbn. intros [Hl [Hx _]]%linked_app Hf. destruct fuel as [|fuel]; [lia|].
  cbn. rewrite Hx. cbn. rewrite (IH _ fuel Hl); [|lia]. cbn. by rewrite reverse_snoc.
Qed.

Lemma list_validate_ok h b l fuel : dll h b l → (length l ≤ fuel)%nat → ut_list_validate fuel h b = true.
Proof.
  intros [Hl Hn Hc Hs He] Hf. unfold ut_list_validate.
  rewrite Hs, He, (walk_forward h None l fuel Hl Hf), (walk_backward h l None fuel Hl Hf), length_reverse, Hc, !Nat.eqb_refl. done.
Qed.

(** C28: the list functions implement sequences: on a list that is the sequence [l], adding an
    allocated element that is not in it at either end or behind another element and removing
    an element give lists that are the expected sequences; no node of an element outside of the
    list is touched, and both walks of the consistency check meet all elements, in this and
    in the opposite order. *)
Theorem ut_list_operations h b l fuel :
  dll h b l → (length l ≤ fuel)%nat →
  (∀ x, x ∉ l → is_Some (h !! x) →
    (∃ h' b', ut_list_prepend h b x = Some (h', b') ∧ dll h' b' (x :: l) ∧ same_but (x :: l) h h') ∧
    (∃ h' b', ut_list_append h b x = Some (h', b') ∧ dll h' b' (l ++ [x]) ∧ same_but (l ++ [x]) h h') ∧
    ∀ l1 y l2, l = l1 ++ y :: l2 →
      ∃ h' b', ut_list_insert h b y x = Some (h', b') ∧ dll h' b' (l1 ++ y :: x :: l2) ∧ same_but (l1 ++ y :: x :: l2) h h') ∧
  (∀ l1 x l2, l = l1 ++ x :: l2 →
    ∃ h' b', ut_list_remove h b x = Some (h', b') ∧ dll h' b' (l1 ++ l2) ∧ same_but (l1 ++ l2) h h') ∧
  ut_list_map next fuel h (start b) = Some l ∧ ut_list_map prev fuel h (end_ b) = Some (reverse l) ∧
  ut_list_validate fuel h b = true.
Proof.
  intros Hd Hf. split_and!.
  - intros x Hx Hin. split_and!; [by apply prepend_ok|by apply append_ok|]. intros l1 y l2 ->. by apply insert_ok.
  - intros l1 x l2 ->. by apply remove_ok.
  - rewrite (d_start _ _ _ Hd). eapply walk_forward; [apply Hd|done].
  - rewrite (d_end _ _ _ Hd). eapply walk_backward; [apply Hd|done].
  - by eapply list_validate_ok.
Qed.

(** Three elements; a fourth is added behind the second and the first is removed. *)
Definition sample_nodes : heap := {[ 1 := Node None None; 2 := Node None None; 3 := Node None None; 4 := Node None None ]}%nat.
Definition sample_list : option (heap * ut_list_base) :=
  '(h, b) ← ut_list_prepend sample_nodes UT_LIST_INIT 2;
  '(h, b) ← ut_list_append h b 3; ut_list_prepend h b 1.

Lemma ut_list_operations_witness :
  ∃ h b, sample_list = Some (h, b) ∧ dll h b [1; 2; 3]%nat ∧
  (∃ h' b', ut_list_insert h b 2 4 = Some (h', b') ∧ dll h' b' [1; 2; 4; 3]%nat) ∧
  (∃ h' b', ut_list_remove h b 1 = Some (h', b') ∧ dll h' b' [2; 3]%nat) ∧ ut_list_validate 3 h b = true.
Proof.
  assert (∃ h b, sample_list = Some (h, b) ∧ dll h b [1; 2; 3]%nat) as (h & b & Hs & Hd).
  { destruct (default (∅, UT_LIST_INIT) sample_list) as [h b] eqn:E. exists h, b. vm_compute in E. injection E as <- <-.
    split; [reflexivity|]. split; [cbn; done|apply (bool_decide_unpack _); reflexivity|done|done|done]. }
  exists h, b. split; [done|]. split; [done|].
  destruct (ut_list_operations h b [1; 2; 3]%nat 3 Hd (le_n _)) as (Hadd & Hrem & _ & _ & Hv).
  split_and!; [| |done].
  - assert (is_Some (h !! 4%nat)) as Hin by (vm_compute in Hs; injection Hs as <- <-; by eexists).
    destruct (Hadd 4%nat ltac:(set_solver) Hin) as (_ & _ & Hins).
    destruct (Hins [1%nat] 2%nat [3%nat] eq_refl) as (h' & b' & ? & ? & _). by exists h', b'.
  - destruct (Hrem [] 1%nat [2; 3]%nat eq_refl) as (h' & b' & ? & ? & _). by exists h', b'.
Defined.


End UtList.
