(* ===== verification/BufLru.v ===== *)
(** The LRU list of a buffer pool instance: src/Project3/mariadb/server/storage/xtradb/buf/buf0lru.cc
    with the inline functions of include/buf0buf.ic, and the functions of
    src/Project3/ryul/buf0buf.cc that move a page to the front.

    New pages are put into the middle of the list, behind [LRU_old], the first page that is
    flagged old; every operation moves that border so that the old part keeps its share of the
    list up to a tolerance.  The list is a sequence (UtList.v); the control blocks are in a map.
    The operations run under [LRU_list_mutex], so each is one step.  A failing [ut_a] and an
    access to a control block that is not there have no result: the theorem that the operations
    keep the list valid, as the debug function [buf_LRU_validate_instance] defines it, includes
    that this does not happen.  In memory a list of fewer than 2^64 pages is all there is, so
    the counters are not reduced. *)

From S2P Require Import Prelude.

Local Open Scope Z_scope.

Module BufLru.

(** * Control blocks *)

Inductive buf_page_state :=
  | BUF_BLOCK_POOL_WATCH | BUF_BLOCK_ZIP_PAGE | BUF_BLOCK_ZIP_DIRTY | BUF_BLOCK_NOT_USED
  | BUF_BLOCK_READY_FOR_USE | BUF_BLOCK_FILE_PAGE | BUF_BLOCK_MEMORY | BUF_BLOCK_REMOVE_HASH.

#[export] Instance buf_page_state_eq_dec : EqDecision buf_page_state.
Proof. solve_decision. Defined.

(** [buf_page_t]; [zip_data] says whether [zip.data] is set, [ssize] is the size of the
    compressed page. *)
Record buf_page_t := Page {
  state : buf_page_state;
  zip_data : bool;
  ssize : Z;
  old : bool;
  freed_page_clock : Z;
  access_time : Z;
}.

(** [BUF_BLOCK_POOL_WATCH] is an error. *)
Definition buf_page_in_file (b : buf_page_t) : option bool :=
  match state b with
  | BUF_BLOCK_POOL_WATCH => None
  | BUF_BLOCK_ZIP_PAGE | BUF_BLOCK_ZIP_DIRTY | BUF_BLOCK_FILE_PAGE => Some true
  | _ => Some false
  end.

Definition buf_page_belongs_to_unzip_LRU (b : buf_page_t) : bool :=
  zip_data b && bool_decide (state b = BUF_BLOCK_FILE_PAGE).

Definition UNIV_ZIP_SIZE_MIN : Z := 1024.
Definition page_zip_get_size (b : buf_page_t) : Z :=
  if ssize b =? 0 then 0 else Z.shiftl (Z.shiftr UNIV_ZIP_SIZE_MIN 1) (ssize b).

Definition set_old_flag (b : buf_page_t) (o : bool) : buf_page_t :=
  Page (state b) (zip_data b) (ssize b) o (freed_page_clock b) (access_time b).
Definition set_clock (b : buf_page_t) (c : Z) : buf_page_t :=
  Page (state b) (zip_data b) (ssize b) (old b) c (access_time b).

(** * The instance *)

Definition BUF_LRU_OLD_MIN_LEN : Z := 512.
Definition BUF_LRU_OLD_TOLERANCE : Z := 20.
Definition BUF_LRU_NON_OLD_MIN_LEN : Z := 5.
Definition BUF_LRU_OLD_RATIO_DIV : Z := 1024.
Definition BUF_LRU_OLD_RATIO_MAX : Z := BUF_LRU_OLD_RATIO_DIV.
Definition BUF_LRU_OLD_RATIO_MIN : Z := 51.

(** The fields of [buf_pool_t] that the LRU list uses; the control blocks are [pages]. *)
Record buf_pool_t := Pool {
  LRU : list nat;
  LRU_old : option nat;
  LRU_old_len : Z;
  LRU_old_ratio : Z;
  LRU_bytes : Z;
  unzip_LRU : list nat;
  pool_freed_page_clock : Z;
  curr_size : Z;
  n_pages_made_young : Z;
  n_pages_not_made_young : Z;
  pages : gmap nat buf_page_t;
}.

Definition with_LRU (s : buf_pool_t) (l : list nat) : buf_pool_t :=
  Pool l (LRU_old s) (LRU_old_len s) (LRU_old_ratio s) (LRU_bytes s) (unzip_LRU s) (pool_freed_page_clock s)
    (curr_size s) (n_pages_made_young s) (n_pages_not_made_young s) (pages s).
Definition with_old (s : buf_pool_t) (o : option nat) (n : Z) : buf_pool_t :=
  Pool (LRU s) o n (LRU_old_ratio s) (LRU_bytes s) (unzip_LRU s) (pool_freed_page_clock s)
    (curr_size s) (n_pages_made_young s) (n_pages_not_made_young s) (pages s).
Definition with_ratio (s : buf_pool_t) (r : Z) : buf_pool_t :=
  Pool (LRU s) (LRU_old s) (LRU_old_len s) r (LRU_bytes s) (unzip_LRU s) (pool_freed_page_clock s)
    (curr_size s) (n_pages_made_young s) (n_pages_not_made_young s) (pages s).
Definition with_bytes (s : buf_pool_t) (n : Z) : buf_pool_t :=
  Pool (LRU s) (LRU_old s) (LRU_old_len s) (LRU_old_ratio s) n (unzip_LRU s) (pool_freed_page_clock s)
    (curr_size s) (n_pages_made_young s) (n_pages_not_made_young s) (pages s).
Definition with_unzip (s : buf_pool_t) (l : list nat) : buf_pool_t :=
  Pool (LRU s) (LRU_old s) (LRU_old_len s) (LRU_old_ratio s) (LRU_bytes s) l (pool_freed_page_clock s)
    (curr_size s) (n_pages_made_young s) (n_pages_not_made_young s) (pages s).
Definition with_young (s : buf_pool_t) (y n : Z) : buf_pool_t :=
  Pool (LRU s) (LRU_old s) (LRU_old_len s) (LRU_old_ratio s) (LRU_bytes s) (unzip_LRU s) (pool_freed_page_clock s)
    (curr_size s) y n (pages s).
Definition with_pages (s : buf_pool_t) (m : gmap nat buf_page_t) : buf_pool_t :=
  Pool (LRU s) (LRU_old s) (LRU_old_len s) (LRU_old_ratio s) (LRU_bytes s) (unzip_LRU s) (pool_freed_page_clock s)
    (curr_size s) (n_pages_made_young s) (n_pages_not_made_young s) m.

Definition len (s : buf_pool_t) : Z := Z.of_nat (length (LRU s)).

(** The neighbours of an element of a list. *)
Fixpoint get_next (l : list nat) (p : nat) : option nat :=
  match l with
  | [] => None
  | x :: l => if (x =? p)%nat then head l else get_next l p
  end.
Fixpoint get_prev (l : list nat) (p : nat) : option nat :=
  match l with
  | x :: (y :: _) as l' => if (y =? p)%nat then Some x else get_prev l' p
  | _ => None
  end.
Fixpoint insert_after (l : list nat) (p x : nat) : list nat :=
  match l with
  | [] => []
  | y :: l => if (y =? p)%nat then y :: x :: l else y :: insert_after l p x
  end.
Fixpoint remove (l : list nat) (p : nat) : list nat :=
  match l with [] => [] | x :: l => if (x =? p)%nat then l else x :: remove l p end.

(** [ut_a(buf_page_in_file(bpage))]. *)
Definition check_in_file (s : buf_pool_t) (p : nat) : option buf_page_t :=
  b ← pages s !! p; match buf_page_in_file b with Some true => Some b | _ => None end.

Definition buf_page_set_old (s : buf_pool_t) (p : nat) (o : bool) : option buf_pool_t :=
  b ← check_in_file s p; Some (with_pages s (<[p:=set_old_flag b o]> (pages s))).

(** The loops that flag all pages of the list, from the last to the first or the other way. *)
Fixpoint flag_all (s : buf_pool_t) (l : list nat) (o : bool) : option buf_pool_t :=
  match l with
  | [] => Some s
  | p :: l => b ← pages s !! p; flag_all (with_pages s (<[p:=set_old_flag b o]> (pages s))) l o
  end.

Definition incr_LRU_size_in_bytes (UNIV_PAGE_SIZE : Z) (s : buf_pool_t) (b : buf_page_t) : buf_pool_t :=
  let zip_size := page_zip_get_size b in
  with_bytes s (LRU_bytes s + (if zip_size =? 0 then UNIV_PAGE_SIZE else zip_size)).

(** * Moving the border *)

(** The length the old part should have. *)
Definition old_target (s : buf_pool_t) : Z :=
  Z.min (len s * LRU_old_ratio s / BUF_LRU_OLD_RATIO_DIV) (len s - (BUF_LRU_OLD_TOLERANCE + BUF_LRU_NON_OLD_MIN_LEN)).

Fixpoint adjust_loop (fuel : nat) (new_len : Z) (s : buf_pool_t) : option buf_pool_t :=
  match fuel with
  | O => None
  | S fuel =>
      p ← LRU_old s;
      if LRU_old_len s + BUF_LRU_OLD_TOLERANCE <? new_len then
        q ← get_prev (LRU s) p;
        s ← buf_page_set_old (with_old s (Some q) (LRU_old_len s + 1)) q true;
        adjust_loop fuel new_len s
      else if new_len + BUF_LRU_OLD_TOLERANCE <? LRU_old_len s then
        s ← buf_page_set_old (with_old s (get_next (LRU s) p) (LRU_old_len s - 1)) p false;
        adjust_loop fuel new_len s
      else Some s
  end.

(** The border moves at most once over the whole list. *)
Definition buf_LRU_old_adjust_len (s : buf_pool_t) : option buf_pool_t :=
  adjust_loop (S (length (LRU s))) (old_target s) s.

Definition buf_LRU_old_init (s : buf_pool_t) : option buf_pool_t :=
  if len s =? BUF_LRU_OLD_MIN_LEN then
    s ← flag_all s (reverse (LRU s)) true;
    buf_LRU_old_adjust_len (with_old s (head (LRU s)) (len s))
  else None.

Section ops.
Context (UNIV_PAGE_SIZE : Z).

Definition buf_unzip_LRU_remove_block_if_needed (s : buf_pool_t) (p : nat) (b : buf_page_t) : buf_pool_t :=
  if buf_page_belongs_to_unzip_LRU b then with_unzip s (remove (unzip_LRU s) p) else s.

Definition buf_unzip_LRU_add_block (s : buf_pool_t) (p : nat) (b : buf_page_t) (o : bool) : option buf_pool_t :=
  if buf_page_belongs_to_unzip_LRU b
  then Some (with_unzip s (if o then unzip_LRU s ++ [p] else p :: unzip_LRU s)) else None.

(** * The operations *)

Definition buf_LRU_remove_block (s : buf_pool_t) (p : nat) : option buf_pool_t :=
  _ ← check_in_file s p;
  s ← (if decide (LRU_old s = Some p) then
         q ← get_prev (LRU s) p;
         buf_page_set_old (with_old s (Some q) (LRU_old_len s + 1)) q true
       else Some s);
  b ← pages s !! p;
  let s := with_LRU s (remove (LRU s) p) in
  let zip_size := page_zip_get_size b in
  let s := with_bytes s (LRU_bytes s - (if zip_size =? 0 then UNIV_PAGE_SIZE else zip_size)) in
  let s := buf_unzip_LRU_remove_block_if_needed s p b in
  if len s <? BUF_LRU_OLD_MIN_LEN then
    s ← flag_all s (LRU s) false; Some (with_old s None 0)
  else
    buf_LRU_old_adjust_len (if old b then with_old s (LRU_old s) (LRU_old_len s - 1) else s).

(** What both ways of adding a page end with; [o] is the flag of the page when the list is
    long, [o'] the argument for [unzip_LRU]. *)
Definition add_finish (s : buf_pool_t) (p : nat) (o o' : bool) : option buf_pool_t :=
  b ← pages s !! p;
  let s := incr_LRU_size_in_bytes UNIV_PAGE_SIZE s b in
  s ← (if BUF_LRU_OLD_MIN_LEN <? len s then s ← buf_page_set_old s p o; buf_LRU_old_adjust_len s
       else if len s =? BUF_LRU_OLD_MIN_LEN then buf_LRU_old_init s
       else buf_page_set_old s p (bool_decide (is_Some (LRU_old s))));
  b ← pages s !! p;
  if buf_page_belongs_to_unzip_LRU b then buf_unzip_LRU_add_block s p b o' else Some s.

Definition buf_LRU_add_block_to_end_low (s : buf_pool_t) (p : nat) : option buf_pool_t :=
  _ ← check_in_file s p;
  let s := with_LRU s (LRU s ++ [p]) in
  add_finish (if BUF_LRU_OLD_MIN_LEN <? len s then with_old s (LRU_old s) (LRU_old_len s + 1) else s) p true true.

Definition buf_LRU_add_block_low (s : buf_pool_t) (p : nat) (o : bool) : option buf_pool_t :=
  b ← check_in_file s p;
  if negb o || (len s <? BUF_LRU_OLD_MIN_LEN) then
    let s := with_LRU s (p :: LRU s) in
    add_finish (with_pages s (<[p:=set_clock b (pool_freed_page_clock s mod 2 ^ 31)]> (pages s))) p o o
  else
    q ← LRU_old s;
    add_finish (with_old (with_LRU s (insert_after (LRU s) q p)) (LRU_old s) (LRU_old_len s + 1)) p o o.

Definition buf_LRU_add_block (s : buf_pool_t) (p : nat) (o : bool) : option buf_pool_t := buf_LRU_add_block_low s p o.

Definition buf_LRU_make_block_young (s : buf_pool_t) (p : nat) : option buf_pool_t :=
  b ← pages s !! p;
  let s := if old b then with_young s (n_pages_made_young s + 1) (n_pages_not_made_young s) else s in
  s ← buf_LRU_remove_block s p; buf_LRU_add_block_low s p false.

Definition buf_LRU_make_block_old (s : buf_pool_t) (p : nat) : option buf_pool_t :=
  s ← buf_LRU_remove_block s p; buf_LRU_add_block_to_end_low s p.

(** ryul/buf0buf.cc. *)
Definition buf_page_make_young (s : buf_pool_t) (p : nat) : option buf_pool_t :=
  _ ← check_in_file s p; buf_LRU_make_block_young s p.

(** Whether few pages have been evicted since the page was at the front. *)
Definition buf_page_peek_if_young (s : buf_pool_t) (b : buf_page_t) : bool :=
  Z.land (pool_freed_page_clock s) (2 ^ 31 - 1) <?
    freed_page_clock b + curr_size s * (BUF_LRU_OLD_RATIO_DIV - LRU_old_ratio s) / (BUF_LRU_OLD_RATIO_DIV * 4).

(** [now] is [ut_time_ms()]; the statistics are counted. *)
Definition buf_page_peek_if_too_old (threshold_ms now : Z) (s : buf_pool_t) (b : buf_page_t) : buf_pool_t * bool :=
  if pool_freed_page_clock s =? 0 then (s, false)
  else if negb (threshold_ms =? 0) && old b then
    if (0 <? access_time b) && (threshold_ms <=? u32 (now - access_time b)) then (s, true)
    else (with_young s (n_pages_made_young s) (n_pages_not_made_young s + 1), false)
  else (s, negb (buf_page_peek_if_young s b)).

Definition buf_page_make_young_if_needed (threshold_ms now : Z) (s : buf_pool_t) (p : nat) : option buf_pool_t :=
  b ← check_in_file s p;
  let '(s, too_old) := buf_page_peek_if_too_old threshold_ms now s b in
  if too_old then buf_page_make_young s p else Some s.

End ops.

(** [buf_LRU_old_ratio_update_instance] with the percentage it returns; the value in [double]
    is exact and its fraction is cut off. *)
Definition ratio_of (old_pct : Z) : Z :=
  let ratio := u32 (old_pct * BUF_LRU_OLD_RATIO_DIV) / 100 in
  if ratio <? BUF_LRU_OLD_RATIO_MIN then BUF_LRU_OLD_RATIO_MIN
  else if BUF_LRU_OLD_RATIO_MAX <? ratio then BUF_LRU_OLD_RATIO_MAX else ratio.
Definition pct_of (ratio : Z) : Z := (2 * ratio * 100 + BUF_LRU_OLD_RATIO_DIV) / (2 * BUF_LRU_OLD_RATIO_DIV).

Definition buf_LRU_old_ratio_update_instance (s : buf_pool_t) (old_pct : Z) (adjust : bool) : option (buf_pool_t * Z) :=
  let ratio := ratio_of old_pct in
  s ← (if adjust then
         if ratio =? LRU_old_ratio s then Some s
         else let s := with_ratio s ratio in
              if BUF_LRU_OLD_MIN_LEN <=? len s then buf_LRU_old_adjust_len s else Some s
       else Some (with_ratio s ratio));
  Some (s, pct_of ratio).

(** * Validation *)

(** The loop of [buf_LRU_validate_instance] over the list; [n] is [old_len], [pv] the flag of
    the page before: the first old page is [LRU_old], behind an old page all are old. *)
Fixpoint validate_loop (s : buf_pool_t) (pv : option bool) (l : list nat) (n : Z) : option Z :=
  match l with
  | [] => Some n
  | p :: l =>
      b ← pages s !! p;
      match buf_page_in_file b with
      | Some true =>
          if bool_decide (state b = BUF_BLOCK_FILE_PAGE) &&
             negb (Bool.eqb (bool_decide (p ∈ unzip_LRU s)) (buf_page_belongs_to_unzip_LRU b)) then None
          else if old b then
            let here := if n =? 0 then bool_decide (LRU_old s = Some p) else default true pv in
            let next := match l with [] => true | q :: _ => default false (old <$> pages s !! q) end in
            if here && next then validate_loop s (Some true) l (n + 1) else None
          else validate_loop s (Some false) l n
      | _ => None
      end
  end.

(** The free list, which [buf_LRU_validate_instance] checks too, is not part of this state. *)
Definition buf_LRU_validate_instance (s : buf_pool_t) : bool :=
  (if BUF_LRU_OLD_MIN_LEN <=? len s then
     bool_decide (is_Some (LRU_old s)) && (old_target s - BUF_LRU_OLD_TOLERANCE <=? LRU_old_len s) &&
     (LRU_old_len s <=? old_target s + BUF_LRU_OLD_TOLERANCE)
   else true) &&
  bool_decide (validate_loop s None (LRU s) 0 = Some (LRU_old_len s)) &&
  forallb (λ p, match pages s !! p with Some b => buf_page_belongs_to_unzip_LRU b && bool_decide (p ∈ LRU s) | None => false end)
    (unzip_LRU s).

(** * Lists *)

Lemma get_next_at l1 p l2 : p ∉ l1 → get_next (l1 ++ p :: l2) p = head l2.
Proof.
  induction l1 as [|x l1 IH]; intros Hp; cbn; [by rewrite Nat.eqb_refl|].
  rewrite (proj2 (Nat.eqb_neq x p)) by set_solver. apply IH. set_solver.
Qed.

Lemma get_prev_at l1 q p l2 : p ∉ l1 → p ≠ q → get_prev (l1 ++ q :: p :: l2) p = Some q.
Proof.
  induction l1 as [|x l1 IH]; intros Hp Hne; [cbn; by rewrite Nat.eqb_refl|].
  transitivity (get_prev (l1 ++ q :: p :: l2) p); [|apply IH; set_solver].
  destruct l1 as [|z l1]; cbn; by rewrite (proj2 (Nat.eqb_neq _ p)) by set_solver.
Qed.

Lemma insert_after_at l1 q l2 x : q ∉ l1 → insert_after (l1 ++ q :: l2) q x = l1 ++ q :: x :: l2.
Proof.
  induction l1 as [|y l1 IH]; intros Hq; cbn; [by rewrite Nat.eqb_refl|].
  rewrite (proj2 (Nat.eqb_neq y q)) by set_solver. rewrite IH by set_solver. done.
Qed.

Lemma remove_at l1 p l2 : p ∉ l1 → remove (l1 ++ p :: l2) p = l1 ++ l2.
Proof.
  induction l1 as [|y l1 IH]; intros Hq; cbn; [by rewrite Nat.eqb_refl|].
  rewrite (proj2 (Nat.eqb_neq y p)) by set_solver. rewrite IH by set_solver. done.
Qed.

Lemma remove_elem l p x : NoDup l → x ∈ remove l p ↔ x ∈ l ∧ x ≠ p.
Proof.
  induction l as [|y l IH]; cbn; [set_solver|]. intros [Hy Hn]%NoDup_cons.
  destruct (Nat.eqb_spec y p) as [->|Hne]; [set_solver|]. rewrite elem_of_cons, IH by done. set_solver.
Qed.

Lemma remove_nodup l p : NoDup l → NoDup (remove l p).
Proof.
  induction l as [|y l IH]; cbn; [done|]. intros [Hy Hn]%NoDup_cons.
  destruct (Nat.eqb_spec y p); [done|]. apply NoDup_cons. split; [rewrite remove_elem by done; tauto|auto].
Qed.

(** * The border *)

(** What of a control block the flags do not change. *)
Definition fixed (b : buf_page_t) : buf_page_state * bool * Z * Z * Z :=
  (state b, zip_data b, ssize b, freed_page_clock b, access_time b).

(** [s'] differs from [s] in the flags and the border only. *)
Record reflag (s s' : buf_pool_t) : Prop := {
  r_LRU : LRU s' = LRU s;
  r_ratio : LRU_old_ratio s' = LRU_old_ratio s;
  r_bytes : LRU_bytes s' = LRU_bytes s;
  r_unzip : unzip_LRU s' = unzip_LRU s;
  r_clock : pool_freed_page_clock s' = pool_freed_page_clock s;
  r_size : curr_size s' = curr_size s;
  r_stat : n_pages_made_young s' = n_pages_made_young s ∧ n_pages_not_made_young s' = n_pages_not_made_young s;
  r_pages p : fixed <$> pages s' !! p = fixed <$> pages s !! p;
  r_other p : p ∉ LRU s → pages s' !! p = pages s !! p;
}.

#[export] Instance reflag_preorder : PreOrder reflag.
Proof.
  split; [by intros s; split|]. intros a b c [] []. split; try congruence; [intuition congruence|].
  intros p Hp. rewrite r_other1, r_other0; congruence.
Qed.

(** The pages of [l] are in a file and have the flag [o]. *)
Definition flagged (s : buf_pool_t) (l : list nat) (o : bool) : Prop :=
  ∀ p, p ∈ l → ∃ b, pages s !! p = Some b ∧ buf_page_in_file b = Some true ∧ old b = o.

(** The list is [Y ++ O] with the border between the two. *)
Record border (s : buf_pool_t) (Y O : list nat) : Prop := {
  b_LRU : LRU s = Y ++ O;
  b_nodup : NoDup (Y ++ O);
  b_old : LRU_old s = head O;
  b_len : LRU_old_len s = Z.of_nat (length O);
  b_Y : flagged s Y false;
  b_O : flagged s O true;
}.

Lemma set_old_ok s p l o b :
  check_in_file s p = Some b → p ∈ LRU s →
  ∃ s', buf_page_set_old s p o = Some s' ∧ reflag s s' ∧ LRU_old s' = LRU_old s ∧ LRU_old_len s' = LRU_old_len s ∧
    flagged s' [p] o ∧ (p ∉ l → ∀ o', flagged s l o' → flagged s' l o').
Proof.
  intros Hb Hp. unfold buf_page_set_old. rewrite Hb. cbn. eexists. split; [done|].
  unfold check_in_file in Hb. destruct (pages s !! p) as [b'|] eqn:Hp'; [|done]. cbn in Hb.
  destruct (buf_page_in_file b') as [[]|] eqn:Hf; try done. injection Hb as ->.
  split_and!; [|done|done| |].
  - split; try done; cbn.
    + intros q. destruct (decide (q = p)) as [->|]; [by rewrite lookup_insert_eq, Hp'|by rewrite lookup_insert_ne].
    + intros q Hq. rewrite lookup_insert_ne; [done|congruence].
  - intros q ->%list_elem_of_singleton. cbn. rewrite lookup_insert_eq. eexists. split; [done|]. done.
  - intros Hl o' Hfl q Hq. cbn. rewrite lookup_insert_ne by congruence. by apply Hfl.
Qed.

Lemma flagged_app s l k o : flagged s (l ++ k) o ↔ flagged s l o ∧ flagged s k o.
Proof. unfold flagged. set_solver. Qed.

Lemma flagged_in_file s l o p : flagged s l o → p ∈ l → ∃ b, check_in_file s p = Some b ∧ pages s !! p = Some b ∧ old b = o.
Proof. intros Hf Hp. destruct (Hf p Hp) as (b & Hb & Hin & Ho). exists b. unfold check_in_file. rewrite Hb. cbn. by rewrite Hin. Qed.


(** The border moves one page to the front or to the back. *)
Lemma border_grow s Y q O :
  border s (Y ++ [q]) O → O ≠ [] →
  ∃ p s', LRU_old s = Some p ∧ get_prev (LRU s) p = Some q ∧
    buf_page_set_old (with_old s (Some q) (LRU_old_len s + 1)) q true = Some s' ∧ reflag s s' ∧ border s' Y (q :: O).
Proof.
  intros [Hl Hn Ho Hlen HY HO] Hne. destruct O as [|p O]; [done|]. exists p. cbn in Ho.
  apply flagged_app in HY as [HY Hq]. rewrite <- app_assoc in Hl, Hn. cbn in Hl, Hn.
  pose proof Hn as (Hn1 & Hd & [Hqn Hn2]%NoDup_cons)%NoDup_app.
  assert (q ∉ Y) as HqY by (intros H; apply (Hd q H); set_solver).
  destruct (flagged_in_file s [q] false q Hq ltac:(set_solver)) as (b & Hb & _).
  destruct (set_old_ok (with_old s (Some q) (LRU_old_len s + 1)) q Y true b) as (s' & Hs & Hr & H1 & H2 & H3 & H4);
    [done|cbn; rewrite Hl; set_solver|].
  destruct (set_old_ok (with_old s (Some q) (LRU_old_len s + 1)) q (p :: O) true b) as (s2 & Hs2 & _ & _ & _ & _ & H5);
    [done|cbn; rewrite Hl; set_solver|]. assert (s2 = s') as -> by congruence.
  exists s'. split; [done|]. split; [rewrite Hl; apply get_prev_at; set_solver|]. split; [done|].
  split; [by destruct Hr; split|]. split.
  - rewrite (r_LRU _ _ Hr). done.
  - done.
  - done.
  - rewrite H2. cbn. rewrite Hlen. cbn. lia.
  - by apply H4.
  - intros x [->|Hx]%elem_of_cons; [apply H3; set_solver|]. by apply (H5 Hqn true HO).
Qed.

Lemma border_shrink s Y p O :
  border s Y (p :: O) →
  ∃ s', LRU_old s = Some p ∧ buf_page_set_old (with_old s (get_next (LRU s) p) (LRU_old_len s - 1)) p false = Some s' ∧
    reflag s s' ∧ border s' (Y ++ [p]) O.
Proof.
  intros [Hl Hn Ho Hlen HY HO]. cbn in Ho.
  pose proof Hn as (Hn1 & Hd & [Hpn Hn2]%NoDup_cons)%NoDup_app.
  assert (p ∉ Y) as HpY by (intros H; apply (Hd p H); set_solver).
  destruct (flagged_in_file s _ true p HO ltac:(set_solver)) as (b & Hb & _).
  set (s1 := with_old s (get_next (LRU s) p) (LRU_old_len s - 1)).
  destruct (set_old_ok s1 p Y false b) as (s' & Hs & Hr & H1 & H2 & H3 & H4); [done|cbn; rewrite Hl; set_solver|].
  destruct (set_old_ok s1 p O false b) as (s2 & Hs2 & _ & _ & _ & _ & H5);
    [done|cbn; rewrite Hl; set_solver|]. assert (s2 = s') as -> by congruence.
  exists s'. split; [done|]. split; [done|]. split; [by destruct Hr; split|]. split.
  - rewrite (r_LRU _ _ Hr). cbn. rewrite Hl, <- app_assoc. done.
  - by rewrite <- app_assoc.
  - rewrite H1. unfold s1. cbn. rewrite Hl. by apply get_next_at.
  - rewrite H2. cbn. rewrite Hlen. cbn. lia.
  - apply flagged_app. split; [by apply H4|done].
  - apply (H5 Hpn true). intros x Hx. apply HO. set_solver.
Qed.

(** Where the border comes to rest. *)
Definition clamp (t o : Z) : Z :=
  if o + BUF_LRU_OLD_TOLERANCE <? t then t - BUF_LRU_OLD_TOLERANCE
  else if t + BUF_LRU_OLD_TOLERANCE <? o then t + BUF_LRU_OLD_TOLERANCE else o.

Lemma adjust_loop_ok fuel t s Y O :
  border s Y O → O ≠ [] → 25 ≤ t ≤ len s - 25 → Z.abs (Z.of_nat (length O) - clamp t (Z.of_nat (length O))) < Z.of_nat fuel →
  ∃ s' Y' O', adjust_loop fuel t s = Some s' ∧ reflag s s' ∧ border s' Y' O' ∧
    Z.of_nat (length O') = clamp t (Z.of_nat (length O)).
Proof.
  revert s Y O. induction fuel as [|fuel IH]; intros s Y O Hb Hne Ht Hf; [lia|]. cbn [adjust_loop].
  rewrite (b_len _ _ _ Hb). unfold clamp, BUF_LRU_OLD_TOLERANCE in *. unfold len in Ht. rewrite (b_LRU _ _ _ Hb), length_app in Ht.
  destruct (Z.ltb_spec (Z.of_nat (length O) + 20) t) as [Hlt|Hge]; [|destruct (Z.ltb_spec (t + 20) (Z.of_nat (length O))) as [Hlt|Hle]].
  - destruct Y as [|q Y _] using rev_ind; [cbn in Ht; lia|]. destruct (border_grow s Y q O Hb Hne) as (p & s1 & Hp & Hq & Hs & Hr & Hb1).
    rewrite (b_len _ _ _ Hb) in Hs. rewrite Hp. cbn [mbind option_bind]. rewrite Hq. cbn [mbind option_bind]. rewrite Hs. cbn [mbind option_bind].
    assert (len s1 = len s) as Hlen by (unfold len; by rewrite (r_LRU _ _ Hr)).
    destruct (IH s1 Y (q :: O) Hb1) as (s' & Y' & O' & Ha & Hr' & Hb' & HO'); [done|..].
    + rewrite Hlen. unfold len. rewrite (b_LRU _ _ _ Hb), length_app. lia.
    + cbn [length]. repeat (case_match; zify_bool); lia.
    + exists s', Y', O'. split; [done|]. split; [by etrans|]. split; [done|]. rewrite HO'. cbn [length].
      repeat (case_match; zify_bool); lia.
  - destruct O as [|p O]; [done|]. destruct (border_shrink s Y p O Hb) as (s1 & Hp & Hs & Hr & Hb1).
    rewrite (b_len _ _ _ Hb) in Hs. rewrite Hp. cbn [mbind option_bind]. rewrite Hs. cbn [mbind option_bind].
    assert (len s1 = len s) as Hlen by (unfold len; by rewrite (r_LRU _ _ Hr)).
    destruct (IH s1 (Y ++ [p]) O Hb1) as (s' & Y' & O' & Ha & Hr' & Hb' & HO').
    + intros ->. cbn in Hlt. lia.
    + rewrite Hlen. unfold len. rewrite (b_LRU _ _ _ Hb), length_app. lia.
    + cbn [length] in *. repeat (case_match; zify_bool); lia.
    + exists s', Y', O'. split; [done|]. split; [by etrans|]. split; [done|]. rewrite HO'. cbn [length] in *.
      repeat (case_match; zify_bool); lia.
  - rewrite (b_old _ _ _ Hb). destruct O as [|p O]; [done|]. cbn [head mbind option_bind]. by exists s, Y, (p :: O).
Qed.


Definition ratio_ok (r : Z) : Prop := BUF_LRU_OLD_RATIO_MIN ≤ r ≤ BUF_LRU_OLD_RATIO_MAX.

(** For a long list the target leaves room on both sides of the border. *)
Lemma target_range s : ratio_ok (LRU_old_ratio s) → BUF_LRU_OLD_MIN_LEN ≤ len s → 25 ≤ old_target s ≤ len s - 25.
Proof.
  unfold ratio_ok, old_target, BUF_LRU_OLD_RATIO_MIN, BUF_LRU_OLD_RATIO_MAX, BUF_LRU_OLD_RATIO_DIV, BUF_LRU_OLD_TOLERANCE,
    BUF_LRU_NON_OLD_MIN_LEN, BUF_LRU_OLD_MIN_LEN. intros Hr Hl.
  assert (25 ≤ len s * LRU_old_ratio s / 1024); [|lia]. apply Z.div_le_lower_bound; [lia|]. nia.
Qed.

Lemma adjust_ok s Y O :
  border s Y O → O ≠ [] → ratio_ok (LRU_old_ratio s) → BUF_LRU_OLD_MIN_LEN ≤ len s →
  ∃ s' Y' O', buf_LRU_old_adjust_len s = Some s' ∧ reflag s s' ∧ border s' Y' O' ∧ Y' ++ O' = Y ++ O ∧
    Z.of_nat (length O') = clamp (old_target s) (Z.of_nat (length O)).
Proof.
  intros Hb Hne Hr Hl. pose proof (target_range s Hr Hl) as Ht. pose proof (b_LRU _ _ _ Hb) as HL.
  assert (Z.of_nat (length O) ≤ len s) as HO by (unfold len; rewrite HL, length_app; lia).
  destruct (adjust_loop_ok (S (length (LRU s))) (old_target s) s Y O Hb Hne Ht) as (s' & Y' & O' & Ha & Hrf & Hb' & Hlen).
  - unfold clamp, BUF_LRU_OLD_TOLERANCE, len in *. repeat (case_match; zify_bool); lia.
  - exists s', Y', O'. split_and!; try done. by rewrite <- (b_LRU _ _ _ Hb'), (r_LRU _ _ Hrf).
Qed.

Lemma clamp_range t o : Z.abs (clamp t o - t) ≤ 20.
Proof. unfold clamp, BUF_LRU_OLD_TOLERANCE. repeat (case_match; zify_bool); lia. Qed.

(** Flagging a whole list. *)
Lemma flag_all_ok s l o :
  (∀ p, p ∈ l → p ∈ LRU s ∧ ∃ b, check_in_file s p = Some b) →
  ∃ s', flag_all s l o = Some s' ∧ reflag s s' ∧ flagged s' l o ∧ LRU_old s' = LRU_old s ∧ LRU_old_len s' = LRU_old_len s ∧
    ∀ k, (∀ p, p ∈ k → p ∉ l) → ∀ o', flagged s k o' → flagged s' k o'.
Proof.
  revert s. induction l as [|p l IH]; intros s Hl.
  { exists s. cbn. split_and!; try done. by intros p ?%not_elem_of_nil. }
  destruct (Hl p ltac:(set_solver)) as [Hp [b Hb]]. cbn.
  destruct (set_old_ok s p [] o b Hb Hp) as (s1 & Hs & Hr & H1 & H2 & H3 & _).
  pose proof Hs as Hs'. unfold buf_page_set_old in Hs'. rewrite Hb in Hs'. cbn in Hs'. injection Hs' as Hs'.
  unfold check_in_file in Hb. destruct (pages s !! p) as [b'|] eqn:Hpp; [|done]. cbn in Hb |- *.
  destruct (buf_page_in_file b') as [[]|] eqn:Hf; try done. injection Hb as ->. rewrite Hs'.
  assert (∀ x, x ∈ LRU s → (∃ b, check_in_file s x = Some b) → ∃ b, check_in_file s1 x = Some b) as Hkeep.
  { intros x Hx [c Hc]. pose proof (r_pages _ _ Hr x) as Hfx. unfold check_in_file in *.
    destruct (pages s !! x) as [cx|]; [|done]. destruct (pages s1 !! x) as [dx|]; [|done]. cbn in *.
    injection Hfx as Hst _ _ _ _. unfold buf_page_in_file in *. rewrite Hst. destruct (state cx); try done; eauto. }
  destruct (IH s1) as (s2 & Hs2 & Hr2 & H4 & H5 & H6 & H7).
  { intros x Hx. destruct (Hl x ltac:(set_solver)) as [Hx1 Hx2]. rewrite (r_LRU _ _ Hr). auto. }
  exists s2. split; [done|]. split; [by etrans|]. split; [|split_and!; [congruence..|]].
  - intros x [->|Hx]%elem_of_cons; [|auto]. destruct (decide (p ∈ l)) as [|Hn]; [auto|].
    apply (H7 [p]); [by intros y ->%list_elem_of_singleton|done|set_solver].
  - intros k Hk o' Hfk. apply H7; [set_solver|]. destruct (set_old_ok s p k o b) as (s1' & Hs1' & _ & _ & _ & _ & Hkk).
    { unfold check_in_file. rewrite Hpp. cbn. by rewrite Hf. } { done. }
    assert (s1' = s1) as -> by congruence. apply Hkk; [set_solver|done].
Qed.

(** * The invariant *)

Definition page_bytes (UNIV_PAGE_SIZE : Z) (s : buf_pool_t) (p : nat) : Z :=
  match pages s !! p with
  | Some b => let z := page_zip_get_size b in if z =? 0 then UNIV_PAGE_SIZE else z
  | None => 0
  end.

Definition belongs (s : buf_pool_t) (p : nat) : Prop := ∃ b, pages s !! p = Some b ∧ buf_page_belongs_to_unzip_LRU b = true.

(** The list without the border. *)
Record rest_ok (UNIV_PAGE_SIZE : Z) (s : buf_pool_t) : Prop := {
  k_ratio : ratio_ok (LRU_old_ratio s);
  k_unzip : NoDup (unzip_LRU s);
  k_belongs p : p ∈ unzip_LRU s ↔ p ∈ LRU s ∧ belongs s p;
  k_bytes : LRU_bytes s = Zsum (page_bytes UNIV_PAGE_SIZE s) (LRU s);
}.

(** The length of the old part is the target up to the tolerance, and zero for a short list. *)
Definition old_len_ok (s : buf_pool_t) (O : list nat) : Prop :=
  if len s <? BUF_LRU_OLD_MIN_LEN then O = [] else Z.abs (Z.of_nat (length O) - old_target s) ≤ BUF_LRU_OLD_TOLERANCE.

Definition lru_ok (UNIV_PAGE_SIZE : Z) (s : buf_pool_t) (Y O : list nat) : Prop :=
  border s Y O ∧ old_len_ok s O ∧ rest_ok UNIV_PAGE_SIZE s.

Lemma same_fixed s s' p : fixed <$> pages s' !! p = fixed <$> pages s !! p →
  (∀ U, page_bytes U s' p = page_bytes U s p) ∧ (belongs s' p ↔ belongs s p) ∧
  ((∃ b, check_in_file s' p = Some b) ↔ ∃ b, check_in_file s p = Some b).
Proof.
  intros Hf. unfold page_bytes, belongs, check_in_file.
  destruct (pages s' !! p) as [b'|], (pages s !! p) as [b|]; cbn in *; try done.
  injection Hf as Hst Hz Hss _ _.
  assert (buf_page_belongs_to_unzip_LRU b' = buf_page_belongs_to_unzip_LRU b) as Hbl
    by (unfold buf_page_belongs_to_unzip_LRU; by rewrite Hst, Hz).
  split_and!.
  - intros U. unfold page_zip_get_size. by rewrite Hss.
  - naive_solver congruence.
  - unfold buf_page_in_file. rewrite Hst. destruct (state b); naive_solver.
Qed.

Lemma rest_ok_reflag U s s' : reflag s s' → rest_ok U s → rest_ok U s'.
Proof.
  intros Hr [H1 H2 H3 H4]. split.
  - by rewrite (r_ratio _ _ Hr).
  - by rewrite (r_unzip _ _ Hr).
  - intros p. rewrite (r_unzip _ _ Hr), H3, (r_LRU _ _ Hr). destruct (same_fixed s s' p (r_pages _ _ Hr p)) as (_ & -> & _). done.
  - rewrite (r_bytes _ _ Hr), H4, (r_LRU _ _ Hr). apply Zsum_ext. intros p _. symmetry. apply same_fixed, Hr.
Qed.


(** * The operations *)

(** A list into which [p] has been put and not been flagged yet. *)
Record preborder (s : buf_pool_t) (p : nat) (Y O : list nat) : Prop := {
  p_LRU : LRU s = Y ++ O;
  p_nodup : NoDup (Y ++ O);
  p_old : LRU_old s = head O;
  p_len : LRU_old_len s = Z.of_nat (length O);
  p_Y x : x ∈ Y → x ≠ p → flagged s [x] false;
  p_O x : x ∈ O → x ≠ p → flagged s [x] true;
}.

Lemma preborder_set s p Y O b :
  preborder s p Y O → p ∈ Y ++ O → check_in_file s p = Some b →
  ∃ s', buf_page_set_old s p (bool_decide (p ∈ O)) = Some s' ∧ reflag s s' ∧ border s' Y O.
Proof.
  intros [Hl Hn Ho Hlen HY HO] Hp Hb. pose proof Hn as (_ & Hd & _)%NoDup_app.
  destruct (set_old_ok s p [] (bool_decide (p ∈ O)) b Hb ltac:(by rewrite Hl)) as (s' & Hs & Hr & H1 & H2 & H3 & _).
  assert (∀ x o, x ≠ p → flagged s [x] o → flagged s' [x] o) as Hkeep.
  { intros x o Hx. destruct (set_old_ok s p [x] (bool_decide (p ∈ O)) b Hb ltac:(by rewrite Hl)) as (s2 & Hs2 & _ & _ & _ & _ & H).
    assert (s2 = s') as -> by congruence. apply H. set_solver. }
  exists s'. split; [done|]. split; [done|]. split; try congruence.
  - by rewrite (r_LRU _ _ Hr).
  - intros x Hx. destruct (decide (x = p)) as [->|Hne]; [|apply (Hkeep x false Hne (HY x Hx Hne)); set_solver].
    rewrite bool_decide_false in H3 by (intros H; by apply (Hd p Hx)). apply H3. set_solver.
  - intros x Hx. destruct (decide (x = p)) as [->|Hne]; [|apply (Hkeep x true Hne (HO x Hx Hne)); set_solver].
    rewrite bool_decide_true in H3 by done. apply H3. set_solver.
Qed.

Lemma target_reflag s s' : reflag s s' → old_target s' = old_target s ∧ len s' = len s.
Proof. intros Hr. unfold old_target, len. by rewrite (r_LRU _ _ Hr), (r_ratio _ _ Hr). Qed.

Lemma adjust_border s Y O :
  border s Y O → O ≠ [] → ratio_ok (LRU_old_ratio s) → BUF_LRU_OLD_MIN_LEN ≤ len s →
  ∃ s' Y' O', buf_LRU_old_adjust_len s = Some s' ∧ reflag s s' ∧ border s' Y' O' ∧ Y' ++ O' = Y ++ O ∧ old_len_ok s' O'.
Proof.
  intros Hb Hne Hr Hl. destruct (adjust_ok s Y O Hb Hne Hr Hl) as (s' & Y' & O' & Ha & Hrf & Hb' & Hl' & HO).
  exists s', Y', O'. split_and!; try done. unfold old_len_ok. destruct (target_reflag s s' Hrf) as [-> ->].
  rewrite (proj2 (Z.ltb_ge _ _) Hl), HO. pose proof (clamp_range (old_target s) (Z.of_nat (length O))). done.
Qed.

Lemma old_init_ok s l :
  LRU s = l → NoDup l → (∀ p, p ∈ l → ∃ b, check_in_file s p = Some b) → ratio_ok (LRU_old_ratio s) → len s = BUF_LRU_OLD_MIN_LEN →
  ∃ s' Y' O', buf_LRU_old_init s = Some s' ∧ reflag s s' ∧ border s' Y' O' ∧ Y' ++ O' = l ∧ old_len_ok s' O'.
Proof.
  intros Hl Hn Hf Hr Hlen. unfold buf_LRU_old_init. rewrite Hlen, Z.eqb_refl, Hl.
  destruct (flag_all_ok s (reverse l) true) as (s1 & -> & Hrf & Hfl & _).
  { intros p Hp. rewrite elem_of_reverse in Hp. rewrite Hl. split; [done|]. by apply Hf. }
  cbn [mbind option_bind]. rewrite (r_LRU _ _ Hrf), Hl. destruct (target_reflag s s1 Hrf) as [_ Hlen1]. rewrite Hlen1.
  set (s2 := with_old s1 (head l) (len s)).
  assert (border s2 [] l) as Hb.
  { split; cbn; try done; [by rewrite (r_LRU _ _ Hrf)|unfold len; by rewrite Hl|by intros p ?%not_elem_of_nil|].
    intros p Hp. apply Hfl. by apply elem_of_reverse. }
  destruct (adjust_border s2 [] l Hb) as (s' & Y' & O' & Ha & Hr' & Hb' & Hl' & HO).
  - intros ->. unfold len in Hlen. by rewrite Hl in Hlen.
  - cbn. by rewrite (r_ratio _ _ Hrf).
  - unfold s2, len. cbn. rewrite (r_LRU _ _ Hrf). unfold len in Hlen. lia.
  - exists s', Y', O'. split_and!; try done. etrans; [exact Hrf|]. etrans; [|exact Hr']. unfold s2. by split.
Qed.

(** Flagging a page that has been put into the list. *)
Lemma flag_new_ok s p o Y O b :
  preborder s p Y O → p ∈ Y ++ O → check_in_file s p = Some b → ratio_ok (LRU_old_ratio s) →
  (if BUF_LRU_OLD_MIN_LEN <? len s then O ≠ [] ∧ o = bool_decide (p ∈ O) else O = []) →
  ∃ s' Y' O', (if BUF_LRU_OLD_MIN_LEN <? len s then s ← buf_page_set_old s p o; buf_LRU_old_adjust_len s
       else if len s =? BUF_LRU_OLD_MIN_LEN then buf_LRU_old_init s
       else buf_page_set_old s p (bool_decide (is_Some (LRU_old s)))) = Some s' ∧
    reflag s s' ∧ border s' Y' O' ∧ Y' ++ O' = Y ++ O ∧ old_len_ok s' O'.
Proof.
  intros Hpre Hp Hb1 Hr Hcase. destruct (Z.ltb_spec BUF_LRU_OLD_MIN_LEN (len s)) as [Hlt|Hge].
  - destruct Hcase as [Hne ->]. destruct (preborder_set s p Y O b Hpre Hp Hb1) as (s2 & -> & Hrf & Hbo). cbn [mbind option_bind].
    destruct (target_reflag _ _ Hrf) as [_ Hl2].
    destruct (adjust_border s2 Y O Hbo Hne) as (s3 & Y' & O' & Ha & Hr' & Hb' & Hl' & HO).
    + by rewrite (r_ratio _ _ Hrf).
    + rewrite Hl2. lia.
    + exists s3, Y', O'. split_and!; try done. by etrans.
  - subst O. rewrite app_nil_r in *. destruct (Z.eqb_spec (len s) BUF_LRU_OLD_MIN_LEN) as [He|Hne].
    + destruct (old_init_ok s Y) as (s3 & Y' & O' & Ha & Hr' & Hb' & Hl' & HO); try done.
      * rewrite (p_LRU _ _ _ _ Hpre). apply app_nil_r.
      * destruct Hpre. by rewrite app_nil_r in *.
      * intros x Hx. destruct (decide (x = p)) as [->|Hxp]; [eauto|].
        destruct (flagged_in_file s [x] false x (p_Y _ _ _ _ Hpre x Hx Hxp) ltac:(set_solver)) as (c & Hc & _). eauto.
      * exists s3, Y', O'. by split_and!.
    + rewrite (p_old _ _ _ _ Hpre). cbn [head].
      destruct (preborder_set s p Y [] b Hpre) as (s2 & Hs2 & Hrf & Hbo); [by rewrite app_nil_r|done|].
      rewrite bool_decide_false in Hs2 by set_solver. rewrite bool_decide_false by (intros [? ?]; done).
      exists s2, Y, []. split_and!; try done; [by rewrite app_nil_r|]. unfold old_len_ok. destruct (target_reflag _ _ Hrf) as [_ ->].
      by rewrite (proj2 (Z.ltb_lt _ _)) by lia.
Qed.

(** The end of adding a page. *)
Lemma add_finish_ok U s p o o' Y O b :
  preborder s p Y O → p ∈ Y ++ O → check_in_file s p = Some b → ratio_ok (LRU_old_ratio s) →
  NoDup (unzip_LRU s) → (∀ x, x ∈ unzip_LRU s ↔ x ∈ Y ++ O ∧ x ≠ p ∧ belongs s x) →
  LRU_bytes s + page_bytes U s p = Zsum (page_bytes U s) (Y ++ O) →
  (if BUF_LRU_OLD_MIN_LEN <? len s then O ≠ [] ∧ o = bool_decide (p ∈ O) else O = []) →
  ∃ s' Y' O', add_finish U s p o o' = Some s' ∧ lru_ok U s' Y' O' ∧ Y' ++ O' = Y ++ O ∧
    (∀ x, fixed <$> pages s' !! x = fixed <$> pages s !! x) ∧ (∀ x, x ∉ Y ++ O → pages s' !! x = pages s !! x).
Proof.
  intros Hpre Hp Hb Hr Hun Hue Hby Hcase. unfold add_finish.
  pose proof Hb as Hb0. unfold check_in_file in Hb0. destruct (pages s !! p) as [b'|] eqn:Hpp; [|done]. cbn [mbind option_bind] in Hb0 |- *.
  set (s1 := incr_LRU_size_in_bytes U s b').
  assert (preborder s1 p Y O) as Hpre1 by (destruct Hpre; by split).
  assert (check_in_file s1 p = Some b) as Hb1 by done.
  destruct (flag_new_ok s1 p o Y O b Hpre1 Hp Hb1 Hr Hcase) as (s2 & Y' & O' & -> & Hrf & Hbo & HYO & Hlok).
  cbn [mbind option_bind].
  destruct (same_fixed s1 s2 p (r_pages _ _ Hrf p)) as (_ & Hbel & _).
  pose proof (r_pages _ _ Hrf p) as Hfix. change (pages s1) with (pages s) in Hfix. rewrite Hpp in Hfix.
  destruct (pages s2 !! p) as [b2|] eqn:Hp2; [|done]. cbn [mbind option_bind].
  set (s3 := if buf_page_belongs_to_unzip_LRU b2 then with_unzip s2 (if o' then unzip_LRU s2 ++ [p] else p :: unzip_LRU s2) else s2).
  exists s3, Y', O'. split_and!.
  - unfold s3, buf_unzip_LRU_add_block. by destruct (buf_page_belongs_to_unzip_LRU b2).
  - assert (LRU s3 = LRU s2 ∧ pages s3 = pages s2 ∧ LRU_old_ratio s3 = LRU_old_ratio s2 ∧ LRU_bytes s3 = LRU_bytes s2 ∧
      LRU_old s3 = LRU_old s2 ∧ LRU_old_len s3 = LRU_old_len s2) as (E1 & E2 & E3 & E4 & E5 & E6) by (unfold s3; destruct (buf_page_belongs_to_unzip_LRU b2); done).
    assert (p ∉ unzip_LRU s2) as Hpn by (rewrite (r_unzip _ _ Hrf); intros (_ & [] & _)%Hue; done).
    split; [|split].
    + destruct Hbo. split; unfold flagged; rewrite ?E1, ?E2, ?E5, ?E6; done.
    + unfold old_len_ok, len, old_target, len in *. by rewrite E1, E3.
    + split; unfold belongs.
      * rewrite E3, (r_ratio _ _ Hrf). done.
      * unfold s3. change (unzip_LRU s) with (unzip_LRU s1) in Hun. rewrite <- (r_unzip _ _ Hrf) in Hun. destruct (buf_page_belongs_to_unzip_LRU b2), o'; cbn; [|by apply NoDup_cons|done|done].
        apply NoDup_app. split_and!; [done|set_solver|apply NoDup_singleton].
      * intros x. rewrite E1, E2, (b_LRU _ _ _ Hbo), HYO.
        assert (x ∈ unzip_LRU s3 ↔ x ∈ unzip_LRU s ∨ x = p ∧ buf_page_belongs_to_unzip_LRU b2 = true) as ->.
        { change (unzip_LRU s) with (unzip_LRU s1). rewrite <- (r_unzip _ _ Hrf). unfold s3. destruct (buf_page_belongs_to_unzip_LRU b2), o'; cbn; set_solver. }
        rewrite Hue. destruct (decide (x = p)) as [->|].
        { rewrite Hp2. split; [naive_solver|]. intros [_ (c & [= <-] & Hbc)]. by right. }
        destruct (same_fixed s1 s2 x (r_pages _ _ Hrf x)) as (_ & Hbx & _). unfold belongs in *. rewrite Hbx. naive_solver.
      * rewrite E1, E4, (r_bytes _ _ Hrf), (b_LRU _ _ _ Hbo), HYO. unfold s1, incr_LRU_size_in_bytes. cbn.
        unfold page_bytes in Hby at 1. rewrite Hpp in Hby. rewrite Hby. apply Zsum_ext. intros x _. symmetry. unfold page_bytes at 1.
        rewrite E2. apply (same_fixed s1 s2 x (r_pages _ _ Hrf x)).
  - by rewrite HYO.
  - intros x. assert (pages s3 = pages s2) as -> by (unfold s3; destruct (buf_page_belongs_to_unzip_LRU b2); done). apply (r_pages _ _ Hrf).
  - intros x Hx. assert (pages s3 = pages s2) as -> by (unfold s3; destruct (buf_page_belongs_to_unzip_LRU b2); done). apply (r_other _ _ Hrf).
    by rewrite (p_LRU _ _ _ _ Hpre1).
Qed.


(** A long list has pages on both sides of the border. *)
Lemma both_sides U s Y O : lru_ok U s Y O → O ≠ [] ∨ BUF_LRU_OLD_MIN_LEN ≤ len s → O ≠ [] ∧ Y ≠ [] ∧ BUF_LRU_OLD_MIN_LEN ≤ len s.
Proof.
  intros (Hb & Ho & Hr) Hc. unfold old_len_ok in Ho. destruct (Z.ltb_spec (len s) BUF_LRU_OLD_MIN_LEN) as [Hlt|Hge].
  { subst O. destruct Hc; [done|lia]. }
  pose proof (target_range s (k_ratio _ _ Hr) Hge). unfold BUF_LRU_OLD_TOLERANCE in Ho.
  assert (len s = Z.of_nat (length Y) + Z.of_nat (length O)) by (unfold len; rewrite (b_LRU _ _ _ Hb), length_app; lia).
  split_and!; [intros ->; cbn in *; lia|intros ->; cbn in *; lia|done].
Qed.

(** The list without [p], its bytes and its entry in [unzip_LRU]; what holds of these. *)
Definition without (U : Z) (s : buf_pool_t) (p : nat) (b : buf_page_t) : buf_pool_t :=
  let zip_size := page_zip_get_size b in
  let s := with_LRU s (remove (LRU s) p) in
  buf_unzip_LRU_remove_block_if_needed (with_bytes s (LRU_bytes s - (if zip_size =? 0 then U else zip_size))) p b.

Lemma without_fields U s p b :
  LRU (without U s p b) = remove (LRU s) p ∧ pages (without U s p b) = pages s ∧ LRU_old (without U s p b) = LRU_old s ∧
  LRU_old_len (without U s p b) = LRU_old_len s ∧ LRU_old_ratio (without U s p b) = LRU_old_ratio s.
Proof. unfold without, buf_unzip_LRU_remove_block_if_needed. by destruct (buf_page_belongs_to_unzip_LRU b). Qed.

Lemma Zsum_remove {f : nat → Z} l p : p ∈ l → Zsum f l = f p + Zsum f (remove l p).
Proof.
  induction l as [|x l IH]; [by intros ?%not_elem_of_nil|]. cbn. intros Hp.
  destruct (Nat.eqb_spec x p) as [->|]; [done|]. cbn. rewrite IH by set_solver. lia.
Qed.

Lemma without_rest U s p b :
  rest_ok U s → NoDup (LRU s) → p ∈ LRU s → pages s !! p = Some b → rest_ok U (without U s p b).
Proof.
  intros [H1 H2 H3 H4] Hn Hp Hb. destruct (without_fields U s p b) as (E1 & E2 & _ & _ & E5). split; unfold belongs.
  - by rewrite E5.
  - unfold without, buf_unzip_LRU_remove_block_if_needed. destruct (buf_page_belongs_to_unzip_LRU b); [by apply remove_nodup|done].
  - intros x. rewrite E1, E2, remove_elem by done.
    assert (x ∈ unzip_LRU (without U s p b) ↔ x ∈ unzip_LRU s ∧ x ≠ p) as ->; [|rewrite H3; unfold belongs; tauto].
    unfold without, buf_unzip_LRU_remove_block_if_needed. destruct (buf_page_belongs_to_unzip_LRU b) eqn:E; cbn.
    + by rewrite remove_elem.
    + split; [|tauto]. intros Hx. split; [done|]. intros ->. apply H3 in Hx as [_ (c & Hc & Hbc)]. congruence.
  - rewrite E1. assert (LRU_bytes (without U s p b) = LRU_bytes s - page_bytes U s p) as ->.
    { unfold page_bytes. rewrite Hb. unfold without, buf_unzip_LRU_remove_block_if_needed. by destruct (buf_page_belongs_to_unzip_LRU b). }
    rewrite H4, (Zsum_remove _ p Hp). transitivity (Zsum (page_bytes U s) (remove (LRU s) p)); [lia|].
    apply Zsum_ext. intros x _. unfold page_bytes. by rewrite E2.
Qed.

(** The first step of removal: the border leaves [p]. *)
Lemma leave_border U s Y O p :
  lru_ok U s Y O → p ∈ Y ++ O →
  ∃ s1 Y1 O1, (if decide (LRU_old s = Some p) then
         q ← get_prev (LRU s) p; buf_page_set_old (with_old s (Some q) (LRU_old_len s + 1)) q true
       else Some s) = Some s1 ∧ reflag s s1 ∧ border s1 Y1 O1 ∧ Y1 ++ O1 = Y ++ O ∧ head O1 ≠ Some p ∧
    (BUF_LRU_OLD_MIN_LEN ≤ len s → O1 ≠ []).
Proof.
  intros Hok Hp. pose proof Hok as (Hb & _ & _). destruct (decide (LRU_old s = Some p)) as [He|Hne].
  - rewrite (b_old _ _ _ Hb) in He. destruct O as [|p' O]; [done|]. cbn in He. injection He as ->.
    destruct (both_sides U s Y (p :: O) Hok ltac:(by left)) as (_ & HY & _).
    destruct Y as [|q Y _] using rev_ind; [done|].
    destruct (border_grow s Y q (p :: O) Hb ltac:(done)) as (p2 & s1 & Hp2 & Hq & Hs & Hr & Hb1).
    assert (p2 = p) as -> by (rewrite (b_old _ _ _ Hb) in Hp2; cbn in Hp2; congruence).
    rewrite Hq. cbn [mbind option_bind]. exists s1, Y, (q :: p :: O). split_and!; try done.
    + by rewrite <- app_assoc.
    + cbn. intros [= ->]. pose proof (b_nodup _ _ _ Hb1) as (_ & _ & [[]%not_elem_of_cons _]%NoDup_cons)%NoDup_app. done.
  - exists s, Y, O. split_and!; try done; [by rewrite <- (b_old _ _ _ Hb)|]. intros Hl. by destruct (both_sides U s Y O Hok ltac:(by right)).
Qed.

Lemma remove_app_l Y O p : p ∈ Y → remove (Y ++ O) p = remove Y p ++ O.
Proof.
  induction Y as [|y Y IH]; [by intros ?%not_elem_of_nil|]. cbn. intros Hp.
  destruct (Nat.eqb_spec y p); [done|]. rewrite IH by set_solver. done.
Qed.

Lemma remove_app_r Y O p : p ∉ Y → remove (Y ++ O) p = Y ++ remove O p.
Proof.
  induction Y as [|y Y IH]; [done|]. cbn. intros Hp. rewrite (proj2 (Nat.eqb_neq y p)) by set_solver. rewrite IH by set_solver. done.
Qed.

Lemma remove_length l p : p ∈ l → Z.of_nat (length (remove l p)) = Z.of_nat (length l) - 1.
Proof.
  induction l as [|x l IH]; [by intros ?%not_elem_of_nil|]. cbn [remove length]. intros Hp.
  destruct (Nat.eqb_spec x p) as [->|]; [lia|]. cbn [length]. rewrite Nat2Z.inj_succ, IH by set_solver. lia.
Qed.

(** The border after the page has been taken out. *)
Lemma without_border U s Y O p b :
  border s Y O → p ∈ Y ++ O → head O ≠ Some p → pages s !! p = Some b →
  let s' := without U s p b in
  ∃ Y' O', Y' ++ O' = remove (Y ++ O) p ∧ (O ≠ [] → O' ≠ []) ∧
    border (if old b then with_old s' (LRU_old s') (LRU_old_len s' - 1) else s') Y' O'.
Proof.
  intros [Hl Hn Ho Hlen HY HO] Hp Hh Hb s'. destruct (without_fields U s p b) as (E1 & E2 & E3 & E4 & _). fold s' in E1, E2, E3, E4.
  pose proof Hn as (HnY & Hd & HnO)%NoDup_app.
  assert (∀ l k o, flagged s l o → (∀ x, x ∈ k → x ∈ l) → flagged (if old b then with_old s' (LRU_old s') (LRU_old_len s' - 1) else s') k o) as Hfl.
  { intros l k o Hf Hk x Hx. destruct (Hf x (Hk x Hx)) as (c & Hc & ?). exists c. split; [|done]. destruct (old b); cbn; by rewrite E2. }
  assert (∀ Y' O', LRU s' = Y' ++ O' → LRU (if old b then with_old s' (LRU_old s') (LRU_old_len s' - 1) else s') = Y' ++ O') as HL
    by (intros; by destruct (old b)).
  destruct (decide (p ∈ Y)) as [HpY|HpY].
  - assert (old b = false) as Hob by (destruct (HY p HpY) as (c & Hc & _ & ?); congruence).
    exists (remove Y p), O. rewrite remove_app_l by done. split_and!; [done|done|]. rewrite Hob in *. split; try congruence.
    + rewrite E1, Hl. by apply remove_app_l.
    + apply NoDup_app. split_and!; [by apply remove_nodup|intros x [Hx _]%remove_elem; [by apply Hd|done]|done].
    + apply (Hfl Y); [done|]. by intros x [? _]%remove_elem.
    + by apply (Hfl O).
  - assert (p ∈ O) as HpO by set_solver. assert (old b = true) as Hob by (destruct (HO p HpO) as (c & Hc & _ & ?); congruence).
    destruct O as [|x O]; [by apply not_elem_of_nil in HpO|]. cbn in Hh. assert (x ≠ p) as Hxp by congruence.
    exists Y, (remove (x :: O) p). rewrite remove_app_r by done. cbn [remove]. rewrite (proj2 (Nat.eqb_neq x p)) by done.
    split_and!; [done|done|]. rewrite Hob in *. assert (p ∈ O) as HpO' by set_solver. apply NoDup_cons in HnO as [HxO HnO].
    split; cbn [with_old LRU LRU_old LRU_old_len].
    + rewrite E1, Hl, remove_app_r by done. cbn. by rewrite (proj2 (Nat.eqb_neq x p)) by done.
    + apply NoDup_app. split_and!; [done|intros y Hy; specialize (Hd y Hy); rewrite elem_of_cons, remove_elem by done; set_solver|].
      apply NoDup_cons. split; [rewrite remove_elem by done; tauto|by apply remove_nodup].
    + rewrite E3, Ho. done.
    + rewrite E4, Hlen. cbn [length]. rewrite !Nat2Z.inj_succ, remove_length by done. lia.
    + by apply (Hfl Y).
    + apply (Hfl (x :: O)); [done|]. intros y. rewrite elem_of_cons, remove_elem by done. set_solver.
Qed.


Lemma listed_in_file s Y O x : border s Y O → x ∈ Y ++ O → ∃ b, check_in_file s x = Some b.
Proof.
  intros Hb [Hx|Hx]%elem_of_app.
  - destruct (flagged_in_file s Y false x (b_Y _ _ _ Hb) Hx) as (b & ? & _). eauto.
  - destruct (flagged_in_file s O true x (b_O _ _ _ Hb) Hx) as (b & ? & _). eauto.
Qed.

(** What the operations leave of the control blocks: flags and clocks of listed pages change. *)
Definition keeps (s s' : buf_pool_t) : Prop :=
  ∀ x, (∃ b, check_in_file s x = Some b) → ∃ b, check_in_file s' x = Some b.

Lemma fixed_keeps s s' : (∀ x, fixed <$> pages s' !! x = fixed <$> pages s !! x) → keeps s s'.
Proof. intros Hf x. apply (same_fixed s s' x (Hf x)). Qed.

Lemma remove_block_ok U s Y O p :
  lru_ok U s Y O → p ∈ Y ++ O →
  ∃ s' Y' O', buf_LRU_remove_block U s p = Some s' ∧ lru_ok U s' Y' O' ∧ Y' ++ O' = remove (Y ++ O) p ∧ keeps s s'.
Proof.
  intros Hok Hp. pose proof Hok as (Hb & _ & Hrest). unfold buf_LRU_remove_block.
  destruct (listed_in_file s Y O p Hb Hp) as [b0 Hb0].
  rewrite Hb0. cbn [mbind option_bind].
  destruct (leave_border U s Y O p Hok Hp) as (s1 & Y1 & O1 & -> & Hr1 & Hb1 & HYO1 & Hh & Hne1). cbn [mbind option_bind].
  destruct (proj2 (proj2 (proj2 (same_fixed s s1 p (r_pages _ _ Hr1 p)))) ltac:(eauto)) as [b1 Hb1c].
  assert (∃ b, pages s1 !! p = Some b) as [b Hpb] by (unfold check_in_file in Hb1c; destruct (pages s1 !! p); [eauto|done]).
  rewrite Hpb. cbn [mbind option_bind]. fold (without U s1 p b).
  pose proof (rest_ok_reflag U s s1 Hr1 Hrest) as Hrest1.
  assert (p ∈ LRU s1) as HpL by by rewrite (b_LRU _ _ _ Hb1), HYO1.
  assert (NoDup (LRU s1)) as Hnd by (rewrite (b_LRU _ _ _ Hb1); apply Hb1).
  pose proof (without_rest U s1 p b Hrest1 Hnd HpL Hpb) as Hrest2.
  destruct (without_border U s1 Y1 O1 p b Hb1 ltac:(by rewrite HYO1) Hh Hpb) as (Y2 & O2 & HYO2 & Hne2 & Hb2).
  rewrite HYO1 in HYO2. destruct (without_fields U s1 p b) as (E1 & E2 & E3 & E4 & E5). set (s2 := without U s1 p b) in *.
  destruct (Z.ltb_spec (len s2) BUF_LRU_OLD_MIN_LEN) as [Hlt|Hge].
  - destruct (flag_all_ok s2 (LRU s2) false) as (s3 & -> & Hr3 & Hf3 & _).
    { intros x Hx. split; [done|]. rewrite E1 in Hx. apply remove_elem in Hx as [Hx _]; [|done].
      rewrite (b_LRU _ _ _ Hb1) in Hx. destruct (listed_in_file s1 Y1 O1 x Hb1 Hx) as [c Hc]. exists c.
      unfold check_in_file in *. by rewrite E2. }
    cbn [mbind option_bind].
    assert (LRU s2 = remove (Y ++ O) p) as HL2 by (rewrite E1, (b_LRU _ _ _ Hb1); by rewrite HYO1).
    exists (with_old s3 None 0), (remove (Y ++ O) p), []. rewrite app_nil_r. split_and!; [done| |done|].
    + assert (reflag s2 (with_old s3 None 0)) as Hr4 by (destruct Hr3; by split).
      split; [|split; [|by apply (rest_ok_reflag U s2)]].
      * split; cbn; try done; rewrite ?app_nil_r; [by rewrite (r_LRU _ _ Hr3)| |by rewrite <- HL2|by intros x ?%not_elem_of_nil].
        rewrite <- HYO1. apply remove_nodup, Hb1.
      * unfold old_len_ok. destruct (target_reflag _ _ Hr4) as [_ ->]. by rewrite (proj2 (Z.ltb_lt _ _)).
    + apply fixed_keeps. intros x. cbn. rewrite (r_pages _ _ Hr3), E2. apply Hr1.
  - set (s3 := if old b then with_old s2 (LRU_old s2) (LRU_old_len s2 - 1) else s2) in *.
    assert (len s3 = len s2 ∧ LRU_old_ratio s3 = LRU_old_ratio s2 ∧ pages s3 = pages s2) as (F1 & F2 & F3) by (unfold s3; by destruct (old b)).
    assert (rest_ok U s3) as Hrest3 by (unfold s3; destruct (old b); [|done]; destruct Hrest2; by split).
    assert (BUF_LRU_OLD_MIN_LEN ≤ len s) as Hls.
    { unfold len in *. rewrite E1, (r_LRU _ _ Hr1), remove_length in Hge; [lia|]. by rewrite <- (r_LRU _ _ Hr1). }
    destruct (adjust_border s3 Y2 O2 Hb2) as (s4 & Y4 & O4 & Ha & Hr4 & Hb4 & HYO4 & Hlok); [auto|by rewrite F2, E5; apply Hrest1|lia|].
    exists s4, Y4, O4. split_and!; [done| |congruence|].
    + split; [done|]. split; [done|]. by apply (rest_ok_reflag U s3).
    + apply fixed_keeps. intros x. rewrite (r_pages _ _ Hr4), F3, E2. apply Hr1.
Qed.


#[export] Instance keeps_preorder : PreOrder keeps.
Proof. split; [by intros s x|]. intros a b c Hab Hbc x Hx. auto. Qed.

(** Adding a page at the front, and behind the first old page. *)
Lemma add_front_ok U s Y O p o b :
  lru_ok U s Y O → p ∉ Y ++ O → check_in_file s p = Some b → negb o || (len s <? BUF_LRU_OLD_MIN_LEN) = true →
  ∃ s' Y' O', buf_LRU_add_block_low U s p o = Some s' ∧ lru_ok U s' Y' O' ∧ keeps s s' ∧ Y' ++ O' = p :: Y ++ O.
Proof.
  intros Hok Hp Hb Hc. pose proof Hok as (Hbo & Hlok & [R1 R2 R3 R4]). unfold buf_LRU_add_block_low. rewrite Hb. cbn [mbind option_bind].
  rewrite Hc. rewrite (b_LRU _ _ _ Hbo) in *.
  assert (buf_page_in_file b = Some true) as Hf.
  { unfold check_in_file in Hb. destruct (pages s !! p) as [b'|]; [|done]. cbn in Hb.
    destruct (buf_page_in_file b') as [[]|] eqn:Hf; try done. by injection Hb as ->. }
  set (b2 := set_clock b _). set (s1 := with_pages _ _).
  assert (∀ x, x ∈ Y ++ O → pages s1 !! x = pages s !! x) as Hsame by (intros x Hx; cbn; rewrite lookup_insert_ne; [done|congruence]).
  assert (O = [] ∨ o = false ∧ O ≠ [] ∧ BUF_LRU_OLD_MIN_LEN ≤ len s) as HO.
  { destruct (decide (O = [])) as [|HO]; [by left|right]. destruct (both_sides U s Y O Hok ltac:(by left)) as (_ & _ & Hl).
    rewrite (proj2 (Z.ltb_ge _ _) Hl), orb_false_r in Hc. by destruct o. }
  destruct (add_finish_ok U s1 p o o (p :: Y) O b2) as (s' & Y' & O' & Ha & Hok' & HYO & Hfx & _).
  - destruct Hbo. split; cbn; try done.
    + apply NoDup_cons. done.
    + intros x [->|Hx]%elem_of_cons Hne; [done|]. intros y ->%list_elem_of_singleton. rewrite Hsame by set_solver. by apply b_Y0.
    + intros x Hx Hne y ->%list_elem_of_singleton. rewrite Hsame by set_solver. by apply b_O0.
  - set_solver.
  - unfold check_in_file. cbn. rewrite lookup_insert_eq. cbn. change (buf_page_in_file b2) with (buf_page_in_file b). by rewrite Hf.
  - done.
  - done.
  - intros x. cbn. rewrite R3, elem_of_cons. unfold belongs. split.
    + intros [Hx Hbx]. rewrite Hsame by done. split_and!; [by right|congruence|done].
    + intros ([->|Hx] & Hne & Hbx); [done|]. rewrite Hsame in Hbx by done. done.
  - rewrite <- app_comm_cons. cbn [Zsum]. change (LRU_bytes s1) with (LRU_bytes s). rewrite R4.
    rewrite (Zsum_ext (page_bytes U s1) (page_bytes U s) (Y ++ O)); [lia|]. intros x Hx. unfold page_bytes. by rewrite Hsame.
  - unfold len, s1. cbn. rewrite ?(b_LRU _ _ _ Hbo). cbn [length]. destruct HO as [->|(-> & HO & Hl)].
    + case_match; zify_bool; [|done]. exfalso. unfold old_len_ok, len in Hlok. rewrite ?(b_LRU _ _ _ Hbo) in Hlok.
      destruct (both_sides U s Y [] Hok); [right; unfold len; rewrite ?(b_LRU _ _ _ Hbo); lia|done].
    + unfold len in Hl. rewrite ?(b_LRU _ _ _ Hbo) in Hl. rewrite (proj2 (Z.ltb_lt _ _)) by lia. split; [done|].
    rewrite bool_decide_false; [done|set_solver].
  - exists s', Y', O'. split; [done|]. split; [done|]. split; [|done].
    etrans; [|by apply fixed_keeps]. intros x [c Hck]. unfold check_in_file in *. cbn.
    destruct (decide (x = p)) as [->|]; [|rewrite lookup_insert_ne by done; eauto]. rewrite lookup_insert_eq. cbn.
    change (buf_page_in_file b2) with (buf_page_in_file b). rewrite Hf. eauto.
Qed.

Lemma add_middle_ok U s Y O p o b :
  lru_ok U s Y O → p ∉ Y ++ O → check_in_file s p = Some b → negb o || (len s <? BUF_LRU_OLD_MIN_LEN) = false →
  ∃ s' Y' O', buf_LRU_add_block_low U s p o = Some s' ∧ lru_ok U s' Y' O' ∧ keeps s s' ∧
    Y' ++ O' = Y ++ insert_after O (default 0%nat (head O)) p.
Proof.
  intros Hok Hp Hb Hc. pose proof Hok as (Hbo & Hlok & [R1 R2 R3 R4]). unfold buf_LRU_add_block_low. rewrite Hb. cbn [mbind option_bind].
  rewrite Hc. rewrite (b_LRU _ _ _ Hbo) in *.
  apply orb_false_iff in Hc as [Ho%negb_false_iff Hl%Z.ltb_ge]. subst o.
  destruct (both_sides U s Y O Hok ltac:(by right)) as (HO & _ & _). destruct O as [|q O]; [done|].
  rewrite (b_old _ _ _ Hbo). cbn [head mbind option_bind default insert_after]. rewrite Nat.eqb_refl.
  pose proof (b_nodup _ _ _ Hbo) as (HnY & Hd & [HqO HnO]%NoDup_cons)%NoDup_app.
  assert (q ∉ Y) as HqY by (intros H; apply (Hd q H); set_solver). rewrite insert_after_at by done.
  set (s1 := with_old _ _ _).
  destruct (add_finish_ok U s1 p true true Y (q :: p :: O) b) as (s' & Y' & O' & Ha & Hok' & HYO & Hfx & _).
  - destruct Hbo. split; cbn; try done.
    + apply NoDup_app. split_and!; [done|set_solver|]. apply NoDup_cons. split; [set_solver|]. apply NoDup_cons. split; [set_solver|done].
    + rewrite b_len0. cbn. lia.
    + intros x Hx _ y ->%list_elem_of_singleton. by apply b_Y0.
    + intros x Hx Hne y ->%list_elem_of_singleton. apply b_O0. set_solver.
  - set_solver.
  - done.
  - done.
  - done.
  - intros x. cbn. rewrite R3. unfold belongs. set_solver.
  - change (LRU_bytes s1) with (LRU_bytes s). change (page_bytes U s1) with (page_bytes U s). rewrite R4, !Zsum_app. cbn [Zsum]. lia.
  - unfold len, s1 in *. cbn. rewrite (b_LRU _ _ _ Hbo), length_app in Hl. rewrite length_app. cbn [length] in *.
    rewrite (proj2 (Z.ltb_lt _ _)) by (unfold BUF_LRU_OLD_MIN_LEN in *; lia). split; [done|]. rewrite bool_decide_true; [done|set_solver].
  - exists s', Y', O'. split; [done|]. split; [done|]. split; [by apply fixed_keeps|done].
Qed.

Lemma add_block_low_ok U s Y O p o b :
  lru_ok U s Y O → p ∉ Y ++ O → check_in_file s p = Some b →
  ∃ s' Y' O', buf_LRU_add_block_low U s p o = Some s' ∧ lru_ok U s' Y' O' ∧ keeps s s' ∧
    Y' ++ O' = (if negb o || (len s <? BUF_LRU_OLD_MIN_LEN) then p :: Y ++ O else Y ++ insert_after O (default 0%nat (head O)) p).
Proof.
  intros Hok Hp Hb. destruct (negb o || _) eqn:Hc; [by eapply add_front_ok|by eapply add_middle_ok].
Qed.


Lemma add_end_ok U s Y O p b :
  lru_ok U s Y O → p ∉ Y ++ O → check_in_file s p = Some b →
  ∃ s' Y' O', buf_LRU_add_block_to_end_low U s p = Some s' ∧ lru_ok U s' Y' O' ∧ keeps s s' ∧ Y' ++ O' = Y ++ O ++ [p].
Proof.
  intros Hok Hp Hb. pose proof Hok as (Hbo & Hlok & [R1 R2 R3 R4]). unfold buf_LRU_add_block_to_end_low. rewrite Hb. cbn [mbind option_bind].
  set (s0 := with_LRU s (LRU s ++ [p])). set (s1 := if BUF_LRU_OLD_MIN_LEN <? len s0 then _ else _).
  assert (LRU s1 = Y ++ O ++ [p] ∧ pages s1 = pages s ∧ LRU_old s1 = LRU_old s ∧ unzip_LRU s1 = unzip_LRU s ∧
    LRU_old_ratio s1 = LRU_old_ratio s ∧ LRU_bytes s1 = LRU_bytes s) as (E1 & E2 & E3 & E4 & E5 & E6).
  { unfold s1, s0. rewrite (b_LRU _ _ _ Hbo), <- app_assoc. by case_match. }
  assert (len s1 = len s + 1) as E7 by (unfold len; rewrite E1, (b_LRU _ _ _ Hbo), !length_app; cbn; lia).
  assert (len s0 = len s + 1) as E8 by (unfold len, s0; cbn; rewrite length_app; cbn; lia).
  assert (NoDup (Y ++ O ++ [p])) as Hn.
  { rewrite app_assoc. apply NoDup_app. split_and!; [apply Hbo|set_solver|apply NoDup_singleton]. }
  assert (∀ A B, A ++ B = Y ++ O ++ [p] → (∀ x, x ∈ A → x ≠ p → x ∈ Y) → (∀ x, x ∈ B → x ≠ p → x ∈ O) → p ∈ A ++ B →
    LRU_old s1 = head B → LRU_old_len s1 = Z.of_nat (length B) → (if BUF_LRU_OLD_MIN_LEN <? len s1 then B ≠ [] ∧ p ∈ B else B = []) →
    ∃ s' Y' O', add_finish U s1 p true true = Some s' ∧ lru_ok U s' Y' O' ∧ keeps s s' ∧ Y' ++ O' = Y ++ O ++ [p]) as Hgo.
  { intros A B HAB HA HB HpAB Hold Hlen Hcase.
    destruct (add_finish_ok U s1 p true true A B b) as (s' & Y' & O' & Ha & Hok' & HYO & Hfx & _).
    - split; rewrite ?HAB; try done; unfold flagged; rewrite E2;
        intros x Hx Hne y ->%list_elem_of_singleton; [apply (b_Y _ _ _ Hbo)|apply (b_O _ _ _ Hbo)]; auto.
    - done.
    - unfold check_in_file. by rewrite E2.
    - by rewrite E5.
    - by rewrite E4.
    - intros x. rewrite E4, R3, HAB, (b_LRU _ _ _ Hbo). unfold belongs. rewrite E2. set_solver.
    - rewrite E6, R4, HAB, (b_LRU _ _ _ Hbo). rewrite app_assoc, (Zsum_app _ (Y ++ O)). cbn. unfold page_bytes. rewrite E2. lia.
    - case_match; [|done]. destruct Hcase as [? ?]. split; [done|]. by rewrite bool_decide_true.
    - exists s', Y', O'. split_and!; [done|done| |by rewrite HYO]. apply fixed_keeps. intros x. by rewrite Hfx, E2. }
  destruct (Z.ltb_spec BUF_LRU_OLD_MIN_LEN (len s1)) as [Hlt|Hge].
  - destruct (both_sides U s Y O Hok) as (HO & _ & _); [right; lia|].
    apply (Hgo Y (O ++ [p])); [done|done|by intros x [?| ->%list_elem_of_singleton]%elem_of_app|by rewrite !elem_of_app, list_elem_of_singleton; auto|..].
    + rewrite E3, (b_old _ _ _ Hbo). by destruct O.
    + unfold s1. rewrite E8, (proj2 (Z.ltb_lt _ _)) by lia. cbn. rewrite (b_len _ _ _ Hbo), length_app. cbn. lia.
    + split; [by destruct O|]. rewrite elem_of_app, list_elem_of_singleton. auto.
  - assert (O = []) as ->.
    { unfold old_len_ok in Hlok. by rewrite (proj2 (Z.ltb_lt _ _)) in Hlok by lia. }
    apply (Hgo (Y ++ [p]) []); rewrite ?app_nil_r; [done|by intros x [?| ->%list_elem_of_singleton]%elem_of_app|by intros x ?%not_elem_of_nil|
      rewrite elem_of_app, list_elem_of_singleton; auto|..|done].
    + by rewrite E3, (b_old _ _ _ Hbo).
    + unfold s1. rewrite E8, (proj2 (Z.ltb_ge _ _)) by lia. apply (b_len _ _ _ Hbo).
Qed.

Lemma remove_not_elem l p : NoDup l → p ∉ remove l p.
Proof. intros Hn. rewrite remove_elem by done. tauto. Qed.

Lemma with_young_ok U s Y O a b : lru_ok U s Y O → lru_ok U (with_young s a b) Y O.
Proof. intros (Hb & Ho & Hr). split; [by destruct Hb|]. split; [done|]. by destruct Hr. Qed.

(** Moving a page to the front or to the end: the others keep their order. *)
Lemma make_block_young_ok U s Y O p :
  lru_ok U s Y O → p ∈ Y ++ O →
  ∃ s' Y' O', buf_LRU_make_block_young U s p = Some s' ∧ lru_ok U s' Y' O' ∧ keeps s s' ∧ Y' ++ O' = p :: remove (Y ++ O) p.
Proof.
  intros Hok Hp. destruct (listed_in_file s Y O p (proj1 Hok) Hp) as [b Hb]. unfold buf_LRU_make_block_young.
  assert (∃ b0, pages s !! p = Some b0) as [b0 Hb0] by (unfold check_in_file in Hb; destruct (pages s !! p); [eauto|done]).
  rewrite Hb0. cbn [mbind option_bind].
  set (s1 := if old b0 then with_young s (n_pages_made_young s + 1) (n_pages_not_made_young s) else s).
  assert (lru_ok U s1 Y O) as Hok1 by (unfold s1; case_match; [by apply with_young_ok|done]).
  assert (keeps s s1) as Hk1 by (unfold s1; case_match; by intros x).
  destruct (remove_block_ok U s1 Y O p Hok1 Hp) as (s2 & Y2 & O2 & -> & Hok2 & HYO2 & Hk2). cbn [mbind option_bind].
  assert (p ∉ Y2 ++ O2) as Hp2 by (rewrite HYO2; apply remove_not_elem, Hok).
  destruct (Hk2 p (Hk1 p ltac:(eauto))) as [b2 Hb2].
  destruct (add_front_ok U s2 Y2 O2 p false b2 Hok2 Hp2 Hb2 eq_refl) as (s3 & Y3 & O3 & -> & Hok3 & Hk3 & HYO3).
  exists s3, Y3, O3. rewrite <- HYO2. split_and!; try done. by do 2 etrans.
Qed.

Lemma make_block_old_ok U s Y O p :
  lru_ok U s Y O → p ∈ Y ++ O →
  ∃ s' Y' O', buf_LRU_make_block_old U s p = Some s' ∧ lru_ok U s' Y' O' ∧ keeps s s' ∧ Y' ++ O' = remove (Y ++ O) p ++ [p].
Proof.
  intros Hok Hp. destruct (listed_in_file s Y O p (proj1 Hok) Hp) as [b Hb]. unfold buf_LRU_make_block_old.
  destruct (remove_block_ok U s Y O p Hok Hp) as (s2 & Y2 & O2 & -> & Hok2 & HYO2 & Hk2). cbn [mbind option_bind].
  assert (p ∉ Y2 ++ O2) as Hp2 by (rewrite HYO2; apply remove_not_elem, Hok).
  destruct (Hk2 p ltac:(eauto)) as [b2 Hb2].
  destruct (add_end_ok U s2 Y2 O2 p b2 Hok2 Hp2 Hb2) as (s3 & Y3 & O3 & -> & Hok3 & Hk3 & HYO3).
  exists s3, Y3, O3. rewrite HYO3, app_assoc, HYO2. split_and!; try done. by etrans.
Qed.


(** ** The ratio *)

Lemma ratio_of_ok pct : ratio_ok (ratio_of pct).
Proof. unfold ratio_of, ratio_ok, BUF_LRU_OLD_RATIO_MAX, BUF_LRU_OLD_RATIO_DIV, BUF_LRU_OLD_RATIO_MIN. repeat (case_match; zify_bool); lia. Qed.

(** The percentages the server allows come back as they were given. *)
Lemma pct_roundtrip pct : 5 ≤ pct ≤ 95 → pct_of (ratio_of pct) = pct.
Proof.
  intros Hp. assert (forallb (λ p, pct_of (ratio_of p) =? p) (seqZ 5 91) = true) as Hall by reflexivity.
  rewrite forallb_forall in Hall. apply Z.eqb_eq, Hall, list_elem_of_In, elem_of_seqZ. lia.
Qed.

Lemma with_ratio_rest U s r : ratio_ok r → rest_ok U s → rest_ok U (with_ratio s r).
Proof. intros Hr []. by split. Qed.

Lemma ratio_update_ok U s Y O pct :
  lru_ok U s Y O → ∃ s' Y' O', buf_LRU_old_ratio_update_instance s pct true = Some (s', pct_of (ratio_of pct)) ∧
    lru_ok U s' Y' O' ∧ keeps s s' ∧ Y' ++ O' = Y ++ O.
Proof.
  intros Hok. pose proof Hok as (Hb & Ho & Hr). unfold buf_LRU_old_ratio_update_instance.
  destruct (Z.eqb_spec (ratio_of pct) (LRU_old_ratio s)) as [He|Hne]; cbn [mbind option_bind]; [by exists s, Y, O|].
  set (s1 := with_ratio s (ratio_of pct)). change (len s1) with (len s).
  assert (border s1 Y O) as Hb1 by by destruct Hb.
  pose proof (with_ratio_rest U s (ratio_of pct) (ratio_of_ok pct) Hr) as Hr1. fold s1 in Hr1.
  destruct (Z.leb_spec BUF_LRU_OLD_MIN_LEN (len s)) as [Hge|Hlt].
  - destruct (both_sides U s Y O Hok ltac:(by right)) as (HO & _ & _).
    destruct (adjust_border s1 Y O Hb1 HO (ratio_of_ok pct) Hge) as (s2 & Y' & O' & -> & Hrf & Hb2 & HYO & Hlok). cbn [mbind option_bind].
    exists s2, Y', O'. split_and!; try done; [|apply (fixed_keeps s s2 (r_pages _ _ Hrf))].
    split; [done|]. split; [done|]. by apply (rest_ok_reflag U s1).
  - cbn [mbind option_bind]. exists s1, Y, O. split_and!; try done; [|by intros x]. split; [done|]. split; [|done].
    unfold old_len_ok in *. change (len s1) with (len s). by rewrite (proj2 (Z.ltb_lt _ _)) in *.
Qed.

(** * Validation *)

Lemma listed_unzip s p b :
  (∀ x, x ∈ unzip_LRU s ↔ x ∈ LRU s ∧ belongs s x) → p ∈ LRU s → pages s !! p = Some b →
  bool_decide (p ∈ unzip_LRU s) = buf_page_belongs_to_unzip_LRU b.
Proof.
  intros Hun Hp Hb. apply eq_bool_prop_intro. rewrite bool_decide_spec, Hun. unfold belongs. rewrite Hb, Is_true_true. naive_solver.
Qed.

Lemma validate_old s l pv n :
  (∀ x, x ∈ unzip_LRU s ↔ x ∈ LRU s ∧ belongs s x) → (∀ x, x ∈ l → x ∈ LRU s) → flagged s l true → 0 ≤ n →
  (if n =? 0 then l = [] ∨ LRU_old s = head l else pv = Some true) →
  validate_loop s pv l n = Some (n + Z.of_nat (length l)).
Proof.
  intros Hun. revert pv n. induction l as [|p l IH]; intros pv n Hin Hf Hn Hpv; cbn [validate_loop].
  { cbn. f_equal. lia. }
  destruct (Hf p ltac:(set_solver)) as (b & Hb & Hfile & Hob). rewrite Hb. cbn [mbind option_bind]. rewrite Hfile, Hob.
  rewrite (listed_unzip s p b Hun) by (done || set_solver). rewrite Bool.eqb_reflx, andb_false_r.
  assert (match l with [] => true | q :: _ => default false (old <$> pages s !! q) end = true) as ->.
  { destruct l as [|q l]; [done|]. destruct (Hf q ltac:(set_solver)) as (c & -> & _ & Hc). done. }
  assert ((if n =? 0 then bool_decide (LRU_old s = Some p) else default true pv) = true) as ->.
  { destruct (n =? 0); [|by rewrite Hpv]. apply bool_decide_true. by destruct Hpv. }
  cbn [andb]. rewrite IH; [f_equal; cbn [length]; lia|set_solver|intros x Hx; apply Hf; set_solver|lia|].
  by rewrite (proj2 (Z.eqb_neq _ _)) by lia.
Qed.

Lemma validate_young s Y O pv :
  (∀ x, x ∈ unzip_LRU s ↔ x ∈ LRU s ∧ belongs s x) → (∀ x, x ∈ Y ++ O → x ∈ LRU s) → flagged s Y false → flagged s O true →
  LRU_old s = head O → validate_loop s pv (Y ++ O) 0 = Some (Z.of_nat (length O)).
Proof.
  intros Hun. revert pv. induction Y as [|p Y IH]; intros pv Hin HY HO Hold.
  { apply (validate_old s O pv 0); try done. by right. }
  cbn [app validate_loop]. destruct (HY p ltac:(set_solver)) as (b & Hb & Hfile & Hob). rewrite Hb. cbn [mbind option_bind]. rewrite Hfile, Hob.
  rewrite (listed_unzip s p b Hun) by (done || set_solver). rewrite Bool.eqb_reflx, andb_false_r. apply IH; [set_solver|intros x Hx; apply HY; set_solver|done|done].
Qed.

Lemma validate_instance_ok U s Y O : lru_ok U s Y O → buf_LRU_validate_instance s = true.
Proof.
  intros Hok. pose proof Hok as (Hb & Ho & Hr). unfold buf_LRU_validate_instance. rewrite !andb_true_iff. split_and!.
  - destruct (Z.leb_spec BUF_LRU_OLD_MIN_LEN (len s)) as [Hge|]; [|done].
    destruct (both_sides U s Y O Hok ltac:(by right)) as (HO & _ & _). unfold old_len_ok in Ho. rewrite (proj2 (Z.ltb_ge _ _) Hge) in Ho.
    rewrite (b_old _ _ _ Hb), (b_len _ _ _ Hb), bool_decide_true by (destruct O; [done|by eexists]). cbn [andb].
    rewrite andb_true_iff, !Z.leb_le. lia.
  - rewrite (b_LRU _ _ _ Hb), (b_len _ _ _ Hb). apply bool_decide_true.
    apply validate_young; [apply Hr|by rewrite (b_LRU _ _ _ Hb)|apply Hb..].
  - apply forallb_forall. intros p Hp%list_elem_of_In. apply (k_belongs _ _ Hr) in Hp as [Hp (b & -> & ->)]. by apply bool_decide_true.
Qed.


(** * Sequences of operations *)

(** The operations on the list, each under [LRU_list_mutex], and the rest of the server: it
    changes other control blocks, access times and the clock of the instance. *)
Inductive op :=
  | OAdd (p : nat) (o : bool) | ORemove (p : nat) | OMakeYoung (p : nat) | OMakeYoungIfNeeded (p : nat) (threshold_ms now : Z)
  | OMakeOld (p : nat) | ORatio (old_pct : Z) | OServer (clock : Z) (m : gmap nat buf_page_t).

Section system.
Context (UNIV_PAGE_SIZE : Z).

Definition do_op (o : op) (s : buf_pool_t) : option buf_pool_t :=
  match o with
  | OAdd p o => buf_LRU_add_block UNIV_PAGE_SIZE s p o
  | ORemove p => buf_LRU_remove_block UNIV_PAGE_SIZE s p
  | OMakeYoung p => buf_page_make_young UNIV_PAGE_SIZE s p
  | OMakeYoungIfNeeded p threshold_ms now => buf_page_make_young_if_needed UNIV_PAGE_SIZE threshold_ms now s p
  | OMakeOld p => buf_LRU_make_block_old UNIV_PAGE_SIZE s p
  | ORatio pct => fst <$> buf_LRU_old_ratio_update_instance s pct true
  | OServer clock m =>
      Some (Pool (LRU s) (LRU_old s) (LRU_old_len s) (LRU_old_ratio s) (LRU_bytes s) (unzip_LRU s) clock (curr_size s)
              (n_pages_made_young s) (n_pages_not_made_young s) m)
  end.

(** What of a listed control block the rest of the server leaves alone. *)
Definition listed_fields (b : buf_page_t) : buf_page_state * bool * Z * bool := (state b, zip_data b, ssize b, old b).

(** When they are called: a page is added that is in a file and not in the list, the others are
    about pages of the list. *)
Definition enabled (o : op) (s : buf_pool_t) : Prop :=
  match o with
  | OAdd p _ => p ∉ LRU s ∧ is_Some (check_in_file s p)
  | ORemove p | OMakeYoung p | OMakeYoungIfNeeded p _ _ | OMakeOld p => p ∈ LRU s
  | ORatio _ => True
  | OServer _ m => ∀ p, p ∈ LRU s → listed_fields <$> m !! p = listed_fields <$> pages s !! p
  end.

Definition step (s s' : buf_pool_t) : Prop := ∃ o, enabled o s ∧ do_op o s = Some s'.

(** A new instance. *)
Definition new_pool (ratio size : Z) : buf_pool_t := Pool [] None 0 ratio 0 [] 0 size 0 0 ∅.

Lemma server_ok s Y O clock m :
  lru_ok UNIV_PAGE_SIZE s Y O → enabled (OServer clock m) s →
  ∃ s', do_op (OServer clock m) s = Some s' ∧ lru_ok UNIV_PAGE_SIZE s' Y O.
Proof.
  intros ([B1 B2 B3 B4 B5 B6] & Ho & [R1 R2 R3 R4]) Hm. cbn in Hm |- *. eexists. split; [done|].
  set (s' := Pool _ _ _ _ _ _ _ _ _ _ m).
  assert (∀ l o, (∀ x, x ∈ l → x ∈ LRU s) → flagged s l o → flagged s' l o) as Hf.
  { intros l o Hl Hfl p Hp. destruct (Hfl p Hp) as (b & Hb & Hin & Hob). specialize (Hm p (Hl p Hp)). rewrite Hb in Hm.
    cbn. destruct (m !! p) as [b'|]; [|done]. injection Hm as Hst _ _ Hold. exists b'. unfold buf_page_in_file in *. rewrite Hst. by rewrite Hold. }
  assert (flagged s' Y false) as HfY by (apply Hf; [intros x Hx; rewrite B1; set_solver|done]).
  assert (flagged s' O true) as HfO by (apply Hf; [intros x Hx; rewrite B1; set_solver|done]).
  split; [|split; [done|]].
  - by split.
  - assert (∀ p, p ∈ LRU s → ∀ b, m !! p = Some b → ∃ b', pages s !! p = Some b' ∧
      buf_page_belongs_to_unzip_LRU b = buf_page_belongs_to_unzip_LRU b' ∧ page_zip_get_size b = page_zip_get_size b') as Hb.
    { intros p Hp b Hb. specialize (Hm p Hp). rewrite Hb in Hm. destruct (pages s !! p) as [b'|]; [|done]. injection Hm as Hst Hz Hss _.
      exists b'. unfold buf_page_belongs_to_unzip_LRU, page_zip_get_size. by rewrite Hst, Hz, Hss. }
    assert (∀ p, p ∈ LRU s → is_Some (m !! p)) as Hsome.
    { intros p Hp. rewrite B1 in Hp. apply elem_of_app in Hp as [Hp|Hp]; [destruct (HfY p Hp) as (b & Hbp & _)|destruct (HfO p Hp) as (b & Hbp & _)]; by eexists. }
    split; cbn; try done.
    + intros p. rewrite R3. unfold belongs. cbn. split; intros [Hp (b & Hbp & Hbb)]; (split; [done|]).
      * destruct (Hsome p Hp) as [b2 Hb2]. exists b2. split; [done|]. destruct (Hb p Hp b2 Hb2) as (b' & ? & -> & _). congruence.
      * destruct (Hb p Hp b Hbp) as (b' & ? & Heq & _). exists b'. split; [done|]. congruence.
    + rewrite R4. apply Zsum_ext. intros p Hp. unfold page_bytes. cbn. destruct (Hsome p Hp) as [b2 Hb2]. rewrite Hb2.
      destruct (Hb p Hp b2 Hb2) as (b' & -> & _ & ->). done.
Qed.

(** The heuristics only count. *)
Lemma too_old_ok s Y O threshold_ms now b :
  lru_ok UNIV_PAGE_SIZE s Y O →
  let s' := (buf_page_peek_if_too_old threshold_ms now s b).1 in lru_ok UNIV_PAGE_SIZE s' Y O ∧ pages s' = pages s.
Proof. intros Hok. unfold buf_page_peek_if_too_old. repeat case_match; cbn; (split; [|done]); try done; by apply with_young_ok. Qed.

Lemma do_op_ok s Y O o :
  lru_ok UNIV_PAGE_SIZE s Y O → enabled o s →
  ∃ s' Y' O', do_op o s = Some s' ∧ lru_ok UNIV_PAGE_SIZE s' Y' O'.
Proof.
  intros Hok Hen. pose proof (b_LRU _ _ _ (proj1 Hok)) as HL.
  assert (∀ s p, lru_ok UNIV_PAGE_SIZE s Y O → p ∈ Y ++ O → ∃ s' Y' O', buf_page_make_young UNIV_PAGE_SIZE s p = Some s' ∧ lru_ok UNIV_PAGE_SIZE s' Y' O') as Hyoung.
  { intros s1 p Hok1 Hp. unfold buf_page_make_young. destruct (listed_in_file s1 Y O p (proj1 Hok1) Hp) as [b ->]. cbn [mbind option_bind].
    destruct (make_block_young_ok UNIV_PAGE_SIZE s1 Y O p Hok1 Hp) as (s' & Y' & O' & ? & ? & _). eauto 6. }
  destruct o as [p o|p|p|p th now|p|pct|clock m]; cbn [do_op enabled] in *; rewrite ?HL in Hen.
  - destruct Hen as [Hp [b Hb]]. destruct (add_block_low_ok UNIV_PAGE_SIZE s Y O p o b Hok Hp Hb) as (s' & Y' & O' & ? & ? & _). eauto 6.
  - destruct (remove_block_ok UNIV_PAGE_SIZE s Y O p Hok Hen) as (s' & Y' & O' & ? & ? & _). eauto 6.
  - by apply Hyoung.
  - unfold buf_page_make_young_if_needed. destruct (listed_in_file s Y O p (proj1 Hok) Hen) as [b ->]. cbn [mbind option_bind].
    destruct (too_old_ok s Y O th now b Hok) as [Hok1 _]. destruct (buf_page_peek_if_too_old th now s b) as [s1 []]; cbn in Hok1.
    + by apply Hyoung.
    + by exists s1, Y, O.
  - destruct (make_block_old_ok UNIV_PAGE_SIZE s Y O p Hok Hen) as (s' & Y' & O' & ? & ? & _). eauto 6.
  - destruct (ratio_update_ok UNIV_PAGE_SIZE s Y O pct Hok) as (s' & Y' & O' & -> & ? & _). cbn. eauto 6.
  - rewrite <- HL in Hen. destruct (server_ok s Y O clock m Hok Hen) as (s' & ? & ?). eauto 6.
Qed.

Lemma reachable_lru_ok ratio size s :
  ratio_ok ratio → reachable (new_pool ratio size) step s → ∃ Y O, lru_ok UNIV_PAGE_SIZE s Y O.
Proof.
  intros Hr Hs. eapply (reachable_invariant _ _ (λ s, ∃ Y O, lru_ok UNIV_PAGE_SIZE s Y O)); [..|exact Hs].
  - exists [], []. split; [|split].
    + split; cbn; try done; [by apply NoDup_nil|by intros p ?%not_elem_of_nil|by intros p ?%not_elem_of_nil].
    + done.
    + split; cbn; try done; [by apply NoDup_nil|]. intros p. split; [by intros ?%not_elem_of_nil|by intros [?%not_elem_of_nil _]].
  - intros a b (Y & O & Hok) (o & Hen & Hdo). destruct (do_op_ok a Y O o Hok Hen) as (s' & Y' & O' & Hdo' & Hok').
    assert (s' = b) as -> by congruence. eauto.
Qed.

End system.

(** C10: whatever the sequence of operations on the LRU list of an instance, none of them fails
    an assertion, follows a pointer that is not set or loops without end, and the list always
    passes [buf_LRU_validate_instance]: the border [LRU_old] is the first old page, the old
    pages are the end of the list and [LRU_old_len] many, that number is within the tolerance
    of the share asked for, and [unzip_LRU] has the right pages. *)
Theorem lru_always_valid UNIV_PAGE_SIZE ratio size s :
  ratio_ok ratio → reachable (new_pool ratio size) (step UNIV_PAGE_SIZE) s →
  buf_LRU_validate_instance s = true ∧ ∀ o, enabled o s → is_Some (do_op UNIV_PAGE_SIZE o s).
Proof.
  intros Hr Hs. destruct (reachable_lru_ok UNIV_PAGE_SIZE ratio size s Hr Hs) as (Y & O & Hok). split.
  - by eapply validate_instance_ok.
  - intros o Hen. destruct (do_op_ok UNIV_PAGE_SIZE s Y O o Hok Hen) as (s' & _ & _ & -> & _). by eexists.
Qed.


(** Executable operations, for runs. *)
Definition enabledb (o : op) (s : buf_pool_t) : bool :=
  match o with
  | OAdd p _ => bool_decide (p ∉ LRU s) && bool_decide (is_Some (check_in_file s p))
  | ORemove p | OMakeYoung p | OMakeYoungIfNeeded p _ _ | OMakeOld p => bool_decide (p ∈ LRU s)
  | ORatio _ => true
  | OServer _ m => forallb (λ p, bool_decide (listed_fields <$> m !! p = listed_fields <$> pages s !! p)) (LRU s)
  end.

Lemma enabledb_enabled o s : enabledb o s = true → enabled o s.
Proof.
  destruct o; cbn; rewrite ?andb_true_iff, ?bool_decide_eq_true; try done.
  rewrite forallb_forall. intros H p Hp. specialize (H p (proj1 (list_elem_of_In _ _) Hp)). by rewrite bool_decide_eq_true in H.
Qed.

Definition next_op (U : Z) (o : op) (s : buf_pool_t) : option buf_pool_t := if enabledb o s then do_op U o s else None.

Lemma run_ops_reachable U os s s' : run_sched (next_op U) os s = Some s' → rtc (step U) s s'.
Proof.
  intros H%run_sched_rtc. eapply rtc_subrel; [|exact H]. intros a b (o & Ho). unfold next_op in Ho.
  destruct (enabledb o a) eqn:He; [|done]. exists o. split; [by apply enabledb_enabled|done].
Qed.

(** C24: where pages go.  A page that is added as young is put at the front.  One that is added
    as old is put right behind the first old page when the list is long, so that all young
    pages, of which there are at least five as there are old ones, keep their places.  Making
    a page young or old moves it to the front or to the end, removing it takes it out; the other
    pages keep their order. *)
Theorem lru_order UNIV_PAGE_SIZE ratio size s (U := UNIV_PAGE_SIZE) :
  ratio_ok ratio → reachable (new_pool ratio size) (step U) s →
  (∀ p, enabled (OAdd p false) s → ∃ s', buf_LRU_add_block U s p false = Some s' ∧ LRU s' = p :: LRU s) ∧
  (∀ p, enabled (OAdd p true) s → ∃ s', buf_LRU_add_block U s p true = Some s' ∧
    if len s <? BUF_LRU_OLD_MIN_LEN then LRU s' = p :: LRU s
    else ∃ Y q O, LRU s = Y ++ q :: O ∧ LRU_old s = Some q ∧ LRU s' = Y ++ q :: p :: O ∧
      flagged s Y false ∧ flagged s (q :: O) true ∧ (5 ≤ length Y)%nat ∧ (5 ≤ length (q :: O))%nat) ∧
  ∀ p, p ∈ LRU s →
    (∃ s', buf_page_make_young U s p = Some s' ∧ LRU s' = p :: remove (LRU s) p) ∧
    (∃ s', buf_LRU_make_block_old U s p = Some s' ∧ LRU s' = remove (LRU s) p ++ [p]) ∧
    ∃ s', buf_LRU_remove_block U s p = Some s' ∧ LRU s' = remove (LRU s) p.
Proof.
  intros Hr Hs. destruct (reachable_lru_ok U ratio size s Hr Hs) as (Y & O & Hok). pose proof Hok as (Hb & Ho & Hrest).
  rewrite (b_LRU _ _ _ Hb). split_and!.
  - intros p [Hp [b Hc]]. rewrite (b_LRU _ _ _ Hb) in Hp.
    destruct (add_front_ok U s Y O p false b Hok Hp Hc eq_refl) as (s' & Y' & O' & ? & (Hb' & _) & _ & <-).
    exists s'. split; [done|apply Hb'].
  - intros p [Hp [b Hc]]. rewrite (b_LRU _ _ _ Hb) in Hp.
    destruct (add_block_low_ok U s Y O p true b Hok Hp Hc) as (s' & Y' & O' & ? & (Hb' & _) & _ & HYO).
    exists s'. split; [done|]. rewrite (b_LRU _ _ _ Hb'), HYO. cbn [negb orb].
    destruct (Z.ltb_spec (len s) BUF_LRU_OLD_MIN_LEN) as [|Hge]; [done|].
    destruct (both_sides U s Y O Hok ltac:(by right)) as (HO & _ & _). destruct O as [|q O]; [done|].
    cbn [head default insert_after]. rewrite Nat.eqb_refl. exists Y, q, O. pose proof (target_range s (k_ratio _ _ Hrest) Hge) as Ht.
    unfold old_len_ok, BUF_LRU_OLD_TOLERANCE in Ho. rewrite (proj2 (Z.ltb_ge _ _) Hge) in Ho.
    assert (len s = Z.of_nat (length Y) + Z.of_nat (length (q :: O))) as Hlen by (unfold len; rewrite (b_LRU _ _ _ Hb), length_app; lia).
    split_and!; [done|apply Hb|done|apply Hb|apply Hb|lia|lia].
  - intros p Hp. split_and!.
    + unfold buf_page_make_young. destruct (listed_in_file s Y O p Hb Hp) as [b ->]. cbn [mbind option_bind].
      destruct (make_block_young_ok U s Y O p Hok Hp) as (s' & Y' & O' & ? & (Hb' & _) & _ & <-). exists s'. split; [done|apply Hb'].
    + destruct (make_block_old_ok U s Y O p Hok Hp) as (s' & Y' & O' & ? & (Hb' & _) & _ & <-). exists s'. split; [done|apply Hb'].
    + destruct (remove_block_ok U s Y O p Hok Hp) as (s' & Y' & O' & ? & (Hb' & _) & <- & _). exists s'. split; [done|apply Hb'].
Qed.

(** 600 pages, every third compressed; two thirds are added as old. *)
Definition sample_page (i : nat) : buf_page_t :=
  Page BUF_BLOCK_FILE_PAGE (i `mod` 3 =? 0)%nat (if (i `mod` 3 =? 0)%nat then 4 else 0) false 0 0.
Definition sample_ops : list op :=
  OServer 7 (list_to_map ((λ i, (i, sample_page i)) <$> seq 0 620)) :: ((λ i, OAdd i (negb (i `mod` 3 =? 1)%nat)) <$> seq 0 600) ++
  [OMakeYoung 20%nat; OMakeOld 300%nat; ORatio 50; ORemove 400%nat].
Definition sample_pool : buf_pool_t := Eval vm_compute in default (new_pool 384 1000) (run_sched (next_op 16384) sample_ops (new_pool 384 1000)).

Lemma sample_pool_reachable : reachable (new_pool 384 1000) (step 16384) sample_pool.
Proof. apply (run_ops_reachable 16384 sample_ops). vm_cast_no_check (eq_refl (Some sample_pool)). Qed.

Lemma lru_always_valid_witness :
  length (LRU sample_pool) = 599%nat ∧ LRU_old_len sample_pool = 280 ∧
  buf_LRU_validate_instance sample_pool = true ∧ ∀ o, enabled o sample_pool → is_Some (do_op 16384 o sample_pool).
Proof.
  split; [vm_compute; reflexivity|]. split; [vm_compute; reflexivity|].
  apply (lru_always_valid 16384 384 1000 sample_pool); [done|exact sample_pool_reachable].
Defined.

Lemma lru_order_witness : ∃ s', buf_page_make_young 16384 sample_pool 300%nat = Some s' ∧ LRU s' = 300%nat :: remove (LRU sample_pool) 300.
Proof.
  destruct (lru_order 16384 384 1000 sample_pool) as (_ & _ & H); [done|exact sample_pool_reachable|].
  destruct (H 300%nat) as [Hy _]; [|exact Hy]. apply (bool_decide_unpack _). vm_compute. exact I.
Defined.

(** The heuristics of [buf_page_peek_if_young]: as long as the clock of the instance is below
    2^31 it compares the evictions since the page was put at the front with a quarter of the
    young part of the pool. *)
Lemma peek_if_young_evictions s b :
  0 ≤ pool_freed_page_clock s < 2 ^ 31 →
  buf_page_peek_if_young s b = true ↔
    pool_freed_page_clock s - freed_page_clock b < curr_size s * (BUF_LRU_OLD_RATIO_DIV - LRU_old_ratio s) / (BUF_LRU_OLD_RATIO_DIV * 4).
Proof.
  intros Hc. unfold buf_page_peek_if_young. change (2 ^ 31 - 1) with (Z.ones 31). rewrite Z.land_ones, Z.mod_small by lia.
  rewrite Z.ltb_lt. lia.
Qed.

(** After that it takes every page put to the front shortly before for young. *)
Lemma peek_if_young_wraps :
  buf_page_peek_if_young (Pool [] None 0 384 0 [] (2 ^ 32 - 2 ^ 30) 1000 0 0 ∅) (Page BUF_BLOCK_FILE_PAGE false 0 false (2 ^ 31 - 1) 0) = true.
Proof. reflexivity. Qed.


End BufLru.
