(* ===== verification/BufPool.v ===== *)
(** Creating the buffer pool with one thread per instance: [struct parameter],
    [buf_pool_init_instance], [buf_pool_set_sizes] and [buf_pool_init] of
    src/Project3/ryul/buf0buf.cc, and functions that look at all instances.

    The threads share one [struct parameter] on the stack of [buf_pool_init], the array
    [buf_pool_ptr] and [srv_n_page_hash_locks].  A step is one access to a shared variable, or a
    part of the initialization that works on the thread's own instance. *)

From S2P Require Import Prelude BufPage BufChunk BufLru.
Import BufChunk.

Local Open Scope Z_scope.

Module BufPool.

(** The fields of [buf_pool_t] that are set or read here.  The lists hold the addresses of
    block descriptors; the flush list holds the [oldest_modification] of its pages. *)
Record buf_pool_t := BufPool {
  mutexes : nat; n_chunks : Z; chunks : option buf_chunk_t; free : list Z; LRU : list Z; flush_list : list Z;
  instance_no : Z; old_pool_size : Z; curr_size : Z; read_ahead_area : Z; curr_pool_size : Z;
  page_hash : option (Z * Z); zip_hash : option Z; no_flush : nat; watch : option Z; n_slots : option Z; try_LRU_scan : bool }.

(** What [mem_zalloc] returns. *)
Definition zero_pool : buf_pool_t := BufPool 0 0 None [] [] [] 0 0 0 0 0 None None 0 None None false.

Record parameter := Param { par_buf_pool : nat; par_buf_pool_size : Z; par_instance_no : Z }.

Definition MAX_PAGE_HASH_LOCKS : Z := 1024.
Definition BUF_FLUSH_N_TYPES : nat := 3.
Definition OS_AIO_N_PENDING_IOS_PER_THREAD : Z := 32.

(** Settings of the server: [UNIV_PAGE_SIZE], [sizeof(buf_block_t)], [srv_n_purge_threads],
    [srv_n_read_io_threads], [srv_n_write_io_threads], and the allocator, which may answer
    differently for each thread. *)
Record config := Config {
  P : Z; BS : Z; n_purge : Z; n_read_io : Z; n_write_io : Z; os_mem_alloc_large : nat → Z → option (Z * Z) }.

(** * Initialize a buffer pool instance *)

Section instance.
Context (cfg : config).

(** 1. Initialize general fields: the mutexes, *)
Definition create_mutexes (p : buf_pool_t) : buf_pool_t :=
  BufPool (mutexes p + 6) (n_chunks p) (chunks p) (free p) (LRU p) (flush_list p) (instance_no p) (old_pool_size p) (curr_size p)
    (read_ahead_area p) (curr_pool_size p) (page_hash p) (zip_hash p) (no_flush p) (watch p) (n_slots p) (try_LRU_scan p).

(** the chunk, *)
Definition create_chunk (alloc : Z → option (Z * Z)) (i : nat) (buf_pool_size : Z) (p : buf_pool_t) : option buf_pool_t :=
  '(c, free) ← buf_chunk_init (P cfg) (BS cfg) alloc i buf_pool_size [];
  Some (BufPool (mutexes p) 1 (Some c) free (LRU p) (flush_list p) (instance_no p) (old_pool_size p) (curr_size p)
    (read_ahead_area p) (curr_pool_size p) (page_hash p) (zip_hash p) (no_flush p) (watch p) (n_slots p) (try_LRU_scan p)).

(** the sizes; [None] when the computation of the read ahead area does not end, *)
Definition set_fields (buf_pool_size instance_no : Z) (p : buf_pool_t) : option buf_pool_t :=
  let curr_size := default 0 (size <$> chunks p) in
  area ← ut_2_power_up (curr_size / 32);
  Some (BufPool (mutexes p) (n_chunks p) (chunks p) (free p) (LRU p) (flush_list p) instance_no buf_pool_size curr_size
    (ut_min 64 area) (u64 (curr_size * P cfg)) (page_hash p) (zip_hash p) (no_flush p) (watch p) (n_slots p) (try_LRU_scan p)).

(** and the hash tables, with their number of cells and of locks. *)
Definition create_hash (srv_n_page_hash_locks : Z) (p : buf_pool_t) : buf_pool_t :=
  BufPool (mutexes p) (n_chunks p) (chunks p) (free p) (LRU p) (flush_list p) (instance_no p) (old_pool_size p) (curr_size p)
    (read_ahead_area p) (curr_pool_size p) (Some (u64 (2 * curr_size p), srv_n_page_hash_locks)) (Some (u64 (2 * curr_size p)))
    (no_flush p) (watch p) (n_slots p) (try_LRU_scan p).

(** 2. Initialize flushing fields, and the temporal memory array and slots *)
Definition create_flushing (p : buf_pool_t) : buf_pool_t :=
  BufPool (mutexes p + 1) (n_chunks p) (chunks p) (free p) (LRU p) (flush_list p) (instance_no p) (old_pool_size p) (curr_size p)
    (read_ahead_area p) (curr_pool_size p) (page_hash p) (zip_hash p) (no_flush p + BUF_FLUSH_N_TYPES) (Some (n_purge cfg + 1))
    (Some (u64 (n_read_io cfg * n_write_io cfg * (8 * OS_AIO_N_PENDING_IOS_PER_THREAD)))) true.

(** The program counter of a thread in [buf_pool_init_instance] with its locals. *)
Inductive tpc :=
  | TReadPool
  | TReadSize (buf_pool : nat)
  | TReadNo (buf_pool : nat) (buf_pool_size : Z)
  | TMutexes (a : parameter)
  | TChunk (a : parameter)
  | TFields (a : parameter)
  | TReadLocks (a : parameter)
  | TWriteLocks (a : parameter) (v : Z)
  | THash (a : parameter)
  | TFlushing (a : parameter)
  | TDone (DB_SUCCESS : bool).

(** What [buf_pool_init] is at: the fields of [param], the thread, the joins, the sizes. *)
Inductive mpc := MPool (i : nat) | MSize (i : nat) | MNo (i : nat) | MCreate (i : nat) | MJoin (i : nat) | MSetSizes | MSuccess | MUndefined.

(** [freed] holds the instances that were passed to [mem_free]; [LRU_old_ratio] is that field
    of every instance, [btr_search_size] the size with which [btr_search_sys_create] was called;
    [aborted] is a failed [ut_a]. *)
Record state := State {
  pools : list buf_pool_t; freed : list nat; param : parameter; srv_n_page_hash_locks : Z; threads : list tpc; main : mpc;
  srv_buf_pool_curr_size : Z; LRU_old_ratio : list Z; btr_search_size : option Z; aborted : bool }.

Definition set_thread (s : state) (i : nat) (t : tpc) : state :=
  State (pools s) (freed s) (param s) (srv_n_page_hash_locks s) (<[i := t]> (threads s)) (main s) (srv_buf_pool_curr_size s) (LRU_old_ratio s) (btr_search_size s) (aborted s).

Definition set_main (s : state) (m : mpc) : state :=
  State (pools s) (freed s) (param s) (srv_n_page_hash_locks s) (threads s) m (srv_buf_pool_curr_size s) (LRU_old_ratio s) (btr_search_size s) (aborted s).

Definition set_param (s : state) (a : parameter) : state :=
  State (pools s) (freed s) a (srv_n_page_hash_locks s) (threads s) (main s) (srv_buf_pool_curr_size s) (LRU_old_ratio s) (btr_search_size s) (aborted s).

Definition set_pool (s : state) (i : nat) (p : buf_pool_t) : state :=
  State (<[i := p]> (pools s)) (freed s) (param s) (srv_n_page_hash_locks s) (threads s) (main s) (srv_buf_pool_curr_size s) (LRU_old_ratio s) (btr_search_size s) (aborted s).

Definition set_locks (s : state) (v : Z) : state :=
  State (pools s) (freed s) (param s) v (threads s) (main s) (srv_buf_pool_curr_size s) (LRU_old_ratio s) (btr_search_size s) (aborted s).

Definition set_freed (s : state) (i : nat) : state :=
  State (pools s) (freed s ++ [i]) (param s) (srv_n_page_hash_locks s) (threads s) (main s) (srv_buf_pool_curr_size s) (LRU_old_ratio s) (btr_search_size s) (aborted s).

Definition set_aborted (s : state) : state :=
  State (pools s) (freed s) (param s) (srv_n_page_hash_locks s) (threads s) (main s) (srv_buf_pool_curr_size s) (LRU_old_ratio s) (btr_search_size s) true.

(** The instance a thread works on. *)
Definition the_pool (s : state) (a : parameter) : buf_pool_t := default zero_pool (pools s !! par_buf_pool a).

(** [buf_pool_init_instance], thread [i] *)
Definition instance_step (i : nat) (s : state) : option state :=
  t ← threads s !! i;
  match t with
  | TReadPool => Some (set_thread s i (TReadSize (par_buf_pool (param s))))
  | TReadSize p => Some (set_thread s i (TReadNo p (par_buf_pool_size (param s))))
  | TReadNo p sz => Some (set_thread s i (TMutexes (Param p sz (par_instance_no (param s)))))
  | TMutexes a =>
      let s := set_pool s (par_buf_pool a) (create_mutexes (the_pool s a)) in
      Some (set_thread s i (if 0 <? par_buf_pool_size a then TChunk a else TFlushing a))
  | TChunk a =>
      match create_chunk (os_mem_alloc_large cfg i) (par_buf_pool a) (par_buf_pool_size a) (the_pool s a) with
      | None => Some (set_thread (set_freed s (par_buf_pool a)) i (TDone false))
      | Some p => Some (set_thread (set_pool s (par_buf_pool a) p) i (TFields a))
      end
  | TFields a =>
      p ← set_fields (par_buf_pool_size a) (par_instance_no a) (the_pool s a);
      Some (set_thread (set_pool s (par_buf_pool a) p) i (TReadLocks a))
  | TReadLocks a => v ← ut_2_power_up (srv_n_page_hash_locks s); Some (set_thread s i (TWriteLocks a v))
  | TWriteLocks a v => Some (set_thread (set_locks s v) i (THash a))
  | THash a =>
      let v := srv_n_page_hash_locks s in
      if (v =? 0) || (MAX_PAGE_HASH_LOCKS <? v) then Some (set_aborted s)
      else Some (set_thread (set_pool s (par_buf_pool a) (create_hash v (the_pool s a))) i (TFlushing a))
  | TFlushing a => Some (set_thread (set_pool s (par_buf_pool a) (create_flushing (the_pool s a))) i (TDone true))
  | TDone _ => None
  end.

(** [buf_pool_set_sizes] *)
Definition buf_pool_set_sizes (ps : list buf_pool_t) : Z := foldl (λ n p, u64 (n + curr_pool_size p)) 0 ps.

(** [buf_LRU_old_ratio_update] with [adjust] false: it only assigns the field [LRU_old_ratio]
    of every instance. *)
Definition buf_LRU_old_ratio_update (old_pct : Z) (ratios : list Z) : list Z :=
  (λ _, BufLru.ratio_of old_pct) <$> ratios.

(** [ret] is the uninitialized pointer that [pthread_join] stores the result through. *)
Context (total_size : Z) (n_instances : nat) (ret : Z).

Definition instance_size : Z := total_size / Z.of_nat n_instances.

(** [buf_pool_init] *)
Definition main_step (s : state) : option state :=
  match main s with
  | MPool i =>
      if decide (i < n_instances)%nat
      then Some (set_main (set_param s (Param i (par_buf_pool_size (param s)) (par_instance_no (param s)))) (MSize i))
      else Some (set_main s (MJoin 0))
  | MSize i => Some (set_main (set_param s (Param (par_buf_pool (param s)) instance_size (par_instance_no (param s)))) (MNo i))
  | MNo i => Some (set_main (set_param s (Param (par_buf_pool (param s)) (par_buf_pool_size (param s)) (Z.of_nat i))) (MCreate i))
  | MCreate i =>
      Some (State (pools s) (freed s) (param s) (srv_n_page_hash_locks s) (threads s ++ [TReadPool]) (MPool (S i)) (srv_buf_pool_curr_size s) (LRU_old_ratio s) (btr_search_size s) (aborted s))
  | MJoin i =>
      if decide (i < n_instances)%nat
      then match threads s !! i with
           | Some (TDone _) => Some (set_main s (if ret =? 0 then MJoin (S i) else MUndefined))
           | _ => None
           end
      else Some (set_main s MSetSizes)
  | MSetSizes =>
      let curr_size := buf_pool_set_sizes (pools s) in
      Some (State (pools s) (freed s) (param s) (srv_n_page_hash_locks s) (threads s) MSuccess curr_size
        (buf_LRU_old_ratio_update (100 * 3 / 8) (LRU_old_ratio s)) (Some (curr_size / 8 / 64)) (aborted s))
  | MSuccess | MUndefined => None
  end.

Inductive who := Main | Thread (i : nat).

#[export] Instance who_eq_dec : EqDecision who.
Proof. solve_decision. Defined.

Definition next (c : who) (s : state) : option state :=
  if aborted s then None else match c with Main => main_step s | Thread i => instance_step i s end.

Definition run (s s' : state) : Prop := ∃ c, next c s = Some s'.

(** The parameters start with whatever is on the stack. *)
Definition init (junk : parameter) (locks : Z) : state :=
  State (replicate n_instances zero_pool) [] junk locks [] (MPool 0) 0 (replicate n_instances 0) None false.

End instance.

(** * The threads that do not race *)

Definition reading (t : tpc) : bool := match t with TReadPool | TReadSize _ | TReadNo _ _ => true | _ => false end.

(** [buf_pool_init] is about to write to [param]. *)
Definition writes_param (n : nat) (m : mpc) : bool :=
  match m with MPool i => bool_decide (i < n)%nat | MSize _ | MNo _ => true | _ => false end.

(** A step that writes to [param] waits until every thread that was started has read it. *)
Definition polite_run (cfg : config) (total_size : Z) (n : nat) (ret : Z) (s s' : state) : Prop :=
  ∃ c, next cfg total_size n ret c s = Some s' ∧ (c = Main → writes_param n (main s) = true → ∀ t, t ∈ threads s → reading t = false).

(** What one thread does to its instance, without the others. *)
Definition buf_pool_init_instance (cfg : config) (alloc : Z → option (Z * Z)) (a : parameter) (locks : Z) (p : buf_pool_t) : option buf_pool_t :=
  let p := create_mutexes p in
  p ← (if 0 <? par_buf_pool_size a then
         p ← create_chunk cfg alloc (par_buf_pool a) (par_buf_pool_size a) p;
         p ← set_fields cfg (par_buf_pool_size a) (par_instance_no a) p;
         Some (create_hash locks p)
       else Some p);
  Some (create_flushing cfg p).


(** * One instance *)

(** What an instance of [k] pages looks like: all fields set, one block less than asked for,
    every block on the free list. *)
Record instance_ok (cfg : config) (p : buf_pool_t) (no k isize locks : Z) : Prop := InstanceOk {
  io_mutexes : mutexes p = 7%nat;
  io_no : instance_no p = no;
  io_old : old_pool_size p = isize;
  io_size : curr_size p = k - 1;
  io_bytes : curr_pool_size p = (k - 1) * P cfg;
  io_ahead : ∃ area, ut_2_power_up ((k - 1) / 32) = Some area ∧ read_ahead_area p = ut_min 64 area;
  io_hash : page_hash p = Some (2 * (k - 1), locks) ∧ zip_hash p = Some (2 * (k - 1));
  io_chunk : n_chunks p = 1 ∧ ∃ c, chunks p = Some c ∧ chunk_ok (P cfg) (BS cfg) c (Z.to_nat no) (Z.to_nat (k - 1)) ∧
    free p = block_addrs (BS cfg) c (Z.to_nat (k - 1));
  io_empty : LRU p = [] ∧ flush_list p = [];
  io_slots : n_slots p = Some (u64 (n_read_io cfg * n_write_io cfg * 256));
  io_scan : try_LRU_scan p = true ∧ watch p = Some (n_purge cfg + 1) ∧ no_flush p = 3%nat }.

(** What the server's settings and the allocator must be for an instance of [isize] bytes. *)
Record settings_ok (cfg : config) (alloc : Z → option (Z * Z)) (isize : Z) : Prop := SettingsOk {
  so_page : ∃ s, 0 ≤ s ∧ P cfg = 2 ^ s;
  so_block : 0 < BS cfg;
  so_size : P cfg ≤ isize < 2 ^ 63;
  so_request : request (P cfg) (BS cfg) (isize / P cfg) < 2 ^ 64 ∧ isize / P cfg * BS cfg + P cfg < 2 ^ 64;
  so_alloc : alloc_ok (P cfg) alloc (request (P cfg) (BS cfg) (isize / P cfg)) }.

Lemma init_instance_ok cfg alloc i isize locks :
  settings_ok cfg alloc isize →
  ∃ p, buf_pool_init_instance cfg alloc (Param i isize (Z.of_nat i)) locks zero_pool = Some p ∧
    instance_ok cfg p (Z.of_nat i) (isize / P cfg) isize locks.
Proof.
  intros [(s & Hs & HP) HB Hsz [Hr Ho] Ha]. assert (0 < P cfg) as HP0 by (rewrite HP; apply Z.pow_pos_nonneg; lia).
  set (k := isize / P cfg) in *. assert (1 ≤ k) as Hk by (apply Z.div_le_lower_bound; lia).
  assert (k * P cfg ≤ isize) as Hkp by (rewrite Z.mul_comm; apply Z.mul_div_le; lia).
  destruct (buf_chunk_init_ok s (P cfg) (BS cfg) HP Hs HB alloc i isize [] k eq_refl Hk ltac:(lia) Hr Ho Ha) as (c & E & Hc & _).
  assert (k ≤ k * P cfg) as Hkk by nia. assert ((k - 1) * P cfg ≤ k * P cfg) as Hk1 by nia.
  assert ((k - 1) / 32 ≤ 2 ^ 63) as H32 by (Z.to_euclidean_division_equations; lia).
  destruct (power_up_spec ((k - 1) / 32) H32) as (j & Hj & Hup & _ & _). assert (size c = k - 1) as Hcs by (destruct Hc as [-> _]; lia).
  unfold buf_pool_init_instance, create_chunk. cbn [par_buf_pool par_buf_pool_size par_instance_no]. rewrite (proj2 (Z.ltb_lt 0 isize)) by lia.
  rewrite E. cbn [mbind option_bind].
  unfold set_fields. cbn [chunks fmap option_fmap option_map default from_option]. unfold id. rewrite Hcs, Hup. cbn [mbind option_bind].
  eexists. split; [reflexivity|]. assert (1 ≤ 2 ^ j) by (assert (0 < 2 ^ j) by (apply Z.pow_pos_nonneg; lia); lia).
  split; cbn; try done.
  - apply u64_id. nia.
  - by exists (2 ^ j).
  - by rewrite u64_id by lia.
  - split; [done|]. exists c. by rewrite Nat2Z.id.
Qed.

(** * The threads *)

#[global] Instance done_dec t : Decision (∃ ok, t = TDone ok).
Proof. destruct t; first [left; by eexists|right; by intros [? ?]]. Defined.

Lemma sum_insert (f : tpc → nat) l i t t' : l !! i = Some t → (f t' < f t)%nat → (sum_list_with f (<[i := t']> l) < sum_list_with f l)%nat.
Proof.
  revert i. induction l as [|x l IH]; intros [|i] Hi Hw; cbn in *; try done; [injection Hi as ->; lia|].
  by apply Nat.add_lt_mono_l, IH.
Qed.

Section threads_ok.
Context (cfg : config) (total_size : Z) (n : nat) (v0 v1 : Z).
Notation alloc := (os_mem_alloc_large cfg).
Notation isize := (instance_size total_size n).

(** The hash lock count starts with [v0] and is rounded up to [v1]; no allocation fails. *)
Context (Hup : ut_2_power_up v0 = Some v1) (Hup1 : ut_2_power_up v1 = Some v1) (Hv1 : 1 ≤ v1 ≤ MAX_PAGE_HASH_LOCKS)
  (Hpos : 0 < isize)
  (Hinst : ∀ j, (j < n)%nat → is_Some (buf_pool_init_instance cfg (alloc j) (Param j isize (Z.of_nat j)) v1 zero_pool)).

Definition full (j : nat) : parameter := Param j isize (Z.of_nat j).

Definition with_chunk (j : nat) (p : buf_pool_t) : Prop :=
  create_chunk cfg (alloc j) j isize (create_mutexes zero_pool) = Some p.

Definition with_fields (j : nat) (p : buf_pool_t) : Prop := ∃ q, with_chunk j q ∧ set_fields cfg isize (Z.of_nat j) q = Some p.

(** Thread [j] works on instance [j], which is as far as the thread is. *)
Definition stage (par : parameter) (locks : Z) (j : nat) (t : tpc) (p : buf_pool_t) : Prop :=
  match t with
  | TReadPool => par = full j ∧ p = zero_pool
  | TReadSize q => q = j ∧ par = full j ∧ p = zero_pool
  | TReadNo q sz => q = j ∧ sz = isize ∧ par = full j ∧ p = zero_pool
  | TMutexes a => a = full j ∧ p = zero_pool
  | TChunk a => a = full j ∧ p = create_mutexes zero_pool
  | TFields a => a = full j ∧ with_chunk j p
  | TReadLocks a => a = full j ∧ with_fields j p
  | TWriteLocks a v => a = full j ∧ v = v1 ∧ with_fields j p
  | THash a => a = full j ∧ locks = v1 ∧ with_fields j p
  | TFlushing a => a = full j ∧ locks = v1 ∧ ∃ q, with_fields j q ∧ p = create_hash v1 q
  | TDone ok => ok = true ∧ locks = v1 ∧ ∃ q, with_fields j q ∧ p = create_flushing cfg (create_hash v1 q)
  end.

Definition created (m : mpc) : nat := match m with MPool i | MSize i | MNo i | MCreate i => i | _ => n end.

Definition quiet (ts : list tpc) : Prop := ∀ t, t ∈ ts → reading t = false.

Definition main_ok (s : state) : Prop :=
  match main s with
  | MPool i => True
  | MSize i => par_buf_pool (param s) = i ∧ quiet (threads s) ∧ (i < n)%nat
  | MNo i => par_buf_pool (param s) = i ∧ par_buf_pool_size (param s) = isize ∧ quiet (threads s) ∧ (i < n)%nat
  | MCreate i => param s = full i ∧ quiet (threads s) ∧ (i < n)%nat
  | MJoin i => (i ≤ n)%nat ∧ ∀ j t, (j < i)%nat → threads s !! j = Some t → t = TDone true
  | MSetSizes => ∀ j t, threads s !! j = Some t → t = TDone true
  | MSuccess => (∀ j t, threads s !! j = Some t → t = TDone true) ∧ srv_buf_pool_curr_size s = buf_pool_set_sizes (pools s) ∧
      LRU_old_ratio s = replicate n 378 ∧ btr_search_size s = Some (srv_buf_pool_curr_size s / 8 / 64)
  | MUndefined => False
  end.

Record inv (s : state) : Prop := Inv {
  i_abort : aborted s = false;
  i_freed : freed s = [];
  i_pools : length (pools s) = n;
  i_threads : length (threads s) = created (main s) ∧ (created (main s) ≤ n)%nat;
  i_locks : srv_n_page_hash_locks s = v0 ∨ srv_n_page_hash_locks s = v1;
  i_stage : ∀ j t p, threads s !! j = Some t → pools s !! j = Some p → stage (param s) (srv_n_page_hash_locks s) j t p;
  i_zero : ∀ j p, (length (threads s) ≤ j)%nat → pools s !! j = Some p → p = zero_pool;
  i_ratio : length (LRU_old_ratio s) = n;
  i_main : main_ok s }.

Lemma stage_locks par locks j t p : stage par locks j t p → stage par v1 j t p.
Proof. destruct t; cbn; intuition eauto. Qed.

Lemma stage_param par par' locks j t p : reading t = false → stage par locks j t p → stage par' locks j t p.
Proof. destruct t; done. Qed.

Lemma stage_not_done par locks j t p ok : stage par locks j t p → t = TDone ok → t = TDone true.
Proof. intros H ->. destruct H as [-> _]. done. Qed.

Lemma pool_inv_init junk : inv (init n junk v0).
Proof.
  split; cbn; try done; [by rewrite length_replicate|lia|by left| |by rewrite length_replicate].
  intros j p _ Hp. by apply lookup_replicate in Hp as [-> _].
Qed.

(** A thread moves on: its own pc and instance change, and perhaps the lock count becomes [v1]. *)
Lemma pool_inv_thread s i t p t' p' locks' :
  inv s → threads s !! i = Some t → pools s !! i = Some p → t ≠ TDone true → (reading t = false → reading t' = false) →
  (locks' = srv_n_page_hash_locks s ∨ locks' = v1) → stage (param s) locks' i t' p' →
  inv (State (<[i := p']> (pools s)) (freed s) (param s) locks' (<[i := t']> (threads s)) (main s) (srv_buf_pool_curr_size s) (LRU_old_ratio s) (btr_search_size s) (aborted s)).
Proof.
  intros [Ha Hf Hp Ht Hl Hs Hz Hrat Hm] Ei Ep Hnd Hrd Hlocks Hst. split; cbn; try done.
  - by rewrite length_insert.
  - by rewrite length_insert.
  - destruct Hlocks as [-> | ->]; [done|by right].
  - intros j tj pj Hj Hpj. destruct (decide (j = i)) as [->|Hne].
    + rewrite list_lookup_insert_eq in Hj by (by eapply lookup_lt_Some). rewrite list_lookup_insert_eq in Hpj by (by eapply lookup_lt_Some). by simplify_eq.
    + rewrite list_lookup_insert_ne in Hj by done. rewrite list_lookup_insert_ne in Hpj by done. pose proof (Hs j tj pj Hj Hpj) as H.
      destruct Hlocks as [-> | ->]; [done|]. by eapply stage_locks.
  - intros j pj Hj Hpj. rewrite length_insert in Hj. apply lookup_lt_Some in Ei as Hlt.
    rewrite list_lookup_insert_ne in Hpj by lia. by eapply Hz.
  - unfold main_ok in *. cbn.
    assert (quiet (threads s) → quiet (<[i:=t']> (threads s))) as Hq.
    { intros Hq x Hx. apply list_elem_of_lookup in Hx as [k Hk]. apply lookup_insert_inv in Hk as [[_ ->]|[_ Hk]].
      - apply Hrd, Hq. by eapply list_elem_of_lookup_2.
      - apply Hq. by eapply list_elem_of_lookup_2. }
    assert (∀ m, (∀ j u, (j < m)%nat → threads s !! j = Some u → u = TDone true) →
      ∀ j u, (j < m)%nat → <[i:=t']> (threads s) !! j = Some u → u = TDone true) as Hd.
    { intros m H j u Hj Hu. apply lookup_insert_inv in Hu as [[-> _]|[_ Hu]]; [by destruct (Hnd (H j t Hj Ei))|by eapply H]. }
    assert (∀ u, (∀ j t, threads s !! j = Some t → t = u) → t = u) as Hall by (intros u H; by eapply H).
    destruct (main s); try (intuition auto; fail); [|by destruct (Hnd (Hall _ Hm))|by destruct (Hnd (Hall _ (proj1 Hm)))].
    destruct Hm as [Hi Hm]. split; [done|]. by apply Hd.
Qed.

Lemma inv_instance_step s i s' : inv s → instance_step cfg i s = Some s' → inv s'.
Proof.
  intros Hinv H. pose proof Hinv as [Ha Hf Hp [Ht Hn] Hl Hs Hz Hrat Hm]. unfold instance_step in H.
  destruct (threads s !! i) as [t|] eqn:Ei; [|done]. cbn [mbind option_bind] in H.
  assert (i < n)%nat as Hin by (apply lookup_lt_Some in Ei; lia).
  destruct (lookup_lt_is_Some_2 (pools s) i) as [p Ep]; [lia|]. pose proof (Hs i t p Ei Ep) as Hst.
  assert (∀ a, a = full i → the_pool s a = p) as Hthe by (intros a ->; unfold the_pool; cbn; by rewrite Ep).
  destruct (Hinst i Hin) as [q Hq].
  assert (pools s = <[i := p]> (pools s)) as Hsame by (by rewrite list_insert_id).
  unfold buf_pool_init_instance in Hq. cbn [par_buf_pool par_buf_pool_size par_instance_no] in Hq.
  rewrite (proj2 (Z.ltb_lt 0 isize)) in Hq by done.
  destruct (create_chunk _ _ _ _ _) as [pc|] eqn:Ec; [|done]. cbn [mbind option_bind] in Hq.
  destruct (set_fields _ _ _ _) as [pf|] eqn:Epf; [|done]. clear Hq.
  destruct t; cbn [stage] in Hst; unfold set_thread, set_pool, set_locks in H.
  - destruct Hst as [Hpar ->]. injection H as <-. rewrite Hsame.
    eapply pool_inv_thread; try done; [by left|]. cbn. by rewrite Hpar.
  - destruct Hst as (-> & Hpar & ->). injection H as <-. rewrite Hsame.
    eapply pool_inv_thread; try done; [by left|]. cbn. by rewrite Hpar.
  - destruct Hst as (-> & -> & Hpar & ->). injection H as <-. rewrite Hsame.
    eapply pool_inv_thread; try done; [by left|]. cbn. by rewrite Hpar.
  - destruct Hst as (-> & ->). rewrite Hthe in H by done. cbn in H. rewrite (proj2 (Z.ltb_lt 0 isize)) in H by done. injection H as <-.
    eapply (pool_inv_thread s i); try done; by left.
  - destruct Hst as (-> & ->). rewrite Hthe in H by done. cbn [full par_buf_pool par_buf_pool_size] in H. rewrite Ec in H. injection H as <-.
    eapply (pool_inv_thread s i); try done; by left.
  - destruct Hst as (-> & Hc). assert (p = pc) as -> by (unfold with_chunk in Hc; congruence).
    rewrite Hthe in H by done. cbn [full par_buf_pool par_buf_pool_size par_instance_no] in H. rewrite Epf in H. injection H as <-.
    eapply (pool_inv_thread s i); try done; [by left|]. cbn. split; [done|]. by exists pc.
  - destruct Hst as (-> & Hc). assert (ut_2_power_up (srv_n_page_hash_locks s) = Some v1) as Hv by (destruct Hl as [-> | ->]; done).
    rewrite Hv in H. injection H as <-. rewrite Hsame. eapply pool_inv_thread; try done; by left.
  - destruct Hst as (-> & -> & Hc). injection H as <-. rewrite Hsame. eapply pool_inv_thread; try done; by right.
  - destruct Hst as (-> & Hv & Hc). rewrite Hthe, Hv in H by done.
    rewrite (proj2 (Z.eqb_neq v1 0)), (proj2 (Z.ltb_ge MAX_PAGE_HASH_LOCKS v1)) in H by lia. injection H as <-. rewrite <- Hv.
    eapply (pool_inv_thread s i); try done; [by left|]. cbn. rewrite Hv. split_and!; [done|done|]. by exists p.
  - destruct Hst as (-> & Hv & q' & Hc & ->). rewrite Hthe in H by done. injection H as <-.
    eapply (pool_inv_thread s i); try done; [by left|]. cbn. split_and!; [done|done|]. by exists q'.
  - done.
Qed.
(** [buf_pool_init] moves on without touching the instances. *)
Lemma inv_main s s' par' m' : inv s → s' = set_main (set_param s par') m' →
  (par' = param s ∨ quiet (threads s)) → created m' = created (main s) → main_ok s' → inv s'.
Proof.
  intros [Ha Hf Hp Ht Hl Hs Hz Hrat Hm] -> Hpar Hc Hok. split; cbn; try done; [by rewrite Hc|].
  intros j t p Hj Hpj. destruct Hpar as [-> | Hq]; [by apply Hs|]. eapply stage_param; [|by apply Hs].
  apply Hq. by eapply list_elem_of_lookup_2.
Qed.

Lemma set_main_same s m : set_main s m = set_main (set_param s (param s)) m.
Proof. done. Qed.

Lemma inv_main_step s s' : inv s → (writes_param n (main s) = true → quiet (threads s)) → main_step total_size n 0 s = Some s' → inv s'.
Proof.
  intros Hinv Hpol H. pose proof Hinv as [Ha Hf Hp [Ht Hn] Hl Hs Hz Hrat Hm]. unfold main_step in H. unfold main_ok in Hm.
  destruct (main s) as [i|i|i|i|i| | |] eqn:Em; cbn [created] in *.
  - destruct (decide (i < n)%nat) as [Hlt|Hge]; injection H as <-.
    + assert (quiet (threads s)) as Hq by (apply Hpol; cbn; by apply bool_decide_eq_true).
      eapply inv_main; [exact Hinv|reflexivity|by right|by rewrite Em|]. by split_and!.
    + rewrite set_main_same. eapply inv_main; [exact Hinv|reflexivity|by left|rewrite Em; cbn; lia|]. split; [lia|intros; lia].
  - injection H as <-. destruct Hm as (Hpar & Hq & Hlt).
    eapply inv_main; [exact Hinv|reflexivity|by right|by rewrite Em|]. by split_and!.
  - injection H as <-. destruct Hm as (Hpar & Hsz & Hq & Hlt).
    eapply inv_main; [exact Hinv|reflexivity|by right|by rewrite Em|]. split_and!; [|done|done]. cbn. unfold full. by rewrite Hpar, Hsz.
  - injection H as <-. destruct Hm as (Hpar & Hq & Hlt). split; cbn; try done.
    + rewrite length_app. cbn. lia.
    + intros j t p Hj Hpj. apply lookup_app_Some in Hj as [Hj|[Hge Hj]]; [by apply Hs|].
      apply list_lookup_singleton_Some in Hj as [Hz0 <-]. assert (j = i) as -> by lia. cbn. split; [done|]. eapply Hz; [|done]. lia.
    + intros j p Hj Hpj. rewrite length_app in Hj. cbn in Hj. eapply Hz; [|done]. lia.
  - destruct (decide (i < n)%nat) as [Hlt|Hge].
    + destruct (threads s !! i) as [[]|] eqn:Ei; try done. injection H as <-. cbn [Z.eqb]. rewrite set_main_same.
      eapply inv_main; [exact Hinv|reflexivity|by left|by rewrite Em|]. destruct Hm as [Hi Hm]. split; [lia|]. cbn.
      intros j t Hj Hjt. destruct (decide (j = i)) as [->|]; [|apply (Hm j); done || lia].
      destruct (lookup_lt_is_Some_2 (pools s) i) as [p Ep]; [lia|]. rewrite Ei in Hjt. injection Hjt as <-.
      by eapply stage_not_done; [apply (Hs i _ p Ei Ep)|].
    + injection H as <-. rewrite set_main_same. eapply inv_main; [exact Hinv|reflexivity|by left|by rewrite Em|].
      cbn. intros j t Hj. destruct Hm as [Hi Hm]. apply (Hm j); [|done]. apply lookup_lt_Some in Hj. lia.
  - injection H as <-. split; cbn; try done; [unfold buf_LRU_old_ratio_update; by rewrite length_fmap|].
    split_and!; [done|done| |done]. unfold buf_LRU_old_ratio_update. by rewrite (const_fmap _ _ 378), Hrat.
  - done.
  - done.
Qed.

Lemma inv_polite_run s s' : inv s → polite_run cfg total_size n 0 s s' → inv s'.
Proof.
  intros Hinv ([|i] & H & Hpol); unfold next in H; rewrite (i_abort _ Hinv) in H.
  - eapply inv_main_step; [done|exact (Hpol eq_refl)|done].
  - by eapply inv_instance_step.
Qed.

(** The instances when [buf_pool_init] has returned. *)
Lemma inv_success s : inv s → main s = MSuccess →
  (∀ j, (j < n)%nat → ∃ p, pools s !! j = Some p ∧ buf_pool_init_instance cfg (alloc j) (full j) v1 zero_pool = Some p) ∧
  srv_buf_pool_curr_size s = buf_pool_set_sizes (pools s) ∧ LRU_old_ratio s = replicate n 378 ∧
  btr_search_size s = Some (srv_buf_pool_curr_size s / 8 / 64).
Proof.
  intros [Ha Hf Hp [Ht Hn] Hl Hs Hz Hrat Hm] Em. unfold main_ok in Hm. rewrite Em in *. destruct Hm as [Hd Hc]. cbn [created] in Ht.
  split; [|done]. intros j Hj. destruct (lookup_lt_is_Some_2 (pools s) j) as [p Ep]; [lia|].
  destruct (lookup_lt_is_Some_2 (threads s) j) as [t Et]; [lia|]. exists p. split; [done|].
  pose proof (Hs j t p Et Ep) as H. rewrite (Hd j t Et) in H. destruct H as (_ & _ & q & (q0 & Hc0 & Hf0) & ->).
  unfold buf_pool_init_instance. cbn [full par_buf_pool par_buf_pool_size par_instance_no]. unfold with_chunk in Hc0.
  rewrite (proj2 (Z.ltb_lt 0 isize)) by done. cbn zeta. rewrite Hc0. cbn [mbind option_bind]. by rewrite Hf0.
Qed.

(** ** Progress *)

Definition weight (t : tpc) : nat :=
  match t with
  | TReadPool => 10 | TReadSize _ => 9 | TReadNo _ _ => 8 | TMutexes _ => 7 | TChunk _ => 6 | TFields _ => 5 | TReadLocks _ => 4
  | TWriteLocks _ _ => 3 | THash _ => 2 | TFlushing _ => 1 | TDone _ => 0
  end.

Definition main_weight (m : mpc) : nat :=
  (match m with
   | MPool i => 20 * (n - i) + n + 3 | MSize i => 20 * (n - i) + n + 2 | MNo i => 20 * (n - i) + n + 1 | MCreate i => 20 * (n - i) + n
   | MJoin i => (n - i) + 2 | MSetSizes => 1 | MSuccess | MUndefined => 0
   end)%nat.

Definition remaining (s : state) : nat := (main_weight (main s) + sum_list_with weight (threads s))%nat.

(** A thread that has not returned can go on. *)
Lemma thread_progress s i t : inv s → threads s !! i = Some t → (∀ ok, t ≠ TDone ok) →
  ∃ s', instance_step cfg i s = Some s' ∧ (remaining s' < remaining s)%nat.
Proof.
  intros [Ha Hf Hp [Ht Hn] Hl Hs Hz Hrat Hm] Ei Hnd. assert (i < n)%nat as Hin by (apply lookup_lt_Some in Ei; lia).
  destruct (lookup_lt_is_Some_2 (pools s) i) as [p Ep]; [lia|]. pose proof (Hs i t p Ei Ep) as Hst.
  destruct (Hinst i Hin) as [q Hq]. unfold buf_pool_init_instance in Hq. cbn [par_buf_pool par_buf_pool_size par_instance_no] in Hq.
  rewrite (proj2 (Z.ltb_lt 0 isize)) in Hq by done. destruct (create_chunk _ _ _ _ _) as [pc|] eqn:Ec; [|done]. cbn [mbind option_bind] in Hq.
  destruct (set_fields _ _ _ _) as [pf|] eqn:Epf; [|done]. clear Hq.
  assert (∀ t' (ps : list buf_pool_t) f a l, (weight t' < weight t)%nat →
    (remaining (State ps f a l (<[i := t']> (threads s)) (main s) (srv_buf_pool_curr_size s) (LRU_old_ratio s) (btr_search_size s) (aborted s)) < remaining s)%nat) as Hw.
  { intros t' ps f a l Hlt. unfold remaining. cbn. pose proof (sum_insert weight (threads s) i t t' Ei Hlt). lia. }
  unfold instance_step. rewrite Ei. cbn [mbind option_bind]. destruct t; cbn [stage] in Hst; try (eexists; split; [reflexivity|apply Hw; cbn; lia]).
  - eexists. split; [reflexivity|]. apply Hw. destruct (0 <? _); cbn; lia.
  - destruct (create_chunk _ _ _ _ (the_pool s a)); eexists; (split; [reflexivity|apply Hw; cbn; lia]).
  - destruct Hst as (-> & Hc). assert (p = pc) as -> by (unfold with_chunk in Hc; congruence). unfold the_pool.
    cbn [full par_buf_pool par_buf_pool_size par_instance_no]. rewrite Ep. cbn [default from_option]. unfold id. rewrite Epf.
    eexists. split; [reflexivity|]. apply Hw. cbn. lia.
  - assert (ut_2_power_up (srv_n_page_hash_locks s) = Some v1) as -> by (destruct Hl as [-> | ->]; done).
    eexists. split; [reflexivity|]. apply Hw. cbn. lia.
  - destruct Hst as (_ & -> & _). rewrite (proj2 (Z.eqb_neq v1 0)), (proj2 (Z.ltb_ge MAX_PAGE_HASH_LOCKS v1)) by lia.
    eexists. split; [reflexivity|]. apply Hw. cbn. lia.
  - by destruct (Hnd DB_SUCCESS).
Qed.

Lemma pool_main_progress s : inv s → (∀ t, t ∈ threads s → ∃ ok, t = TDone ok) → main s ≠ MSuccess →
  ∃ s', main_step total_size n 0 s = Some s' ∧ (remaining s' < remaining s)%nat.
Proof.
  intros [Ha Hf Hp [Ht Hn] Hl Hs Hz Hrat Hm] Hd Hns. unfold main_step, main_ok in *. unfold remaining.
  destruct (main s) as [i|i|i|i|i| | |] eqn:Em; cbn [created] in *; try done.
  - destruct (decide (i < n)%nat); eexists; (split; [reflexivity|]); cbn [main threads set_main set_param main_weight]; lia.
  - eexists. split; [reflexivity|]. cbn [main threads set_main set_param main_weight]. lia.
  - eexists. split; [reflexivity|]. cbn [main threads set_main set_param main_weight]. lia.
  - eexists. split; [reflexivity|]. cbn. rewrite sum_list_with_app. cbn. destruct Hm as (_ & _ & Hlt). lia.
  - destruct (decide (i < n)%nat) as [Hlt|]; [|eexists; split; [reflexivity|]; cbn; lia].
    destruct (lookup_lt_is_Some_2 (threads s) i) as [t Et]; [lia|]. rewrite Et. destruct (Hd t) as [ok ->]; [by eapply list_elem_of_lookup_2|].
    eexists. split; [reflexivity|]. cbn. lia.
  - eexists. split; [reflexivity|]. cbn [main threads set_main set_param main_weight]. lia.
Qed.

Lemma polite_progress s : inv s → main s ≠ MSuccess → ∃ s', polite_run cfg total_size n 0 s s' ∧ (remaining s' < remaining s)%nat.
Proof.
  intros Hinv Hns. destruct (decide (Forall (λ t, ∃ ok, t = TDone ok) (threads s))) as [Hall|Hex].
  - destruct (pool_main_progress s Hinv) as (s' & Hs' & Hlt); [by apply Forall_forall|done|]. exists s'. split; [|done].
    exists Main. unfold next. rewrite (i_abort _ Hinv). split; [done|]. intros _ _ t Ht.
    rewrite Forall_forall in Hall. by destruct (Hall t Ht) as [ok ->].
  - apply not_Forall_Exists in Hex; [|apply _]. apply Exists_exists in Hex as (t & Ht & Hnd). apply list_elem_of_lookup in Ht as [i Ei].
    destruct (thread_progress s i t Hinv Ei) as (s' & Hs' & Hlt); [intros ok ->; apply Hnd; by exists ok|].
    exists s'. split; [|done]. exists (Thread i). unfold next. rewrite (i_abort _ Hinv). by split.
Qed.

End threads_ok.

(** * All instances *)

Lemma set_sizes_const ps x : 0 ≤ x → Z.of_nat (length ps) * x < 2 ^ 64 → (∀ p, p ∈ ps → curr_pool_size p = x) →
  buf_pool_set_sizes ps = Z.of_nat (length ps) * x.
Proof.
  intros Hx. induction ps as [|p ps IH] using rev_ind; intros Hb Hall; [done|]. unfold buf_pool_set_sizes in *. rewrite foldl_app, length_app in *.
  cbn [foldl length] in *. rewrite IH; [|nia|intros q Hq; apply Hall, elem_of_app; by left].
  rewrite Hall by (apply elem_of_app; right; by apply list_elem_of_singleton). rewrite u64_id; [lia|nia].
Qed.

Section init_ok.
Context (cfg : config) (total_size : Z) (n : nat) (v0 v1 : Z) (junk : parameter).
Notation isize := (instance_size total_size n).

(** The settings of a server whose allocator does not fail. *)
Definition server_ok : Prop :=
  (0 < n)%nat ∧ 0 ≤ total_size < 2 ^ 63 ∧ 1 ≤ v0 ≤ MAX_PAGE_HASH_LOCKS ∧ ut_2_power_up v0 = Some v1 ∧
  ∀ j, (j < n)%nat → settings_ok cfg (os_mem_alloc_large cfg j) isize.

Context (Hok : server_ok).

Lemma locks_ok : ut_2_power_up v1 = Some v1 ∧ 1 ≤ v1 ≤ MAX_PAGE_HASH_LOCKS.
Proof.
  destruct Hok as (_ & _ & Hv & Hup & _). unfold MAX_PAGE_HASH_LOCKS in *.
  split; [apply (power_up_idem v0); [lia|done]|]. by apply (power_up_le v0 v1 10); [lia..|].
Qed.

Lemma isize_pos : 0 < isize.
Proof.
  destruct Hok as (Hn & _ & _ & _ & Hs). destruct (Hs 0%nat Hn) as [(s & H0 & HP) _ Hsz _ _].
  assert (0 < P cfg) by (rewrite HP; apply Z.pow_pos_nonneg; lia). lia.
Qed.

Lemma instances_ok j : (j < n)%nat → is_Some (buf_pool_init_instance cfg (os_mem_alloc_large cfg j) (Param j isize (Z.of_nat j)) v1 zero_pool).
Proof. intros Hj. destruct Hok as (_ & _ & _ & _ & Hs). destruct (init_instance_ok cfg _ j _ v1 (Hs j Hj)) as (p & -> & _). by eexists. Qed.

Notation Inv := (inv cfg total_size n v0 v1).

Lemma polite_step_inv s s' : Inv s → polite_run cfg total_size n 0 s s' → Inv s'.
Proof.
  destruct Hok as (_ & _ & _ & Hup & _). destruct locks_ok. intros Hi Hr.
  eapply (inv_polite_run cfg total_size n v0 v1); eauto using isize_pos, instances_ok.
Qed.

Lemma polite_inv s : rtc (polite_run cfg total_size n 0) (init n junk v0) s → Inv s.
Proof. intros H. eapply rtc_invariant; [|apply pool_inv_init|exact H]. intros s1 s2 ??. by eapply polite_step_inv. Qed.

Lemma inv_result s : Inv s → main s = MSuccess →
  length (pools s) = n ∧ freed s = [] ∧
  (∀ j p, pools s !! j = Some p →
    buf_pool_init_instance cfg (os_mem_alloc_large cfg j) (Param j isize (Z.of_nat j)) v1 zero_pool = Some p ∧
    instance_ok cfg p (Z.of_nat j) (isize / P cfg) isize v1) ∧
  srv_buf_pool_curr_size s = Z.of_nat n * ((isize / P cfg - 1) * P cfg) ∧
  LRU_old_ratio s = replicate n 378 ∧ btr_search_size s = Some (srv_buf_pool_curr_size s / 8 / 64).
Proof.
  intros Hi Em. pose proof Hok as (Hn & Ht & _ & _ & Hs). destruct (inv_success cfg total_size n v0 v1 isize_pos s Hi Em) as [Hp (Hc & Hra & Hbt)].
  assert (∀ j p, pools s !! j = Some p →
    buf_pool_init_instance cfg (os_mem_alloc_large cfg j) (Param j isize (Z.of_nat j)) v1 zero_pool = Some p ∧
    instance_ok cfg p (Z.of_nat j) (isize / P cfg) isize v1) as Hall.
  { intros j p Hj. assert (j < n)%nat as Hlt by (apply lookup_lt_Some in Hj; rewrite (i_pools _ _ _ _ _ _ Hi) in Hj; done).
    destruct (Hp j Hlt) as (p' & Hp' & E). destruct (init_instance_ok cfg _ j _ v1 (Hs j Hlt)) as (p'' & E' & Hio).
    unfold full in E. assert (p = p'') as -> by congruence. done. }
  split_and!; [apply Hi|apply Hi|done| |done|done]. rewrite Hc.
  destruct (Hs 0%nat Hn) as [(e & He & HP) _ Hsz _ _]. assert (0 < P cfg) as HP0 by (rewrite HP; apply Z.pow_pos_nonneg; lia).
  assert (1 ≤ isize / P cfg) as Hk by (apply Z.div_le_lower_bound; lia).
  pose proof (Z.mul_div_le isize (P cfg) HP0). assert (Z.of_nat n * isize ≤ total_size) by (unfold instance_size; apply Z.mul_div_le; lia).
  rewrite (set_sizes_const _ ((isize / P cfg - 1) * P cfg)); [by rewrite (i_pools _ _ _ _ _ _ Hi)|apply Z.mul_nonneg_nonneg; lia| |].
  - rewrite (i_pools _ _ _ _ _ _ Hi). assert ((isize / P cfg - 1) * P cfg ≤ isize) by lia.
    assert (Z.of_nat n * ((isize / P cfg - 1) * P cfg) ≤ Z.of_nat n * isize) by (apply Z.mul_le_mono_nonneg_l; lia). lia.
  - intros p Hin. apply list_elem_of_lookup in Hin as [j Hj]. apply (io_bytes _ _ _ _ _ _ (proj2 (Hall j p Hj))).
Qed.

(** With one instance there is nothing to race with. *)
Lemma one_instance_polite s s' : n = 1%nat → Inv s → run cfg total_size n 0 s s' → polite_run cfg total_size n 0 s s'.
Proof.
  intros Hn1 Hi [c H]. exists c. split; [done|]. intros _ Hw t Ht. destruct Hi as [_ _ _ [Hl _] _ _ _ _ Hm].
  unfold main_ok in Hm. destruct (main s) as [i|i|i| | | | |]; cbn in *; try done.
  - apply bool_decide_eq_true in Hw. assert (i = 0)%nat as -> by lia. by destruct (threads s); [apply not_elem_of_nil in Ht|].
  - by apply Hm.
  - by apply Hm.
Qed.

Lemma one_instance_inv s : n = 1%nat → rtc (run cfg total_size n 0) (init n junk v0) s → Inv s.
Proof.
  intros Hn1 H. eapply rtc_invariant; [|apply pool_inv_init|exact H]. intros s1 s2 ??. eapply polite_step_inv; [done|by apply one_instance_polite].
Qed.

Lemma polite_finishes s : Inv s → ∃ s', rtc (polite_run cfg total_size n 0) s s' ∧ main s' = MSuccess.
Proof.
  destruct Hok as (_ & _ & _ & Hup & _). destruct locks_ok as [Hup1 Hv1].
  apply (rtc_eventually _ Inv (λ s, main s = MSuccess) (remaining n)). intros s1 Hi. destruct (main s1) eqn:Em; try (right; 
    destruct (polite_progress cfg total_size n v0 v1 Hup Hup1 Hv1 isize_pos instances_ok s1 Hi) as (s2 & Hs2 & Hlt); [by rewrite Em|];
    exists s2; split_and!; [by apply rtc_once|by eapply polite_step_inv|done]). by left.
Qed.

End init_ok.

(** ** Theorems *)

(** C17: provided that the uninitialized [ret] that is passed to [pthread_join] happens to be a
    null pointer, and that every thread has read [param] before [buf_pool_init] writes to it
    again, the threads build exactly the buffer pool that initializing the instances one after
    the other builds: every instance is the result of [buf_pool_init_instance] on zeroed memory
    with its own number, that is, it has its share of the memory with every block on the free
    list, its hash tables, flushing fields and slots; the number of hash locks is rounded up
    once although every thread does it; the total size is the sum, from which the size of the
    adaptive hash index is computed, and the ratio of old blocks is 378/1024.  And the program
    can always go on to its end. *)
Theorem polite_init_correct cfg total_size n v0 v1 junk ret s :
  server_ok cfg total_size n v0 v1 → ret = 0 → rtc (polite_run cfg total_size n ret) (init n junk v0) s →
  let isize := instance_size total_size n in
  (main s = MSuccess →
    length (pools s) = n ∧ freed s = [] ∧
    (∀ j p, pools s !! j = Some p →
      buf_pool_init_instance cfg (os_mem_alloc_large cfg j) (Param j isize (Z.of_nat j)) v1 zero_pool = Some p ∧
      instance_ok cfg p (Z.of_nat j) (isize / P cfg) isize v1) ∧
    srv_buf_pool_curr_size s = Z.of_nat n * ((isize / P cfg - 1) * P cfg) ∧
    LRU_old_ratio s = replicate n 378 ∧ btr_search_size s = Some (srv_buf_pool_curr_size s / 8 / 64)) ∧
  ∃ s', rtc (polite_run cfg total_size n ret) s s' ∧ main s' = MSuccess.
Proof.
  intros Hok -> Hs. assert (inv cfg total_size n v0 v1 s) as Hi by by eapply polite_inv.
  split; [intros Hm; by eapply inv_result|by eapply polite_finishes].
Qed.

(** With one instance every interleaving builds the buffer pool correctly, and the program
    can always go on to its end. *)
Theorem single_instance_init_correct cfg total_size v0 v1 junk s :
  server_ok cfg total_size 1 v0 v1 → rtc (run cfg total_size 1 0) (init 1 junk v0) s →
  let isize := instance_size total_size 1 in
  (main s = MSuccess → ∃ p, pools s = [p] ∧ instance_ok cfg p 0 (isize / P cfg) isize v1 ∧
    srv_buf_pool_curr_size s = (isize / P cfg - 1) * P cfg) ∧
  ∃ s', rtc (run cfg total_size 1 0) s s' ∧ main s' = MSuccess.
Proof.
  intros Hok Hs. assert (inv cfg total_size 1 v0 v1 s) as Hi by by eapply one_instance_inv. split.
  - intros Hm. destruct (inv_result cfg total_size 1 v0 v1 Hok s Hi Hm) as (Hl & _ & Hp & Hc & _).
    destruct (pools s) as [|p [|]] eqn:E; try done. exists p. split; [done|]. split; [apply (Hp 0%nat p eq_refl)|]. rewrite Hc. lia.
  - destruct (polite_finishes cfg total_size 1 v0 v1 Hok s Hi) as (s' & Hs' & Hm). exists s'. split; [|done].
    eapply rtc_subrel; [|exact Hs']. intros s1 s2 (c & H & _). by exists c.
Qed.

(** Pages of 16 bytes, descriptors of 5 bytes, ten pages for each instance. *)
Definition sample_cfg : config := Config 16 5 1 4 4 (λ i n, Some (1001 + 1000 * Z.of_nat i, n)).
Definition sample_junk : parameter := Param 77 (-5) 123.

Lemma sample_settings j : (j < 1000)%nat → settings_ok sample_cfg (os_mem_alloc_large sample_cfg j) 160.
Proof.
  intros Hj. split; [by exists 4|done|done|done|]. exists (1001 + 1000 * Z.of_nat j), 224. split; [done|].
  change (request _ _ _) with 224. change (P sample_cfg) with 16. lia.
Qed.

Lemma sample_server n : (0 < n ≤ 1000)%nat → server_ok sample_cfg (160 * Z.of_nat n) n 5 8.
Proof.
  intros Hn. split; [lia|]. split; [lia|]. split; [done|]. split; [done|]. intros j Hj.
  unfold instance_size. rewrite Z.div_mul by lia. apply sample_settings. lia.
Qed.

(** Each thread reads its parameters before the next one is started, then they run in turns. *)
Definition polite_sched : list who :=
  [Main; Main; Main; Main; Thread 0; Thread 0; Thread 0; Main; Main; Main; Main; Main] ++
  concat (replicate 7 [Thread 1; Thread 0]) ++ [Thread 1; Thread 1; Thread 1; Main; Main; Main; Main].

Definition polite_next (c : who) (s : state) : option state :=
  if bool_decide (c = Main) && writes_param 2 (main s) && existsb reading (threads s) then None else next sample_cfg 320 2 0 c s.


Lemma polite_next_run c s s' : polite_next c s = Some s' → polite_run sample_cfg 320 2 0 s s'.
Proof.
  unfold polite_next. intros H. exists c. destruct (_ && _) eqn:E; [done|]. split; [done|]. intros -> Hw t Ht.
  rewrite bool_decide_eq_true_2, Hw in E by done. cbn in E. apply not_true_iff_false. intros Hr.
  assert (existsb reading (threads s) = true); [|congruence]. apply existsb_exists. exists t. split; [by apply list_elem_of_In|done].
Qed.

Definition polite_end : state := Eval vm_compute in default (init 2 sample_junk 5) (run_sched polite_next polite_sched (init 2 sample_junk 5)).

Lemma polite_init_correct_witness :
  main polite_end = MSuccess ∧ instance_no <$> pools polite_end = [0; 1] ∧
  (∀ j p, pools polite_end !! j = Some p → instance_ok sample_cfg p (Z.of_nat j) 10 160 8) ∧ srv_buf_pool_curr_size polite_end = 2 * (9 * 16).
Proof.
  assert (rtc (polite_run sample_cfg 320 2 0) (init 2 sample_junk 5) polite_end) as Hr.
  { eapply rtc_subrel; [|apply (run_sched_rtc polite_next polite_sched); vm_cast_no_check (eq_refl (Some polite_end))].
    intros s1 s2 [c H]. by eapply polite_next_run. }
  split; [done|]. split; [done|].
  destruct (polite_init_correct sample_cfg 320 2 5 8 sample_junk 0 polite_end (sample_server 2 ltac:(lia)) eq_refl Hr) as [H _].
  destruct (H eq_refl) as (_ & _ & Hp & Hc & _). split; [intros j p Hj; apply (Hp j p Hj)|exact Hc].
Defined.

Definition single_sched : list who := replicate 4 Main ++ replicate 5 (Thread 0) ++ [Main] ++ replicate 5 (Thread 0) ++ replicate 3 Main.
Definition single_end : state :=
  Eval vm_compute in default (init 1 sample_junk 5) (run_sched (next sample_cfg 160 1 0) single_sched (init 1 sample_junk 5)).

Lemma single_instance_init_correct_witness :
  main single_end = MSuccess ∧ ∃ p, pools single_end = [p] ∧ instance_ok sample_cfg p 0 10 160 8 ∧ srv_buf_pool_curr_size single_end = 9 * 16.
Proof.
  split; [done|]. destruct (single_instance_init_correct sample_cfg 160 5 8 sample_junk single_end) as [H _].
  - exact (sample_server 1 ltac:(lia)).
  - apply (run_sched_rtc (next sample_cfg 160 1 0) single_sched). vm_cast_no_check (eq_refl (Some single_end)).
  - exact (H eq_refl).
Defined.

(** Both threads are started before the first one has read its parameters. *)
Definition race_sched : list who :=
  replicate 9 Main ++ concat (replicate 10 [Thread 0; Thread 1]) ++ replicate 4 Main.

(** C20: the threads race on [param]: with two instances there is a run in which both threads
    initialize the second instance, creating its mutexes twice, and the first instance is never
    initialized; [buf_pool_init] reports success. *)
Theorem init_race :
  ∃ s p, rtc (run sample_cfg 320 2 0) (init 2 sample_junk 5) s ∧ main s = MSuccess ∧
    pools s = [zero_pool; p] ∧ mutexes p = 14%nat ∧ no_flush p = 6%nat ∧ instance_no p = 1.
Proof.
  destruct (run_sched (next sample_cfg 320 2 0) race_sched (init 2 sample_junk 5)) as [s|] eqn:E; [|by vm_compute in E].
  exists s, (default zero_pool (pools s !! 1%nat)). split; [by apply (run_sched_rtc _ race_sched)|].
  vm_compute in E. injection E as <-. done.
Qed.

(** The run of one instance whose allocation fails. *)
Definition fail_stage (total_size : Z) (t : tpc) (r : list nat * list buf_pool_t) : Prop :=
  let a0 := Param 0 (instance_size total_size 1) 0 in
  match t with
  | TReadPool => r = ([], [zero_pool])
  | TReadSize p => p = 0%nat ∧ r = ([], [zero_pool])
  | TReadNo p sz => p = 0%nat ∧ sz = instance_size total_size 1 ∧ r = ([], [zero_pool])
  | TMutexes a => a = a0 ∧ r = ([], [zero_pool])
  | TChunk a => a = a0 ∧ r = ([], [create_mutexes zero_pool])
  | TDone ok => ok = false ∧ r = ([0%nat], [create_mutexes zero_pool])
  | _ => False
  end.

Definition fail_main (total_size : Z) (m : mpc) (a : parameter) : Prop :=
  match m with
  | MPool i => i = 0%nat
  | MSize i => i = 0%nat ∧ par_buf_pool a = 0%nat
  | MNo i => i = 0%nat ∧ par_buf_pool a = 0%nat ∧ par_buf_pool_size a = instance_size total_size 1
  | MCreate i => i = 0%nat ∧ a = Param 0 (instance_size total_size 1) 0
  | _ => False
  end.

Definition fail_wait (t : tpc) (m : mpc) : Prop :=
  match m with MPool i => i = 1%nat | MJoin i => (i = 0%nat ∨ t = TDone false) | MSetSizes | MSuccess => t = TDone false | _ => False end.

Lemma fail_wait_mono t t' m : t ≠ TDone false → fail_wait t m → fail_wait t' m.
Proof. intros Hn. destruct m; cbn; try done. intros [->|]; [by left|done]. Qed.

Definition fail_inv (total_size : Z) (s : state) : Prop :=
  aborted s = false ∧
  match threads s with
  | [] => freed s = [] ∧ pools s = [zero_pool] ∧ fail_main total_size (main s) (param s)
  | [t] => param s = Param 0 (instance_size total_size 1) 0 ∧ fail_stage total_size t (freed s, pools s) ∧
      fail_wait t (main s)
  | _ => False
  end.

Lemma fail_inv_init total_size junk v0 : fail_inv total_size (init 1 junk v0).
Proof. done. Qed.

Lemma fail_inv_thread cfg total_size s i s' :
  (∀ k, os_mem_alloc_large cfg 0 k = None) → 0 < instance_size total_size 1 → fail_inv total_size s → instance_step cfg i s = Some s' → fail_inv total_size s'.
Proof.
  intros Ha Hpos [Hab Hi] H. unfold instance_step in H. destruct (threads s) as [|t [|]] eqn:Et; [by destruct i| |done].
  destruct i as [|i]; [|done]. cbn in H. destruct Hi as (Hpar & Hst & Hm). unfold fail_inv. destruct t; cbn [fail_stage] in Hst; try done.
  - injection H as <-. cbn. rewrite Et, Hpar. split; [done|]. split; [done|]. split; [|by eapply fail_wait_mono; [|exact Hm]]. cbn. destruct_and?; by subst.
  - injection H as <-. cbn. rewrite Et, Hpar. split; [done|]. split; [done|]. split; [|by eapply fail_wait_mono; [|exact Hm]]. cbn. destruct_and?; by subst.
  - injection H as <-. cbn. rewrite Et, Hpar. split; [done|]. split; [done|]. split; [|by eapply fail_wait_mono; [|exact Hm]]. cbn. destruct_and?; by subst.
  - destruct Hst as [-> [= Hf Hp]]. cbn in H. rewrite (proj2 (Z.ltb_lt 0 _)) in H by done. injection H as <-.
    unfold the_pool. cbn. rewrite Et, Hp, Hf. split; [done|]. split; [done|]. split; [done|by eapply fail_wait_mono; [|exact Hm]].
  - destruct Hst as [-> [= Hf Hp]]. unfold create_chunk, buf_chunk_init in H. rewrite Ha in H. injection H as <-.
    cbn. rewrite Et, Hp, Hf. split; [done|]. split; [done|]. split; [done|by eapply fail_wait_mono; [|exact Hm]].
Qed.

Lemma fail_inv_step cfg total_size s c s' :
  (∀ k, os_mem_alloc_large cfg 0 k = None) → 0 < instance_size total_size 1 → fail_inv total_size s →
  next cfg total_size 1 0 c s = Some s' → fail_inv total_size s'.
Proof.
  intros Ha Hpos Hinv H. pose proof Hinv as [Hab Hi]. unfold next in H. rewrite Hab in H. destruct c as [|i]; [|by eapply fail_inv_thread].
  unfold main_step in H. unfold fail_inv. destruct (threads s) as [|t [|]] eqn:Et; [| |done].
  - destruct Hi as (Hf & Hp & Hm). destruct (main s) as [i|i|i|i|i| | |] eqn:Em; cbn [fail_main] in Hm; try done.
    + subst i. destruct (decide _) as [_|]; [|lia]. injection H as <-. cbn. by rewrite ?Et.
    + destruct Hm as [-> Hpar]. injection H as <-. cbn. by rewrite ?Et, Hpar.
    + destruct Hm as (-> & Hpar & Hsz). injection H as <-. cbn. by rewrite ?Et, Hpar, Hsz.
    + destruct Hm as [-> Hpar]. injection H as <-. cbn. rewrite ?Et. cbn. by rewrite Hf, Hp.
  - destruct Hi as (Hpar & Hst & Hm). destruct (main s) as [i|i|i|i|i| | |] eqn:Em; try done.
    + cbn in Hm. subst i. destruct (decide _) as [|_]; [lia|]. injection H as <-. cbn. rewrite ?Et. split_and!; try done. by left.
    + destruct (decide (i < 1)%nat) as [Hlt|].
      * destruct i; [|lia]. cbn in H. destruct t; try done. injection H as <-. cbn. rewrite ?Et. destruct Hst as [-> Hst]. split_and!; try done. by right.
      * injection H as <-. cbn. rewrite ?Et. split_and!; try done. destruct Hm as [->|]; [lia|done].
    + injection H as <-. cbn. by rewrite ?Et.
Qed.

(** A failed allocation is not reported: with one instance and no memory every run ends, if
    it ends, with success, although the instance was not initialized and its memory, which is the
    array of all instances, was freed. *)
Theorem init_failure_ignored cfg total_size junk v0 s :
  (∀ k, os_mem_alloc_large cfg 0 k = None) → 0 < instance_size total_size 1 →
  rtc (run cfg total_size 1 0) (init 1 junk v0) s → main s = MSuccess →
  freed s = [0%nat] ∧ pools s = [create_mutexes zero_pool].
Proof.
  intros Ha Hpos Hs Hm. assert (fail_inv total_size s) as Hi.
  { eapply rtc_invariant; [|apply fail_inv_init|exact Hs]. intros s1 s2 ? [c ?]. by eapply fail_inv_step. }
  unfold fail_inv, fail_main in Hi. rewrite Hm in Hi. destruct (threads s) as [|t [|]]; [by destruct Hi as (_ & _ & _ & [])| |by destruct Hi].
  destruct Hi as (_ & _ & Hst & ->). cbn in Hst. destruct Hst as [_ H]. by injection H.
Qed.

Lemma init_failure_ignored_witness :
  let cfg := Config 16 5 1 4 4 (λ _ _, None) in
  ∃ s, rtc (run cfg 160 1 0) (init 1 sample_junk 5) s ∧ main s = MSuccess ∧ freed s = [0%nat] ∧ pools s = [create_mutexes zero_pool].
Proof.
  cbn zeta. set (cfg := Config 16 5 1 4 4 (λ _ _, None)).
  destruct (run_sched (next cfg 160 1 0) (replicate 5 Main ++ replicate 5 (Thread 0) ++ replicate 3 Main) (init 1 sample_junk 5)) as [s|] eqn:E; [|by vm_compute in E].
  exists s. assert (rtc (run cfg 160 1 0) (init 1 sample_junk 5) s) as Hr by (by eapply (run_sched_rtc (next cfg 160 1 0))).
  assert (main s = MSuccess) as Hm by (vm_compute in E; by injection E as <-).
  split; [done|]. split; [done|]. by apply (init_failure_ignored cfg 160 sample_junk 5 s).
Defined.

(** * The oldest modification in the pool *)

(** One instance in the loop of [buf_pool_get_oldest_modification]: [lsn] keeps its value when
    the flush list is empty. *)
Definition oldest_step (r : Z * Z) (p : buf_pool_t) : Z * Z :=
  let '(lsn, oldest_lsn) := r in
  let lsn := match last (flush_list p) with Some m => m | None => lsn end in
  (lsn, if (oldest_lsn =? 0) || (lsn <? oldest_lsn) then lsn else oldest_lsn).

Definition buf_pool_get_oldest_modification (ps : list buf_pool_t) : Z := snd (foldl oldest_step (0, 0) ps).

(** The oldest page is at the end of a flush list. *)
Definition flush_order (l : list Z) : Prop := ∀ i j x y, (i ≤ j)%nat → l !! i = Some x → l !! j = Some y → y ≤ x.

Lemma flush_order_last l m : flush_order l → last l = Some m → m ∈ l ∧ ∀ x, x ∈ l → m ≤ x.
Proof.
  intros Ho Hm. rewrite last_lookup in Hm. split; [by eapply list_elem_of_lookup_2|].
  intros x Hx. apply list_elem_of_lookup in Hx as [i Hi]. eapply (Ho i _ x m); [|done|done]. apply lookup_lt_Some in Hi. lia.
Qed.

Definition modifications (ps : list buf_pool_t) : list Z := concat (flush_list <$> ps).

Lemma modifications_app ps p : modifications (ps ++ [p]) = modifications ps ++ flush_list p.
Proof. unfold modifications. rewrite fmap_app, concat_app. cbn. by rewrite app_nil_r. Qed.

Lemma oldest_fold ps :
  (∀ p, p ∈ ps → flush_order (flush_list p) ∧ ∀ m, m ∈ flush_list p → 0 < m) →
  let '(lsn, oldest_lsn) := foldl oldest_step (0, 0) ps in
  (modifications ps = [] ∧ lsn = 0 ∧ oldest_lsn = 0) ∨
  (oldest_lsn ∈ modifications ps ∧ (∀ m, m ∈ modifications ps → oldest_lsn ≤ m) ∧ oldest_lsn ≤ lsn ∧ 0 < oldest_lsn).
Proof.
  induction ps as [|p ps IH] using rev_ind; intros Hall; [by left|]. rewrite foldl_app, modifications_app. cbn [foldl].
  destruct (foldl oldest_step (0, 0) ps) as [lsn old]. unfold oldest_step.
  specialize (IH (λ q Hq, Hall q (proj2 (elem_of_app _ _ _) (or_introl Hq)))).
  destruct (Hall p) as [Ho Hpos]; [apply elem_of_app; right; by apply list_elem_of_singleton|].
  destruct (last (flush_list p)) as [m|] eqn:El.
  - destruct (flush_order_last _ m Ho El) as [Hin Hmin]. specialize (Hpos m Hin). right.
    destruct IH as [(-> & -> & ->)|(H1 & H2 & H3 & H4)]; cbn [Z.eqb orb].
    + split_and!; [done|done|lia|done].
    + destruct (Z.eqb_spec old 0); [lia|]. cbn [orb]. destruct (Z.ltb_spec m old); (split_and!; [apply elem_of_app; auto|..|lia|lia]);
        intros x [Hx|Hx]%elem_of_app; try (by auto); [specialize (H2 x Hx)|specialize (Hmin x Hx)]; lia.
  - apply last_None in El. rewrite El, app_nil_r. destruct IH as [(-> & -> & ->)|(H1 & H2 & H3 & H4)]; [by left|right].
    destruct (Z.eqb_spec old 0); [lia|]. cbn [orb]. destruct (Z.ltb_spec lsn old); [lia|done].
Qed.

(** The function returns the smallest [oldest_modification] of all dirty pages of all
    instances and zero if there are none, although it keeps the value of the previous instance
    when it meets an empty flush list. *)
Theorem oldest_modification_correct ps :
  (∀ p, p ∈ ps → flush_order (flush_list p) ∧ ∀ m, m ∈ flush_list p → 0 < m) →
  let all := concat (flush_list <$> ps) in
  let r := buf_pool_get_oldest_modification ps in
  (all = [] → r = 0) ∧ (all ≠ [] → r ∈ all ∧ ∀ m, m ∈ all → r ≤ m).
Proof.
  intros H. pose proof (oldest_fold ps H) as Hf. unfold buf_pool_get_oldest_modification. fold (modifications ps).
  destruct (foldl oldest_step (0, 0) ps) as [lsn old]. cbn. destruct Hf as [(-> & _ & ->)|(H1 & H2 & _ & _)]; [done|].
  split; [|done]. intros E. rewrite E in H1. by apply not_elem_of_nil in H1.
Qed.

Definition dirty_pool (l : list Z) : buf_pool_t := BufPool 7 1 None [] [] l 0 0 0 0 0 None None 3 None None true.

Lemma oldest_modification_correct_witness :
  buf_pool_get_oldest_modification [dirty_pool [90; 40; 40]; dirty_pool []; dirty_pool [70; 30]] = 30 ∧
  ∀ m, m ∈ [90; 40; 40; 70; 30] → 30 ≤ m.
Proof.
  split; [done|]. destruct (oldest_modification_correct [dirty_pool [90; 40; 40]; dirty_pool []; dirty_pool [70; 30]]) as [_ H].
  - intros p Hp. split.
    + intros i j x y Hij. repeat (apply elem_of_cons in Hp as [->|Hp]; [cbn; destruct i as [|[|[|i]]], j as [|[|[|j]]]; cbn; intros; simplify_eq; lia|]).
      by apply not_elem_of_nil in Hp.
    + intros m Hm. repeat (apply elem_of_cons in Hp as [->|Hp]; [cbn in Hm; set_solver by lia|]). by apply not_elem_of_nil in Hp.
  - destruct H as [_ H]; [done|]. exact H.
Defined.

End BufPool.
