(* ===== verification/BufBuddy.v ===== *)
(** The buddy allocator for compressed pages:
    src/Project3/mariadb/server/storage/xtradb/buf/buf0buddy.cc and include/buf0buddy.ic.

    Frames of the page size are split into blocks whose sizes are powers of two; free blocks
    are on one list per size.  Whether the buddy of a block is free is read from memory that
    may belong to somebody else: a free block is stamped with an identifier that no compressed
    page has.  When the buddy is used, the page in it is moved to another free block if the
    page table shows that the block is exactly this page and nobody uses it.

    Memory is a function from addresses to bytes.  The lists are sequences (UtList.v); their
    nodes lie in the free blocks behind the stamp, where nothing else is read, so their bytes
    are not part of the model.  Every thread runs one function of the allocator; a section under
    [zip_free_mutex] is one step, and so is the look into the page table under its lock, which
    the thread then keeps until it has moved the page.  The threads of the server own the blocks
    they have got, write into them, and enter pages into the page table.  Where
    [buf_LRU_get_free_only] and [buf_LRU_get_free_block] take frames from is left open. *)

From S2P Require Import Prelude BufChunk.
Import BufChunk(buf_io_fix, BUF_IO_NONE, BUF_IO_READ, ut_2pow_round, round_spec).

Local Open Scope Z_scope.

Module BufBuddy.

Definition BUF_BUDDY_LOW_SHIFT : Z := 10.
Definition BUF_BUDDY_LOW : Z := Z.shiftl 1 BUF_BUDDY_LOW_SHIFT.
Definition FIL_PAGE_OFFSET : Z := 4.
Definition FIL_PAGE_ARCH_LOG_NO_OR_SPACE_ID : Z := 34.
Definition BUF_BUDDY_STAMP_OFFSET : Z := FIL_PAGE_ARCH_LOG_NO_OR_SPACE_ID.
Definition BUF_BUDDY_STAMP_FREE : Z := 0xFFFFFFF0.

(** The largest page has 64 kilobytes. *)
Definition BUF_BUDDY_SIZES_MAX : nat := 6.

(** The size [BUF_BUDDY_LOW << i] of the blocks of index [i]. *)
Definition size (i : nat) : Z := Z.shiftl BUF_BUDDY_LOW (Z.of_nat i).

(** * Memory *)

Definition memory := Z → Z.

(** Bytes [bs] from [a] on. *)
Definition store (m : memory) (a : Z) (bs : list Z) : memory :=
  λ x, if (a <=? x) && (x <? a + Z.of_nat (length bs)) then nth (Z.to_nat (x - a)) bs 0 else m x.
Definition memcpy (m : memory) (dst src n : Z) : memory :=
  λ x, if (dst <=? x) && (x <? dst + n) then m (src + (x - dst)) else m x.

Definition mach_read_from_4 (m : memory) (a : Z) : Z :=
  Z.lor (Z.lor (Z.lor (Z.shiftl (m a) 24) (Z.shiftl (m (a + 1)) 16)) (Z.shiftl (m (a + 2)) 8)) (m (a + 3)).
Definition mach_write_to_4 (m : memory) (a n : Z) : memory :=
  store m a [Z.land (Z.shiftr n 24) 0xFF; Z.land (Z.shiftr n 16) 0xFF; Z.land (Z.shiftr n 8) 0xFF; Z.land n 0xFF].

(** [stamp.size], an integer of eight bytes with the lowest first. *)
Definition write_size (m : memory) (a : Z) (i : nat) : memory :=
  store m a ((λ k, Z.land (Z.shiftr (Z.of_nat i) (8 * Z.of_nat k)) 0xFF) <$> seq 0 8).
Definition read_size (m : memory) (a : Z) : Z :=
  Zsum (λ k, m (a + Z.of_nat k) * 2 ^ (8 * Z.of_nat k)) (seq 0 8).

Definition buf_buddy_stamp_is_free (m : memory) (buf : Z) : bool :=
  mach_read_from_4 m (buf + BUF_BUDDY_STAMP_OFFSET) =? BUF_BUDDY_STAMP_FREE.
Definition buf_buddy_stamp_free (m : memory) (buf : Z) (i : nat) : memory :=
  write_size (mach_write_to_4 m (buf + BUF_BUDDY_STAMP_OFFSET) BUF_BUDDY_STAMP_FREE) buf i.
Definition buf_buddy_stamp_nonfree (m : memory) (buf : Z) : memory :=
  store m (buf + BUF_BUDDY_STAMP_OFFSET) (replicate 4 0xFF).

Definition buf_buddy_get (page sz : Z) : Z := if negb (Z.land page sz =? 0) then page - sz else page + sz.
Definition ut_align_down (ptr align_no : Z) : Z := Z.land ptr (Z.lnot (align_no - 1)).

Inductive buf_buddy_state_t := BUF_BUDDY_STATE_FREE | BUF_BUDDY_STATE_USED | BUF_BUDDY_STATE_PARTIALLY_USED.

Definition buf_buddy_is_free (m : memory) (buf : Z) (i : nat) : buf_buddy_state_t :=
  if negb (buf_buddy_stamp_is_free m buf) then BUF_BUDDY_STATE_USED
  else if read_size m buf =? Z.of_nat i then BUF_BUDDY_STATE_FREE else BUF_BUDDY_STATE_PARTIALLY_USED.

(** * The free lists *)

Record heap := Heap { mem : memory; zip_free : list (list Z) }.

(** [UT_LIST_REMOVE]; the element must be on the list. *)
Fixpoint list_remove (a : Z) (l : list Z) : option (list Z) :=
  match l with
  | [] => None
  | b :: l => if b =? a then Some l else cons b <$> list_remove a l
  end.

Definition buf_buddy_add_to_free (h : heap) (buf : Z) (i : nat) : option heap :=
  l ← zip_free h !! i;
  Some (Heap (buf_buddy_stamp_free (mem h) buf i) (<[i:=buf :: l]> (zip_free h))).

Definition buf_buddy_remove_from_free (h : heap) (buf : Z) (i : nat) : option heap :=
  l ← zip_free h !! i; l ← list_remove buf l;
  Some (Heap (buf_buddy_stamp_nonfree (mem h) buf) (<[i:=l]> (zip_free h))).

Section allocator.
Context (BUF_BUDDY_SIZES : nat).

(** The outer option is a failed assertion. *)
Fixpoint buf_buddy_alloc_zip (fuel : nat) (h : heap) (i : nat) : option (heap * option Z) :=
  match fuel with
  | O => None
  | S fuel =>
      if (i <? BUF_BUDDY_SIZES)%nat then
        l ← zip_free h !! i;
        match l with
        | buf :: _ => h ← buf_buddy_remove_from_free h buf i; Some (h, Some buf)
        | [] =>
            if (i + 1 <? BUF_BUDDY_SIZES)%nat then
              '(h, r) ← buf_buddy_alloc_zip fuel h (i + 1);
              match r with
              | Some buf => h ← buf_buddy_add_to_free h (buf + size i) i; Some (h, Some buf)
              | None => Some (h, None)
              end
            else Some (h, None)
        end
      else None
  end.

(** The loop runs [j - i] times. *)
Fixpoint alloc_from_loop (n : nat) (h : heap) (buf : Z) (j : nat) : option heap :=
  match n with
  | O => Some h
  | S n => h ← buf_buddy_add_to_free h (buf + size (j - 1)) (j - 1); alloc_from_loop n h buf (j - 1)
  end.
Definition buf_buddy_alloc_from (h : heap) (buf : Z) (i j : nat) : option heap :=
  h ← alloc_from_loop (j - i) h buf j; Some (Heap (buf_buddy_stamp_nonfree (mem h) buf) (zip_free h)).

(** * Threads *)

(** What a thread in the allocator has to do next: take a frame for a block of index [i], split
    the frame, look up the page in [buddy] that is to be moved to [zip_buf], move the page with
    the key [k], whose lock the thread holds, put both blocks on the free list, or give the frame
    back. *)
Inductive task :=
  | TIdle
  | TFrame (i : nat)
  | TFrom (frame : Z) (i : nat)
  | TReloc (buf : Z) (i : nat) (zip_buf buddy space offset : Z)
  | TLocked (buf : Z) (i : nat) (zip_buf buddy : Z) (k : Z * Z)
  | TFail (buf : Z) (i : nat) (zip_buf : Z)
  | TUnreg (frame : Z).

(** The loop of [buf_buddy_free_low] from [recombine] on, until the mutex is released. *)
Fixpoint recombine (fuel : nat) (h : heap) (buf : Z) (i : nat) : option (heap * task) :=
  match fuel with
  | O => None
  | S fuel =>
      if (i =? BUF_BUDDY_SIZES)%nat then Some (h, TUnreg buf)
      else
        l ← zip_free h !! i;
        let func_exit := h ← buf_buddy_add_to_free h buf i; Some (h, TIdle) in
        if (length l <? 16)%nat then func_exit
        else
          let buddy := buf_buddy_get buf (size i) in
          match buf_buddy_is_free (mem h) buddy i with
          | BUF_BUDDY_STATE_FREE =>
              h ← buf_buddy_remove_from_free h buddy i;
              recombine fuel h (ut_align_down buf (size (i + 1))) (i + 1)
          | BUF_BUDDY_STATE_USED =>
              match l with
              | zip_buf :: _ =>
                  h ← buf_buddy_remove_from_free h zip_buf i;
                  Some (h, TReloc buf i zip_buf buddy
                    (mach_read_from_4 (mem h) (buddy + FIL_PAGE_ARCH_LOG_NO_OR_SPACE_ID))
                    (mach_read_from_4 (mem h) (buddy + FIL_PAGE_OFFSET)))
              | [] => func_exit
              end
          | BUF_BUDDY_STATE_PARTIALLY_USED => func_exit
          end
  end.

(** The part of [buf_page_t] that is used: [zip.data], [zip.ssize], [io_fix], [buf_fix_count]. *)
Record bpage := BPage { data : option Z; ssize : Z; io_fix : buf_io_fix; buf_fix_count : Z }.

Definition page_zip_get_size (p : bpage) : Z := if ssize p =? 0 then 0 else Z.shiftl (Z.shiftr 1024 1) (ssize p).
Definition buf_page_can_relocate (p : bpage) : bool :=
  match io_fix p with BUF_IO_NONE => buf_fix_count p =? 0 | _ => false end.

Record buddy_stat := Stat { used : Z; relocated : Z }.

(** [zip_hash] has the frames of the allocator; [page_hash] is searched with the tablespace and
    the page number. *)
Record buf_pool_t := Pool {
  zip : heap;
  zip_hash : list Z;
  buddy_stats : list buddy_stat;
  page_hash : gmap (Z * Z) bpage;
}.

Definition count_used (st : list buddy_stat) (i : nat) (d : Z) : list buddy_stat :=
  alter (λ x, Stat (u64 (used x + d)) (relocated x)) i st.
Definition count_relocated (st : list buddy_stat) (i : nat) : list buddy_stat :=
  alter (λ x, Stat (used x) (u64 (relocated x + 1))) i st.

(** [allocated] are the blocks that were returned and not yet given back. *)
Record state := St { pool : buf_pool_t; tasks : list task; allocated : list (Z * nat) }.

Definition with_pool (s : state) (p : buf_pool_t) : state := St p (tasks s) (allocated s).

Fixpoint slot_loop (fuel : nat) (i : nat) (s sz : Z) : option nat :=
  match fuel with
  | O => None
  | S fuel => if s <? sz then slot_loop fuel (S i) (Z.shiftl s 1) sz else Some i
  end.
Definition buf_buddy_get_slot (sz : Z) : option nat := slot_loop (S BUF_BUDDY_SIZES) 0 BUF_BUDDY_LOW sz.

(** [buf_buddy_alloc_low] up to the first release of the mutex. *)
Definition buf_buddy_alloc_low (s : state) (t : nat) (i : nat) : option state :=
  let P := pool s in
  if (i <? BUF_BUDDY_SIZES)%nat then
    '(h, r) ← buf_buddy_alloc_zip BUF_BUDDY_SIZES (zip P) i;
    Some (match r with
          | Some buf => St (Pool h (zip_hash P) (count_used (buddy_stats P) i 1) (page_hash P)) (tasks s) ((buf, i) :: allocated s)
          | None => St (Pool h (zip_hash P) (buddy_stats P) (page_hash P)) (<[t:=TFrame i]> (tasks s)) (allocated s)
          end)
  else Some (St P (<[t:=TFrame i]> (tasks s)) (allocated s)).
Definition buf_buddy_alloc (s : state) (t : nat) (sz : Z) : option state :=
  i ← buf_buddy_get_slot sz; buf_buddy_alloc_low s t i.

(** A frame was found. *)
Definition buf_buddy_block_register (s : state) (t : nat) (i : nat) (frame : Z) : option state :=
  let P := pool s in
  if negb (frame =? 0) && (frame mod size BUF_BUDDY_SIZES =? 0) then
    Some (St (Pool (zip P) (frame :: zip_hash P) (buddy_stats P) (page_hash P)) (<[t:=TFrom frame i]> (tasks s)) (allocated s))
  else None.

(** [alloc_big]. *)
Definition alloc_big (s : state) (t : nat) (frame : Z) (i : nat) : option state :=
  let P := pool s in
  h ← buf_buddy_alloc_from (zip P) frame i BUF_BUDDY_SIZES;
  Some (St (Pool h (zip_hash P) (count_used (buddy_stats P) i 1) (page_hash P)) (<[t:=TIdle]> (tasks s)) ((frame, i) :: allocated s)).

Fixpoint block_remove (b : Z * nat) (l : list (Z * nat)) : list (Z * nat) :=
  match l with
  | [] => []
  | c :: l => if decide (c = b) then l else c :: block_remove b l
  end.

(** [buf_buddy_free_low] up to the first release of the mutex. *)
Definition buf_buddy_free_low (s : state) (t : nat) (buf : Z) (i : nat) : option state :=
  let P := pool s in
  '(h, k) ← recombine (S BUF_BUDDY_SIZES) (zip P) buf i;
  Some (St (Pool h (zip_hash P) (count_used (buddy_stats P) i (-1)) (page_hash P)) (<[t:=k]> (tasks s)) (block_remove (buf, i) (allocated s))).
Definition buf_buddy_free (s : state) (t : nat) (buf sz : Z) : option state :=
  i ← buf_buddy_get_slot sz; buf_buddy_free_low s t buf i.

(** [buf_buddy_relocate] from the release of [zip_free_mutex] until it is entered again. *)
Definition relocate_lookup (s : state) (t : nat) (buf : Z) (i : nat) (zip_buf buddy space offset : Z) : state :=
  let fail := St (pool s) (<[t:=TFail buf i zip_buf]> (tasks s)) (allocated s) in
  match page_hash (pool s) !! (space, offset) with
  | Some p =>
      if decide (data p = Some buddy) then
        if page_zip_get_size p =? size i
        then St (pool s) (<[t:=TLocked buf i zip_buf buddy (space, offset)]> (tasks s)) (allocated s) else fail
      else fail
  | None => fail
  end.

(** Both blocks go to the free list. *)
Definition relocate_failed (s : state) (t : nat) (buf : Z) (i : nat) (zip_buf : Z) : option state :=
  let P := pool s in
  h ← buf_buddy_add_to_free (zip P) zip_buf i; h ← buf_buddy_add_to_free h buf i;
  Some (St (Pool h (zip_hash P) (buddy_stats P) (page_hash P)) (<[t:=TIdle]> (tasks s)) (allocated s)).

(** The end of [buf_buddy_relocate] and what [buf_buddy_free_low] goes on with. *)
Definition relocate_page (s : state) (t : nat) (buf : Z) (i : nat) (zip_buf buddy : Z) (k : Z * Z) : option state :=
  let P := pool s in
  p ← page_hash P !! k;
  if buf_page_can_relocate p then
    if decide (data p = Some buddy) then
      let h := Heap (memcpy (mem (zip P)) zip_buf buddy (size i)) (zip_free (zip P)) in
      let p := BPage (Some zip_buf) (ssize p) (io_fix p) (buf_fix_count p) in
      '(h, k') ← recombine (S BUF_BUDDY_SIZES) h (ut_align_down buf (size (i + 1))) (i + 1);
      Some (St (Pool h (zip_hash P) (count_relocated (buddy_stats P) i) (<[k:=p]> (page_hash P)))
              (<[t:=k']> (tasks s)) ((zip_buf, i) :: block_remove (buddy, i) (allocated s)))
    else None
  else relocate_failed s t buf i zip_buf.

Definition buf_buddy_block_free (s : state) (t : nat) (buf : Z) : option state :=
  let P := pool s in
  if buf mod size BUF_BUDDY_SIZES =? 0 then
    z ← list_remove buf (zip_hash P);
    Some (St (Pool (zip P) z (buddy_stats P) (page_hash P)) (<[t:=TIdle]> (tasks s)) (allocated s))
  else None.

(** * The server *)

(** Whether a page of the page table is in the block at [a], and whether a thread that moves
    a page holds the lock for its key. *)
Definition published (P : buf_pool_t) (a : Z) : bool :=
  negb (bool_decide (map_Forall (λ _ p, data p ≠ Some a) (page_hash P))).
Definition task_key (x : task) : option (Z * Z) := match x with TLocked _ _ _ _ k => Some k | _ => None end.
Definition locked (s : state) (k : Z * Z) : bool := bool_decide (Some k ∈ task_key <$> tasks s).

(** What happens: thread [t] starts to allocate or to free a block, gets a frame, or goes on;
    the server enters a page into the page table or removes it, fixes a page or takes it
    off, writes into a page it has fixed, into a block that it owns and that is not in the
    page table, or somewhere else. *)
Inductive label :=
  | Alloc (t : nat) (sz : Z)
  | Free (t : nat) (buf sz : Z)
  | Frame (t : nat) (frame : Z)
  | Run (t : nat)
  | Publish (k : Z * Z) (p : bpage)
  | Unpublish (k : Z * Z)
  | Fix (k : Z * Z) (io : buf_io_fix) (n : Z)
  | WritePage (k : Z * Z) (bs : list Z)
  | WriteBlock (a : Z) (i : nat) (bs : list Z)
  | WriteOther (x v : Z).

Definition idle (s : state) (t : nat) : bool := match tasks s !! t with Some TIdle => true | _ => false end.
Definition slot_of (sz : Z) : option nat := i ← buf_buddy_get_slot sz; if size i =? sz then Some i else None.
Definition in_frame (x f : Z) : bool := (f <=? x) && (x <? f + size BUF_BUDDY_SIZES).

(** No thread frees or enters a block that it does not own or that is in the page table
    already; what is written into a block does not have the identifier of the free blocks as
    its tablespace; the frames that are found are aligned and not in use. *)
Definition enabled (l : label) (s : state) : bool :=
  let P := pool s in
  let m := mem (zip P) in
  match l with
  | Alloc t sz => idle s t && bool_decide (is_Some (slot_of sz))
  | Free t buf sz =>
      idle s t && match slot_of sz with Some i => bool_decide ((buf, i) ∈ allocated s) && negb (published P buf) | None => false end
  | Frame t f =>
      match tasks s !! t with
      | Some (TFrame _) => negb (f =? 0) && (f mod size BUF_BUDDY_SIZES =? 0) && bool_decide (f ∉ zip_hash P)
      | _ => false
      end
  | Run t =>
      match tasks s !! t with
      | None | Some TIdle | Some (TFrame _) => false
      | Some (TReloc _ _ _ _ space offset) => negb (locked s (space, offset))
      | Some _ => true
      end
  | Publish k p =>
      bool_decide (page_hash P !! k = None) &&
      match data p with
      | None => true
      | Some a => match slot_of (page_zip_get_size p) with Some i => bool_decide ((a, i) ∈ allocated s) && negb (published P a) | None => false end
      end
  | Unpublish k => bool_decide (is_Some (page_hash P !! k)) && negb (locked s k)
  | Fix k _ _ => bool_decide (is_Some (page_hash P !! k))
  | WritePage k bs =>
      match page_hash P !! k with
      | Some p =>
          match data p with
          | Some a => negb (buf_page_can_relocate p) && (Z.of_nat (length bs) <=? page_zip_get_size p) &&
                      negb (buf_buddy_stamp_is_free (store m a bs) a)
          | None => false
          end
      | None => false
      end
  | WriteBlock a i bs =>
      bool_decide ((a, i) ∈ allocated s) && negb (published P a) && (Z.of_nat (length bs) <=? size i) &&
      negb (buf_buddy_stamp_is_free (store m a bs) a)
  | WriteOther x _ => forallb (λ f, negb (in_frame x f)) (zip_hash P)
  end.

Definition set_mem (s : state) (m : memory) : state :=
  with_pool s (Pool (Heap m (zip_free (zip (pool s)))) (zip_hash (pool s)) (buddy_stats (pool s)) (page_hash (pool s))).
Definition set_pages (s : state) (ph : gmap (Z * Z) bpage) : state :=
  with_pool s (Pool (zip (pool s)) (zip_hash (pool s)) (buddy_stats (pool s)) ph).

Definition do_op (l : label) (s : state) : option state :=
  let P := pool s in
  let m := mem (zip P) in
  match l with
  | Alloc t sz => buf_buddy_alloc s t sz
  | Free t buf sz => buf_buddy_free s t buf sz
  | Frame t f => match tasks s !! t with Some (TFrame i) => buf_buddy_block_register s t i f | _ => None end
  | Run t =>
      match tasks s !! t with
      | Some (TFrom f i) => alloc_big s t f i
      | Some (TReloc buf i zip_buf buddy space offset) => Some (relocate_lookup s t buf i zip_buf buddy space offset)
      | Some (TLocked buf i zip_buf buddy k) => relocate_page s t buf i zip_buf buddy k
      | Some (TFail buf i zip_buf) => relocate_failed s t buf i zip_buf
      | Some (TUnreg f) => buf_buddy_block_free s t f
      | _ => None
      end
  | Publish k p => Some (set_pages s (<[k:=p]> (page_hash P)))
  | Unpublish k => Some (set_pages s (delete k (page_hash P)))
  | Fix k io n => p ← page_hash P !! k; Some (set_pages s (<[k:=BPage (data p) (ssize p) io n]> (page_hash P)))
  | WritePage k bs => p ← page_hash P !! k; a ← data p; Some (set_mem s (store m a bs))
  | WriteBlock a _ bs => Some (set_mem s (store m a bs))
  | WriteOther x v => Some (set_mem s (store m x [v]))
  end.

Definition step (s s' : state) : Prop := ∃ l, enabled l s = true ∧ do_op l s = Some s'.

(** No frames, no compressed pages, and [n] threads. *)
Definition init (m : memory) (n : nat) : state :=
  St (Pool (Heap m (replicate BUF_BUDDY_SIZES [])) [] (replicate (S BUF_BUDDY_SIZES) (Stat 0 0)) ∅) (replicate n TIdle) [].

End allocator.

(** * Sizes and addresses *)

Lemma size_pow i : size i = 2 ^ (10 + Z.of_nat i).
Proof.
  unfold size, BUF_BUDDY_LOW, BUF_BUDDY_LOW_SHIFT. rewrite !Z.shiftl_mul_pow2 by lia. rewrite Z.pow_add_r by lia. lia.
Qed.

Lemma size_S i : size (S i) = 2 * size i.
Proof. rewrite !size_pow, Nat2Z.inj_succ, <- Z.add_succ_comm, Z.add_succ_l, Z.pow_succ_r by lia. lia. Qed.

Lemma size_min i : 1024 ≤ size i.
Proof. induction i as [|i IH]; [done|]. rewrite size_S. lia. Qed.

Lemma size_divide i j : (i ≤ j)%nat → (size i | size j).
Proof. induction 1 as [|j _ IH]; [done|]. rewrite size_S. by apply Z.divide_mul_r. Qed.

Lemma size_inj i j : size i = size j → i = j.
Proof. rewrite !size_pow. intros H%Z.pow_inj_r; lia. Qed.

Lemma align_down_size a i : ut_align_down a (size i) = a - a mod size i.
Proof. rewrite size_pow. apply (round_spec a). lia. Qed.

(** The pair of a block and its buddy. *)
Lemma buddy_cases a i :
  (size i | a) →
  (buf_buddy_get a (size i) = a + size i ∧ ut_align_down a (size (S i)) = a ∧ (size (S i) | a)) ∨
  (buf_buddy_get a (size i) = a - size i ∧ ut_align_down a (size (S i)) = a - size i ∧ (size (S i) | a - size i)).
Proof.
  intros [q ->]. pose proof (size_min i) as Hm. rewrite !align_down_size, size_S. unfold buf_buddy_get.
  assert (Z.land (q * size i) (size i) = if Z.odd q then size i else 0) as ->.
  { rewrite size_pow. apply Z.bits_inj'. intros n Hn. rewrite Z.land_spec, Z.pow2_bits_eqb by lia.
    destruct (Z.eqb_spec (10 + Z.of_nat i) n) as [<-|Hne].
    - rewrite andb_true_r, Z.mul_pow2_bits by lia. rewrite Z.sub_diag, Z.bit0_odd.
      destruct (Z.odd q); [by rewrite Z.pow2_bits_true by lia|by rewrite Z.bits_0].
    - rewrite andb_false_r. destruct (Z.odd q); [by rewrite Z.pow2_bits_false by lia|by rewrite Z.bits_0]. }
  pose proof (Zodd_even_bool q) as Hb. destruct (Z.odd q) eqn:Ho.
  - right. apply Z.odd_spec in Ho as [r ->]. rewrite (proj2 (Z.eqb_neq (size i) 0)) by lia.
    assert (((2 * r + 1) * size i) mod (2 * size i) = size i) as -> by (symmetry; apply Z.mod_unique_pos with r; lia).
    split_and!; [done|done|]. exists r. lia.
  - left. rewrite <- Z.negb_even in Ho. apply negb_false_iff, Z.even_spec in Ho as [r ->].
    assert (((2 * r) * size i) mod (2 * size i) = 0) as -> by (symmetry; apply Z.mod_unique_pos with r; lia).
    split_and!; [done|lia|]. exists r. lia.
Qed.

Lemma slot_loop_spec fuel i j sz :
  (i ≤ j)%nat → (j < i + fuel)%nat → sz = size j → slot_loop fuel i (size i) sz = Some j.
Proof.
  revert i. induction fuel as [|fuel IH]; intros i Hij Hf ->; [lia|]. cbn.
  destruct (decide (i = j)) as [->|Hne]; [by rewrite Z.ltb_irrefl|].
  rewrite (proj2 (Z.ltb_lt _ _)), Z.shiftl_mul_pow2 by (rewrite ?size_pow; first [lia|apply Z.pow_lt_mono_r; lia]).
  rewrite Z.mul_comm. change (2 ^ 1) with 2. rewrite <- size_S. apply IH; [lia|lia|done].
Qed.

Lemma slot_loop_bound fuel i s sz j : slot_loop fuel i s sz = Some j → (j < i + fuel)%nat.
Proof.
  revert i s. induction fuel as [|fuel IH]; intros i s H; [done|]. cbn in H. destruct (s <? sz).
  - specialize (IH _ _ H). lia.
  - simplify_eq. lia.
Qed.

Lemma slot_of_size SIZES i : (i ≤ SIZES)%nat → slot_of SIZES (size i) = Some i.
Proof.
  intros Hi. unfold slot_of, buf_buddy_get_slot. change BUF_BUDDY_LOW with (size 0).
  rewrite (slot_loop_spec _ 0 i) by (lia || done). cbn. by rewrite Z.eqb_refl.
Qed.

Lemma slot_of_some SIZES sz i : slot_of SIZES sz = Some i → sz = size i ∧ (i ≤ SIZES)%nat ∧ buf_buddy_get_slot SIZES sz = Some i.
Proof.
  unfold slot_of. intros (j & Hj & H)%bind_Some. destruct (Z.eqb_spec (size j) sz); [|done]. simplify_eq.
  split_and!; [done| |done]. apply slot_loop_bound in Hj. lia.
Qed.

(** * Stamps *)

(** [m'] differs from [m] at most in the block. *)
Definition only (a : Z) (i : nat) (m m' : memory) : Prop := ∀ x, ¬ (a ≤ x < a + size i) → m' x = m x.

Lemma store_out m a bs x : ¬ (a ≤ x < a + Z.of_nat (length bs)) → store m a bs x = m x.
Proof. intros H. unfold store. destruct (Z.leb_spec a x), (Z.ltb_spec x (a + Z.of_nat (length bs))); cbn; try done. lia. Qed.

Lemma store_at m a bs (k : nat) : (k < length bs)%nat → store m a bs (a + Z.of_nat k) = nth k bs 0.
Proof.
  intros H. unfold store. rewrite (proj2 (Z.leb_le _ _)), (proj2 (Z.ltb_lt _ _)) by lia. cbn. f_equal. lia.
Qed.

Lemma store_only m a i o bs :
  0 ≤ o → o + Z.of_nat (length bs) ≤ size i → only a i m (store m (a + o) bs).
Proof. intros Ho Hl x Hx. apply store_out. lia. Qed.

Lemma read_4_ext m m' a : (∀ k, 0 ≤ k < 4 → m' (a + k) = m (a + k)) → mach_read_from_4 m' a = mach_read_from_4 m a.
Proof.
  intros H. unfold mach_read_from_4. rewrite <- (Z.add_0_r a) at 1 5. by rewrite !H by lia.
Qed.

Lemma read_size_ext m m' a : (∀ k, 0 ≤ k < 8 → m' (a + k) = m (a + k)) → read_size m' a = read_size m a.
Proof. intros H. apply Zsum_ext. intros k Hk%elem_of_seq. by rewrite H by lia. Qed.

(** The stamp of a block is in the block. *)
Lemma stamp_ext m m' a :
  (∀ x, a ≤ x < a + 38 → m' x = m x) → buf_buddy_stamp_is_free m' a = buf_buddy_stamp_is_free m a ∧ read_size m' a = read_size m a.
Proof.
  intros H. split.
  - unfold buf_buddy_stamp_is_free, BUF_BUDDY_STAMP_OFFSET, FIL_PAGE_ARCH_LOG_NO_OR_SPACE_ID. f_equal. apply read_4_ext. intros k Hk. apply H. lia.
  - apply read_size_ext. intros k Hk. apply H. lia.
Qed.

Lemma stamp_free_spec m a i :
  (i < 256)%nat → let m' := buf_buddy_stamp_free m a i in
  buf_buddy_stamp_is_free m' a = true ∧ read_size m' a = Z.of_nat i ∧ ∀ j, only a j m m'.
Proof.
  intros Hi m'. unfold m', buf_buddy_stamp_free, BUF_BUDDY_STAMP_OFFSET, FIL_PAGE_ARCH_LOG_NO_OR_SPACE_ID. split_and!.
  - apply Z.eqb_eq. rewrite (read_4_ext (mach_write_to_4 m (a + 34) BUF_BUDDY_STAMP_FREE)).
    + unfold mach_read_from_4, mach_write_to_4, BUF_BUDDY_STAMP_OFFSET, FIL_PAGE_ARCH_LOG_NO_OR_SPACE_ID.
      rewrite <- (Z.add_0_r (a + 34)) at 2.
      rewrite (store_at _ _ _ 0), (store_at _ _ _ 1), (store_at _ _ _ 2), (store_at _ _ _ 3) by (cbn; lia). done.
    + intros k Hk. apply store_out. rewrite length_fmap, length_seq. unfold BUF_BUDDY_STAMP_OFFSET, FIL_PAGE_ARCH_LOG_NO_OR_SPACE_ID. lia.
  - unfold read_size, write_size. cbn [seq Zsum].
    rewrite !store_at by (cbn; lia). cbn [seq fmap list_fmap nth].
    change 255 with (Z.ones 8). rewrite !Z.land_ones, !Z.shiftr_div_pow2 by lia.
    rewrite (Z.div_small _ (2 ^ (8 * Z.of_nat 1))), (Z.div_small _ (2 ^ (8 * Z.of_nat 2))), (Z.div_small _ (2 ^ (8 * Z.of_nat 3))),
      (Z.div_small _ (2 ^ (8 * Z.of_nat 4))), (Z.div_small _ (2 ^ (8 * Z.of_nat 5))), (Z.div_small _ (2 ^ (8 * Z.of_nat 6))),
      (Z.div_small _ (2 ^ (8 * Z.of_nat 7))) by (split; [lia|]; cbn; lia).
    change (2 ^ (8 * Z.of_nat 0)) with 1. rewrite Z.div_1_r, Z.mod_small, Z.mod_0_l by lia. lia.
  - intros j x Hx. pose proof (size_min j). unfold write_size, mach_write_to_4.
    rewrite !store_out; [done|cbn [length]; lia|rewrite length_fmap, length_seq; lia].
Qed.

Lemma stamp_nonfree_spec m a :
  let m' := buf_buddy_stamp_nonfree m a in buf_buddy_stamp_is_free m' a = false ∧ ∀ j, only a j m m'.
Proof.
  unfold buf_buddy_stamp_nonfree, buf_buddy_stamp_is_free, BUF_BUDDY_STAMP_OFFSET, FIL_PAGE_ARCH_LOG_NO_OR_SPACE_ID. split.
  - apply Z.eqb_neq. unfold mach_read_from_4. rewrite <- (Z.add_0_r (a + 34)) at 2.
    rewrite (store_at _ _ _ 0), (store_at _ _ _ 1), (store_at _ _ _ 2), (store_at _ _ _ 3) by (cbn; lia). done.
  - intros j x Hx. pose proof (size_min j). apply store_out. cbn [length replicate]. lia.
Qed.

Lemma memcpy_spec m dst src i :
  let m' := memcpy m dst src (size i) in only dst i m m' ∧ ∀ k, 0 ≤ k < size i → m' (dst + k) = m (src + k).
Proof.
  unfold memcpy. split.
  - intros x Hx. destruct (Z.leb_spec dst x), (Z.ltb_spec x (dst + size i)); cbn; try done. lia.
  - intros k Hk. rewrite (proj2 (Z.leb_le _ _)), (proj2 (Z.ltb_lt _ _)) by lia. cbn. f_equal. lia.
Qed.


(** * Blocks *)

Definition inb (x : Z) (b : Z * nat) : bool := (b.1 <=? x) && (x <? b.1 + size b.2).

Lemma inb_spec x a i : inb x (a, i) = true ↔ a ≤ x < a + size i.
Proof. unfold inb. cbn [fst snd]. rewrite andb_true_iff, Z.leb_le, Z.ltb_lt. done. Qed.

(** How many of the blocks an address is in. *)
Definition cover (l : list (Z * nat)) (x : Z) : Z := Zsum (λ b, if inb x b then 1 else 0) l.

Lemma cover_perm l l' x : l ≡ₚ l' → cover l x = cover l' x.
Proof. unfold cover. induction 1; cbn; lia. Qed.

Lemma cover_cons b l x : cover (b :: l) x = (if inb x b then 1 else 0) + cover l x.
Proof. done. Qed.

Lemma cover_app l l' x : cover (l ++ l') x = cover l x + cover l' x.
Proof. apply Zsum_app. Qed.

Lemma cover_nonneg l x : 0 ≤ cover l x.
Proof. apply Zsum_nonneg. intros b _. by destruct (inb x b). Qed.

Lemma cover_pos l x : 0 < cover l x → ∃ b, b ∈ l ∧ inb x b = true.
Proof.
  induction l as [|b l IH]; cbn; [done|]. intros H. destruct (inb x b) eqn:E; [exists b; split; [left|done]|].
  destruct IH as (c & ? & ?); [done|]. exists c. split; [by right|done].
Qed.

Lemma cover_elem b l x : b ∈ l → inb x b = true → 1 ≤ cover l x.
Proof.
  intros [l' ->%(cover_perm _ _ x)]%elem_of_Permutation Hx. rewrite cover_cons, Hx. pose proof (cover_nonneg l' x). lia.
Qed.

Lemma aligned_eq s a b x : (s | a) → (s | b) → a ≤ x < a + s → b ≤ x < b + s → a = b.
Proof. intros [q ->] [r ->] Ha Hb. assert (q = r) as -> by nia. done. Qed.

Lemma cover_split a i l x : cover ((a, S i) :: l) x = cover ((a, i) :: (a + size i, i) :: l) x.
Proof.
  rewrite !cover_cons. pose proof (size_min i). unfold inb. cbn [fst snd]. rewrite size_S.
  destruct (Z.leb_spec a x), (Z.ltb_spec x (a + 2 * size i)), (Z.ltb_spec x (a + size i)), (Z.leb_spec (a + size i) x),
    (Z.ltb_spec x (a + size i + size i)); cbn; lia.
Qed.

(** * The layout of the frames *)

Section layout.
Context (SIZES : nat).

(** The free blocks [F], the used blocks [N] and the blocks [R] that are worked on, of which
    nothing is known, are the frames cut into pieces.  Free blocks are stamped with their
    size, used ones are not stamped as free. *)
Record ok (m : memory) (F N R : list (Z * nat)) (fr : list Z) : Prop := {
  o_frames : ∀ f, f ∈ fr → (size SIZES | f);
  o_nodup : NoDup fr;
  o_cover : ∀ x, cover (F ++ N ++ R) x = cover ((., SIZES) <$> fr) x;
  o_align : ∀ a i, (a, i) ∈ F ++ N ++ R → (i ≤ SIZES)%nat ∧ (size i | a);
  o_free : ∀ a i, (a, i) ∈ F → (i < SIZES)%nat ∧ buf_buddy_stamp_is_free m a = true ∧ read_size m a = Z.of_nat i;
  o_used : ∀ a i, (a, i) ∈ N → (i < SIZES)%nat → buf_buddy_stamp_is_free m a = false;
}.

Lemma frames_cover fr x : (∀ f, f ∈ fr → (size SIZES | f)) → NoDup fr → cover ((., SIZES) <$> fr) x ≤ 1.
Proof.
  intros Ha Hn. induction Hn as [|f fr Hf Hn IH]; [done|]. cbn [fmap list_fmap]. rewrite cover_cons.
  destruct (inb x (f, SIZES)) eqn:E; [|apply IH; set_solver].
  destruct (decide (0 < cover ((., SIZES) <$> fr) x)) as [Hp|]; [|lia].
  destruct (cover_pos _ _ Hp) as ([g j] & (g' & Heq & Hg)%list_elem_of_fmap & Hx). simplify_eq.
  apply inb_spec in E. apply inb_spec in Hx. destruct Hf.
  by rewrite (aligned_eq (size SIZES) f g' x) by (first [apply Ha; set_solver|done]).
Qed.

Lemma ok_cover_le m F N R fr x : ok m F N R fr → cover (F ++ N ++ R) x ≤ 1.
Proof. intros Hok. rewrite (o_cover _ _ _ _ _ Hok). apply frames_cover; apply Hok. Qed.

(** Two blocks of the layout have no address in common. *)
Lemma ok_disjoint m F N R fr b c l x :
  ok m F N R fr → F ++ N ++ R ≡ₚ b :: c :: l → inb x b = true → inb x c = true → False.
Proof.
  intros Hok Hp Hb Hc. pose proof (ok_cover_le _ _ _ _ _ x Hok) as H. rewrite (cover_perm _ _ x Hp), !cover_cons, Hb, Hc in H.
  pose proof (cover_nonneg l x). lia.
Qed.

Lemma ok_move m F N R F' N' R' fr :
  ok m F N R fr → F' ++ N' ++ R' ≡ₚ F ++ N ++ R →
  (∀ a i, (a, i) ∈ F' → (i < SIZES)%nat ∧ buf_buddy_stamp_is_free m a = true ∧ read_size m a = Z.of_nat i) →
  (∀ a i, (a, i) ∈ N' → (i < SIZES)%nat → buf_buddy_stamp_is_free m a = false) → ok m F' N' R' fr.
Proof.
  intros [Hf Hn Hc Ha _ _] Hp HF HN. split; [done|done| | |done|done].
  - intros x. by rewrite (cover_perm _ _ x Hp).
  - intros a i H. rewrite Hp in H. by apply Ha.
Qed.

Lemma ok_perm m F N R F' N' R' fr : F ≡ₚ F' → N ≡ₚ N' → R ≡ₚ R' → ok m F N R fr → ok m F' N' R' fr.
Proof.
  intros HF HN HR Hok. apply (ok_move _ F N R); [done| | |].
  - by rewrite HF, HN, HR.
  - intros a i. rewrite <- HF. apply Hok.
  - intros a i. rewrite <- HN. apply Hok.
Qed.

Lemma take_F m F N R a i fr : ok m ((a, i) :: F) N R fr → ok m F N ((a, i) :: R) fr.
Proof.
  intros Hok. eapply ok_move; [exact Hok|solve_Permutation| |apply Hok]. intros b j H. apply Hok. by right.
Qed.

Lemma take_N m F N R a i fr : ok m F ((a, i) :: N) R fr → ok m F N ((a, i) :: R) fr.
Proof.
  intros Hok. eapply ok_move; [exact Hok|solve_Permutation|apply Hok|]. intros b j H. apply Hok. by right.
Qed.

Lemma put_F m F N R a i fr :
  ok m F N ((a, i) :: R) fr → (i < SIZES)%nat → buf_buddy_stamp_is_free m a = true → read_size m a = Z.of_nat i →
  ok m ((a, i) :: F) N R fr.
Proof.
  intros Hok Hi H1 H2. eapply ok_move; [exact Hok|solve_Permutation| |apply Hok].
  intros b j [?|H]%elem_of_cons; [by simplify_eq|by apply Hok].
Qed.

Lemma put_N m F N R a i fr :
  ok m F N ((a, i) :: R) fr → ((i < SIZES)%nat → buf_buddy_stamp_is_free m a = false) → ok m F ((a, i) :: N) R fr.
Proof.
  intros Hok H1. eapply ok_move; [exact Hok|solve_Permutation|apply Hok|].
  intros b j [?|H]%elem_of_cons Hj; [simplify_eq; by apply H1|by eapply Hok].
Qed.

(** A piece can be cut, and two halves can be put together. *)
Lemma split_R m F N R a i fr : ok m F N ((a, S i) :: R) fr → ok m F N ((a, i) :: (a + size i, i) :: R) fr.
Proof.
  intros Hok. pose proof Hok as [Hf Hn Hc Ha HF HN]. split; [done|done| | |done|done].
  - intros x. rewrite <- Hc, !cover_app, cover_split. done.
  - destruct (Ha a (S i)) as [Hi [q Hq]]; [set_solver|]. rewrite size_S in Hq.
    intros b j H. rewrite app_assoc, elem_of_app, !elem_of_cons in H.
    destruct H as [H|[?|[?|H]]]; simplify_eq.
    + apply Ha. set_solver.
    + split; [lia|]. exists (2 * q). lia.
    + split; [lia|]. exists (2 * q + 1). lia.
    + apply Ha. set_solver.
Qed.

Lemma merge_R m F N R a i fr :
  ok m F N ((a, i) :: (a + size i, i) :: R) fr → (i < SIZES)%nat → (size (S i) | a) → ok m F N ((a, S i) :: R) fr.
Proof.
  intros Hok Hi Hd. pose proof Hok as [Hf Hn Hc Ha HF HN]. split; [done|done| | |done|done].
  - intros x. rewrite <- Hc, !cover_app, cover_split. done.
  - intros b j H. rewrite app_assoc, elem_of_app, !elem_of_cons in H. destruct H as [H|[?|H]]; simplify_eq; [|done|]; apply Ha; set_solver.
Qed.

(** What is written into a piece that is worked on does not show in the other blocks. *)
Definition same_blocks (l : list (Z * nat)) (m m' : memory) : Prop := ∀ b x, b ∈ l → inb x b = true → m' x = m x.

#[export] Instance same_blocks_preorder l : PreOrder (same_blocks l).
Proof. split; [by intros m b x|]. intros m1 m2 m3 H H' b x Hb Hx. by rewrite (H' b x), (H b x). Qed.

Lemma same_blocks_mono l l' m m' : (∀ b, b ∈ l' → b ∈ l) → same_blocks l m m' → same_blocks l' m m'.
Proof. intros Hl H b x Hb. apply H. auto. Qed.

Lemma only_same m m' F N R a i fr :
  ok m F N ((a, i) :: R) fr → only a i m m' → same_blocks (F ++ N ++ R) m m'.
Proof.
  intros Hok Ho b x Hb Hx. apply Ho. intros Hin%inb_spec. apply elem_of_Permutation in Hb as [l Hl].
  eapply (ok_disjoint _ _ _ _ _ b (a, i) l x Hok); [|done|done].
  trans ((a, i) :: F ++ N ++ R); [solve_Permutation|]. rewrite Hl. constructor.
Qed.

Lemma same_stamp l m m' a i : same_blocks l m m' → (a, i) ∈ l →
  buf_buddy_stamp_is_free m' a = buf_buddy_stamp_is_free m a ∧ read_size m' a = read_size m a.
Proof. intros H Hb. apply stamp_ext. intros x Hx. eapply H; [exact Hb|]. apply inb_spec. pose proof (size_min i). lia. Qed.

Lemma write_same m m' F N R fr : ok m F N R fr → same_blocks (F ++ N) m m' → ok m' F N R fr.
Proof.
  intros [Hf Hn Hc Ha HF HN] Hs. split; [done|done|done|done| |].
  - intros a i H. destruct (same_stamp _ _ _ a i Hs ltac:(set_solver)) as [-> ->]. auto.
  - intros a i H. destruct (same_stamp _ _ _ a i Hs ltac:(set_solver)) as [-> _]. eauto.
Qed.

Lemma write_R m m' F N R a i fr : ok m F N ((a, i) :: R) fr → only a i m m' → ok m' F N ((a, i) :: R) fr.
Proof.
  intros Hok Ho. eapply write_same; [done|]. eapply same_blocks_mono; [|by eapply only_same]. set_solver.
Qed.

Lemma frame_in m F N R f fr : ok m F N R fr → f ∉ fr → (size SIZES | f) → ok m F N ((f, SIZES) :: R) (f :: fr).
Proof.
  intros [Hf Hn Hc Ha HF HN] Hin Hd. split; [|by constructor| | |done|done].
  - intros g [->|Hg]%elem_of_cons; auto.
  - intros x. cbn [fmap list_fmap]. rewrite !cover_app, !cover_cons, <- Hc, !cover_app. lia.
  - intros a i H. rewrite app_assoc, elem_of_app, elem_of_cons in H. destruct H as [H|[?|H]]; simplify_eq; [|done|]; apply Ha; set_solver.
Qed.

Lemma frame_out m F N R f fr fr' : ok m F N ((f, SIZES) :: R) fr → fr ≡ₚ f :: fr' → ok m F N R fr'.
Proof.
  intros [Hf Hn Hc Ha HF HN] Hp. split; [| | | |done|done].
  - intros g Hg. apply Hf. rewrite Hp. by right.
  - rewrite Hp in Hn. by inversion Hn.
  - intros x. specialize (Hc x). rewrite (cover_perm ((., SIZES) <$> fr) ((., SIZES) <$> (f :: fr')) x (fmap_Permutation _ _ _ Hp)) in Hc.
    cbn [fmap list_fmap] in Hc.
    rewrite !cover_app, !cover_cons in *. lia.
  - intros a i H. apply Ha. set_solver.
Qed.

(** A block of index [SIZES] is a frame. *)
Lemma whole_frame m F N R f fr : ok m F N R fr → (f, SIZES) ∈ F ++ N ++ R → f ∈ fr.
Proof.
  intros Hok Hin. destruct (o_align _ _ _ _ _ Hok _ _ Hin) as [_ Hd]. pose proof (size_min SIZES).
  assert (inb f (f, SIZES) = true) as Hx by (apply inb_spec; lia).
  pose proof (cover_elem _ _ _ Hin Hx) as Hc. rewrite (o_cover _ _ _ _ _ Hok) in Hc.
  destruct (cover_pos _ _ (Z.lt_le_trans 0 1 _ Z.lt_0_1 Hc)) as ([g j] & (g' & Heq & Hg)%list_elem_of_fmap & Hgx). simplify_eq.
  apply inb_spec in Hx. apply inb_spec in Hgx. by rewrite (aligned_eq (size SIZES) f g' f) by (first [by eapply o_frames|done]).
Qed.

(** The buddy of a block is the start of a block that is not larger. *)
Lemma interval_nest s p f P a :
  0 < s → (s | p) → (s | f) → (s | P) → p ≤ a < p + s → f ≤ a < f + P → f ≤ p ∧ p + s ≤ f + P.
Proof. intros Hs [q ->] [g ->] [r ->] Hp Hf. assert (g ≤ q ∧ q + 1 ≤ g + r) by nia. nia. Qed.

Lemma two_perm {A} (l : list A) b c : b ∈ l → c ∈ l → b ≠ c → ∃ l', l ≡ₚ b :: c :: l'.
Proof.
  intros [k Hk]%elem_of_Permutation Hc Hne. rewrite Hk in Hc. apply elem_of_cons in Hc as [->|[k' Hk']%elem_of_Permutation]; [done|].
  exists k'. by rewrite Hk, Hk'.
Qed.

Lemma buddy_block m F N R fr a i :
  ok m F N R fr → (a, i) ∈ F ++ N ++ R → (i < SIZES)%nat →
  ∃ j, (j ≤ i)%nat ∧ (buf_buddy_get a (size i), j) ∈ F ++ N ++ R.
Proof.
  intros Hok Hin Hi. destruct (o_align _ _ _ _ _ Hok _ _ Hin) as [_ Hd]. pose proof (size_min i) as Hm.
  assert (∃ p, (size (S i) | p) ∧ p ≤ a < p + size (S i) ∧ p ≤ buf_buddy_get a (size i) < p + size (S i) ∧ (size i | buf_buddy_get a (size i)))
    as (p & Hp & Hpa & Hpb & Hb).
  { rewrite size_S. destruct (buddy_cases a i Hd) as [(-> & _ & ?)|(-> & _ & ?)]; [exists a|exists (a - size i)];
      rewrite <- size_S; (split_and!; [done|rewrite ?size_S; lia|rewrite ?size_S; lia|rewrite ?size_S; lia|rewrite ?size_S; lia|]).
    - by apply Z.divide_add_r.
    - by apply Z.divide_sub_r. }
  set (b := buf_buddy_get a (size i)) in *.
  assert (inb a (a, i) = true) as Hx by (apply inb_spec; lia).
  pose proof (cover_elem _ _ _ Hin Hx) as Hc. rewrite (o_cover _ _ _ _ _ Hok) in Hc.
  destruct (cover_pos _ _ (Z.lt_le_trans 0 1 _ Z.lt_0_1 Hc)) as ([f j] & (f' & Heq & Hf)%list_elem_of_fmap & Hfx%inb_spec). simplify_eq.
  destruct (interval_nest (size (S i)) p f' (size SIZES) a) as [Hf1 Hf2];
    [rewrite size_S; lia|done| |apply size_divide; lia|lia|lia|].
  { etrans; [|by eapply o_frames]. apply size_divide. lia. }
  assert (1 ≤ cover (F ++ N ++ R) b) as Hcb.
  { rewrite (o_cover _ _ _ _ _ Hok). apply (cover_elem (f', SIZES)); [by apply (list_elem_of_fmap_2 (., SIZES))|]. apply inb_spec. lia. }
  destruct (cover_pos _ _ (Z.lt_le_trans 0 1 _ Z.lt_0_1 Hcb)) as ([c j] & Hcin & Hcx).
  destruct (o_align _ _ _ _ _ Hok _ _ Hcin) as [_ Hcd].
  destruct (decide (j ≤ i)%nat) as [Hj|Hj].
  - exists j. split; [done|]. apply inb_spec in Hcx. rewrite (aligned_eq (size j) b c b); [done| |done|pose proof (size_min j); lia|done].
    etrans; [by apply size_divide|done].
  - exfalso. destruct (two_perm _ (a, i) (c, j) Hin Hcin) as [l Hl]; [intros [=]; lia|].
    apply inb_spec in Hcx. eapply (ok_disjoint _ _ _ _ _ _ _ _ a Hok Hl); [done|]. apply inb_spec.
    destruct (interval_nest (size (S i)) p c (size j) b); [rewrite size_S; lia|done| |apply size_divide; lia|lia|lia|lia].
    etrans; [|exact Hcd]. apply size_divide. lia.
Qed.

End layout.


(** * The operations on the layout *)

Fixpoint free_blocks (i : nat) (zf : list (list Z)) : list (Z * nat) :=
  match zf with
  | [] => []
  | l :: zf => ((., i) <$> l) ++ free_blocks (S i) zf
  end.

Lemma free_blocks_at zf k i l :
  zf !! i = Some l → ∃ rest, free_blocks k zf ≡ₚ ((., (k + i)%nat) <$> l) ++ rest ∧
    ∀ l', free_blocks k (<[i:=l']> zf) ≡ₚ ((., (k + i)%nat) <$> l') ++ rest.
Proof.
  revert k i. induction zf as [|l0 zf IH]; intros k [|i] Hl; simplify_eq/=.
  - rewrite Nat.add_0_r. by exists (free_blocks (S k) zf).
  - destruct (IH (S k) i Hl) as (rest & H1 & H2). exists (((., k) <$> l0) ++ rest).
    rewrite <- Nat.add_succ_comm. split; [rewrite H1; solve_Permutation|]. intros l'. rewrite H2. solve_Permutation.
Qed.

Lemma free_blocks_elem zf k a i :
  (a, i) ∈ free_blocks k zf → ∃ j l, i = (k + j)%nat ∧ zf !! j = Some l ∧ a ∈ l.
Proof.
  revert k. induction zf as [|l0 zf IH]; intros k; cbn; [by intros ?%not_elem_of_nil|].
  intros [(b & ? & Hb)%list_elem_of_fmap|(j & l & -> & Hj & Ha)%IH]%elem_of_app; simplify_eq.
  - exists 0%nat, l0. split_and!; [lia|done|done].
  - exists (S j), l. split_and!; [lia|done|done].
Qed.

Lemma list_remove_spec a l : a ∈ l → ∃ l', list_remove a l = Some l' ∧ l ≡ₚ a :: l'.
Proof.
  induction l as [|b l IH]; [by intros ?%not_elem_of_nil|]. intros [->|H]%elem_of_cons; cbn.
  - rewrite Z.eqb_refl. by exists l.
  - destruct (Z.eqb_spec b a) as [->|Hne]; [by exists l|]. destruct (IH H) as (l' & -> & Hp). exists (b :: l').
    split; [done|]. rewrite Hp. constructor.
Qed.

Section operations.
Context (SIZES : nat) (HS : (SIZES < 256)%nat).

Definition hok (h : heap) (N R : list (Z * nat)) (fr : list Z) : Prop :=
  ok SIZES (mem h) (free_blocks 0 (zip_free h)) N R fr ∧ length (zip_free h) = SIZES.

Lemma hok_perm h N N' R R' fr : N ≡ₚ N' → R ≡ₚ R' → hok h N R fr → hok h N' R' fr.
Proof. intros HN HR [H Hl]. split; [|done]. by eapply ok_perm. Qed.

Lemma hok_list h N R fr i : hok h N R fr → (i < SIZES)%nat → ∃ l, zip_free h !! i = Some l.
Proof. intros [_ Hl] Hi. destruct (lookup_lt_is_Some_2 (zip_free h) i) as [l ?]; [lia|by exists l]. Qed.

Lemma add_to_free_ok h N R fr a i :
  hok h N ((a, i) :: R) fr → (i < SIZES)%nat →
  ∃ h', buf_buddy_add_to_free h a i = Some h' ∧ hok h' N R fr ∧ same_blocks (N ++ R) (mem h) (mem h').
Proof.
  intros Hh Hi. destruct (hok_list _ _ _ _ _ Hh Hi) as [l Hl]. destruct Hh as [Hok Hlen]. unfold buf_buddy_add_to_free. rewrite Hl. cbn.
  eexists. split; [done|]. destruct (stamp_free_spec (mem h) a i) as (H1 & H2 & H3); [lia|].
  pose proof (only_same _ _ _ _ _ _ _ _ _ Hok (H3 i)) as Hs. split; [|eapply same_blocks_mono; [|exact Hs]; set_solver].
  split; [|by cbn; rewrite length_insert]. cbn. destruct (free_blocks_at _ 0 i l Hl) as (rest & Hr & Hr').
  eapply ok_perm; [|reflexivity|reflexivity|apply put_F; [eapply write_R; [exact Hok|apply H3]|done|done|done]].
  rewrite Hr, Hr'. done.
Qed.

Lemma remove_from_free_ok h N R fr i l a :
  hok h N R fr → zip_free h !! i = Some l → a ∈ l →
  ∃ h', buf_buddy_remove_from_free h a i = Some h' ∧ hok h' ((a, i) :: N) R fr ∧ same_blocks (N ++ R) (mem h) (mem h').
Proof.
  intros [Hok Hlen] Hl Ha. unfold buf_buddy_remove_from_free. rewrite Hl. cbn. destruct (list_remove_spec a l Ha) as (l' & -> & Hp). cbn.
  eexists. split; [done|]. destruct (stamp_nonfree_spec (mem h) a) as (H1 & H3). destruct (free_blocks_at _ 0 i l Hl) as (rest & Hr & Hr').
  assert (ok SIZES (mem h) (((., i) <$> l') ++ rest) N ((a, i) :: R) fr) as Hok'.
  { apply take_F. eapply ok_perm; [|reflexivity|reflexivity|exact Hok]. rewrite Hr, Hp. done. }
  split; [|eapply same_blocks_mono; [|apply (only_same _ _ _ _ _ _ _ _ _ Hok' (H3 i))]; set_solver].
  split; [|by cbn; rewrite length_insert]. cbn. apply put_N; [|done].
  eapply ok_perm; [|reflexivity|reflexivity|eapply write_R; [exact Hok'|apply H3]]. by rewrite Hr'.
Qed.

(** Cutting a used block: the second half becomes free. *)
Lemma split_to_free h N R fr a i :
  hok h N ((a, S i) :: R) fr → (i < SIZES)%nat →
  ∃ h', buf_buddy_add_to_free h (a + size i) i = Some h' ∧ hok h' N ((a, i) :: R) fr ∧ same_blocks (N ++ (a, i) :: R) (mem h) (mem h').
Proof.
  intros [Hok Hl] Hi. apply add_to_free_ok; [|done]. split; [|done].
  eapply ok_perm; [reflexivity|reflexivity| |by apply split_R]. constructor.
Qed.

Lemma alloc_zip_ok fuel h N fr i :
  hok h N [] fr → (i < SIZES)%nat → (SIZES ≤ fuel + i)%nat →
  ∃ h' r, buf_buddy_alloc_zip SIZES fuel h i = Some (h', r) ∧ same_blocks N (mem h) (mem h') ∧
    hok h' (match r with Some a => [(a, i)] | None => [] end ++ N) [] fr.
Proof.
  revert h i. induction fuel as [|fuel IH]; intros h i Hh Hi Hf; [lia|]. cbn [buf_buddy_alloc_zip].
  rewrite (proj2 (Nat.ltb_lt _ _) Hi). destruct (hok_list _ _ _ _ _ Hh Hi) as [l Hl]. rewrite Hl. cbn [mbind option_bind]. destruct l as [|buf l].
  - destruct (Nat.ltb_spec (i + 1) SIZES) as [Hi'|]; [|exists h, None; by split_and!].
    destruct (IH h (i + 1)%nat Hh Hi' ltac:(lia)) as (h1 & r & -> & Hs1 & Hh1). cbn. destruct r as [buf|]; [|exists h1, None; by split_and!].
    rewrite Nat.add_1_r in Hh1, Hi'. pose proof (o_used _ _ _ _ _ _ (proj1 Hh1) buf (S i) ltac:(set_solver) Hi') as Hst.
    destruct (split_to_free h1 N [] fr buf i) as (h2 & -> & Hh2 & Hs2); [|lia|].
    { split; [apply take_N, Hh1|apply Hh1]. }
    cbn. exists h2, (Some buf). split; [done|]. split.
    + etrans; [exact Hs1|]. eapply same_blocks_mono; [|exact Hs2]. set_solver.
    + split; [|apply Hh2]. apply put_N; [apply Hh2|]. intros _.
      destruct (same_stamp _ _ _ buf i Hs2 ltac:(set_solver)) as [-> _]. done.
  - destruct (remove_from_free_ok h N [] fr i (buf :: l) buf Hh Hl ltac:(set_solver)) as (h' & -> & Hh' & Hs). cbn.
    exists h', (Some buf). split_and!; [done| |done]. eapply same_blocks_mono; [|exact Hs]. set_solver.
Qed.

Lemma alloc_from_loop_ok n h N fr buf i :
  hok h N [(buf, (i + n)%nat)] fr → (i + n ≤ SIZES)%nat →
  ∃ h', alloc_from_loop n h buf (i + n) = Some h' ∧ same_blocks N (mem h) (mem h') ∧ hok h' N [(buf, i)] fr.
Proof.
  revert h. induction n as [|n IH]; intros h Hh Hi; cbn.
  - rewrite Nat.add_0_r in Hh. by exists h.
  - rewrite Nat.add_succ_r in *. cbn [Nat.sub]. rewrite Nat.sub_0_r.
    destruct (split_to_free h N [] fr buf (i + n) Hh ltac:(lia)) as (h1 & -> & Hh1 & Hs1). cbn.
    destruct (IH h1 Hh1 ltac:(lia)) as (h' & -> & Hs & Hh'). exists h'. split_and!; [done| |done].
    etrans; [|exact Hs]. eapply same_blocks_mono; [|exact Hs1]. set_solver.
Qed.

Lemma alloc_from_ok h N fr buf i :
  hok h N [(buf, SIZES)] fr → (i ≤ SIZES)%nat →
  ∃ h', buf_buddy_alloc_from h buf i SIZES = Some h' ∧ same_blocks N (mem h) (mem h') ∧ hok h' ((buf, i) :: N) [] fr.
Proof.
  intros Hh Hi. unfold buf_buddy_alloc_from.
  destruct (alloc_from_loop_ok (SIZES - i) h N fr buf i) as (h' & Heq & Hs & Hh'); [by rewrite Nat.add_comm, Nat.sub_add|lia|].
  rewrite Nat.add_comm, Nat.sub_add in Heq by done. rewrite Heq. cbn. eexists. split; [done|].
  destruct (stamp_nonfree_spec (mem h') buf) as (H1 & H3). destruct Hh' as [Hok Hlen]. cbn. split.
  - etrans; [exact Hs|]. eapply same_blocks_mono; [|apply (only_same _ _ _ _ _ _ _ _ _ Hok (H3 i))]. set_solver.
  - split; [|done]. apply put_N; [|done]. eapply write_R; [exact Hok|apply H3].
Qed.

(** Two used halves are one used block. *)
Lemma merge_used h N fr a i :
  hok h ((a, i) :: (buf_buddy_get a (size i), i) :: N) [] fr → (i < SIZES)%nat →
  hok h ((ut_align_down a (size (i + 1)), (i + 1)%nat) :: N) [] fr.
Proof.
  intros [Hok Hl] Hi. split; [|done]. rewrite Nat.add_1_r.
  destruct (o_align _ _ _ _ _ _ Hok a i) as [_ Hd]; [set_solver|].
  pose proof (o_used _ _ _ _ _ _ Hok a i ltac:(set_solver) Hi) as H1.
  pose proof (o_used _ _ _ _ _ _ Hok (buf_buddy_get a (size i)) i ltac:(set_solver) Hi) as H2.
  apply take_N, take_N in Hok. apply put_N.
  - destruct (buddy_cases a i Hd) as [(Hb & -> & Hd')|(Hb & -> & Hd')]; rewrite Hb in Hok; (apply merge_R; [|done|done]).
    + eapply ok_perm; [reflexivity|reflexivity| |exact Hok]. constructor.
    + by rewrite Z.sub_add.
  - intros _. by destruct (buddy_cases a i Hd) as [(Hb & -> & Hd')|(<- & -> & Hd')].
Qed.

(** The blocks a thread holds. *)
Definition flight (x : task) : list (Z * nat) :=
  match x with
  | TIdle | TFrame _ => []
  | TFrom f _ | TUnreg f => [(f, SIZES)]
  | TReloc buf i zip_buf _ _ _ | TLocked buf i zip_buf _ _ | TFail buf i zip_buf => [(buf, i); (zip_buf, i)]
  end.

(** What the loop can end with when it starts at the index [i]. *)
Definition free_task (i : nat) (x : task) : Prop :=
  match x with
  | TIdle | TUnreg _ => True
  | TReloc buf j _ buddy _ _ => (i ≤ j < SIZES)%nat ∧ buddy = buf_buddy_get buf (size j)
  | _ => False
  end.

Lemma free_recombine_ok fuel h N fr buf i :
  hok h ((buf, i) :: N) [] fr → (SIZES < fuel + i)%nat →
  ∃ h' k, recombine SIZES fuel h buf i = Some (h', k) ∧ free_task i k ∧ same_blocks N (mem h) (mem h') ∧ hok h' (flight k ++ N) [] fr.
Proof.
  revert h buf i. induction fuel as [|fuel IH]; intros h buf i Hh Hf.
  { destruct (o_align _ _ _ _ _ _ (proj1 Hh) buf i) as [? _]; [set_solver|]. lia. }
  destruct (o_align _ _ _ _ _ _ (proj1 Hh) buf i) as [Hi _]; [set_solver|]. cbn [recombine].
  destruct (Nat.eqb_spec i SIZES) as [->|Hne]; [exists h, (TUnreg buf); by split_and!|]. assert (i < SIZES)%nat as Hi' by lia.
  destruct (hok_list _ _ _ _ _ Hh Hi') as [l Hl]. rewrite Hl. cbn [mbind option_bind].
  assert (∃ h' k, (h0 ← buf_buddy_add_to_free h buf i; Some (h0, TIdle)) = Some (h', k) ∧ free_task i k ∧
    same_blocks N (mem h) (mem h') ∧ hok h' (flight k ++ N) [] fr) as Hexit.
  { destruct (add_to_free_ok h N [] fr buf i) as (h' & -> & Hh' & Hs); [split; [apply take_N, Hh|apply Hh]|done|].
    exists h', TIdle. rewrite app_nil_r in Hs. by split_and!. }
  destruct (length l <? 16)%nat; [exact Hexit|].
  destruct (buddy_block _ _ _ _ _ _ buf i (proj1 Hh) ltac:(set_solver) Hi') as (j & Hj & Hb). rewrite app_nil_r in Hb.
  set (buddy := buf_buddy_get buf (size i)) in *. unfold buf_buddy_is_free.
  destruct (buf_buddy_stamp_is_free (mem h) buddy) eqn:Hst; cbn [negb].
  - apply elem_of_app in Hb as [Hb|Hb]; [|by rewrite (o_used _ _ _ _ _ _ (proj1 Hh) buddy j Hb) in Hst by lia].
    destruct (o_free _ _ _ _ _ _ (proj1 Hh) buddy j Hb) as (_ & _ & ->). destruct (Z.eqb_spec (Z.of_nat j) (Z.of_nat i)) as [Hji%Nat2Z.inj|]; [subst j|exact Hexit].
    apply free_blocks_elem in Hb as (j' & l' & Hj' & Hl' & Hb). cbn in Hj'. subst j'. simplify_eq.
    destruct (remove_from_free_ok h ((buf, i) :: N) [] fr i _ buddy Hh Hl Hb) as (h1 & -> & Hh1 & Hs1). cbn [mbind option_bind].
    destruct (IH h1 (ut_align_down buf (size (i + 1))) (i + 1)%nat) as (h' & k & -> & Hk & Hs & Hh'); [|lia|].
    { apply merge_used; [|done]. eapply hok_perm; [|reflexivity|exact Hh1]. constructor. }
    exists h', k. split_and!; [done|destruct k; try done; cbn in *; destruct Hk as [? ->]; split; [lia|done]| |done].
    etrans; [|exact Hs]. eapply same_blocks_mono; [|exact Hs1]. set_solver.
  - destruct l as [|zip_buf l]; [exact Hexit|].
    destruct (remove_from_free_ok h ((buf, i) :: N) [] fr i _ zip_buf Hh Hl ltac:(set_solver)) as (h1 & -> & Hh1 & Hs1). cbn [mbind option_bind].
    eexists h1, _. split; [done|]. split; [done|]. split; [eapply same_blocks_mono; [|exact Hs1]; set_solver|].
    cbn [flight app]. eapply hok_perm; [|reflexivity|exact Hh1]. constructor.
Qed.

End operations.


(** * The invariant *)

Lemma block_remove_perm b l : b ∈ l → l ≡ₚ b :: block_remove b l.
Proof.
  induction l as [|c l IH]; [by intros ?%not_elem_of_nil|]. intros Hb. cbn. destruct (decide (c = b)) as [->|Hne]; [done|].
  apply elem_of_cons in Hb as [->|Hb]; [done|]. rewrite (IH Hb) at 1. constructor.
Qed.

(** How many blocks of index [i] there are. *)
Definition count_index (i : nat) (l : list (Z * nat)) : Z := Zsum (λ b, if (b.2 =? i)%nat then 1 else 0) l.

Lemma count_index_perm i l l' : l ≡ₚ l' → count_index i l = count_index i l'.
Proof. unfold count_index. induction 1; cbn; lia. Qed.

Section system.
Context (SIZES : nat) (HS : (SIZES < 256)%nat).

Definition flights (ts : list task) : list (Z * nat) := ts ≫= flight SIZES.
Definition keys (ts : list task) : list (Z * Z) := ts ≫= (λ x, option_list (task_key x)).

Definition task_ok (ph : gmap (Z * Z) bpage) (x : task) : Prop :=
  match x with
  | TIdle | TUnreg _ => True
  | TFrame i | TFrom _ i => (i ≤ SIZES)%nat
  | TReloc buf i _ buddy _ _ => (i < SIZES)%nat ∧ buddy = buf_buddy_get buf (size i)
  | TLocked buf i _ buddy k =>
      (i < SIZES)%nat ∧ buddy = buf_buddy_get buf (size i) ∧
      ∃ p, ph !! k = Some p ∧ data p = Some buddy ∧ page_zip_get_size p = size i
  | TFail _ i _ => (i < SIZES)%nat
  end.

(** The statistics count the blocks that are allocated. *)
Definition stats_ok (st : list buddy_stat) (al : list (Z * nat)) : Prop :=
  ∀ i, (i ≤ SIZES)%nat → used <$> st !! i = Some (u64 (count_index i al)).

(** Every compressed page of the page table is in an allocated block of its size, no two in the same. *)
Definition pages_ok (ph : gmap (Z * Z) bpage) (al : list (Z * nat)) : Prop :=
  (∀ k p a, ph !! k = Some p → data p = Some a → ∃ i, (a, i) ∈ al ∧ page_zip_get_size p = size i) ∧
  ∀ k k' p p' a, ph !! k = Some p → ph !! k' = Some p' → data p = Some a → data p' = Some a → k = k'.

Record inv (s : state) : Prop := {
  i_heap : hok SIZES (zip (pool s)) (allocated s ++ flights (tasks s)) [] (zip_hash (pool s));
  i_stats : stats_ok (buddy_stats (pool s)) (allocated s);
  i_pages : pages_ok (page_hash (pool s)) (allocated s);
  i_tasks : ∀ x, x ∈ tasks s → task_ok (page_hash (pool s)) x;
  i_keys : NoDup (keys (tasks s));
}.

Lemma init_inv m n : inv (init SIZES m n).
Proof.
  assert (∀ k, free_blocks k (replicate SIZES []) = []) as Hfb by (clear HS; induction SIZES as [|S' IH]; intros k; cbn; auto).
  assert (∀ {B} (f : task → list B), f TIdle = [] → (replicate n TIdle ≫= f) = []) as Hr.
  { intros B f Hf. induction n as [|n IH]; [done|]. cbn. by rewrite Hf, IH. }
  split; cbn [init pool zip zip_hash allocated tasks buddy_stats page_hash].
  - split; [|cbn; by rewrite length_replicate]. cbn [mem zip_free app]. rewrite Hfb. unfold flights. rewrite Hr by done.
    split; cbn; try (intros; by set_solver). constructor.
  - intros i Hi. rewrite lookup_replicate_2 by lia. done.
  - split; intros *; by rewrite lookup_empty.
  - intros x [-> _]%elem_of_replicate. done.
  - unfold keys. rewrite Hr by done. constructor.
Qed.

Lemma stats_step st al al' i d :
  stats_ok st al → (∀ j, count_index j al' = count_index j al + (if (i =? j)%nat then d else 0)) →
  stats_ok (count_used st i d) al'.
Proof.
  intros Hst Hc j Hj. rewrite Hc. unfold count_used. destruct (Nat.eqb_spec i j) as [->|Hne].
  - rewrite list_lookup_alter_eq. specialize (Hst j Hj). destruct (st !! j) as [x|]; [|done]. cbn in *. f_equal. injection Hst as ->.
    unfold u64. rewrite Zplus_mod_idemp_l. done.
  - rewrite list_lookup_alter_ne, Z.add_0_r by done. by apply Hst.
Qed.

Lemma stats_relocated st al al' i : stats_ok st al → al ≡ₚ al' → stats_ok (count_relocated st i) al'.
Proof.
  intros Hst Hp j Hj. rewrite <- (count_index_perm j _ _ Hp), <- (Hst j Hj). unfold count_relocated.
  destruct (decide (i = j)) as [->|Hne]; [|by rewrite list_lookup_alter_ne].
  rewrite list_lookup_alter_eq. by destruct (st !! j).
Qed.

Lemma locked_keys s k : locked s k = bool_decide (k ∈ keys (tasks s)).
Proof.
  unfold locked. apply bool_decide_ext. rewrite list_elem_of_fmap. unfold keys. rewrite list_elem_of_bind.
  split; intros (x & H1 & H2).
  - exists x. by rewrite <- H1; split; [left|].
  - exists x. destruct (task_key x); cbn in H1; [|by apply not_elem_of_nil in H1]. split; [|done]. f_equal. set_solver.
Qed.

(** What a thread holds, and what the others hold and the server has. *)
Lemma inv_open s t x :
  inv s → tasks s !! t = Some x →
  ∃ rest, hok SIZES (zip (pool s)) (flight SIZES x ++ allocated s ++ rest) [] (zip_hash (pool s)) ∧
    ∀ y h al fr, hok SIZES h (flight SIZES y ++ al ++ rest) [] fr → hok SIZES h (al ++ flights (<[t:=y]> (tasks s))) [] fr.
Proof.
  intros Hi Hx. destruct (bind_at (flight SIZES) _ _ _ Hx) as (rest & H1 & H2). exists rest. split.
  - eapply hok_perm; [|reflexivity|apply Hi]. unfold flights. rewrite H1. solve_Permutation.
  - intros y h al fr. apply hok_perm; [|done]. unfold flights. rewrite H2. solve_Permutation.
Qed.

(** * What the server sees *)

Definition bytes (m : memory) (a n : Z) : list Z := (λ k, m (a + k)) <$> seqZ 0 n.

(** The compressed page with the key [k]. *)
Definition contents (s : state) (k : Z * Z) : option (list Z) :=
  p ← page_hash (pool s) !! k; a ← data p; Some (bytes (mem (zip (pool s))) a (page_zip_get_size p)).

(** The pages stay, and so do the blocks that are not in the page table, except [gone]. *)
Definition effect (gone : option (Z * nat)) (s s' : state) : Prop :=
  (∀ k, contents s' k = contents s k) ∧
  ∀ a i, (a, i) ∈ allocated s → published (pool s) a = false → Some (a, i) ≠ gone →
    (a, i) ∈ allocated s' ∧ published (pool s') a = false ∧
    bytes (mem (zip (pool s'))) a (size i) = bytes (mem (zip (pool s))) a (size i).

Lemma bytes_same m m' a i : (∀ x, inb x (a, i) = true → m' x = m x) → bytes m' a (size i) = bytes m a (size i).
Proof. intros H. apply list_fmap_ext. intros j k Hk. apply H, inb_spec. apply list_elem_of_lookup_2, elem_of_seqZ in Hk. lia. Qed.

Lemma published_false P a : published P a = false ↔ ∀ k p, page_hash P !! k = Some p → data p ≠ Some a.
Proof. unfold published. rewrite negb_false_iff, bool_decide_eq_true. done. Qed.

(** A step of a thread that does not change the page table. *)
Lemma task_step s t x y h zh st al gone :
  inv s → tasks s !! t = Some x → hok SIZES h (al ++ flights (<[t:=y]> (tasks s))) [] zh → stats_ok st al →
  (∀ b, b ∈ allocated s → Some b ≠ gone → b ∈ al ∧ ∀ z, inb z b = true → mem h z = mem (zip (pool s)) z) →
  (∀ a i, gone = Some (a, i) → published (pool s) a = false) →
  task_ok (page_hash (pool s)) y → (∀ k, task_key y = Some k → locked s k = false) →
  let s' := St (Pool h zh st (page_hash (pool s))) (<[t:=y]> (tasks s)) al in inv s' ∧ effect gone s s'.
Proof.
  intros Hi Hx Hh Hst Hal Hgone Hy Hk s'.
  assert (∀ k p a, page_hash (pool s) !! k = Some p → data p = Some a → ∃ i, (a, i) ∈ allocated s ∧ Some (a, i) ≠ gone ∧ page_zip_get_size p = size i) as Hp.
  { intros k p a Hkp Ha. destruct (proj1 (i_pages _ Hi) k p a Hkp Ha) as (i & Hin & ?). exists i. split_and!; [done| |done].
    intros Hg. symmetry in Hg. by destruct (proj1 (published_false _ _) (Hgone _ _ Hg) k p Hkp). }
  split; [split|split].
  - done.
  - done.
  - split; [|apply Hi]. intros k p a Hkp Ha. destruct (Hp k p a Hkp Ha) as (i & Hin & Hg & ?). exists i. split; [by apply Hal|done].
  - intros z Hz. cbn in *. apply list_elem_of_lookup in Hz as [t' Hz]. apply lookup_insert_inv in Hz as [[-> ->]|[_ Hz]]; [done|].
    apply Hi. by eapply list_elem_of_lookup_2.
  - cbn. unfold keys. destruct (bind_at (λ x, option_list (task_key x)) _ _ _ Hx) as (rest & H1 & H2). rewrite H2.
    pose proof (i_keys _ Hi) as Hn. unfold keys in Hn. rewrite H1 in Hn. apply NoDup_app in Hn as (_ & _ & Hn).
    destruct (task_key y) as [k|]; [|done]. cbn. constructor; [|done]. intros Hin. specialize (Hk k eq_refl).
    rewrite locked_keys, bool_decide_eq_false in Hk. apply Hk. unfold keys. rewrite H1. set_solver.
  - intros k. unfold contents. cbn. destruct (page_hash (pool s) !! k) as [p|] eqn:Hkp; [|done]. cbn.
    destruct (data p) as [a|] eqn:Ha; [|done]. cbn. f_equal. destruct (Hp k p a Hkp Ha) as (i & Hin & Hg & ->).
    apply bytes_same. by apply Hal.
  - intros a i Hin Hpub Hg. destruct (Hal _ Hin Hg) as [? Hb]. split_and!; [done|done|]. by apply bytes_same.
Qed.

(** * The steps of the threads *)

Lemma keep_all s (al : list (Z * nat)) (m' : memory) rest :
  (∀ b, b ∈ allocated s → b ∈ al) → same_blocks (allocated s ++ rest) (mem (zip (pool s))) m' →
  ∀ b, b ∈ allocated s → Some b ≠ None → b ∈ al ∧ ∀ z, inb z b = true → m' z = mem (zip (pool s)) z.
Proof. intros Hal Hs b Hb _. split; [auto|]. intros z Hz. apply (Hs b); [|done]. apply elem_of_app. by left. Qed.

Lemma count_cons a i l j : count_index j ((a, i) :: l) = count_index j l + (if (i =? j)%nat then 1 else 0).
Proof. unfold count_index. cbn [Zsum snd]. lia. Qed.

Lemma alloc_step s t sz i :
  inv s → tasks s !! t = Some TIdle → slot_of SIZES sz = Some i →
  ∃ s' y al, buf_buddy_alloc SIZES s t sz = Some s' ∧ inv s' ∧ effect None s s' ∧
    tasks s' = <[t:=y]> (tasks s) ∧ allocated s' = al ++ allocated s ∧
    (y = TFrame i ∧ al = [] ∨ y = TIdle ∧ ∃ a, al = [(a, i)]).
Proof.
  intros Hi Ht (_ & Hle & Hslot)%slot_of_some. destruct (inv_open s t _ Hi Ht) as (rest & Hh & Hclose). cbn [flight app] in Hh.
  unfold buf_buddy_alloc. rewrite Hslot. cbn [mbind option_bind]. unfold buf_buddy_alloc_low. destruct (Nat.ltb_spec i SIZES) as [Hlt|Hge].
  - destruct (alloc_zip_ok SIZES HS SIZES _ _ _ i Hh Hlt ltac:(lia)) as (h & r & -> & Hs & Hh'). cbn [mbind option_bind]. destruct r as [a|].
    + destruct (task_step s t TIdle TIdle h (zip_hash (pool s)) (count_used (buddy_stats (pool s)) i 1) ((a, i) :: allocated s) None) as [H1 H2];
        [done|done|by apply Hclose|eapply stats_step; [apply Hi|apply count_cons]|eapply keep_all; [by right|exact Hs]|done|done|done|].
      rewrite (list_insert_id _ _ _ Ht) in H1, H2. eexists _, TIdle, [(a, i)]. split; [done|]. split; [done|]. split; [done|].
      split; [by rewrite list_insert_id|]. split; [done|]. right. eauto.
    + eexists _, (TFrame i), []. split; [done|].
      destruct (task_step s t TIdle (TFrame i) h (zip_hash (pool s)) (buddy_stats (pool s)) (allocated s) None) as [H1 H2];
        [done|done|by apply Hclose|apply Hi|eapply keep_all; [done|exact Hs]|done|done|done|]. split_and!; auto.
  - eexists _, (TFrame i), []. split; [done|].
    destruct (task_step s t TIdle (TFrame i) (zip (pool s)) (zip_hash (pool s)) (buddy_stats (pool s)) (allocated s) None) as [H1 H2];
      [done|done|by apply Hclose|apply Hi|done|done|done|done|].
    destruct s as [[? ? ? ?] ? ?]. split_and!; auto.
Qed.

Lemma frame_step s t i f :
  inv s → tasks s !! t = Some (TFrame i) → f ≠ 0 → f mod size SIZES = 0 → f ∉ zip_hash (pool s) →
  ∃ s', buf_buddy_block_register SIZES s t i f = Some s' ∧ inv s' ∧ effect None s s' ∧
    tasks s' = <[t:=TFrom f i]> (tasks s) ∧ allocated s' = allocated s.
Proof.
  intros Hi Ht H0 Hm Hf. destruct (inv_open s t _ Hi Ht) as (rest & Hh & Hclose). cbn [flight app] in Hh.
  unfold buf_buddy_block_register. rewrite (proj2 (Z.eqb_neq _ _) H0), Hm. cbn [negb andb Z.eqb]. eexists. split; [done|].
  pose proof (size_min SIZES).
  destruct (task_step s t (TFrame i) (TFrom f i) (zip (pool s)) (f :: zip_hash (pool s)) (buddy_stats (pool s)) (allocated s) None) as [H1 H2];
    [done|done| |apply Hi|done|done| |done|by split_and!].
  - apply Hclose. destruct Hh as [Hok Hl]. split; [|done]. apply put_N; [|lia]. apply frame_in; [done|done|]. apply Z.mod_divide; [lia|done].
  - apply (i_tasks _ Hi (TFrame i)). by eapply list_elem_of_lookup_2.
Qed.

Lemma alloc_big_step s t f i :
  inv s → tasks s !! t = Some (TFrom f i) →
  ∃ s', alloc_big SIZES s t f i = Some s' ∧ inv s' ∧ effect None s s' ∧
    tasks s' = <[t:=TIdle]> (tasks s) ∧ allocated s' = (f, i) :: allocated s.
Proof.
  intros Hi Ht. destruct (inv_open s t _ Hi Ht) as (rest & Hh & Hclose). cbn [flight app] in Hh.
  pose proof (i_tasks _ Hi _ (list_elem_of_lookup_2 _ _ _ Ht)) as Hle. cbn in Hle. unfold alloc_big.
  destruct (alloc_from_ok SIZES HS (zip (pool s)) (allocated s ++ rest) (zip_hash (pool s)) f i) as (h & -> & Hs & Hh');
    [split; [apply take_N, Hh|apply Hh]|done|]. cbn [mbind option_bind]. eexists. split; [done|].
  destruct (task_step s t (TFrom f i) TIdle h (zip_hash (pool s)) (count_used (buddy_stats (pool s)) i 1) ((f, i) :: allocated s) None) as [H1 H2];
    [done|done|by apply Hclose|eapply stats_step; [apply Hi|apply count_cons]|eapply keep_all; [by right|exact Hs]|done|done|done|].
  by split_and!.
Qed.

Lemma free_task_ok i ph y : free_task SIZES i y → task_ok ph y ∧ task_key y = None.
Proof. destruct y; cbn; try done. intros [? ->]. split; [split; [lia|done]|done]. Qed.

Lemma free_step s t buf sz i :
  inv s → tasks s !! t = Some TIdle → slot_of SIZES sz = Some i → (buf, i) ∈ allocated s → published (pool s) buf = false →
  ∃ s' y, buf_buddy_free SIZES s t buf sz = Some s' ∧ inv s' ∧ effect (Some (buf, i)) s s' ∧
    tasks s' = <[t:=y]> (tasks s) ∧ allocated s' = block_remove (buf, i) (allocated s) ∧ free_task SIZES 0 y.
Proof.
  intros Hi Ht (_ & Hle & Hslot)%slot_of_some Hin Hpub. destruct (inv_open s t _ Hi Ht) as (rest & Hh & Hclose). cbn [flight app] in Hh.
  pose proof (block_remove_perm _ _ Hin) as Hp. unfold buf_buddy_free. rewrite Hslot. cbn [mbind option_bind]. unfold buf_buddy_free_low.
  destruct (free_recombine_ok SIZES HS (S SIZES) (zip (pool s)) (block_remove (buf, i) (allocated s) ++ rest) (zip_hash (pool s)) buf i)
    as (h & y & -> & Hy & Hs & Hh'); [|lia|].
  { eapply hok_perm; [|reflexivity|exact Hh]. rewrite Hp at 1. done. }
  cbn [mbind option_bind]. eexists _, y. split; [done|]. destruct (free_task_ok i (page_hash (pool s)) y Hy) as [Hok Hkey].
  destruct (task_step s t TIdle y h (zip_hash (pool s)) (count_used (buddy_stats (pool s)) i (-1)) (block_remove (buf, i) (allocated s)) (Some (buf, i)))
    as [H1 H2]; [done|done|by apply Hclose| | | |done|by rewrite Hkey|].
  - eapply stats_step; [apply Hi|]. intros j. rewrite (count_index_perm j _ _ Hp), count_cons. destruct (i =? j)%nat; lia.
  - intros b Hb Hne. rewrite Hp in Hb. apply elem_of_cons in Hb as [->|Hb]; [done|]. split; [done|]. intros z Hz.
    apply (Hs b); [|done]. apply elem_of_app. by left.
  - intros a j [=]. by subst.
  - split_and!; try done. destruct y; try done. cbn in *. destruct Hy as [? ->]. split; [lia|done].
Qed.

Lemma lookup_step s t buf i zip_buf buddy space offset :
  inv s → tasks s !! t = Some (TReloc buf i zip_buf buddy space offset) → locked s (space, offset) = false →
  let s' := relocate_lookup s t buf i zip_buf buddy space offset in
  inv s' ∧ effect None s s' ∧ allocated s' = allocated s ∧
  (tasks s' = <[t:=TFail buf i zip_buf]> (tasks s) ∨ tasks s' = <[t:=TLocked buf i zip_buf buddy (space, offset)]> (tasks s)).
Proof.
  intros Hi Ht Hlk s'. destruct (inv_open s t _ Hi Ht) as (rest & Hh & Hclose).
  pose proof (i_tasks _ Hi _ (list_elem_of_lookup_2 _ _ _ Ht)) as [Hlt Hb].
  assert (∀ y, flight SIZES y = [(buf, i); (zip_buf, i)] → task_ok (page_hash (pool s)) y → (∀ k, task_key y = Some k → locked s k = false) →
    let s' := St (pool s) (<[t:=y]> (tasks s)) (allocated s) in inv s' ∧ effect None s s') as Hgo.
  { intros y Hfl Hy Hk. destruct (task_step s t _ y (zip (pool s)) (zip_hash (pool s)) (buddy_stats (pool s)) (allocated s) None Hi Ht) as [H1 H2];
      [apply Hclose; by rewrite Hfl|apply Hi|done|done|done|done|]. by destruct s as [[? ? ? ?] ? ?]. }
  destruct (Hgo (TFail buf i zip_buf) eq_refl Hlt) as [H1 H2]; [done|]. unfold s', relocate_lookup.
  destruct (page_hash (pool s) !! (space, offset)) as [p|] eqn:Hp; [|by auto]. destruct (decide (data p = Some buddy)) as [Hd|]; [|by auto].
  destruct (Z.eqb_spec (page_zip_get_size p) (size i)) as [Hz|]; [|by auto].
  destruct (Hgo (TLocked buf i zip_buf buddy (space, offset)) eq_refl) as [H3 H4]; [cbn; split_and!; [done|done|by exists p]|by intros k [= <-]|]. by auto.
Qed.

Lemma failed_step s t x buf i zip_buf :
  inv s → tasks s !! t = Some x → flight SIZES x = [(buf, i); (zip_buf, i)] → (i < SIZES)%nat →
  ∃ s', relocate_failed s t buf i zip_buf = Some s' ∧ inv s' ∧ effect None s s' ∧
    tasks s' = <[t:=TIdle]> (tasks s) ∧ allocated s' = allocated s.
Proof.
  intros Hi Ht Hfl Hlt. destruct (inv_open s t _ Hi Ht) as (rest & Hh & Hclose). rewrite Hfl in Hh. cbn [app] in Hh.
  unfold relocate_failed. destruct (add_to_free_ok SIZES HS (zip (pool s)) ((buf, i) :: allocated s ++ rest) [] (zip_hash (pool s)) zip_buf i)
    as (h1 & -> & Hh1 & Hs1); [|done|].
  { split; [|apply Hh]. apply take_N. eapply hok_perm; [|reflexivity|exact Hh]. constructor. }
  cbn [mbind option_bind]. destruct (add_to_free_ok SIZES HS h1 (allocated s ++ rest) [] (zip_hash (pool s)) buf i) as (h2 & -> & Hh2 & Hs2);
    [split; [apply take_N, Hh1|apply Hh1]|done|]. cbn [mbind option_bind]. eexists. split; [done|].
  destruct (task_step s t x TIdle h2 (zip_hash (pool s)) (buddy_stats (pool s)) (allocated s) None) as [H1 H2];
    [done|done|by apply Hclose|apply Hi| |done|done|done|by split_and!].
  eapply keep_all; [done|]. etrans; (eapply same_blocks_mono; [|first [exact Hs1|exact Hs2]]); intros b Hb; rewrite app_nil_r; [by right|exact Hb].
Qed.

Lemma block_free_step s t f :
  inv s → tasks s !! t = Some (TUnreg f) →
  ∃ s', buf_buddy_block_free SIZES s t f = Some s' ∧ inv s' ∧ effect None s s' ∧
    tasks s' = <[t:=TIdle]> (tasks s) ∧ allocated s' = allocated s.
Proof.
  intros Hi Ht. destruct (inv_open s t _ Hi Ht) as (rest & [Hok Hl] & Hclose). cbn [flight app] in Hok.
  assert ((f, SIZES) ∈ free_blocks 0 (zip_free (zip (pool s))) ++ ((f, SIZES) :: allocated s ++ rest) ++ []) as Hin by set_solver.
  destruct (o_align _ _ _ _ _ _ Hok f SIZES Hin) as [_ Hd]. pose proof (size_min SIZES).
  destruct (list_remove_spec f (zip_hash (pool s))) as (z & Hz & Hp); [by eapply whole_frame|].
  unfold buf_buddy_block_free. rewrite (proj2 (Z.mod_divide f (size SIZES) ltac:(lia)) Hd), Hz. cbn [Z.eqb mbind option_bind].
  eexists. split; [done|].
  destruct (task_step s t (TUnreg f) TIdle (zip (pool s)) z (buddy_stats (pool s)) (allocated s) None) as [H1 H2];
    [done|done| |apply Hi|done|done|done|done|by split_and!].
  apply Hclose. split; [|done]. eapply frame_out; [apply take_N, Hok|done].
Qed.

(** * Moving a page *)

(** The block of a page, and that no page is in a block that a thread holds. *)
Lemma page_block s k p a i :
  inv s → page_hash (pool s) !! k = Some p → data p = Some a → page_zip_get_size p = size i → (a, i) ∈ allocated s.
Proof. intros Hi Hk Ha Hz. destruct (proj1 (i_pages _ Hi) k p a Hk Ha) as (j & Hj & Hz'). by rewrite (size_inj i j) by congruence. Qed.

Lemma flight_unpublished s t x a i :
  inv s → tasks s !! t = Some x → (a, i) ∈ flight SIZES x → published (pool s) a = false ∧ ∀ j, (a, j) ∉ allocated s.
Proof.
  intros Hi Ht Hin. destruct (inv_open s t x Hi Ht) as (rest & [Hok _] & _).
  assert (∀ j, (a, j) ∉ allocated s) as Hno.
  { intros j Hj. apply elem_of_Permutation in Hin as [l1 H1]. apply elem_of_Permutation in Hj as [l2 H2].
    pose proof (size_min i). pose proof (size_min j).
    eapply (ok_disjoint _ _ _ _ _ _ (a, i) (a, j) (free_blocks 0 (zip_free (zip (pool s))) ++ l1 ++ l2 ++ rest) a Hok);
      [|apply inb_spec; lia|apply inb_spec; lia]. rewrite H1, H2. solve_Permutation. }
  split; [|done]. apply published_false. intros k p Hk Ha. destruct (proj1 (i_pages _ Hi) k p a Hk Ha) as (j & Hj & _). by apply (Hno j).
Qed.

Lemma copy_block h N fr buf i zip_buf buddy A (m := mem h) (h1 := Heap (memcpy m zip_buf buddy (size i)) (zip_free h)) :
  N ≡ₚ (buf, i) :: (zip_buf, i) :: (buddy, i) :: A → hok SIZES h N [] fr → (i < SIZES)%nat →
  hok SIZES h1 ((buf, i) :: (buddy, i) :: (zip_buf, i) :: A) [] fr ∧ same_blocks A m (mem h1) ∧
  ∀ z, 0 ≤ z < size i → mem h1 (zip_buf + z) = m (buddy + z).
Proof.
  intros Hp Hh Hlt. destruct (memcpy_spec m zip_buf buddy i) as [Honly Hcopy].
  assert (hok SIZES h ((zip_buf, i) :: (buf, i) :: (buddy, i) :: A) [] fr) as [Hok Hl].
  { eapply hok_perm; [|reflexivity|exact Hh]. rewrite Hp. solve_Permutation. }
  pose proof (o_used _ _ _ _ _ _ Hok buddy i ltac:(set_solver) Hlt) as Hst. apply take_N in Hok.
  pose proof (only_same _ _ _ _ _ _ _ _ _ Hok Honly) as Hs. split_and!.
  - apply (hok_perm _ _ ((zip_buf, i) :: (buf, i) :: (buddy, i) :: A) _ []); [solve_Permutation|done|].
    split; [|done]. apply put_N; [by eapply write_R|]. intros _. unfold h1. cbn [mem]. unfold buf_buddy_stamp_is_free in *. rewrite <- Hst. f_equal. unfold BUF_BUDDY_STAMP_OFFSET, FIL_PAGE_ARCH_LOG_NO_OR_SPACE_ID.
    unfold mach_read_from_4. rewrite <- !Z.add_assoc. pose proof (size_min i). by rewrite !Hcopy by lia.
  - eapply same_blocks_mono; [|exact Hs]. set_solver.
  - exact Hcopy.
Qed.

(** The pages and the other blocks after a page has moved from [buddy] to [zip_buf]. *)
Lemma moved_pages s s' A i zip_buf buddy k p (m := mem (zip (pool s))) (m' := mem (zip (pool s'))) :
  inv s → page_hash (pool s) !! k = Some p → data p = Some buddy → page_zip_get_size p = size i →
  page_hash (pool s') = <[k:=BPage (Some zip_buf) (ssize p) (io_fix p) (buf_fix_count p)]> (page_hash (pool s)) →
  allocated s ≡ₚ (buddy, i) :: A → allocated s' = (zip_buf, i) :: A →
  published (pool s) zip_buf = false → (∀ j, (zip_buf, j) ∉ allocated s) →
  same_blocks A m m' → (∀ z, 0 ≤ z < size i → m' (zip_buf + z) = m (buddy + z)) →
  pages_ok (page_hash (pool s')) (allocated s') ∧ effect None s s'.
Proof.
  intros Hi Hk Hd Hz Hph Hp Hal Hpub Hno Hs Hc.
  assert (∀ k' p' a, k' ≠ k → page_hash (pool s) !! k' = Some p' → data p' = Some a → ∃ j, (a, j) ∈ A ∧ page_zip_get_size p' = size j) as Hother.
  { intros k' p' a Hne Hk' Ha. destruct (proj1 (i_pages _ Hi) k' p' a Hk' Ha) as (j & Hj & ?). exists j. split; [|done].
    rewrite Hp in Hj. apply elem_of_cons in Hj as [?|?]; [|done]. simplify_eq. destruct Hne. by eapply (proj2 (i_pages _ Hi)). }
  assert (∀ k' p' , k' ≠ k → page_hash (pool s) !! k' = Some p' → data p' ≠ Some zip_buf) as Hzip.
  { intros k' p' _ Hk'. by eapply (proj1 (published_false _ _)). }
  split; [split|split].
  - intros k' p' a Hk' Ha. rewrite Hph in Hk'. rewrite Hal. apply lookup_insert_Some in Hk' as [[<- <-]|[Hne Hk']]; cbn in *.
    + simplify_eq. exists i. split; [by left|done].
    + destruct (Hother k' p' a) as (j & ? & ?); [done|done|done|]. exists j. split; [by right|done].
  - intros k1 k2 p1 p2 a H1 H2 Ha1 Ha2. rewrite Hph in H1, H2.
    apply lookup_insert_Some in H1 as [[<- <-]|[Hn1 H1]]; apply lookup_insert_Some in H2 as [[<- <-]|[Hn2 H2]]; cbn in *; simplify_eq; try done.
    + by destruct (Hzip k2 p2).
    + by destruct (Hzip k1 p1).
    + by eapply (proj2 (i_pages _ Hi)).
  - intros k'. unfold contents. rewrite Hph. destruct (decide (k = k')) as [<-|Hne].
    + rewrite lookup_insert_eq, Hk. cbn [mbind option_bind data]. rewrite Hd. cbn [mbind option_bind]. f_equal.
      change (page_zip_get_size (BPage _ _ _ _)) with (page_zip_get_size p). rewrite Hz. apply list_fmap_ext.
      intros j z Hj%list_elem_of_lookup_2%elem_of_seqZ. apply Hc. lia.
    + rewrite lookup_insert_ne by done. destruct (page_hash (pool s) !! k') as [p'|] eqn:Hk'; [|done]. cbn [mbind option_bind].
      destruct (data p') as [a|] eqn:Ha; [|done]. cbn [mbind option_bind]. f_equal.
      destruct (Hother k' p' a) as (j & Hj & ->); [done|done|done|]. apply bytes_same. intros x. by apply (Hs (a, j)).
  - intros a j Hj Ha _. assert (a ≠ buddy) as Hne by (intros ->; by eapply (proj1 (published_false _ _) Ha)).
    assert ((a, j) ∈ A) as HjA by (rewrite Hp in Hj; apply elem_of_cons in Hj as [?|?]; [by simplify_eq|done]).
    split_and!; [rewrite Hal; by right| |apply bytes_same; intros x; by apply (Hs (a, j))].
    apply published_false. intros k' p' Hk'. rewrite Hph in Hk'. apply lookup_insert_Some in Hk' as [[<- <-]|[_ Hk']].
    + cbn. intros [= ->]. by apply (Hno j).
    + by eapply (proj1 (published_false _ _) Ha).
Qed.

(** The threads after a step of thread [t], which held the lock for [k], that changes the page of [k]. *)
Lemma unlocked_tasks s t buf i zip_buf buddy k y p' :
  inv s → tasks s !! t = Some (TLocked buf i zip_buf buddy k) → (∀ ph, task_ok ph y) → task_key y = None →
  (∀ x, x ∈ <[t:=y]> (tasks s) → task_ok (<[k:=p']> (page_hash (pool s))) x) ∧ NoDup (keys (<[t:=y]> (tasks s))).
Proof.
  intros Hi Ht Hy Hkey. destruct (bind_at (λ x, option_list (task_key x)) _ _ _ Ht) as (rest & H1 & H2).
  pose proof (i_keys _ Hi) as Hn. unfold keys in *. rewrite H1 in Hn. cbn in Hn. apply NoDup_cons in Hn as [Hk Hn].
  specialize (H2 y). rewrite Hkey in H2. cbn in H2. split; [|by rewrite H2].
  intros x Hx. pose proof Hx as Hx'. apply list_elem_of_lookup in Hx as [t' Hx]. apply lookup_insert_inv in Hx as [[_ ->]|[_ Hx]]; [apply Hy|].
  pose proof (i_tasks _ Hi x (list_elem_of_lookup_2 _ _ _ Hx)) as Hok. destruct x as [| | | |buf' i' z' b' k'| |]; try done. cbn in *.
  destruct Hok as (? & ? & p & ? & ? & ?). split_and!; [done|done|]. exists p. rewrite lookup_insert_ne; [by split_and!|].
  intros <-. destruct Hk. rewrite <- H2. apply list_elem_of_bind. exists (TLocked buf' i' z' b' k). split; [by left|done].
Qed.

Lemma relocate_step s t buf i zip_buf buddy k :
  inv s → tasks s !! t = Some (TLocked buf i zip_buf buddy k) →
  ∃ s' y, relocate_page SIZES s t buf i zip_buf buddy k = Some s' ∧ inv s' ∧ effect None s s' ∧
    tasks s' = <[t:=y]> (tasks s) ∧ free_task SIZES (S i) y.
Proof.
  intros Hi Ht. pose proof (i_tasks _ Hi _ (list_elem_of_lookup_2 _ _ _ Ht)) as (Hlt & Hb & p & Hp & Hd & Hz).
  unfold relocate_page. rewrite Hp. cbn [mbind option_bind]. destruct (buf_page_can_relocate p).
  2: { destruct (failed_step s t _ buf i zip_buf Hi Ht eq_refl Hlt) as (s' & ? & ? & ? & ? & _). by exists s', TIdle. }
  rewrite decide_True by done. destruct (inv_open s t _ Hi Ht) as (rest & Hh & Hclose). cbn [flight app] in Hh.
  pose proof (page_block s k p buddy i Hi Hp Hd Hz) as Hin. pose proof (block_remove_perm _ _ Hin) as Hperm.
  set (A := block_remove (buddy, i) (allocated s)) in *.
  destruct (copy_block (zip (pool s)) ((buf, i) :: (zip_buf, i) :: allocated s ++ rest) (zip_hash (pool s)) buf i zip_buf buddy (A ++ rest) ltac:(rewrite Hperm; done) Hh Hlt) as (Hh1 & Hs1 & Hc).
  epose proof (merge_used SIZES HS _ _ _ buf i) as Hm. rewrite <- Hb in Hm. specialize (Hm Hh1 Hlt).
  destruct (free_recombine_ok SIZES HS (S SIZES) _ _ _ _ _ Hm ltac:(lia)) as (h & y & -> & Hy & Hs2 & Hh2). cbn [mbind option_bind].
  eexists _, y. split; [done|]. rewrite Nat.add_1_r in Hy.
  set (s' := St _ _ _). destruct (flight_unpublished s t _ zip_buf i Hi Ht ltac:(cbn; set_solver)) as [Hpub Hno].
  destruct (moved_pages s s' A i zip_buf buddy k p) as [Hpages Heff]; try done.
  { etrans; (eapply same_blocks_mono; [|first [exact Hs1|exact Hs2]]); intros b ?; set_solver. }
  { intros z Hzz. rewrite <- Hc by done. apply (Hs2 (zip_buf, i)); [by left|]. apply inb_spec. lia. }
  destruct (unlocked_tasks s t buf i zip_buf buddy k y (BPage (Some zip_buf) (ssize p) (io_fix p) (buf_fix_count p))) as [Htk Hkeys];
    [done|done|intros ph; by eapply free_task_ok|by eapply (free_task_ok _ ∅)|].
  split_and!; [split|done|done|done]; [by apply Hclose| |done|done|done].
  intros j Hj. change (used <$> count_relocated (buddy_stats (pool s)) i !! j = Some (u64 (count_index j ((zip_buf, i) :: A)))).
  rewrite count_cons, <- (count_cons buddy), <- (count_index_perm j _ _ Hperm).
  by apply (stats_relocated (buddy_stats (pool s)) (allocated s) (allocated s) i (i_stats _ Hi)).
Qed.

(** * The steps of the server *)

Definition overwrite (bs b : list Z) : list Z := bs ++ drop (length bs) b.

(** What the pages of the page table are after an operation, and what a block that is not in
    the page table is. *)
Definition page_spec (l : label) (s : state) (c : Z * Z → option (list Z)) (k : Z * Z) : option (list Z) :=
  match l with
  | Publish k' p =>
      if decide (k = k') then a ← data p; Some (bytes (mem (zip (pool s))) a (page_zip_get_size p)) else c k
  | Unpublish k' => if decide (k = k') then None else c k
  | WritePage k' bs => if decide (k = k') then overwrite bs <$> c k else c k
  | _ => c k
  end.
Definition block_spec (l : label) (a : Z) (b : list Z) : list Z :=
  match l with WriteBlock a' _ bs => if a =? a' then overwrite bs b else b | _ => b end.
Definition frees (l : label) (a : Z) : bool := match l with Free _ b _ => b =? a | _ => false end.

Definition refines (l : label) (s s' : state) : Prop :=
  (∀ k, contents s' k = page_spec l s (contents s) k) ∧
  ∀ a i, (a, i) ∈ allocated s → published (pool s) a = false → frees l a = false →
    (a, i) ∈ allocated s' ∧ bytes (mem (zip (pool s'))) a (size i) = block_spec l a (bytes (mem (zip (pool s))) a (size i)).

Lemma effect_refines l gone s s' :
  effect gone s s' → (∀ c k, page_spec l s c k = c k) → (∀ a b, block_spec l a b = b) →
  (∀ a i, gone = Some (a, i) → frees l a = true) → refines l s s'.
Proof.
  intros [Hc Ha] Hp Hb Hg. split; [intros k; by rewrite Hp|]. intros a i Hin Hpub Hf. rewrite Hb.
  destruct (Ha a i Hin Hpub) as (? & _ & ?); [|done]. intros Heq. symmetry in Heq. by rewrite (Hg _ _ Heq) in Hf.
Qed.

Lemma bytes_lookup m a n (j : nat) : bytes m a n !! j = if Z.of_nat j <? n then Some (m (a + Z.of_nat j)) else None.
Proof.
  unfold bytes. rewrite list_lookup_fmap. destruct (Z.ltb_spec (Z.of_nat j) n) as [H|H].
  - rewrite lookup_seqZ_lt by lia. cbn. done.
  - by rewrite lookup_seqZ_ge by lia.
Qed.

Lemma bytes_store m a bs n : Z.of_nat (length bs) ≤ n → bytes (store m a bs) a n = overwrite bs (bytes m a n).
Proof.
  intros Hl. apply list_eq. intros j. unfold overwrite. rewrite bytes_lookup. destruct (decide (j < length bs)%nat) as [Hj|Hj].
  - rewrite lookup_app_l, (proj2 (Z.ltb_lt _ _)), store_at by lia. destruct (lookup_lt_is_Some_2 bs j Hj) as [v Hv].
    rewrite Hv. f_equal. by apply nth_lookup_Some.
  - rewrite lookup_app_r, lookup_drop, bytes_lookup, Nat.add_comm, Nat.sub_add by lia. by rewrite store_out by lia.
Qed.

Lemma store_block_only m a i bs : Z.of_nat (length bs) ≤ size i → only a i m (store m a bs).
Proof. intros H. rewrite <- (Z.add_0_r a) at 2. apply store_only; lia. Qed.

(** Writing into an allocated block. *)
Lemma write_block_inv s a i m' :
  inv s → (a, i) ∈ allocated s → only a i (mem (zip (pool s))) m' → buf_buddy_stamp_is_free m' a = false →
  inv (set_mem s m') ∧ ∀ b x, b ∈ allocated s → b ≠ (a, i) → inb x b = true → m' x = mem (zip (pool s)) x.
Proof.
  intros Hi Hin Ho Hst. pose proof (block_remove_perm _ _ Hin) as Hp. set (A := block_remove _ _) in *.
  destruct (i_heap _ Hi) as [Hok Hl]. eapply ok_perm in Hok; [|reflexivity|by rewrite Hp|reflexivity]. cbn [app] in Hok. apply take_N in Hok.
  split.
  - split; try apply Hi. split; [|done]. cbn [set_mem with_pool pool zip zip_free mem allocated tasks].
    eapply ok_perm; [reflexivity| |reflexivity|apply put_N; [eapply write_R; [exact Hok|exact Ho]|done]]. by rewrite Hp.
  - intros b x Hb Hne Hx. rewrite Hp in Hb. apply elem_of_cons in Hb as [->|Hb]; [done|].
    apply (only_same _ _ _ _ _ _ _ _ _ Hok Ho b); [|done]. set_solver.
Qed.

Lemma write_other_inv s x v :
  inv s → forallb (λ f, negb (in_frame SIZES x f)) (zip_hash (pool s)) = true →
  let m' := store (mem (zip (pool s))) x [v] in inv (set_mem s m') ∧ effect None s (set_mem s m').
Proof.
  intros Hi Hx m'. destruct (i_heap _ Hi) as [Hok Hl].
  assert (same_blocks (free_blocks 0 (zip_free (zip (pool s))) ++ allocated s ++ flights (tasks s)) (mem (zip (pool s))) m') as Hs.
  { intros b z Hb Hz. apply store_out. intros Heq. cbn in Heq. assert (z = x) as -> by lia.
    assert (b ∈ free_blocks 0 (zip_free (zip (pool s))) ++ (allocated s ++ flights (tasks s)) ++ []) as Hb' by (by rewrite app_nil_r).
    pose proof (cover_elem _ _ _ Hb' Hz) as Hc. rewrite (o_cover _ _ _ _ _ _ Hok) in Hc.
    destruct (cover_pos _ _ (Z.lt_le_trans 0 1 _ Z.lt_0_1 Hc)) as ([f j] & (f' & Heq' & Hf)%list_elem_of_fmap & Hfx). simplify_eq.
    rewrite forallb_forall in Hx. specialize (Hx f' (proj1 (list_elem_of_In _ _) Hf)). unfold in_frame, inb in *. cbn [fst snd] in Hfx.
    by rewrite Hfx in Hx. }
  split.
  - split; try apply Hi. split; [|done]. cbn [set_mem with_pool pool zip zip_free mem allocated tasks zip_hash].
    eapply write_same; [exact Hok|exact Hs].
  - split.
    + intros k. unfold contents. cbn [set_mem with_pool pool zip mem page_hash].
      destruct (page_hash (pool s) !! k) as [p|] eqn:Hk; [|done]. cbn [mbind option_bind]. destruct (data p) as [a|] eqn:Ha; [|done].
      cbn [mbind option_bind]. f_equal. destruct (proj1 (i_pages _ Hi) k p a Hk Ha) as (i & Hin & ->). apply bytes_same. intros z. apply Hs. set_solver.
    + intros a i Hin Hp _. split_and!; [done|done|]. apply bytes_same. intros z. apply Hs. set_solver.
Qed.

(** Changing the page table. *)
Lemma set_pages_inv s ph :
  inv s → pages_ok ph (allocated s) → (∀ x k p, x ∈ tasks s → task_key x = Some k → page_hash (pool s) !! k = Some p →
    ∃ p', ph !! k = Some p' ∧ data p' = data p ∧ ssize p' = ssize p) → inv (set_pages s ph).
Proof.
  intros Hi Hp Ht. split; try apply Hi; [done|]. intros x Hx. pose proof (i_tasks _ Hi x Hx) as Hok. cbn in *.
  destruct x as [| | | |buf i z b k| |]; try done. cbn in *. destruct Hok as (? & ? & p & Hk & Hd & Hz). split_and!; [done|done|].
  destruct (Ht _ k p Hx eq_refl Hk) as (p' & ? & Hd' & Hz'). exists p'. rewrite Hd'. unfold page_zip_get_size. rewrite Hz'. done.
Qed.

Lemma task_key_locked s x k : x ∈ tasks s → task_key x = Some k → locked s k = true.
Proof. intros Hx Hk. apply bool_decide_eq_true. rewrite <- Hk. by apply list_elem_of_fmap_2. Qed.

Lemma publish_step s k p :
  inv s → enabled SIZES (Publish k p) s = true →
  let s' := set_pages s (<[k:=p]> (page_hash (pool s))) in inv s' ∧ refines (Publish k p) s s'.
Proof.
  intros Hi Hen s'. cbn [enabled] in Hen. apply andb_true_iff in Hen as [Hk%bool_decide_eq_true Hd].
  assert (∀ a, data p = Some a → ∃ i, (a, i) ∈ allocated s ∧ page_zip_get_size p = size i ∧ published (pool s) a = false) as Hdat.
  { intros a Ha. rewrite Ha in Hd. destruct (slot_of SIZES _) as [i|] eqn:Hs; [|done]. apply andb_true_iff in Hd as [?%bool_decide_eq_true ?%negb_true_iff].
    exists i. apply slot_of_some in Hs as (? & _). by split_and!. }
  split; [apply set_pages_inv; [done|split|]|split].
  - intros k' p' a Hk' Ha. apply lookup_insert_Some in Hk' as [[<- <-]|[_ Hk']]; [destruct (Hdat a Ha) as (i & ? & ? & _); eauto|].
    by eapply (proj1 (i_pages _ Hi)).
  - intros k1 k2 p1 p2 a H1 H2 Ha1 Ha2.
    apply lookup_insert_Some in H1 as [[<- <-]|[Hn1 H1]]; apply lookup_insert_Some in H2 as [[<- <-]|[Hn2 H2]]; try done.
    + destruct (Hdat a Ha1) as (_ & _ & _ & Hp). by destruct (proj1 (published_false _ _) Hp _ _ H2).
    + destruct (Hdat a Ha2) as (_ & _ & _ & Hp). by destruct (proj1 (published_false _ _) Hp _ _ H1).
    + by eapply (proj2 (i_pages _ Hi)).
  - intros x k' p' _ _ Hk'. exists p'. rewrite lookup_insert_ne by congruence. done.
  - intros k'. unfold contents. cbn. destruct (decide (k' = k)) as [->|Hne]; [by rewrite lookup_insert_eq|by rewrite lookup_insert_ne].
  - done.
Qed.

Lemma unpublish_step s k :
  inv s → locked s k = false → let s' := set_pages s (delete k (page_hash (pool s))) in inv s' ∧ refines (Unpublish k) s s'.
Proof.
  intros Hi Hl s'. split; [apply set_pages_inv; [done|split|]|split].
  - intros k' p a [_ Hk']%lookup_delete_Some. by eapply (proj1 (i_pages _ Hi)).
  - intros k1 k2 p1 p2 a [_ H1]%lookup_delete_Some [_ H2]%lookup_delete_Some. by eapply (proj2 (i_pages _ Hi)).
  - intros x k' p Hx Hk Hp. exists p. rewrite lookup_delete_ne; [done|]. intros <-. by rewrite (task_key_locked s x k) in Hl.
  - intros k'. unfold contents. cbn. destruct (decide (k' = k)) as [->|Hne]; [by rewrite lookup_delete_eq|by rewrite lookup_delete_ne].
  - done.
Qed.

Lemma fix_step s k p io n :
  inv s → page_hash (pool s) !! k = Some p →
  let s' := set_pages s (<[k:=BPage (data p) (ssize p) io n]> (page_hash (pool s))) in inv s' ∧ refines (Fix k io n) s s'.
Proof.
  intros Hi Hk s'. set (q := BPage (data p) (ssize p) io n) in *.
  assert (∀ k' p', <[k:=q]> (page_hash (pool s)) !! k' = Some p' → ∃ p0, page_hash (pool s) !! k' = Some p0 ∧ data p' = data p0 ∧ ssize p' = ssize p0) as Hq.
  { intros k' p' [[<- <-]|[_ ?]]%lookup_insert_Some; [by exists p|by exists p']. }
  split; [apply set_pages_inv; [done|split|]|split].
  - intros k' p' a (p0 & Hp0 & Hd & Hz)%Hq Ha. unfold page_zip_get_size. rewrite Hz. rewrite Hd in Ha. by eapply (proj1 (i_pages _ Hi)).
  - intros k1 k2 p1 p2 a (q1 & H1 & -> & _)%Hq (q2 & H2 & -> & _)%Hq. by eapply (proj2 (i_pages _ Hi)).
  - intros x k' p' _ _ Hp'. destruct (decide (k = k')) as [<-|Hne]; [|exists p'; by rewrite lookup_insert_ne]. exists q. rewrite lookup_insert_eq. by simplify_eq.
  - intros k'. unfold contents. cbn. destruct (decide (k = k')) as [<-|Hne]; [by rewrite lookup_insert_eq, Hk|by rewrite lookup_insert_ne].
  - done.
Qed.

Lemma write_page_step s k bs :
  inv s → enabled SIZES (WritePage k bs) s = true →
  ∃ s', do_op SIZES (WritePage k bs) s = Some s' ∧ inv s' ∧ refines (WritePage k bs) s s'.
Proof.
  intros Hi Hen. cbn [enabled do_op] in *. destruct (page_hash (pool s) !! k) as [p|] eqn:Hk; [|done]. cbn [mbind option_bind].
  destruct (data p) as [a|] eqn:Ha; [|done]. cbn [mbind option_bind]. rewrite !andb_true_iff in Hen. destruct Hen as [[_ Hl%Z.leb_le] Hst%negb_true_iff].
  destruct (proj1 (i_pages _ Hi) k p a Hk Ha) as (i & Hin & Hz). rewrite Hz in Hl. eexists. split; [done|].
  destruct (write_block_inv s a i (store (mem (zip (pool s))) a bs) Hi Hin (store_block_only _ _ _ _ Hl) Hst) as [H1 H2].
  split; [done|]. split.
  - intros k'. unfold contents. cbn. destruct (decide (k' = k)) as [->|Hne].
    + rewrite Hk. cbn. rewrite Ha. cbn. by rewrite Hz, bytes_store.
    + destruct (page_hash (pool s) !! k') as [p'|] eqn:Hk'; [|done]. cbn. destruct (data p') as [a'|] eqn:Ha'; [|done]. cbn. f_equal.
      destruct (proj1 (i_pages _ Hi) k' p' a' Hk' Ha') as (i' & Hin' & ->). apply bytes_same. intros x. apply (H2 (a', i')); [done|].
      intros [= -> ->]. destruct Hne. by eapply (proj2 (i_pages _ Hi)).
  - intros a' i' Hin' Hp _. split; [done|]. cbn. apply bytes_same. intros x. apply (H2 (a', i')); [done|]. intros [= -> ->].
    by destruct (proj1 (published_false _ _) Hp _ _ Hk).
Qed.

Lemma write_block_step s a i bs :
  inv s → enabled SIZES (WriteBlock a i bs) s = true →
  ∃ s', do_op SIZES (WriteBlock a i bs) s = Some s' ∧ inv s' ∧ refines (WriteBlock a i bs) s s'.
Proof.
  intros Hi Hen. cbn [enabled do_op] in *. rewrite !andb_true_iff in Hen.
  destruct Hen as [[[Hin%bool_decide_eq_true Hp%negb_true_iff] Hl%Z.leb_le] Hst%negb_true_iff]. eexists. split; [done|].
  destruct (write_block_inv s a i (store (mem (zip (pool s))) a bs) Hi Hin (store_block_only _ _ _ _ Hl) Hst) as [H1 H2].
  split; [done|]. split.
  - intros k. unfold contents. cbn. destruct (page_hash (pool s) !! k) as [p|] eqn:Hk; [|done]. cbn. destruct (data p) as [a'|] eqn:Ha; [|done]. cbn. f_equal.
    destruct (proj1 (i_pages _ Hi) k p a' Hk Ha) as (i' & Hin' & ->). apply bytes_same. intros x. apply (H2 (a', i')); [done|]. intros [= -> ->].
    by destruct (proj1 (published_false _ _) Hp _ _ Hk).
  - intros a' i' Hin' Hp' _. split; [done|]. cbn. destruct (decide ((a', i') = (a, i))) as [[= -> ->]|Hne].
    + rewrite Z.eqb_refl. by apply bytes_store.
    + destruct (Z.eqb_spec a' a) as [->|_]; [|apply bytes_same; intros x; by apply (H2 (a', i'))]. exfalso.
      destruct (two_perm _ _ _ Hin' Hin Hne) as [l Hpm]. destruct (i_heap _ Hi) as [Hok _]. pose proof (size_min i). pose proof (size_min i').
      eapply (ok_disjoint _ _ _ _ _ _ (a, i') (a, i) (free_blocks 0 (zip_free (zip (pool s))) ++ l ++ flights (tasks s)) a Hok);
        [rewrite Hpm; solve_Permutation|apply inb_spec; lia|apply inb_spec; lia].
Qed.

(** * All steps *)

(** How many steps an operation has left at most. *)
Definition rank (x : task) : nat :=
  match x with
  | TIdle => 0
  | TFrame _ => 2
  | TFrom _ _ | TFail _ _ _ | TUnreg _ => 1
  | TReloc _ i _ _ _ _ => 2 * (SIZES - i) + 2
  | TLocked _ i _ _ _ => 2 * (SIZES - i) + 1
  end.

(** The thread a step belongs to; with [true] it goes on with an operation. *)
Definition thread_of (l : label) : option (nat * bool) :=
  match l with Alloc t _ | Free t _ _ => Some (t, false) | Frame t _ | Run t => Some (t, true) | _ => None end.

Definition progress (l : label) (s s' : state) : Prop :=
  match thread_of l with
  | Some (t, b) => ∃ x y, tasks s !! t = Some x ∧ tasks s' = <[t:=y]> (tasks s) ∧ if b then (rank y < rank x)%nat else x = TIdle
  | None => tasks s' = tasks s
  end.

Lemma free_task_rank i y : (i < SIZES)%nat → free_task SIZES (S i) y → (rank y < 2 * (SIZES - i) + 1)%nat.
Proof. destruct y; cbn; try done; lia. Qed.

Lemma idle_true s t : idle s t = true → tasks s !! t = Some TIdle.
Proof. unfold idle. by destruct (tasks s !! t) as [[]|]. Qed.

Lemma run_ok s t :
  inv s → enabled SIZES (Run t) s = true →
  ∃ s', do_op SIZES (Run t) s = Some s' ∧ inv s' ∧ refines (Run t) s s' ∧ progress (Run t) s s'.
Proof.
  intros Hi Hen. cbn [enabled do_op] in *. unfold progress. cbn [thread_of].
  assert (∀ s', effect None s s' → refines (Run t) s s') as Href by (intros s' He; by eapply effect_refines).
  destruct (tasks s !! t) as [x|] eqn:Ht; [|done]. pose proof (i_tasks _ Hi _ (list_elem_of_lookup_2 _ _ _ Ht)) as Hok. destruct x as [| |f i|buf i z b sp o|buf i z b k|buf i z|f]; try done.
  - destruct (alloc_big_step s t f i Hi Ht) as (s' & -> & ? & ? & Hts & _). exists s'. split_and!; [done|done|by apply Href|]. eexists _, TIdle. split_and!; [done|done|cbn; lia].
  - apply negb_true_iff in Hen. destruct (lookup_step s t buf i z b sp o Hi Ht Hen) as (? & ? & _ & [Hts|Hts]); eexists; (split; [done|]);
      (split_and!; [done|by apply Href|]); rewrite Hts; eexists _, _; (split_and!; [done|done|cbn; lia]).
  - destruct (relocate_step s t buf i z b k Hi Ht) as (s' & y & -> & ? & ? & Hts & Hy). exists s'. split_and!; [done|done|by apply Href|].
    eexists _, y. split_and!; [done|done|]. destruct Hok as [Hlt _]. by apply (free_task_rank i y).
  - destruct (failed_step s t _ buf i z Hi Ht eq_refl Hok) as (s' & -> & ? & ? & Hts & _). exists s'. split_and!; [done|done|by apply Href|]. eexists _, TIdle. split_and!; [done|done|cbn; lia].
  - destruct (block_free_step s t f Hi Ht) as (s' & -> & ? & ? & Hts & _). exists s'. split_and!; [done|done|by apply Href|]. eexists _, TIdle. split_and!; [done|done|cbn; lia].
Qed.

Lemma buddy_step_ok l s :
  inv s → enabled SIZES l s = true →
  ∃ s', do_op SIZES l s = Some s' ∧ inv s' ∧ refines l s s' ∧ progress l s s'.
Proof.
  intros Hi Hen. destruct l as [t sz|t buf sz|t f|t|k p|k|k io n|k bs|a i bs|x v]; [| | |by apply run_ok| | | | | |]; unfold progress; cbn [thread_of].
  - cbn [enabled] in Hen. apply andb_true_iff in Hen as [Ht%idle_true [i Hs]%bool_decide_eq_true].
    destruct (alloc_step s t sz i Hi Ht Hs) as (s' & y & al & ? & ? & ? & Hts & _). exists s'. split_and!; [done|done|by eapply effect_refines|]. by exists TIdle, y.
  - cbn [enabled] in Hen. apply andb_true_iff in Hen as [Ht%idle_true Hb]. destruct (slot_of SIZES sz) as [i|] eqn:Hs; [|done].
    apply andb_true_iff in Hb as [Hin%bool_decide_eq_true Hp%negb_true_iff].
    destruct (free_step s t buf sz i Hi Ht Hs Hin Hp) as (s' & y & ? & ? & ? & Hts & _). exists s'. split_and!; [done|done| |by exists TIdle, y].
    eapply effect_refines; [done|done|done|]. intros a j [= <- <-]. cbn. apply Z.eqb_refl.
  - cbn [enabled do_op] in *. destruct (tasks s !! t) as [[| i| | | | |]|] eqn:Ht; try done. rewrite !andb_true_iff in Hen.
    destruct Hen as [[Hf%negb_true_iff%Z.eqb_neq Hm%Z.eqb_eq] Hn%bool_decide_eq_true].
    destruct (frame_step s t i f Hi Ht Hf Hm Hn) as (s' & -> & ? & ? & Hts & _). exists s'. split_and!; [done|done|by eapply effect_refines|].
    eexists _, _. split_and!; [done|done|cbn; lia].
  - destruct (publish_step s k p Hi Hen). eexists. split_and!; [done|done|done|done].
  - cbn [enabled] in Hen. apply andb_true_iff in Hen as [_ Hl%negb_true_iff]. destruct (unpublish_step s k Hi Hl). eexists. split_and!; [done|done|done|done].
  - cbn [enabled do_op] in *. apply bool_decide_eq_true in Hen as [p Hk]. rewrite Hk. destruct (fix_step s k p io n Hi Hk). eexists. split_and!; [done|done|done|done].
  - destruct (write_page_step s k bs Hi Hen) as (s' & Hd & ? & ?). exists s'. split_and!; [done|done|done|].
    cbn in Hd. step_inv Hd. done.
  - destruct (write_block_step s a i bs Hi Hen) as (s' & Hd & ? & ?). exists s'. split_and!; [done|done|done|]. cbn in Hd. by simplify_eq.
  - destruct (write_other_inv s x v Hi Hen). eexists. split_and!; [done|done|by eapply effect_refines|done].
Qed.

Lemma buddy_reachable_inv m n s : reachable (init SIZES m n) (step SIZES) s → inv s.
Proof.
  apply reachable_invariant; [apply init_inv|]. intros a b Ha (l & Hen & Hd).
  destruct (buddy_step_ok l a Ha Hen) as (s' & Hd' & ? & _). congruence.
Qed.

End system.


(** * The theorems *)

Definition blocks (SIZES : nat) (s : state) : list (Z * nat) :=
  free_blocks 0 (zip_free (zip (pool s))) ++ allocated s ++ flights SIZES (tasks s).

Lemma few_sizes SIZES : (SIZES ≤ BUF_BUDDY_SIZES_MAX)%nat → (SIZES < 256)%nat.
Proof. unfold BUF_BUDDY_SIZES_MAX. lia. Qed.

Lemma inv_layout SIZES s : inv SIZES s → ok SIZES (mem (zip (pool s))) (free_blocks 0 (zip_free (zip (pool s)))) (allocated s ++ flights SIZES (tasks s)) [] (zip_hash (pool s)).
Proof. intros Hi. apply Hi. Qed.

Lemma blocks_eq SIZES s : free_blocks 0 (zip_free (zip (pool s))) ++ (allocated s ++ flights SIZES (tasks s)) ++ [] = blocks SIZES s.
Proof. unfold blocks. by rewrite app_nil_r. Qed.

(** C11: the allocator never mixes blocks up.  Whatever the threads of the server do with their
    own blocks and whenever they allocate, free and move pages, no assertion fails, no list is
    asked for an element that it does not have and no loop goes on for ever; the free blocks,
    the blocks that were handed out and those that threads work on lie aligned inside the
    frames of the allocator, no two of them overlap, and together they fill the frames; the
    statistics count the blocks that are handed out. *)
Theorem buddy_blocks_disjoint SIZES m n s :
  (SIZES ≤ BUF_BUDDY_SIZES_MAX)%nat → reachable (init SIZES m n) (step SIZES) s →
  (∀ l, enabled SIZES l s = true → is_Some (do_op SIZES l s)) ∧
  (∀ a i, (a, i) ∈ blocks SIZES s → (i ≤ SIZES)%nat ∧ (size i | a) ∧
    ∃ f, f ∈ zip_hash (pool s) ∧ f ≤ a ∧ a + size i ≤ f + size SIZES) ∧
  (∀ b c l x, blocks SIZES s ≡ₚ b :: c :: l → inb x b = true → inb x c = true → False) ∧
  (∀ f x, f ∈ zip_hash (pool s) → f ≤ x < f + size SIZES → ∃ b, b ∈ blocks SIZES s ∧ inb x b = true) ∧
  ∀ i, (i ≤ SIZES)%nat → used <$> buddy_stats (pool s) !! i = Some (u64 (count_index i (allocated s))).
Proof.
  intros HS%few_sizes Hr. pose proof (buddy_reachable_inv SIZES HS m n s Hr) as Hi. pose proof (inv_layout SIZES s Hi) as Hok. split_and!.
  - intros l Hen. destruct (buddy_step_ok SIZES HS l s Hi Hen) as (s' & -> & _). by eexists.
  - intros a i Hin. rewrite <- blocks_eq in Hin. destruct (o_align _ _ _ _ _ _ Hok a i Hin) as [Hle Hd]. split_and!; [done|done|].
    pose proof (size_min i). assert (inb a (a, i) = true) as Hx by (apply inb_spec; lia).
    pose proof (cover_elem _ _ _ Hin Hx) as Hc. rewrite (o_cover _ _ _ _ _ _ Hok) in Hc.
    destruct (cover_pos _ _ (Z.lt_le_trans 0 1 _ Z.lt_0_1 Hc)) as ([f j] & (f' & Heq & Hf)%list_elem_of_fmap & Hfx%inb_spec). simplify_eq.
    exists f'. split; [done|]. apply (interval_nest (size i) a f' (size SIZES) a); [lia|done| |by apply size_divide|lia|done].
    etrans; [by apply size_divide|by eapply o_frames].
  - intros b c l x Hp. rewrite <- blocks_eq in Hp. eapply ok_disjoint; [exact Hok|exact Hp].
  - intros f x Hf Hx. rewrite <- blocks_eq. apply cover_pos. rewrite (o_cover _ _ _ _ _ _ Hok).
    apply (Z.lt_le_trans _ 1); [done|]. apply (cover_elem (f, SIZES)); [by apply (list_elem_of_fmap_2 (., SIZES))|by apply inb_spec].
  - apply Hi.
Qed.

(** C12: to the server the allocator is invisible.  In every step a page of the page table keeps
    its bytes, although its address changes when it is moved to another block, unless it is the
    page that the step writes, enters or removes; a block that is not in the page table stays
    where it is with its bytes until its owner writes it or gives it back; and allocating adds
    a block of the size asked for, at once or after a frame was found. *)
Theorem buddy_contents_kept SIZES m n s :
  (SIZES ≤ BUF_BUDDY_SIZES_MAX)%nat → reachable (init SIZES m n) (step SIZES) s →
  (∀ l s', enabled SIZES l s = true → do_op SIZES l s = Some s' → refines l s s') ∧
  (∀ t sz s', enabled SIZES (Alloc t sz) s = true → do_op SIZES (Alloc t sz) s = Some s' →
    ∃ i, size i = sz ∧ ((∃ a, allocated s' = (a, i) :: allocated s) ∨ tasks s' = <[t:=TFrame i]> (tasks s))) ∧
  ∀ t f i s', tasks s !! t = Some (TFrom f i) → do_op SIZES (Run t) s = Some s' → allocated s' = (f, i) :: allocated s.
Proof.
  intros HS%few_sizes Hr. pose proof (buddy_reachable_inv SIZES HS m n s Hr) as Hi. split_and!.
  - intros l s' Hen Hd. destruct (buddy_step_ok SIZES HS l s Hi Hen) as (s1 & Hd' & _ & ? & _). congruence.
  - intros t sz s' Hen Hd. cbn [enabled do_op] in *. apply andb_true_iff in Hen as [Ht%idle_true [i Hs]%bool_decide_eq_true].
    destruct (alloc_step SIZES HS s t sz i Hi Ht Hs) as (s1 & y & al & Hd' & _ & _ & Hts & Hal & Hc). simplify_eq.
    exists i. apply slot_of_some in Hs as (-> & _). split; [done|]. destruct Hc as [[-> ->]|[-> [a ->]]]; [by right|left; by exists a].
  - intros t f i s' Ht Hd. cbn [do_op] in Hd. rewrite Ht in Hd.
    destruct (alloc_big_step SIZES HS s t f i Hi Ht) as (s1 & Hd' & _ & _ & _ & ?). congruence.
Qed.

Lemma lock_holder SIZES s k : locked s k = true → ∃ t, enabled SIZES (Run t) s = true.
Proof.
  unfold locked. intros ([|i|f i|buf i z b sp o|buf i z b k'|buf i z|f] & Hk & [t Ht]%list_elem_of_lookup)%bool_decide_eq_true%list_elem_of_fmap; try done.
  exists t. cbn. by rewrite Ht.
Qed.

(** A frame beyond all that are in use. *)
Lemma fresh_frame SIZES (l : list Z) : ∃ f, f ≠ 0 ∧ f mod size SIZES = 0 ∧ f ∉ l.
Proof.
  pose proof (size_min SIZES). assert (∃ q, 0 < q ∧ ∀ f, f ∈ l → f < q * size SIZES) as (q & Hq & Hl).
  { induction l as [|g l (q & Hq & IH)]; [exists 1; split; [lia|by intros f ?%not_elem_of_nil]|]. exists (q + Z.abs g + 1). split; [lia|].
    intros f [->|Hf%IH]%elem_of_cons; nia. }
  exists (q * size SIZES). split_and!; [nia|by apply Z_mod_mult|]. intros Hin%Hl. lia.
Qed.

(** C30: every operation of the allocator ends.  While a thread is in one, some thread can go
    on; every step that a thread makes in an operation takes it closer to the end, which it
    reaches after at most two steps for each size and two more; no other step changes where it is. *)
Theorem buddy_operations_end SIZES m n s t x :
  (SIZES ≤ BUF_BUDDY_SIZES_MAX)%nat → reachable (init SIZES m n) (step SIZES) s → tasks s !! t = Some x → x ≠ TIdle →
  (∃ l t', thread_of l = Some (t', true) ∧ enabled SIZES l s = true) ∧
  (0 < rank SIZES x ≤ 2 * SIZES + 2)%nat ∧
  ∀ l s', enabled SIZES l s = true → do_op SIZES l s = Some s' →
    if bool_decide (thread_of l = Some (t, true)) then ∃ y, tasks s' !! t = Some y ∧ (rank SIZES y < rank SIZES x)%nat
    else tasks s' !! t = Some x.
Proof.
  intros HS%few_sizes Hr Ht Hx. pose proof (buddy_reachable_inv SIZES HS m n s Hr) as Hi. split_and!.
  - destruct x as [|i|f i|buf i z b sp o|buf i z b k|buf i z|f]; [done| | | | | |]; [| |destruct (locked s (sp, o)) eqn:Hl| | |].
    2-7: try (exists (Run t), t; cbn; by rewrite Ht, ?Hl).
    + destruct (fresh_frame SIZES (zip_hash (pool s))) as (f & H0 & H1 & H2). exists (Frame t f), t. split; [done|]. cbn [enabled]. rewrite Ht, H1.
      by rewrite (proj2 (Z.eqb_neq f 0) H0), bool_decide_true by done.
    + destruct (lock_holder SIZES s _ Hl) as [t' ?]. by exists (Run t'), t'.
  - destruct x; cbn; try done; lia.
  - destruct x; cbn; try done; lia.
  - intros l s' Hen Hd. destruct (buddy_step_ok SIZES HS l s Hi Hen) as (s1 & Hd' & _ & _ & Hp). rewrite Hd in Hd'. simplify_eq. unfold progress in Hp.
    destruct (thread_of l) as [[t' b]|]; [|by rewrite bool_decide_false, Hp by done]. destruct Hp as (x' & y & Ht' & -> & Hb).
    destruct (decide (t' = t)) as [->|Hne].
    + simplify_eq. destruct b; [|done]. rewrite bool_decide_true by done. exists y. split; [|done].
      apply list_lookup_insert_eq. by eapply lookup_lt_Some.
    + rewrite bool_decide_false by (intros [=]; done). by rewrite list_lookup_insert_ne.
Qed.


(** * A run *)

Definition next_op (SIZES : nat) (l : label) (s : state) : option state := if enabled SIZES l s then do_op SIZES l s else None.

(** Pages of 4 kilobytes, cut into 36 blocks of one; every second one is given back, until
    the list is long enough for its buddy, which has page 5 of tablespace 7, to be moved. *)
Definition sample_frame (j : nat) : Z := 4096 * (Z.of_nat j + 1).
Definition sample_page : list Z := [1; 2; 3; 4; 0; 0; 0; 5] ++ replicate 26 9 ++ [0; 0; 0; 7; 8].
Definition sample_ops : list label :=
  flat_map (λ j, [Alloc 0 1024; Frame 0 (sample_frame j); Run 0; Alloc 0 1024; Alloc 0 1024; Alloc 0 1024]) (seq 0 9) ++
  [WriteBlock (sample_frame 8 + 1024) 0 sample_page; Publish (7, 5) (BPage (Some (sample_frame 8 + 1024)) 1 BUF_IO_NONE 0)] ++
  flat_map (λ j, [Free 0 (sample_frame j) 1024; Free 0 (sample_frame j + 2048) 1024]) (seq 0 8) ++
  [Free 0 (sample_frame 8) 1024; Run 0].

Definition sample_init : state := init 2 (λ _, 0) 1.
Definition sample_state : state := default sample_init (run_sched (next_op 2) sample_ops sample_init).
Definition sample_after : state := default sample_init (do_op 2 (Run 0) sample_state).

Lemma buddy_sample_reachable : reachable sample_init (step 2) sample_state.
Proof.
  unfold sample_state. destruct (run_sched (next_op 2) sample_ops sample_init) as [s|] eqn:E; [|constructor]. cbn [default].
  apply run_sched_rtc in E. eapply rtc_subrel; [|exact E]. intros a b (l & Hl). unfold next_op in Hl.
  destruct (enabled 2 l a) eqn:He; [|done]. by exists l.
Qed.

Lemma sample_step : do_op 2 (Run 0) sample_state = Some sample_after.
Proof.
  unfold sample_after. destruct (do_op 2 (Run 0) sample_state) eqn:E; [reflexivity|].
  assert (match do_op 2 (Run 0) sample_state with Some _ => true | None => false end = true) as E' by (vm_compute; reflexivity).
  rewrite E in E'. discriminate.
Qed.

Lemma refines_run t s s' k : refines (Run t) s s' → contents s' k = contents s k.
Proof. intros [H _]. apply H. Qed.

(** The page is about to be moved. *)
Lemma buddy_blocks_disjoint_witness :
  tasks sample_state = [TLocked (sample_frame 8) 0 (sample_frame 7 + 2048) (sample_frame 8 + 1024) (7, 5)] ∧
  length (allocated sample_state) = 19%nat ∧ length (blocks 2 sample_state) = 36%nat ∧
  (∀ b c l x, blocks 2 sample_state ≡ₚ b :: c :: l → inb x b = true → inb x c = true → False) ∧
  used <$> buddy_stats (pool sample_state) !! 0%nat = Some 19.
Proof.
  split; [vm_compute; reflexivity|]. split; [vm_compute; reflexivity|]. split; [vm_compute; reflexivity|].
  destruct (buddy_blocks_disjoint 2 (λ _, 0) 1 sample_state) as (_ & _ & H1 & _ & H2); [vm_compute; lia|exact buddy_sample_reachable|].
  split; [exact H1|]. rewrite (H2 0%nat) by lia. vm_compute. reflexivity.
Defined.

Lemma buddy_contents_kept_witness :
  data <$> page_hash (pool sample_state) !! (7, 5) = Some (Some 37888) ∧
  data <$> page_hash (pool sample_after) !! (7, 5) = Some (Some 34816) ∧
  take 39 <$> contents sample_after (7, 5) = Some sample_page ∧ contents sample_after (7, 5) = contents sample_state (7, 5).
Proof.
  split; [vm_compute; reflexivity|]. split; [vm_compute; reflexivity|]. split; [vm_compute; reflexivity|].
  destruct (buddy_contents_kept 2 (λ _, 0) 1 sample_state) as (H & _); [vm_compute; lia|exact buddy_sample_reachable|].
  apply (refines_run 0), (H (Run 0) sample_after); [vm_compute; reflexivity|].
  exact sample_step.
Defined.

Lemma buddy_operations_end_witness : ∃ y, tasks sample_after !! 0%nat = Some y ∧ (rank 2 y < 5)%nat.
Proof.
  destruct (buddy_operations_end 2 (λ _, 0) 1 sample_state 0 (TLocked (sample_frame 8) 0 (sample_frame 7 + 2048) (sample_frame 8 + 1024) (7, 5)))
    as (_ & _ & H); [vm_compute; lia|exact buddy_sample_reachable|vm_compute; reflexivity|discriminate|].
  exact (H (Run 0) sample_after ltac:(vm_compute; reflexivity) sample_step).
Defined.


End BufBuddy.
