(* ===== verification/BufTable.v ===== *)
(** The page table of a buffer pool instance: the parts of src/Project3/ryul/buf0buf.cc that enter
    pages into [page_hash], move them to other control blocks and watch for them, and the
    functions of xtradb/buf/buf0lru.cc that free pages.

    Several threads read, create, decompress and free pages, fix and release them, and purge
    threads watch for pages that are not there: a watch is a sentinel in the page table whose
    fix count is handed over to the page when it is read.  What a thread does under the lock of
    the hash cell of a page is one step, with the changes to the LRU list and the I/O state that
    follow before it releases [LRU_list_mutex] or [zip_mutex].  [LRU_list_mutex] can be kept from
    one such step to the next, so it is part of the state; where [buf_buddy_alloc] may release it,
    it is released.  Of the LRU list only its members are modelled here, the
    order is the subject of BufLru.v.  A failing [ut_a], [ut_error] or access to a page that is
    not there has no result.  Control blocks that are handed out are not in use; the types of the
    pages that are freed are assumed to be known ones.  Fix counts do not wrap, since every
    thread fixes a page only a few times. *)

From S2P Require Import Prelude BufChunk BufLru.
Import BufChunk(buf_io_fix, BUF_IO_NONE, BUF_IO_READ, BUF_IO_WRITE, BUF_IO_PIN).
Import BufLru(buf_page_state, BUF_BLOCK_ZIP_PAGE, BUF_BLOCK_ZIP_DIRTY, BUF_BLOCK_FILE_PAGE, BUF_BLOCK_REMOVE_HASH).

Local Open Scope Z_scope.

Module BufTable.

#[local] Existing Instance BufLru.buf_page_state_eq_dec.

#[export] Instance buf_io_fix_eq_dec : EqDecision buf_io_fix.
Proof. solve_decision. Defined.

(** A page is named by its tablespace and its number. *)
Definition page_id : Type := Z * Z.

(** The fields of [buf_page_t] that matter; [zip_data] says whether [zip.data] is set. *)
Record buf_page_t := Page {
  id : page_id;
  state : buf_page_state;
  zip_data : bool;
  buf_fix_count : Z;
  io_fix : buf_io_fix;
  oldest_modification : Z;
}.

Definition set_fix (b : buf_page_t) (n : Z) : buf_page_t := Page (id b) (state b) (zip_data b) n (io_fix b) (oldest_modification b).
Definition set_io (b : buf_page_t) (io : buf_io_fix) : buf_page_t := Page (id b) (state b) (zip_data b) (buf_fix_count b) io (oldest_modification b).
Definition set_state (b : buf_page_t) (st : buf_page_state) : buf_page_t := Page (id b) st (zip_data b) (buf_fix_count b) (io_fix b) (oldest_modification b).
Definition set_zip (b : buf_page_t) (z : bool) : buf_page_t := Page (id b) (state b) z (buf_fix_count b) (io_fix b) (oldest_modification b).
Definition set_modification (b : buf_page_t) (n : Z) : buf_page_t := Page (id b) (state b) (zip_data b) (buf_fix_count b) (io_fix b) n.

(** What [page_hash] points to: a sentinel of [watch] or a control block. *)
Inductive entry := EWatch (i : nat) | EPage (p : nat).

(** A sentinel is unused, or it watches for a page and has a fix count. *)
Definition sentinel : Type := option (page_id * Z).

(** What a thread is in the middle of: nothing; setting a watch, without the lock of the cell;
    watching; reading a page for which the control
    block is not there yet; waiting for the memory of the compressed copy of [p], after reading
    or creating the page; freeing [p], with [keep] for the control
    block of a compressed copy that stays; entering this copy, which will have the contents [c]; taking back what is left of [p]. *)
Inductive task :=
  | TIdle
  | TSet (k : page_id)
  | TWatch (k : page_id)
  | TRead (k : page_id)
  | TZip (p : nat) (create : bool)
  | TFree (p : nat) (zip keep : bool)
  | TReinsert (p : nat) (c : buf_page_t)
  | TFreeEnd (p : nat) (b : option nat).

(** [users] are the fixes that threads hold, by page. *)
Record table := Table {
  pages : gmap nat buf_page_t;
  page_hash : gmap page_id entry;
  watch : list sentinel;
  LRU : gset nat;
  LRU_list_mutex : option nat;
  tasks : list task;
  users : list page_id;
}.

Definition with_pages (s : table) (m : gmap nat buf_page_t) : table := Table m (page_hash s) (watch s) (LRU s) (LRU_list_mutex s) (tasks s) (users s).
Definition with_hash (s : table) (h : gmap page_id entry) : table := Table (pages s) h (watch s) (LRU s) (LRU_list_mutex s) (tasks s) (users s).
Definition with_watch (s : table) (w : list sentinel) : table := Table (pages s) (page_hash s) w (LRU s) (LRU_list_mutex s) (tasks s) (users s).
Definition with_LRU (s : table) (l : gset nat) : table := Table (pages s) (page_hash s) (watch s) l (LRU_list_mutex s) (tasks s) (users s).
Definition with_mutex (s : table) (m : option nat) : table := Table (pages s) (page_hash s) (watch s) (LRU s) m (tasks s) (users s).
Definition with_tasks (s : table) (ts : list task) : table := Table (pages s) (page_hash s) (watch s) (LRU s) (LRU_list_mutex s) ts (users s).
Definition with_users (s : table) (us : list page_id) : table := Table (pages s) (page_hash s) (watch s) (LRU s) (LRU_list_mutex s) (tasks s) us.
Definition with_task (s : table) (t : nat) (x : task) : table := with_tasks s (<[t:=x]> (tasks s)).
Definition with_page (s : table) (p : nat) (b : buf_page_t) : table := with_pages s (<[p:=b]> (pages s)).

Definition buf_page_can_relocate (b : buf_page_t) : bool := bool_decide (io_fix b = BUF_IO_NONE) && (buf_fix_count b =? 0).

(** [HASH_INSERT] of a control block. *)
Definition hash_insert (s : table) (k : page_id) (p : nat) : table :=
  with_hash s (<[k:=EPage p]> (page_hash s)).

(** * Watching *)

Definition buf_pool_watch_remove (s : table) (k : page_id) (i : nat) : table :=
  with_watch (with_hash s (delete k (page_hash s))) (<[i:=None]> (watch s)).

(** One of the elements [k] of a list is taken away. *)
Fixpoint remove_one (k : page_id) (l : list page_id) : list page_id :=
  match l with
  | [] => []
  | x :: l => if decide (x = k) then l else x :: remove_one k l
  end.

(** What [buf_page_get_gen] does with a page that [buf_pool_watch_set] has found. *)
Definition fix_page (s : table) (k : page_id) (p : nat) : option table :=
  b ← pages s !! p; Some (with_users (with_page s p (set_fix b (buf_fix_count b + 1))) (k :: users s)).

(** [page_found]. *)
Definition watch_found (s : table) (t : nat) (k : page_id) (e : entry) : option table :=
  match e with
  | EPage p => s ← fix_page s k p; Some (with_task s t TIdle)
  | EWatch i =>
      w ← watch s !! i;
      match w with
      | Some (k', n) => Some (with_task (with_watch s (<[i:=Some (k', n + 1)]> (watch s))) t (TWatch k))
      | None => None
      end
  end.

(** The first unused sentinel. *)
Fixpoint find_sentinel (w : list sentinel) : option nat :=
  match w with
  | [] => None
  | None :: _ => Some O
  | Some _ :: w => S <$> find_sentinel w
  end.

(** [buf_pool_watch_set] until the lock of the cell is released, and after all locks are held. *)
Definition buf_pool_watch_set (s : table) (t : nat) (k : page_id) : option table :=
  match page_hash s !! k with
  | Some e => watch_found s t k e
  | None => Some (with_task (with_mutex s (Some t)) t (TSet k))
  end.
Definition watch_set_locked (s : table) (t : nat) (k : page_id) : option table :=
  let s := with_mutex s None in
  match page_hash s !! k with
  | Some e => watch_found s t k e
  | None =>
      i ← find_sentinel (watch s);
      Some (with_task (with_hash (with_watch s (<[i:=Some (k, 1)]> (watch s))) (<[k:=EWatch i]> (page_hash s))) t (TWatch k))
  end.

Definition buf_pool_watch_unset (s : table) (t : nat) (k : page_id) : option table :=
  let s := with_task s t TIdle in
  e ← page_hash s !! k;
  match e with
  | EPage p => b ← pages s !! p; Some (with_page s p (set_fix b (buf_fix_count b - 1)))
  | EWatch i =>
      w ← watch s !! i;
      match w with
      | Some (k', n) => Some (if n - 1 =? 0 then buf_pool_watch_remove s k i else with_watch s (<[i:=Some (k', n - 1)]> (watch s)))
      | None => None
      end
  end.

Definition buf_pool_watch_occurred (s : table) (k : page_id) : option bool :=
  e ← page_hash s !! k; Some match e with EPage _ => true | EWatch _ => false end.

(** * Entering pages *)

(** The fix count that a new control block takes over from a sentinel, which is removed; a page
    that is there already is an error. *)
Definition take_over (s : table) (k : page_id) : option (table * Z) :=
  match page_hash s !! k with
  | None => Some (s, 0)
  | Some (EWatch i) =>
      w ← watch s !! i;
      match w with
      | Some (_, n) => if 0 <? n then Some (buf_pool_watch_remove s k i, n) else None
      | None => None
      end
  | Some (EPage _) => None
  end.

Definition buf_page_init (s : table) (k : page_id) (p : nat) : option table :=
  '(s, n) ← take_over s k;
  Some (hash_insert (with_page s p (Page k BUF_BLOCK_FILE_PAGE false n BUF_IO_NONE 0)) k p).

Definition set_page_io (s : table) (p : nat) (io : buf_io_fix) : option table := b ← pages s !! p; Some (with_page s p (set_io b io)).
Definition add_LRU (s : table) (p : nat) : table := with_LRU s ({[p]} ∪ LRU s).

(** [buf_page_init_for_read] until it releases the locks; [deleted] is what
    [fil_tablespace_deleted_or_being_deleted_in_mem] says, [compressed] whether there is a
    [zip_size], [unzip] whether an uncompressed page is needed, also for the recovery, [p] is the free block. *)
Definition buf_page_init_for_read (s : table) (t : nat) (k : page_id) (p : nat) (compressed unzip deleted : bool) : option table :=
  match page_hash s !! k with
  | Some (EPage _) => Some s
  | _ =>
      if deleted then Some s
      else if compressed && negb unzip then Some (with_task s t (TRead k))
      else
        s ← buf_page_init s k p; s ← set_page_io s p BUF_IO_READ;
        let s := add_LRU s p in
        Some (if compressed then with_task s t (TZip p false) else s)
  end.

(** The rest for a page that is only kept compressed; [p] is the new control block. *)
Definition read_compressed (s : table) (t : nat) (k : page_id) (p : nat) : option table :=
  let s := with_task s t TIdle in
  match page_hash s !! k with
  | Some (EPage _) => Some s
  | _ =>
      '(s, n) ← take_over s k;
      Some (add_LRU (hash_insert (with_page s p (Page k BUF_BLOCK_ZIP_PAGE true n BUF_IO_READ 0)) k p) p)
  end.

(** The memory for the compressed copy is there. *)
Definition zip_allocated (s : table) (t : nat) (p : nat) (create : bool) : option table :=
  b ← pages s !! p;
  let b := set_zip b true in
  Some (with_task (with_page s p (if create then set_io b BUF_IO_NONE else b)) t TIdle).

(** A page that is there is only got afterwards, by [buf_page_get_gen]. *)
Definition buf_page_create (s : table) (t : nat) (k : page_id) (p : nat) (compressed : bool) : option table :=
  match page_hash s !! k with
  | Some (EPage _) => Some s
  | _ =>
      s ← buf_page_init s k p;
      s ← fix_page (add_LRU s p) k p;
      if compressed then s ← set_page_io s p BUF_IO_READ; Some (with_task s t (TZip p true)) else Some s
  end.

(** * Moving pages *)

(** The control block [d] takes the place of [p]. *)
Definition buf_relocate (s : table) (p d : nat) : option table :=
  b ← pages s !! p;
  if buf_page_can_relocate b then
    Some (with_hash (with_LRU (with_page s d b) ({[d]} ∪ LRU s ∖ {[p]})) (<[id b:=EPage d]> (page_hash s)))
  else None.

(** The part of [buf_page_get_gen] that gives an uncompressed frame to a page that the thread
    has fixed, and the old control block back; when others use the page, the thread lets go of
    it and tries again. *)
Definition decompress (s : table) (k : page_id) (d : nat) : option table :=
  e ← page_hash s !! k;
  match e with
  | EWatch _ => None
  | EPage p =>
      b ← pages s !! p;
      let b := set_fix b (buf_fix_count b - 1) in
      let s := with_page s p b in
      if (0 <? buf_fix_count b) || negb (bool_decide (io_fix b = BUF_IO_NONE)) then
        Some (with_users s (remove_one k (users s)))
      else
        s ← buf_relocate s p d; b ← pages s !! d;
        let s := with_page s d (set_io (set_state (set_fix b 1) BUF_BLOCK_FILE_PAGE) BUF_IO_READ) in
        Some (with_pages s (delete p (pages s)))
  end.

(** * Freeing pages *)

(** The tests at the start of [buf_LRU_free_page]; they are made again under the lock. *)
Definition may_free (b : buf_page_t) (zip : bool) : bool :=
  buf_page_can_relocate b &&
  (if zip || negb (zip_data b) then oldest_modification b =? 0
   else (oldest_modification b =? 0) || bool_decide (state b = BUF_BLOCK_FILE_PAGE)).

Definition buf_LRU_free_page (s : table) (t : nat) (p : nat) (zip : bool) : option table :=
  b ← pages s !! p;
  let keep := negb (zip || negb (zip_data b)) && bool_decide (state b = BUF_BLOCK_FILE_PAGE) in
  Some (if may_free b zip then with_task (with_mutex s (Some t)) t (TFree p zip keep) else s).

(** [buf_LRU_block_remove_hashed]; the result says whether an uncompressed page was removed. *)
Definition buf_LRU_block_remove_hashed (s : table) (p : nat) (zip : bool) : option (table * bool) :=
  b ← pages s !! p;
  if buf_page_can_relocate b then
    let s := with_LRU s (LRU s ∖ {[p]}) in
    let ok := match state b with
              | BUF_BLOCK_FILE_PAGE => if zip_data b then negb zip || (oldest_modification b =? 0) else oldest_modification b =? 0
              | BUF_BLOCK_ZIP_PAGE => oldest_modification b =? 0
              | _ => false
              end in
    match page_hash s !! id b with
    | Some (EPage q) =>
        if ok && (q =? p)%nat then
          let s := with_hash s (delete (id b) (page_hash s)) in
          match state b with
          | BUF_BLOCK_ZIP_PAGE => if zip_data b then Some (with_pages s (delete p (pages s)), false) else None
          | _ => Some (with_page s p (set_zip (set_state b BUF_BLOCK_REMOVE_HASH) (negb zip && zip_data b)), true)
          end
        else None
    | _ => None
    end
  else None.

(** [buf_LRU_free_page] under the lock of the cell. *)
Definition free_locked (s : table) (t : nat) (p : nat) (zip keep : bool) : option table :=
  b ← pages s !! p;
  if may_free b zip then
    '(s, removed) ← buf_LRU_block_remove_hashed s p zip;
    Some (if (removed : bool) then
            if keep then with_task s t (TReinsert p b)
            else with_task (with_mutex s None) t (TFreeEnd p None)
          else with_task (with_mutex s None) t TIdle)
  else Some (with_task (with_mutex s None) t TIdle).

(** The compressed copy gets the control block [d]. *)
Definition reinsert (s : table) (t : nat) (p d : nat) (c : buf_page_t) : option table :=
  match page_hash s !! id c with
  | Some _ => None
  | None =>
      b ← pages s !! p;
      let c := set_state c (if oldest_modification c =? 0 then BUF_BLOCK_ZIP_PAGE else BUF_BLOCK_ZIP_DIRTY) in
      let s := add_LRU (hash_insert (with_page s d (set_io c BUF_IO_PIN)) (id c) d) d in
      Some (with_task (with_mutex (with_page s p (set_zip b false)) None) t (TFreeEnd p (Some d)))
  end.

(** The copy is no longer sticky, and the block goes to the free list. *)
Definition free_end (s : table) (t : nat) (p : nat) (d : option nat) : option table :=
  s ← match d with Some d => set_page_io s d BUF_IO_NONE | None => Some s end;
  Some (with_task (with_pages s (delete p (pages s))) t TIdle).

(** * Using pages *)

(** One of the fixes of a page ends. *)
Definition buf_block_unfix (s : table) (k : page_id) : option table :=
  e ← page_hash s !! k;
  match e with
  | EPage p => b ← pages s !! p; Some (with_users (with_page s p (set_fix b (buf_fix_count b - 1))) (remove_one k (users s)))
  | EWatch _ => None
  end.

(** A page has been written and leaves the flush list, in which it is when it is modified. *)
Definition buf_flush_remove (s : table) (p : nat) : option table :=
  b ← pages s !! p;
  match state b with
  | BUF_BLOCK_ZIP_DIRTY => Some (with_page s p (set_modification (set_state b BUF_BLOCK_ZIP_PAGE) 0))
  | BUF_BLOCK_FILE_PAGE => Some (with_page s p (set_modification b 0))
  | _ => None
  end.

(** * Runs *)

(** What happens: a purge thread sets or ends a watch, a thread starts to read, to create or to
    free a page, or goes on, with [d] as the control block it may need; a page is fixed,
    released, or decompressed by a thread that has fixed it; its I/O state changes, it is
    modified or has been written. *)
Inductive label :=
  | LSet (t : nat) (k : page_id)
  | LUnset (t : nat)
  | LRead (t : nat) (k : page_id) (p : nat) (compressed unzip deleted : bool)
  | LCreate (t : nat) (k : page_id) (p : nat) (compressed : bool)
  | LFree (t : nat) (p : nat) (zip : bool)
  | LRun (t : nat) (d : nat)
  | LGet (k : page_id)
  | LRelease (k : page_id)
  | LDecompress (k : page_id) (d : nat)
  | LIo (p : nat) (io : buf_io_fix)
  | LDirty (p : nat) (n : Z)
  | LClean (p : nat).

Definition idle (s : table) (t : nat) : bool := match tasks s !! t with Some TIdle => true | _ => false end.
Definition unlocked (s : table) : bool := bool_decide (LRU_list_mutex s = None).
Definition fresh (s : table) (p : nat) : bool := bool_decide (pages s !! p = None).

(** The control blocks that a thread works on. *)
Definition claims (x : task) : list nat :=
  match x with
  | TZip p _ | TReinsert p _ => [p]
  | TFreeEnd p d => p :: option_list d
  | _ => []
  end.
Definition claimed (s : table) (p : nat) : bool := bool_decide (p ∈ tasks s ≫= claims).

Section runs.
Context (srv_n_purge_threads : nat).

Definition enabled (l : label) (s : table) : bool :=
  match l with
  | LSet t k => idle s t && unlocked s && (t <? srv_n_purge_threads)%nat
  | LUnset t => match tasks s !! t with Some (TWatch _) => true | _ => false end
  | LRead t _ p _ _ _ | LCreate t _ p _ => idle s t && unlocked s && fresh s p
  | LFree t p _ => idle s t && unlocked s && bool_decide (p ∈ LRU s)
  | LRun t d =>
      fresh s d &&
      match tasks s !! t with
      | None | Some TIdle | Some (TWatch _) => false
      | Some (TRead _) | Some (TZip _ _) => unlocked s
      | Some _ => true
      end
  | LGet _ => true
  | LRelease k => bool_decide (k ∈ users s)
  | LDecompress k d =>
      bool_decide (k ∈ users s) && unlocked s && fresh s d &&
      match page_hash s !! k with
      | Some (EPage p) => match pages s !! p with Some b => negb (bool_decide (state b = BUF_BLOCK_FILE_PAGE)) | None => false end
      | _ => false
      end
  | LIo p io =>
      bool_decide (p ∈ LRU s) && negb (claimed s p) && negb (bool_decide (io = BUF_IO_PIN))
  | LDirty p n =>
      bool_decide (p ∈ LRU s) && (0 <? n) &&
      match pages s !! p with Some b => bool_decide (state b = BUF_BLOCK_FILE_PAGE) && (0 <? buf_fix_count b) | None => false end
  | LClean p =>
      bool_decide (p ∈ LRU s) && match pages s !! p with Some b => bool_decide (io_fix b = BUF_IO_WRITE) && negb (oldest_modification b =? 0) | None => false end
  end.

Definition do_op (l : label) (s : table) : option table :=
  match l with
  | LSet t k => buf_pool_watch_set s t k
  | LUnset t => match tasks s !! t with Some (TWatch k) => buf_pool_watch_unset s t k | _ => None end
  | LRead t k p compressed unzip deleted => buf_page_init_for_read s t k p compressed unzip deleted
  | LCreate t k p compressed => buf_page_create s t k p compressed
  | LFree t p zip => buf_LRU_free_page s t p zip
  | LRun t d =>
      match tasks s !! t with
      | Some (TSet k) => watch_set_locked s t k
      | Some (TRead k) => read_compressed s t k d
      | Some (TZip p create) => zip_allocated s t p create
      | Some (TFree p zip keep) => free_locked s t p zip keep
      | Some (TReinsert p c) => reinsert s t p d c
      | Some (TFreeEnd p b) => free_end s t p b
      | _ => None
      end
  | LGet k => match page_hash s !! k with Some (EPage p) => fix_page s k p | _ => Some s end
  | LRelease k => buf_block_unfix s k
  | LDecompress k d => decompress s k d
  | LIo p io => set_page_io s p io
  | LDirty p n => b ← pages s !! p; Some (with_page s p (set_modification b n))
  | LClean p => buf_flush_remove s p
  end.

(** The states of a run, with the first and the last one. *)
Fixpoint trace (ls : list label) (s : table) : option (list table) :=
  match ls with
  | [] => Some [s]
  | l :: ls => if enabled l s then s1 ← do_op l s; tr ← trace ls s1; Some (s :: tr) else None
  end.

Definition step (s s' : table) : Prop := ∃ l, enabled l s = true ∧ do_op l s = Some s'.

(** An empty pool with a sentinel more than there are purge threads, and [n] threads. *)
Definition init (n : nat) : table := Table ∅ ∅ (replicate (srv_n_purge_threads + 1) None) ∅ None (replicate n TIdle) [].

End runs.

(** * The table *)

(** How many of the references [W] are to the page [k]. *)
Definition occ (k : page_id) (W : list page_id) : Z := Zsum (λ x, if decide (x = k) then 1 else 0) W.

Lemma occ_nonneg k W : 0 ≤ occ k W.
Proof. apply Zsum_nonneg. intros x _. by destruct (decide (x = k)). Qed.

Lemma occ_cons k x W : occ k (x :: W) = (if decide (x = k) then 1 else 0) + occ k W.
Proof. done. Qed.

Lemma occ_app k W W' : occ k (W ++ W') = occ k W + occ k W'.
Proof. apply Zsum_app. Qed.

Lemma occ_elem k W : k ∈ W ↔ 0 < occ k W.
Proof.
  induction W as [|x W IH]; [split; [by intros ?%not_elem_of_nil|done]|]. rewrite occ_cons, elem_of_cons, IH.
  pose proof (occ_nonneg k W). destruct (decide (x = k)) as [->|]; [split; [lia|by left]|]. split; [|lia]. intros [->|]; [done|lia].
Qed.

Lemma occ_perm k W W' : W ≡ₚ W' → occ k W = occ k W'.
Proof. unfold occ. induction 1; cbn; lia. Qed.

Lemma remove_one_perm k l : k ∈ l → l ≡ₚ k :: remove_one k l.
Proof.
  induction l as [|x l IH]; [by intros ?%not_elem_of_nil|]. intros Hk. cbn. destruct (decide (x = k)) as [->|Hne]; [done|].
  apply elem_of_cons in Hk as [->|Hk]; [done|]. rewrite (IH Hk) at 1. constructor.
Qed.

Definition block_ok (b : buf_page_t) : Prop :=
  match state b with
  | BUF_BLOCK_FILE_PAGE => True
  | BUF_BLOCK_ZIP_PAGE => zip_data b = true ∧ oldest_modification b = 0
  | BUF_BLOCK_ZIP_DIRTY => zip_data b = true ∧ oldest_modification b ≠ 0
  | _ => False
  end.

(** The page table, the control blocks, the sentinels and the LRU list fit together, and the
    fix counts are the numbers of references [W]. *)
Record fits (pg : gmap nat buf_page_t) (ph : gmap page_id entry) (wt : list sentinel) (lr : gset nat) (W : list page_id) : Prop := {
  f_entry k :
    match ph !! k with
    | None => occ k W = 0
    | Some (EWatch i) => wt !! i = Some (Some (k, occ k W)) ∧ 0 < occ k W
    | Some (EPage p) => p ∈ lr ∧ ∃ b, pg !! p = Some b ∧ id b = k ∧ buf_fix_count b = occ k W ∧ block_ok b
    end;
  f_LRU p : p ∈ lr → ∃ b, pg !! p = Some b ∧ ph !! id b = Some (EPage p);
  f_watch i k n : wt !! i = Some (Some (k, n)) → ph !! k = Some (EWatch i);
}.

Lemma fits_page pg ph wt lr W k p : fits pg ph wt lr W → ph !! k = Some (EPage p) →
  p ∈ lr ∧ ∃ b, pg !! p = Some b ∧ id b = k ∧ buf_fix_count b = occ k W ∧ block_ok b.
Proof. intros Hf Hk. pose proof (f_entry _ _ _ _ _ Hf k) as H. by rewrite Hk in H. Qed.

Lemma fits_listed pg ph wt lr W p : fits pg ph wt lr W → p ∈ lr →
  ∃ b, pg !! p = Some b ∧ ph !! id b = Some (EPage p) ∧ buf_fix_count b = occ (id b) W ∧ block_ok b.
Proof.
  intros Hf Hp. destruct (f_LRU _ _ _ _ _ Hf p Hp) as (b & Hb & Hk). exists b. destruct (fits_page _ _ _ _ _ _ _ Hf Hk) as (_ & b' & Hb' & _ & ? & ?).
  rewrite Hb in Hb'. injection Hb' as <-. done.
Qed.

Lemma fits_ext pg ph wt lr W W' : (∀ k, occ k W' = occ k W) → fits pg ph wt lr W → fits pg ph wt lr W'.
Proof. intros HW [H1 H2 H3]. split; [|done|done]. intros k. rewrite HW. apply H1. Qed.

(** A control block of the list changes, with its fix count. *)
Lemma fits_block pg ph wt lr W W' p b b' :
  fits pg ph wt lr W → p ∈ lr → pg !! p = Some b → id b' = id b → block_ok b' →
  buf_fix_count b' - buf_fix_count b = occ (id b) W' - occ (id b) W → (∀ k, k ≠ id b → occ k W' = occ k W) →
  fits (<[p:=b']> pg) ph wt lr W'.
Proof.
  intros Hf Hp Hb Hid Hok Hn HW. destruct (f_LRU _ _ _ _ _ Hf p Hp) as (b0 & Hb0 & Hk). simplify_eq. split.
  - intros k. destruct (decide (k = id b)) as [->|Hne].
    + rewrite Hk. destruct (fits_page _ _ _ _ _ _ _ Hf Hk) as (_ & b0 & Hb0 & _ & Hfix & _). simplify_eq.
      split; [done|]. exists b'. rewrite lookup_insert_eq. split_and!; [done|done|lia|done].
    + rewrite HW by done. pose proof (f_entry _ _ _ _ _ Hf k) as He. destruct (ph !! k) as [[i|q]|] eqn:Hq; [done| |done].
      destruct He as (? & c & Hc & ? & ? & ?). split; [done|]. exists c. rewrite lookup_insert_ne; [done|]. intros ->. by simplify_eq.
  - intros q Hq. destruct (decide (q = p)) as [->|Hne]; [exists b'; rewrite lookup_insert_eq; by rewrite Hid|].
    rewrite lookup_insert_ne by done. by apply Hf.
  - apply Hf.
Qed.

(** Blocks that are not in the list do not matter. *)
Lemma fits_other pg pg' ph wt lr W : (∀ p, p ∈ lr → pg' !! p = pg !! p) → fits pg ph wt lr W → fits pg' ph wt lr W.
Proof.
  intros Hp [H1 H2 H3]. split; [| |done].
  - intros k. specialize (H1 k). destruct (ph !! k) as [[i|q]|]; [done| |done]. destruct H1 as [? H1]. split; [done|]. by rewrite Hp.
  - intros p Hpl. rewrite Hp by done. by apply H2.
Qed.

Lemma fits_watch pg ph wt lr W W' k i n :
  fits pg ph wt lr W → ph !! k = Some (EWatch i) → (∀ k', k' ≠ k → occ k' W' = occ k' W) → n = occ k W' → 0 < n →
  fits pg ph (<[i:=Some (k, n)]> wt) lr W'.
Proof.
  intros Hf Hk HW -> Hn. pose proof (f_entry _ _ _ _ _ Hf k) as He. rewrite Hk in He. destruct He as [Hi _].
  pose proof (lookup_lt_Some _ _ _ Hi) as Hlt. split.
  - intros k'. destruct (decide (k' = k)) as [->|Hne]; [rewrite Hk; by rewrite list_lookup_insert_eq|].
    rewrite !(HW k') by done. pose proof (f_entry _ _ _ _ _ Hf k') as He. destruct (ph !! k') as [[j|q]|] eqn:Hk'; [|done|done].
    rewrite list_lookup_insert_ne; [done|]. intros ->. rewrite Hi in He. destruct He as [[= ->] _]. done.
  - apply Hf.
  - intros j k' n' [[-> [= -> ->]]|[_ Hj]]%lookup_insert_inv; [done|]. by eapply f_watch.
Qed.

Lemma fits_watch_remove pg ph wt lr W W' k i :
  fits pg ph wt lr W → ph !! k = Some (EWatch i) → (∀ k', k' ≠ k → occ k' W' = occ k' W) → occ k W' = 0 →
  fits pg (delete k ph) (<[i:=None]> wt) lr W'.
Proof.
  intros Hf Hk HW Hn. pose proof (f_entry _ _ _ _ _ Hf k) as He. rewrite Hk in He. destruct He as [Hi _]. split.
  - intros k'. destruct (decide (k' = k)) as [->|Hne]; [by rewrite lookup_delete_eq|]. rewrite lookup_delete_ne, HW by done.
    pose proof (f_entry _ _ _ _ _ Hf k') as He. destruct (ph !! k') as [[j|q]|] eqn:Hk'; [|done|done].
    rewrite list_lookup_insert_ne; [done|]. intros ->. rewrite Hi in He. destruct He as [[= ->] _]. done.
  - intros p Hp. destruct (f_LRU _ _ _ _ _ Hf p Hp) as (b & Hb & Hkb). exists b. split; [done|]. rewrite lookup_delete_ne; [done|]. congruence.
  - intros j k' n' [[-> ?]|[Hji Hj]]%lookup_insert_inv; [done|]. pose proof (f_watch _ _ _ _ _ Hf j k' n' Hj) as Hk'.
    rewrite lookup_delete_ne; [done|]. intros ->. congruence.
Qed.

Lemma fits_new_watch pg ph wt lr W k i :
  fits pg ph wt lr W → ph !! k = None → wt !! i = Some None → fits pg (<[k:=EWatch i]> ph) (<[i:=Some (k, 1)]> wt) lr (k :: W).
Proof.
  intros Hf Hk Hi. pose proof (f_entry _ _ _ _ _ Hf k) as He. rewrite Hk in He. pose proof (lookup_lt_Some _ _ _ Hi) as Hlt. split.
  - intros k'. rewrite occ_cons. destruct (decide (k = k')) as [<-|Hne].
    + rewrite lookup_insert_eq, list_lookup_insert_eq, He by done. done.
    + rewrite lookup_insert_ne by done. pose proof (f_entry _ _ _ _ _ Hf k') as He'. destruct (ph !! k') as [[j|q]|] eqn:Hk'; [|done|done].
      rewrite list_lookup_insert_ne; [done|]. intros ->. rewrite Hi in He'. by destruct He'.
  - intros p Hp. destruct (f_LRU _ _ _ _ _ Hf p Hp) as (b & Hb & Hkb). exists b. split; [done|]. rewrite lookup_insert_ne; [done|]. congruence.
  - intros j k' n' [[-> [= -> ->]]|[Hji Hj]]%lookup_insert_inv; [by rewrite lookup_insert_eq|]. pose proof (f_watch _ _ _ _ _ Hf j k' n' Hj) as Hk'.
    rewrite lookup_insert_ne; [done|]. congruence.
Qed.

(** A page comes, with the references that the sentinel had, and a page goes. *)
Lemma fits_enter pg ph wt lr W W' k p b :
  fits pg ph wt lr W → ph !! k = None → p ∉ lr → id b = k → block_ok b → buf_fix_count b = occ k W' → (∀ k', k' ≠ k → occ k' W' = occ k' W) →
  fits (<[p:=b]> pg) (<[k:=EPage p]> ph) wt ({[p]} ∪ lr) W'.
Proof.
  intros Hf Hk Hp Hid Hok Hn HW. split.
  - intros k'. destruct (decide (k' = k)) as [->|Hne].
    + rewrite lookup_insert_eq. split; [set_solver|]. exists b. by rewrite lookup_insert_eq.
    + rewrite lookup_insert_ne, HW by done. pose proof (f_entry _ _ _ _ _ Hf k') as He. destruct (ph !! k') as [[j|q]|] eqn:Hk'; [done| |done].
      destruct He as [Hq He]. split; [set_solver|]. rewrite lookup_insert_ne by congruence. done.
  - intros q Hq. destruct (decide (q = p)) as [->|Hne]; [exists b; by rewrite lookup_insert_eq, Hid, lookup_insert_eq|].
    destruct (f_LRU _ _ _ _ _ Hf q ltac:(set_solver)) as (c & Hc & Hkc). exists c. rewrite lookup_insert_ne by done. split; [done|].
    rewrite lookup_insert_ne; [done|]. congruence.
  - intros i k' n Hi. pose proof (f_watch _ _ _ _ _ Hf i k' n Hi). rewrite lookup_insert_ne; [done|]. congruence.
Qed.

Lemma fits_leave pg ph wt lr W k p :
  fits pg ph wt lr W → ph !! k = Some (EPage p) → occ k W = 0 → fits pg (delete k ph) wt (lr ∖ {[p]}) W.
Proof.
  intros Hf Hk Hn. destruct (fits_page _ _ _ _ _ _ _ Hf Hk) as (Hp & b & Hb & Hid & _). split.
  - intros k'. destruct (decide (k' = k)) as [->|Hne]; [by rewrite lookup_delete_eq|]. rewrite lookup_delete_ne by done.
    pose proof (f_entry _ _ _ _ _ Hf k') as He. destruct (ph !! k') as [[j|q]|] eqn:Hk'; [done| |done].
    destruct He as [Hq He]. split; [|done]. apply elem_of_difference. split; [done|]. intros ->%elem_of_singleton.
    destruct He as (c & Hc & ? & _). by simplify_eq.
  - intros q [Hq Hqp%not_elem_of_singleton]%elem_of_difference. destruct (f_LRU _ _ _ _ _ Hf q Hq) as (c & Hc & Hkc). exists c. split; [done|].
    rewrite lookup_delete_ne; [done|]. congruence.
  - intros i k' n Hi. pose proof (f_watch _ _ _ _ _ Hf i k' n Hi). rewrite lookup_delete_ne; [done|]. congruence.
Qed.


(** * The threads *)

Definition watched (x : task) : list page_id := match x with TWatch k => [k] | _ => [] end.

(** The references: one for each watch and each fix. *)
Definition refs (s : table) : list page_id := (tasks s ≫= watched) ++ users s.

Definition is_page (e : option entry) : bool := match e with Some (EPage _) => true | _ => false end.

Section threads.
Context (P : nat).

Definition zipped (s : table) (p : nat) : bool := match pages s !! p with Some b => zip_data b | None => false end.

Definition task_ok (s : table) (t : nat) (x : task) : Prop :=
  match x with
  | TIdle | TRead _ => True
  | TSet _ => LRU_list_mutex s = Some t ∧ (t < P)%nat
  | TWatch _ => (t < P)%nat
  | TZip p _ => p ∈ LRU s ∧ ∃ b, pages s !! p = Some b ∧ state b = BUF_BLOCK_FILE_PAGE ∧ io_fix b = BUF_IO_READ
  | TFree p _ keep => LRU_list_mutex s = Some t ∧ p ∈ LRU s ∧ (keep = true → zipped s p = true)
  | TReinsert p c =>
      LRU_list_mutex s = Some t ∧ p ∉ LRU s ∧ is_Some (pages s !! p) ∧ page_hash s !! id c = None ∧
      zip_data c = true ∧ buf_fix_count c = 0 ∧ io_fix c = BUF_IO_NONE
  | TFreeEnd p d =>
      p ∉ LRU s ∧ is_Some (pages s !! p) ∧
      match d with None => True | Some q => q ∈ LRU s ∧ ∃ b, pages s !! q = Some b ∧ io_fix b = BUF_IO_PIN end
  end.

Record inv (s : table) : Prop := {
  v_fits : fits (pages s) (page_hash s) (watch s) (LRU s) (refs s);
  v_users k : k ∈ users s → is_page (page_hash s !! k) = true;
  v_tasks t x : tasks s !! t = Some x → task_ok s t x;
  v_claims : NoDup (tasks s ≫= claims);
  v_length : length (watch s) = (P + 1)%nat;
}.

Definition view (b : buf_page_t) : buf_page_state * buf_io_fix * bool := (state b, io_fix b, zip_data b).

(** What a step of the thread [o], or of the server, leaves to the other threads. *)
Record calm (o : option nat) (s s' : table) : Prop := {
  c_mutex t : o ≠ Some t → LRU_list_mutex s = Some t →
    LRU_list_mutex s' = Some t ∧ (∀ p, p ∈ LRU s → p ∈ LRU s' ∧ (zipped s p = true → zipped s' p = true)) ∧ ∀ k, page_hash s !! k = None → page_hash s' !! k = None;
  c_claims t x p : o ≠ Some t → tasks s !! t = Some x → p ∈ claims x →
    (p ∈ LRU s' ↔ p ∈ LRU s) ∧ view <$> pages s' !! p = view <$> pages s !! p;
  c_tasks t : o ≠ Some t → tasks s' !! t = tasks s !! t;
  c_watch k : k ∈ refs s → is_page (page_hash s !! k) = true → is_page (page_hash s' !! k) = true;
}.

Lemma view_some s s' p : view <$> pages s' !! p = view <$> pages s !! p → is_Some (pages s !! p) → is_Some (pages s' !! p).
Proof. intros H [b Hb]. rewrite Hb in H. destruct (pages s' !! p); [by eexists|done]. Qed.

Lemma view_zipped s s' p : view <$> pages s' !! p = view <$> pages s !! p → zipped s' p = zipped s p.
Proof. unfold zipped. destruct (pages s' !! p), (pages s !! p); cbn; [by intros [= _ _ ->]|done..]. Qed.

Lemma calm_ok o s s' t x : inv s → calm o s s' → o ≠ Some t → tasks s' !! t = Some x → task_ok s' t x.
Proof.
  intros Hi [Hm Hc Ht _] Ho Hx. rewrite Ht in Hx by done. pose proof (v_tasks _ Hi t x Hx) as Hok.
  destruct x as [|k|k|k|p cr|p zip keep|p c|p d]; cbn in *.
  - done.
  - destruct Hok as [Hmx ?]. split; [|done]. by apply Hm.
  - done.
  - done.
  - destruct Hok as (Hp & b & Hb & Hst & Hio). destruct (Hc t _ p Ho Hx) as [Hl Hv]; [set_solver|]. split; [by apply Hl|].
    rewrite Hb in Hv. destruct (pages s' !! p) as [b'|]; [|done]. injection Hv as Hv1 Hv2 _. exists b'. split_and!; congruence.
  - destruct Hok as (Hmx & Hp & Hkeep). destruct (Hm t Ho Hmx) as (? & HL & _). destruct (HL p Hp). auto.
  - destruct Hok as (Hmx & Hp & Hs & Hk & ? & ? & ?). destruct (Hm t Ho Hmx) as (? & _ & Hh). destruct (Hc t _ p Ho Hx) as [Hl Hv]; [set_solver|].
    split_and!; [done|by rewrite Hl|by eapply view_some|by apply Hh|done..].
  - destruct Hok as (Hp & Hs & Hd). destruct (Hc t _ p Ho Hx) as [Hl Hv]; [set_solver|]. split_and!; [by rewrite Hl|by eapply view_some|].
    destruct d as [q|]; [|done]. destruct Hd as (Hq & b & Hb & Hio). destruct (Hc t _ q Ho Hx) as [Hlq Hvq]; [set_solver|].
    split; [by apply Hlq|]. rewrite Hb in Hvq. destruct (pages s' !! q) as [b'|]; [|done]. injection Hvq as Hv1 Hv2 _. exists b'. split; congruence.
Qed.

Lemma inv_table_step o s s' :
  inv s → calm o s s' → (∀ t x, o = Some t → tasks s' !! t = Some x → task_ok s' t x) →
  fits (pages s') (page_hash s') (watch s') (LRU s') (refs s') →
  (∀ k, k ∈ users s' → is_page (page_hash s' !! k) = true) → NoDup (tasks s' ≫= claims) → length (watch s') = length (watch s) → inv s'.
Proof.
  intros Hi Hc Ho Hf Hu Hn Hl. split; [done|done| |done|by rewrite Hl; apply Hi].
  intros t x Hx. destruct (decide (o = Some t)) as [->|Hne]; [by apply Ho|by eapply calm_ok].
Qed.

(** A step after which thread [t] is at [y]. *)
Lemma inv_table_thread s s' t y :
  inv s → calm (Some t) s s' → tasks s' !! t = Some y → task_ok s' t y → fits (pages s') (page_hash s') (watch s') (LRU s') (refs s') →
  (∀ k, k ∈ users s' → is_page (page_hash s' !! k) = true) → NoDup (tasks s' ≫= claims) → length (watch s') = length (watch s) → inv s'.
Proof. intros Hi Hc Ht Hok. apply (inv_table_step (Some t)); [done|done|]. intros t' x' [= <-] Hx'. by simplify_eq. Qed.

Lemma task_set s t x y : tasks s !! t = Some x → <[t:=y]> (tasks s) !! t = Some y.
Proof. intros Ht. apply list_lookup_insert_eq. by eapply lookup_lt_Some. Qed.

(** Which blocks the other threads work on. *)
Lemma claimed_block s p : inv s → p ∈ tasks s ≫= claims → is_Some (pages s !! p).
Proof.
  intros Hi (x & Hp & [t Ht]%list_elem_of_lookup)%list_elem_of_bind. pose proof (v_tasks _ Hi t x Ht) as Hok.
  destruct x as [| | | |q cr| |q c|q d]; cbn in Hp, Hok; try by apply not_elem_of_nil in Hp.
  - apply list_elem_of_singleton in Hp as ->. destruct Hok as (_ & b & ? & _). by eexists.
  - apply list_elem_of_singleton in Hp as ->. by destruct Hok as (_ & _ & ? & _).
  - destruct Hok as (_ & ? & Hd). apply elem_of_cons in Hp as [->|Hp]; [done|]. destruct d as [q'|]; [|by apply not_elem_of_nil in Hp].
    cbn in Hp. apply list_elem_of_singleton in Hp as ->. destruct Hd as (_ & b & ? & _). by eexists.
Qed.

Lemma unclaimed s p b : inv s → p ∈ LRU s → pages s !! p = Some b → io_fix b ≠ BUF_IO_READ → io_fix b ≠ BUF_IO_PIN → p ∉ tasks s ≫= claims.
Proof.
  intros Hi Hp Hb H1 H2 (x & Hx & [t Ht]%list_elem_of_lookup)%list_elem_of_bind. pose proof (v_tasks _ Hi t x Ht) as Hok.
  destruct x as [| | | |q cr| |q c|q d]; cbn in Hx, Hok; try by apply not_elem_of_nil in Hx.
  - apply list_elem_of_singleton in Hx as ->. destruct Hok as (_ & b' & ? & _ & ?). congruence.
  - apply list_elem_of_singleton in Hx as ->. by destruct Hok as (_ & ? & _).
  - destruct Hok as (? & _ & Hd). apply elem_of_cons in Hx as [->|Hx]; [done|]. destruct d as [q'|]; [|by apply not_elem_of_nil in Hx].
    cbn in Hx. apply list_elem_of_singleton in Hx as ->. destruct Hd as (_ & b' & ? & ?). congruence.
Qed.

Lemma claims_in s t x p : tasks s !! t = Some x → p ∈ claims x → p ∈ tasks s ≫= claims.
Proof. intros Ht Hp. apply list_elem_of_bind. exists x. split; [done|by eapply list_elem_of_lookup_2]. Qed.

Lemma claims_other s t x t' x' p : inv s → tasks s !! t = Some x → p ∈ claims x → tasks s !! t' = Some x' → t ≠ t' → p ∉ claims x'.
Proof.
  intros Hi Ht Hp Ht' Hne Hp'. destruct (bind_at claims _ _ _ Ht) as (rest & H1 & H2). pose proof (v_claims _ Hi) as Hn. rewrite H1 in Hn.
  apply NoDup_app in Hn as (_ & Hd & _). apply (Hd p Hp). specialize (H2 TIdle). cbn in H2. rewrite <- H2.
  apply list_elem_of_bind. exists x'. split; [done|]. apply (list_elem_of_lookup_2 _ t'). by rewrite list_lookup_insert_ne.
Qed.

(** * Steps *)

Ltac fields := cbn [pages page_hash watch LRU LRU_list_mutex tasks users with_pages with_hash with_watch with_LRU with_mutex
  with_tasks with_users with_task with_page add_LRU hash_insert buf_pool_watch_remove].

Lemma occ_task ts t x y k : ts !! t = Some x → occ k (<[t:=y]> ts ≫= watched) = occ k (ts ≫= watched) - occ k (watched x) + occ k (watched y).
Proof.
  intros Ht. destruct (bind_at watched _ _ _ Ht) as (rest & H1 & H2). rewrite (occ_perm k _ _ H1), (occ_perm k _ _ (H2 y)), !occ_app. lia.
Qed.

Lemma claims_task ts t x y : NoDup (ts ≫= claims) → ts !! t = Some x → NoDup (claims y) →
  (∀ p, p ∈ claims y → p ∈ claims x ∨ p ∉ ts ≫= claims) → NoDup (<[t:=y]> ts ≫= claims).
Proof.
  intros Hn Ht Hy Hp. destruct (bind_at claims _ _ _ Ht) as (rest & H1 & H2). rewrite H2. rewrite H1 in Hn. apply NoDup_app in Hn as (_ & Hd & Hn).
  apply NoDup_app. split_and!; [done| |done]. intros p Hpy Hpr. destruct (Hp p Hpy) as [Hx|Hx]; [by apply (Hd p)|].
  apply Hx. rewrite H1. set_solver.
Qed.

Lemma claims_drop s t x y : inv s → tasks s !! t = Some x → claims y = [] → NoDup (<[t:=y]> (tasks s) ≫= claims).
Proof. intros Hi Ht Hy. eapply claims_task; [apply Hi|done|rewrite Hy; constructor|]. rewrite Hy. by intros p ?%not_elem_of_nil. Qed.

Definition same_view (s s' : table) : Prop := LRU s' = LRU s ∧ ∀ p, view <$> pages s' !! p = view <$> pages s !! p.

Lemma insert_view (m : gmap nat buf_page_t) p b b' : m !! p = Some b → view b' = view b → ∀ q, view <$> <[p:=b']> m !! q = view <$> m !! q.
Proof. intros Hb Hv q. destruct (decide (p = q)) as [<-|Hne]; [by rewrite lookup_insert_eq, Hb; cbn; rewrite Hv|by rewrite lookup_insert_ne]. Qed.

(** Steps that change no control block in a way that others see, nor which pages there are. *)
Lemma quiet_calm s s' t x y :
  inv s → tasks s !! t = Some x → tasks s' = <[t:=y]> (tasks s) → same_view s s' →
  (∀ k, is_page (page_hash s' !! k) = is_page (page_hash s !! k)) →
  (∀ t', Some t ≠ Some t' → LRU_list_mutex s = Some t' → LRU_list_mutex s' = Some t' ∧ ∀ k, page_hash s !! k = None → page_hash s' !! k = None) →
  calm (Some t) s s'.
Proof.
  intros Hi Ht Hts [HL Hv] Hp Hm. split.
  - intros t' Hne Hmx. destruct (Hm t' Hne Hmx). rewrite HL. split_and!; [done| |done]. intros p ?. by rewrite (view_zipped s s' p (Hv p)).
  - intros t' x' p _ _ _. rewrite HL. done.
  - intros t' Hne. by rewrite Hts, list_lookup_insert_ne by congruence.
  - intros k _. by rewrite Hp.
Qed.

Lemma quiet_server s s' :
  inv s → tasks s' = tasks s → same_view s s' → page_hash s' = page_hash s → LRU_list_mutex s' = LRU_list_mutex s → calm None s s'.
Proof.
  intros Hi Hts [HL Hv] Hh Hm. split.
  - intros t' _ Hmx. rewrite Hm, HL, Hh. split_and!; [done| |done]. intros p Hp. by rewrite (view_zipped s s' p (Hv p)).
  - intros t' x' p _ _ _. rewrite HL. done.
  - intros t' _. by rewrite Hts.
  - intros k _. by rewrite Hh.
Qed.

Definition good (o : option nat) (s : table) (r : option table) : Prop := ∃ s', r = Some s' ∧ inv s' ∧ calm o s s'.

(** A watch that finds an entry. *)
Lemma watch_found_ok s t x k e mx :
  inv s → tasks s !! t = Some x → watched x = [] → claims x = [] → (t < P)%nat → page_hash s !! k = Some e →
  (LRU_list_mutex s = None ∨ LRU_list_mutex s = Some t) → mx = None →
  good (Some t) s (watch_found (with_mutex s mx) t k e).
Proof.
  intros Hi Ht Hw Hcl Hlt Hk Hmx ->. pose proof (v_fits _ Hi) as Hf. unfold good, watch_found.
  assert (∀ t', Some t ≠ Some t' → LRU_list_mutex s ≠ Some t') as Hno by (intros t' ? ?; destruct Hmx; congruence).
  destruct e as [i|p].
  - pose proof (f_entry _ _ _ _ _ Hf k) as He. rewrite Hk in He. destruct He as [Hi1 Hn]. cbn [with_mutex watch mbind option_bind].
    rewrite Hi1. cbn [mbind option_bind]. eexists. split; [done|]. set (s' := with_task _ _ _).
    assert (∀ k', occ k' (refs s') = (if decide (k = k') then 1 else 0) + occ k' (refs s)) as Hoc.
    { intros k'. unfold refs, s'. fields. rewrite !occ_app, (occ_task _ _ _ _ _ Ht), Hw, ?occ_cons. cbn [watched occ Zsum]. rewrite ?occ_cons. cbn [occ Zsum]. lia. }
    assert (calm (Some t) s s') as Hcalm by (eapply quiet_calm; [done|done|done|done|done|intros t' H1 H2; by destruct (Hno t')]).
    split; [|done]. eapply inv_table_thread; [done|done|exact (task_set s t _ _ Ht)| | |apply Hi|refine (claims_drop s t _ _ Hi Ht _); reflexivity|cbn; by rewrite length_insert].
    + done.
    + cbn. eapply fits_watch; [exact Hf|exact Hk| | |].
      * intros k' Hne. rewrite Hoc, decide_False by congruence. done.
      * rewrite Hoc, decide_True by done. lia.
      * lia.
  - destruct (fits_page _ _ _ _ _ _ _ Hf Hk) as (Hp & b & Hb & Hid & Hfix & Hok). unfold fix_page. cbn [with_mutex pages]. rewrite Hb. cbn [mbind option_bind].
    eexists. split; [done|]. set (s' := with_task _ _ _).
    assert (∀ k', occ k' (refs s') = (if decide (k = k') then 1 else 0) + occ k' (refs s)) as Hoc.
    { intros k'. unfold refs, s'. fields. rewrite !occ_app, (occ_task _ _ _ _ _ Ht), Hw, ?occ_cons. cbn [watched occ Zsum]. rewrite ?occ_cons. cbn [occ Zsum]. lia. }
    assert (calm (Some t) s s') as Hcalm.
    { eapply quiet_calm; [done|done|done|split; [done|by eapply insert_view]|done|intros t' H1 H2; by destruct (Hno t')]. }
    split; [|done]. eapply inv_table_thread; [done|done|exact (task_set s t _ _ Ht)| | | |refine (claims_drop s t _ _ Hi Ht _); reflexivity|done].
    + done.
    + cbn. eapply fits_block; [exact Hf|done|done|done|done| |].
      * cbn. rewrite Hoc, Hid, decide_True by done. lia.
      * intros k' Hne. rewrite Hoc, decide_False by congruence. done.
    + intros k' [->|Hk']%elem_of_cons; cbn; [by rewrite Hk|by apply Hi].
Qed.

Lemma watch_set_ok s t k :
  inv s → tasks s !! t = Some TIdle → (t < P)%nat → LRU_list_mutex s = None → good (Some t) s (buf_pool_watch_set s t k).
Proof.
  intros Hi Ht Hlt Hmx. unfold buf_pool_watch_set. destruct (page_hash s !! k) as [e|] eqn:Hk.
  - replace s with (with_mutex s None) at 2 by (destruct s; cbn in *; by subst). by eapply watch_found_ok; eauto.
  - eexists. split; [done|]. set (s' := with_task _ _ _).
    assert (calm (Some t) s s') as Hcalm by (eapply quiet_calm; [done|done|done|done|done|intros t' H1 H2; congruence]).
    split; [|done]. eapply inv_table_thread; [done|done|exact (task_set s t _ _ Ht)| | |apply Hi|refine (claims_drop s t _ _ Hi Ht _); reflexivity|done].
    + done.
    + cbn. eapply fits_ext; [|apply Hi]. intros k'. unfold refs. fields. rewrite !occ_app, (occ_task _ _ _ _ _ Ht). cbn [watched occ Zsum]. lia.
Qed.

(** There is always a free sentinel: every used one has a purge thread that watches. *)
Lemma find_sentinel_spec w i : find_sentinel w = Some i → w !! i = Some None.
Proof.
  revert i. induction w as [|[x|] w IH]; intros i H; cbn in H; [done| |by simplify_eq]. apply fmap_Some in H as (j & Hj & ->). by apply IH.
Qed.

Lemma find_sentinel_none w : find_sentinel w = None → ∀ i x, w !! i = Some x → is_Some x.
Proof.
  induction w as [|[y|] w IH]; intros H [|i] x Hx; cbn in *; simplify_eq; [by eexists|]. apply fmap_None in H. by eapply IH.
Qed.

Lemma few_watched ts : (∀ t x, ts !! t = Some x → watched x ≠ [] → (t < P)%nat) → (length (ts ≫= watched) ≤ P)%nat.
Proof.
  intros H. rewrite <- (take_drop P ts), bind_app, length_app.
  assert (drop P ts ≫= watched = []) as ->.
  { assert (∀ l : list task, (∀ x, x ∈ l → watched x = []) → l ≫= watched = []) as Hz.
    { intros l Hl. induction l as [|x l IH]; [done|]. cbn. rewrite Hl, IH; [done|set_solver|by left]. }
    apply Hz. intros x [j Hj]%list_elem_of_lookup. rewrite lookup_drop in Hj. destruct (watched x) eqn:E; [done|].
    specialize (H _ _ Hj ltac:(by rewrite E)). lia. }
  assert (∀ l : list task, (length (l ≫= watched) ≤ length l)%nat) as Hl.
  { intros l. induction l as [|x l IH]; [done|]. change (length (watched x ++ (l ≫= watched)) ≤ S (length l))%nat. rewrite length_app. destruct x; cbn [watched length]; lia. }
  specialize (Hl (take P ts)). rewrite length_take in Hl. cbn. lia.
Qed.

Lemma sentinel_free s : inv s → (∀ k i, page_hash s !! k = Some (EWatch i) → k ∈ tasks s ≫= watched) → is_Some (find_sentinel (watch s)).
Proof.
  intros Hi Hw. destruct (find_sentinel (watch s)) as [i|] eqn:Hfs; [by eexists|]. exfalso.
  pose proof (find_sentinel_none _ Hfs) as Hall. pose proof (v_fits _ Hi) as Hf.
  set (ks := omap (λ w : sentinel, fst <$> w) (watch s)).
  assert (∀ w, (∀ i x, w !! i = Some x → is_Some x) → length (omap (λ w : sentinel, fst <$> w) w) = length w) as Hlen.
  { intros w. induction w as [|[y|] w IH]; intros Ha; [done| |by destruct (Ha 0%nat None eq_refl)]. cbn. f_equal. apply IH. intros j x Hj. by apply (Ha (S j)). }
  assert (∀ (w : list sentinel) (o : nat), (∀ i k n, w !! i = Some (Some (k, n)) → page_hash s !! k = Some (EWatch (o + i)%nat)) → NoDup (omap (λ w : sentinel, fst <$> w) w)) as Hnd.
  { intros w. induction w as [|[[k n]|] w IH]; intros o Ho; cbn; [constructor| |].
    - constructor; [|apply (IH (S o)); intros j k' n' Hj; rewrite Nat.add_succ_comm; by apply (Ho (S j) k' n')].
      intros (x & Hx & Hxk)%list_elem_of_omap. destruct x as [[k' n']|]; [|done]. cbn in Hxk. simplify_eq.
      apply list_elem_of_lookup in Hx as [j Hj]. pose proof (Ho 0%nat k n eq_refl) as H0. pose proof (Ho (S j) k n' Hj) as H1.
      rewrite H0 in H1. simplify_eq. lia.
    - apply (IH (S o)). intros j k' n' Hj. rewrite Nat.add_succ_comm. by apply (Ho (S j) k' n'). }
  assert (ks ⊆ (tasks s ≫= watched)) as Hsub.
  { intros k (x & Hx & Hxk)%list_elem_of_omap. destruct x as [[k' n]|]; [|done]. cbn in Hxk. simplify_eq.
    apply list_elem_of_lookup in Hx as [j Hj]. apply (Hw k j). by eapply f_watch. }
  assert (length ks ≤ length (tasks s ≫= watched))%nat as Hle.
  { apply submseteq_length, NoDup_submseteq; [|done]. apply (Hnd (watch s) 0%nat). intros j k n Hj. by eapply f_watch. }
  unfold ks in Hle. rewrite Hlen, (v_length _ Hi) in Hle by done.
  assert (length (tasks s ≫= watched) ≤ P)%nat; [|lia]. apply few_watched. intros t x Hx Hne.
  pose proof (v_tasks _ Hi t x Hx) as Hok. destruct x; try done.
Qed.

Lemma watched_entry s k i : inv s → page_hash s !! k = Some (EWatch i) → k ∈ tasks s ≫= watched.
Proof.
  intros Hi Hk. pose proof (f_entry _ _ _ _ _ (v_fits _ Hi) k) as He. rewrite Hk in He. destruct He as [_ He%occ_elem].
  apply elem_of_app in He as [|He]; [done|]. pose proof (v_users _ Hi k He) as Hu. by rewrite Hk in Hu.
Qed.

Lemma watch_set_locked_ok s t k :
  inv s → tasks s !! t = Some (TSet k) → good (Some t) s (watch_set_locked s t k).
Proof.
  intros Hi Ht. pose proof (v_tasks _ Hi t _ Ht) as [Hmx Hlt]. unfold watch_set_locked. fields. destruct (page_hash s !! k) as [e|] eqn:Hk.
  { eapply watch_found_ok; eauto. }
  destruct (sentinel_free s Hi) as [i Hfs]; [intros; by eapply watched_entry|]. rewrite Hfs. cbn [mbind option_bind]. eexists. split; [done|].
  set (s' := with_task _ _ _).
  assert (calm (Some t) s s') as Hcalm.
  { eapply quiet_calm; [done|done|done|done| |intros t' H1 H2; congruence]. intros k'. unfold s'. fields.
    destruct (decide (k = k')) as [<-|]; [by rewrite lookup_insert_eq, Hk|by rewrite lookup_insert_ne]. }
  split; [|done]. eapply inv_table_thread; [done|done|exact (task_set s t _ _ Ht)| | | |refine (claims_drop s t _ _ Hi Ht _); reflexivity|unfold s'; fields; by rewrite length_insert].
  - done.
  - unfold s'. fields. eapply fits_ext; [|apply fits_new_watch; [apply Hi|done|by apply find_sentinel_spec]].
    intros k'. unfold refs. fields. rewrite !occ_cons, !occ_app, (occ_task _ _ _ _ _ Ht). cbn [watched]. rewrite !occ_cons. cbn [occ Zsum]. lia.
  - intros k' Hk'. unfold s' in *. fields. rewrite lookup_insert_ne; [by apply Hi|]. intros <-. pose proof (v_users _ Hi k Hk') as Hu. by rewrite Hk in Hu.
Qed.

(** The end of a watch. *)
Lemma watch_unset_ok s t k :
  inv s → tasks s !! t = Some (TWatch k) → good (Some t) s (buf_pool_watch_unset s t k).
Proof.
  intros Hi Ht. pose proof (v_fits _ Hi) as Hf. pose proof (v_tasks _ Hi t _ Ht) as Hlt. unfold buf_pool_watch_unset. fields.
  set (s1 := with_task s t TIdle).
  assert (∀ k', occ k' (refs s1) = occ k' (refs s) - (if decide (k = k') then 1 else 0)) as Hoc.
  { intros k'. unfold refs, s1. fields. rewrite !occ_app, (occ_task _ _ _ _ _ Ht). cbn [watched]. rewrite occ_cons. cbn [occ Zsum]. lia. }
  assert (0 < occ k (refs s)) as Hpos.
  { apply occ_elem. unfold refs. apply elem_of_app. left. apply list_elem_of_bind. exists (TWatch k). split; [by left|by eapply list_elem_of_lookup_2]. }
  pose proof (f_entry _ _ _ _ _ Hf k) as He. destruct (page_hash s !! k) as [[i|p]|] eqn:Hk; [| |lia]; cbn [mbind option_bind].
  - destruct He as [Hwi _]. rewrite Hwi. cbn [mbind option_bind]. eexists. split; [done|]. match goal with |- inv ?x ∧ _ => set (s' := x) end.
    assert (tasks s' = tasks s1 ∧ users s' = users s ∧ pages s' = pages s ∧ LRU s' = LRU s ∧ LRU_list_mutex s' = LRU_list_mutex s ∧ length (watch s') = length (watch s))
      as (E1 & E2 & E3 & E4 & E5 & E6) by (unfold s'; destruct (_ =? 0); fields; rewrite ?length_insert; done).
    assert (refs s' = refs s1) as ER by (unfold refs; by rewrite E1, E2).
    assert (∀ k', is_page (page_hash s' !! k') = is_page (page_hash s !! k') ∧ (page_hash s !! k' = None → page_hash s' !! k' = None)) as Hpg.
    { intros k'. unfold s'. destruct (_ =? 0); fields; [|done]. destruct (decide (k = k')) as [<-|]; [by rewrite lookup_delete_eq, Hk|by rewrite lookup_delete_ne]. }
    assert (calm (Some t) s s') as Hcalm.
    { eapply quiet_calm; [done|done|by rewrite E1|split; [done|by rewrite E3]|by intros k'; apply Hpg|]. intros t' _ Hm. rewrite E5. split; [done|]. intros k'. apply Hpg. }
    split; [|done]. eapply inv_table_thread; [done|done|rewrite E1; exact (task_set s t _ _ Ht)| | | |rewrite E1; refine (claims_drop s t _ _ Hi Ht _); reflexivity|done].
    + done.
    + rewrite ER, E3, E4. unfold s'. destruct (Z.eqb_spec (occ k (refs s) - 1) 0) as [H0|H0]; fields.
      * eapply fits_watch_remove; [exact Hf|done|intros k' Hne; rewrite Hoc, decide_False by congruence; lia|rewrite Hoc, decide_True by done; lia].
      * eapply fits_watch; [exact Hf|done|intros k' Hne; rewrite Hoc, decide_False by congruence; lia|rewrite Hoc, decide_True by done; lia|lia].
    + intros k'. rewrite E2. intros Hu. destruct (Hpg k') as [-> _]. by apply Hi.
  - destruct He as (Hp & b & Hb & Hid & Hfix & Hok). rewrite Hb. cbn [mbind option_bind]. eexists. split; [done|]. set (s' := with_page _ _ _).
    assert (calm (Some t) s s') as Hcalm by (eapply quiet_calm; [done|done|done|split; [done|by eapply insert_view]|done|done]).
    split; [|done]. eapply inv_table_thread; [done|done|exact (task_set s t _ _ Ht)| | |apply Hi|refine (claims_drop s t _ _ Hi Ht _); reflexivity|done].
    + done.
    + change (refs s') with (refs s1). unfold s'. fields. eapply fits_block; [exact Hf|done|done|done|done| |].
      * cbn [set_fix buf_fix_count]. rewrite Hoc, Hid, decide_True by done. lia.
      * intros k' Hne. rewrite Hoc, decide_False by congruence. lia.
Qed.

Lemma insert_zipped s s' p b b' q :
  pages s !! p = Some b → (zip_data b = true → zip_data b' = true) → pages s' = <[p:=b']> (pages s) → zipped s q = true → zipped s' q = true.
Proof.
  intros Hb Hz Hs. unfold zipped. rewrite Hs. destruct (decide (p = q)) as [<-|Hne]; [by rewrite lookup_insert_eq, Hb|by rewrite lookup_insert_ne].
Qed.

(** Steps in which a control block changes, and the fixes of its page. *)
Lemma server_block s p b b' us :
  inv s → p ∈ LRU s → pages s !! p = Some b → id b' = id b → block_ok b' → zip_data b' = zip_data b → (p ∈ tasks s ≫= claims → view b' = view b) →
  buf_fix_count b' - buf_fix_count b = occ (id b) us - occ (id b) (users s) → (∀ k, k ≠ id b → occ k us = occ k (users s)) →
  inv (with_users (with_page s p b') us) ∧ calm None s (with_users (with_page s p b') us).
Proof.
  intros Hi Hp Hb Hid Hok Hz Hv Hn HW. pose proof (v_fits _ Hi) as Hf. set (s' := with_users _ _).
  assert (calm None s s') as Hcalm.
  { split; [intros t _ Hm; split_and!; [done|intros q Hq; split; [done|by eapply insert_zipped; [exact Hb|rewrite Hz| ]]|done]| |done|done]. intros t x q _ Ht Hq. split; [done|]. unfold s'. fields.
    destruct (decide (p = q)) as [<-|Hne]; [|by rewrite lookup_insert_ne]. rewrite lookup_insert_eq, Hb. cbn. f_equal. apply Hv. by eapply claims_in. }
  split; [|done]. eapply inv_table_step; [done|done|done| | |apply Hi|done].
  - unfold s', refs. fields. eapply fits_block; [exact Hf|done|done|done|done| |].
    + unfold refs. rewrite !occ_app. lia.
    + intros k Hk. unfold refs. rewrite !occ_app, HW by done. done.
  - intros k Hk. change (is_page (page_hash s !! k) = true). destruct (decide (k = id b)) as [->|Hne].
    + destruct (f_LRU _ _ _ _ _ Hf p Hp) as (b0 & Hb0 & Hk0). rewrite Hb in Hb0. injection Hb0 as <-. by rewrite Hk0.
    + apply Hi. apply occ_elem. rewrite <- HW by done. by apply occ_elem.
Qed.

Lemma with_users_same s p b : with_users (with_page s p b) (users s) = with_page s p b.
Proof. done. Qed.

(** A change of a block that keeps the fix count. *)
Lemma change_ok s p b b' :
  inv s → p ∈ LRU s → pages s !! p = Some b → id b' = id b → block_ok b' → zip_data b' = zip_data b → buf_fix_count b' = buf_fix_count b →
  (p ∈ tasks s ≫= claims → view b' = view b) → good None s (Some (with_page s p b')).
Proof.
  intros Hi Hp Hb Hid Hok Hz Hn Hv. eexists. split; [done|]. rewrite <- with_users_same. eapply server_block; eauto. lia.
Qed.

Lemma fix_ok s k p : inv s → page_hash s !! k = Some (EPage p) → good None s (fix_page s k p).
Proof.
  intros Hi Hk. destruct (fits_page _ _ _ _ _ _ _ (v_fits _ Hi) Hk) as (Hp & b & Hb & Hid & _ & Hok). unfold good, fix_page. rewrite Hb. cbn [mbind option_bind].
  eexists. split; [done|]. eapply server_block; [done|done|exact Hb|done|done|done|done| |].
  - rewrite occ_cons, decide_True by done. cbn [set_fix buf_fix_count]. lia.
  - intros k' Hne. rewrite occ_cons, decide_False by congruence. done.
Qed.

Lemma occ_remove k k' l : k ∈ l → occ k' (remove_one k l) = occ k' l - (if decide (k = k') then 1 else 0).
Proof. intros Hk. rewrite (occ_perm k' _ _ (remove_one_perm k l Hk)), occ_cons. lia. Qed.

Lemma unfix_ok s k p b :
  inv s → k ∈ users s → page_hash s !! k = Some (EPage p) → pages s !! p = Some b →
  good None s (Some (with_users (with_page s p (set_fix b (buf_fix_count b - 1))) (remove_one k (users s)))).
Proof.
  intros Hi Hu Hk Hb. destruct (fits_page _ _ _ _ _ _ _ (v_fits _ Hi) Hk) as (Hp & b' & Hb' & Hid & _ & Hok). simplify_eq.
  eexists. split; [done|]. eapply server_block; [done|done|exact Hb|done|done|done|done| |].
  - rewrite occ_remove, decide_True by done. cbn [set_fix buf_fix_count]. lia.
  - intros k' Hne. rewrite occ_remove, decide_False by (done || congruence). lia.
Qed.

Lemma user_page s k : inv s → k ∈ users s → ∃ p b, page_hash s !! k = Some (EPage p) ∧ p ∈ LRU s ∧ pages s !! p = Some b ∧ id b = k ∧
  buf_fix_count b = occ k (refs s) ∧ block_ok b.
Proof.
  intros Hi Hu. pose proof (v_users _ Hi k Hu) as Hp. destruct (page_hash s !! k) as [[i|p]|] eqn:Hk; try done. exists p.
  destruct (fits_page _ _ _ _ _ _ _ (v_fits _ Hi) Hk) as (? & b & ? & ? & ? & ?). by exists b.
Qed.

(** A page moves to a control block that was not in use. *)
Lemma fits_move pg ph wt lr W k p d b pg' :
  fits pg ph wt lr W → ph !! k = Some (EPage p) → d ∉ lr → pg' !! d = Some b → id b = k → buf_fix_count b = occ k W → block_ok b →
  (∀ q, q ≠ p → q ≠ d → pg' !! q = pg !! q) → fits pg' (<[k:=EPage d]> ph) wt ({[d]} ∪ lr ∖ {[p]}) W.
Proof.
  intros Hf Hk Hd Hb Hid Hn Hok Hpg. destruct (fits_page _ _ _ _ _ _ _ Hf Hk) as (Hp & bp & Hbp & Hidp & _). split.
  - intros k'. destruct (decide (k' = k)) as [->|Hne]; [rewrite lookup_insert_eq; split; [set_solver|by exists b]|].
    rewrite lookup_insert_ne by done. pose proof (f_entry _ _ _ _ _ Hf k') as He. destruct (ph !! k') as [[j|q]|] eqn:Hk'; [done| |done].
    destruct He as (Hq & c & Hc & Hidc & ?). assert (q ≠ p) as Hqp by (intros ->; simplify_eq). assert (q ≠ d) by congruence.
    split; [set_solver|]. exists c. by rewrite Hpg.
  - intros q Hq. destruct (decide (q = d)) as [->|Hne]; [exists b; by rewrite Hid, lookup_insert_eq|].
    destruct (f_LRU _ _ _ _ _ Hf q ltac:(set_solver)) as (c & Hc & Hkc). exists c. rewrite Hpg by set_solver. split; [done|].
    rewrite lookup_insert_ne; [done|]. intros ->. assert (q ≠ p) by set_solver. congruence.
  - intros i k' n Hi. pose proof (f_watch _ _ _ _ _ Hf i k' n Hi). rewrite lookup_insert_ne; [done|]. congruence.
Qed.

Lemma fresh_block s d : inv s → pages s !! d = None → d ∉ LRU s ∧ d ∉ tasks s ≫= claims.
Proof.
  intros Hi Hd. split; intros Hin.
  - destruct (f_LRU _ _ _ _ _ (v_fits _ Hi) d Hin) as (b & ? & _). congruence.
  - destruct (claimed_block _ _ Hi Hin). congruence.
Qed.

Lemma decompress_ok s k d :
  inv s → k ∈ users s → LRU_list_mutex s = None → pages s !! d = None → good None s (decompress s k d).
Proof.
  intros Hi Hu Hm Hd. destruct (user_page s k Hi Hu) as (p & b & Hk & Hp & Hb & Hid & Hfix & Hok). pose proof (v_fits _ Hi) as Hf.
  destruct (fresh_block s d Hi Hd) as [HdL Hdc]. unfold decompress. rewrite Hk. cbn [mbind option_bind]. rewrite Hb. cbn [mbind option_bind].
  cbn [set_fix buf_fix_count io_fix]. destruct (_ || _) eqn:Hbusy; [exact (unfix_ok s k p b Hi Hu Hk Hb)|].
  apply orb_false_iff in Hbusy as [H1%Z.ltb_ge H2%negb_false_iff%bool_decide_eq_true].
  assert (0 < occ k (refs s)) as Hpos by (apply occ_elem; unfold refs; set_solver).
  assert (buf_fix_count b = 1) as Hone by lia.
  unfold buf_relocate. fields. rewrite lookup_insert_eq. cbn [mbind option_bind]. unfold buf_page_can_relocate. cbn [set_fix buf_fix_count io_fix id].
  rewrite bool_decide_true by done. replace (buf_fix_count b - 1 =? 0) with true by lia. cbn [andb mbind option_bind]. fields. rewrite lookup_insert_eq. cbn [mbind option_bind].
  assert (p ≠ d) as Hpd by congruence.
  assert (p ∉ tasks s ≫= claims) as Hpc by (eapply unclaimed; [done|done|done|congruence..]).
  eexists. split; [done|]. match goal with |- inv ?x ∧ _ => set (s' := x) end.
  assert (∀ k', is_page (page_hash s' !! k') = is_page (page_hash s !! k')) as Hpg.
  { intros k'. unfold s'. fields. cbn [set_fix id]. rewrite Hid. destruct (decide (k = k')) as [<-|]; [by rewrite lookup_insert_eq, Hk|by rewrite lookup_insert_ne]. }
  assert (∀ q, q ≠ p → q ≠ d → pages s' !! q = pages s !! q) as Hold.
  { intros q Hqp Hqd. unfold s'. fields. by rewrite lookup_delete_ne, !lookup_insert_ne. }
  assert (calm None s s') as Hcalm.
  { split; [intros; congruence| |done|intros k' _; by rewrite Hpg]. intros t x q _ Ht Hq. pose proof (claims_in _ _ _ _ Ht Hq) as Hqc.
    assert (q ≠ p ∧ q ≠ d) as [Hqp Hqd] by (split; intros ->; done). rewrite Hold by done. split; [|done]. unfold s'. fields. set_solver. }
  split; [|done]. eapply inv_table_step; [done|done|done| |intros k'; rewrite Hpg; apply Hi|apply Hi|done].
  change (refs s') with (refs s). unfold s' at 2 3 4. fields. cbn [set_fix id]. rewrite Hid. eapply fits_move; [exact Hf|done|done| | | | |done].
  - unfold s'. fields. by rewrite lookup_delete_ne, lookup_insert_eq.
  - done.
  - cbn. lia.
  - done.
Qed.

(** * Pages that come *)

Lemma take_over_ok s k :
  inv s → is_page (page_hash s !! k) = false →
  ∃ h w, take_over s k = Some (with_watch (with_hash s h) w, occ k (refs s)) ∧ length w = length (watch s) ∧
    h !! k = None ∧ (∀ k', k' ≠ k → h !! k' = page_hash s !! k') ∧
    ∀ W, occ k W = 0 → (∀ k', k' ≠ k → occ k' W = occ k' (refs s)) → fits (pages s) h w (LRU s) W.
Proof.
  intros Hi Hk. pose proof (v_fits _ Hi) as Hf. pose proof (f_entry _ _ _ _ _ Hf k) as He. unfold take_over.
  destruct (page_hash s !! k) as [[i|p]|] eqn:Hkk; [|done|].
  - destruct He as [Hw Hpos]. rewrite Hw. cbn [mbind option_bind]. rewrite (proj2 (Z.ltb_lt _ _) Hpos). eexists _, _. split; [done|].
    split_and!; [by rewrite length_insert|by rewrite lookup_delete_eq|intros; by rewrite lookup_delete_ne|].
    intros W H0 HW. by eapply fits_watch_remove.
  - exists (page_hash s), (watch s). rewrite He. split_and!; [by destruct s|done|done|done|]. intros W H0 HW. eapply fits_ext; [|exact Hf].
    intros k'. destruct (decide (k' = k)) as [->|]; [lia|auto].
Qed.

Lemma occ_filter k k' W : occ k' (filter (λ x, x ≠ k) W) = if decide (k' = k) then 0 else occ k' W.
Proof.
  induction W as [|x W IH]; [by destruct (decide _)|]. rewrite filter_cons, occ_cons.
  destruct (decide (x ≠ k)) as [Hx|Hx]; [rewrite occ_cons|apply dec_stable in Hx as ->]; rewrite IH; repeat case_decide; (lia || congruence).
Qed.

(** Thread [t] enters the page [k] with the control block [p], after the sentinel is removed. *)
Lemma enter_ok s h w s' t x y k p b :
  inv s → tasks s !! t = Some x → watched x = [] → watched y = [] → is_page (page_hash s !! k) = false →
  take_over s k = Some (with_watch (with_hash s h) w, occ k (refs s)) → p ∉ LRU s → p ∉ tasks s ≫= claims → id b = k → block_ok b →
  buf_fix_count b = occ k (refs s) + (occ k (users s') - occ k (users s)) → (∀ k', k' ≠ k → occ k' (users s') = occ k' (users s)) →
  tasks s' = <[t:=y]> (tasks s) → page_hash s' = <[k:=EPage p]> h → watch s' = w → LRU s' = {[p]} ∪ LRU s →
  pages s' !! p = Some b → (∀ q, q ≠ p → q ∈ LRU s ∨ q ∉ claims x → pages s' !! q = pages s !! q) →
  (∀ t', t ≠ t' → LRU_list_mutex s ≠ Some t') → task_ok s' t y → NoDup (claims y) → (∀ q, q ∈ claims y → q = p ∨ q ∈ claims x) →
  inv s' ∧ calm (Some t) s s'.
Proof.
  intros Hi Ht Hwx Hwy Hk Hto HpL Hpc Hid Hok Hfix HW Hts Hh Hw HL Hb Hold Hmx Hoky Hnd Hcy.
  destruct (take_over_ok s k Hi Hk) as (h' & w' & Hto' & Hlen & Hk1 & Hko & Hfits). rewrite Hto in Hto'. injection Hto' as <- <-.
  assert (∀ k', k' ≠ k → is_page (page_hash s' !! k') = is_page (page_hash s !! k')) as Hpg by (intros k' Hne; by rewrite Hh, lookup_insert_ne, Hko).
  assert (is_page (page_hash s' !! k) = true) as Hpk by (by rewrite Hh, lookup_insert_eq).
  assert (calm (Some t) s s') as Hcalm.
  { split.
    - intros t' Hne Hm. destruct (Hmx t'); congruence.
    - intros t' x' q Hne Ht' Hq. assert (q ≠ p) as Hqp by (intros ->; apply Hpc; by eapply claims_in). rewrite HL. split; [set_solver|].
      rewrite Hold; [done|done|]. right. intros Hqx. by eapply (claims_other s t x t' x' q); [done|done|done|done|congruence|].
    - intros t' Hne. by rewrite Hts, list_lookup_insert_ne by congruence.
    - intros k' _ Hk'. destruct (decide (k' = k)) as [->|Hne]; [done|by rewrite Hpg]. }
  split; [|done]. eapply inv_table_thread; [done|done|rewrite Hts; by eapply list_lookup_insert_eq, lookup_lt_Some|done| | | |by rewrite Hw].
  - rewrite HL, Hh, Hw. eapply fits_other; [|eapply (fits_enter (pages s)); [apply (Hfits (filter (λ x, x ≠ k) (refs s)))| | | | | |]].
    + intros q Hq. destruct (decide (q = p)) as [->|Hne]; [by rewrite lookup_insert_eq|]. rewrite lookup_insert_ne by done. apply Hold; [done|set_solver].
    + by rewrite occ_filter, decide_True.
    + intros k' Hne. by rewrite occ_filter, decide_False.
    + done.
    + done.
    + exact Hid.
    + done.
    + rewrite Hfix. unfold refs. rewrite Hts, !occ_app, (occ_task _ _ _ _ _ Ht), Hwx, Hwy. cbn [occ Zsum]. lia.
    + intros k' Hne. rewrite occ_filter, decide_False by done. unfold refs.
      rewrite Hts, !occ_app, (occ_task _ _ _ _ _ Ht), Hwx, Hwy, HW by done. cbn [occ Zsum]. lia.
  - intros k' Hu. destruct (decide (k' = k)) as [->|Hne]; [done|]. rewrite Hpg by done. apply Hi, occ_elem. rewrite <- HW by done. by apply occ_elem.
  - rewrite Hts. eapply claims_task; [apply Hi|exact Ht|done|]. intros q Hq. destruct (Hcy q Hq) as [->|]; auto.
Qed.

Lemma no_page {A} e (f : nat → A) g : is_page e = false → match e with Some (EPage q) => f q | _ => g end = g.
Proof. by destruct e as [[]|]. Qed.

Lemma good_server t s r : good None s r → good (Some t) s r.
Proof. intros (s' & ? & ? & [Hm Hc Ht Hl]). exists s'. split_and!; [done|done|]. split; [by intros; apply Hm|by intros; eapply Hc|by intros; eapply Ht|done]. Qed.

Lemma good_same s t : inv s → good (Some t) s (Some s).
Proof. intros Hi. apply good_server. eexists. split; [done|]. split; [done|by apply quiet_server]. Qed.

(** A step in which thread [t] only goes on to another task. *)
Lemma table_task_step s t x y mx :
  inv s → tasks s !! t = Some x → watched x = [] → watched y = [] → claims y = [] → task_ok (with_task (with_mutex s mx) t y) t y →
  (mx = LRU_list_mutex s ∨ ∀ t', t ≠ t' → LRU_list_mutex s ≠ Some t') → good (Some t) s (Some (with_task (with_mutex s mx) t y)).
Proof.
  intros Hi Ht Hx Hy Hc Hok Hmx. eexists. split; [done|]. set (s' := with_task _ _ _).
  assert (calm (Some t) s s') as Hcalm.
  { eapply quiet_calm; [done|done|done|done|done|]. intros t' Hne Hm. destruct Hmx as [->|Hmx]; [done|]. destruct (Hmx t'); congruence. }
  split; [|done]. eapply inv_table_thread; [done|done|exact (task_set s t _ _ Ht)|done| |apply Hi|exact (claims_drop s t _ _ Hi Ht Hc)|done].
  unfold s'. fields. eapply fits_ext; [|apply Hi]. intros k'. unfold refs. fields. rewrite !occ_app, (occ_task _ _ _ _ _ Ht), Hx, Hy. lia.
Qed.

Lemma page_read_ok s t k p compressed unzip deleted :
  inv s → tasks s !! t = Some TIdle → LRU_list_mutex s = None → pages s !! p = None →
  good (Some t) s (buf_page_init_for_read s t k p compressed unzip deleted).
Proof.
  intros Hi Ht Hm Hp. destruct (fresh_block s p Hi Hp) as [HpL Hpc]. unfold buf_page_init_for_read.
  destruct (is_page (page_hash s !! k)) eqn:Hk; [destruct (page_hash s !! k) as [[]|]; [done|by apply good_same|done]|].
  rewrite no_page by done. destruct deleted; [by apply good_same|]. destruct (compressed && negb unzip).
  { replace s with (with_mutex s (LRU_list_mutex s)) at 2 by (by destruct s). by eapply table_task_step; eauto. }
  destruct (take_over_ok s k Hi Hk) as (h & w & Hto & _). unfold buf_page_init. rewrite Hto. cbn [mbind option_bind]. unfold set_page_io. fields.
  rewrite lookup_insert_eq. cbn [mbind option_bind]. eexists. split; [done|].
  assert (∀ q, q ≠ p → <[p:=set_io (Page k BUF_BLOCK_FILE_PAGE false (occ k (refs s)) BUF_IO_NONE 0) BUF_IO_READ]> (<[p:=Page k BUF_BLOCK_FILE_PAGE false (occ k (refs s)) BUF_IO_NONE 0]> (pages s)) !! q = pages s !! q)
    as Hold by (intros q Hq; by rewrite !lookup_insert_ne).
  destruct compressed.
  - eapply (enter_ok s h w _ t TIdle (TZip p false) k p (Page k BUF_BLOCK_FILE_PAGE false (occ k (refs s)) BUF_IO_READ 0)); try done; fields; try by rewrite lookup_insert_eq.
    + cbn [buf_fix_count]. lia.
    + by intros; apply Hold.
    + by rewrite Hm.
    + cbn [task_ok]. fields. split; [set_solver|]. eexists. by rewrite lookup_insert_eq.
    + apply NoDup_singleton.
    + set_solver.
  - eapply (enter_ok s h w _ t TIdle TIdle k p (Page k BUF_BLOCK_FILE_PAGE false (occ k (refs s)) BUF_IO_READ 0)); try done; fields; try by rewrite lookup_insert_eq.
    + cbn [buf_fix_count]. lia.
    + symmetry. by apply list_insert_id.
    + by intros; apply Hold.
    + by rewrite Hm.
    + constructor.
    + set_solver.
Qed.

Lemma take_over_task s t y k : take_over (with_task s t y) k = (λ r, (with_task r.1 t y, r.2)) <$> take_over s k.
Proof.
  unfold take_over. fields. destruct (page_hash s !! k) as [[i|p]|]; [|done..]. destruct (watch s !! i) as [[[k' n]|]|]; [|done..]. cbn [mbind option_bind].
  by destruct (0 <? n).
Qed.

Lemma read_compressed_ok s t k p :
  inv s → tasks s !! t = Some (TRead k) → LRU_list_mutex s = None → pages s !! p = None → good (Some t) s (read_compressed s t k p).
Proof.
  intros Hi Ht Hm Hp. destruct (fresh_block s p Hi Hp) as [HpL Hpc]. unfold read_compressed. fields.
  assert (good (Some t) s (Some (with_task s t TIdle))) as Hidle.
  { replace s with (with_mutex s (LRU_list_mutex s)) at 2 by (by destruct s). by eapply table_task_step; eauto. }
  destruct (is_page (page_hash s !! k)) eqn:Hk; [by destruct (page_hash s !! k) as [[]|]|]. rewrite no_page by done.
  destruct (take_over_ok s k Hi Hk) as (h & w & Hto & _). rewrite take_over_task, Hto. cbn [fmap option_fmap option_map mbind option_bind fst snd].
  eexists. split; [done|]. eapply (enter_ok s h w _ t (TRead k) TIdle k p (Page k BUF_BLOCK_ZIP_PAGE true (occ k (refs s)) BUF_IO_READ 0)); try done; fields; try by rewrite lookup_insert_eq.
  - cbn [buf_fix_count]. lia.
  - intros q Hq _. by rewrite lookup_insert_ne.
  - by rewrite Hm.
  - constructor.
  - set_solver.
Qed.

Lemma create_ok s t k p compressed :
  inv s → tasks s !! t = Some TIdle → LRU_list_mutex s = None → pages s !! p = None → good (Some t) s (buf_page_create s t k p compressed).
Proof.
  intros Hi Ht Hm Hp. destruct (fresh_block s p Hi Hp) as [HpL Hpc]. unfold buf_page_create.
  destruct (is_page (page_hash s !! k)) eqn:Hk.
  { destruct (page_hash s !! k) as [[i|q]|] eqn:Hkq; [done| |done]. by apply good_same. }
  rewrite no_page by done. destruct (take_over_ok s k Hi Hk) as (h & w & Hto & _). unfold buf_page_init. rewrite Hto. cbn [mbind option_bind].
  unfold fix_page. fields. rewrite lookup_insert_eq. cbn [mbind option_bind]. unfold set_page_io. fields. rewrite ?lookup_insert_eq. cbn [mbind option_bind].
  assert (∀ k', occ k' (k :: users s) = (if decide (k = k') then 1 else 0) + occ k' (users s)) as Hu by (intros; apply occ_cons).
  destruct compressed; (eexists; split; [done|]).
  - eapply (enter_ok s h w _ t TIdle (TZip p true) k p (Page k BUF_BLOCK_FILE_PAGE false (occ k (refs s) + 1) BUF_IO_READ 0)); try done; fields;
      rewrite ?lookup_insert_eq; try done.
    + rewrite Hu, decide_True by done. cbn [buf_fix_count]. lia.
    + intros k' Hne. by rewrite Hu, decide_False by congruence.
    + intros q Hq _. by rewrite !lookup_insert_ne.
    + by rewrite Hm.
    + cbn [task_ok]. fields. split; [set_solver|]. eexists. by rewrite lookup_insert_eq.
    + apply NoDup_singleton.
    + set_solver.
  - eapply (enter_ok s h w _ t TIdle TIdle k p (Page k BUF_BLOCK_FILE_PAGE false (occ k (refs s) + 1) BUF_IO_NONE 0)); try done; fields;
      rewrite ?lookup_insert_eq; try done.
    + rewrite Hu, decide_True by done. cbn [buf_fix_count]. lia.
    + intros k' Hne. by rewrite Hu, decide_False by congruence.
    + symmetry. by apply list_insert_id.
    + intros q Hq _. by rewrite !lookup_insert_ne.
    + by rewrite Hm.
    + constructor.
    + set_solver.
Qed.

(** A block that thread [t] has claimed changes, or its page is freed. *)
Lemma zip_allocated_ok s t p create : inv s → tasks s !! t = Some (TZip p create) → good (Some t) s (zip_allocated s t p create).
Proof.
  intros Hi Ht. pose proof (v_tasks _ Hi t _ Ht) as (Hp & b & Hb & Hst & Hio). unfold zip_allocated. rewrite Hb. cbn [mbind option_bind].
  set (b' := if create then _ else _). assert (id b' = id b ∧ buf_fix_count b' = buf_fix_count b ∧ state b' = state b ∧ zip_data b' = true) as (Hid & Hfix & Hst' & Hz) by (unfold b'; by destruct create).
  eexists. split; [done|]. set (s' := with_task _ _ _).
  assert (calm (Some t) s s') as Hcalm.
  { split; [intros t' _ Hm; split_and!; [done|intros q Hq; split; [done|by eapply insert_zipped; [exact Hb|rewrite Hz|]]|done]| |intros t' Hne; unfold s'; fields; by rewrite list_lookup_insert_ne by congruence|done]. intros t' x' q Hne Ht' Hq. split; [done|]. unfold s'. fields.
    rewrite lookup_insert_ne; [done|]. intros <-. eapply (claims_other s t _ t' x' p); [done|done|by left|done|congruence|done]. }
  split; [|done]. eapply inv_table_thread; [done|done|exact (task_set s t _ _ Ht)|done| |apply Hi|refine (claims_drop s t _ _ Hi Ht _); reflexivity|done].
  unfold s'. fields. eapply fits_block; [apply Hi|done|done|done|by unfold block_ok; rewrite Hst', Hst| |].
  - unfold refs. fields. rewrite !occ_app, (occ_task _ _ _ _ _ Ht). cbn [watched occ Zsum]. lia.
  - intros k' _. unfold refs. fields. rewrite !occ_app, (occ_task _ _ _ _ _ Ht). cbn [watched occ Zsum]. lia.
Qed.

(** * Pages that go *)

Lemma page_free_ok s t p zip :
  inv s → tasks s !! t = Some TIdle → LRU_list_mutex s = None → p ∈ LRU s → good (Some t) s (buf_LRU_free_page s t p zip).
Proof.
  intros Hi Ht Hm Hp. destruct (fits_listed _ _ _ _ _ _ (v_fits _ Hi) Hp) as (b & Hb & _). unfold buf_LRU_free_page. rewrite Hb. cbn [mbind option_bind].
  destruct (may_free b zip); [|by apply good_same]. eapply table_task_step; [done|exact Ht|done|done|done| |right; by rewrite Hm].
  cbn [task_ok]. unfold zipped. fields. rewrite Hb. split_and!; [done|done|]. by destruct zip, (zip_data b).
Qed.

(** Thread [t], which holds the mutex of the list, removes a page that nobody refers to. *)
Lemma leave_ok s s' t x y p b :
  inv s → tasks s !! t = Some x → watched x = [] → watched y = [] → LRU_list_mutex s = Some t → p ∈ LRU s → pages s !! p = Some b →
  buf_fix_count b = 0 → io_fix b = BUF_IO_NONE → LRU s' = LRU s ∖ {[p]} → page_hash s' = delete (id b) (page_hash s) → watch s' = watch s → users s' = users s →
  (∀ q, q ≠ p → pages s' !! q = pages s !! q) → tasks s' = <[t:=y]> (tasks s) → NoDup (claims y) → (∀ q, q ∈ claims y → q = p) → task_ok s' t y →
  inv s' ∧ calm (Some t) s s'.
Proof.
  intros Hi Ht Hwx Hwy Hm Hp Hb Hfix Hio HL Hh Hw Hu Hold Hts Hnd Hcy Hok. pose proof (v_fits _ Hi) as Hf.
  destruct (fits_listed _ _ _ _ _ _ Hf Hp) as (b' & Hb' & Hk & Hn & _). rewrite Hb in Hb'. injection Hb' as <-.
  assert (id b ∉ refs s) as Hnone by (rewrite occ_elem; lia).
  assert (p ∉ tasks s ≫= claims) as Hpc by (eapply unclaimed; [done|done|done|congruence..]).
  assert (∀ k, k ∈ refs s → page_hash s' !! k = page_hash s !! k) as Hkeep by (intros k Hkr; rewrite Hh, lookup_delete_ne; [done|by intros <-]).
  assert (calm (Some t) s s') as Hcalm.
  { split; [intros; congruence| | |intros k Hkr; by rewrite Hkeep].
    - intros t' x' q _ Ht' Hq. assert (q ≠ p) as Hqp by (intros ->; apply Hpc; by eapply claims_in). rewrite HL, Hold by done. set_solver.
    - intros t' Hne. by rewrite Hts, list_lookup_insert_ne by congruence. }
  split; [|done]. eapply inv_table_thread; [done|done|rewrite Hts; by eapply task_set|done| | | |by rewrite Hw].
  - rewrite HL, Hh, Hw. eapply fits_other; [|eapply fits_ext; [|by eapply fits_leave; [exact Hf|exact Hk|lia]]].
    + intros q Hq. apply Hold. set_solver.
    + intros k. unfold refs. rewrite Hts, Hu, !occ_app, (occ_task _ _ _ _ _ Ht), Hwx, Hwy. lia.
  - intros k. rewrite Hu. intros Hku. rewrite Hkeep; [by apply Hi|]. unfold refs. set_solver.
  - rewrite Hts. eapply claims_task; [apply Hi|exact Ht|done|]. intros q ->%Hcy. by right.
Qed.

Lemma free_locked_ok s t p zip keep : inv s → tasks s !! t = Some (TFree p zip keep) → good (Some t) s (free_locked s t p zip keep).
Proof.
  intros Hi Ht. pose proof (v_tasks _ Hi t _ Ht) as (Hm & Hp & Hz). destruct (fits_listed _ _ _ _ _ _ (v_fits _ Hi) Hp) as (b & Hb & Hk & Hn & Hok).
  unfold free_locked. rewrite Hb. cbn [mbind option_bind]. destruct (may_free b zip) eqn:Hmay; [|eapply table_task_step; [done|exact Ht|done|done|done|done|right; congruence]].
  unfold may_free in Hmay. apply andb_true_iff in Hmay as [Hcan Hmay]. unfold buf_LRU_block_remove_hashed. rewrite Hb. cbn [mbind option_bind]. rewrite Hcan.
  apply andb_true_iff in Hcan as [Hio%bool_decide_eq_true Hfix%Z.eqb_eq]. fields. rewrite Hk, Nat.eqb_refl.
  unfold block_ok in Hok. destruct (state b) eqn:Hst; try done.
  - destruct Hok as [Hzb H0]. rewrite Hzb, H0. cbn [andb Z.eqb mbind option_bind]. eexists. split; [done|].
    eapply (leave_ok s _ t (TFree p zip keep) TIdle p b); try done; fields; [|constructor|set_solver]. intros q Hq. by rewrite lookup_delete_ne.
  - destruct Hok as [Hzb H0]. rewrite Hzb, bool_decide_false, orb_false_r in Hmay by done. replace (oldest_modification b =? 0) with false in Hmay by lia. by destruct zip.
  - assert ((if zip_data b then negb zip || (oldest_modification b =? 0) else oldest_modification b =? 0) = true) as ->.
    { destruct (zip_data b), zip; cbn in Hmay |- *; done. }
    cbn [andb mbind option_bind]. unfold zipped in Hz. rewrite Hb in Hz. destruct keep.
    + specialize (Hz eq_refl). eexists. split; [done|].
      eapply (leave_ok s _ t (TFree p zip true) (TReinsert p b) p b); try done; fields.
      * intros q Hq. by rewrite lookup_insert_ne.
      * apply NoDup_singleton.
      * set_solver.
      * cbn [task_ok]. fields. rewrite lookup_insert_eq, lookup_delete_eq. split_and!; [done|set_solver|by eexists|done..].
    + eexists. split; [done|]. eapply (leave_ok s _ t (TFree p zip false) (TFreeEnd p None) p b); try done; fields.
      * intros q Hq. by rewrite lookup_insert_ne.
      * apply NoDup_singleton.
      * set_solver.
      * cbn [task_ok]. fields. rewrite lookup_insert_eq. split_and!; [set_solver|by eexists|done].
Qed.

Lemma reinsert_ok s t p d c : inv s → tasks s !! t = Some (TReinsert p c) → pages s !! d = None → good (Some t) s (reinsert s t p d c).
Proof.
  intros Hi Ht Hd. pose proof (v_tasks _ Hi t _ Ht) as (Hm & HpL & [b Hb] & Hk & Hz & Hfix & Hio). destruct (fresh_block s d Hi Hd) as [HdL Hdc].
  pose proof (f_entry _ _ _ _ _ (v_fits _ Hi) (id c)) as Hn. rewrite Hk in Hn. assert (p ≠ d) as Hpd by congruence.
  assert (take_over s (id c) = Some (with_watch (with_hash s (page_hash s)) (watch s), occ (id c) (refs s))) as Hto.
  { unfold take_over. rewrite Hk, Hn. by destruct s. }
  unfold reinsert. rewrite Hk, Hb. cbn [mbind option_bind]. set (st := if _ =? 0 then _ else _). eexists. split; [done|].
  eapply (enter_ok s (page_hash s) (watch s) _ t (TReinsert p c) (TFreeEnd p (Some d)) (id c) d (set_io (set_state c st) BUF_IO_PIN)); try done; fields.
  - by rewrite Hk.
  - unfold block_ok, st. cbn [set_io set_state state zip_data oldest_modification]. destruct (Z.eqb_spec (oldest_modification c) 0); done.
  - cbn [set_io set_state buf_fix_count]. lia.
  - rewrite lookup_insert_ne by done. by rewrite lookup_insert_eq.
  - intros q Hq Hqp. assert (q ≠ p) by (intros ->; destruct Hqp; [done|set_solver]). by rewrite !lookup_insert_ne.
  - congruence.
  - cbn [task_ok]. fields. rewrite lookup_insert_eq. split_and!; [set_solver|by eexists|set_solver|]. eexists. rewrite lookup_insert_ne by done. by rewrite lookup_insert_eq.
  - cbn [claims option_list]. apply NoDup_cons. split; [set_solver|apply NoDup_singleton].
  - set_solver.
Qed.

Lemma free_end_ok s t p d : inv s → tasks s !! t = Some (TFreeEnd p d) → good (Some t) s (free_end s t p d).
Proof.
  intros Hi Ht. pose proof (v_tasks _ Hi t _ Ht) as (HpL & Hb & Hd).
  assert (∃ m, match d with Some d => set_page_io s d BUF_IO_NONE | None => Some s end = Some (with_pages s m) ∧
    fits m (page_hash s) (watch s) (LRU s) (refs s) ∧ (∀ q, Some q ≠ d → m !! q = pages s !! q) ∧ (∀ q, zipped s q = true → zipped (with_pages s m) q = true))
    as (m & Hs1 & Hf & Hold & Hz).
  { destruct d as [q|]; [|exists (pages s); split_and!; [by destruct s|apply Hi|done|done]]. destruct Hd as (Hq & b & Hbq & _).
    unfold set_page_io. rewrite Hbq. eexists. split_and!; [done| |by intros q' ?; rewrite lookup_insert_ne by congruence|intros q'; by apply (insert_zipped s _ q b (set_io b BUF_IO_NONE) q' Hbq)].
    destruct (fits_listed _ _ _ _ _ _ (v_fits _ Hi) Hq) as (b' & Hb' & _ & _ & Hok). rewrite Hbq in Hb'. injection Hb' as <-.
    eapply fits_block; [apply Hi|done|exact Hbq|done|done|cbn [set_io buf_fix_count]; lia|done]. }
  unfold free_end. rewrite Hs1. cbn [mbind option_bind]. eexists. split; [done|]. set (s' := with_task _ _ _).
  assert (calm (Some t) s s') as Hcalm.
  { split; [intros t' _ Hm; split_and!; [done|intros q Hq; split; [done|]|done]| |intros t' Hne; unfold s'; fields; by rewrite list_lookup_insert_ne by congruence|done].
    { intros Hzq. apply Hz in Hzq. unfold zipped in *. unfold s'. fields. rewrite lookup_delete_ne; [done|by intros <-]. }
    intros t' x' q Hne Ht' Hq. split; [done|].
    unfold s'. fields. assert (q ∉ claims (TFreeEnd p d)) as Hqc by (intros Hin; eapply (claims_other s t _ t' x' q); [done|done|done|done|congruence|done]).
    cbn in Hqc. rewrite lookup_delete_ne, Hold; [done|intros <-; set_solver|set_solver]. }
  split; [|done]. eapply inv_table_thread; [done|done|exact (task_set s t _ _ Ht)|done| |apply Hi|refine (claims_drop s t _ _ Hi Ht _); reflexivity|done].
  unfold s'. fields. eapply fits_other; [|eapply fits_ext; [|exact Hf]].
  - intros q Hq. rewrite lookup_delete_ne; [done|]. by intros <-.
  - intros k. unfold refs. fields. rewrite !occ_app, (occ_task _ _ _ _ _ Ht). cbn [watched occ Zsum]. lia.
Qed.

(** * All steps *)

Definition thread_of (l : label) : option nat :=
  match l with LSet t _ | LUnset t | LRead t _ _ _ _ _ | LCreate t _ _ _ | LFree t _ _ | LRun t _ => Some t | _ => None end.

Lemma thread_idle_true s t : idle s t = true → tasks s !! t = Some TIdle.
Proof. unfold idle. by destruct (tasks s !! t) as [[]|]. Qed.

Lemma page_run_ok s t d : inv s → enabled P (LRun t d) s = true → good (Some t) s (do_op (LRun t d) s).
Proof.
  intros Hi [Hd%bool_decide_eq_true He]%andb_true_iff. cbn [do_op]. destruct (tasks s !! t) as [[|k|k|k|p create|p zip keep|p c|p q]|] eqn:Ht; try done.
  - by apply watch_set_locked_ok.
  - apply read_compressed_ok; [done|done|by apply bool_decide_eq_true in He|done].
  - by apply zip_allocated_ok.
  - by apply free_locked_ok.
  - by apply reinsert_ok.
  - by apply free_end_ok.
Qed.

Lemma clean_ok s p b :
  inv s → p ∈ LRU s → pages s !! p = Some b → io_fix b = BUF_IO_WRITE → oldest_modification b ≠ 0 → good None s (buf_flush_remove s p).
Proof.
  intros Hi Hp Hb Hio Hmod. destruct (fits_listed _ _ _ _ _ _ (v_fits _ Hi) Hp) as (b' & Hb' & _ & _ & Hok). rewrite Hb in Hb'. injection Hb' as <-.
  assert (p ∉ tasks s ≫= claims) as Hc by (eapply unclaimed; [done|done|exact Hb|congruence..]).
  unfold buf_flush_remove. rewrite Hb. cbn [mbind option_bind]. unfold block_ok in Hok. destruct (state b) eqn:Hst; try done.
  - by destruct Hok.
  - eapply change_ok; [done|done|exact Hb|done| |done|done|done]. by destruct Hok.
  - eapply change_ok; [done|done|exact Hb|done| |done|done|done]. unfold block_ok. cbn. by rewrite Hst.
Qed.

Lemma table_step_ok l s : inv s → enabled P l s = true → good (thread_of l) s (do_op l s).
Proof.
  intros Hi He. destruct l as [t k|t|t k p c u dl|t k p c|t p zip|t d|k|k|k d|p io|p n|p]; cbn [thread_of].
  - apply andb_true_iff in He as [[Ht%thread_idle_true Hm%bool_decide_eq_true]%andb_true_iff Hlt%Nat.ltb_lt]. by apply watch_set_ok.
  - cbn [enabled do_op] in *. destruct (tasks s !! t) as [[]|] eqn:Ht; try done. by apply watch_unset_ok.
  - apply andb_true_iff in He as [[Ht%thread_idle_true Hm%bool_decide_eq_true]%andb_true_iff Hp%bool_decide_eq_true]. by apply page_read_ok.
  - apply andb_true_iff in He as [[Ht%thread_idle_true Hm%bool_decide_eq_true]%andb_true_iff Hp%bool_decide_eq_true]. by apply create_ok.
  - apply andb_true_iff in He as [[Ht%thread_idle_true Hm%bool_decide_eq_true]%andb_true_iff Hp%bool_decide_eq_true]. by apply page_free_ok.
  - by apply page_run_ok.
  - cbn [do_op]. destruct (page_hash s !! k) as [[i|p]|] eqn:Hk; [| by apply fix_ok|]; (eexists; split; [done|split; [done|by apply quiet_server]]).
  - apply bool_decide_eq_true in He. destruct (user_page s k Hi He) as (p & b & Hk & _ & Hb & _). cbn [do_op]. unfold buf_block_unfix. rewrite Hk. cbn [mbind option_bind].
    rewrite Hb. by apply unfix_ok.
  - apply andb_true_iff in He as [[[Hu%bool_decide_eq_true Hm%bool_decide_eq_true]%andb_true_iff Hd%bool_decide_eq_true]%andb_true_iff _]. by apply decompress_ok.
  - apply andb_true_iff in He as [[Hp%bool_decide_eq_true Hc%negb_true_iff%bool_decide_eq_false]%andb_true_iff _].
    destruct (fits_listed _ _ _ _ _ _ (v_fits _ Hi) Hp) as (b & Hb & _ & _ & Hok). cbn [do_op]. unfold set_page_io. rewrite Hb. by eapply change_ok.
  - apply andb_true_iff in He as [[Hp%bool_decide_eq_true _]%andb_true_iff Hb]. cbn [do_op]. destruct (pages s !! p) as [b|] eqn:Hpb; [|done].
    apply andb_true_iff in Hb as [Hst%bool_decide_eq_true _]. eapply change_ok; [done|done|exact Hpb|done| |done|done|done]. unfold block_ok. cbn. by rewrite Hst.
  - apply andb_true_iff in He as [Hp%bool_decide_eq_true Hb]. destruct (pages s !! p) as [b|] eqn:Hpb; [|done].
    apply andb_true_iff in Hb as [Hio%bool_decide_eq_true Hmod%negb_true_iff%Z.eqb_neq]. by eapply clean_ok.
Qed.

Lemma init_table_inv n : inv (init P n).
Proof.
  assert (∀ A (f : task → list A), f TIdle = [] → replicate n TIdle ≫= f = []) as Hb.
  { intros A f Hf. induction n as [|m IH]; [done|]. cbn. by rewrite Hf, IH. }
  split; cbn [init pages page_hash watch LRU tasks users].
  - split; [| |].
    + intros k. rewrite lookup_empty. unfold refs. cbn [init tasks users]. by rewrite Hb.
    + set_solver.
    + by intros i k m [? _]%lookup_replicate.
  - set_solver.
  - by intros t x [-> _]%lookup_replicate.
  - rewrite Hb by done. constructor.
  - apply length_replicate.
Qed.

Lemma reachable_table_inv n s : rtc (step P) (init P n) s → inv s.
Proof.
  intros H. remember (init P n) as s0 eqn:E. assert (inv s0) as Hi by (subst; apply init_table_inv). clear E. induction H as [|s0 s1 s2 (l & He & Hd) _ IH]; [done|].
  apply IH. destruct (table_step_ok l s0 Hi He) as (s' & Hs' & ? & _). congruence.
Qed.

Lemma trace_head ls s tr : trace P ls s = Some tr → ∃ tr', tr = s :: tr'.
Proof.
  destruct ls as [|l ls]; cbn [trace]; [intros [= <-]; by eexists|]. destruct (enabled P l s); [|done]. destruct (do_op l s) as [s1|]; [|done].
  cbn [mbind option_bind]. destruct (trace P ls s1); [|done]. intros [= <-]. by eexists.
Qed.

(** A thread that watches for a page and does nothing else is told whether the page has come. *)
Lemma watching s t k : inv s → tasks s !! t = Some (TWatch k) → k ∈ refs s ∧ buf_pool_watch_occurred s k = Some (is_page (page_hash s !! k)).
Proof.
  intros Hi Ht. assert (k ∈ refs s) as Hk.
  { apply elem_of_app. left. apply list_elem_of_bind. exists (TWatch k). split; [by left|by eapply list_elem_of_lookup_2]. }
  split; [done|]. pose proof (f_entry _ _ _ _ _ (v_fits _ Hi) k) as He. unfold buf_pool_watch_occurred. destruct (page_hash s !! k) as [[]|]; [done|done|].
  apply occ_elem in Hk. lia.
Qed.

Lemma watching_run t k ls : ∀ s tr s', inv s → tasks s !! t = Some (TWatch k) → Forall (λ l, thread_of l ≠ Some t) ls →
  trace P ls s = Some tr → last tr = Some s' →
  buf_pool_watch_occurred s' k = Some (existsb (λ s, is_page (page_hash s !! k)) tr).
Proof.
  induction ls as [|l ls IH]; intros s tr s' Hi Ht Hls Htr Hlast; cbn [trace] in Htr.
  - injection Htr as <-. injection Hlast as <-. cbn [existsb]. rewrite orb_false_r. apply (watching s t k Hi Ht).
  - apply Forall_cons in Hls as [Hl Hls]. destruct (enabled P l s) eqn:He; [|done]. destruct (table_step_ok l s Hi He) as (s1 & Hs1 & Hi1 & Hc). rewrite Hs1 in Htr.
    cbn [mbind option_bind] in Htr. destruct (trace P ls s1) as [tr1|] eqn:Htr1; [|done]. injection Htr as <-.
    assert (tasks s1 !! t = Some (TWatch k)) as Ht1 by (by rewrite (c_tasks _ _ _ Hc)).
    destruct (trace_head _ _ _ Htr1) as [tr' ->]. rewrite (IH s1 (s1 :: tr') s' Hi1 Ht1 Hls Htr1 Hlast). f_equal. cbn [existsb].
    destruct (is_page (page_hash s !! k)) eqn:Hp; [|done]. rewrite (c_watch _ _ _ Hc k); [done|apply (watching s t k Hi Ht)|done].
Qed.

End threads.

Lemma trace_reach P ls : ∀ s tr s', trace P ls s = Some tr → last tr = Some s' → rtc (step P) s s'.
Proof.
  induction ls as [|l ls IH]; intros s tr s' Htr Hlast; cbn [trace] in Htr; [injection Htr as <-; injection Hlast as <-; constructor|]. destruct (enabled P l s) eqn:He; [|done].
  destruct (do_op l s) as [s1|] eqn:Hs1; [|done]. cbn [mbind option_bind] in Htr. destruct (trace P ls s1) as [tr1|] eqn:Htr1; [|done]. injection Htr as <-.
  destruct (trace_head _ _ _ _ Htr1) as [tr' ->]. eapply rtc_l; [by exists l|by eapply IH].
Qed.

Definition page7 : page_id := (1, 7).

(** C13: Whatever the threads do, no operation on the page table fails: pages that are looked up
    are there, no page is entered twice, there is always a sentinel for a watch and every page
    that is moved or removed is the one that the page table points to.  The page table points to
    exactly the control blocks of the LRU list, and the fix count of a page or of a sentinel is
    the number of threads that refer to the page: so a page that someone uses or watches for is
    not freed, and a sentinel is in use only as long as someone watches. *)
Theorem table_consistent P n s :
  rtc (step P) (init P n) s →
  (∀ l, enabled P l s = true → is_Some (do_op l s)) ∧
  (∀ k, match page_hash s !! k with
        | Some (EPage p) => p ∈ LRU s ∧ ∃ b, pages s !! p = Some b ∧ id b = k ∧ buf_fix_count b = occ k (refs s)
        | Some (EWatch i) => watch s !! i = Some (Some (k, occ k (refs s))) ∧ 0 < occ k (refs s)
        | None => k ∉ refs s
        end) ∧
  (∀ p, p ∈ LRU s → ∃ b, pages s !! p = Some b ∧ page_hash s !! id b = Some (EPage p)).
Proof.
  intros Hi%reachable_table_inv. pose proof (v_fits _ _ Hi) as Hf. split_and!.
  - intros l He. destruct (table_step_ok P l s Hi He) as (s' & -> & _). by eexists.
  - intros k. pose proof (f_entry _ _ _ _ _ Hf k) as He. destruct (page_hash s !! k) as [[i|p]|]; [done| |rewrite occ_elem; lia].
    destruct He as (? & b & ? & ? & ? & _). split; [done|by exists b].
  - apply Hf.
Qed.

Lemma table_consistent_witness :
  match trace 1 [LSet 0 page7; LRun 0 0; LRead 1 page7 5 true true false; LRun 1 0; LGet page7] (init 1 2) with
  | Some tr =>
      match last tr with
      | Some s => page_hash s !! page7 = Some (EPage 5) ∧ occ page7 (refs s) = 2 ∧ (∃ b, pages s !! 5%nat = Some b ∧ buf_fix_count b = 2) ∧ is_Some (do_op (LRelease page7) s)
      | None => False
      end
  | None => False
  end.
Proof.
  destruct (trace _ _ _) as [tr|] eqn:Htr; [|vm_compute in Htr; discriminate]. destruct (last tr) as [s|] eqn:Hs.
  2: { apply last_None in Hs as ->. vm_compute in Htr. discriminate. }
  destruct (table_consistent 1 2 s (trace_reach _ _ _ _ _ Htr Hs)) as (H1 & H2 & _).
  assert (page_hash s !! page7 = Some (EPage 5) ∧ occ page7 (refs s) = 2 ∧ enabled 1 (LRelease page7) s = true) as (Hk & Ho & He).
  { vm_compute in Htr. injection Htr as <-. cbn in Hs. injection Hs as <-. vm_compute. done. }
  split_and!; [done|done| |by apply H1]. specialize (H2 page7). rewrite Hk, Ho in H2. destruct H2 as (_ & b & ? & _ & ?). by exists b.
Defined.

(** C16: The watch of a purge thread works: as long as the thread has not ended it,
    [buf_pool_watch_occurred] tells it whether the page has been in the pool at any time since
    the watch was set, whatever the other threads do in between, and it never fails.  A page that
    comes is not freed before the watch ends. *)
Theorem watch_works P n s t k ls tr s' :
  rtc (step P) (init P n) s → tasks s !! t = Some (TWatch k) →
  Forall (λ l, thread_of l ≠ Some t) ls → trace P ls s = Some tr → last tr = Some s' →
  buf_pool_watch_occurred s' k = Some (existsb (λ s, is_page (page_hash s !! k)) tr).
Proof. intros Hi%reachable_table_inv Ht Hls Htr Hlast. by eapply watching_run. Qed.

Lemma watch_works_witness :
  match trace 1 [LSet 0 page7; LRun 0 0] (init 1 2) with
  | Some [_; _; s] =>
      match trace 1 [LRead 1 page7 5 false false false; LIo 5 BUF_IO_NONE; LFree 1 5 true; LGet page7] s with
      | Some [_; _; _; _; s'] => buf_pool_watch_occurred s page7 = Some false ∧ buf_pool_watch_occurred s' page7 = Some true
      | _ => False
      end
  | _ => False
  end.
Proof.
  destruct (trace 1 [LSet _ _; _] _) as [tr|] eqn:Htr; [|vm_compute in Htr; discriminate].
  assert (∃ a b s, tr = [a; b; s] ∧ tasks s !! 0%nat = Some (TWatch page7)) as (a & b & s & -> & Hs).
  { vm_compute in Htr. injection Htr as <-. by eexists _, _, _. }
  destruct (trace 1 [LRead _ _ _ _ _ _; _; _; _] s) as [tr|] eqn:Htr'.
  - assert (∃ a1 a2 a3 a4 s', tr = [a1; a2; a3; a4; s'] ∧ is_page (page_hash s !! page7) = false ∧ existsb (λ s, is_page (page_hash s !! page7)) tr = true)
      as (a1 & a2 & a3 & a4 & s' & -> & Hno & Hex).
    { vm_compute in Htr. injection Htr as <- <- <-. vm_compute in Htr'. injection Htr' as <-. by eexists _, _, _, _, _. }
    pose proof (trace_reach _ _ _ _ _ Htr eq_refl) as Hr. split.
    + rewrite (watch_works 1 2 s 0 page7 [] [s] s Hr Hs ltac:(constructor) eq_refl eq_refl). cbn [existsb]. by rewrite Hno.
    + rewrite <- Hex. eapply (watch_works 1 2 s 0 page7 _ _ s' Hr Hs); [|exact Htr'|done]. by repeat constructor.
  - vm_compute in Htr. injection Htr as <- <- <-. vm_compute in Htr'. discriminate.
Defined.

End BufTable.
