(* ===== verification/Timers.v ===== *)
(** The timer exercises of Lab5: a counter printed and incremented by the handlers of one timer
    (src/Lab5/timer_async_arg.cpp), of two timers served by two threads (timer_2thread.cpp), and
    of two timers with a strand (timer_fix_race.cpp).

    Boost.Asio is not part of the repository: when it starts the handler of an armed timer is
    the parameter [may_start], and what the documentation says of strands is a hypothesis.
    A step of a handler is one access to the counter. *)

From S2P Require Import Prelude.

Local Open Scope Z_scope.

Module Timers.

(** A timer: waiting with a handler that is wrapped by the strand or not, inside its handler,
    or not armed any more. *)
Inductive timer :=
  | Armed (wrapped : bool)
  | CheckLimit (wrapped : bool)
  | PrintCount (wrapped : bool)
  | ReadCount (wrapped : bool)
  | WriteCount (wrapped : bool) (c : Z)
  | Rearm (wrapped : bool)
  | Stopped.

Inductive main_pc := Running | Returned.

(** The output: the timer and the count of each line, and the final count. *)
Record state := State { count : Z; timers : list timer; lines : list (nat * Z); final : option Z; main : main_pc }.

Definition in_handler (t : timer) : bool := match t with Armed _ | Stopped => false | _ => true end.

Definition wrapped_running (t : timer) : bool :=
  match t with
  | CheckLimit w | PrintCount w | ReadCount w | WriteCount w _ | Rearm w => w
  | Armed _ | Stopped => false
  end.

Section program.
(** [limit] is the bound in the handler, [may_start] the decision of the [io_service]. *)
Context (limit : Z) (may_start : state → nat → bool).

Definition set_timer (s : state) (i : nat) (t : timer) : state :=
  State (count s) (<[i := t]> (timers s)) (lines s) (final s) (main s).

(** [Print]: the handler of timer [i].  The first wait of timer_fix_race.cpp is wrapped by the
    strand; the handler arms the timer again without it. *)
Definition Print (s : state) (i : nat) (t : timer) : option state :=
  match t with
  | Armed w => if may_start s i then Some (set_timer s i (CheckLimit w)) else None
  | CheckLimit w => Some (set_timer s i (if count s <? limit then PrintCount w else Stopped))
  | PrintCount w => Some (State (count s) (<[i := ReadCount w]> (timers s)) (lines s ++ [(i, count s)]) (final s) (main s))
  | ReadCount w => Some (set_timer s i (WriteCount w (count s)))
  | WriteCount w c => Some (State (i32 (c + 1)) (<[i := Rearm w]> (timers s)) (lines s) (final s) (main s))
  | Rearm w => Some (set_timer s i (Armed false))
  | Stopped => None
  end.

(** [io.run()] returns when no timer is armed or handled any more; then the final count is
    printed. *)
Definition main_step (s : state) : option state :=
  match main s with
  | Running => if forallb (λ t, match t with Stopped => true | _ => false end) (timers s)
               then Some (State (count s) (timers s) (lines s) (Some (count s)) Returned) else None
  | Returned => None
  end.

Inductive who := Main | Handler (i : nat).

Definition next (c : who) (s : state) : option state :=
  match c with Main => main_step s | Handler i => t ← timers s !! i; Print s i t end.

Definition run (s s' : state) : Prop := ∃ c, next c s = Some s'.

End program.

(** The timers as the three programs arm them. *)
Definition async_arg_init : state := State 0 [Armed false] [] None Running.
Definition two_threads_init : state := State 0 [Armed false; Armed false] [] None Running.
Definition fix_race_init : state := State 0 [Armed true; Armed true] [] None Running.

(** The handlers of the three programs differ in the limit only. *)
Definition async_arg_run : (state → nat → bool) → state → state → Prop := run 5.
Definition two_threads_run : (state → nat → bool) → state → state → Prop := run 10.
Definition fix_race_run : (state → nat → bool) → state → state → Prop := run 10.

(** * Two timers *)

Section two.
Context (limit : Z) (may_start : state → nat → bool) (Hlimit : 0 < limit < 2 ^ 31 - 2).

(** Past the check and before the write. *)
Definition in_flight (t : timer) : bool := match t with PrintCount _ | ReadCount _ | WriteCount _ _ => true | _ => false end.

Definition held (t : timer) (P : Z → Prop) : Prop := match t with WriteCount _ c => P c | _ => True end.

(** What a handler in flight can still do to the count. *)
Definition pair_ok (n : Z) (t u : timer) : Prop :=
  held t (λ c, 0 ≤ c ≤ limit) ∧ held u (λ c, 0 ≤ c ≤ limit) ∧ 0 ≤ n ≤ limit + 1 ∧
  (in_flight t = true → in_flight u = true → n < limit ∧ held t (λ c, c < limit) ∧ held u (λ c, c < limit)) ∧
  (in_flight t = true → n ≤ limit ∧ held t (λ c, c = limit → n = limit)) ∧
  (in_flight u = true → n ≤ limit ∧ held u (λ c, c = limit → n = limit)) ∧
  (t = Stopped → u = Stopped → limit ≤ n).

Definition inv2 (s : state) : Prop :=
  ∃ t u, timers s = [t; u] ∧ pair_ok (count s) t u ∧
    match main s with Running => final s = None | Returned => final s = Some (count s) ∧ t = Stopped ∧ u = Stopped end.

Lemma pair_ok_sym n t u : pair_ok n t u → pair_ok n u t.
Proof. unfold pair_ok. intuition. Qed.

(** A step of one of the handlers. *)
Lemma pair_ok_step s i t u s' :
  pair_ok (count s) t u → Print limit may_start s i t = Some s' →
  ∃ t', timers s' = <[i := t']> (timers s) ∧ pair_ok (count s') t' u ∧ final s' = final s ∧ main s' = main s ∧ t ≠ Stopped.
Proof.
  intros (H1 & H2 & [H3 H3b] & H4 & H5 & H6 & H7) H. unfold pair_ok. destruct t as [w|w|w|w|w c|w|]; cbn in H, H1, H4, H5, H7.
  - destruct (may_start s i); [|done]. injection H as <-. exists (CheckLimit w). by split_and!.
  - injection H as <-. destruct (Z.ltb_spec (count s) limit) as [Hlt|Hge].
    + exists (PrintCount w). cbn. split_and!; try done; [|lia].
      intros _ Hu. destruct (H6 Hu) as [Hn Hh]. split_and!; [done|done|]. destruct u; cbn in *; try done. lia.
    + exists Stopped. by split_and!.
  - injection H as <-. exists (ReadCount w). by split_and!.
  - injection H as <-. exists (WriteCount w (count s)). cbn. destruct (H5 eq_refl) as [Hn _]. split_and!; try done; try lia.
    intros _ Hu. destruct (H4 eq_refl Hu) as (? & _ & ?). by split_and!.
  - injection H as <-. exists (Rearm w). cbn. rewrite i32_id by lia. split_and!; try done; [lia..|].
    intros Hu. destruct (H4 eq_refl Hu) as (Hn & Hc & Hh). split; [lia|]. destruct u; cbn in *; try done. lia.
  - injection H as <-. exists (Armed false). by split_and!.
  - done.
Qed.

Lemma inv2_run s s' : inv2 s → run limit may_start s s' → inv2 s'.
Proof.
  intros (t & u & Ht & Hp & Hm) [[|i] H]; cbn [next] in H.
  - unfold main_step in H. destruct (main s) eqn:Em; [|done]. rewrite Ht in H. destruct t, u; try done. injection H as <-. by exists Stopped, Stopped.
  - rewrite Ht in H. destruct i as [|[|i]]; cbn in H.
    + destruct (pair_ok_step s 0 t u s' Hp H) as (t' & E & Hp' & Ef & Em & Hns). rewrite Ht in E. exists t', u. rewrite E, Ef, Em. split_and!; [done..|].
      destruct (main s); [done|]. by destruct Hm as (_ & ? & _).
    + destruct (pair_ok_step s 1 u t s' (pair_ok_sym _ _ _ Hp) H) as (u' & E & Hp' & Ef & Em & Hns). rewrite Ht in E. exists t, u'.
      rewrite E, Ef, Em. split_and!; [done|by apply pair_ok_sym|]. destruct (main s); [done|]. by destruct Hm as (_ & _ & ?).
    + done.
Qed.

End two.

(** * Going on *)

(** The [io_service] starts an armed handler at the latest when no other handler runs. *)
Definition starts_idle (may_start : state → nat → bool) : Prop :=
  ∀ s i w, timers s !! i = Some (Armed w) → (∀ t, t ∈ timers s → in_handler t = false) → may_start s i = true.

(** A strand does not run two of its handlers at the same time. *)
Definition strand_ok (may_start : state → nat → bool) : Prop :=
  ∀ s i j t, may_start s i = true → timers s !! i = Some (Armed true) → j ≠ i → timers s !! j = Some t → wrapped_running t = false.

Lemma handler_steps limit may_start s i t : timers s !! i = Some t → in_handler t = true → ∃ s', run limit may_start s s'.
Proof.
  intros Hi Ht. destruct t; try done; (eexists; exists (Handler i); cbn [next]; rewrite Hi; reflexivity).
Qed.

Lemma never_stuck limit may_start s : starts_idle may_start → main s = Running → ∃ s', run limit may_start s s'.
Proof.
  intros Hstart Hm. destruct (decide (Exists (λ t, in_handler t = true) (timers s))) as [He|He].
  - apply Exists_exists in He as (t & Ht & Hh). apply list_elem_of_lookup in Ht as [i Hi]. by eapply handler_steps.
  - assert (∀ t, t ∈ timers s → in_handler t = false) as Hidle.
    { intros t Ht. apply not_true_iff_false. intros Hh. apply He, Exists_exists. by exists t. }
    destruct (forallb (λ t, match t with Stopped => true | _ => false end) (timers s)) eqn:Hall.
    + eexists. exists Main. cbn [next]. unfold main_step. rewrite Hm, Hall. reflexivity.
    + assert (∃ i w, timers s !! i = Some (Armed w)) as (i & w & Hi).
      { destruct (existsb (λ t, match t with Armed _ => true | _ => false end) (timers s)) eqn:Ha.
        - apply existsb_exists in Ha as (t & Ht%list_elem_of_In & Ha). apply list_elem_of_lookup in Ht as [i Hi]. destruct t; try done. by eexists i, _.
        - exfalso. apply not_true_iff_false in Hall. apply Hall, forallb_forall. intros t Ht. pose proof (Hidle t (proj2 (list_elem_of_In _ _) Ht)).
          apply not_true_iff_false in Ha. destruct t; try done. exfalso. apply Ha, existsb_exists. by eexists. }
      eexists. exists (Handler i). cbn [next]. rewrite Hi. cbn. by rewrite (Hstart s i w Hi Hidle).
Qed.

(** * One timer *)

Section one.
Context (limit : Z) (may_start : state → nat → bool) (Hlimit : 0 < limit < 2 ^ 31 - 2).

(** The lines of a counter that has reached [n]. *)
Definition upto (n : Z) : list (nat * Z) := (λ k : nat, (0%nat, Z.of_nat k)) <$> seq 0 (Z.to_nat n).

Lemma upto_S n : 0 ≤ n → upto (n + 1) = upto n ++ [(0%nat, n)].
Proof.
  intros Hn. unfold upto. replace (Z.to_nat (n + 1)) with (S (Z.to_nat n)) by lia. rewrite seq_S, fmap_app. cbn.
  by rewrite Z2Nat.id by lia.
Qed.

Definition one_ok (n : Z) (t : timer) (l : list (nat * Z)) : Prop :=
  0 ≤ n ≤ limit ∧
  match t with
  | Armed _ | CheckLimit _ | Rearm _ => l = upto n
  | PrintCount _ => l = upto n ∧ n < limit
  | ReadCount _ => l = upto (n + 1) ∧ n < limit
  | WriteCount _ c => l = upto (n + 1) ∧ n < limit ∧ c = n
  | Stopped => l = upto n ∧ n = limit
  end.

Definition inv1 (s : state) : Prop :=
  ∃ t, timers s = [t] ∧ one_ok (count s) t (lines s) ∧
    match main s with Running => final s = None | Returned => final s = Some (count s) ∧ t = Stopped end.

Lemma inv1_run s s' : inv1 s → run limit may_start s s' → inv1 s'.
Proof.
  intros (t & Ht & [Hn Ho] & Hm) [[|i] H]; cbn [next] in H.
  - unfold main_step in H. destruct (main s) eqn:Em; [|done]. rewrite Ht in H. destruct t; try done. injection H as <-. by exists Stopped.
  - rewrite Ht in H. destruct i as [|i]; [|done]. cbn in H. assert (t ≠ Stopped → main s = Running ∧ final s = None) as Hr.
    { intros Hns. destruct (main s); [done|]. by destruct Hm as [_ ?]. }
    unfold inv1, one_ok. destruct t as [w|w|w|w|w c|w|]; cbn in H; try (destruct (Hr ltac:(done)) as [Em Ef]); [..|done].
    + destruct (may_start s 0%nat); [|done]. injection H as <-. exists (CheckLimit w). cbn. by rewrite Ht, Em.
    + injection H as <-. destruct (Z.ltb_spec (count s) limit); [exists (PrintCount w)|exists Stopped]; cbn; rewrite Ht, Em; (split_and!; try done; lia).
    + injection H as <-. exists (ReadCount w). cbn. destruct Ho as [Ho ?]. rewrite Ht, Em, upto_S by lia. rewrite Ho. by split_and!; try lia.
    + injection H as <-. exists (WriteCount w (count s)). cbn. rewrite Ht, Em. destruct Ho. by split_and!; try lia.
    + injection H as <-. destruct Ho as (Ho & Hlt & ->). exists (Rearm w). cbn. rewrite Ht, Em, i32_id by lia. split_and!; try done; lia.
    + injection H as <-. exists (Armed false). cbn. rewrite Ht, Em. by split_and!; try lia.
Qed.

End one.

(** * Theorems *)

(** One timer counts to the limit: the program prints 0 to 4 and the final count 5; until
    then it can always go on. *)
Theorem async_arg_correct may_start s :
  starts_idle may_start → reachable async_arg_init (async_arg_run may_start) s →
  (main s = Returned → snd <$> lines s = [0; 1; 2; 3; 4] ∧ final s = Some 5) ∧ (main s = Running → ∃ s', async_arg_run may_start s s').
Proof.
  intros Hstart Hs. split; [|by apply never_stuck].
  assert (inv1 5 s) as (t & Ht & [Hn Ho] & Hm).
  { eapply reachable_invariant; [|intros; by eapply (inv1_run 5 may_start)|exact Hs]. exists (Armed false). by split_and!. }
  intros Em. rewrite Em in Hm. destruct Hm as [Hf ->]. destruct Ho as [Hl Hc]. by rewrite Hf, Hl, Hc.
Qed.

(** C29: two timers on two threads: although the handlers race on the counter, every run that ends
    prints 10 or 11 as the final count, with or without the strand around the first handlers,
    and until then the program can always go on. *)
Theorem two_timers_final may_start s :
  starts_idle may_start →
  reachable two_threads_init (two_threads_run may_start) s ∨ reachable fix_race_init (fix_race_run may_start) s →
  (main s = Returned → final s = Some 10 ∨ final s = Some 11) ∧ (main s = Running → ∃ s', fix_race_run may_start s s').
Proof.
  intros Hstart Hs. split; [|by apply never_stuck].
  assert (inv2 10 s) as (t & u & Ht & Hp & Hm).
  { destruct Hs as [Hs|Hs]; (eapply reachable_invariant; [|intros; by eapply (inv2_run 10 may_start)|exact Hs]);
      eexists _, _; (split; [reflexivity|]); by split_and!. }
  intros Em. rewrite Em in Hm. destruct Hm as (Hf & -> & ->). destruct Hp as (_ & _ & H1 & _ & _ & _ & H2). specialize (H2 eq_refl eq_refl).
  rewrite Hf. assert (count s = 10 ∨ count s = 11) as [-> | ->] by lia; auto.
Qed.


(** The [io_service] of the samples: it starts whatever the strand allows. *)
Definition strand_start (s : state) (i : nat) : bool :=
  match timers s !! i with
  | Some (Armed true) => negb (existsb wrapped_running (timers s))
  | _ => true
  end.

Lemma strand_start_ok : strand_ok strand_start ∧ starts_idle strand_start.
Proof.
  unfold strand_ok, starts_idle, strand_start. split.
  - intros s i j t Hs Hi _ Hj. rewrite Hi in Hs. apply negb_true_iff in Hs. apply not_true_iff_false. intros Ht.
    apply not_true_iff_false in Hs. apply Hs, existsb_exists. exists t. split; [|done]. by eapply list_elem_of_In, list_elem_of_lookup_2.
  - intros s i w Hi Hidle. rewrite Hi. destruct w; [|done]. apply negb_true_iff, not_true_iff_false. intros H.
    apply existsb_exists in H as (t & Ht%list_elem_of_In & Hw). specialize (Hidle t Ht). by destruct t.
Qed.

Definition pass (i : nat) : list who := replicate 6 (Handler i).

Definition async_arg_sched : list who := concat (replicate 5 (pass 0)) ++ [Handler 0; Handler 0; Main].
Definition async_arg_end : state :=
  Eval vm_compute in default async_arg_init (run_sched (next 5 strand_start) async_arg_sched async_arg_init).

Lemma async_arg_correct_witness : snd <$> lines async_arg_end = [0; 1; 2; 3; 4] ∧ final async_arg_end = Some 5.
Proof.
  destruct (async_arg_correct strand_start async_arg_end) as [H _].
  - apply strand_start_ok.
  - apply (run_sched_rtc (next 5 strand_start) async_arg_sched). vm_compute. reflexivity.
  - by apply H.
Defined.

(** Both handlers pass the check when the count is nine. *)
Definition race_sched : list who :=
  pass 0 ++ pass 1 ++ concat (replicate 7 (pass 0)) ++ [Handler 0; Handler 1; Handler 0; Handler 1] ++
  replicate 4 (Handler 0) ++ replicate 4 (Handler 1) ++ [Handler 0; Handler 0; Handler 1; Handler 1; Main].
Definition race_end : state :=
  Eval vm_compute in default fix_race_init (run_sched (next 10 strand_start) race_sched fix_race_init).

Lemma two_timers_final_witness : main race_end = Returned ∧ (final race_end = Some 10 ∨ final race_end = Some 11).
Proof.
  split; [done|]. apply (two_timers_final strand_start race_end); [apply strand_start_ok| |done]. right.
  apply (run_sched_rtc (next 10 strand_start) race_sched). vm_compute. reflexivity.
Defined.

(** The strand of timer_fix_race.cpp does not repair the race: the handlers arm their timers
    again without it, so a service that respects the strand can still let both handlers pass the
    check at nine, print the same count twice or skip one, and end with eleven. *)
Theorem fix_race_still_races :
  ∃ may_start s, strand_ok may_start ∧ starts_idle may_start ∧ reachable fix_race_init (fix_race_run may_start) s ∧
    main s = Returned ∧ final s = Some 11 ∧ length (lines s) = 11%nat.
Proof.
  exists strand_start, race_end. destruct strand_start_ok as [H1 H2]. split_and!; try done.
  apply (run_sched_rtc (next 10 strand_start) race_sched). vm_compute. reflexivity.
Qed.

End Timers.
